(* ===== verification/_CoqProject ===== *)
-Q . S2P
Prelude.v
Prog.v
RustStr.v
Net.v
Domain.v
Garage.v
GarageAdapter.v
Json.v
Auth.v
StoreModels.v
PrincipalAuth.v
ApiError.v
Cipher.v
Tables.v
Receipts.v
ReceiptLemmas.v
Store.v
StoreEffects.v
StoreStep.v
Samples.v
UsageProps.v
ReceiptProtocol.v
Commands.v
Idempotency.v
ServiceInv.v
ServiceProps.v
CredentialInv.v
CredentialProps.v
Takeover.v
Refusals.v
Completions.v
Locks.v
Routes.v
Config.v
RouteProps.v
RouteErrors.v
ApiSamples.v
Router.v
RouteTraces.v
RouteBounds.v
RouteReplay.v
Access.v
Link.v
Wire.v
OpenApi.v
UnitTests.v
