(* ===== verification/Prelude.v ===== *)
(** * HeteroCloud Syouyu: a verification library

    Syouyu sells S3 buckets.  A control plane ("the provider") asks it over HTTP to
    reconcile or delete a service instance, which owns exactly one bucket; customers
    ask it, through a gateway that signs their identity, for credentials of that
    bucket and for usage.  The service keeps its state in PostgreSQL and acts on a
    Garage cluster through Garage's administration API.  It is meant to run as
    several processes, to be retried and to be killed at any moment.

    ** The program and its model

    The crates under [src/crates], and the files that model them.

    - [syouyu-domain/src/lib.rs]: [Domain].  Types as records and inductives, every
      [validate] as a function into [result], with [RustStr] for the string and
      character functions of the standard library it uses.
    - [syouyu-auth/src/lib.rs]: [Auth].  The verifier of the provider's tokens.
    - [syouyu-store/src/models.rs], [cipher.rs] and [lib.rs]: [StoreModels] (commands,
      records, errors, request hash), [Cipher] (receipt encryption), [Tables] (the
      schema of [migrations/*.sql], the transaction monad [Tx], faults), [Receipts]
      (idempotency, leases, fencing) and [Store] (all other methods of [PgStore]).
    - [syouyu-garage/src/lib.rs]: [Garage].  The administration client, as programs
      of HTTP exchanges, with bounded reading of bodies and decoding of errors.
    - [syouyu-api/src/garage.rs]: [GarageAdapter]; [principal_auth.rs]:
      [PrincipalAuth]; [error.rs]: [ApiError]; [routes.rs]: [Routes] (every handler),
      [RouteProps.ApiRequest]/[handle] (the handlers by request), [Router] (paths,
      methods, extractors, layers: from an HTTP request to its reply) and [OpenApi]
      (the published document); [config.rs] and [main.rs]: [Config] (with [Net] for
      socket addresses) and [Link] (the assembly of handlers and adapter into the
      running service).
    - The unit tests of all crates: [UnitTests], evaluated on the model.

    [Prelude], [Prog] and [Json] are shared: results, machine integers, finite maps;
    effectful programs; JSON values.  A fallible function returns [result]; a
    transaction is a [Tx], a function of the tables that also lists the locks it
    takes; asynchronous code that calls a trait is a finite tree [prog] of calls,
    with [runs p tr a] (it can return [a] after the calls and answers [tr]) and
    [exec] (the same against a shared state that others change in between).  Every
    definition computes, so that the witnesses evaluate it.

    Integers keep their width: an [i64] or [u64] is a [Z] with the checked,
    saturating or failing operation the code uses; database columns are bounded by
    the conversions at the boundary.  A [Uuid] is an [N], a timestamp the number of
    microseconds.  Tables are [gmap]s on the primary key; each statement is the
    update its text describes, guarded by the constraints it can violate, and by the
    one PostgreSQL puts on every TEXT and JSONB value: no NUL character.

    ** Concurrency and faults

    PostgreSQL runs each transaction atomically ([Tables.transaction]); it can fail
    before the commit, or commit and lose the acknowledgement ([Fault]).
    [StoreStep.store_step] is one call of one method with arbitrary arguments,
    clock, identifiers and fault, so [reachable] covers every interleaving of
    processes, retries and crashes.  The advisory and row locks a transaction asks
    for are recorded and ordered in [Locks] ([FOR UPDATE] locks the rows it finds, a
    missing row is not locked); that the locks and the isolation level of PostgreSQL
    make the transactions that take them atomic is assumed, and so is that the hashes
    of two different advisory locks differ.  The overview and the list of credentials
    take no lock: they are two statements that may see different states.

    ** What is proved

    - Receipts ([ReceiptLemmas], [ReceiptProtocol], [Commands], [Idempotency],
      [Takeover], [Refusals], [Completions]): the store simulates, call by call and
      answer by answer, an abstract machine of operations that are started once and
      alone on their service, taken over only from their deadline on, finished once
      and replayed for ever; attempts that lost their lease are fenced; an operation
      that was granted is answered again for ever; a new request is granted or refused
      for a named reason, never because of a constraint or of corrupt data; whoever
      holds the lease can finish, with success, with a recorded failure, or with the
      report that a unique value is taken or that the service's name cannot be stored.
    - Tables ([StoreEffects], [StoreStep], [ServiceInv], [ServiceProps],
      [CredentialInv], [CredentialProps], [UsageProps]): what each committed
      transaction changes, the invariants of all reachable databases (ready services
      own their names, reservations belong to creations in progress, limits hold,
      deleted services have nothing left) and what runs can never do (decrease a
      generation, revive a credential, rename a bucket).  [UsageProps] states what a
      measurement writes.
    - Locks ([Locks]): the advisory locks cannot deadlock; the receipt's row lock is
      taken in two orders.
    - Handlers ([RouteProps], [RouteErrors], [RouteTraces], [RouteBounds],
      [RouteReplay]): they use the store only as its transition system allows, always
      answer within a bounded number of calls, report success only for recorded
      results, store their failures, delete buckets only under guard, and answer
      retries from the record.  [Access]: they stay within the service instance of the
      verified token or signed context.
    - Router ([Router], [OpenApi]): which requests reach which handler and which get
      404 or 405, one identifier for the response and the audit log, given what the
      frameworks document of routes and layers; the document against the routes.
    - Adapter and client ([Garage], [GarageAdapter]): bounds of body reading, what a
      successful key issue or bucket reconciliation did in Garage, what is undone.
    - The linked service ([Link], [Wire]): on the wire, Garage is changed only under a
      lease, a recorded credential is the key Garage issued, and, run on the database
      with everything else that happens to it, the service names to Garage only what
      belongs to the instance the request acts for.
    - Boundaries ([Domain], [Auth], [PrincipalAuth], [Cipher], [StoreModels],
      [Config]): the validators and verifiers accept exactly what is written down,
      encrypted receipts are bound to their operation; what a configuration that
      loads guarantees, every way in which a start-up can still stop, and its order.

    [Samples] and [ApiSamples] hold the concrete run on which properties with
    hypotheses are instantiated.

    ** Parameters and laws

    Code outside the repository is a class of operations, with what the code relies
    on as a class of laws; concrete instances show that the laws can hold.
    [UrlLib]/[UrlLaws] (url), [GarageLib] (reqwest, http, JSON decoders),
    [AxumLib]/[AxumLaws] (axum, tower-http and Swagger UI: matching of patterns,
    dispatch to routes and fallbacks, layers, extractors),
    [AuthLib]/[JwtLaws]/[UuidText] (http headers, jsonwebtoken, the text of a UUID),
    [PrincipalLib]/[PrincipalLaws] (base64, HMAC-SHA256, chrono), [ApiLib] (SHA-256,
    serialization of request bodies), [StartupLib] (base64 of the configuration),
    [SerdeJson]/[SerdeJsonLaws], [Aead]/[AeadLaws] (AES-256-GCM: decrypts what it
    encrypted, refuses other associated data).  [HashBinds] says that the request
    hash of a reconciliation determines its bucket name (collision freedom where it
    is used; the function is the argument [bucket_of]), [StableClaims] that a token
    that verifies twice has the same claims.  Identifiers the code draws are inputs;
    where a theorem needs one to be fresh it says so.

    ** Termination

    No definition uses fuel.  The loops of the code run over lists the code holds
    (keys, credentials, chunks) and are structural; programs are finite trees, and
    [RouteBounds] bounds the calls of every handler, whatever is answered.

    ** Not modelled

    The pages of Swagger UI and the rendering of the OpenAPI document; tracing, and
    the headers axum and tower add by themselves; the pool and the migrator of sqlx;
    the waiting for signals in [main.rs]; the serialization that [serde] derives (the
    JSON of requests and responses is written out, decoders are parameters); indexes of
    the schema, which only affect speed; [Debug] output.  Of the unit tests, the two
    whose only subject is a derived decoder, and the sockets of the mock servers. *)

From stdpp Require Export base gmap strings list fin_maps sorting.
From Stdlib Require Export ZArith Lia.
From Stdlib Require Ascii Strings.Byte.

#[global] Set Default Goal Selector "!".

(** ** Fallible code: Rust's [Result] *)

Inductive result (E A : Type) : Type :=
| Ok (a : A)
| Err (e : E).
Arguments Ok {E A} a.
Arguments Err {E A} e.

#[global] Instance result_ret (E : Type) : MRet (result E) := fun A a => Ok a.
#[global] Instance result_bind (E : Type) : MBind (result E) :=
  fun A B f m => match m with Ok a => f a | Err e => Err e end.
#[global] Instance result_eq_dec {E A : Type} `{EqDecision E, EqDecision A} :
  EqDecision (result E A).
Proof. solve_decision. Defined.

(** [Result::map_err], [Option::ok_or], [Result::is_ok] and the early return
    [if !b { return Err(e) }]. *)
Definition map_err {E F A : Type} (f : E -> F) (r : result E A) : result F A :=
  match r with Ok a => Ok a | Err e => Err (f e) end.
Definition ok_or {E A : Type} (e : E) (o : option A) : result E A :=
  match o with Some a => Ok a | None => Err e end.
Definition is_ok {E A : Type} (r : result E A) : bool :=
  match r with Ok _ => true | Err _ => false end.
Definition is_err {E A : Type} (r : result E A) : bool := negb (is_ok r).
Definition ensure {E : Type} (b : bool) (e : E) : result E unit :=
  if b then Ok tt else Err e.
Definition is_some {A : Type} (o : option A) : bool :=
  match o with Some _ => true | None => false end.
Definition is_none {A : Type} (o : option A) : bool := negb (is_some o).

(** ** Machine integers

    A [w]-bit integer is a [Z]; the range predicates and the checked and
    saturating operations are those of Rust's standard library. *)

Definition i64_min : Z := - 2 ^ 63.
Definition i64_max : Z := 2 ^ 63 - 1.
Definition u64_max : Z := 2 ^ 64 - 1.
Definition u32_max : Z := 2 ^ 32 - 1.
Definition u16_max : Z := 2 ^ 16 - 1.

Definition in_i64 (z : Z) : bool := (i64_min <=? z)%Z && (z <=? i64_max)%Z.
Definition in_u64 (z : Z) : bool := (0 <=? z)%Z && (z <=? u64_max)%Z.
Definition in_u32 (z : Z) : bool := (0 <=? z)%Z && (z <=? u32_max)%Z.
Definition in_u16 (z : Z) : bool := (0 <=? z)%Z && (z <=? u16_max)%Z.

Definition i64_checked_add (a b : Z) : option Z :=
  if in_i64 (a + b) then Some (a + b)%Z else None.
Definition i64_checked_sub (a b : Z) : option Z :=
  if in_i64 (a - b) then Some (a - b)%Z else None.
Definition i64_saturate (z : Z) : Z := Z.max i64_min (Z.min i64_max z).
Definition i64_saturating_add (a b : Z) : Z := i64_saturate (a + b).
Definition i64_saturating_sub (a b : Z) : Z := i64_saturate (a - b).
Definition u64_saturating_add (a b : Z) : Z := Z.min u64_max (a + b).
Definition i64_try_from_u64 (z : Z) : option Z := if (z <=? i64_max)%Z then Some z else None.
Definition u64_try_from_i64 (z : Z) : option Z := if (0 <=? z)%Z then Some z else None.
Definition u16_try_from_i32 (z : Z) : option Z := if in_u16 z then Some z else None.

(** ** Identifiers, times and bytes

    A UUID is its 128-bit value; [is_nil] is the all-zero test.  A timestamp is
    a number of microseconds, PostgreSQL's resolution. *)

Abbreviation Uuid := N (only parsing).
Abbreviation DateTime := Z (only parsing).
Abbreviation bytes := (list Byte.byte) (only parsing).

Definition is_nil (u : Uuid) : bool := N.eqb u 0.

#[global] Instance byte_eq_dec : EqDecision Byte.byte := Byte.byte_eq_dec.

Definition second : Z := 1000000.

(** The 16 bytes of a UUID, most significant first ([Uuid::as_bytes]). *)
Definition byte_of_N (n : N) : Byte.byte :=
  match Byte.of_N (n mod 256) with Some b => b | None => Byte.x00 end.
Fixpoint be_bytes (count : nat) (n : N) : bytes :=
  match count with
  | O => []
  | S c => be_bytes c (n / 256) ++ [byte_of_N n]
  end.
Definition as_bytes (u : Uuid) : bytes := be_bytes 16 u.

(** ** Tables as finite maps *)

Section maps.
Context {K V : Type} `{Countable K}.

Definition map_existsb (f : K -> V -> bool) (m : gmap K V) : bool :=
  existsb (fun kv => f kv.1 kv.2) (map_to_list m).

(** SQL's [count( * )] over the rows that satisfy a condition. *)
Definition map_countb (f : V -> bool) (m : gmap K V) : nat :=
  length (List.filter (fun kv => f kv.2) (map_to_list m)).

(** [UPDATE ... SET g WHERE f]: the matching rows change in place. *)
Definition map_update_where (f : V -> bool) (g : V -> V) (m : gmap K V) : gmap K V :=
  (fun v => if f v then g v else v) <$> m.

(** [DELETE ... WHERE f]. *)
Definition map_delete_where (f : K -> V -> bool) (m : gmap K V) : gmap K V :=
  filter (fun kv => f kv.1 kv.2 = false) m.
End maps.

(** [ORDER BY]: a stable insertion sort for a boolean order. *)
Section sort.
Context {A : Type} (leb : A -> A -> bool).
Fixpoint insert_sorted (x : A) (l : list A) : list A :=
  match l with
  | [] => [x]
  | y :: l' => if leb x y then x :: l else y :: insert_sorted x l'
  end.
Definition order_by (l : list A) : list A := foldr insert_sorted [] l.
End sort.

(** ** Shared lemmas and automation *)

Create HintDb syouyu.
Create Rewrite HintDb syouyu.

(** Open the existential hypotheses, keeping their names. *)
Ltac destruct_exists :=
  repeat match goal with
  | H : exists x : _, _ |- _ => let y := fresh x in destruct H as [y H]
  end.

(** Close a first-order equivalence between constructors after the case split. *)
Ltac crush :=
  simpl; repeat (split || intro); destruct_exists; destruct_or?; destruct_and?; destruct_exists;
  destruct_and?; simplify_eq/=; eauto.

Lemma result_bind_Ok {E A B : Type} (m : result E A) (f : A -> result E B) b :
  m ≫= f = Ok b <-> exists a, m = Ok a /\ f a = Ok b.
Proof. destruct m; crush. Qed.

Lemma result_bind_Err {E A B : Type} (m : result E A) (f : A -> result E B) e :
  m ≫= f = Err e <-> m = Err e \/ exists a, m = Ok a /\ f a = Err e.
Proof. destruct m; crush. Qed.

Lemma ensure_Ok {E : Type} b (e : E) u : ensure b e = Ok u <-> b = true.
Proof. destruct b, u; unfold ensure; crush. Qed.

Lemma ensure_Err {E : Type} b (e e' : E) : ensure b e = Err e' <-> b = false /\ e = e'.
Proof. destruct b; unfold ensure; crush. Qed.

Lemma map_err_Ok {E F A : Type} (f : E -> F) (r : result E A) a :
  map_err f r = Ok a <-> r = Ok a.
Proof. destruct r; unfold map_err; crush. Qed.

Lemma ok_or_Ok {E A : Type} (e : E) (o : option A) a : ok_or e o = Ok a <-> o = Some a.
Proof. destruct o; unfold ok_or; crush. Qed.

Lemma is_ok_true {E A : Type} (r : result E A) : is_ok r = true <-> exists a, r = Ok a.
Proof. destruct r; unfold is_ok; crush. Qed.

#[export] Hint Rewrite @result_bind_Ok @ensure_Ok @map_err_Ok @ok_or_Ok : syouyu.
#[export] Hint Rewrite andb_true_iff orb_true_iff negb_true_iff andb_false_iff orb_false_iff
  negb_false_iff : syouyu.
#[export] Hint Rewrite Z.leb_le Z.ltb_lt Z.eqb_eq Z.leb_gt Z.ltb_ge Z.eqb_neq
  Nat.leb_le Nat.ltb_lt Nat.eqb_eq Nat.leb_gt Nat.ltb_ge Nat.eqb_neq
  N.eqb_eq N.eqb_neq String.eqb_eq String.eqb_neq bool_decide_eq_true bool_decide_eq_false
  : syouyu.

(** Open a hypothesis that a monadic computation returned [Ok]. *)
Ltac open_ok :=
  repeat (progress (autorewrite with syouyu in *; destruct_and?; destruct_exists; simplify_eq)).

(** Reflect every boolean guard of the context. *)
Ltac reflect := autorewrite with syouyu in *.

Section map_lemmas.
Context {K V : Type} `{Countable K}.
Implicit Types (m : gmap K V) (k : K) (v : V).

Lemma map_existsb_true (f : K -> V -> bool) m :
  map_existsb f m = true <-> exists k v, m !! k = Some v /\ f k v = true.
Proof.
  unfold map_existsb. rewrite existsb_exists. split.
  - intros ([k v] & Hin & Hf). exists k, v.
    by rewrite <- elem_of_map_to_list, list_elem_of_In.
  - intros (k & v & Hk & Hf). exists (k, v).
    by rewrite <- list_elem_of_In, elem_of_map_to_list.
Qed.

Lemma map_existsb_false (f : K -> V -> bool) m :
  map_existsb f m = false <-> forall k v, m !! k = Some v -> f k v = false.
Proof.
  rewrite <- not_true_iff_false, map_existsb_true. split.
  - intros Hn k v Hk. destruct (f k v) eqn:E; [|done]. exfalso. eauto.
  - intros Hn (k & v & Hk & Hf). specialize (Hn k v Hk). congruence.
Qed.

Lemma filter_length_perm {A : Type} (f : A -> bool) (l l' : list A) :
  l ≡ₚ l' -> length (List.filter f l) = length (List.filter f l').
Proof. induction 1; simpl; repeat case_match; simpl; congruence. Qed.

Lemma map_countb_empty (f : V -> bool) : map_countb f (∅ : gmap K V) = 0.
Proof. unfold map_countb. by rewrite map_to_list_empty. Qed.

Lemma map_countb_insert_None (f : V -> bool) m k v :
  m !! k = None -> map_countb f (<[k:=v]> m) = Nat.b2n (f v) + map_countb f m.
Proof.
  intros Hk. unfold map_countb.
  rewrite (filter_length_perm _ _ _ (map_to_list_insert m k v Hk)).
  simpl. by destruct (f v).
Qed.

Lemma map_countb_delete (f : V -> bool) m k v :
  m !! k = Some v -> map_countb f m = Nat.b2n (f v) + map_countb f (delete k m).
Proof.
  intros Hk. rewrite <- (insert_delete_id m k v Hk) at 1.
  by rewrite map_countb_insert_None by apply lookup_delete_eq.
Qed.

Lemma map_countb_insert_Some (f : V -> bool) m k v v0 :
  m !! k = Some v0 ->
  map_countb f (<[k:=v]> m) + Nat.b2n (f v0) = Nat.b2n (f v) + map_countb f m.
Proof.
  intros Hk. rewrite (map_countb_delete f m k v0 Hk), <- insert_delete_eq,
    map_countb_insert_None by apply lookup_delete_eq. lia.
Qed.

Lemma map_countb_fmap_le (f : V -> bool) (g : V -> V) m :
  (forall k v, m !! k = Some v -> f (g v) = true -> f v = true) ->
  map_countb f (g <$> m) <= map_countb f m.
Proof.
  induction m as [|k v m Hk IH] using map_ind; intros Hg.
  - by rewrite fmap_empty, !map_countb_empty.
  - rewrite fmap_insert, !map_countb_insert_None; [|done|by rewrite lookup_fmap, Hk].
    assert (Nat.b2n (f (g v)) <= Nat.b2n (f v)).
    { specialize (Hg k v (lookup_insert_eq _ _ _)). destruct (f (g v)), (f v); simpl; auto.
      discriminate (Hg eq_refl). }
    assert (map_countb f (g <$> m) <= map_countb f m); [|lia].
    apply IH. intros k' v' Hk'. apply (Hg k'). rewrite lookup_insert_ne; congruence.
Qed.

Lemma map_countb_filter_le (f : V -> bool) (P : K * V -> Prop) `{forall x, Decision (P x)} m :
  map_countb f (filter P m) <= map_countb f m.
Proof.
  induction m as [|k v m Hk IH] using map_ind; [by rewrite map_filter_empty|].
  rewrite (map_countb_insert_None f m) by done.
  destruct (decide (P (k, v))).
  - rewrite map_filter_insert_True, map_countb_insert_None; [lia| |done].
    rewrite map_lookup_filter, Hk. done.
  - rewrite map_filter_insert_False, delete_id; [lia|done|done].
Qed.

Lemma map_countb_zero (f : V -> bool) m :
  map_countb f m = 0 <-> forall k v, m !! k = Some v -> f v = false.
Proof.
  split.
  - intros H0 k v Hk. rewrite (map_countb_delete f m k v Hk) in H0.
    destruct (f v); [simpl in H0; lia|done].
  - induction m as [|k v m Hk IH] using map_ind; intros Hf; [apply map_countb_empty|].
    rewrite map_countb_insert_None by done.
    rewrite (Hf k v) by apply lookup_insert_eq. simpl. apply IH.
    intros k' v' Hk'. apply (Hf k'). rewrite lookup_insert_ne; congruence.
Qed.

Lemma lookup_update_where (f : V -> bool) (g : V -> V) m k :
  map_update_where f g m !! k = (fun v => if f v then g v else v) <$> m !! k.
Proof. apply lookup_fmap. Qed.

Lemma lookup_delete_where (f : K -> V -> bool) m k v :
  map_delete_where f m !! k = Some v <-> m !! k = Some v /\ f k v = false.
Proof. unfold map_delete_where. by rewrite map_lookup_filter_Some. Qed.
End map_lemmas.

Section sort_lemmas.
Context {A : Type} (leb : A -> A -> bool).
Context (leb_total : forall x y, leb x y = true \/ leb y x = true).
Context (leb_trans : forall x y z, leb x y = true -> leb y z = true -> leb x z = true).

Lemma insert_sorted_perm x l : insert_sorted leb x l ≡ₚ x :: l.
Proof.
  induction l as [|y l IH]; simpl; [done|]. case_match; [done|].
  rewrite IH. apply Permutation_swap.
Qed.

Lemma order_by_perm l : order_by leb l ≡ₚ l.
Proof.
  induction l as [|x l IH]; simpl; [done|]. by rewrite insert_sorted_perm, IH.
Qed.

Lemma insert_sorted_HdRel x y l :
  leb x y = true -> HdRel (fun a b => leb a b = true) x l ->
  HdRel (fun a b => leb a b = true) x (insert_sorted leb y l).
Proof. intros Hxy Hl. destruct l; simpl; [by constructor|]. case_match; inversion Hl; by constructor. Qed.

Lemma insert_sorted_Sorted x l :
  Sorted (fun a b => leb a b = true) l ->
  Sorted (fun a b => leb a b = true) (insert_sorted leb x l).
Proof.
  induction 1 as [|y l Hl IH Hy]; simpl; [by repeat constructor|].
  destruct (leb x y) eqn:E; [by repeat constructor|].
  constructor; [done|]. apply insert_sorted_HdRel; [|done].
  destruct (leb_total x y); congruence.
Qed.

Lemma order_by_Sorted l : Sorted (fun a b => leb a b = true) (order_by leb l).
Proof. induction l; simpl; [constructor|by apply insert_sorted_Sorted]. Qed.
End sort_lemmas.

(** The big-endian bytes determine the number below [256 ^ count]. *)
Lemma byte_of_N_inj a b : byte_of_N a = byte_of_N b -> (a mod 256 = b mod 256)%N.
Proof.
  unfold byte_of_N. intros Hab.
  assert (Hsome : forall n : N, exists x, Byte.of_N (n mod 256) = Some x).
  { intros n. destruct (Byte.of_N (n mod 256)) eqn:E; [eauto|].
    apply Byte.of_N_None_iff in E. pose proof (N.mod_upper_bound n 256). lia. }
  destruct (Hsome a) as [x Hx], (Hsome b) as [y Hy]. rewrite Hx, Hy in Hab. subst y.
  apply Byte.to_of_N in Hx. apply Byte.to_of_N in Hy. congruence.
Qed.

Lemma be_bytes_length c n : length (be_bytes c n) = c.
Proof. revert n. induction c; intros n; simpl; [done|]. rewrite length_app, IHc. simpl. lia. Qed.

Lemma be_bytes_inj c a b :
  (a < 256 ^ N.of_nat c)%N -> (b < 256 ^ N.of_nat c)%N -> be_bytes c a = be_bytes c b -> a = b.
Proof.
  revert a b. induction c as [|c IH]; intros a b Ha Hb Hab.
  - simpl in *. lia.
  - rewrite Nat2N.inj_succ, N.pow_succ_r' in Ha, Hb. simpl in Hab.
    apply app_inj_2 in Hab as [Hhi Hlo]; [|done].
    assert (Hd : (a mod 256 = b mod 256)%N) by (apply byte_of_N_inj; congruence).
    assert (Hq : (a / 256 = b / 256)%N).
    { apply IH; [apply N.Div0.div_lt_upper_bound; lia|apply N.Div0.div_lt_upper_bound; lia|done]. }
    rewrite (N.div_mod' a 256), (N.div_mod' b 256). congruence.
Qed.

Lemma as_bytes_length u : length (as_bytes u) = 16.
Proof. apply be_bytes_length. Qed.

Lemma as_bytes_inj u v : (u < 2 ^ 128)%N -> (v < 2 ^ 128)%N -> as_bytes u = as_bytes v -> u = v.
Proof. apply (be_bytes_inj 16). Qed.

(** Text split at the first occurrence of a separator. *)
Lemma split_at_first {A : Type} (c : A) a b x y :
  c ∉ a -> c ∉ b -> a ++ c :: x = b ++ c :: y -> a = b /\ x = y.
Proof.
  revert b. induction a as [|d a IH]; intros [|e b] Ha Hb H; simplify_eq/=; [done| | |].
  - rewrite elem_of_cons in Hb. tauto.
  - rewrite elem_of_cons in Ha. tauto.
  - rewrite elem_of_cons in Ha, Hb. destruct (IH b) as [-> ->]; tauto.
Qed.
