(* ===== verification/Prog.v ===== *)
(** * Programs with effects

    The asynchronous code calls traits whose implementations are elsewhere.  Such
    a function is a finite tree of calls: [Vis e k] performs the call [e] and
    continues with its answer.  [runs p tr a] says that [p] can return [a] after
    the calls and answers of [tr], whatever answers them; [exec] additionally
    threads the shared state the calls act on, with steps of other processes
    before each call. *)

From stdpp Require Import relations.
From S2P Require Import Prelude.

Inductive prog (E : Type -> Type) (A : Type) : Type :=
| Ret (a : A)
| Vis {X : Type} (e : E X) (k : X -> prog E A).
Arguments Ret {E A} a.
Arguments Vis {E A X} e k.

Fixpoint prog_bind {E : Type -> Type} {A B : Type} (f : A -> prog E B) (p : prog E A) : prog E B :=
  match p with
  | Ret a => f a
  | Vis e k => Vis e (fun x => prog_bind f (k x))
  end.

#[global] Instance prog_mret (E : Type -> Type) : MRet (prog E) := fun A a => Ret a.
#[global] Instance prog_mbind (E : Type -> Type) : MBind (prog E) := fun A B f p => prog_bind f p.

Definition call {E : Type -> Type} {X : Type} (e : E X) : prog E X := Vis e Ret.

(** [expr?] in an [async] function: the error returns early. *)
Definition try_bind {E : Type -> Type} {R A B : Type} (m : prog E (result R A))
    (k : A -> prog E (result R B)) : prog E (result R B) :=
  m ≫= fun r => match r with Ok a => k a | Err e => Ret (Err e) end.

(** [m.map_err(f)]. *)
Definition prog_map_err {E : Type -> Type} {R S A : Type} (f : R -> S) (m : prog E (result R A))
  : prog E (result S A) := m ≫= fun r => Ret (map_err f r).

Declare Scope prog_scope.
Delimit Scope prog_scope with prog.
Notation "x ←? m ; k" := (try_bind m (fun x => k))
  (at level 20, m at level 100, k at level 200, right associativity,
   format "x  ←?  m ;  '/' k") : prog_scope.
Open Scope prog_scope.

(** ** Traces *)

Inductive event (E : Type -> Type) : Type :=
| Event {X : Type} (e : E X) (answer : X).
Arguments Event {E X} e answer.

Fixpoint runs {E : Type -> Type} {A : Type} (p : prog E A) (tr : list (event E)) (a : A) : Prop :=
  match p with
  | Ret b => tr = [] /\ a = b
  | Vis e k => exists x tr', tr = Event e x :: tr' /\ runs (k x) tr' a
  end.

(** Execution on a shared state: [env] is what other processes can do, [h] what
    an answered call does. *)
Fixpoint exec {E : Type -> Type} {A W : Type} (env : W -> W -> Prop)
    (h : forall X : Type, E X -> W -> X -> W -> Prop) (p : prog E A) (w : W)
    (tr : list (event E)) (a : A) (w' : W) : Prop :=
  match p with
  | Ret b => tr = [] /\ a = b /\ w' = w
  | Vis e k => exists w1 x w2 tr', tr = Event e x :: tr' /\ rtc env w w1 /\ h _ e w1 x w2 /\
                                   exec env h (k x) w2 tr' a w'
  end.

(** Every call of [p], with whatever answer, satisfies [Q] after the calls
    [past] and those [p] made before it. *)
Fixpoint always {E : Type -> Type} {A : Type} (Q : list (event E) -> event E -> Prop)
    (past : list (event E)) (p : prog E A) : Prop :=
  match p with
  | Ret _ => True
  | Vis e k => forall x, Q past (Event e x) /\ always Q (past ++ [Event e x]) (k x)
  end.

(** The run in which [h] answers every call. *)
Fixpoint drive {E : Type -> Type} {A : Type} (h : forall X : Type, E X -> X) (p : prog E A)
  : list (event E) * A :=
  match p with
  | Ret a => ([], a)
  | Vis e k => let x := h _ e in let (tr, a) := drive h (k x) in (Event e x :: tr, a)
  end.

(** The run in which [h] answers every call from a state. *)
Fixpoint drive_state {E : Type -> Type} {A W : Type} (h : forall X : Type, E X -> W -> X * W)
    (p : prog E A) (w : W) : list (event E) * A * W :=
  match p with
  | Ret a => ([], a, w)
  | Vis e k =>
      let xw := h _ e w in
      let r := drive_state h (k xw.1) xw.2 in (Event e xw.1 :: r.1.1, r.1.2, r.2)
  end.

(** ** Linking

    [interp h p] is [p] with every call answered by a program of another effect;
    [expands h tr0 tr]: the calls of [tr0], each replaced by a run of its
    implementation with the same answer, make up [tr]. *)

Fixpoint interp {E F : Type -> Type} {A : Type} (h : forall X : Type, E X -> prog F X)
    (p : prog E A) : prog F A :=
  match p with
  | Ret a => Ret a
  | Vis e k => h _ e ≫= fun x => interp h (k x)
  end.

Inductive expands {E F : Type -> Type} (h : forall X : Type, E X -> prog F X)
  : list (event E) -> list (event F) -> Prop :=
| expands_nil : expands h [] []
| expands_cons X (e : E X) x t tr0 tr :
    runs (h X e) t x -> expands h tr0 tr -> expands h (Event e x :: tr0) (t ++ tr).

Section prog_lemmas.
Context {E : Type -> Type}.

Lemma runs_bind {A B : Type} (p : prog E A) (f : A -> prog E B) tr b :
  runs (p ≫= f) tr b <-> exists tr1 tr2 a, tr = tr1 ++ tr2 /\ runs p tr1 a /\ runs (f a) tr2 b.
Proof.
  revert tr. induction p as [a|X e k IH]; intros tr; simpl.
  - split; [by exists [], tr, a|]. by intros (? & ? & ? & -> & [-> ->] & ?).
  - split.
    + intros (x & tr' & -> & (tr1 & tr2 & a & -> & H1 & H2)%IH).
      exists (Event e x :: tr1), tr2, a. eauto 10.
    + intros (? & tr2 & a & -> & (x & tr1 & -> & H1) & H2).
      exists x, (tr1 ++ tr2). split; [done|]. apply IH. eauto 10.
Qed.

Lemma runs_try {R A B : Type} (m : prog E (result R A)) (k : A -> prog E (result R B)) tr r :
  runs (try_bind m k) tr r <->
  (exists e, runs m tr (Err e) /\ r = Err e) \/
  (exists tr1 tr2 a, tr = tr1 ++ tr2 /\ runs m tr1 (Ok a) /\ runs (k a) tr2 r).
Proof.
  unfold try_bind. rewrite runs_bind. split.
  - intros (tr1 & tr2 & [a|e] & -> & H1 & H2); [eauto 10|].
    destruct H2 as [-> ->]. rewrite app_nil_r. eauto.
  - intros [(e & H1 & ->)|(tr1 & tr2 & a & -> & H1 & H2)].
    + exists tr, [], (Err e). by rewrite app_nil_r.
    + by exists tr1, tr2, (Ok a).
Qed.

Lemma runs_call {X : Type} (e : E X) tr x : runs (call e) tr x <-> tr = [Event e x].
Proof.
  simpl. split; [by intros (y & tr' & -> & -> & ->)|]. intros ->. by exists x, [].
Qed.

Lemma runs_ret_try {R A B : Type} (m : result R A) (k : A -> prog E (result R B)) tr r :
  runs (try_bind (Ret m) k) tr r <->
  (exists e, m = Err e /\ tr = [] /\ r = Err e) \/ (exists a, m = Ok a /\ runs (k a) tr r).
Proof.
  destruct m as [a|e]; unfold try_bind; simpl; split.
  - eauto.
  - intros [(e & [=] & _)|(b & [= <-] & Hr)]. done.
  - intros [-> ->]. eauto.
  - by intros [(e' & [= <-] & -> & ->)|(b & [=] & _)].
Qed.

Lemma runs_map_err {R S A : Type} (f : R -> S) (m : prog E (result R A)) tr r :
  runs (prog_map_err f m) tr r <-> exists r', runs m tr r' /\ r = map_err f r'.
Proof.
  unfold prog_map_err. rewrite runs_bind. split.
  - intros (tr1 & tr2 & r' & -> & H1 & -> & ->). rewrite app_nil_r. eauto.
  - intros (r' & H1 & ->). exists tr, [], r'. by rewrite app_nil_r.
Qed.

Lemma drive_runs {A : Type} (h : forall X : Type, E X -> X) (p : prog E A) :
  runs p (drive h p).1 (drive h p).2.
Proof.
  induction p as [a|X e k IH]; simpl; [done|].
  specialize (IH (h X e)). destruct (drive h (k (h X e))) as [tr a]. eauto.
Qed.

Lemma always_bind {A B : Type} Q past (p : prog E A) (f : A -> prog E B) :
  always Q past p -> (forall tr a, runs p tr a -> always Q (past ++ tr) (f a)) ->
  always Q past (p ≫= f).
Proof.
  revert past. induction p as [a|X e k IH]; intros past Hp Hf; simpl in *.
  - rewrite <- (app_nil_r past). by apply Hf.
  - intros x. destruct (Hp x) as [Hq Hk]. split; [done|]. apply IH; [done|].
    intros tr a Hr. rewrite <- app_assoc. apply Hf. eauto.
Qed.

Lemma always_try {R A B : Type} Q past (m : prog E (result R A)) (k : A -> prog E (result R B)) :
  always Q past m -> (forall tr a, runs m tr (Ok a) -> always Q (past ++ tr) (k a)) ->
  always Q past (try_bind m k).
Proof. intros Hm Hk. apply always_bind; [done|]. intros tr [a|e] Hr; [by apply Hk|done]. Qed.

Lemma always_map_err {R S A : Type} Q past (f : R -> S) (m : prog E (result R A)) :
  always Q past m -> always Q past (prog_map_err f m).
Proof. intros Hm. by apply always_bind. Qed.

Lemma always_call {X : Type} Q past (e : E X) :
  (forall x, Q past (Event e x)) -> always Q past (call e).
Proof. intros Hq x. by split. Qed.

Lemma always_elim {A : Type} Q past (p : prog E A) tr a tr1 ev tr2 :
  always Q past p -> runs p tr a -> tr = tr1 ++ ev :: tr2 -> Q (past ++ tr1) ev.
Proof.
  revert past tr tr1. induction p as [b|X e k IH]; intros past tr tr1 Hp Hr ->; simpl in *.
  - destruct Hr as [Hr _]. by destruct tr1.
  - destruct Hr as (x & tr' & Htr & Hr). destruct (Hp x) as [Hq Hk].
    destruct tr1 as [|ev1 tr1]; simplify_eq/=.
    + by rewrite app_nil_r.
    + rewrite cons_middle, app_assoc. by eapply IH.
Qed.

Lemma always_Forall {A : Type} (P : event E -> Prop) past (p : prog E A) tr a :
  always (fun _ ev => P ev) past p -> runs p tr a -> Forall P tr.
Proof.
  revert past tr. induction p as [b|X e k IH]; intros past tr Hp; simpl.
  - by intros [-> _].
  - intros (x & tr' & -> & Hr). destruct (Hp x). constructor; [done|]. by eapply IH.
Qed.

Section exec_lemmas.
Context {W : Type} (env : W -> W -> Prop) (h : forall X : Type, E X -> W -> X -> W -> Prop).

Lemma exec_runs {A : Type} (p : prog E A) w tr a w' : exec env h p w tr a w' -> runs p tr a.
Proof.
  revert w tr. induction p as [b|X e k IH]; intros w tr; simpl.
  - by intros (-> & -> & _).
  - intros (w1 & x & w2 & tr' & -> & _ & _ & Hk). eauto.
Qed.

Lemma exec_bind {A B : Type} (p : prog E A) (f : A -> prog E B) w tr b w' :
  exec env h (p ≫= f) w tr b w' <->
  exists tr1 tr2 a w1, tr = tr1 ++ tr2 /\ exec env h p w tr1 a w1 /\ exec env h (f a) w1 tr2 b w'.
Proof.
  revert w tr. induction p as [a|X e k IH]; intros w tr; simpl.
  - split; [by exists [], tr, a, w|]. by intros (? & ? & ? & ? & -> & (-> & -> & ->) & ?).
  - split.
    + intros (w1 & x & w2 & tr' & -> & Hs & He & (tr1 & tr2 & a & w3 & -> & H1 & H2)%IH).
      exists (Event e x :: tr1), tr2, a, w3. eauto 20.
    + intros (? & tr2 & a & w3 & -> & (w1 & x & w2 & tr1 & -> & Hs & He & H1) & H2).
      exists w1, x, w2, (tr1 ++ tr2). split_and!; [done..|]. apply IH. eauto 10.
Qed.

Lemma exec_try {R A B : Type} (m : prog E (result R A)) (k : A -> prog E (result R B)) w tr r w' :
  exec env h (try_bind m k) w tr r w' <->
  (exists e, exec env h m w tr (Err e) w' /\ r = Err e) \/
  (exists tr1 tr2 a w1, tr = tr1 ++ tr2 /\ exec env h m w tr1 (Ok a) w1 /\
     exec env h (k a) w1 tr2 r w').
Proof.
  unfold try_bind. rewrite exec_bind. split.
  - intros (tr1 & tr2 & [a|e] & w1 & -> & H1 & H2); [eauto 10|].
    destruct H2 as (-> & -> & ->). rewrite app_nil_r. eauto.
  - intros [(e & H1 & ->)|(tr1 & tr2 & a & w1 & -> & H1 & H2)].
    + exists tr, [], (Err e), w'. by rewrite app_nil_r.
    + by exists tr1, tr2, (Ok a), w1.
Qed.

Lemma drive_state_exec {A : Type} (h' : forall X : Type, E X -> W -> X * W) (p : prog E A) w :
  (forall X (e : E X) w, h X e w (h' X e w).1 (h' X e w).2) ->
  exec env h p w (drive_state h' p w).1.1 (drive_state h' p w).1.2 (drive_state h' p w).2.
Proof.
  intros Hh. revert w. induction p as [a|X e k IH]; intros w; simpl; [done|].
  exists w, (h' X e w).1, (h' X e w).2. eexists. split; [done|]. split; [done|]. split; [apply Hh|].
  apply IH.
Qed.

(** A program whose calls are steps of the system only makes steps of the system. *)
Lemma exec_steps {A : Type} (P : event E -> Prop) past (p : prog E A) w tr a w' :
  (forall X (e : E X) x w w', P (Event e x) -> h X e w x w' -> rtc env w w') ->
  always (fun _ ev => P ev) past p -> exec env h p w tr a w' -> rtc env w w'.
Proof.
  intros Hstep. revert past w tr. induction p as [b|X e k IH]; intros past w tr Hp; simpl in *.
  - by intros (_ & _ & ->).
  - intros (w1 & x & w2 & tr' & -> & Hs & He & Hk). destruct (Hp x) as [HP Ha].
    etrans; [exact Hs|]. etrans; [by eapply Hstep|]. by eapply IH.
Qed.

(** The state in which a call was made, and the one in which the program ends. *)
Lemma exec_split {A : Type} (P : event E -> Prop) past (p : prog E A) w tr1 X (e : E X) x tr2 a w' :
  (forall X (e : E X) x w w', P (Event e x) -> h X e w x w' -> rtc env w w') ->
  always (fun _ ev => P ev) past p -> exec env h p w (tr1 ++ Event e x :: tr2) a w' ->
  exists w1 w2, rtc env w w1 /\ h X e w1 x w2 /\ rtc env w2 w'.
Proof.
  intros Hstep. revert past w tr1. induction p as [b|Y e' k IH]; intros past w tr1 Hp; simpl in *.
  - intros (Htr & _). by destruct tr1.
  - intros (w1 & y & w2 & tr' & Htr & Hs & He & Hk). destruct (Hp y) as [HP Ha].
    destruct tr1 as [|ev1 tr1]; simpl in Htr.
    + pose proof (f_equal tail Htr) as Ht. simpl in Ht. subst tr'.
      assert (Hev : Event e x = Event e' y) by exact (inj Some _ _ (f_equal head Htr)).
      assert (Hcast : h X e w1 x w2) by exact
        (match eq_sym Hev in _ = ev return match ev with @Event _ Z e z => h Z e w1 z w2 end with
         | eq_refl => He
         end).
      exists w1, w2. split_and!; [done..|]. by eapply exec_steps.
    + pose proof (f_equal tail Htr) as Ht. simpl in Ht. subst tr'.
      destruct (IH y _ w2 tr1 Ha Hk) as (w3 & w4 & H1 & H2 & H3).
      exists w3, w4. split_and!; [|done|done].
      etrans; [exact Hs|]. etrans; [by eapply Hstep|done].
Qed.
End exec_lemmas.
End prog_lemmas.

Section linking.
Context {E F : Type -> Type} (h : forall X : Type, E X -> prog F X).

Lemma expands_cons_inv X (e : E X) x tr0 tr :
  expands h (Event e x :: tr0) tr ->
  exists t tr', tr = t ++ tr' /\ runs (h X e) t x /\ expands h tr0 tr'.
Proof.
  intros Hx. remember (Event e x :: tr0) as l eqn:Hl.
  destruct Hx as [|Y e' x' t tr1 tr' Hr Hx]; [done|].
  pose proof (f_equal tail Hl) as Ht. simpl in Ht. subst tr1.
  assert (Hev : Event e' x' = Event e x) by exact (inj Some _ _ (f_equal head Hl)).
  exists t, tr'. split_and!; [done| |done].
  exact (match Hev in _ = ev return match ev with @Event _ Z e z => runs (h Z e) t z end with
         | eq_refl => Hr
         end).
Qed.

Lemma expands_app tr0 tr1 tr :
  expands h (tr0 ++ tr1) tr <->
  exists t0 t1, tr = t0 ++ t1 /\ expands h tr0 t0 /\ expands h tr1 t1.
Proof.
  split.
  - revert tr. induction tr0 as [|[X e x] tr0 IH]; intros tr Hx; simpl in *.
    + exists [], tr. split_and!; [done|constructor|done].
    + apply expands_cons_inv in Hx as (t & tr' & -> & Hr & (t0 & t1 & -> & H0 & H1)%IH).
      exists (t ++ t0), t1. split_and!; [by rewrite app_assoc|by constructor|done].
  - intros (t0 & t1 & -> & H0 & H1).
    induction H0; simpl; [done|]. rewrite <- app_assoc. by constructor.
Qed.

(** An event of the expansion belongs to the run of one call. *)
Lemma expands_split tr0 tr t1 ev t2 :
  expands h tr0 tr -> tr = t1 ++ ev :: t2 ->
  exists past X (e : E X) x rest u0 u1 u2,
    tr0 = past ++ Event e x :: rest /\ expands h past u0 /\ runs (h X e) (u1 ++ ev :: u2) x /\
    t1 = u0 ++ u1.
Proof.
  intros Hx. revert t1. induction Hx as [|X e x t tr0 tr Hr Hx IH]; intros t1 Heq.
  { by destruct t1. }
  apply app_eq_app in Heq as (l & [[-> Hl]|[-> Hl]]).
  - destruct l as [|ev' l]; simplify_eq/=.
    + destruct (IH []) as (past & Y & e' & x' & rest & u0 & u1 & u2 & -> & Hp & Hr' & Hn); [done|].
      symmetry in Hn. apply app_nil in Hn as [-> ->].
      exists (Event e x :: past), Y, e', x', rest, (t1 ++ []), [], u2. rewrite !app_nil_r.
      split_and!; [done| |done|done]. rewrite <- (app_nil_r t1). constructor; [|done].
      by rewrite app_nil_r in Hr.
    + exists [], X, e, x, tr0, [], t1, l. split_and!; [done|constructor|done|done].
  - destruct (IH l) as (past & Y & e' & x' & rest & u0 & u1 & u2 & -> & Hp & Hr' & ->); [done|].
    exists (Event e x :: past), Y, e', x', rest, (t ++ u0), u1, u2.
    split_and!; [done|by constructor|done|by rewrite app_assoc].
Qed.
End linking.

Lemma runs_interp {E F : Type -> Type} {A : Type} (h : forall X : Type, E X -> prog F X)
    (p : prog E A) tr a :
  runs (interp h p) tr a <-> exists tr0, runs p tr0 a /\ expands h tr0 tr.
Proof.
  revert tr. induction p as [b|X e k IH]; intros tr; simpl.
  - split.
    + intros [-> ->]. exists []. split; [done|constructor].
    + intros (tr0 & [-> ->] & Hx). by inversion Hx.
  - rewrite runs_bind. setoid_rewrite IH. split.
    + intros (t & tr' & x & -> & Hh & tr0 & Hr & Hx). exists (Event e x :: tr0).
      split; [eauto|]. by constructor.
    + intros (tr0 & (x & tr1 & -> & Hr) & Hx).
      apply expands_cons_inv in Hx as (t & tr' & -> & Hh & Hx'). eauto 10.
Qed.


(** Walk through a program under [always], stopping at its calls. *)
Ltac walk :=
  repeat lazymatch goal with
  | |- always _ _ (Ret _) => exact I
  | |- always _ _ (try_bind _ _) =>
      apply always_try; [|let tr := fresh "tr" in let a := fresh "a" in
                          let Hr := fresh "Hrun" in intros tr a Hr]
  | |- always _ _ (prog_map_err _ _) => apply always_map_err
  | |- always _ _ (call _) => apply always_call; intros ?
  | |- always _ _ (mbind _ _) =>
      apply always_bind; [|let tr := fresh "tr" in let a := fresh "a" in
                           let Hr := fresh "Hrun" in intros tr a Hr]
  | |- always _ _ (match ?b with _ => _ end) => destruct b eqn:?
  | |- always _ _ (let _ := _ in _) => intros
  | |- always _ _ _ => progress cbv beta zeta
  end.
