(* ===== verification/RustStr.v ===== *)
(** * Rust strings and the parts of the standard library the code uses on them

    A Rust [str] is its UTF-8 bytes, kept as a Stdlib [string]; [len] counts
    bytes, [chars] decodes the scalar values.  The file also models the ASCII
    class tests on [u8], [char::is_control], [char::is_whitespace], [str::trim],
    [starts_with], [ends_with], [contains] and [str::parse::<Ipv4Addr>]. *)

From S2P Require Import Prelude.

(** ** Bytes *)

Definition str_bytes (s : string) : bytes := String.list_byte_of_string s.
Definition str_len (s : string) : nat := String.length s.
Definition str_is_empty (s : string) : bool := Nat.eqb (str_len s) 0.

Definition in_range (lo hi : N) (b : Byte.byte) : bool :=
  N.leb lo (Byte.to_N b) && N.leb (Byte.to_N b) hi.
Definition is_ascii_lowercase : Byte.byte -> bool := in_range 97 122.
Definition is_ascii_uppercase : Byte.byte -> bool := in_range 65 90.
Definition is_ascii_digit : Byte.byte -> bool := in_range 48 57.
Definition is_ascii_alphanumeric (b : Byte.byte) : bool :=
  is_ascii_lowercase b || is_ascii_uppercase b || is_ascii_digit b.

(** A byte-string literal such as [b'-'] is written with its one-byte string. *)
Definition is_byte (c : string) (b : Byte.byte) : bool := bool_decide (str_bytes c = [b]).

Fixpoint bytes_prefix (p l : bytes) : bool :=
  match p, l with
  | [], _ => true
  | x :: p', y :: l' => bool_decide (x = y) && bytes_prefix p' l'
  | _ :: _, [] => false
  end.
Definition starts_with (s p : string) : bool := bytes_prefix (str_bytes p) (str_bytes s).
Definition ends_with (s p : string) : bool :=
  bytes_prefix (rev (str_bytes p)) (rev (str_bytes s)).
Fixpoint bytes_contain (p l : bytes) : bool :=
  bytes_prefix p l || match l with [] => false | _ :: l' => bytes_contain p l' end.
Definition contains (s p : string) : bool := bytes_contain (str_bytes p) (str_bytes s).

(** [str::strip_prefix]. *)
Definition strip_prefix (s p : string) : option string :=
  if starts_with s p then Some (String.substring (str_len p) (str_len s - str_len p) s) else None.

(** ** UTF-8

    [decode] follows the lead byte as [str::chars] does; a [str] always holds
    valid UTF-8, so the fall-back to the replacement character is never taken on
    a value the program can have ([decode_encode]). *)

Definition continuation (b : Byte.byte) : N := N.land (Byte.to_N b) 63.

Fixpoint decode (l : bytes) : list N :=
  match l with
  | [] => []
  | b0 :: l1 =>
      let x := Byte.to_N b0 in
      if N.ltb x 128 then x :: decode l1
      else if N.ltb x 224 then
        match l1 with
        | b1 :: l2 =>
            N.lor (N.shiftl (N.land x 31) 6) (continuation b1) :: decode l2
        | _ => [65533%N]
        end
      else if N.ltb x 240 then
        match l1 with
        | b1 :: b2 :: l3 =>
            N.lor (N.shiftl (N.land x 15) 12)
              (N.lor (N.shiftl (continuation b1) 6) (continuation b2)) :: decode l3
        | _ => [65533%N]
        end
      else
        match l1 with
        | b1 :: b2 :: b3 :: l4 =>
            N.lor (N.shiftl (N.land x 7) 18)
              (N.lor (N.shiftl (continuation b1) 12)
                 (N.lor (N.shiftl (continuation b2) 6) (continuation b3))) :: decode l4
        | _ => [65533%N]
        end
  end.

Definition chars (s : string) : list N := decode (str_bytes s).

(** [char::encode_utf8] on a scalar value. *)
Definition encode_char (c : N) : bytes :=
  if N.ltb c 128 then [byte_of_N c]
  else if N.ltb c 2048 then
    [byte_of_N (192 + c / 64); byte_of_N (128 + c mod 64)]
  else if N.ltb c 65536 then
    [byte_of_N (224 + c / 4096); byte_of_N (128 + (c / 64) mod 64); byte_of_N (128 + c mod 64)]
  else
    [byte_of_N (240 + c / 262144); byte_of_N (128 + (c / 4096) mod 64);
     byte_of_N (128 + (c / 64) mod 64); byte_of_N (128 + c mod 64)].
Definition encode (cs : list N) : bytes := mbind encode_char cs.

(** PostgreSQL's [char_length] of a UTF-8 text. *)
Definition char_length (s : string) : nat := length (chars s).

(** The Unicode general category [Cc]. *)
Definition is_control (c : N) : bool := N.ltb c 32 || (N.leb 127 c && N.leb c 159).

(** No character is NUL. *)
Definition no_nul (s : string) : bool := forallb (fun c => negb (N.eqb c 0)) (chars s).

(** The Unicode property [White_Space]. *)
Definition is_whitespace (c : N) : bool :=
  (N.leb 9 c && N.leb c 13) || N.eqb c 32 || N.eqb c 133 || N.eqb c 160 || N.eqb c 5760
  || (N.leb 8192 c && N.leb c 8202) || N.eqb c 8232 || N.eqb c 8233 || N.eqb c 8239
  || N.eqb c 8287 || N.eqb c 12288.

Fixpoint drop_whitespace (cs : list N) : list N :=
  match cs with
  | [] => []
  | c :: cs' => if is_whitespace c then drop_whitespace cs' else cs
  end.
Definition trim (cs : list N) : list N := rev (drop_whitespace (rev (drop_whitespace cs))).

(** ** [str::parse::<Ipv4Addr>]

    [core::net]'s parser: four decimal numbers of at most three digits, without
    a leading zero and below 256, separated by dots and followed by nothing. *)

Fixpoint read_digits (l : bytes) (acc : N) (count : nat) : N * nat * bytes :=
  match l with
  | b :: l' =>
      if is_ascii_digit b then read_digits l' (10 * acc + (Byte.to_N b - 48)) (S count)
      else (acc, count, l)
  | [] => (acc, count, l)
  end.

Definition read_octet (l : bytes) : option (N * bytes) :=
  let leading_zero := match l with b :: _ => is_byte "0" b | [] => false end in
  let '(value, count, rest) := read_digits l 0 0 in
  if Nat.eqb count 0 || Nat.ltb 3 count || (leading_zero && Nat.ltb 1 count) || N.ltb 255 value
  then None else Some (value, rest).

Definition read_dot (l : bytes) : option bytes :=
  match l with b :: l' => if is_byte "." b then Some l' else None | [] => None end.

Definition parse_ipv4 (s : string) : option (N * N * N * N) :=
  if Nat.ltb 15 (str_len s) then None else
  '(a, l) ← read_octet (str_bytes s); l ← read_dot l;
  '(b, l) ← read_octet l; l ← read_dot l;
  '(c, l) ← read_octet l; l ← read_dot l;
  '(d, l) ← read_octet l;
  match l with [] => Some (a, b, c, d) | _ => None end.

(** [String::from_utf8_lossy]: every maximal prefix of an ill-formed sequence
    becomes one replacement character. *)
Definition replacement : N := 65533.
Definition is_continuation (b : Byte.byte) : bool := in_range 128 191 b.
(** The second byte a three- or four-byte sequence may have. *)
Definition second_byte (b0 b1 : Byte.byte) : bool :=
  let lead := Byte.to_N b0 in
  if N.eqb lead 224 then in_range 160 191 b1
  else if N.eqb lead 237 then in_range 128 159 b1
  else if N.eqb lead 240 then in_range 144 191 b1
  else if N.eqb lead 244 then in_range 128 143 b1
  else is_continuation b1.
Fixpoint from_utf8_lossy (l : bytes) : list N :=
  match l with
  | [] => []
  | b0 :: l1 =>
      if in_range 0 127 b0 then Byte.to_N b0 :: from_utf8_lossy l1
      else if in_range 194 223 b0 then
        match l1 with
        | b1 :: l2 =>
            if is_continuation b1 then decode [b0; b1] ++ from_utf8_lossy l2
            else replacement :: from_utf8_lossy l1
        | [] => [replacement]
        end
      else if in_range 224 239 b0 then
        match l1 with
        | b1 :: l2 =>
            if second_byte b0 b1 then
              match l2 with
              | b2 :: l3 =>
                  if is_continuation b2 then decode [b0; b1; b2] ++ from_utf8_lossy l3
                  else replacement :: from_utf8_lossy l2
              | [] => [replacement]
              end
            else replacement :: from_utf8_lossy l1
        | [] => [replacement]
        end
      else if in_range 240 244 b0 then
        match l1 with
        | b1 :: l2 =>
            if second_byte b0 b1 then
              match l2 with
              | b2 :: l3 =>
                  if is_continuation b2 then
                    match l3 with
                    | b3 :: l4 =>
                        if is_continuation b3 then decode [b0; b1; b2; b3] ++ from_utf8_lossy l4
                        else replacement :: from_utf8_lossy l3
                    | [] => [replacement]
                    end
                  else replacement :: from_utf8_lossy l2
              | [] => [replacement]
              end
            else replacement :: from_utf8_lossy l1
        | [] => [replacement]
        end
      else replacement :: from_utf8_lossy l1
  end.

(** [trim_end_matches] of one byte. *)
Fixpoint drop_byte (c : Byte.byte) (l : bytes) : bytes :=
  match l with
  | b :: l' => if bool_decide (b = c) then drop_byte c l' else l
  | [] => []
  end.
Definition trim_end_matches (c : Byte.byte) (s : string) : string :=
  String.string_of_list_byte (rev (drop_byte c (rev (str_bytes s)))).

(** [str::parse] of an unsigned integer type with maximum [max]: an optional [+],
    then one or more digits, each step checked for overflow. *)
Fixpoint parse_uint_digits (max : Z) (l : bytes) (acc : Z) : option Z :=
  match l with
  | [] => Some acc
  | b :: l' =>
      if is_ascii_digit b then
        let acc' := (acc * 10 + Z.of_N (Byte.to_N b - 48))%Z in
        if (acc' <=? max)%Z then parse_uint_digits max l' acc' else None
      else None
  end.
Definition parse_uint (max : Z) (s : string) : option Z :=
  match str_bytes s with
  | [] => None
  | b :: l =>
      if is_byte "+" b
      then match l with [] => None | _ => parse_uint_digits max l 0 end
      else parse_uint_digits max (b :: l) 0
  end.
Definition parse_u64 : string -> option Z := parse_uint u64_max.
Definition parse_u32 : string -> option Z := parse_uint u32_max.

(** [str::parse::<bool>]. *)
Definition parse_bool (s : string) : option bool :=
  if String.eqb s "true" then Some true else if String.eqb s "false" then Some false else None.

(** The decimal text of a byte and of a dotted quad. *)
Definition digit (n : N) : Byte.byte := byte_of_N (48 + n).
Definition print_octet (n : N) : bytes :=
  if N.ltb n 10 then [digit n]
  else if N.ltb n 100 then [digit (n / 10); digit (n mod 10)]
  else [digit (n / 100); digit ((n / 10) mod 10); digit (n mod 10)].
Definition dot : Byte.byte := Byte.x2e.
Definition print_ipv4 (a b c d : N) : bytes :=
  print_octet a ++ dot :: print_octet b ++ dot :: print_octet c ++ dot :: print_octet d.

(** ** Facts *)

Lemma str_bytes_length s : length (str_bytes s) = str_len s.
Proof.
  unfold str_bytes, str_len, String.list_byte_of_string. rewrite length_map.
  induction s; simpl; congruence.
Qed.

Lemma str_bytes_of_list l : str_bytes (String.string_of_list_byte l) = l.
Proof. apply String.list_byte_of_string_of_list_byte. Qed.

Lemma str_bytes_inj s t : str_bytes s = str_bytes t -> s = t.
Proof.
  intros H. rewrite <- (String.string_of_list_byte_of_string s),
    <- (String.string_of_list_byte_of_string t). unfold str_bytes in H. congruence.
Qed.

Lemma str_len_app s t : str_len (s +:+ t) = str_len s + str_len t.
Proof.
  unfold str_len. induction s as [|a s IH]; [done|].
  change (S (String.length (s +:+ t)) = S (String.length s + String.length t)). by rewrite IH.
Qed.

Lemma str_bytes_app s t : str_bytes (s +:+ t) = str_bytes s ++ str_bytes t.
Proof.
  unfold str_bytes, String.list_byte_of_string. rewrite <- map_app. f_equal.
  induction s as [|a s IH]; [done|].
  change (a :: String.list_ascii_of_string (s +:+ t)
          = a :: (String.list_ascii_of_string s ++ String.list_ascii_of_string t)).
  by rewrite IH.
Qed.

Lemma str_is_empty_false s : str_is_empty s = false <-> 0 < str_len s.
Proof. unfold str_is_empty. rewrite Nat.eqb_neq. lia. Qed.

Lemma bytes_prefix_spec p l : bytes_prefix p l = true <-> exists r, l = p ++ r.
Proof.
  revert l. induction p as [|x p IH]; intros [|y l]; simpl.
  - crush.
  - crush.
  - crush.
  - rewrite andb_true_iff, bool_decide_eq_true, IH. split.
    + intros [-> [r ->]]. eauto.
    + intros [r ?]. simplify_eq. eauto.
Qed.

Lemma starts_with_spec s p : starts_with s p = true <-> exists r, s = p +:+ r.
Proof.
  unfold starts_with. rewrite bytes_prefix_spec. split.
  - intros [r Hr]. exists (String.string_of_list_byte r). apply str_bytes_inj.
    by rewrite str_bytes_app, str_bytes_of_list.
  - intros [r ->]. exists (str_bytes r). apply str_bytes_app.
Qed.

Lemma ends_with_spec s p : ends_with s p = true <-> exists r, s = r +:+ p.
Proof.
  unfold ends_with. rewrite bytes_prefix_spec. split.
  - intros [r Hr]. exists (String.string_of_list_byte (rev r)). apply str_bytes_inj.
    rewrite str_bytes_app, str_bytes_of_list, <- (rev_involutive (str_bytes s)), Hr.
    by rewrite rev_app_distr, rev_involutive.
  - intros [r ->]. exists (rev (str_bytes r)). by rewrite str_bytes_app, rev_app_distr.
Qed.

Lemma bytes_contain_spec p l : bytes_contain p l = true <-> exists a b, l = a ++ p ++ b.
Proof.
  induction l as [|x l IH]; simpl; rewrite orb_true_iff, bytes_prefix_spec.
  - split; [intros [[r ?]|?]; [by exists [], r|done]|].
    intros (a & b & Hab). symmetry in Hab. apply app_nil in Hab as [-> Hab]. left. by exists b.
  - rewrite IH. split.
    + intros [[r Hr]|(a & b & ->)]; [by exists [], r|by exists (x :: a), b].
    + intros ([|y a] & b & Hab); [left; by exists b|]. right. simplify_eq/=. by exists a, b.
Qed.

Lemma contains_spec s p : contains s p = true <-> exists a b, s = a +:+ p +:+ b.
Proof.
  unfold contains. rewrite bytes_contain_spec. split.
  - intros (a & b & Hab).
    exists (String.string_of_list_byte a), (String.string_of_list_byte b).
    apply str_bytes_inj. by rewrite !str_bytes_app, !str_bytes_of_list.
  - intros (a & b & ->). exists (str_bytes a), (str_bytes b). by rewrite !str_bytes_app.
Qed.

Lemma byte_of_N_to_N n : (n < 256)%N -> Byte.to_N (byte_of_N n) = n.
Proof.
  intros Hn. unfold byte_of_N. rewrite N.mod_small by done.
  destruct (Byte.of_N n) eqn:E; [by apply Byte.to_of_N in E|].
  apply Byte.of_N_None_iff in E. lia.
Qed.

Lemma lor_shiftl_add a b k : (b < 2 ^ k)%N -> N.lor (N.shiftl a k) b = (a * 2 ^ k + b)%N.
Proof.
  intros Hb. rewrite <- N.shiftl_mul_pow2. symmetry. rewrite N.add_nocarry_lxor.
  - apply N.bits_inj. intros i. rewrite N.lxor_spec, N.lor_spec.
    destruct (N.lt_ge_cases i k).
    + rewrite N.shiftl_spec_low by done. by destruct (N.testbit b i).
    + assert (N.testbit b i = false) as ->; [|by destruct (N.testbit _ i)].
      destruct (N.eq_dec b 0) as [->|]; [apply N.bits_0|].
      apply N.bits_above_log2. apply N.log2_lt_pow2; [lia|].
      eapply N.lt_le_trans; [done|]. by apply N.pow_le_mono_r.
  - apply N.bits_inj_0. intros i. rewrite N.land_spec.
    destruct (N.lt_ge_cases i k).
    + by rewrite N.shiftl_spec_low.
    + assert (N.testbit b i = false) as ->; [|apply andb_false_r].
      destruct (N.eq_dec b 0) as [->|]; [apply N.bits_0|].
      apply N.bits_above_log2. apply N.log2_lt_pow2; [lia|].
      eapply N.lt_le_trans; [done|]. by apply N.pow_le_mono_r.
Qed.

Lemma continuation_byte n : (n < 64)%N -> continuation (byte_of_N (128 + n)) = n.
Proof.
  intros Hn. unfold continuation. rewrite byte_of_N_to_N by lia.
  change 63%N with (N.ones 6). rewrite N.land_ones. change (2 ^ 6)%N with 64%N.
  rewrite <- (N.Div0.add_mod_idemp_l 128). rewrite N.add_0_l. by apply N.mod_small.
Qed.

Lemma lead_bits base k n :
  (n < 2 ^ k)%N -> (base mod 2 ^ k = 0)%N -> (base + n < 256)%N ->
  N.land (Byte.to_N (byte_of_N (base + n))) (N.ones k) = n.
Proof.
  intros Hn Hb Hlt. rewrite byte_of_N_to_N by done. rewrite N.land_ones.
  rewrite <- N.Div0.add_mod_idemp_l, Hb, N.add_0_l. by apply N.mod_small.
Qed.

(** The decoder on one, two, three and four byte sequences. *)
Lemma decode_1 b0 l : (Byte.to_N b0 < 128)%N -> decode (b0 :: l) = Byte.to_N b0 :: decode l.
Proof. intros H. cbn [decode]. by destruct (N.ltb_spec (Byte.to_N b0) 128); [|lia]. Qed.

Lemma decode_2 b0 b1 l :
  (128 <= Byte.to_N b0)%N -> (Byte.to_N b0 < 224)%N ->
  decode (b0 :: b1 :: l)
  = N.lor (N.shiftl (N.land (Byte.to_N b0) (N.ones 5)) 6) (continuation b1) :: decode l.
Proof.
  intros H1 H2. cbn [decode].
  destruct (N.ltb_spec (Byte.to_N b0) 128); [lia|].
  by destruct (N.ltb_spec (Byte.to_N b0) 224); [|lia].
Qed.

Lemma decode_3 b0 b1 b2 l :
  (224 <= Byte.to_N b0)%N -> (Byte.to_N b0 < 240)%N ->
  decode (b0 :: b1 :: b2 :: l)
  = N.lor (N.shiftl (N.land (Byte.to_N b0) (N.ones 4)) 12)
      (N.lor (N.shiftl (continuation b1) 6) (continuation b2)) :: decode l.
Proof.
  intros H1 H2. cbn [decode].
  destruct (N.ltb_spec (Byte.to_N b0) 128); [lia|].
  destruct (N.ltb_spec (Byte.to_N b0) 224); [lia|].
  by destruct (N.ltb_spec (Byte.to_N b0) 240); [|lia].
Qed.

Lemma decode_4 b0 b1 b2 b3 l :
  (240 <= Byte.to_N b0)%N ->
  decode (b0 :: b1 :: b2 :: b3 :: l)
  = N.lor (N.shiftl (N.land (Byte.to_N b0) (N.ones 3)) 18)
      (N.lor (N.shiftl (continuation b1) 12)
         (N.lor (N.shiftl (continuation b2) 6) (continuation b3))) :: decode l.
Proof.
  intros H1. cbn [decode].
  destruct (N.ltb_spec (Byte.to_N b0) 128); [lia|].
  destruct (N.ltb_spec (Byte.to_N b0) 224); [lia|].
  by destruct (N.ltb_spec (Byte.to_N b0) 240); [lia|].
Qed.

Lemma lor_shift_6 a b : (b < 64)%N -> N.lor (N.shiftl a 6) b = (64 * a + b)%N.
Proof. intros H. rewrite lor_shiftl_add by done. rewrite N.mul_comm. done. Qed.
Lemma lor_shift_12 a b : (b < 4096)%N -> N.lor (N.shiftl a 12) b = (4096 * a + b)%N.
Proof. intros H. rewrite lor_shiftl_add by done. rewrite N.mul_comm. done. Qed.
Lemma lor_shift_18 a b : (b < 262144)%N -> N.lor (N.shiftl a 18) b = (262144 * a + b)%N.
Proof. intros H. rewrite lor_shiftl_add by done. rewrite N.mul_comm. done. Qed.

Lemma mod_64 n : (n mod 64 < 64)%N.
Proof. by apply N.mod_upper_bound. Qed.

(** Base-64 digits of a code point. *)
Lemma digits_64 c :
  (c = 64 * (c / 64) + c mod 64)%N /\ (c / 64 = 64 * (c / 4096) + (c / 64) mod 64)%N /\
  (c / 4096 = 64 * (c / 262144) + (c / 4096) mod 64)%N.
Proof.
  replace (c / 262144)%N with (c / 4096 / 64)%N by (rewrite N.Div0.div_div; f_equal; lia).
  replace (c / 4096)%N with (c / 64 / 64)%N by (rewrite N.Div0.div_div; f_equal; lia).
  repeat split; apply N.div_mod'.
Qed.

(** Decoding inverts encoding on every code point. *)
Lemma decode_encode_char c l :
  (c < 1114112)%N -> decode (encode_char c ++ l) = c :: decode l.
Proof.
  intros Hc. unfold encode_char. pose proof (digits_64 c) as (D1 & D2 & D3).
  pose proof (mod_64 c) as M1. pose proof (mod_64 (c / 64)) as M2.
  pose proof (mod_64 (c / 4096)) as M3.
  generalize dependent ((c / 4096) mod 64)%N. generalize dependent ((c / 64) mod 64)%N.
  generalize dependent (c mod 64)%N. generalize dependent (c / 262144)%N.
  generalize dependent (c / 4096)%N. generalize dependent (c / 64)%N. intros q1 q2 q3 D3 r1 D1 M1 r2 D2 M2 r3 M3.
  destruct (N.ltb_spec c 128) as [L1|L1];
    [|destruct (N.ltb_spec c 2048) as [L2|L2];
      [|destruct (N.ltb_spec c 65536) as [L3|L3]]]; cbn [app].
  - by rewrite decode_1; rewrite byte_of_N_to_N by lia.
  - rewrite decode_2 by (rewrite byte_of_N_to_N; lia).
    rewrite (lead_bits 192 5), continuation_byte by (done || simpl; lia).
    f_equal. rewrite lor_shift_6; lia.
  - rewrite decode_3 by (rewrite byte_of_N_to_N; lia).
    rewrite (lead_bits 224 4), !continuation_byte by (done || simpl; lia).
    f_equal. rewrite lor_shift_6, lor_shift_12; lia.
  - rewrite decode_4 by (rewrite byte_of_N_to_N; lia).
    rewrite (lead_bits 240 3), !continuation_byte by (done || simpl; lia).
    f_equal. rewrite lor_shift_6, lor_shift_12, lor_shift_18; lia.
Qed.

Lemma decode_encode cs :
  Forall (fun c => c < 1114112)%N cs -> decode (encode cs) = cs.
Proof.
  unfold encode. induction 1 as [|c cs Hc Hcs IH]; [done|].
  cbn [mbind list_bind]. rewrite decode_encode_char by done. by f_equal.
Qed.

(** An ASCII string has one character per byte. *)
Lemma decode_ascii l :
  Forall (fun b => Byte.to_N b < 128)%N l -> decode l = Byte.to_N <$> l.
Proof.
  induction 1 as [|b l Hb Hl IH]; [done|]. cbn [decode].
  destruct (N.ltb_spec (Byte.to_N b) 128); [|lia]. by rewrite IH.
Qed.

Lemma decode_length l : length (decode l) <= length l.
Proof.
  assert (Hn : forall n l, length l <= n -> length (decode l) <= length l).
  { clear l. induction n as [|n IH]; intros [|b0 l1] Hl; simpl in *; try lia.
    repeat case_match; subst; simpl in *;
      repeat match goal with
      | |- context [decode ?l] => lazymatch goal with
          | _ : length (decode l) <= length l |- _ => fail
          | _ => assert (length (decode l) <= length l) by (apply IH; simpl in *; lia)
          end
      end; lia. }
  by apply (Hn (length l)).
Qed.

Lemma char_length_le s : char_length s <= str_len s.
Proof. unfold char_length, chars. rewrite <- str_bytes_length. apply decode_length. Qed.

Lemma char_length_pos s : 0 < str_len s -> 0 < char_length s.
Proof.
  unfold char_length, chars. rewrite <- str_bytes_length.
  destruct (str_bytes s) as [|b l]; simpl; [lia|]. intros _.
  repeat case_match; simpl; lia.
Qed.

Lemma decode_app l cs : 
  Forall (fun c => c < 1114112)%N cs -> decode (encode cs ++ l) = cs ++ decode l.
Proof.
  unfold encode. induction 1 as [|c cs Hc Hcs IH]; [done|].
  cbn [mbind list_bind]. rewrite <- app_assoc, decode_encode_char by done.
  simpl. by f_equal.
Qed.

(** Trimming is the identity exactly when neither end is white space. *)
Lemma drop_whitespace_length cs : length (drop_whitespace cs) <= length cs.
Proof. induction cs; simpl; [lia|]. case_match; simpl; lia. Qed.

Lemma drop_whitespace_id cs :
  drop_whitespace cs = cs <-> match cs with [] => True | c :: _ => is_whitespace c = false end.
Proof.
  destruct cs as [|c cs]; simpl; [done|]. destruct (is_whitespace c); [|done]. split; [|done].
  intros H. pose proof (drop_whitespace_length cs) as Hl. rewrite H in Hl. simpl in Hl. lia.
Qed.

Lemma trim_id cs :
  trim cs = cs <->
  (forall c, head cs = Some c -> is_whitespace c = false) /\
  (forall c, last cs = Some c -> is_whitespace c = false).
Proof.
  unfold trim. split.
  - intros H.
    assert (Hd : drop_whitespace cs = cs).
    { pose proof (drop_whitespace_length cs) as H1.
      pose proof (drop_whitespace_length (rev (drop_whitespace cs))) as H2.
      apply (f_equal (@length N)) in H. rewrite length_rev in H. rewrite length_rev in H2.
      apply drop_whitespace_id. destruct cs as [|c cs]; [done|]. simpl in *.
      destruct (is_whitespace c); [|done].
      pose proof (drop_whitespace_length cs). lia. }
    rewrite Hd in H. split.
    + intros c Hc. apply drop_whitespace_id in Hd. destruct cs; simplify_eq/=. done.
    + intros c Hc. apply (f_equal (@rev N)) in H. rewrite rev_involutive in H.
      apply drop_whitespace_id in H. destruct cs as [|x cs] using rev_ind; [done|].
      rewrite last_snoc in Hc. rewrite rev_app_distr in H. simplify_eq/=. done.
  - intros [Hh Hl].
    assert (Hd : drop_whitespace cs = cs).
    { apply drop_whitespace_id. destruct cs; [done|]. by apply Hh. }
    rewrite Hd. assert (drop_whitespace (rev cs) = rev cs) as ->; [|apply rev_involutive].
    apply drop_whitespace_id. destruct cs as [|x cs] using rev_ind; [done|].
    rewrite rev_app_distr. simpl. apply Hl. apply last_snoc.
Qed.

(** Every printed octet reads back, whatever follows it. *)
Lemma digit_spec d :
  (d < 10)%N -> is_ascii_digit (digit d) = true /\ (Byte.to_N (digit d) - 48 = d)%N /\
                is_byte "0" (digit d) = N.eqb d 0.
Proof.
  intros Hd. assert (d = 0 \/ d = 1 \/ d = 2 \/ d = 3 \/ d = 4 \/ d = 5 \/ d = 6 \/ d = 7
                     \/ d = 8 \/ d = 9)%N as Hc by lia.
  destruct_or!; subst d; by vm_compute.
Qed.

Lemma read_digit d l acc count :
  (d < 10)%N -> read_digits (digit d :: l) acc count = read_digits l (10 * acc + d) (S count).
Proof. intros Hd. cbn [read_digits]. by destruct (digit_spec d Hd) as (-> & -> & _). Qed.

Lemma read_octet_print n l :
  (n < 256)%N -> match l with b :: _ => is_ascii_digit b = false | [] => True end ->
  read_octet (print_octet n ++ l) = Some (n, l).
Proof.
  intros Hn Hl.
  assert (Hstop : forall acc count, read_digits l acc count = (acc, count, l)).
  { intros acc count. destruct l as [|b l]; simpl; [done|]. by rewrite Hl. }
  assert (H10 : forall m, (m mod 10 < 10)%N) by (intros m; by apply N.mod_upper_bound).
  assert (Hdm : forall m, (m = 10 * (m / 10) + m mod 10)%N) by (intros m; apply N.div_mod').
  replace (print_octet n) with
    (if N.ltb n 10 then [digit n]
     else if N.ltb n 100 then [digit (n / 10); digit (n mod 10)]
     else [digit (n / 10 / 10); digit ((n / 10) mod 10); digit (n mod 10)])
    by (unfold print_octet; by rewrite N.Div0.div_div).
  pose proof (H10 n) as R1. pose proof (H10 (n / 10)%N) as R2. pose proof (Hdm n) as E1.
  pose proof (Hdm (n / 10)%N) as E2. unfold read_octet.
  generalize dependent ((n / 10) mod 10)%N. generalize dependent (n / 10 / 10)%N.
  generalize dependent (n mod 10)%N. generalize dependent (n / 10)%N. intros q r R1 E1 q2 r2 R2 E2.
  destruct (N.ltb_spec n 10); [|destruct (N.ltb_spec n 100)]; cbn [app];
    rewrite !read_digit, Hstop by lia;
    match goal with |- context [N.ltb 255 ?v] => replace v with n by lia end;
    (destruct (N.ltb_spec 255 n); [lia|]); cbn -[is_byte]; rewrite ?andb_false_r; [done| |].
  - destruct (digit_spec q) as (_ & _ & ->); [lia|]. by destruct (N.eqb_spec q 0); [lia|].
  - destruct (digit_spec q2) as (_ & _ & ->); [lia|]. by destruct (N.eqb_spec q2 0); [lia|].
Qed.

(** Conversely, what reads as an octet is its decimal text. *)
Lemma ascii_digit_inv b : is_ascii_digit b = true -> exists d, (d < 10)%N /\ b = digit d.
Proof.
  intros Hb. unfold is_ascii_digit, in_range in Hb. rewrite andb_true_iff, !N.leb_le in Hb.
  exists (Byte.to_N b - 48)%N. split; [lia|]. unfold digit.
  replace (48 + (Byte.to_N b - 48))%N with (Byte.to_N b) by lia. unfold byte_of_N.
  rewrite N.mod_small by (pose proof (Byte.to_N_bounded b); lia). by rewrite Byte.of_to_N.
Qed.

Lemma read_digits_count l acc count :
  count <= (read_digits l acc count).1.2.
Proof.
  revert acc count. induction l as [|b l IH]; intros acc count; simpl; [done|].
  case_match; [|done]. etransitivity; [|apply IH]. lia.
Qed.

(** The digits in front of [l], one by one. *)
Lemma read_digits_step l acc count :
  (read_digits l acc count = (acc, count, l)) \/
  exists d l', (d < 10)%N /\ l = digit d :: l' /\
    read_digits l acc count = read_digits l' (10 * acc + d) (S count).
Proof.
  destruct l as [|b l']; [by left|]. destruct (is_ascii_digit b) eqn:Hb; [right|left; simpl; by rewrite Hb].
  apply ascii_digit_inv in Hb as (d & Hd & ->). exists d, l'. split_and!; [done|done|by apply read_digit].
Qed.

Lemma print_octet_1 d : (d < 10)%N -> print_octet d = [digit d].
Proof. intros Hd. unfold print_octet. by rewrite (proj2 (N.ltb_lt _ _) Hd). Qed.

Lemma print_octet_2 d1 d0 :
  (0 < d1 < 10)%N -> (d0 < 10)%N -> print_octet (10 * d1 + d0) = [digit d1; digit d0].
Proof.
  intros H1 H0. unfold print_octet. rewrite (proj2 (N.ltb_ge _ _)), (proj2 (N.ltb_lt _ _)) by lia.
  by rewrite <- (N.div_unique (10 * d1 + d0) 10 d1 d0), <- (N.mod_unique (10 * d1 + d0) 10 d1 d0) by lia.
Qed.

Lemma print_octet_3 d2 d1 d0 :
  (0 < d2 < 10)%N -> (d1 < 10)%N -> (d0 < 10)%N ->
  print_octet (10 * (10 * d2 + d1) + d0) = [digit d2; digit d1; digit d0].
Proof.
  intros H2 H1 H0. unfold print_octet. rewrite !(proj2 (N.ltb_ge _ _)) by lia.
  set (n := (10 * (10 * d2 + d1) + d0)%N).
  assert (Hq : (n / 10 = 10 * d2 + d1)%N) by (symmetry; apply (N.div_unique n 10 _ d0); unfold n; lia).
  rewrite <- (N.div_unique n 100 d2 (10 * d1 + d0)), Hq by (unfold n; lia).
  by rewrite <- (N.mod_unique (10 * d2 + d1) 10 d2 d1), <- (N.mod_unique n 10 (10 * d2 + d1) d0)
    by (unfold n; lia).
Qed.

Lemma read_octet_inv l n r : read_octet l = Some (n, r) -> (n < 256)%N /\ l = print_octet n ++ r.
Proof.
  unfold read_octet. destruct (read_digits l 0 0) as [[v count] rest] eqn:Hr.
  destruct (_ || _) eqn:Hg; [done|]. intros [= <- <-].
  rewrite !orb_false_iff, Nat.eqb_neq, Nat.ltb_ge, N.ltb_ge in Hg. destruct Hg as [[[Hc H3] Hz] Hv].
  split; [lia|].
  destruct (read_digits_step l 0 0) as [E|(d & l1 & Hd & -> & E)]; rewrite E in Hr; [congruence|].
  destruct (digit_spec d Hd) as (_ & _ & Hzd). rewrite Hzd in Hz.
  destruct (read_digits_step l1 (10 * 0 + d) 1) as [E1|(e & l2 & He & -> & E1)]; rewrite E1 in Hr.
  { injection Hr as <- _ <-. replace (10 * 0 + d)%N with d by lia. by rewrite print_octet_1. }
  destruct (read_digits_step l2 (10 * (10 * 0 + d) + e) 2) as [E2|(f & l3 & Hf & -> & E2)];
    rewrite E2 in Hr.
  { injection Hr as <- <- <-. destruct (N.eqb_spec d 0); [done|].
    replace (10 * 0 + d)%N with d by lia. by rewrite print_octet_2 by lia. }
  destruct (read_digits_step l3 (10 * (10 * (10 * 0 + d) + e) + f) 3) as [E3|(g & l4 & _ & _ & E3)];
    rewrite E3 in Hr.
  - injection Hr as <- <- <-. destruct (N.eqb_spec d 0); [done|].
    replace (10 * 0 + d)%N with d by lia. by rewrite print_octet_3 by lia.
  - pose proof (read_digits_count l4 (10 * (10 * (10 * (10 * 0 + d) + e) + f) + g) 4) as Hle.
    rewrite Hr in Hle. simpl in Hle. lia.
Qed.

Lemma read_dot_inv l r : read_dot l = Some r -> l = dot :: r.
Proof.
  destruct l as [|b l]; [done|]. simpl. destruct (is_byte "." b) eqn:Hb; [|done]. intros [= ->].
  unfold is_byte in Hb. apply bool_decide_eq_true in Hb. by injection Hb as <-.
Qed.

(** The address parser accepts nothing but dotted quads. *)
Lemma parse_ipv4_inv s a b c d :
  parse_ipv4 s = Some (a, b, c, d) ->
  (a < 256)%N /\ (b < 256)%N /\ (c < 256)%N /\ (d < 256)%N /\ str_bytes s = print_ipv4 a b c d.
Proof.
  unfold parse_ipv4. case_match; [done|]. unfold print_ipv4.
  intros ([a' l1] & [Ha ->]%read_octet_inv & Hp)%bind_Some.
  apply bind_Some in Hp as (l2 & ->%read_dot_inv & Hp).
  apply bind_Some in Hp as ([b' l3] & [Hb ->]%read_octet_inv & Hp).
  apply bind_Some in Hp as (l4 & ->%read_dot_inv & Hp).
  apply bind_Some in Hp as ([c' l5] & [Hc ->]%read_octet_inv & Hp).
  apply bind_Some in Hp as (l6 & ->%read_dot_inv & Hp).
  apply bind_Some in Hp as ([d' l7] & [Hd ->]%read_octet_inv & Hp).
  destruct l7; [|done]. injection Hp as -> -> -> ->. by rewrite app_nil_r.
Qed.

(** Every dotted quad is accepted by the address parser. *)
Lemma print_octet_length n : length (print_octet n) <= 3.
Proof. unfold print_octet. repeat case_match; simpl; lia. Qed.

Lemma parse_print_ipv4 a b c d :
  (a < 256)%N -> (b < 256)%N -> (c < 256)%N -> (d < 256)%N ->
  parse_ipv4 (String.string_of_list_byte (print_ipv4 a b c d)) = Some (a, b, c, d).
Proof.
  intros Ha Hb Hc Hd. unfold parse_ipv4. rewrite <- str_bytes_length, str_bytes_of_list.
  destruct (Nat.ltb_spec 15 (length (print_ipv4 a b c d))) as [H|H].
  - unfold print_ipv4 in H. repeat (rewrite length_app in H; simpl in H).
    pose proof (print_octet_length a). pose proof (print_octet_length b).
    pose proof (print_octet_length c). pose proof (print_octet_length d). lia.
  - unfold print_ipv4. rewrite read_octet_print by done. cbn [mbind option_bind read_dot].
    change (is_byte "." dot) with true. cbn [mbind option_bind].
    rewrite read_octet_print by done. cbn [mbind option_bind read_dot].
    change (is_byte "." dot) with true. cbn [mbind option_bind].
    rewrite read_octet_print by done. cbn [mbind option_bind read_dot].
    change (is_byte "." dot) with true. cbn [mbind option_bind].
    rewrite <- (app_nil_r (print_octet d)), read_octet_print by done. done.
Qed.

Lemma parse_uint_digits_Some max l acc z :
  (0 <= acc <= max)%Z -> parse_uint_digits max l acc = Some z ->
  Forall (fun b => is_ascii_digit b = true) l /\ (0 <= z <= max)%Z.
Proof.
  revert acc. induction l as [|b l IH]; intros acc Hacc; simpl.
  - intros [= <-]. done.
  - destruct (is_ascii_digit b) eqn:Hb; [|done].
    destruct (Z.leb_spec (acc * 10 + Z.of_N (Byte.to_N b - 48)) max); [|done].
    intros [Hl Hz]%IH; [|lia]. split; [by constructor|done].
Qed.

Lemma parse_uint_range max s z : (0 <= max)%Z -> parse_uint max s = Some z -> (0 <= z <= max)%Z.
Proof.
  intros Hm. unfold parse_uint. destruct (str_bytes s) as [|c l]; [done|].
  destruct (is_byte "+" c); [destruct l; [done|]|]; intros [_ Hz]%parse_uint_digits_Some; lia.
Qed.

(** A text that parses as a [u64] has digits and at most a leading [+]. *)
Lemma parse_u64_bytes s z b :
  parse_u64 s = Some z -> b ∈ str_bytes s -> is_byte "+" b = true \/ is_ascii_digit b = true.
Proof.
  unfold parse_u64, parse_uint. destruct (str_bytes s) as [|c l]; [done|].
  destruct (is_byte "+" c) eqn:Hc.
  - destruct l as [|d l]; [done|]. intros [Hl _]%parse_uint_digits_Some; [|done].
    rewrite Forall_forall in Hl. rewrite elem_of_cons. intros [->|Hb]; eauto.
  - intros [Hl _]%parse_uint_digits_Some; [|done]. rewrite Forall_forall in Hl. eauto.
Qed.
