(* ===== verification/Net.v ===== *)
(** * Socket addresses

    [str::parse::<SocketAddr>] of the Rust standard library: the address a
    service binds to, as text.  Each reader takes the unread bytes and returns
    what it read with the rest, or nothing without having consumed anything. *)

From S2P Require Import Prelude RustStr.

Inductive IpAddr : Type :=
| V4 (a b c d : N)
| V6 (groups : list N).

Record SocketAddr : Type := {
  sa_ip : IpAddr;
  sa_scope_id : N;
  sa_port : N;
}.

Definition read_given_byte (c : Byte.byte) (l : bytes) : option bytes :=
  match l with b :: l' => if bool_decide (b = c) then Some l' else None | [] => None end.

(** [char::to_digit(16)]. *)
Definition hex_digit (b : Byte.byte) : option N :=
  if is_ascii_digit b then Some (Byte.to_N b - 48)%N
  else if in_range 97 102 b then Some (Byte.to_N b - 87)%N
  else if in_range 65 70 b then Some (Byte.to_N b - 55)%N
  else None.

Fixpoint read_hex (l : bytes) (acc : N) (count : nat) : N * nat * bytes :=
  match l with
  | [] => (acc, count, l)
  | b :: l' =>
      match hex_digit b with
      | Some d => read_hex l' (16 * acc + d) (S count)
      | None => (acc, count, l)
      end
  end.

(** [read_number(16, Some(4), true)]: one group of an IPv6 address. *)
Definition read_group (l : bytes) : option (N * bytes) :=
  let '(value, count, rest) := read_hex l 0 0 in
  if Nat.eqb count 0 || Nat.ltb 4 count then None else Some (value, rest).

(** [read_number(10, None, true)] of a type with maximum [max]. *)
Definition read_decimal (max : N) (l : bytes) : option (N * bytes) :=
  let '(value, count, rest) := read_digits l 0 0 in
  if Nat.eqb count 0 || N.ltb max value then None else Some (value, rest).

Definition read_ipv4_addr (l : bytes) : option ((N * N * N * N) * bytes) :=
  '(a, l) ← read_octet l; l ← read_dot l;
  '(b, l) ← read_octet l; l ← read_dot l;
  '(c, l) ← read_octet l; l ← read_dot l;
  '(d, l) ← read_octet l;
  Some ((a, b, c, d), l).

(** [read_separator(':', index, inner)]. *)
Definition read_separator {A : Type} (first : bool) (inner : bytes -> option (A * bytes))
    (l : bytes) : option (A * bytes) :=
  if first then inner l else l ← read_given_byte Byte.x3a l; inner l.

(** [read_groups] into [limit] groups: what was read, and whether it ended with an
    embedded IPv4 address, which takes the place of two groups. *)
Fixpoint read_groups (limit : nat) (first : bool) (l : bytes) : list N * bool * bytes :=
  match limit with
  | 0 => ([], false, l)
  | S limit' =>
      match (if Nat.eqb limit' 0 then None else read_separator first read_ipv4_addr l) with
      | Some ((a, b, c, d), l') => ([256 * a + b; 256 * c + d]%N, true, l')
      | None =>
          match read_separator first read_group l with
          | Some (g, l') =>
              let '(gs, ipv4, rest) := read_groups limit' false l' in (g :: gs, ipv4, rest)
          | None => ([], false, l)
          end
      end
  end.

Definition read_ipv6_addr (l : bytes) : option (list N * bytes) :=
  let '(head, head_ipv4, rest) := read_groups 8 true l in
  if Nat.eqb (length head) 8 then Some (head, rest)
  else if (head_ipv4 : bool) then None
  else
  rest ← read_given_byte Byte.x3a rest;
  rest ← read_given_byte Byte.x3a rest;
  let '(tail, _, rest) := read_groups (8 - S (length head)) true rest in
  Some (head ++ repeat 0%N (8 - length head - length tail) ++ tail, rest).

Definition read_port (l : bytes) : option (N * bytes) :=
  l ← read_given_byte Byte.x3a l; read_decimal 65535 l.

Definition read_scope_id (l : bytes) : option (N * bytes) :=
  l ← read_given_byte Byte.x25 l; read_decimal 4294967295 l.

Definition read_socket_addr_v4 (l : bytes) : option (SocketAddr * bytes) :=
  '((a, b, c, d), l) ← read_ipv4_addr l;
  '(port, l) ← read_port l;
  Some ({| sa_ip := V4 a b c d; sa_scope_id := 0; sa_port := port |}, l).

Definition read_socket_addr_v6 (l : bytes) : option (SocketAddr * bytes) :=
  l ← read_given_byte Byte.x5b l;
  '(groups, l) ← read_ipv6_addr l;
  let '(scope_id, l) := default (0%N, l) (read_scope_id l) in
  l ← read_given_byte Byte.x5d l;
  '(port, l) ← read_port l;
  Some ({| sa_ip := V6 groups; sa_scope_id := scope_id; sa_port := port |}, l).

Definition parse_socket_addr (s : string) : option SocketAddr :=
  let l := str_bytes s in
  match (match read_socket_addr_v4 l with Some r => Some r | None => read_socket_addr_v6 l end) with
  | Some (addr, []) => Some addr
  | _ => None
  end.

(** The parser on the forms it accepts and rejects. *)
Example parse_socket_addr_forms :
  parse_socket_addr "0.0.0.0:8080"
    = Some {| sa_ip := V4 0 0 0 0; sa_scope_id := 0; sa_port := 8080 |} /\
  parse_socket_addr "[::1]:80"
    = Some {| sa_ip := V6 [0; 0; 0; 0; 0; 0; 0; 1]%N; sa_scope_id := 0; sa_port := 80 |} /\
  parse_socket_addr "[fe80::ff%7]:65535"
    = Some {| sa_ip := V6 [65152; 0; 0; 0; 0; 0; 0; 255]%N; sa_scope_id := 7; sa_port := 65535 |} /\
  parse_socket_addr "[::ffff:10.0.0.1]:1"
    = Some {| sa_ip := V6 [0; 0; 0; 0; 0; 65535; 2560; 1]%N; sa_scope_id := 0; sa_port := 1 |} /\
  parse_socket_addr "0.0.0.0:65536" = None /\ parse_socket_addr "localhost:80" = None /\
  parse_socket_addr "01.2.3.4:80" = None /\ parse_socket_addr "[1::2::3]:80" = None /\
  parse_socket_addr "127.0.0.1" = None.
Proof. by vm_compute. Qed.
