(* ===== verification/Domain.v ===== *)
(** * The domain crate ([crates/syouyu-domain/src/lib.rs])

    The tenant scope, the desired state of a bucket, its quota, permissions,
    phase, usage and status, and every [validate] function.  The [url] crate is
    a parameter ([UrlLib]); everything else is modelled. *)

From S2P Require Import Prelude RustStr.

(** ** Constants *)

Definition MAX_REGION_LENGTH : nat := 63.
Definition MIN_BUCKET_NAME_LENGTH : nat := 3.
Definition MAX_BUCKET_NAME_LENGTH : nat := 63.
Definition MAX_CREDENTIAL_NAME_LENGTH : nat := 128.
Definition MAX_BACKEND_ID_LENGTH : nat := 256.
Definition MAX_STATUS_MESSAGE_LENGTH : nat := 1024.
Definition MAX_GARAGE_QUOTA : Z := i64_max.
Definition RESERVED_BUCKET_PREFIXES : list string := ["xn--"; "sthree-"; "amzn-s3-demo-"].
Definition RESERVED_BUCKET_SUFFIXES : list string :=
  ["-s3alias"; "--ol-s3"; ".mrap"; "--x-s3"; "--table-s3"; "-an"].

(** ** Errors *)

Inductive ValidationError : Type :=
| InvalidLength (field : string) (minimum maximum actual : nat)
| OutOfRange (field : string) (minimum maximum actual : Z)
| InvalidField (field reason : string)
| InvalidState (reason : string).

#[export] Instance ValidationError_eq_dec : EqDecision ValidationError.
Proof. solve_decision. Defined.

Abbreviation validation := (result ValidationError unit).

(** ** Field checks *)

Definition ensure_uuid (field : string) (value : Uuid) : validation :=
  if is_nil value then Err (InvalidField field "UUID must not be nil") else Ok tt.

Definition ensure_quota (field : string) (value : Z) : validation :=
  if (1 <=? value)%Z && (value <=? MAX_GARAGE_QUOTA)%Z then Ok tt
  else Err (OutOfRange field 1 MAX_GARAGE_QUOTA value).

Definition validate_identifier (field value : string) (maximum : nat) : validation :=
  if str_is_empty value || Nat.ltb maximum (str_len value)
  then Err (InvalidLength field 1 maximum (str_len value))
  else if existsb is_control (chars value)
  then Err (InvalidField field "control characters are not allowed")
  else Ok tt.

Definition validate_human_name (field value : string) (maximum : nat) : validation :=
  _ ← validate_identifier field value maximum;
  if bool_decide (trim (chars value) <> chars value)
  then Err (InvalidField field "leading or trailing whitespace is not allowed")
  else Ok tt.

(** [bytes[i].is_ascii_alphanumeric()]; the code only indexes a non-empty
    string, so the out-of-range case (a panic) is never reached
    ([alphanumeric_at_in_range]). *)
Definition alphanumeric_at (l : bytes) (i : nat) : bool :=
  match l !! i with Some b => is_ascii_alphanumeric b | None => false end.

Definition is_region_byte (b : Byte.byte) : bool :=
  is_ascii_lowercase b || is_ascii_digit b || is_byte "-" b.

Definition validate_region (value : string) : validation :=
  _ ← validate_identifier "region" value MAX_REGION_LENGTH;
  let bytes := str_bytes value in
  if negb (alphanumeric_at bytes 0)
     || negb (alphanumeric_at bytes (length bytes - 1))
     || negb (forallb is_region_byte bytes)
  then Err (InvalidField "region"
              "region must use lowercase letters, digits, and internal hyphens")
  else Ok tt.

Definition is_bucket_byte (b : Byte.byte) : bool :=
  is_ascii_lowercase b || is_ascii_digit b || (is_byte "." b || is_byte "-" b).

Definition validate_bucket_name (value : string) : validation :=
  let length' := str_len value in
  if negb (Nat.leb MIN_BUCKET_NAME_LENGTH length' && Nat.leb length' MAX_BUCKET_NAME_LENGTH)
  then Err (InvalidLength "bucket_name" MIN_BUCKET_NAME_LENGTH MAX_BUCKET_NAME_LENGTH length')
  else
  let bytes := str_bytes value in
  let valid_characters := forallb is_bucket_byte bytes in
  if negb valid_characters
     || negb (alphanumeric_at bytes 0)
     || negb (alphanumeric_at bytes (length bytes - 1))
     || contains value ".."
     || is_some (parse_ipv4 value)
  then Err (InvalidField "bucket_name"
              "bucket name is not a valid S3 general-purpose bucket name")
  else if existsb (starts_with value) RESERVED_BUCKET_PREFIXES
          || existsb (ends_with value) RESERVED_BUCKET_SUFFIXES
  then Err (InvalidField "bucket_name" "bucket name uses an S3-reserved prefix or suffix")
  else Ok tt.

(** ** Scope, specification and quota *)

Record ServiceScope : Type := {
  scope_organization_id : Uuid;
  scope_project_id : Uuid;
  scope_service_instance_id : Uuid;
}.

#[export] Instance ServiceScope_eq_dec : EqDecision ServiceScope.
Proof. solve_decision. Defined.

Definition ServiceScope_validate (self : ServiceScope) : validation :=
  _ ← ensure_uuid "organization_id" (scope_organization_id self);
  _ ← ensure_uuid "project_id" (scope_project_id self);
  ensure_uuid "service_instance_id" (scope_service_instance_id self).

Record BucketQuota : Type := { quota_bytes : Z; quota_objects : Z }.

#[export] Instance BucketQuota_eq_dec : EqDecision BucketQuota.
Proof. solve_decision. Defined.

Definition BucketQuota_validate (self : BucketQuota) : validation :=
  _ ← ensure_quota "quota_bytes" (quota_bytes self);
  ensure_quota "quota_objects" (quota_objects self).

Record BucketSpec : Type := { bucket_spec_name : string; bucket_spec_quota : BucketQuota }.

Definition BucketSpec_validate (self : BucketSpec) : validation :=
  _ ← validate_bucket_name (bucket_spec_name self);
  BucketQuota_validate (bucket_spec_quota self).

Record SyouyuSpec : Type := {
  spec_region : string;
  spec_bucket_name : string;
  spec_quota_bytes : Z;
  spec_quota_objects : Z;
}.

#[export] Instance SyouyuSpec_eq_dec : EqDecision SyouyuSpec.
Proof. solve_decision. Defined.

Definition SyouyuSpec_quota (self : SyouyuSpec) : BucketQuota :=
  {| quota_bytes := spec_quota_bytes self; quota_objects := spec_quota_objects self |}.

Definition SyouyuSpec_bucket_spec (self : SyouyuSpec) : BucketSpec :=
  {| bucket_spec_name := spec_bucket_name self; bucket_spec_quota := SyouyuSpec_quota self |}.

Definition SyouyuSpec_validate (self : SyouyuSpec) : validation :=
  _ ← validate_region (spec_region self);
  _ ← validate_bucket_name (spec_bucket_name self);
  BucketQuota_validate (SyouyuSpec_quota self).

(** ** Permissions and credentials *)

Record BucketPermissions : Type := { perm_read : bool; perm_write : bool }.

#[export] Instance BucketPermissions_eq_dec : EqDecision BucketPermissions.
Proof. solve_decision. Defined.

Definition BucketPermissions_validate (self : BucketPermissions) : validation :=
  if perm_read self || perm_write self then Ok tt
  else Err (InvalidField "permissions" "at least one bucket permission is required").

Inductive BucketOperation : Type := OpList | OpRead | OpWrite | OpDelete.

Definition BucketPermissions_allows (self : BucketPermissions) (operation : BucketOperation)
  : bool :=
  match operation with
  | OpList | OpRead => perm_read self
  | OpWrite | OpDelete => perm_write self
  end.

Record CredentialSpec : Type := {
  cred_spec_name : string;
  cred_spec_permissions : BucketPermissions;
}.

Definition CredentialSpec_validate (self : CredentialSpec) : validation :=
  _ ← validate_human_name "credential_name" (cred_spec_name self) MAX_CREDENTIAL_NAME_LENGTH;
  BucketPermissions_validate (cred_spec_permissions self).

(** ** Phase, usage and status *)

Inductive BucketPhase : Type := Provisioning | Ready | Degraded | Error | Deleting | Deleted.

#[export] Instance BucketPhase_eq_dec : EqDecision BucketPhase.
Proof. solve_decision. Defined.

Definition BucketPhase_to_string (self : BucketPhase) : string :=
  match self with
  | Provisioning => "provisioning"
  | Ready => "ready"
  | Degraded => "degraded"
  | Error => "error"
  | Deleting => "deleting"
  | Deleted => "deleted"
  end.

Definition BucketPhase_from_str (value : string) : result ValidationError BucketPhase :=
  if String.eqb value "provisioning" then Ok Provisioning
  else if String.eqb value "ready" then Ok Ready
  else if String.eqb value "degraded" then Ok Degraded
  else if String.eqb value "error" then Ok Error
  else if String.eqb value "deleting" then Ok Deleting
  else if String.eqb value "deleted" then Ok Deleted
  else Err (InvalidField "phase" "unknown bucket phase").

Record BucketUsage : Type := {
  usage_bytes : Z;
  usage_objects : Z;
  usage_unfinished_upload_bytes : Z;
  usage_unfinished_uploads : Z;
}.

Definition BucketUsage_default : BucketUsage :=
  {| usage_bytes := 0; usage_objects := 0; usage_unfinished_upload_bytes := 0;
     usage_unfinished_uploads := 0 |}.

Definition BucketUsage_exceeds (self : BucketUsage) (quota : BucketQuota) : bool :=
  (quota_bytes quota <? usage_bytes self)%Z || (quota_objects quota <? usage_objects self)%Z.

Record BucketStatus : Type := {
  status_observed_generation : Z;
  status_phase : BucketPhase;
  status_backend_bucket_id : option string;
  status_endpoint : option string;
  status_usage : BucketUsage;
  status_message : option string;
  status_updated_at : DateTime;
}.

(** The [url] crate: parsing and the accessors the code calls. *)
Class UrlLib : Type := {
  Url : Type;
  url_parse : string -> option Url;
  url_scheme : Url -> string;
  url_host_str : Url -> option string;
  url_username : Url -> string;
  url_password : Url -> option string;
  url_query : Url -> option string;
  url_fragment : Url -> option string;
}.

Section status.
Context `{UrlLib}.

Definition origin_url (endpoint : Url) : bool :=
  negb (negb (String.eqb (url_scheme endpoint) "http" || String.eqb (url_scheme endpoint) "https")
        || is_none (url_host_str endpoint)
        || negb (str_is_empty (url_username endpoint))
        || is_some (url_password endpoint)
        || is_some (url_query endpoint)
        || is_some (url_fragment endpoint)).

Definition validate_endpoint (value : string) : validation :=
  endpoint ← ok_or (InvalidField "endpoint" "endpoint must be an absolute URL")
               (url_parse value);
  if negb (origin_url endpoint)
  then Err (InvalidField "endpoint"
              "endpoint must be an HTTP(S) origin without credentials, query, or fragment")
  else Ok tt.

Definition opt_validate {A : Type} (f : A -> validation) (o : option A) : validation :=
  match o with Some a => f a | None => Ok tt end.

Definition BucketStatus_validate (self : BucketStatus) : validation :=
  _ ← opt_validate (fun id => validate_identifier "backend_bucket_id" id MAX_BACKEND_ID_LENGTH)
        (status_backend_bucket_id self);
  _ ← opt_validate validate_endpoint (status_endpoint self);
  _ ← opt_validate (fun m => validate_human_name "message" m MAX_STATUS_MESSAGE_LENGTH)
        (status_message self);
  if (bool_decide (status_phase self = Ready) || bool_decide (status_phase self = Degraded))
     && (is_none (status_backend_bucket_id self) || is_none (status_endpoint self))
  then Err (InvalidState "ready or degraded buckets require a backend ID and endpoint")
  else if bool_decide (status_phase self = Deleted)
          && (is_some (status_backend_bucket_id self) || is_some (status_endpoint self))
  then Err (InvalidState "deleted buckets cannot retain a backend ID or endpoint")
  else Ok tt.
End status.

(** ** What the checks accept *)

Definition alphanumeric_end (o : option Byte.byte) : Prop :=
  exists b, o = Some b /\ is_ascii_alphanumeric b = true.

(** A lower-case ASCII letter or a digit. *)
Definition letter_or_digit (b : Byte.byte) : Prop :=
  (97 <= Byte.to_N b <= 122)%N \/ (48 <= Byte.to_N b <= 57)%N.

(** The naming rules of S3 general-purpose buckets, written out: 3 to 63 bytes;
    lower-case letters, digits, dots (46) and hyphens (45); a letter or a digit at
    both ends; no two adjacent dots; not the decimal text of an IPv4 address; and
    none of the prefixes and suffixes S3 reserves. *)
Definition valid_bucket_name (v : string) : Prop :=
  3 <= str_len v <= 63 /\
  Forall (fun b => letter_or_digit b \/ Byte.to_N b = 46%N \/ Byte.to_N b = 45%N) (str_bytes v) /\
  (exists b, head (str_bytes v) = Some b /\ letter_or_digit b) /\
  (exists b, last (str_bytes v) = Some b /\ letter_or_digit b) /\
  ~ (exists a b, v = a +:+ ".." +:+ b) /\
  ~ (exists a b c d, (a < 256)%N /\ (b < 256)%N /\ (c < 256)%N /\ (d < 256)%N /\
       str_bytes v = print_ipv4 a b c d) /\
  ~ (exists r, v = "xn--" +:+ r \/ v = "sthree-" +:+ r \/ v = "amzn-s3-demo-" +:+ r) /\
  ~ (exists r, v = r +:+ "-s3alias" \/ v = r +:+ "--ol-s3" \/ v = r +:+ ".mrap" \/
       v = r +:+ "--x-s3" \/ v = r +:+ "--table-s3" \/ v = r +:+ "-an").

(** The same in terms of the code's tests. *)
Definition passes_bucket_tests (v : string) : Prop :=
  3 <= str_len v <= 63 /\
  Forall (fun b => is_bucket_byte b = true) (str_bytes v) /\
  alphanumeric_end (head (str_bytes v)) /\
  alphanumeric_end (last (str_bytes v)) /\
  ~ (exists a b, v = a +:+ ".." +:+ b) /\
  parse_ipv4 v = None /\
  (forall p, p ∈ RESERVED_BUCKET_PREFIXES -> ~ exists r, v = p +:+ r) /\
  (forall p, p ∈ RESERVED_BUCKET_SUFFIXES -> ~ exists r, v = r +:+ p).

Definition valid_region (v : string) : Prop :=
  1 <= str_len v <= 63 /\
  Forall (fun b => is_region_byte b = true) (str_bytes v) /\
  alphanumeric_end (head (str_bytes v)) /\
  alphanumeric_end (last (str_bytes v)).

Lemma ok_tt {E : Type} (r : result E unit) u : r = Ok u <-> r = Ok tt.
Proof. by destruct u. Qed.

Lemma alphanumeric_at_end l i :
  alphanumeric_at l i = true <-> alphanumeric_end (l !! i).
Proof.
  unfold alphanumeric_at, alphanumeric_end. destruct (l !! i); crush; done.
Qed.

Lemma alphanumeric_at_in_range v i : 0 < str_len v -> i = 0 \/ i = length (str_bytes v) - 1 ->
  is_Some (str_bytes v !! i).
Proof. intros Hv Hi. apply lookup_lt_is_Some. rewrite str_bytes_length in *. lia. Qed.

Lemma validate_identifier_Ok field v m :
  validate_identifier field v m = Ok tt <->
  1 <= str_len v <= m /\ Forall (fun c => is_control c = false) (chars v).
Proof.
  unfold validate_identifier.
  destruct (str_is_empty v || Nat.ltb m (str_len v)) eqn:E.
  - split; [done|]. intros [Hl _]. unfold str_is_empty in E. reflect. lia.
  - rewrite orb_false_iff, str_is_empty_false, Nat.ltb_ge in E.
    destruct (existsb is_control (chars v)) eqn:C.
    + split; [done|]. intros [_ Hf]. rewrite Forall_forall in Hf.
      apply existsb_exists in C as (c & Hc & Hcc).
      rewrite Hf in Hcc; [done|]. by apply list_elem_of_In.
    + split; [|done]. intros _. split; [lia|]. apply Forall_forall. intros c Hc.
      apply list_elem_of_In in Hc. destruct (is_control c) eqn:Hcc; [|done].
      assert (existsb is_control (chars v) = true); [|congruence]. apply existsb_exists. eauto.
Qed.

Lemma validate_human_name_Ok field v m :
  validate_human_name field v m = Ok tt <->
  1 <= str_len v <= m /\ Forall (fun c => is_control c = false) (chars v) /\
  (forall c, head (chars v) = Some c -> is_whitespace c = false) /\
  (forall c, last (chars v) = Some c -> is_whitespace c = false).
Proof.
  unfold validate_human_name. pose proof (trim_id (chars v)) as Ht.
  destruct (validate_identifier field v m) as [[]|e] eqn:Hi; simpl.
  - apply validate_identifier_Ok in Hi. case_bool_decide; tauto || (split; [done|tauto]).
  - split; [done|]. intros (H1 & H2 & _).
    assert (validate_identifier field v m = Ok tt) by (by apply validate_identifier_Ok).
    congruence.
Qed.

Lemma head_lookup {A : Type} (l : list A) : head l = l !! 0.
Proof. by destruct l. Qed.

Lemma forallb_Forall {A : Type} (f : A -> bool) l :
  forallb f l = true <-> Forall (fun x => f x = true) l.
Proof. rewrite forallb_forall, Forall_forall. by setoid_rewrite list_elem_of_In. Qed.

Lemma existsb_false {A : Type} (f : A -> bool) l :
  existsb f l = false <-> forall x, x ∈ l -> f x = false.
Proof.
  induction l as [|y l IH]; simpl.
  - split; [intros _ x Hx; by apply elem_of_nil in Hx|done].
  - rewrite orb_false_iff, IH. setoid_rewrite elem_of_cons. split.
    + intros [Hy Hl] x [->|Hx]; auto.
    + intros Hx. split; auto.
Qed.

(** Bytes of the two alphabets are ASCII, graphic, and hence neither control
    characters nor white space. *)
Lemma in_range_bounds lo hi b : in_range lo hi b = true -> (lo <= Byte.to_N b <= hi)%N.
Proof. unfold in_range. rewrite andb_true_iff, !N.leb_le. done. Qed.

Lemma is_byte_val c b n :
  is_byte c b = true -> str_bytes c = [n] -> Byte.to_N b = Byte.to_N n.
Proof. unfold is_byte. rewrite bool_decide_eq_true. congruence. Qed.

Lemma bucket_byte_ascii b : is_bucket_byte b = true -> (45 <= Byte.to_N b <= 122)%N.
Proof.
  unfold is_bucket_byte, is_ascii_lowercase, is_ascii_digit. intros H. reflect. destruct_or!.
  - apply in_range_bounds in H. lia.
  - apply in_range_bounds in H. lia.
  - rewrite (is_byte_val _ _ Byte.x2e H eq_refl). vm_compute. split; congruence.
  - rewrite (is_byte_val _ _ Byte.x2d H eq_refl). vm_compute. split; congruence.
Qed.

Lemma region_byte_bucket_byte b : is_region_byte b = true -> is_bucket_byte b = true.
Proof. unfold is_region_byte, is_bucket_byte. intros H. reflect. tauto. Qed.

Lemma bucket_bytes_chars v :
  Forall (fun b => is_bucket_byte b = true) (str_bytes v) ->
  chars v = Byte.to_N <$> str_bytes v /\ Forall (fun c => is_control c = false) (chars v).
Proof.
  intros Hv. assert (Hc : chars v = Byte.to_N <$> str_bytes v).
  { apply decode_ascii. eapply Forall_impl; [done|]. intros b Hb.
    apply bucket_byte_ascii in Hb. lia. }
  split; [done|]. rewrite Hc, Forall_fmap. eapply Forall_impl; [done|]. intros b Hb.
  apply bucket_byte_ascii in Hb. unfold is_control. simpl. reflect.
  rewrite N.ltb_ge, N.leb_gt. lia.
Qed.

Lemma bucket_bytes_char_length v :
  Forall (fun b => is_bucket_byte b = true) (str_bytes v) -> char_length v = str_len v.
Proof.
  intros Hv. unfold char_length. destruct (bucket_bytes_chars v Hv) as [-> _].
  by rewrite length_fmap, str_bytes_length.
Qed.

Lemma last_lookup' {A : Type} (l : list A) : l !! (length l - 1) = last l.
Proof. rewrite last_lookup. f_equal. lia. Qed.

Lemma validate_bucket_name_tests v : validate_bucket_name v = Ok tt <-> passes_bucket_tests v.
Proof.
  unfold validate_bucket_name, passes_bucket_tests.
  rewrite head_lookup, <- last_lookup'. rewrite <- !alphanumeric_at_end, <- forallb_Forall.
  rewrite <- contains_spec. setoid_rewrite <- starts_with_spec. setoid_rewrite <- ends_with_spec.
  setoid_rewrite not_true_iff_false. rewrite <- !existsb_false.
  unfold MIN_BUCKET_NAME_LENGTH, MAX_BUCKET_NAME_LENGTH.
  generalize (existsb (starts_with v) RESERVED_BUCKET_PREFIXES) as pre.
  generalize (existsb (ends_with v) RESERVED_BUCKET_SUFFIXES) as suf. intros suf pre.
  destruct (Nat.leb_spec 3 (str_len v)), (Nat.leb_spec (str_len v) 63); simpl;
    try (split; [done|intros [? _]; lia]).
  destruct (forallb is_bucket_byte (str_bytes v)), (alphanumeric_at (str_bytes v) 0),
    (alphanumeric_at (str_bytes v) (length (str_bytes v) - 1)), (contains v ".."),
    (parse_ipv4 v); simpl; try (split; intros; destruct_and?; congruence).
  destruct pre, suf; simpl; try (split; intros; destruct_and?; congruence).
  split; [|done]. intros _. repeat split; done || lia.
Qed.

Lemma in_range_spec lo hi b : in_range lo hi b = true <-> (lo <= Byte.to_N b <= hi)%N.
Proof. unfold in_range. by rewrite andb_true_iff, !N.leb_le. Qed.

Lemma is_byte_spec c n b : str_bytes c = [n] -> is_byte c b = true <-> Byte.to_N b = Byte.to_N n.
Proof.
  intros Hc. unfold is_byte. rewrite bool_decide_eq_true, Hc. split; [congruence|].
  intros Hb. f_equal. apply (f_equal Byte.of_N) in Hb. rewrite !Byte.of_to_N in Hb. congruence.
Qed.

Lemma bucket_byte_spec b :
  is_bucket_byte b = true <-> letter_or_digit b \/ Byte.to_N b = 46%N \/ Byte.to_N b = 45%N.
Proof.
  unfold is_bucket_byte, is_ascii_lowercase, is_ascii_digit, letter_or_digit.
  rewrite !orb_true_iff, !in_range_spec, (is_byte_spec "." Byte.x2e), (is_byte_spec "-" Byte.x2d) by done.
  tauto.
Qed.

(** Inside the alphabet the alphanumeric bytes are lower-case letters and digits. *)
Lemma bucket_alphanumeric_spec b :
  is_bucket_byte b = true -> is_ascii_alphanumeric b = true <-> letter_or_digit b.
Proof.
  rewrite bucket_byte_spec. unfold is_ascii_alphanumeric, is_ascii_lowercase, is_ascii_uppercase,
    is_ascii_digit, letter_or_digit. rewrite !orb_true_iff, !in_range_spec. lia.
Qed.

Lemma bucket_end_spec l o :
  Forall (fun b => is_bucket_byte b = true) l -> (forall b, o = Some b -> b ∈ l) ->
  alphanumeric_end o <-> exists b, o = Some b /\ letter_or_digit b.
Proof.
  intros Hl Ho. rewrite Forall_forall in Hl. unfold alphanumeric_end.
  split; intros (b & -> & Hb); exists b; (split; [done|]);
    apply (bucket_alphanumeric_spec b); eauto.
Qed.

Lemma head_in {A : Type} (l : list A) x : head l = Some x -> x ∈ l.
Proof. destruct l; [done|]. intros [= ->]. by left. Qed.
Lemma last_in {A : Type} (l : list A) x : last l = Some x -> x ∈ l.
Proof. rewrite <- last_lookup'. apply list_elem_of_lookup_2. Qed.

Lemma ipv4_spec v :
  parse_ipv4 v = None <->
  ~ (exists a b c d, (a < 256)%N /\ (b < 256)%N /\ (c < 256)%N /\ (d < 256)%N /\
       str_bytes v = print_ipv4 a b c d).
Proof.
  split.
  - intros Hn (a & b & c & d & Ha & Hb & Hc & Hd & Hv).
    assert (v = String.string_of_list_byte (print_ipv4 a b c d)) as ->.
    { apply str_bytes_inj. by rewrite str_bytes_of_list. }
    by rewrite parse_print_ipv4 in Hn.
  - intros Hn. destruct (parse_ipv4 v) as [[[[a b] c] d]|] eqn:Hp; [|done].
    destruct Hn. exists a, b, c, d. by apply parse_ipv4_inv.
Qed.

Lemma reserved_prefixes_spec v :
  (forall p, p ∈ RESERVED_BUCKET_PREFIXES -> ~ exists r, v = p +:+ r) <->
  ~ (exists r, v = "xn--" +:+ r \/ v = "sthree-" +:+ r \/ v = "amzn-s3-demo-" +:+ r).
Proof.
  setoid_rewrite list_elem_of_In. simpl. split.
  - intros Hp (r & Hr). destruct_or!; (eapply Hp; [|by exists r]); tauto.
  - intros Hn p Hp (r & ->). destruct Hn. exists r. destruct_or!; subst; tauto.
Qed.

Lemma reserved_suffixes_spec v :
  (forall p, p ∈ RESERVED_BUCKET_SUFFIXES -> ~ exists r, v = r +:+ p) <->
  ~ (exists r, v = r +:+ "-s3alias" \/ v = r +:+ "--ol-s3" \/ v = r +:+ ".mrap" \/
       v = r +:+ "--x-s3" \/ v = r +:+ "--table-s3" \/ v = r +:+ "-an").
Proof.
  setoid_rewrite list_elem_of_In. simpl. split.
  - intros Hp (r & Hr). destruct_or!; (eapply Hp; [|by exists r]); tauto.
  - intros Hn p Hp (r & ->). destruct Hn. exists r. destruct_or!; subst; tauto.
Qed.

Lemma bucket_tests_spec v : passes_bucket_tests v <-> valid_bucket_name v.
Proof.
  unfold passes_bucket_tests, valid_bucket_name.
  rewrite ipv4_spec, reserved_prefixes_spec, reserved_suffixes_spec.
  setoid_rewrite <- bucket_byte_spec.
  split; intros (Hl & Hb & Hh & Ht & Hrest); (split; [done|]); (split; [done|]);
    rewrite ?(bucket_end_spec _ _ Hb (head_in _)), ?(bucket_end_spec _ _ Hb (last_in _)) in *; done.
Qed.

Lemma validate_bucket_name_Ok v : validate_bucket_name v = Ok tt <-> valid_bucket_name v.
Proof. rewrite validate_bucket_name_tests. apply bucket_tests_spec. Qed.

(** Validated texts have no NUL character. *)
Lemma no_control_no_nul v : Forall (fun c => is_control c = false) (chars v) -> no_nul v = true.
Proof.
  intros Hv. apply forallb_Forall. eapply Forall_impl; [done|]. intros c Hc.
  destruct (N.eqb_spec c 0) as [->|]; done.
Qed.

Lemma bucket_bytes_no_nul v :
  Forall (fun b => is_bucket_byte b = true) (str_bytes v) -> no_nul v = true.
Proof. intros Hv. by apply no_control_no_nul, bucket_bytes_chars. Qed.

Lemma validate_region_Ok v : validate_region v = Ok tt <-> valid_region v.
Proof.
  unfold validate_region, valid_region.
  rewrite head_lookup, <- last_lookup'. rewrite <- !alphanumeric_at_end, <- forallb_Forall.
  destruct (validate_identifier "region" v MAX_REGION_LENGTH) as [[]|e] eqn:Hi; simpl.
  - apply validate_identifier_Ok in Hi as [Hl _]. unfold MAX_REGION_LENGTH in Hl.
    destruct (alphanumeric_at (str_bytes v) 0),
      (alphanumeric_at (str_bytes v) (length (str_bytes v) - 1)),
      (forallb is_region_byte (str_bytes v)); simpl;
      try (split; intros; destruct_and?; congruence). done.
  - split; [done|]. intros (Hl & Hf & _).
    assert (validate_identifier "region" v MAX_REGION_LENGTH = Ok tt); [|congruence].
    apply validate_identifier_Ok. split; [done|]. apply bucket_bytes_chars.
    apply forallb_Forall in Hf. eapply Forall_impl; [done|]. apply region_byte_bucket_byte.
Qed.

Lemma ensure_quota_Ok field q : ensure_quota field q = Ok tt <-> (1 <= q <= i64_max)%Z.
Proof.
  unfold ensure_quota, MAX_GARAGE_QUOTA.
  destruct (Z.leb_spec 1 q), (Z.leb_spec q i64_max); simpl; split; (done || lia).
Qed.

Lemma BucketQuota_validate_Ok q :
  BucketQuota_validate q = Ok tt <->
  (1 <= quota_bytes q <= i64_max)%Z /\ (1 <= quota_objects q <= i64_max)%Z.
Proof.
  unfold BucketQuota_validate. rewrite result_bind_Ok. setoid_rewrite ok_tt.
  rewrite <- (ensure_quota_Ok "quota_bytes"), <- (ensure_quota_Ok "quota_objects").
  split; [by intros [_ ?]|]. intros ?. by exists tt.
Qed.

Lemma SyouyuSpec_validate_Ok s :
  SyouyuSpec_validate s = Ok tt <->
  valid_region (spec_region s) /\ valid_bucket_name (spec_bucket_name s) /\
  (1 <= spec_quota_bytes s <= i64_max)%Z /\ (1 <= spec_quota_objects s <= i64_max)%Z.
Proof.
  rewrite <- validate_region_Ok, <- validate_bucket_name_Ok.
  pose proof (BucketQuota_validate_Ok (SyouyuSpec_quota s)) as Hq. simpl in Hq.
  rewrite <- Hq. unfold SyouyuSpec_validate.
  destruct (validate_region _) as [[]|], (validate_bucket_name _) as [[]|]; simpl; crush; done.
Qed.

Lemma ServiceScope_validate_Ok s :
  ServiceScope_validate s = Ok tt <->
  scope_organization_id s <> 0%N /\ scope_project_id s <> 0%N /\
  scope_service_instance_id s <> 0%N.
Proof.
  unfold ServiceScope_validate, ensure_uuid, is_nil.
  destruct (N.eqb_spec (scope_organization_id s) 0), (N.eqb_spec (scope_project_id s) 0),
    (N.eqb_spec (scope_service_instance_id s) 0); simpl; tauto || (split; [done|tauto]).
Qed.

Lemma CredentialSpec_validate_Ok s :
  CredentialSpec_validate s = Ok tt <->
  validate_human_name "credential_name" (cred_spec_name s) MAX_CREDENTIAL_NAME_LENGTH = Ok tt /\
  (perm_read (cred_spec_permissions s) = true \/ perm_write (cred_spec_permissions s) = true).
Proof.
  unfold CredentialSpec_validate, BucketPermissions_validate.
  destruct (validate_human_name _ _ _) as [[]|]; simpl;
    destruct (perm_read _), (perm_write _); simpl; split; intros; destruct_and?; destruct_or?; auto; done.
Qed.

(** What PostgreSQL's constraints ask of a stored specification. *)
Definition spec_fits_database (s : SyouyuSpec) : Prop :=
  (0 < spec_quota_bytes s <= i64_max)%Z /\ (0 < spec_quota_objects s <= i64_max)%Z /\
  3 <= char_length (spec_bucket_name s) <= 63 /\ 1 <= char_length (spec_region s) <= 64.

Lemma validated_spec_fits s : SyouyuSpec_validate s = Ok tt -> spec_fits_database s.
Proof.
  rewrite SyouyuSpec_validate_Ok. setoid_rewrite <- bucket_tests_spec.
  intros ((Hr & Hrb & _) & (Hn & Hnb & _) & Hq1 & Hq2).
  unfold spec_fits_database.
  rewrite (bucket_bytes_char_length (spec_bucket_name s)) by done.
  rewrite (bucket_bytes_char_length (spec_region s)).
  - lia.
  - eapply Forall_impl; [done|]. apply region_byte_bucket_byte.
Qed.

Lemma validated_spec_no_nul s : SyouyuSpec_validate s = Ok tt ->
  no_nul (spec_region s) = true /\ no_nul (spec_bucket_name s) = true.
Proof.
  rewrite SyouyuSpec_validate_Ok, <- bucket_tests_spec. intros ((_ & Hr & _) & (_ & Hn & _) & _).
  split; apply bucket_bytes_no_nul; [|done].
  eapply Forall_impl; [done|]. apply region_byte_bucket_byte.
Qed.

Section status_lemmas.
Context `{UrlLib}.

(** An optional field that passes its check, if present. *)
Definition present_ok {A : Type} (P : A -> Prop) (o : option A) : Prop :=
  forall a, o = Some a -> P a.

Lemma opt_validate_Ok {A : Type} (f : A -> validation) o :
  opt_validate f o = Ok tt <-> present_ok (fun a => f a = Ok tt) o.
Proof.
  unfold present_ok. destruct o; simpl; split; intros; simplify_eq; auto; done.
Qed.

Lemma origin_url_spec u :
  origin_url u = true <->
  (url_scheme u = "http" \/ url_scheme u = "https") /\ is_Some (url_host_str u) /\
  url_username u = EmptyString /\ url_password u = None /\ url_query u = None /\
  url_fragment u = None.
Proof.
  unfold origin_url, is_none.
  rewrite <- !String.eqb_eq.
  assert (He : str_is_empty (url_username u) = (url_username u =? "")%string).
  { unfold str_is_empty, str_len. by destruct (url_username u). }
  rewrite He.
  destruct (url_scheme u =? "http")%string, (url_scheme u =? "https")%string,
    (url_host_str u), (url_username u =? "")%string, (url_password u), (url_query u),
    (url_fragment u); simpl; split; intros; destruct_and?; destruct_or?; try done;
    try (by match goal with H : is_Some None |- _ => destruct H end);
    repeat split; eauto.
Qed.

Lemma status_shape_Ok {A B E : Type} p (a : option A) (b : option B) (e1 e2 : E) :
  (if (bool_decide (p = Ready) || bool_decide (p = Degraded)) && (is_none a || is_none b)
   then Err e1
   else if bool_decide (p = Deleted) && (is_some a || is_some b) then Err e2
   else Ok tt) = Ok tt <->
  (p = Ready \/ p = Degraded -> is_Some a /\ is_Some b) /\
  (p = Deleted -> a = None /\ b = None).
Proof.
  assert (Hn : forall T, ~ is_Some (@None T)) by (intros T [? ?]; done).
  destruct p, a, b; simpl; split; intros; try done; repeat split; intros; destruct_or?;
    try done; eauto;
    exfalso; destruct_and?;
    repeat match goal with
    | H : ?x = ?x \/ _ -> _ |- _ => specialize (H (or_introl eq_refl))
    | H : _ \/ ?x = ?x -> _ |- _ => specialize (H (or_intror eq_refl))
    | H : ?x = ?x -> _ |- _ => specialize (H eq_refl)
    end; destruct_and?; try done; by eapply Hn.
Qed.
End status_lemmas.

(** ** Properties *)

(** C36. The bucket-name validator accepts exactly the S3 general-purpose bucket
    names: 3 to 63 bytes of lower-case letters, digits, dots and hyphens,
    a letter or a digit at both ends, without adjacent dots, not the decimal text
    of an IPv4 address, and with none of the prefixes [xn--], [sthree-],
    [amzn-s3-demo-] and none of the suffixes [-s3alias], [--ol-s3], [.mrap],
    [--x-s3], [--table-s3], [-an]. *)
Theorem bucket_name_spec v : validate_bucket_name v = Ok tt <-> valid_bucket_name v.
Proof. apply validate_bucket_name_Ok. Qed.

(** No dotted quad [a.b.c.d] is ever accepted as a bucket name, whatever the
    four octets, so a bucket host name cannot be mistaken for an address. *)
Theorem dotted_quad_rejected a b c d :
  (a < 256)%N -> (b < 256)%N -> (c < 256)%N -> (d < 256)%N ->
  is_err (validate_bucket_name (String.string_of_list_byte (print_ipv4 a b c d))) = true.
Proof.
  intros Ha Hb Hc Hd. set (v := String.string_of_list_byte _).
  destruct (validate_bucket_name v) as [[]|e] eqn:Hv; [|done].
  apply validate_bucket_name_tests in Hv as (_ & _ & _ & _ & _ & Hip & _).
  unfold v in Hip. by rewrite parse_print_ipv4 in Hip.
Qed.

Lemma dotted_quad_rejected_witness :
  is_err (validate_bucket_name (String.string_of_list_byte (print_ipv4 192 168 1 1))) = true.
Proof. apply (dotted_quad_rejected 192 168 1 1); reflexivity. Defined.

(** C37. A specification that passes [validate] satisfies every database
    constraint on its columns: both quotas are positive and fit [BIGINT] (so the
    conversion to [i64] cannot fail), and name and region have an admissible
    number of characters. *)
Theorem validated_spec_fits_database s :
  SyouyuSpec_validate s = Ok tt -> spec_fits_database s.
Proof. apply validated_spec_fits. Qed.

Definition sample_spec : SyouyuSpec :=
  {| spec_region := "heteronet-global"; spec_bucket_name := "project-assets-019f";
     spec_quota_bytes := 10737418240; spec_quota_objects := 1000000 |}.

Lemma validated_spec_fits_database_witness : spec_fits_database sample_spec.
Proof. apply (validated_spec_fits_database sample_spec). vm_compute. reflexivity. Defined.

(** [Display] and [FromStr] of a bucket phase are inverse to each other, and
    [from_str] fails on every other text. *)
Theorem phase_roundtrip v p :
  BucketPhase_from_str v = Ok p <-> v = BucketPhase_to_string p.
Proof.
  unfold BucketPhase_from_str. split.
  - intros Hp. repeat match type of Hp with
      | context [(?x =? ?y)%string] => destruct (String.eqb_spec x y); [by simplify_eq|]
      end. done.
  - intros ->. by destruct p.
Qed.

(** [BucketStatus::validate] accepts a status exactly when its backend ID,
    endpoint and message are well formed where present, a ready or degraded
    bucket has both a backend ID and an endpoint, and a deleted bucket has
    neither. *)
Theorem status_validate_spec `{UrlLib} (s : BucketStatus) :
  BucketStatus_validate s = Ok tt <->
  present_ok (fun id => 1 <= str_len id <= 256 /\ Forall (fun c => is_control c = false) (chars id))
    (status_backend_bucket_id s) /\
  present_ok (fun e => exists u, url_parse e = Some u /\ origin_url u = true) (status_endpoint s) /\
  present_ok (fun m => validate_human_name "message" m 1024 = Ok tt) (status_message s) /\
  (status_phase s = Ready \/ status_phase s = Degraded ->
   is_Some (status_backend_bucket_id s) /\ is_Some (status_endpoint s)) /\
  (status_phase s = Deleted ->
   status_backend_bucket_id s = None /\ status_endpoint s = None).
Proof.
  assert (He : forall e, validate_endpoint e = Ok tt <->
                         exists u, url_parse e = Some u /\ origin_url u = true).
  { intros e. unfold validate_endpoint. destruct (url_parse e) as [u|]; simpl.
    - destruct (origin_url u) eqn:E; simpl; split; intros; destruct_exists; destruct_and?; try done.
      + by exists u.
      + congruence.
    - split; [done|]. by intros (? & ? & _). }
  unfold present_ok. setoid_rewrite <- He.
  setoid_rewrite <- (validate_identifier_Ok "backend_bucket_id" _ 256).
  unfold BucketStatus_validate, MAX_STATUS_MESSAGE_LENGTH, MAX_BACKEND_ID_LENGTH.
  destruct (opt_validate _ (status_backend_bucket_id s)) as [[]|] eqn:H1;
    [apply opt_validate_Ok in H1|];
    (destruct (opt_validate validate_endpoint (status_endpoint s)) as [[]|] eqn:H2;
     [apply opt_validate_Ok in H2|]);
    (destruct (opt_validate _ (status_message s)) as [[]|] eqn:H3;
     [apply opt_validate_Ok in H3|]); cbn [mbind result_bind];
    try (split; [done|]; intros (P1 & P2 & P3 & _);
         first [ apply opt_validate_Ok in P1; congruence
               | apply opt_validate_Ok in P2; congruence
               | apply opt_validate_Ok in P3; congruence ]).
  rewrite status_shape_Ok. tauto.
Qed.
