(* ===== verification/Garage.v ===== *)
(** * The Garage administration client ([crates/syouyu-garage/src/lib.rs])

    Every operation of [GarageAdminClient] as a program whose effect is the HTTP
    exchange.  [reqwest], [url], the [http] status table and the JSON decoders are
    parameters ([GarageLib]); a response is its status and the chunks [reqwest]
    delivers, ended cleanly or by a transport error.  A [usize] is a [Z]. *)

From stdpp Require Import pretty.
From S2P Require Import Prelude Prog RustStr Domain.

Definition DEFAULT_TIMEOUT : Z := 10 * 1000000000.
Definition MAX_SUCCESS_BODY_BYTES : Z := 8 * 1024 * 1024.
Definition MAX_ERROR_BODY_BYTES : Z := 16 * 1024.

(** ** The data of the administration API *)

Inductive ClusterHealthStatus : Type := Healthy | DegradedHealth | UnavailableHealth.
#[export] Instance ClusterHealthStatus_eq_dec : EqDecision ClusterHealthStatus.
Proof. solve_decision. Defined.

Record ClusterHealth : Type := {
  ch_status : ClusterHealthStatus;
  ch_known_nodes : Z;
  ch_connected_nodes : Z;
  ch_storage_nodes : Z;
  ch_storage_nodes_up : Z;
  ch_partitions : Z;
  ch_partitions_quorum : Z;
  ch_partitions_all_ok : Z;
}.

Record BucketQuotas : Type := { max_size : option Z; max_objects : option Z }.
Definition BucketQuotas_limited (size objects : Z) : BucketQuotas :=
  {| max_size := Some size; max_objects := Some objects |}.
Definition BucketQuotas_unlimited : BucketQuotas := {| max_size := None; max_objects := None |}.

Record BucketKeyPermissions : Type := { bkp_read : bool; bkp_write : bool; bkp_owner : bool }.
#[export] Instance BucketKeyPermissions_eq_dec : EqDecision BucketKeyPermissions.
Proof. solve_decision. Defined.
Definition BucketKeyPermissions_all : BucketKeyPermissions :=
  {| bkp_read := true; bkp_write := true; bkp_owner := true |}.
Definition BucketKeyPermissions_is_empty (self : BucketKeyPermissions) : bool :=
  negb (bkp_read self) && negb (bkp_write self) && negb (bkp_owner self).
Definition BucketKeyPermissions_from (permissions : BucketPermissions) : BucketKeyPermissions :=
  {| bkp_read := perm_read permissions; bkp_write := perm_write permissions; bkp_owner := false |}.

Record BucketLocalAlias : Type := { bla_access_key_id : string; bla_alias : string }.
Record BucketSummary : Type := {
  bs_id : string;
  bs_created : DateTime;
  bs_global_aliases : list string;
  bs_local_aliases : list BucketLocalAlias;
}.
Record BucketKey : Type := {
  bk_access_key_id : string;
  bk_name : string;
  bk_permissions : BucketKeyPermissions;
  bk_bucket_local_aliases : list string;
}.
Record Bucket : Type := {
  bucket_id : string;
  bucket_created : DateTime;
  bucket_global_aliases : list string;
  bucket_website_access : bool;
  bucket_keys : list BucketKey;
  bucket_objects : Z;
  bucket_bytes : Z;
  bucket_unfinished_uploads : Z;
  bucket_unfinished_multipart_uploads : Z;
  bucket_unfinished_multipart_upload_parts : Z;
  bucket_unfinished_multipart_upload_bytes : Z;
  bucket_quotas : BucketQuotas;
}.
Record AccessKeySummary : Type := {
  aks_id : string;
  aks_name : string;
  aks_expired : bool;
  aks_created : option DateTime;
  aks_expiration : option DateTime;
}.
Record GlobalKeyPermissions : Type := { gkp_create_bucket : bool }.
Record KeyBucket : Type := {
  kb_id : string;
  kb_global_aliases : list string;
  kb_local_aliases : list string;
  kb_permissions : BucketKeyPermissions;
}.
Record AccessKey : Type := {
  ak_access_key_id : string;
  ak_name : string;
  ak_expired : bool;
  ak_created : option DateTime;
  ak_expiration : option DateTime;
  ak_permissions : GlobalKeyPermissions;
  ak_buckets : list KeyBucket;
  ak_secret_access_key : option string;
}.
Record CreateKeyRequest : Type := {
  ckr_name : string;
  ckr_expiration : option DateTime;
  ckr_never_expires : bool;
}.
Definition CreateKeyRequest_new (name : string) (expiration : option DateTime) : CreateKeyRequest :=
  {| ckr_name := name; ckr_expiration := expiration; ckr_never_expires := is_none expiration |}.
Record UpdateKeyRequest : Type := {
  ukr_name : option string;
  ukr_expiration : option DateTime;
  ukr_never_expires : bool;
}.
Record GarageApiErrorBody : Type := { err_code : option string; err_message : option string }.

(** ** Requests and responses *)

Inductive Method : Type := GET | POST.

(** The serialized request types. *)
Inductive Body : Type :=
| NoBody
| CreateBucketRequest (global_alias : string)
| UpdateBucketRequest (quotas : BucketQuotas)
| CreateKeyBody (request : CreateKeyRequest)
| UpdateKeyBody (update : UpdateKeyRequest)
| BucketKeyPermissionChangeRequest (bucket_id access_key_id : string)
    (permissions : BucketKeyPermissions).

Class GarageLib `{UrlLib} : Type := {
  url_path : Url -> string;
  url_set_path : Url -> string -> Url;
  (** [Url::join]; the error is its text. *)
  url_join : Url -> string -> result string Url;
  (** [HeaderValue::from_str] accepts the text. *)
  header_value_valid : string -> bool;
  ReqwestError : Type;
  reqwest_error_to_string : ReqwestError -> string;
  Client : Type;
  (** [Client::builder()] with the authorization header and the timeout. *)
  client_build : string -> Z -> result ReqwestError Client;
  JsonError : Type;
  json_error_to_string : JsonError -> string;
  canonical_reason : Z -> option string;
  cluster_health_from_slice : bytes -> result JsonError ClusterHealth;
  bucket_summaries_from_slice : bytes -> result JsonError (list BucketSummary);
  bucket_from_slice : bytes -> result JsonError Bucket;
  key_summaries_from_slice : bytes -> result JsonError (list AccessKeySummary);
  access_key_from_slice : bytes -> result JsonError AccessKey;
  error_body_from_slice : bytes -> result JsonError GarageApiErrorBody;
}.

Module GarageError.
Section garage_error.
Context `{GarageLib}.
Inductive t : Type :=
| InvalidConfiguration (message : string)
| InvalidInput (field reason : string)
| ClientBuild (source : ReqwestError)
| Transport (operation : string) (source : ReqwestError)
| Api (operation : string) (status : Z) (code : option string) (message body : string)
    (truncated : bool)
| ResponseTooLarge (operation : string) (status : Z) (limit : Z)
| Decode (operation : string) (status : Z) (body : string) (source : JsonError).
End garage_error.
End GarageError.
Abbreviation GarageError := GarageError.t (only parsing).

Section client.
Context `{GarageLib}.

Record Request : Type := {
  rq_method : Method;
  rq_url : Url;
  rq_query : list (string * string);
  rq_body : Body;
}.

Record Response : Type := {
  rs_status : Z;
  rs_chunks : list bytes;
  rs_end : option ReqwestError;
}.

(** [RequestBuilder::send]. *)
Inductive HttpE : Type -> Type :=
| Send (client : Client) (request : Request) : HttpE (result ReqwestError Response).

Abbreviation Http A := (prog HttpE (result GarageError A)) (only parsing).

(** ** Errors *)

Definition GarageError_status_code (self : GarageError) : option Z :=
  match self with
  | GarageError.Api _ status _ _ _ _
  | GarageError.ResponseTooLarge _ status _
  | GarageError.Decode _ status _ _ => Some status
  | GarageError.InvalidConfiguration _ | GarageError.InvalidInput _ _
  | GarageError.ClientBuild _ | GarageError.Transport _ _ => None
  end.

Definition GarageError_is_not_found (self : GarageError) : bool :=
  bool_decide (GarageError_status_code self = Some 404%Z).

(** [StatusCode]'s [Display]. *)
Definition status_to_string (status : Z) : string :=
  pretty status +:+ " " +:+ default "<unknown status code>" (canonical_reason status).

Definition GarageError_to_string (self : GarageError) : string :=
  match self with
  | GarageError.InvalidConfiguration m => "invalid Garage configuration: " +:+ m
  | GarageError.InvalidInput field reason => "invalid " +:+ field +:+ ": " +:+ reason
  | GarageError.ClientBuild e =>
      "failed to build Garage HTTP client: " +:+ reqwest_error_to_string e
  | GarageError.Transport op e =>
      "Garage " +:+ op +:+ " transport failed: " +:+ reqwest_error_to_string e
  | GarageError.Api op status _ message _ _ =>
      "Garage " +:+ op +:+ " returned HTTP " +:+ status_to_string status +:+ ": " +:+ message
  | GarageError.ResponseTooLarge op _ limit =>
      "Garage " +:+ op +:+ " response exceeded " +:+ pretty limit +:+ " bytes"
  | GarageError.Decode op status _ e =>
      "Garage " +:+ op +:+ " returned invalid JSON with HTTP " +:+ status_to_string status
      +:+ ": " +:+ json_error_to_string e
  end.

(** ** Input checks *)

Definition validate_input (field value : string) : result GarageError unit :=
  if str_is_empty value || Nat.ltb 256 (str_len value) || existsb is_control (chars value)
  then Err (GarageError.InvalidInput field "value must contain 1 to 256 non-control characters")
  else Ok tt.

Definition validate_base_url (url : Url) : result GarageError unit :=
  if negb (String.eqb (url_scheme url) "http" || String.eqb (url_scheme url) "https")
     || is_none (url_host_str url)
     || negb (str_is_empty (url_username url))
     || is_some (url_password url)
     || is_some (url_query url)
     || is_some (url_fragment url)
  then Err (GarageError.InvalidConfiguration
              "base URL must be an HTTP(S) URL without credentials, query, or fragment")
  else Ok tt.

Definition BucketQuotas_validate (self : BucketQuotas) : result GarageError unit :=
  match max_size self, max_objects self with
  | Some size, Some objects =>
      if (0 <? size)%Z && (0 <? objects)%Z then Ok tt
      else Err (GarageError.InvalidInput "quotas" "limited quotas must be non-zero")
  | None, None => Ok tt
  | _, _ => Err (GarageError.InvalidInput "quotas"
                   "Garage requires max_size and max_objects together")
  end.

Definition BucketQuotas_try_from (quota : BucketQuota) : result GarageError BucketQuotas :=
  _ ← map_err (fun _ => GarageError.InvalidInput "quotas" "domain quota is invalid")
        (BucketQuota_validate quota);
  Ok (BucketQuotas_limited (quota_bytes quota) (quota_objects quota)).

Definition CreateKeyRequest_validate (self : CreateKeyRequest) : result GarageError unit :=
  _ ← validate_input "key_name" (ckr_name self);
  if Bool.eqb (ckr_never_expires self) (is_some (ckr_expiration self))
  then Err (GarageError.InvalidInput "expiration" "set either expiration or never_expires")
  else Ok tt.

Definition UpdateKeyRequest_validate (self : UpdateKeyRequest) : result GarageError unit :=
  _ ← match ukr_name self with
      | Some name => validate_input "key_name" name
      | None => Ok tt
      end;
  if ukr_never_expires self && is_some (ukr_expiration self)
  then Err (GarageError.InvalidInput "expiration"
              "expiration and never_expires are mutually exclusive")
  else if is_none (ukr_name self) && is_none (ukr_expiration self)
          && negb (ukr_never_expires self)
  then Err (GarageError.InvalidInput "update" "at least one key field must change")
  else Ok tt.

(** ** Reading bodies *)

Fixpoint read_limited_from (operation : string) (limit : Z) (chunks : list bytes)
    (finish : option ReqwestError) (body : bytes) : result GarageError (bytes * bool) :=
  match chunks with
  | [] =>
      match finish with
      | Some source => Err (GarageError.Transport operation source)
      | None => Ok (body, false)
      end
  | chunk :: chunks' =>
      let remaining := Z.max 0 (limit - Z.of_nat (length body)) in
      if (remaining <? Z.of_nat (length chunk))%Z
      then Ok (body ++ take (Z.to_nat remaining) chunk, true)
      else read_limited_from operation limit chunks' finish (body ++ chunk)
  end.

Definition read_limited (response : Response) (limit : Z) (operation : string)
  : result GarageError (bytes * bool) :=
  read_limited_from operation limit (rs_chunks response) (rs_end response) [].

Definition display_body (body : bytes) : string :=
  String.string_of_list_byte (encode (trim (from_utf8_lossy body))).

Definition api_error (response : Response) (operation : string) : GarageError :=
  let status := rs_status response in
  match read_limited response MAX_ERROR_BODY_BYTES operation with
  | Ok (body, truncated) =>
      let parsed := match error_body_from_slice body with Ok e => Some e | Err _ => None end in
      let code := parsed ≫= err_code in
      let message :=
        match parsed ≫= err_message with
        | Some m => m
        | None => default "Garage administration request failed" (canonical_reason status)
        end in
      GarageError.Api operation status code message (display_body body) truncated
  | Err error => error
  end.

Definition is_success (status : Z) : bool := (200 <=? status)%Z && (status <? 300)%Z.

(** ** The client *)

Record GarageAdminClient : Type := { gac_base_url : Url; gac_client : Client }.

Definition with_timeout (base_url : Url) (admin_token : string) (timeout : Z)
  : result GarageError GarageAdminClient :=
  _ ← validate_base_url base_url;
  if str_is_empty admin_token
  then Err (GarageError.InvalidConfiguration "admin token must not be empty")
  else if (timeout =? 0)%Z
  then Err (GarageError.InvalidConfiguration "request timeout must not be zero")
  else
  let normalized_path := trim_end_matches Byte.x2f (url_path base_url) +:+ "/" in
  let base_url := url_set_path base_url normalized_path in
  _ ← ensure (header_value_valid ("Bearer " +:+ admin_token))
        (GarageError.InvalidConfiguration "admin token is invalid");
  client ← map_err GarageError.ClientBuild (client_build ("Bearer " +:+ admin_token) timeout);
  Ok {| gac_base_url := base_url; gac_client := client |}.

Definition GarageAdminClient_new (base_url : Url) (admin_token : string)
  : result GarageError GarageAdminClient := with_timeout base_url admin_token DEFAULT_TIMEOUT.

Definition request (self : GarageAdminClient) (method : Method) (operation : string)
    (query : list (string * string)) (body : Body) : result GarageError Request :=
  endpoint ← map_err (fun error => GarageError.InvalidConfiguration
                        ("cannot build Garage endpoint for " +:+ operation +:+ ": " +:+ error))
               (url_join (gac_base_url self) ("v2/" +:+ operation));
  Ok {| rq_method := method; rq_url := endpoint; rq_query := query; rq_body := body |}.

(** What [execute_json] makes of a received response. *)
Definition decode_response {T : Type} (from_slice : bytes -> result JsonError T)
    (response : Response) (operation : string) : result GarageError T :=
  let status := rs_status response in
  if negb (is_success status) then Err (api_error response operation)
  else
  read ← read_limited response MAX_SUCCESS_BODY_BYTES operation;
  let '(body, truncated) := read in
  if (truncated : bool)
  then Err (GarageError.ResponseTooLarge operation status MAX_SUCCESS_BODY_BYTES)
  else map_err (GarageError.Decode operation status (display_body body)) (from_slice body).

Definition execute_json {T : Type} (self : GarageAdminClient)
    (from_slice : bytes -> result JsonError T) (request : Request) (operation : string)
  : prog HttpE (result GarageError T) :=
  response ←? prog_map_err (GarageError.Transport operation) (call (Send (gac_client self) request));
  Ret (decode_response from_slice response operation).

Definition execute_empty (self : GarageAdminClient) (request : Request) (operation : string)
  : prog HttpE (result GarageError unit) :=
  response ←? prog_map_err (GarageError.Transport operation) (call (Send (gac_client self) request));
  Ret (if is_success (rs_status response) then Ok tt else Err (api_error response operation)).

(** A check or a construction that needs no exchange. *)
Definition pure {A : Type} (r : result GarageError A) : prog HttpE (result GarageError A) := Ret r.

Definition health (self : GarageAdminClient) : Http ClusterHealth :=
  request ←? pure (request self GET "GetClusterHealth" [] NoBody);
  execute_json self cluster_health_from_slice request "GetClusterHealth".

Definition list_buckets (self : GarageAdminClient) : Http (list BucketSummary) :=
  request ←? pure (request self GET "ListBuckets" [] NoBody);
  execute_json self bucket_summaries_from_slice request "ListBuckets".

Definition create_bucket (self : GarageAdminClient) (global_alias : string) : Http Bucket :=
  _ ←? pure (validate_input "global_alias" global_alias);
  request ←? pure (request self POST "CreateBucket" [] (CreateBucketRequest global_alias));
  execute_json self bucket_from_slice request "CreateBucket".

Definition get_bucket (self : GarageAdminClient) (bucket_id : string) : Http Bucket :=
  _ ←? pure (validate_input "bucket_id" bucket_id);
  request ←? pure (request self GET "GetBucketInfo" [("id", bucket_id)] NoBody);
  execute_json self bucket_from_slice request "GetBucketInfo".

Definition get_bucket_by_alias (self : GarageAdminClient) (global_alias : string) : Http Bucket :=
  _ ←? pure (validate_input "global_alias" global_alias);
  request ←? pure (request self GET "GetBucketInfo" [("globalAlias", global_alias)] NoBody);
  execute_json self bucket_from_slice request "GetBucketInfo".

Definition update_bucket_quotas (self : GarageAdminClient) (bucket_id : string)
    (quotas : BucketQuotas) : Http Bucket :=
  _ ←? pure (validate_input "bucket_id" bucket_id);
  _ ←? pure (BucketQuotas_validate quotas);
  request ←? pure (request self POST "UpdateBucket" [("id", bucket_id)] (UpdateBucketRequest quotas));
  execute_json self bucket_from_slice request "UpdateBucket".

Definition delete_bucket (self : GarageAdminClient) (bucket_id : string) : Http unit :=
  _ ←? pure (validate_input "bucket_id" bucket_id);
  request ←? pure (request self POST "DeleteBucket" [("id", bucket_id)] NoBody);
  execute_empty self request "DeleteBucket".

Definition list_keys (self : GarageAdminClient) : Http (list AccessKeySummary) :=
  request ←? pure (request self GET "ListKeys" [] NoBody);
  execute_json self key_summaries_from_slice request "ListKeys".

Definition create_key (self : GarageAdminClient) (key : CreateKeyRequest) : Http AccessKey :=
  _ ←? pure (CreateKeyRequest_validate key);
  request ←? pure (request self POST "CreateKey" [] (CreateKeyBody key));
  execute_json self access_key_from_slice request "CreateKey".

Definition get_key_inner (self : GarageAdminClient) (access_key_id : string) (show_secret : bool)
  : Http AccessKey :=
  _ ←? pure (validate_input "access_key_id" access_key_id);
  request ←? pure (request self GET "GetKeyInfo"
    [("id", access_key_id); ("showSecretKey", if show_secret then "true" else "false")] NoBody);
  execute_json self access_key_from_slice request "GetKeyInfo".

Definition get_key (self : GarageAdminClient) (access_key_id : string) : Http AccessKey :=
  get_key_inner self access_key_id false.

Definition get_key_with_secret (self : GarageAdminClient) (access_key_id : string)
  : Http AccessKey := get_key_inner self access_key_id true.

Definition update_key (self : GarageAdminClient) (access_key_id : string)
    (update : UpdateKeyRequest) : Http AccessKey :=
  _ ←? pure (validate_input "access_key_id" access_key_id);
  _ ←? pure (UpdateKeyRequest_validate update);
  request ←? pure (request self POST "UpdateKey" [("id", access_key_id)] (UpdateKeyBody update));
  execute_json self access_key_from_slice request "UpdateKey".

Definition delete_key (self : GarageAdminClient) (access_key_id : string) : Http unit :=
  _ ←? pure (validate_input "access_key_id" access_key_id);
  request ←? pure (request self POST "DeleteKey" [("id", access_key_id)] NoBody);
  execute_empty self request "DeleteKey".

Definition change_bucket_key_permissions (self : GarageAdminClient)
    (operation bucket_id access_key_id : string) (permissions : BucketKeyPermissions)
  : Http Bucket :=
  _ ←? pure (validate_input "bucket_id" bucket_id);
  _ ←? pure (validate_input "access_key_id" access_key_id);
  request ←? pure (request self POST operation []
    (BucketKeyPermissionChangeRequest bucket_id access_key_id permissions));
  execute_json self bucket_from_slice request operation.

Definition allow_bucket_key (self : GarageAdminClient) (bucket_id access_key_id : string)
    (permissions : BucketKeyPermissions) : Http Bucket :=
  change_bucket_key_permissions self "AllowBucketKey" bucket_id access_key_id permissions.

Definition deny_bucket_key (self : GarageAdminClient) (bucket_id access_key_id : string)
    (permissions : BucketKeyPermissions) : Http Bucket :=
  change_bucket_key_permissions self "DenyBucketKey" bucket_id access_key_id permissions.

Definition set_bucket_key_permissions (self : GarageAdminClient) (bucket_id access_key_id : string)
    (permissions : BucketKeyPermissions) : Http Bucket :=
  revoked ←? deny_bucket_key self bucket_id access_key_id BucketKeyPermissions_all;
  if BucketKeyPermissions_is_empty permissions then Ret (Ok revoked)
  else allow_bucket_key self bucket_id access_key_id permissions.
End client.

(** ** Exchanges *)

Section exchange_lemmas.
Context `{GarageLib}.
Abbreviation Http A := (prog HttpE (result GarageError A)) (only parsing).

(** The request the client [self] builds for [operation]. *)
Definition request_of (self : GarageAdminClient) (method : Method) (operation : string)
    (query : list (string * string)) (body : Body) (rq : Request) : Prop :=
  rq_method rq = method /\
  url_join (gac_base_url self) ("v2/" +:+ operation) = Ok (rq_url rq) /\
  rq_query rq = query /\
  rq_body rq = body.

(** The exchange of [self] for [operation] was answered. *)
Definition exchange (self : GarageAdminClient) (method : Method) (operation : string)
    (query : list (string * string)) (body : Body) (answer : result ReqwestError Response)
    (ev : event HttpE) : Prop :=
  exists rq, request_of self method operation query body rq /\
             ev = Event (Send (gac_client self) rq) answer.

Definition json_answer {T : Type} (from_slice : bytes -> result JsonError T) (operation : string)
    (answer : result ReqwestError Response) : result GarageError T :=
  match answer with
  | Ok response => decode_response from_slice response operation
  | Err e => Err (GarageError.Transport operation e)
  end.

Definition empty_answer (operation : string) (answer : result ReqwestError Response)
  : result GarageError unit :=
  match answer with
  | Ok response =>
      if is_success (rs_status response) then Ok tt else Err (api_error response operation)
  | Err e => Err (GarageError.Transport operation e)
  end.

Lemma request_Ok self m op q b rq : request self m op q b = Ok rq <-> request_of self m op q b rq.
Proof.
  unfold request, request_of. split.
  - destruct (url_join _ _); by intros [= <-].
  - intros (<- & -> & <- & <-). by destruct rq.
Qed.

Lemma runs_pure {A B : Type} (r : result GarageError A) (k : A -> Http B) tr r' :
  runs (try_bind (pure r) k) tr r' <->
  (exists e, r = Err e /\ tr = [] /\ r' = Err e) \/ (exists a, r = Ok a /\ runs (k a) tr r').
Proof. apply runs_ret_try. Qed.

Lemma runs_execute_json {T : Type} self (f : bytes -> result JsonError T) rq op tr r :
  runs (execute_json self f rq op) tr r <->
  exists answer, tr = [Event (Send (gac_client self) rq) answer] /\ r = json_answer f op answer.
Proof.
  unfold execute_json. rewrite runs_try. setoid_rewrite runs_map_err. setoid_rewrite runs_call.
  split.
  - intros [(e & ([|e'] & -> & [= ->]) & ->)|(tr1 & tr2 & a & -> & ([a'|] & -> & [= <-]) & -> & ->)].
    + by exists (Err e').
    + exists (Ok a). done.
  - intros ([a|e] & -> & ->); [right|left].
    + exists [Event (Send (gac_client self) rq) (Ok a)], [], a. split; [done|].
      split; [by exists (Ok a)|done].
    + exists (GarageError.Transport op e). split; [|done]. by exists (Err e).
Qed.

Lemma runs_execute_empty self rq op tr r :
  runs (execute_empty self rq op) tr r <->
  exists answer, tr = [Event (Send (gac_client self) rq) answer] /\ r = empty_answer op answer.
Proof.
  unfold execute_empty. rewrite runs_try. setoid_rewrite runs_map_err. setoid_rewrite runs_call.
  split.
  - intros [(e & ([|e'] & -> & [= ->]) & ->)|(tr1 & tr2 & a & -> & ([a'|] & -> & [= <-]) & -> & ->)].
    + by exists (Err e').
    + exists (Ok a). done.
  - intros ([a|e] & -> & ->); [right|left].
    + exists [Event (Send (gac_client self) rq) (Ok a)], [], a. split; [done|].
      split; [by exists (Ok a)|done].
    + exists (GarageError.Transport op e). split; [|done]. by exists (Err e).
Qed.

(** A client operation makes at most one exchange, and only if its checks pass. *)
Lemma runs_request {A : Type} self m op q b (k : Request -> Http A)
    (answered : result ReqwestError Response -> result GarageError A) tr r :
  (forall rq tr r, runs (k rq) tr r <->
     exists answer, tr = [Event (Send (gac_client self) rq) answer] /\ r = answered answer) ->
  runs (try_bind (pure (request self m op q b)) k) tr r <->
  (exists e, request self m op q b = Err e /\ tr = [] /\ r = Err e) \/
  (exists ev answer, tr = [ev] /\ exchange self m op q b answer ev /\ r = answered answer).
Proof.
  intros Hk. rewrite runs_pure. unfold exchange. setoid_rewrite <- request_Ok. split.
  - intros [?|(rq & Hrq & (answer & -> & ->)%Hk)]; [by left|right]. eauto 10.
  - intros [?|(ev & answer & -> & (rq & Hrq & ->) & ->)]; [by left|right].
    exists rq. split; [done|]. apply Hk. eauto.
Qed.
End exchange_lemmas.

(** ** Body limits *)

Section read_lemmas.
Context `{GarageLib}.

Lemma read_limited_from_spec op limit chunks finish body :
  (Z.of_nat (length body) <= limit)%Z ->
  read_limited_from op limit chunks finish body =
  (if (limit <? Z.of_nat (length (body ++ concat chunks)))%Z
   then Ok (take (Z.to_nat limit) (body ++ concat chunks), true)
   else match finish with
        | Some e => Err (GarageError.Transport op e)
        | None => Ok (body ++ concat chunks, false)
        end).
Proof.
  revert body. induction chunks as [|c chunks IH]; intros body Hb; simpl.
  - rewrite app_nil_r. destruct (Z.ltb_spec limit (Z.of_nat (length body))); [lia|done].
  - rewrite Z.max_r by lia.
    destruct (Z.ltb_spec (limit - Z.of_nat (length body)) (Z.of_nat (length c))) as [Hlt|Hge].
    + rewrite !length_app.
      destruct (Z.ltb_spec limit
                  (Z.of_nat (length body + (length c + length (concat chunks))))); [|lia].
      rewrite take_app_ge, take_app_le by lia. do 4 f_equal. lia.
    + rewrite IH by (rewrite length_app; lia). by rewrite <- !app_assoc.
Qed.
End read_lemmas.

(** C38. Whatever a server sends, in whatever chunks, a body read under a limit is
    the first [limit] bytes of the stream and is flagged as truncated exactly
    when the stream is longer than the limit; a transport error is reported only
    when it strikes before the limit is exceeded.  Chunk boundaries never
    matter and no more than [limit] bytes are kept. *)
Theorem read_limited_spec `{GarageLib} response limit operation :
  (0 <= limit)%Z ->
  read_limited response limit operation =
  let stream := concat (rs_chunks response) in
  if (limit <? Z.of_nat (length stream))%Z
  then Ok (take (Z.to_nat limit) stream, true)
  else match rs_end response with
       | Some e => Err (GarageError.Transport operation e)
       | None => Ok (stream, false)
       end.
Proof. intros Hl. apply read_limited_from_spec. simpl. lia. Qed.

(** ** A concrete library *)

Definition sample_url : UrlLib := {|
  Url := string; url_parse := Some; url_scheme _ := "http"; url_host_str _ := Some "garage";
  url_username _ := ""; url_password _ := None; url_query _ := None; url_fragment _ := None |}.

Definition sample_bucket : Bucket := {|
  bucket_id := "b"; bucket_created := 0; bucket_global_aliases := ["tenant-bucket"];
  bucket_website_access := false; bucket_keys := []; bucket_objects := 0; bucket_bytes := 0;
  bucket_unfinished_uploads := 0; bucket_unfinished_multipart_uploads := 0;
  bucket_unfinished_multipart_upload_parts := 0; bucket_unfinished_multipart_upload_bytes := 0;
  bucket_quotas := BucketQuotas_limited 1024 100 |}.

Definition sample_key : AccessKey := {|
  ak_access_key_id := "key-one"; ak_name := "deterministic"; ak_expired := false;
  ak_created := None; ak_expiration := None; ak_permissions := {| gkp_create_bucket := false |};
  ak_buckets := []; ak_secret_access_key := Some "secret" |}.

Definition sample_garage : @GarageLib sample_url :=
  @Build_GarageLib sample_url (fun u => u) (fun _ p => p) (fun u p => Ok (u +:+ p))
    (fun _ => true) string (fun e => e) unit (fun _ _ => Ok tt) string (fun e => e)
    (fun s => if (s =? 404)%Z then Some "Not Found" else None)
    (fun _ => Err "unused") (fun _ => Err "unused") (fun _ => Ok sample_bucket)
    (fun _ => Ok [{| aks_id := "key-zero"; aks_name := "deterministic"; aks_expired := false;
                     aks_created := None; aks_expiration := None |}])
    (fun _ => Ok sample_key) (fun _ => Err "no JSON").

Lemma read_limited_spec_witness :
  read_limited (H0 := sample_garage)
    (@Build_Response sample_url sample_garage 200 [str_bytes "abc"; str_bytes "def"] None)
    4 "GetBucketInfo" = Ok (str_bytes "abcd", true).
Proof. apply (@read_limited_spec sample_url sample_garage). lia. Defined.
