(* ===== verification/GarageAdapter.v ===== *)
(** * The storage backend ([crates/syouyu-api/src/garage.rs])

    The [Garage] trait as the effect [GarageE] of the handlers, and its
    implementation [GarageAdapter] as programs over the administration client. *)

From S2P Require Import Prelude Prog RustStr Domain Garage.

Module GarageBackendError.
Inductive t : Type :=
| NotFound (message : string)
| Unavailable (message : string)
| Conflict (message : string)
| InvalidResponse (message : string).
End GarageBackendError.
Abbreviation GarageBackendError := GarageBackendError.t (only parsing).

Record ReconciledBucket : Type := { rb_physical_bucket_id : string }.

Record IssuedCredential : Type := {
  ic_garage_key_id : string;
  ic_access_key_id : string;
  ic_secret_access_key : string;
}.

(** The trait. *)
Inductive GarageE : Type -> Type :=
| GarageHealth : GarageE (result GarageBackendError unit)
| ReconcileBucket (existing_physical_bucket_id : option string) (spec : SyouyuSpec)
    : GarageE (result GarageBackendError ReconciledBucket)
| BucketUsageOf (physical_bucket_id : string) : GarageE (result GarageBackendError BucketUsage)
| CreateCredential (physical_bucket_id deterministic_name : string) (permissions : BucketPermissions)
    : GarageE (result GarageBackendError IssuedCredential)
| RevokeCredential (garage_key_id : string) : GarageE (result GarageBackendError unit)
| DeleteBucket (physical_bucket_id : string) : GarageE (result GarageBackendError unit).

Definition bucket_is_empty (usage : BucketUsage) : bool :=
  (usage_bytes usage =? 0)%Z && (usage_objects usage =? 0)%Z
  && (usage_unfinished_upload_bytes usage =? 0)%Z && (usage_unfinished_uploads usage =? 0)%Z.

Section adapter.
Context `{GarageLib}.

Definition GarageBackendError_from (error : GarageError) : GarageBackendError :=
  if GarageError_is_not_found error
  then GarageBackendError.NotFound (GarageError_to_string error)
  else if match GarageError_status_code error with
          | Some status => (status =? 409)%Z
          | None => false
          end
  then GarageBackendError.Conflict (GarageError_to_string error)
  else GarageBackendError.Unavailable (GarageError_to_string error).

Record GarageAdapter : Type := { adapter_client : GarageAdminClient }.

Abbreviation Backend A := (prog HttpE (result GarageBackendError A)) (only parsing).

Definition adapter_health (self : GarageAdapter) : Backend unit :=
  health ←? prog_map_err GarageBackendError_from (health (adapter_client self));
  Ret (if bool_decide (ch_status health = UnavailableHealth)
          || (ch_storage_nodes_up health =? 0)%Z
          || (ch_partitions_quorum health <? ch_partitions health)%Z
       then Err (GarageBackendError.Unavailable "Garage does not currently have write quorum")
       else Ok tt).

(** The bucket [reconcile_bucket] works on. *)
Definition find_or_create_bucket (self : GarageAdapter)
    (existing_physical_bucket_id : option string) (spec : SyouyuSpec) : Backend Bucket :=
  match existing_physical_bucket_id with
  | Some bucket_id =>
      bucket ←? prog_map_err GarageBackendError_from (get_bucket (adapter_client self) bucket_id);
      Ret (if negb (existsb (fun name => String.eqb name (spec_bucket_name spec))
                      (bucket_global_aliases bucket))
           then Err (GarageBackendError.Conflict "bucket_name is immutable after service creation")
           else Ok bucket)
  | None =>
      found ← get_bucket_by_alias (adapter_client self) (spec_bucket_name spec);
      match found with
      | Ok bucket => Ret (Ok bucket)
      | Err error =>
          if GarageError_is_not_found error
          then prog_map_err GarageBackendError_from
                 (create_bucket (adapter_client self) (spec_bucket_name spec))
          else Ret (Err (GarageBackendError_from error))
      end
  end.

Definition reconcile_bucket (self : GarageAdapter) (existing_physical_bucket_id : option string)
    (spec : SyouyuSpec) : Backend ReconciledBucket :=
  bucket ←? find_or_create_bucket self existing_physical_bucket_id spec;
  let quotas := BucketQuotas_limited (spec_quota_bytes spec) (spec_quota_objects spec) in
  bucket ←? prog_map_err GarageBackendError_from
              (update_bucket_quotas (adapter_client self) (bucket_id bucket) quotas);
  Ret (Ok {| rb_physical_bucket_id := bucket_id bucket |}).

Definition bucket_usage (self : GarageAdapter) (physical_bucket_id : string)
  : Backend BucketUsage :=
  bucket ←? prog_map_err GarageBackendError_from
              (get_bucket (adapter_client self) physical_bucket_id);
  Ret (Ok {| usage_bytes := bucket_bytes bucket;
             usage_objects := bucket_objects bucket;
             usage_unfinished_upload_bytes := bucket_unfinished_multipart_upload_bytes bucket;
             usage_unfinished_uploads :=
               u64_saturating_add (bucket_unfinished_uploads bucket)
                 (bucket_unfinished_multipart_uploads bucket) |}).

(** An answer that leaves nothing to delete. *)
Definition deleted (r : result GarageError unit) : result GarageBackendError unit :=
  match r with
  | Ok _ => Ok tt
  | Err error => if GarageError_is_not_found error then Ok tt
                 else Err (GarageBackendError_from error)
  end.

Definition delete_and_ignore_missing (self : GarageAdapter) (access_key_id : string)
  : Backend unit :=
  r ← delete_key (adapter_client self) access_key_id; Ret (deleted r).

Fixpoint delete_keys (self : GarageAdapter) (access_key_ids : list string) : Backend unit :=
  match access_key_ids with
  | [] => Ret (Ok tt)
  | access_key_id :: rest =>
      _ ←? delete_and_ignore_missing self access_key_id;
      delete_keys self rest
  end.

(** [let _ = delete_key(..); return Err(e)]. *)
Definition discard_key {A : Type} (self : GarageAdapter) (access_key_id : string)
    (error : GarageBackendError) : Backend A :=
  _ ← delete_key (adapter_client self) access_key_id; Ret (Err error).

Definition named_key_ids (deterministic_name : string) (keys : list AccessKeySummary)
  : list string :=
  aks_id <$> List.filter (fun key => String.eqb (aks_name key) deterministic_name) keys.

Definition create_credential (self : GarageAdapter) (physical_bucket_id deterministic_name : string)
    (permissions : BucketPermissions) : Backend IssuedCredential :=
  keys ←? prog_map_err GarageBackendError_from (list_keys (adapter_client self));
  _ ←? delete_keys self (named_key_ids deterministic_name keys);
  key ←? prog_map_err GarageBackendError_from
           (create_key (adapter_client self) (CreateKeyRequest_new deterministic_name None));
  let access_key_id := ak_access_key_id key in
  match ak_secret_access_key key with
  | None =>
      discard_key self access_key_id
        (GarageBackendError.InvalidResponse "Garage omitted secretAccessKey from CreateKey")
  | Some secret_access_key =>
      granted ← set_bucket_key_permissions (adapter_client self) physical_bucket_id access_key_id
                  (BucketKeyPermissions_from permissions);
      match granted with
      | Err error => discard_key self access_key_id (GarageBackendError_from error)
      | Ok _ => Ret (Ok {| ic_garage_key_id := access_key_id;
                           ic_access_key_id := access_key_id;
                           ic_secret_access_key := secret_access_key |})
      end
  end.

Definition revoke_credential (self : GarageAdapter) (garage_key_id : string) : Backend unit :=
  r ← delete_key (adapter_client self) garage_key_id; Ret (deleted r).

Definition adapter_delete_bucket (self : GarageAdapter) (physical_bucket_id : string)
  : Backend unit :=
  r ← delete_bucket (adapter_client self) physical_bucket_id; Ret (deleted r).

(** [impl Garage for GarageAdapter]. *)
Definition Garage_for_GarageAdapter (self : GarageAdapter) (X : Type) (e : GarageE X)
  : prog HttpE X :=
  match e with
  | GarageHealth => adapter_health self
  | ReconcileBucket existing spec => reconcile_bucket self existing spec
  | BucketUsageOf id => bucket_usage self id
  | CreateCredential id name permissions => create_credential self id name permissions
  | RevokeCredential id => revoke_credential self id
  | DeleteBucket id => adapter_delete_bucket self id
  end.
End adapter.

(** ** Runs of the adapter *)

Section adapter_lemmas.
Context `{GarageLib}.

(** The exchange was answered with a body that decodes to [v]. *)
Definition answered {T : Type} (self : GarageAdapter) (from_slice : bytes -> result JsonError T)
    (method : Method) (operation : string) (query : list (string * string)) (body : Body) (v : T)
    (ev : event HttpE) : Prop :=
  exists answer, exchange (adapter_client self) method operation query body answer ev /\
                 json_answer from_slice operation answer = Ok v.

Definition listed_keys (self : GarageAdapter) : list AccessKeySummary -> event HttpE -> Prop :=
  answered self key_summaries_from_slice GET "ListKeys" [] NoBody.

Definition created_key (self : GarageAdapter) (name : string) : AccessKey -> event HttpE -> Prop :=
  answered self access_key_from_slice POST "CreateKey" []
    (CreateKeyBody {| ckr_name := name; ckr_expiration := None; ckr_never_expires := true |}).

(** Garage confirmed the deletion, or did not know the key. *)
Definition key_gone (self : GarageAdapter) (access_key_id : string) (ev : event HttpE) : Prop :=
  exists response,
    exchange (adapter_client self) POST "DeleteKey" [("id", access_key_id)] NoBody (Ok response) ev /\
    (is_success (rs_status response) = true \/ rs_status response = 404%Z).

(** Garage withdrew the read, write and owner permissions of the key on the bucket;
    then, if [read] or [write] is asked for, it granted exactly those. *)
Definition granted (self : GarageAdapter) (bucket_id access_key_id : string) (read write : bool)
    (tr : list (event HttpE)) : Prop :=
  exists b ev, answered self bucket_from_slice POST "DenyBucketKey" []
    (BucketKeyPermissionChangeRequest bucket_id access_key_id
       {| bkp_read := true; bkp_write := true; bkp_owner := true |}) b ev /\
  if read || write
  then exists b' ev', tr = [ev; ev'] /\
    answered self bucket_from_slice POST "AllowBucketKey" []
      (BucketKeyPermissionChangeRequest bucket_id access_key_id
         {| bkp_read := read; bkp_write := write; bkp_owner := false |}) b' ev'
  else tr = [ev].

(** The request that would delete a key. *)
Definition delete_request (self : GarageAdapter) (access_key_id : string)
  : result GarageError Request :=
  _ ← validate_input "access_key_id" access_key_id;
  request (adapter_client self) POST "DeleteKey" [("id", access_key_id)] NoBody.

Lemma runs_delete_key self id tr r :
  runs (delete_key (adapter_client self) id) tr r ->
  match delete_request self id with
  | Ok rq => exists answer, tr = [Event (Send (gac_client (adapter_client self)) rq) answer] /\
                            r = empty_answer "DeleteKey" answer
  | Err e => tr = [] /\ r = Err e
  end.
Proof.
  unfold delete_key, delete_request.
  intros [(e & -> & -> & ->)|([] & Hv & [(e & He & -> & ->)|(rq & Hrq & Hk)]%runs_pure)]%runs_pure.
  - done.
  - by rewrite Hv, He.
  - rewrite Hv, Hrq. cbn. by apply runs_execute_empty.
Qed.

Lemma api_error_status response op status :
  GarageError_status_code (api_error response op) = Some status -> status = rs_status response.
Proof.
  unfold api_error, read_limited. case_match eqn:E; [case_match; by intros [= <-]|].
  intros Hs. exfalso. revert E. generalize (@nil Byte.byte) as body.
  induction (rs_chunks response) as [|c cs IH]; intros body; simpl.
  - case_match; [|done]. intros [= <-]. done.
  - case_match; [done|]. apply IH.
Qed.

Lemma deleted_gone self id tr r :
  runs (delete_key (adapter_client self) id) tr r -> deleted r = Ok tt ->
  exists ev, tr = [ev] /\ key_gone self id ev.
Proof.
  intros Hr%runs_delete_key. unfold delete_request in Hr.
  destruct (validate_input _ id) as [[]|e] eqn:Hv; cbn in Hr.
  2:{ destruct Hr as [-> ->]. unfold validate_input in Hv. case_match; simplify_eq. done. }
  destruct (request _ _ _ _ _) as [rq|e] eqn:Hrq.
  2:{ destruct Hr as [-> ->]. unfold request in Hrq. destruct (url_join _ _); simplify_eq/=. done. }
  destruct Hr as ([response|e] & -> & ->); simpl.
  - intros Hd. eexists. split; [done|]. exists response. split; [exists rq; by rewrite <- request_Ok|].
    case_match; [by left|right]. simpl in Hd. case_match eqn:Hn; [|done].
    unfold GarageError_is_not_found in Hn. rewrite bool_decide_eq_true in Hn.
    by apply api_error_status in Hn.
  - done.
Qed.

Lemma runs_discard {A : Type} self id e tr (r : result GarageBackendError A) :
  runs (discard_key self id e) tr r ->
  r = Err e /\ match delete_request self id with
               | Ok rq => exists answer,
                   tr = [Event (Send (gac_client (adapter_client self)) rq) answer]
               | Err _ => tr = []
               end.
Proof.
  unfold discard_key. intros (tr1 & tr2 & r' & -> & Hd & -> & ->)%runs_bind. split; [done|].
  rewrite app_nil_r. apply runs_delete_key in Hd.
  destruct (delete_request self id); [destruct Hd as (answer & -> & _); eauto|by destruct Hd].
Qed.

Lemma runs_delete_keys self ids tr :
  runs (delete_keys self ids) tr (Ok tt) -> Forall2 (key_gone self) ids tr.
Proof.
  revert tr. induction ids as [|id ids IH]; intros tr; simpl.
  - intros [-> _]. constructor.
  - intros [(e & _ & [=])|(tr1 & tr2 & [] & -> & Hd & Hr)]%runs_try.
    unfold delete_and_ignore_missing in Hd.
    apply runs_bind in Hd as (t1 & t2 & r & -> & Hd & -> & Hok).
    eapply deleted_gone in Hd as (ev & -> & Hg); [|done].
    simpl. constructor; auto.
Qed.

(** A client call whose result is decoded JSON, seen through [map_err]. *)
Lemma runs_json_call {T : Type} self (f : bytes -> result JsonError T) m op q b tr v :
  runs (prog_map_err GarageBackendError_from
          (rq ←? pure (request (adapter_client self) m op q b);
           execute_json (adapter_client self) f rq op)) tr (Ok v) ->
  exists ev, tr = [ev] /\ answered self f m op q b v ev.
Proof.
  intros ([v'|] & Hr & [= <-])%runs_map_err.
  apply runs_request with (answered := json_answer f op) in Hr;
    [|intros; apply runs_execute_json].
  destruct Hr as [(e & _ & _ & [=])|(ev & answer & -> & Hx & Ha)].
  exists ev. split; [done|]. by exists answer.
Qed.

Lemma runs_create_key self name tr key :
  runs (prog_map_err GarageBackendError_from
          (create_key (adapter_client self) (CreateKeyRequest_new name None))) tr (Ok key) ->
  exists ev, tr = [ev] /\ created_key self name key ev.
Proof.
  unfold create_key. intros ([v'|] & Hr & [= <-])%runs_map_err.
  apply runs_pure in Hr as [(e & _ & _ & [=])|([] & _ & Hr)].
  eapply runs_json_call, runs_map_err. by exists (Ok key).
Qed.

Lemma runs_change_permissions self op bucket key p tr b :
  runs (change_bucket_key_permissions (adapter_client self) op bucket key p) tr (Ok b) ->
  exists ev, tr = [ev] /\ answered self bucket_from_slice POST op []
    (BucketKeyPermissionChangeRequest bucket key p) b ev.
Proof.
  unfold change_bucket_key_permissions.
  intros [(e & _ & _ & [=])|([] & _ & [(e & _ & _ & [=])|([] & _ & Hr)]%runs_pure)]%runs_pure.
  eapply runs_json_call, runs_map_err. by exists (Ok b).
Qed.

Lemma runs_set_permissions self bucket key p tr b :
  runs (set_bucket_key_permissions (adapter_client self) bucket key (BucketKeyPermissions_from p)) tr
    (Ok b) ->
  granted self bucket key (perm_read p) (perm_write p) tr.
Proof.
  unfold set_bucket_key_permissions.
  intros [(e & _ & [=])|(tr1 & tr2 & b1 & -> & Hd & Hr)]%runs_try.
  apply runs_change_permissions in Hd as (ev & -> & Hd).
  exists b1, ev. split; [exact Hd|]. destruct p as [[] []]; cbn in Hr |- *.
  4: by destruct Hr as [-> _].
  all: apply runs_change_permissions in Hr as (ev' & -> & Ha); by exists b, ev'.
Qed.

(** The body an exchange sent. *)
Definition sent_body (ev : event HttpE) : Body :=
  match ev with Event (Send _ rq) _ => rq_body rq end.

(** The answer an exchange got. *)
Definition sent_answer (ev : event HttpE) : result ReqwestError Response :=
  match ev with
  | Event e x =>
      match e in HttpE X return X -> result ReqwestError Response with Send _ _ => fun y => y end x
  end.

Lemma exchange_body self m op q b answer ev : exchange self m op q b answer ev -> sent_body ev = b.
Proof. by intros (rq & (_ & _ & _ & ?) & ->). Qed.

Lemma delete_request_body self id rq : delete_request self id = Ok rq -> rq_body rq = NoBody.
Proof. by intros (? & _ & (_ & _ & _ & ?)%request_Ok)%result_bind_Ok. Qed.

Lemma delete_key_body self id tr r :
  runs (delete_key (adapter_client self) id) tr r -> Forall (fun ev => sent_body ev = NoBody) tr.
Proof.
  intros Hr%runs_delete_key. destruct (delete_request self id) eqn:E.
  - destruct Hr as (answer & -> & _). constructor; [|done]. simpl. by eapply delete_request_body.
  - by destruct Hr as [-> _].
Qed.

Lemma delete_keys_body self ids tr r :
  runs (delete_keys self ids) tr r -> Forall (fun ev => sent_body ev = NoBody) tr.
Proof.
  revert tr. induction ids as [|id ids IH]; intros tr; simpl; [by intros [-> _]|].
  assert (Hone : forall t x, runs (delete_and_ignore_missing self id) t x ->
                             Forall (fun ev => sent_body ev = NoBody) t).
  { intros t x (t1 & t2 & y & -> & Hd%delete_key_body & -> & _)%runs_bind. by rewrite app_nil_r. }
  intros [(e & Hd & _)|(tr1 & tr2 & [] & -> & Hd & Hr)]%runs_try; [by eapply Hone|].
  apply Forall_app. eauto.
Qed.

(** A JSON call sends its own body, whatever comes back. *)
Lemma json_call_any {T : Type} self (f : bytes -> result JsonError T) m op q b tr r :
  runs (rq ←? pure (request (adapter_client self) m op q b);
        execute_json (adapter_client self) f rq op) tr r ->
  (tr = [] /\ is_ok r = false) \/
  (exists ev answer, tr = [ev] /\ exchange (adapter_client self) m op q b answer ev /\
                     r = json_answer f op answer).
Proof.
  intros Hr. apply runs_request with (answered := json_answer f op) in Hr;
    [|intros; apply runs_execute_json].
  destruct Hr as [(e & _ & -> & ->)|?]; auto.
Qed.

Definition permission_change (b : Body) : Prop :=
  exists bucket key p, b = BucketKeyPermissionChangeRequest bucket key p.

Lemma change_permissions_body self op bucket key p tr r :
  runs (change_bucket_key_permissions (adapter_client self) op bucket key p) tr r ->
  Forall (fun ev => permission_change (sent_body ev)) tr.
Proof.
  unfold change_bucket_key_permissions.
  intros [(e & _ & -> & _)|([] & _ & [(e & _ & -> & _)|([] & _ & Hr)]%runs_pure)]%runs_pure;
    [done|done|].
  apply json_call_any in Hr as [[-> _]|(ev & answer & -> & Hx%exchange_body & _)]; [done|].
  constructor; [|done]. exists bucket, key, p. done.
Qed.

Lemma set_permissions_body self bucket key p tr r :
  runs (set_bucket_key_permissions (adapter_client self) bucket key p) tr r ->
  Forall (fun ev => permission_change (sent_body ev)) tr.
Proof.
  unfold set_bucket_key_permissions.
  intros [(e & Hd%change_permissions_body & _)
         |(tr1 & tr2 & b1 & -> & Hd%change_permissions_body & Hr)]%runs_try; [done|].
  apply Forall_app. split; [done|]. case_match.
  - by destruct Hr as [-> _].
  - by eapply change_permissions_body.
Qed.

Lemma created_key_body self name key ev :
  created_key self name key ev -> exists rq, sent_body ev = CreateKeyBody rq.
Proof. intros (answer & Hx%exchange_body & _). eauto. Qed.

Lemma no_key_created self name key tr :
  Forall (fun ev => sent_body ev = NoBody \/ permission_change (sent_body ev)) tr ->
  forall ev, ev ∈ tr -> ~ created_key self name key ev.
Proof.
  rewrite Forall_forall. intros Hall ev Hin (rq & Hb)%created_key_body.
  destruct (Hall ev Hin) as [?|(? & ? & ? & ?)]; congruence.
Qed.

(** The key an exchange created is determined by the exchange. *)
Lemma created_key_det self name k k' ev :
  created_key self name k ev -> created_key self name k' ev -> k = k'.
Proof.
  intros (a & (rq & _ & ->) & Hk) (a' & (rq' & _ & Heq) & Hk').
  assert (a = a') by exact (f_equal sent_answer Heq).
  congruence.
Qed.

Lemma create_key_failed self name tr e :
  runs (prog_map_err GarageBackendError_from
          (create_key (adapter_client self) (CreateKeyRequest_new name None))) tr (Err e) ->
  forall ev key, ev ∈ tr -> ~ created_key self name key ev.
Proof.
  intros ([|e'] & Hr & [= ->])%runs_map_err. unfold create_key in Hr.
  apply runs_pure in Hr as [(e & _ & -> & _)|([] & _ & Hr)].
  - intros ev key Hin. by apply elem_of_nil in Hin.
  - apply json_call_any in Hr as [[-> _]|(ev & answer & -> & (rq & Hrq & ->) & Ha)];
      intros ev' key; [by intros ?%elem_of_nil|].
    intros ->%list_elem_of_singleton (a & (rq' & _ & Heq) & Hk).
    assert (answer = a) by exact (f_equal sent_answer Heq).
    congruence.
Qed.

Lemma delete_request_cleanup self id (tr : list (event HttpE)) tr' :
  match delete_request self id with
  | Ok rq => exists answer, tr' = [Event (Send (gac_client (adapter_client self)) rq) answer]
  | Err _ => tr' = []
  end ->
  match delete_request self id with
  | Ok rq => exists answer,
      last (tr ++ tr') = Some (Event (Send (gac_client (adapter_client self)) rq) answer)
  | Err _ => True
  end.
Proof.
  destruct (delete_request self id); [|done]. intros (answer & ->). exists answer. apply last_snoc.
Qed.

(** How [create_credential] can end once its key exists. *)
Lemma credential_after_key self bucket name p key tr0 ev tr2 r :
  Forall (fun ev => sent_body ev = NoBody) tr0 ->
  created_key self name key ev ->
  runs (match ak_secret_access_key key with
        | None => discard_key self (ak_access_key_id key)
            (GarageBackendError.InvalidResponse "Garage omitted secretAccessKey from CreateKey")
        | Some secret =>
            granted ← set_bucket_key_permissions (adapter_client self) bucket
              (ak_access_key_id key) (BucketKeyPermissions_from p);
            match granted with
            | Err error => discard_key self (ak_access_key_id key) (GarageBackendError_from error)
            | Ok _ => Ret (Ok {| ic_garage_key_id := ak_access_key_id key;
                                 ic_access_key_id := ak_access_key_id key;
                                 ic_secret_access_key := secret |})
            end
        end) tr2 r ->
  match r with
  | Ok issued =>
      granted self bucket (ak_access_key_id key) (perm_read p) (perm_write p) tr2 /\
      ic_garage_key_id issued = ak_access_key_id key /\
      ic_access_key_id issued = ak_access_key_id key /\
      ak_secret_access_key key = Some (ic_secret_access_key issued)
  | Err _ =>
      forall ev' key', ev' ∈ tr0 ++ ev :: tr2 -> created_key self name key' ev' ->
      match delete_request self (ak_access_key_id key') with
      | Ok rq => exists answer, last (tr0 ++ ev :: tr2)
          = Some (Event (Send (gac_client (adapter_client self)) rq) answer)
      | Err _ => True
      end
  end.
Proof.
  intros Hpre Hc Hr.
  assert (Hmine : forall ev' key', Forall (fun ev => sent_body ev = NoBody
                    \/ permission_change (sent_body ev)) tr2 ->
     ev' ∈ tr0 ++ ev :: tr2 -> created_key self name key' ev' -> key' = key).
  { intros ev' key' H2 Hin Hc'.
    apply elem_of_app in Hin as [Hin|[->|Hin]%elem_of_cons].
    - exfalso. eapply (no_key_created self name key' tr0); [|exact Hin|exact Hc'].
      eapply Forall_impl; [exact Hpre|]. auto.
    - by eapply created_key_det.
    - exfalso. by eapply (no_key_created self name key' tr2). }
  assert (Hdiscard : forall t (x : result GarageBackendError IssuedCredential) e,
    runs (discard_key self (ak_access_key_id key) e) t x ->
    Forall (fun ev => sent_body ev = NoBody \/ permission_change (sent_body ev)) t).
  { intros t x e (_ & Hd)%runs_discard. destruct (delete_request _ _) eqn:E; [|by subst].
    destruct Hd as (answer & ->). constructor; [|done]. left. by eapply delete_request_body. }
  destruct (ak_secret_access_key key) as [secret|].
  - apply runs_bind in Hr as (t1 & t2 & [b|e] & -> & Hs & Hr).
    + destruct Hr as [-> ->]. rewrite app_nil_r. split; [|done].
      by eapply runs_set_permissions.
    + pose proof (runs_discard _ _ _ _ _ Hr) as [-> Hd]. intros ev' key' Hin Hc'.
      assert (key' = key) as ->.
      { eapply Hmine; [|exact Hin|exact Hc']. apply Forall_app. split; [|by eapply Hdiscard].
        eapply Forall_impl; [by eapply set_permissions_body|]. auto. }
      rewrite app_comm_cons, app_assoc. by apply delete_request_cleanup.
  - pose proof (runs_discard _ _ _ _ _ Hr) as [-> Hd]. intros ev' key' Hin Hc'.
    assert (key' = key) as -> by (eapply Hmine; [by eapply Hdiscard|exact Hin|exact Hc']).
    change (ev :: tr2) with ([ev] ++ tr2). rewrite app_assoc. by apply delete_request_cleanup.
Qed.
(** The run issued [issued] with the bits of [permissions] and no other: it listed
    the keys, saw those of the same name gone, created the key, withdrew every
    permission from it and granted the requested ones. *)
Definition credential_issued (self : GarageAdapter) (bucket name : string)
    (permissions : BucketPermissions) (issued : IssuedCredential) (tr : list (event HttpE)) : Prop :=
  exists keys key ev_list evs_deleted ev_created evs_granted,
    tr = ev_list :: evs_deleted ++ ev_created :: evs_granted /\
    listed_keys self keys ev_list /\
    Forall2 (key_gone self) (aks_id <$> filter (fun info => aks_name info = name) keys) evs_deleted /\
    created_key self name key ev_created /\
    granted self bucket (ak_access_key_id key) (perm_read permissions) (perm_write permissions)
      evs_granted /\
    ic_garage_key_id issued = ak_access_key_id key /\
    ic_access_key_id issued = ak_access_key_id key /\
    ak_secret_access_key key = Some (ic_secret_access_key issued).

(** A key the run created is asked to be deleted by its last exchange, when its
    identifier is one the client sends: 1 to 256 bytes without control characters. *)
Definition credential_discarded (self : GarageAdapter) (name : string) (tr : list (event HttpE))
  : Prop :=
  forall ev key rq, ev ∈ tr -> created_key self name key ev ->
    0 < str_len (ak_access_key_id key) <= 256 ->
    Forall (fun c => is_control c = false) (chars (ak_access_key_id key)) ->
    request_of (adapter_client self) POST "DeleteKey" [("id", ak_access_key_id key)] NoBody rq ->
    exists answer, last tr = Some (Event (Send (gac_client (adapter_client self)) rq) answer).

Lemma validate_input_Ok field value :
  0 < str_len value <= 256 -> Forall (fun c => is_control c = false) (chars value) ->
  validate_input field value = Ok tt.
Proof.
  intros Hl Hc. unfold validate_input.
  rewrite (proj2 (str_is_empty_false _)), (proj2 (Nat.ltb_ge _ _)) by lia. simpl.
  induction Hc as [|c cs Hc _ IH]; [done|]. simpl. by rewrite Hc.
Qed.

Lemma delete_request_Ok self id rq :
  0 < str_len id <= 256 -> Forall (fun c => is_control c = false) (chars id) ->
  request_of (adapter_client self) POST "DeleteKey" [("id", id)] NoBody rq ->
  delete_request self id = Ok rq.
Proof.
  intros Hl Hc Hrq%request_Ok. unfold delete_request. by rewrite validate_input_Ok.
Qed.

Lemma named_key_ids_filter name keys :
  named_key_ids name keys = aks_id <$> filter (fun info => aks_name info = name) keys.
Proof.
  unfold named_key_ids. f_equal. induction keys as [|key keys IH]; [done|]. simpl.
  rewrite filter_cons. destruct (String.eqb_spec (aks_name key) name); case_decide; congruence.
Qed.

(** How [create_credential] ends. *)
Lemma create_credential_ends self bucket name permissions tr r :
  runs (create_credential self bucket name permissions) tr r ->
  match r with
  | Ok issued => credential_issued self bucket name permissions issued tr
  | Err _ => forall ev key, ev ∈ tr -> created_key self name key ev ->
      match delete_request self (ak_access_key_id key) with
      | Ok rq => exists answer,
          last tr = Some (Event (Send (gac_client (adapter_client self)) rq) answer)
      | Err _ => True
      end
  end.
Proof.
  unfold create_credential. intros [(e & (x & Hr & ?)%runs_map_err & ->)|Hr]%runs_try.
  - apply json_call_any in Hr as [[-> _]|(ev & a & -> & Hx%exchange_body & _)];
      intros ev' key Hin; [by apply elem_of_nil in Hin|].
    apply list_elem_of_singleton in Hin as ->. intros (rq & ?)%created_key_body. congruence.
  - destruct Hr as (tr1 & tr2 & keys & -> & (ev & -> & Hlist)%runs_json_call & Hr).
    assert (Hev : sent_body ev = NoBody).
    { destruct Hlist as (a & Hx%exchange_body & _). done. }
    apply runs_try in Hr as [(e & Hd%delete_keys_body & ->)|(td & tr3 & [] & -> & Hd & Hr)].
    { intros ev' key Hin Hc. exfalso.
      eapply (no_key_created self name key ([ev] ++ tr2)); [|exact Hin|exact Hc].
      constructor; [by left|]. eapply Forall_impl; [exact Hd|]. auto. }
    pose proof (delete_keys_body _ _ _ _ Hd) as Hdb.
    apply runs_try in Hr as [(e & Hc & ->)|(tc & tr4 & key & -> & Hc & Hr)].
    { intros ev' key Hin Hck. exfalso. rewrite app_assoc in Hin.
      apply elem_of_app in Hin as [Hin|Hin].
      - eapply (no_key_created self name key ([ev] ++ td)); [|exact Hin|exact Hck].
        constructor; [by left|]. eapply Forall_impl; [exact Hdb|]. auto.
      - by eapply create_key_failed. }
    apply runs_create_key in Hc as (ev_c & -> & Hc). apply runs_delete_keys in Hd.
    eapply credential_after_key with (tr0 := [ev] ++ td) in Hr; [|by constructor|done].
    rewrite named_key_ids_filter in Hd. destruct r as [issued|e].
    + exists keys, key, ev, td, ev_c, tr4. by destruct_and!.
    + rewrite app_assoc. exact Hr.
Qed.

Lemma create_credential_outcome self bucket name permissions tr r :
  runs (create_credential self bucket name permissions) tr r ->
  match r with
  | Ok issued => credential_issued self bucket name permissions issued tr
  | Err _ => credential_discarded self name tr
  end.
Proof.
  intros Hr. apply create_credential_ends in Hr. destruct r as [issued|e]; [done|].
  intros ev key rq Hin Hc Hl Hcc Hrq. specialize (Hr ev key Hin Hc).
  by rewrite (delete_request_Ok _ _ _ Hl Hcc Hrq) in Hr.
Qed.
End adapter_lemmas.

(** C29. Issuing a key leaves neither a stale nor an over-privileged key behind:
    a successful run first listed the keys and saw every key of the same
    deterministic name confirmed deleted (or unknown), then created the key,
    then had all three permission bits withdrawn from it and after that only the
    requested read and write bits granted, never the owner bit; and when a run
    fails after a key was created, the last thing it does is ask Garage to delete
    that key (unless the identifier cannot be sent at all). *)
Theorem create_credential_contract `{GarageLib} self bucket name permissions tr r :
  runs (create_credential self bucket name permissions) tr r ->
  match r with
  | Ok issued => credential_issued self bucket name permissions issued tr
  | Err _ => credential_discarded self name tr
  end.
Proof. apply create_credential_outcome. Qed.

(** ** A concrete client *)

Definition sample_client : @GarageAdapter sample_url sample_garage :=
  @Build_GarageAdapter sample_url sample_garage
    (@Build_GarageAdminClient sample_url sample_garage "http://garage/" tt).

(** Every exchange succeeds with an empty body, which the sample decoders read. *)
Definition sample_server (X : Type) (e : @HttpE sample_url sample_garage X) : X :=
  match e with
  | Send _ _ => Ok (@Build_Response sample_url sample_garage 200 [] None)
  end.

Definition sample_credential_run
  : list (event (@HttpE sample_url sample_garage)) * result GarageBackendError IssuedCredential :=
  drive sample_server
    (create_credential sample_client "b" "deterministic" {| perm_read := true; perm_write := false |}).

Lemma create_credential_contract_witness :
  length sample_credential_run.1 = 5 /\
  exists keys evs_deleted,
    aks_id <$> filter (fun info => aks_name info = "deterministic") keys = ["key-zero"] /\
    Forall2 (key_gone sample_client) ["key-zero"] evs_deleted.
Proof.
  split; [reflexivity|].
  destruct (@create_credential_contract sample_url sample_garage sample_client "b" "deterministic"
              {| perm_read := true; perm_write := false |} sample_credential_run.1
              sample_credential_run.2 (drive_runs _ _))
    as (keys & key & ev & evs & evc & evg & Htr & Hlist & Hdel & _).
  exists keys, evs. injection Htr as <- _. destruct Hlist as (a & (rq & _ & Heq) & Hk).
  apply (f_equal sent_answer) in Heq. cbn in Heq. subst a. cbn in Hk. injection Hk as <-.
  split; [reflexivity|exact Hdel].
Defined.

Section reconcile_lemmas.
Context `{GarageLib}.

Lemma runs_bucket_call self m op q b tr v (check : result GarageError unit) :
  runs (prog_map_err GarageBackendError_from
          (_ ←? pure check;
           rq ←? pure (request (adapter_client self) m op q b);
           execute_json (adapter_client self) bucket_from_slice rq op)) tr (Ok v) ->
  check = Ok tt /\ exists ev, tr = [ev] /\ answered self bucket_from_slice m op q b v ev.
Proof.
  intros ([v'|] & Hr & [= <-])%runs_map_err.
  apply runs_pure in Hr as [(e & _ & _ & [=])|([] & Hc & Hr)]. split; [done|].
  eapply runs_json_call, runs_map_err. by exists (Ok v).
Qed.

Lemma runs_update_quotas self id quotas tr v :
  runs (prog_map_err GarageBackendError_from
          (update_bucket_quotas (adapter_client self) id quotas)) tr (Ok v) ->
  BucketQuotas_validate quotas = Ok tt /\
  exists ev, tr = [ev] /\ answered self bucket_from_slice POST "UpdateBucket" [("id", id)]
    (UpdateBucketRequest quotas) v ev.
Proof.
  intros ([v'|] & Hr & [= <-])%runs_map_err. unfold update_bucket_quotas in Hr.
  apply runs_pure in Hr as [(e & _ & _ & [=])|([] & _ & Hr)].
  eapply runs_bucket_call, runs_map_err. by exists (Ok v).
Qed.

(** The alias lookup answered that the bucket does not exist. *)
Definition alias_missing (self : GarageAdapter) (name : string) (ev : event HttpE) : Prop :=
  exists response,
    exchange (adapter_client self) GET "GetBucketInfo" [("globalAlias", name)] NoBody (Ok response) ev
    /\ rs_status response = 404%Z.

(** Where the bucket of a reconciliation came from. *)
Inductive bucket_source (self : GarageAdapter) (spec : SyouyuSpec)
  : option string -> Bucket -> list (event HttpE) -> Prop :=
| source_existing id b ev :
    answered self bucket_from_slice GET "GetBucketInfo" [("id", id)] NoBody b ev ->
    spec_bucket_name spec ∈ bucket_global_aliases b ->
    bucket_source self spec (Some id) b [ev]
| source_alias b ev :
    answered self bucket_from_slice GET "GetBucketInfo"
      [("globalAlias", spec_bucket_name spec)] NoBody b ev ->
    bucket_source self spec None b [ev]
| source_created b ev ev' :
    alias_missing self (spec_bucket_name spec) ev ->
    answered self bucket_from_slice POST "CreateBucket" []
      (CreateBucketRequest (spec_bucket_name spec)) b ev' ->
    bucket_source self spec None b [ev; ev'].

(** A 404 among the JSON answers comes from the status line: a success never has it. *)
Lemma json_not_found {T : Type} (f : bytes -> result JsonError T) op answer e :
  json_answer f op answer = Err e -> GarageError_is_not_found e = true ->
  exists response, answer = Ok response /\ rs_status response = 404%Z.
Proof.
  unfold GarageError_is_not_found. rewrite bool_decide_eq_true.
  destruct answer as [response|]; simpl; [|intros [= <-]; done]. unfold decode_response.
  destruct (is_success (rs_status response)) eqn:Hs; simpl.
  - intros [Hrd|([body tr] & _ & Hd)]%result_bind_Err.
    + unfold read_limited in Hrd. intros Hst. exfalso. revert Hrd.
      generalize (@nil Byte.byte) as acc.
      induction (rs_chunks response) as [|c cs IH]; intros acc; simpl.
      * case_match; [|done]. intros [= <-]. done.
      * case_match; [done|]. apply IH.
    + intros Hst. exists response. split; [done|].
      destruct tr; [injection Hd as <-; simpl in Hst; congruence|].
      destruct (f body); [done|]. injection Hd as <-. simpl in Hst. congruence.
  - intros [= <-] Hst%api_error_status. eauto.
Qed.

Lemma runs_find_bucket self existing spec tr b :
  runs (find_or_create_bucket self existing spec) tr (Ok b) -> bucket_source self spec existing b tr.
Proof.
  destruct existing as [id|]; simpl.
  - intros [(e & _ & [=])|(tr1 & tr2 & b' & -> & Hg & [-> Hr])]%runs_try.
    apply runs_bucket_call in Hg as (_ & ev & -> & Ha). destruct (existsb _ _) eqn:He; [|done].
    injection Hr as ->. apply source_existing; [done|].
    apply existsb_exists in He as (x & Hin & ->%String.eqb_eq). by apply list_elem_of_In.
  - intros (tr1 & tr2 & [b'|e] & -> & Hg & Hr)%runs_bind.
    + destruct Hr as [-> [= ->]]. rewrite app_nil_r.
      assert (Hg' : runs (prog_map_err GarageBackendError_from
        (get_bucket_by_alias (adapter_client self) (spec_bucket_name spec))) tr1 (Ok b')).
      { apply runs_map_err. by exists (Ok b'). }
      apply runs_bucket_call in Hg' as (_ & ev & -> & Ha). by apply source_alias.
    + destruct (GarageError_is_not_found e) eqn:Hn; [|by destruct Hr as [_ ?]].
      apply runs_bucket_call in Hr as (_ & ev' & -> & Ha').
      apply runs_pure in Hg as [(e' & Hv & _ & [= ->])|([] & _ & Hg)].
      { exfalso. unfold validate_input in Hv. case_match; by simplify_eq. }
      apply runs_request with (answered := json_answer bucket_from_slice "GetBucketInfo") in Hg;
        [|intros; apply runs_execute_json].
      destruct Hg as [(e' & He & _ & [= ->])|(ev & answer & -> & Hx & Hj)].
      { exfalso. unfold request in He. destruct (url_join _ _); by simplify_eq/=. }
      destruct (json_not_found _ _ _ _ (eq_sym Hj) Hn) as (response & -> & Hs).
      apply source_created; [|done]. by exists response.
Qed.
End reconcile_lemmas.

(** C30. A successful reconciliation of a bucket works on the bucket the service
    already has, after Garage confirmed that it carries the requested name; a
    service without one adopts the bucket that answers to the name, and creates it
    only when Garage said that none does, so that a retry after a lost reply finds
    the bucket of the first attempt; in each case the last exchange sets both
    quotas of the specification, which are not zero, on that same bucket. *)
Theorem reconcile_bucket_contract `{GarageLib} self existing spec tr rb :
  runs (reconcile_bucket self existing spec) tr (Ok rb) ->
  (0 < spec_quota_bytes spec)%Z /\ (0 < spec_quota_objects spec)%Z /\
  exists b b' tr0 ev, tr = tr0 ++ [ev] /\ bucket_source self spec existing b tr0 /\
    answered self bucket_from_slice POST "UpdateBucket" [("id", bucket_id b)]
      (UpdateBucketRequest {| max_size := Some (spec_quota_bytes spec);
                              max_objects := Some (spec_quota_objects spec) |}) b' ev /\
    rb_physical_bucket_id rb = bucket_id b'.
Proof.
  unfold reconcile_bucket. intros [(e & _ & [=])|(tr1 & tr2 & b & -> & Hf & Hr)]%runs_try.
  apply runs_find_bucket in Hf.
  apply runs_try in Hr as [(e & _ & [=])|(tr3 & tr4 & b' & -> & Hu & [-> [= ->]])].
  apply runs_update_quotas in Hu as (Hq & ev & -> & Ha).
  unfold BucketQuotas_validate in Hq. simpl in Hq. case_match eqn:Hz; [|done].
  reflect. destruct_and?.
  split_and!; [done..|]. exists b, b', tr1, ev. by rewrite app_nil_r.
Qed.

Definition sample_reconcile_run
  : list (event (@HttpE sample_url sample_garage)) * result GarageBackendError ReconciledBucket :=
  drive sample_server (reconcile_bucket sample_client (Some "b")
    {| spec_region := "r"; spec_bucket_name := "tenant-bucket"; spec_quota_bytes := 1024;
       spec_quota_objects := 100 |}).

Lemma reconcile_bucket_contract_witness :
  length sample_reconcile_run.1 = 2 /\ (0 < 1024)%Z.
Proof.
  split; [reflexivity|].
  apply (@reconcile_bucket_contract sample_url sample_garage sample_client (Some "b")
           {| spec_region := "r"; spec_bucket_name := "tenant-bucket"; spec_quota_bytes := 1024;
              spec_quota_objects := 100 |}
           sample_reconcile_run.1 {| rb_physical_bucket_id := "b" |}).
  exact (drive_runs sample_server _).
Defined.
