(* ===== verification/Json.v ===== *)
(** * JSON values and the serialization the store relies on

    [serde_json::Value] as a data type, and the functions of [serde_json] the
    store calls as parameters ([SerdeJson]) with the laws it relies on
    ([SerdeJsonLaws]): what was serialized parses back to the same value.
    [sample_json] instantiates both, so that the laws are known to be
    satisfiable and the store can be evaluated. *)

From S2P Require Import Prelude RustStr Domain.

(** [serde_json::Number]: an unsigned, a negative signed, or a float (its bits). *)
Inductive Number : Type := PosInt (n : Z) | NegInt (n : Z) | Float (bits : Z).

Inductive Value : Type :=
| JNull
| JBool (b : bool)
| JNumber (n : Number)
| JString (s : string)
| JArray (l : list Value)
| JObject (fields : list (string * Value)).

#[export] Instance Number_eq_dec : EqDecision Number.
Proof. solve_decision. Defined.

Fixpoint Value_eqb (v w : Value) {struct v} : bool :=
  match v, w with
  | JNull, JNull => true
  | JBool a, JBool b => bool_decide (a = b)
  | JNumber a, JNumber b => bool_decide (a = b)
  | JString a, JString b => String.eqb a b
  | JArray l, JArray m =>
      (fix go (l m : list Value) {struct l} :=
         match l, m with
         | [], [] => true
         | x :: l', y :: m' => Value_eqb x y && go l' m'
         | _, _ => false
         end) l m
  | JObject l, JObject m =>
      (fix go (l m : list (string * Value)) {struct l} :=
         match l, m with
         | [], [] => true
         | (k, x) :: l', (k', y) :: m' => String.eqb k k' && Value_eqb x y && go l' m'
         | _, _ => false
         end) l m
  | _, _ => false
  end.

Definition is_object (v : Value) : bool := match v with JObject _ => true | _ => false end.

(** Floats are outside the round-trip law: [serde_json]'s default float parser
    does not promise it. *)
Fixpoint no_floats (v : Value) : bool :=
  match v with
  | JNumber (Float _) => false
  | JArray l => forallb no_floats l
  | JObject l => forallb (fun kv => no_floats kv.2) l
  | _ => true
  end.

(** No string in the value, key or leaf, has a NUL character. *)
Fixpoint no_nuls (v : Value) : bool :=
  match v with
  | JString s => no_nul s
  | JArray l => forallb no_nuls l
  | JObject l => forallb (fun kv => no_nul kv.1 && no_nuls kv.2) l
  | _ => true
  end.

(** Induction through the nested lists. *)
Section value_ind.
Context (P : Value -> Prop).
Context (Hnull : P JNull) (Hbool : forall b, P (JBool b)) (Hnum : forall n, P (JNumber n)).
Context (Hstr : forall s, P (JString s)).
Context (Harr : forall l, Forall P l -> P (JArray l)).
Context (Hobj : forall l, Forall (fun kv => P kv.2) l -> P (JObject l)).

Fixpoint value_ind' (v : Value) : P v :=
  match v with
  | JNull => Hnull
  | JBool b => Hbool b
  | JNumber n => Hnum n
  | JString s => Hstr s
  | JArray l => Harr l ((fix go l := match l return Forall P l with
                         | [] => @List.Forall_nil _ P
                         | x :: l' => @List.Forall_cons _ P x l' (value_ind' x) (go l')
                         end) l)
  | JObject l => Hobj l ((fix go l := match l return Forall (fun kv => P kv.2) l with
                         | [] => @List.Forall_nil _ _
                         | kv :: l' => @List.Forall_cons _ _ kv l' (value_ind' kv.2) (go l')
                         end) l)
  end.
End value_ind.

Lemma Value_eqb_eq v w : Value_eqb v w = true <-> v = w.
Proof.
  revert w. induction v using value_ind'; intros w; destruct w; cbn [Value_eqb]; try done.
  - rewrite bool_decide_eq_true. crush.
  - rewrite bool_decide_eq_true. crush.
  - rewrite String.eqb_eq. crush.
  - revert l0. induction H as [|x l Hx Hl IH]; intros [|y m]; try done.
    rewrite andb_true_iff, Hx, IH. split; intros; destruct_and?; simplify_eq; done.
  - rename fields into m. revert m. induction H as [|[k x] l Hx Hl IH]; intros [|[k' y] m]; try done.
    rewrite !andb_true_iff, (Hx y), IH, String.eqb_eq.
    split; intros; destruct_and?; simplify_eq; done.
Qed.

#[export] Instance Value_eq_dec : EqDecision Value.
Proof.
  intros v w. destruct (Value_eqb v w) eqn:E.
  - left. by apply Value_eqb_eq.
  - right. intros H. apply Value_eqb_eq in H. congruence.
Defined.

(** ** The [serde_json] functions the store calls *)

Class SerdeJson : Type := {
  to_vec : Value -> option bytes;
  from_slice : bytes -> option Value;
  spec_to_value : SyouyuSpec -> option Value;
  spec_from_value : Value -> option SyouyuSpec;
  permissions_to_value : BucketPermissions -> option Value;
  permissions_from_value : Value -> option BucketPermissions;
}.

Class SerdeJsonLaws `{SerdeJson} : Prop := {
  from_slice_to_vec v b : no_floats v = true -> to_vec v = Some b -> from_slice b = Some v;
  spec_from_to_value s v : spec_to_value s = Some v -> spec_from_value v = Some s;
  spec_to_value_object s v : spec_to_value s = Some v -> is_object v = true;
  spec_to_value_no_nuls s v : spec_to_value s = Some v ->
    no_nuls v = no_nul (spec_region s) && no_nul (spec_bucket_name s);
  permissions_from_to_value p v :
    permissions_to_value p = Some v -> permissions_from_value v = Some p;
  permissions_to_value_object p v : permissions_to_value p = Some v -> is_object v = true;
  permissions_to_value_no_nuls p v : permissions_to_value p = Some v -> no_nuls v = true;
}.

(** ** A concrete instance *)

Definition sample_to_vec (v : Value) : option bytes :=
  match v with
  | JNull => Some (str_bytes "n")
  | JBool b => Some (str_bytes (if b then "t" else "f"))
  | JString s => Some (str_bytes ("s" +:+ s))
  | _ => None
  end.

Definition sample_from_slice (b : bytes) : option Value :=
  match String.string_of_list_byte b with
  | String c s =>
      if String.eqb (String c EmptyString) "n" then Some JNull
      else if String.eqb (String c EmptyString) "t" then Some (JBool true)
      else if String.eqb (String c EmptyString) "f" then Some (JBool false)
      else if String.eqb (String c EmptyString) "s" then Some (JString s) else None
  | EmptyString => None
  end.

Definition sample_spec_to_value (s : SyouyuSpec) : option Value :=
  Some (JObject [("region", JString (spec_region s)); ("bucket_name", JString (spec_bucket_name s));
                 ("quota_bytes", JNumber (PosInt (spec_quota_bytes s)));
                 ("quota_objects", JNumber (PosInt (spec_quota_objects s)))]).

Definition sample_spec_from_value (v : Value) : option SyouyuSpec :=
  match v with
  | JObject [(_, JString r); (_, JString n); (_, JNumber (PosInt b)); (_, JNumber (PosInt o))] =>
      Some {| spec_region := r; spec_bucket_name := n; spec_quota_bytes := b;
              spec_quota_objects := o |}
  | _ => None
  end.

Definition sample_permissions_to_value (p : BucketPermissions) : option Value :=
  Some (JObject [("read", JBool (perm_read p)); ("write", JBool (perm_write p))]).

Definition sample_permissions_from_value (v : Value) : option BucketPermissions :=
  match v with
  | JObject [(_, JBool r); (_, JBool w)] => Some {| perm_read := r; perm_write := w |}
  | _ => None
  end.

Definition sample_json : SerdeJson := {|
  to_vec := sample_to_vec;
  from_slice := sample_from_slice;
  spec_to_value := sample_spec_to_value;
  spec_from_value := sample_spec_from_value;
  permissions_to_value := sample_permissions_to_value;
  permissions_from_value := sample_permissions_from_value;
|}.

Lemma sample_json_laws : @SerdeJsonLaws sample_json.
Proof.
  constructor; cbn.
  - intros v b _ Hv. unfold sample_from_slice.
    destruct v as [|b'| | | |]; try discriminate Hv; injection Hv as <-; unfold str_bytes;
      rewrite String.string_of_list_byte_of_string; [reflexivity|destruct b'; reflexivity|reflexivity].
  - intros [] v [= <-]. reflexivity.
  - intros [] v [= <-]. reflexivity.
  - intros [] v [= <-]. simpl. by rewrite andb_true_r.
  - intros [] v [= <-]. reflexivity.
  - intros [] v [= <-]. reflexivity.
  - intros [] v [= <-]. reflexivity.
Qed.

(** A dictionary coder: a value is its position in a table. *)
Definition table_json (table : list Value) : SerdeJson := {|
  to_vec v := (fun iv => replicate iv.1 Byte.x00) <$> list_find (fun w => w = v) table;
  from_slice b := table !! length b;
  spec_to_value := sample_spec_to_value;
  spec_from_value := sample_spec_from_value;
  permissions_to_value := sample_permissions_to_value;
  permissions_from_value := sample_permissions_from_value;
|}.

Lemma table_json_laws table : @SerdeJsonLaws (table_json table).
Proof.
  constructor; cbn; [|apply sample_json_laws..].
  intros v b _ Hv. apply fmap_Some in Hv as ([i w] & Hf & ->).
  apply list_find_Some in Hf as (Hi & -> & _). by rewrite length_replicate.
Qed.
