(* ===== verification/Auth.v ===== *)
(** * Provider authentication ([crates/syouyu-auth/src/lib.rs])

    The verifier of the provider's bearer tokens.  The [http], [jsonwebtoken] and
    [uuid] crates and the JSON parser of the key set are parameters: a header
    map with its lookup, the decoding of a token's header, the verification of a
    token against a key and a [Validation], the textual form of a UUID.
    [JwtLaws] states what [jsonwebtoken::decode] documents. *)

From stdpp Require Import pretty.
From S2P Require Import Prelude RustStr Domain.

Definition PROVIDER_RECONCILE_ACTION : string := "service-instance.reconcile".
Definition PROVIDER_DELETE_ACTION : string := "service-instance.delete".
Definition PROVIDER_CREDENTIAL_REVOKE_ACTION : string := "credential.revoke".
Definition PROVIDER_MAX_TOKEN_TTL_SECONDS : Z := 60.
Definition PROVIDER_NOT_BEFORE_OFFSET_SECONDS : Z := 5.
Definition IDEMPOTENCY_KEY_HEADER : string := "idempotency-key".
Definition AUTHORIZATION : string := "authorization".

Inductive AuthError : Type :=
| MissingCredentials
| InvalidHeader
| InvalidToken
| MissingKeyId
| UnknownKeyId
| InvalidProviderCommand
| InvalidProviderScope
| InvalidExpectedScope
| ScopeMismatch
| TokenLifetimeExceeded
| MissingIdempotencyKey
| InvalidIdempotencyKey
| IdempotencyKeyMismatch
| InvalidConfiguration (message : string).

#[export] Instance AuthError_eq_dec : EqDecision AuthError.
Proof. solve_decision. Defined.

Record ProviderClaims : Type := {
  pc_issuer : string;
  pc_audience : string;
  pc_subject : Uuid;
  pc_organization_id : Uuid;
  pc_project_id : Uuid;
  pc_service_instance_id : Uuid;
  pc_action : string;
  pc_generation : Z;
  pc_jwt_id : Uuid;
  pc_issued_at : Z;
  pc_not_before : Z;
  pc_expires_at : Z;
}.

(** Every number of the claims is an [i64]. *)
Definition claims_i64 (c : ProviderClaims) : bool :=
  in_i64 (pc_generation c) && in_i64 (pc_issued_at c) && in_i64 (pc_not_before c)
  && in_i64 (pc_expires_at c).

Definition ProviderClaims_scope (self : ProviderClaims) : ServiceScope := {|
  scope_organization_id := pc_organization_id self;
  scope_project_id := pc_project_id self;
  scope_service_instance_id := pc_service_instance_id self;
|}.

Definition ProviderClaims_require_scope (self : ProviderClaims) (expected : ServiceScope)
  : result AuthError unit :=
  if bool_decide (ProviderClaims_scope self = expected) then Ok tt else Err ScopeMismatch.

(** ** The libraries *)

Inductive Algorithm : Type := EdDSA | OtherAlgorithm.
#[export] Instance Algorithm_eq_dec : EqDecision Algorithm.
Proof. solve_decision. Defined.

Record JwtHeader : Type := { alg : Algorithm; kid : option string }.

Record Validation : Type := {
  val_algorithm : Algorithm;
  val_issuers : list string;
  val_audiences : list string;
  val_required_spec_claims : list string;
  val_leeway : Z;
  val_validate_exp : bool;
  val_validate_nbf : bool;
}.

Class AuthLib : Type := {
  HeaderMap : Type;
  HeaderValue : Type;
  headers_get : HeaderMap -> string -> option HeaderValue;
  value_to_str : HeaderValue -> option string;
  uuid_to_string : Uuid -> string;
  DecodingKey : Type;
  from_ed_pem : bytes -> option DecodingKey;
  public_keys_from_str : string -> option (gmap string string);
  decode_header : string -> option JwtHeader;
  (** [decode::<ProviderClaims>] at the time the library reads its clock. *)
  jwt_decode : Z -> string -> DecodingKey -> Validation -> option ProviderClaims;
}.

(** The documented checks of [jsonwebtoken::decode] that the verifier relies on,
    and the uniqueness of the textual form of a UUID. *)
Class JwtLaws `{AuthLib} : Prop := {
  decode_numbers t token key v c : jwt_decode t token key v = Some c -> claims_i64 c = true;
  decode_issuer t token key v c :
    jwt_decode t token key v = Some c -> pc_issuer c ∈ val_issuers v;
  decode_audience t token key v c :
    jwt_decode t token key v = Some c -> pc_audience c ∈ val_audiences v;
  decode_exp t token key v c :
    jwt_decode t token key v = Some c -> val_validate_exp v = true ->
    (t - val_leeway v <= pc_expires_at c)%Z;
  decode_nbf t token key v c :
    jwt_decode t token key v = Some c -> val_validate_nbf v = true ->
    (pc_not_before c <= t + val_leeway v)%Z;
  uuid_to_string_inj u w : uuid_to_string u = uuid_to_string w -> u = w;
}.

(** ** The verifier *)

Section auth.
Context `{AuthLib}.

Record ProviderAuthenticator : Type := {
  pa_issuer : string;
  pa_audience : string;
  pa_keys : gmap string DecodingKey;
  pa_clock_skew_seconds : Z;
}.

Definition is_key_id_byte (byte : Byte.byte) : bool :=
  is_ascii_alphanumeric byte || is_byte "-" byte || is_byte "_" byte || is_byte "." byte.

Definition validate_key_id (value : string) : result AuthError unit :=
  if str_is_empty value || Nat.ltb 128 (str_len value)
     || negb (forallb is_key_id_byte (str_bytes value))
  then Err (InvalidConfiguration "provider key ID is invalid")
  else Ok tt.

(** The [map] and [collect] over the key set, in the order of the map. *)
Fixpoint decode_keys (l : list (string * string))
  : result AuthError (list (string * DecodingKey)) :=
  match l with
  | [] => Ok []
  | (key_id, pem) :: l' =>
      _ ← validate_key_id key_id;
      key ← ok_or (InvalidConfiguration "provider public key is invalid")
              (from_ed_pem (str_bytes pem));
      rest ← decode_keys l';
      Ok ((key_id, key) :: rest)
  end.

Definition from_public_keys_json (issuer audience public_keys_json : string)
  : result AuthError ProviderAuthenticator :=
  if str_is_empty issuer || str_is_empty audience
  then Err (InvalidConfiguration "provider issuer and audience are required")
  else
  encoded_keys ← ok_or (InvalidConfiguration "provider public key JSON is invalid")
                   (public_keys_from_str public_keys_json);
  if bool_decide (encoded_keys = ∅)
  then Err (InvalidConfiguration "at least one provider public key is required")
  else
  keys ← decode_keys (order_by (fun a b => String.leb a.1 b.1) (map_to_list encoded_keys));
  Ok {| pa_issuer := issuer; pa_audience := audience; pa_keys := list_to_map keys;
        pa_clock_skew_seconds := 5 |}.

Definition bearer_token (headers : HeaderMap) : result AuthError string :=
  header ← ok_or MissingCredentials (headers_get headers AUTHORIZATION);
  value ← ok_or InvalidHeader (value_to_str header);
  ok_or InvalidHeader
    (token ← strip_prefix value "Bearer "; if str_is_empty token then None else Some token).

Definition require_idempotency_key (headers : HeaderMap) (jwt_id : Uuid)
  : result AuthError unit :=
  header ← ok_or MissingIdempotencyKey (headers_get headers IDEMPOTENCY_KEY_HEADER);
  value ← ok_or InvalidIdempotencyKey (value_to_str header);
  if String.eqb value (uuid_to_string jwt_id) then Ok tt else Err IdempotencyKeyMismatch.

Definition provider_validation (self : ProviderAuthenticator) : Validation := {|
  val_algorithm := EdDSA;
  val_issuers := [pa_issuer self];
  val_audiences := [pa_audience self];
  val_required_spec_claims := ["exp"; "iat"; "nbf"; "iss"; "aud"; "sub"; "jti"];
  val_leeway := pa_clock_skew_seconds self;
  val_validate_exp := true;
  val_validate_nbf := true;
|}.

(** The checks on the decoded claims; [now] is [Utc::now().timestamp()]. *)
Definition check_claims (self : ProviderAuthenticator) (now : Z) (claims : ProviderClaims)
    (expected_action : string) : result AuthError ProviderClaims :=
  if negb (String.eqb (pc_action claims) expected_action) || (pc_generation claims <=? 0)%Z
  then Err InvalidProviderCommand
  else if is_nil (pc_subject claims) || is_nil (pc_jwt_id claims)
          || is_err (ServiceScope_validate (ProviderClaims_scope claims))
  then Err InvalidProviderScope
  else if (pc_expires_at claims <=? pc_issued_at claims)%Z
          || (PROVIDER_MAX_TOKEN_TTL_SECONDS
                <? i64_saturating_sub (pc_expires_at claims) (pc_issued_at claims))%Z
          || negb (bool_decide (i64_checked_sub (pc_issued_at claims)
                                  PROVIDER_NOT_BEFORE_OFFSET_SECONDS
                                = Some (pc_not_before claims)))
  then Err TokenLifetimeExceeded
  else
  skew ← ok_or (InvalidConfiguration "provider clock skew is invalid")
           (i64_try_from_u64 (pa_clock_skew_seconds self));
  if (i64_saturating_add now skew <? pc_issued_at claims)%Z then Err InvalidToken
  else Ok claims.

(** [decode_now] is the clock the token library reads, [now] the later one. *)
Definition verify_token_for_action (self : ProviderAuthenticator) (decode_now now : Z)
    (token expected_action : string) : result AuthError ProviderClaims :=
  if str_is_empty expected_action
  then Err (InvalidConfiguration "expected provider action is required")
  else
  header ← ok_or InvalidToken (decode_header token);
  if negb (bool_decide (alg header = EdDSA)) then Err InvalidToken
  else
  key_id ← ok_or MissingKeyId (kid header);
  key ← ok_or UnknownKeyId (pa_keys self !! key_id);
  claims ← ok_or InvalidToken (jwt_decode decode_now token key (provider_validation self));
  check_claims self now claims expected_action.

Definition verify_token (self : ProviderAuthenticator) (decode_now now : Z) (token : string)
  : result AuthError ProviderClaims :=
  verify_token_for_action self decode_now now token PROVIDER_RECONCILE_ACTION.

Definition authenticate_headers_for_action (self : ProviderAuthenticator) (decode_now now : Z)
    (headers : HeaderMap) (expected_action : string) : result AuthError ProviderClaims :=
  token ← bearer_token headers;
  verify_token_for_action self decode_now now token expected_action.

Definition authenticate_headers (self : ProviderAuthenticator) (decode_now now : Z)
    (headers : HeaderMap) : result AuthError ProviderClaims :=
  authenticate_headers_for_action self decode_now now headers PROVIDER_RECONCILE_ACTION.

Definition authenticate_command (self : ProviderAuthenticator) (decode_now now : Z)
    (headers : HeaderMap) (expected_action : string) (expected_scope : ServiceScope)
  : result AuthError ProviderClaims :=
  _ ← map_err (fun _ => InvalidExpectedScope) (ServiceScope_validate expected_scope);
  claims ← authenticate_headers_for_action self decode_now now headers expected_action;
  _ ← ProviderClaims_require_scope claims expected_scope;
  _ ← require_idempotency_key headers (pc_jwt_id claims);
  Ok claims.
End auth.

(** ** What an accepted command guarantees *)

(** The claims the service is willing to act on at time [now]. *)
Record acceptable (now : Z) (action : string) (c : ProviderClaims) : Prop := {
  acc_action : pc_action c = action;
  acc_generation : (0 < pc_generation c)%Z;
  acc_subject : pc_subject c <> 0%N;
  acc_jwt_id : pc_jwt_id c <> 0%N;
  acc_organization : pc_organization_id c <> 0%N;
  acc_project : pc_project_id c <> 0%N;
  acc_service : pc_service_instance_id c <> 0%N;
  acc_lifetime : (pc_issued_at c < pc_expires_at c <= pc_issued_at c + 60)%Z;
  acc_not_before : pc_not_before c = (pc_issued_at c - 5)%Z;
  acc_not_before_i64 : in_i64 (pc_issued_at c - 5) = true;
  acc_issued : (pc_issued_at c <= now + 5)%Z;
}.

Lemma in_i64_spec z : in_i64 z = true <-> (i64_min <= z <= i64_max)%Z.
Proof. unfold in_i64. reflect. lia. Qed.

Lemma i64_checked_sub_Some a b c :
  i64_checked_sub a b = Some c <-> in_i64 (a - b) = true /\ c = (a - b)%Z.
Proof. unfold i64_checked_sub. destruct (in_i64 (a - b)); crush. Qed.

Lemma saturating_sub_le a b n :
  (i64_min <= n < i64_max)%Z -> (i64_saturating_sub a b <= n <-> a - b <= n)%Z.
Proof. unfold i64_saturating_sub, i64_saturate. lia. Qed.

Lemma saturating_add_ge a b c :
  (i64_min <= a)%Z -> (0 <= b)%Z -> in_i64 c = true ->
  (c <= i64_saturating_add a b <-> c <= a + b)%Z.
Proof. rewrite in_i64_spec. unfold i64_saturating_add, i64_saturate. lia. Qed.

Lemma scope_valid_iff c :
  is_err (ServiceScope_validate (ProviderClaims_scope c)) = false <->
  pc_organization_id c <> 0%N /\ pc_project_id c <> 0%N /\ pc_service_instance_id c <> 0%N.
Proof.
  pose proof (ServiceScope_validate_Ok (ProviderClaims_scope c)) as Hs. simpl in Hs.
  rewrite <- Hs. unfold is_err, is_ok. destruct (ServiceScope_validate _) as [[]|]; crush.
Qed.

Section auth_lemmas.
Context `{AuthLib}.

Lemma check_claims_Ok self now c action c' :
  pa_clock_skew_seconds self = 5%Z -> (i64_min <= now)%Z -> claims_i64 c = true ->
  check_claims self now c action = Ok c' <-> c' = c /\ acceptable now action c.
Proof.
  intros Hskew Hnow Hc. unfold claims_i64 in Hc. rewrite !andb_true_iff in Hc.
  destruct Hc as [[[Hg Hi] Hn] He]. unfold check_claims. rewrite Hskew.
  change (ok_or _ (i64_try_from_u64 5%Z)) with (@Ok AuthError Z 5%Z). cbn [mbind result_bind].
  assert (Hiff : acceptable now action c <->
    negb (String.eqb (pc_action c) action) || (pc_generation c <=? 0)%Z = false /\
    is_nil (pc_subject c) || is_nil (pc_jwt_id c)
      || is_err (ServiceScope_validate (ProviderClaims_scope c)) = false /\
    (pc_expires_at c <=? pc_issued_at c)%Z
      || (PROVIDER_MAX_TOKEN_TTL_SECONDS
            <? i64_saturating_sub (pc_expires_at c) (pc_issued_at c))%Z
      || negb (bool_decide (i64_checked_sub (pc_issued_at c) PROVIDER_NOT_BEFORE_OFFSET_SECONDS
                            = Some (pc_not_before c))) = false /\
    (i64_saturating_add now 5 <? pc_issued_at c)%Z = false).
  { rewrite !orb_false_iff, scope_valid_iff, !negb_false_iff, bool_decide_eq_true,
      i64_checked_sub_Some, String.eqb_eq, !Z.ltb_ge, !Z.leb_gt.
    unfold is_nil, PROVIDER_MAX_TOKEN_TTL_SECONDS, PROVIDER_NOT_BEFORE_OFFSET_SECONDS.
    rewrite !N.eqb_neq, saturating_sub_le, saturating_add_ge by (done || lia).
    split.
    - intros [? ? ? ? ? ? ? ? ? ? ?]. split_and!; auto; lia.
    - intros ([? ?] & [[? ?] (? & ? & ?)] & [[? ?] [? ?]] & ?). constructor; auto; lia. }
  rewrite Hiff. repeat case_match; split; intros; destruct_and?; simplify_eq; auto.
Qed.

Lemma decode_keys_Ok l ks :
  decode_keys l = Ok ks <->
  Forall2 (fun kp kd => kd.1 = kp.1 /\ validate_key_id kp.1 = Ok tt /\
                        from_ed_pem (str_bytes kp.2) = Some kd.2) l ks.
Proof.
  revert ks. induction l as [|[k pem] l IH]; intros ks; simpl.
  - split; [by intros [= <-]|by inversion 1].
  - rewrite result_bind_Ok. setoid_rewrite result_bind_Ok. setoid_rewrite result_bind_Ok.
    setoid_rewrite ok_or_Ok. setoid_rewrite IH. split.
    + intros ([] & Hk & key & Hkey & rest & Hrest & [= <-]). by constructor.
    + inversion 1 as [|? [k' d] ? rest (Heq & Hv & Hd) Hrest]; simplify_eq/=. eauto 10.
Qed.

Lemma from_public_keys_skew issuer audience json self :
  from_public_keys_json issuer audience json = Ok self ->
  pa_issuer self = issuer /\ pa_audience self = audience /\ pa_clock_skew_seconds self = 5%Z.
Proof.
  unfold from_public_keys_json. case_match; [done|]. rewrite result_bind_Ok.
  intros (keys & _ & Hk). case_match; [done|]. rewrite result_bind_Ok in Hk.
  by destruct Hk as (ks & _ & [= <-]).
Qed.

Lemma decode_keys_lookup l ks k :
  decode_keys l = Ok ks ->
  list_to_map (M := gmap string DecodingKey) ks !! k =
  (pem ← list_to_map (M := gmap string string) l !! k; from_ed_pem (str_bytes pem)).
Proof.
  rewrite decode_keys_Ok. induction 1 as [|[k1 pem] [k2 d] l ks (Heq & _ & Hd) Hl IH];
    simplify_eq/=; [by rewrite !lookup_empty|].
  destruct (decide (k1 = k)) as [->|Hne]; [by rewrite !lookup_insert_eq|].
  by rewrite !lookup_insert_ne.
Qed.

(** The keys of a map do not repeat, in whatever order they are listed. *)
Lemma list_to_map_order (leb : string * string -> string * string -> bool)
    (m : gmap string string) :
  list_to_map (order_by leb (map_to_list m)) = m.
Proof.
  rewrite <- (list_to_map_to_list m) at 2. apply list_to_map_proper.
  - rewrite (order_by_perm leb). apply NoDup_fst_map_to_list.
  - apply order_by_perm.
Qed.

(** Every configured key was checked, and checked keys are all decoded. *)
Lemma decode_keys_all (leb : string * string -> string * string -> bool)
    (m : gmap string string) ks :
  decode_keys (order_by leb (map_to_list m)) = Ok ks ->
  forall k pem, m !! k = Some pem ->
    validate_key_id k = Ok tt /\ is_Some (from_ed_pem (str_bytes pem)).
Proof.
  rewrite decode_keys_Ok. intros Hf k pem Hk.
  assert (Hin : (k, pem) ∈ order_by leb (map_to_list m)).
  { rewrite (order_by_perm leb). by apply elem_of_map_to_list. }
  apply list_elem_of_lookup in Hin as [i Hi].
  destruct (Forall2_lookup_l _ _ _ _ _ Hf Hi) as (kd & _ & _ & Hv & Hd). eauto.
Qed.

Lemma decode_keys_total (leb : string * string -> string * string -> bool)
    (m : gmap string string) :
  (forall k pem, m !! k = Some pem ->
     validate_key_id k = Ok tt /\ is_Some (from_ed_pem (str_bytes pem))) ->
  exists ks, decode_keys (order_by leb (map_to_list m)) = Ok ks.
Proof.
  intros Hall. setoid_rewrite decode_keys_Ok.
  assert (Hl : Forall (fun kp => validate_key_id kp.1 = Ok tt /\
                                 is_Some (from_ed_pem (str_bytes kp.2)))
                 (order_by leb (map_to_list m))).
  { rewrite (order_by_perm leb). apply Forall_forall. intros [k pem] Hin.
    apply elem_of_map_to_list in Hin. by apply Hall. }
  induction Hl as [|[k pem] l [Hv [d Hd]] Hl [ks IH]]; [by exists []|].
  by exists ((k, d) :: ks); constructor.
Qed.

Lemma if_not_empty {A : Type} (issuer audience : string) e (r : result AuthError A) a :
  (if str_is_empty issuer || str_is_empty audience then Err e else r) = Ok a <->
  (issuer <> "" /\ audience <> "") /\ r = Ok a.
Proof. destruct issuer, audience; simpl; split; intros; destruct_and?; try done. Qed.
End auth_lemmas.

(** ** A concrete library *)

Definition sample_claims : ProviderClaims := {|
  pc_issuer := "heterocloud"; pc_audience := "heterocloud-syouyu"; pc_subject := 7;
  pc_organization_id := 1; pc_project_id := 2; pc_service_instance_id := 3;
  pc_action := PROVIDER_RECONCILE_ACTION; pc_generation := 1; pc_jwt_id := 42;
  pc_issued_at := 1000; pc_not_before := 995; pc_expires_at := 1060 |}.

Definition sample_decode (t : Z) (token : string) (v : Validation) : option ProviderClaims :=
  if String.eqb token "token"
     && existsb (String.eqb (pc_issuer sample_claims)) (val_issuers v)
     && existsb (String.eqb (pc_audience sample_claims)) (val_audiences v)
     && (negb (val_validate_exp v) || (t - val_leeway v <=? pc_expires_at sample_claims)%Z)
     && (negb (val_validate_nbf v) || (pc_not_before sample_claims <=? t + val_leeway v)%Z)
  then Some sample_claims else None.

Definition sample_auth : AuthLib := {|
  HeaderMap := list (string * string);
  HeaderValue := string;
  headers_get h name := snd <$> List.find (fun kv => String.eqb kv.1 name) h;
  value_to_str := Some;
  uuid_to_string u := pretty u;
  DecodingKey := bytes;
  from_ed_pem := Some;
  public_keys_from_str s := Some {["k" := s]};
  decode_header _ := Some {| alg := EdDSA; kid := Some "k" |};
  jwt_decode t token _ v := sample_decode t token v;
|}.

Lemma existsb_eqb_elem s l : existsb (String.eqb s) l = true -> s ∈ l.
Proof.
  intros (x & Hin & Heq)%existsb_exists. apply String.eqb_eq in Heq as <-.
  by apply list_elem_of_In.
Qed.

Lemma sample_decode_Some t token v c :
  sample_decode t token v = Some c ->
  c = sample_claims /\ pc_issuer c ∈ val_issuers v /\ pc_audience c ∈ val_audiences v /\
  (val_validate_exp v = true -> t - val_leeway v <= pc_expires_at c)%Z /\
  (val_validate_nbf v = true -> pc_not_before c <= t + val_leeway v)%Z.
Proof.
  unfold sample_decode. intros Hd. destruct (_ && _) eqn:Hc in Hd; [|done]. injection Hd as <-.
  rewrite !andb_true_iff, !orb_true_iff, !negb_true_iff, !Z.leb_le in Hc.
  destruct Hc as [[[[_ Hi] Ha] He] Hn].
  split; [done|]. split; [by apply existsb_eqb_elem|]. split; [by apply existsb_eqb_elem|].
  split; intros Hv; [destruct He|destruct Hn]; congruence || done.
Qed.

Lemma sample_auth_laws : @JwtLaws sample_auth.
Proof.
  constructor; simpl.
  - intros t token _ v c (-> & _)%sample_decode_Some. reflexivity.
  - by intros t token _ v c (_ & ? & _)%sample_decode_Some.
  - by intros t token _ v c (_ & _ & ? & _)%sample_decode_Some.
  - intros t token _ v c (_ & _ & _ & ? & _)%sample_decode_Some. auto.
  - intros t token _ v c (_ & _ & _ & _ & ?)%sample_decode_Some. auto.
  - intros u w Huw. by apply (inj pretty) in Huw.
Qed.

Definition sample_authenticator : @ProviderAuthenticator sample_auth :=
  @Build_ProviderAuthenticator sample_auth "heterocloud" "heterocloud-syouyu"
    ({["k" := str_bytes "pem"]} : gmap string bytes) 5%Z.

Definition sample_headers : @HeaderMap sample_auth :=
  [("authorization", "Bearer token"); ("idempotency-key", "42")].

Definition sample_scope : ServiceScope :=
  {| scope_organization_id := 1; scope_project_id := 2; scope_service_instance_id := 3 |}.

(** ** Properties *)

(** A key set configures a verifier exactly when issuer and audience are
    given, the set is not empty, every key identifier has 1 to 128 characters of
    [A-Za-z0-9-_.] and every PEM is a key; the verifier then trusts exactly the
    configured identifiers, each with its own key, and allows five seconds of
    clock skew. *)
Theorem from_public_keys_spec `{AuthLib} issuer audience json self :
  from_public_keys_json issuer audience json = Ok self <->
  issuer <> "" /\ audience <> "" /\
  exists encoded, public_keys_from_str json = Some encoded /\ encoded <> ∅ /\
    (forall k pem, encoded !! k = Some pem ->
       validate_key_id k = Ok tt /\ is_Some (from_ed_pem (str_bytes pem))) /\
    pa_issuer self = issuer /\ pa_audience self = audience /\
    pa_clock_skew_seconds self = 5%Z /\
    (forall k, pa_keys self !! k = (pem ← encoded !! k; from_ed_pem (str_bytes pem))).
Proof.
  unfold from_public_keys_json.
  rewrite (if_not_empty issuer audience). split.
  - intros [[Hi Ha] Hk]. split; [done|]. split; [done|].
    apply result_bind_Ok in Hk as (encoded & He%ok_or_Ok & Hk). exists encoded. split; [done|].
    case_bool_decide; [done|]. apply result_bind_Ok in Hk as (ks & Hks & [= <-]).
    split; [done|]. split; [by eapply decode_keys_all|].
    simpl. split_and!; [done..|]. intros k. rewrite (decode_keys_lookup _ _ _ Hks).
    by rewrite list_to_map_order.
  - intros (Hi & Ha & encoded & He & Hne & Hall & <- & <- & Hs & Hkeys). split; [done|].
    rewrite He. cbn [ok_or mbind result_bind]. rewrite bool_decide_false by done.
    edestruct decode_keys_total as [ks Hks]; [exact Hall|]. rewrite Hks. cbn.
    destruct self as [i a keys sk]. simpl in *. f_equal. subst sk. f_equal.
    apply map_eq. intros k. rewrite Hkeys, (decode_keys_lookup _ _ _ Hks).
    by rewrite list_to_map_order.
Qed.

Section accepted.
Context `{JwtLaws}.

Lemma verify_token_Ok issuer audience json self decode_now now token action c :
  from_public_keys_json issuer audience json = Ok self -> (i64_min <= now)%Z ->
  verify_token_for_action self decode_now now token action = Ok c <->
  action <> "" /\ exists h k key,
    decode_header token = Some h /\ alg h = EdDSA /\ kid h = Some k /\
    pa_keys self !! k = Some key /\
    jwt_decode decode_now token key (provider_validation self) = Some c /\
    acceptable now action c.
Proof.
  intros (_ & _ & Hskew)%from_public_keys_skew Hnow. unfold verify_token_for_action. split.
  - destruct (str_is_empty action) eqn:Ha; [done|]. intros Hv.
    apply result_bind_Ok in Hv as (h & Hh%ok_or_Ok & Hv). case_bool_decide; [|done].
    simpl in Hv. apply result_bind_Ok in Hv as (k & Hk%ok_or_Ok & Hv).
    apply result_bind_Ok in Hv as (key & Hkey%ok_or_Ok & Hv).
    apply result_bind_Ok in Hv as (c' & Hd%ok_or_Ok & Hv).
    apply check_claims_Ok in Hv as [-> Hacc]; [|done|done|by eapply decode_numbers].
    split; [by intros ->|]. by exists h, k, key.
  - intros (Ha & h & k & key & Hh & Halg & Hk & Hkey & Hd & Hacc).
    destruct (str_is_empty action) eqn:E; [by destruct action|].
    rewrite Hh. cbn. rewrite bool_decide_true by done. cbn. rewrite Hk. cbn. rewrite Hkey. cbn.
    rewrite Hd. cbn. apply check_claims_Ok; [done|done|by eapply decode_numbers|done].
Qed.

Lemma authenticate_command_Ok self decode_now now headers action scope c :
  authenticate_command self decode_now now headers action scope = Ok c <->
  ServiceScope_validate scope = Ok tt /\
  (exists token, bearer_token headers = Ok token /\
     verify_token_for_action self decode_now now token action = Ok c) /\
  ProviderClaims_scope c = scope /\
  require_idempotency_key headers (pc_jwt_id c) = Ok tt.
Proof.
  unfold authenticate_command, authenticate_headers_for_action, ProviderClaims_require_scope.
  split.
  - intros Ha. apply result_bind_Ok in Ha as ([] & Hs%map_err_Ok & Ha).
    apply result_bind_Ok in Ha as (c' & Hc & Ha).
    apply result_bind_Ok in Hc as (token & Ht & Hv).
    apply result_bind_Ok in Ha as ([] & Hsc & Ha). case_bool_decide; [|done].
    apply result_bind_Ok in Ha as ([] & Hid & [= ->]). eauto 10.
  - intros (Hs & (token & Ht & Hv) & <- & Hid). rewrite Hs. cbn. rewrite Ht. cbn. rewrite Hv. cbn.
    rewrite bool_decide_true by done. cbn. by rewrite Hid.
Qed.

Lemma require_idempotency_key_Ok headers u :
  require_idempotency_key headers u = Ok tt <->
  headers_get headers IDEMPOTENCY_KEY_HEADER ≫= value_to_str = Some (uuid_to_string u).
Proof.
  unfold require_idempotency_key. destruct (headers_get _ _) as [h|]; simpl; [|done].
  destruct (value_to_str h) as [s|]; simpl; [|done].
  destruct (String.eqb_spec s (uuid_to_string u)); split; intros; congruence || done.
Qed.
End accepted.

(** C32. The token verifier accepts exactly the EdDSA tokens that a trusted key
    verifies and whose claims carry the expected action, a positive generation,
    non-nil identifiers, a lifetime of 1 to 60 seconds, [nbf = iat - 5] and an
    issue time at most five seconds ahead of the clock; saturation and checked
    subtraction on [i64] never let another token through. *)
Theorem verify_token_spec `{JwtLaws} issuer audience json self decode_now now token action c :
  from_public_keys_json issuer audience json = Ok self -> in_i64 now = true ->
  verify_token_for_action self decode_now now token action = Ok c <->
  action <> "" /\ exists h k key,
    decode_header token = Some h /\ alg h = EdDSA /\ kid h = Some k /\
    pa_keys self !! k = Some key /\
    jwt_decode decode_now token key (provider_validation self) = Some c /\
    acceptable now action c.
Proof. intros Hs Hn%in_i64_spec. eapply verify_token_Ok; [exact Hs|lia]. Qed.

Lemma verify_token_spec_witness :
  verify_token_for_action (H := sample_auth) sample_authenticator 1003 1003 "token"
    PROVIDER_RECONCILE_ACTION = Ok sample_claims /\
  acceptable 1003 PROVIDER_RECONCILE_ACTION sample_claims.
Proof.
  assert (Hv : verify_token_for_action (H := sample_auth) sample_authenticator 1003 1003 "token"
                 PROVIDER_RECONCILE_ACTION = Ok sample_claims) by (vm_compute; reflexivity).
  split; [exact Hv|].
  apply (@verify_token_spec sample_auth sample_auth_laws "heterocloud" "heterocloud-syouyu" "pem")
    in Hv as (_ & h & k & key & Hrest).
  - apply Hrest.
  - vm_compute. reflexivity.
  - vm_compute. reflexivity.
Defined.

(** A command is authenticated only with the configured issuer and audience,
    for exactly the scope of the request path, under an idempotency header that
    spells the token's [jti], and only in the window from ten seconds before to
    65 seconds after the token was issued: a replayed token is useless after
    that. *)
Theorem authenticated_command_window `{JwtLaws} issuer audience json self decode_now now headers
    action scope c :
  from_public_keys_json issuer audience json = Ok self -> in_i64 now = true ->
  authenticate_command self decode_now now headers action scope = Ok c ->
  pc_issuer c = issuer /\ pc_audience c = audience /\ pc_action c = action /\
  ProviderClaims_scope c = scope /\
  headers_get headers IDEMPOTENCY_KEY_HEADER ≫= value_to_str = Some (uuid_to_string (pc_jwt_id c)) /\
  (pc_issued_at c - 10 <= decode_now <= pc_issued_at c + 65)%Z /\
  (pc_issued_at c - 5 <= now)%Z.
Proof.
  intros Hs Hn%in_i64_spec (Hsc & (token & Ht & Hv) & Hscope & Hid)%authenticate_command_Ok.
  eapply verify_token_Ok in Hv as (_ & h & k & key & _ & _ & _ & _ & Hd & Hacc); [|exact Hs|lia].
  apply from_public_keys_skew in Hs as (<- & <- & Hskew).
  pose proof (decode_exp _ _ _ _ _ Hd eq_refl) as He.
  pose proof (decode_nbf _ _ _ _ _ Hd eq_refl) as Hnb.
  apply decode_issuer in Hd as Hi. apply decode_audience in Hd as Ha. simpl in *.
  rewrite list_elem_of_singleton in Hi, Ha. rewrite Hskew in *.
  apply require_idempotency_key_Ok in Hid. destruct Hacc. split_and!; auto; lia.
Qed.

Lemma authenticated_command_window_witness :
  (pc_issued_at sample_claims - 10 <= 1003 <= pc_issued_at sample_claims + 65)%Z.
Proof.
  apply (@authenticated_command_window sample_auth sample_auth_laws "heterocloud"
           "heterocloud-syouyu" "pem" sample_authenticator 1003%Z 1003%Z sample_headers
           PROVIDER_RECONCILE_ACTION sample_scope sample_claims).
  - vm_compute. reflexivity.
  - vm_compute. reflexivity.
  - vm_compute. reflexivity.
Defined.

(** The idempotency header of an authenticated command determines the key of
    its receipt: two authenticated commands that send the same header value
    carry the same [jti], and neither alternative spellings nor another token
    can claim the receipt of a command. *)
Theorem idempotency_key_binding `{JwtLaws} self t1 n1 t2 n2 h1 h2 a1 a2 s1 s2 c1 c2 :
  authenticate_command self t1 n1 h1 a1 s1 = Ok c1 ->
  authenticate_command self t2 n2 h2 a2 s2 = Ok c2 ->
  headers_get h1 IDEMPOTENCY_KEY_HEADER ≫= value_to_str =
    headers_get h2 IDEMPOTENCY_KEY_HEADER ≫= value_to_str <->
  pc_jwt_id c1 = pc_jwt_id c2.
Proof.
  intros (_ & _ & _ & H1)%authenticate_command_Ok (_ & _ & _ & H2)%authenticate_command_Ok.
  apply require_idempotency_key_Ok in H1, H2. rewrite H1, H2.
  split; [intros [= Heq]; by apply uuid_to_string_inj|by intros ->].
Qed.

Lemma idempotency_key_binding_witness : pc_jwt_id sample_claims = 42%N.
Proof.
  change 42%N with (pc_jwt_id sample_claims).
  apply (@idempotency_key_binding sample_auth sample_auth_laws sample_authenticator
           1003%Z 1003%Z 1030%Z 1030%Z sample_headers sample_headers
           PROVIDER_RECONCILE_ACTION PROVIDER_RECONCILE_ACTION sample_scope sample_scope
           sample_claims sample_claims).
  - vm_compute. reflexivity.
  - vm_compute. reflexivity.
  - vm_compute. reflexivity.
Defined.
