(* ===== verification/StoreModels.v ===== *)
(** * The store's commands and records ([crates/syouyu-store/src/models.rs],
      and [StoreError] of [crates/syouyu-store/src/lib.rs]) *)

From S2P Require Import Prelude RustStr Domain Json.

(** ** Errors

    A database failure is one of the constraint violations the schema can raise,
    a NUL character in a parameter of type [TEXT] or [JSONB] ([InvalidText]),
    or any other error of the connection or the server. *)

Inductive DbError : Type :=
| UniqueViolation (constraint : string)
| ForeignKeyViolation (constraint : string)
| CheckViolation (constraint : string)
| NumericOverflow
| InvalidText
| OtherDbError.

Inductive StoreError : Type :=
| Database (e : DbError)
| Migration
| Configuration (message : string)
| Validation (message : string)
| DomainValidation (e : ValidationError)
| NotFound
| Conflict (message : string)
| IdempotencyConflict
| BucketNameUnavailable
| StaleGeneration (current requested : Z)
| OperationInProgress (operation_id : Uuid)
| OperationLeaseLost (current_operation_id : Uuid)
| ServiceNotReady
| CredentialLimitExceeded (scope : string) (limit : Z)
| InvalidNumericValue (field : string)
| CorruptData (what : string)
| Encryption (message : string).

#[export] Instance DbError_eq_dec : EqDecision DbError.
Proof. solve_decision. Defined.
#[export] Instance StoreError_eq_dec : EqDecision StoreError.
Proof. solve_decision. Defined.

(** ** Limits and requests *)

Record CredentialLimits : Type := {
  max_credentials_per_bucket : Z;
  max_total_credentials : Z;
}.

Definition CredentialLimits_validate (self : CredentialLimits)
  : result StoreError CredentialLimits :=
  if (max_credentials_per_bucket self =? 0)%Z || (max_total_credentials self =? 0)%Z
  then Err (Configuration "credential limits must both be positive")
  else Ok self.

Definition CredentialLimits_default : CredentialLimits :=
  {| max_credentials_per_bucket := 10000; max_total_credentials := 1000000 |}.

Record OperationRequest : Type := {
  op_idempotency_key : Uuid;
  op_organization_id : Uuid;
  op_project_id : Uuid;
  op_service_instance_id : Uuid;
  op_principal_id : Uuid;
  op_action : string;
  op_generation : option Z;
  op_request_hash : bytes;
}.

Definition OperationRequest_validate (self : OperationRequest) : result StoreError unit :=
  if str_is_empty (op_action self) || Nat.ltb 128 (str_len (op_action self))
  then Err (Validation "operation action must contain between 1 and 128 bytes")
  else if match op_generation self with Some g => (g <=? 0)%Z | None => false end
  then Err (Validation "operation generation must be positive")
  else Ok tt.

Record ReconcileCommand : Type := {
  rec_operation : OperationRequest;
  rec_name : string;
  rec_generation : Z;
  rec_spec : SyouyuSpec;
}.

Definition ReconcileCommand_validate (self : ReconcileCommand) : result StoreError unit :=
  _ ← OperationRequest_validate (rec_operation self);
  if negb (bool_decide (op_generation (rec_operation self) = Some (rec_generation self)))
  then Err (Validation "operation and reconcile generations do not match")
  else if str_is_empty (rec_name self) || Nat.ltb 120 (str_len (rec_name self))
  then Err (Validation "service name must contain between 1 and 120 bytes")
  else map_err DomainValidation (SyouyuSpec_validate (rec_spec self)).

Lemma ReconcileCommand_validate_spec c :
  ReconcileCommand_validate c = Ok tt -> SyouyuSpec_validate (rec_spec c) = Ok tt.
Proof.
  unfold ReconcileCommand_validate. intros (_ & _ & Hv)%result_bind_Ok.
  repeat case_match; try done. by apply map_err_Ok in Hv.
Qed.

Record DeleteCommand : Type := {
  del_operation : OperationRequest;
  del_generation : Z;
}.

Definition DeleteCommand_validate (self : DeleteCommand) : result StoreError unit :=
  _ ← OperationRequest_validate (del_operation self);
  if negb (bool_decide (op_generation (del_operation self) = Some (del_generation self)))
  then Err (Validation "operation and delete generations do not match")
  else Ok tt.

Record CreateCredentialCommand : Type := {
  cre_operation : OperationRequest;
  cre_name : string;
  cre_permissions : BucketPermissions;
  cre_credential_limits : CredentialLimits;
}.

Definition CreateCredentialCommand_validate (self : CreateCredentialCommand)
  : result StoreError unit :=
  _ ← OperationRequest_validate (cre_operation self);
  _ ← CredentialLimits_validate (cre_credential_limits self);
  map_err DomainValidation
    (CredentialSpec_validate
       {| cred_spec_name := cre_name self; cred_spec_permissions := cre_permissions self |}).

Record RevokeCredentialCommand : Type := {
  rev_operation : OperationRequest;
  rev_credential_id : Uuid;
}.

(** ** Responses and records *)

Record StoredHttpResponse : Type := {
  resp_status : Z;
  resp_body : Value;
  resp_failed : bool;
}.

#[export] Instance StoredHttpResponse_eq_dec : EqDecision StoredHttpResponse.
Proof. solve_decision. Defined.

Inductive Prepare (T : Type) : Type :=
| Execute (operation_id : Uuid) (context : T)
| Replay (response : StoredHttpResponse)
| InProgress (operation_id : Uuid).
Arguments Execute {T} operation_id context.
Arguments Replay {T} response.
Arguments InProgress {T} operation_id.

Record BucketRecord : Type := {
  br_service_instance_id : Uuid;
  br_organization_id : Uuid;
  br_project_id : Uuid;
  br_physical_bucket_id : option string;
  br_bucket_name : string;
  br_region : string;
  br_quota_bytes : Z;
  br_quota_objects : Z;
  br_used_bytes : Z;
  br_used_objects : Z;
  br_usage_measured_at : option DateTime;
}.

Record ServiceRecord : Type := {
  sr_id : Uuid;
  sr_organization_id : Uuid;
  sr_project_id : Uuid;
  sr_name : string;
  sr_desired_generation : Z;
  sr_observed_generation : Z;
  sr_phase : string;
  sr_operation_id : Uuid;
  sr_spec : SyouyuSpec;
  sr_bucket : BucketRecord;
}.

Record ReconcileContext : Type := { rc_bucket : BucketRecord; rc_previously_applied : bool }.
Record DeleteContext : Type := { dc_bucket : BucketRecord; dc_garage_key_ids : list string }.
Record CreateCredentialContext : Type := { cc_bucket : BucketRecord; cc_credential_id : Uuid }.
Record RevokeCredentialContext : Type := {
  vc_garage_key_id : string;
  vc_already_revoked : bool;
}.

Record CredentialRecord : Type := {
  cr_id : Uuid;
  cr_service_instance_id : Uuid;
  cr_name : string;
  cr_access_key_id : string;
  cr_permissions : BucketPermissions;
  cr_status : string;
  cr_created_at : DateTime;
  cr_revoked_at : option DateTime;
}.

Record UsageRecord : Type := {
  ur_service_instance_id : Uuid;
  ur_bytes_used : Z;
  ur_objects_used : Z;
  ur_quota_bytes : Z;
  ur_quota_objects : Z;
  ur_measured_at : DateTime;
}.

Record NewCredential : Type := {
  nc_id : Uuid;
  nc_garage_key_id : string;
  nc_access_key_id : string;
  nc_secret_key_fingerprint : bytes;
  nc_name : string;
  nc_permissions : BucketPermissions;
}.

Record AuditEvent : Type := {
  ae_organization_id : Uuid;
  ae_project_id : Uuid;
  ae_service_instance_id : Uuid;
  ae_principal_id : Uuid;
  ae_principal_context_id : option Uuid;
  ae_request_id : string;
  ae_action : string;
  ae_resource_type : string;
  ae_resource_id : option string;
  ae_outcome : string;
  ae_details : Value;
}.

(** ** The request hash

    The digest function is a parameter; the bytes fed to it are modelled. *)

Definition nul : Byte.byte := Byte.x00.
Definition hash_input (action : string) (encoded : bytes) : bytes :=
  (str_bytes "syouyu-operation-v1" ++ [nul]) ++ str_bytes action ++ [nul] ++ encoded.

Definition request_hash (sha256 : bytes -> bytes) (action : string) (encoded : option bytes)
  : result StoreError bytes :=
  e ← ok_or (CorruptData "operation request serialization") encoded;
  Ok (sha256 (hash_input action e)).

(** ** Lemmas *)

Lemma OperationRequest_validate_Ok o :
  OperationRequest_validate o = Ok tt <->
  1 <= str_len (op_action o) <= 128 /\ (forall g, op_generation o = Some g -> (0 < g)%Z).
Proof.
  unfold OperationRequest_validate, str_is_empty.
  destruct (Nat.eqb_spec (str_len (op_action o)) 0), (Nat.ltb_spec 128 (str_len (op_action o)));
    simpl; try (split; [done|lia]).
  destruct (op_generation o) as [g|].
  - destruct (Z.leb_spec g 0); split; intros; try done.
    + destruct_and?. assert (0 < g)%Z by auto. lia.
    + split; [lia|]. intros. by simplify_eq.
  - split; [|done]. intros _. split; [lia|done].
Qed.

(** The bytes hashed for a request determine its action and its encoded
    body: no two different requests whose actions contain no NUL byte feed the
    same bytes to SHA-256, so the receipt's hash binds both. *)
Theorem hash_input_injective a a' e e' :
  nul ∉ str_bytes a -> nul ∉ str_bytes a' ->
  hash_input a e = hash_input a' e' -> a = a' /\ e = e'.
Proof.
  intros Ha Ha' H. unfold hash_input in H. apply app_inv_head in H.
  apply split_at_first in H as [H ->]; [|done|done]. split; [|done]. by apply str_bytes_inj.
Qed.

Lemma hash_input_injective_witness :
  hash_input "credential.create" [Byte.x31] = hash_input "credential.create" [Byte.x31] /\
  "credential.create" = "credential.create" /\ [Byte.x31] = [Byte.x31].
Proof.
  split; [reflexivity|].
  apply (hash_input_injective "credential.create" "credential.create" [Byte.x31] [Byte.x31]).
  - apply (bool_decide_unpack _). vm_compute. exact I.
  - apply (bool_decide_unpack _). vm_compute. exact I.
  - reflexivity.
Defined.
