(* ===== verification/PrincipalAuth.v ===== *)
(** * Principal contexts ([crates/syouyu-api/src/principal_auth.rs])

    The verifier of the signed principal headers.  The header map is that of
    [AuthLib]; base64, HMAC-SHA256, the JSON decoder of the context and chrono's
    [timestamp_opt] are parameters ([PrincipalLib]). *)

From S2P Require Import Prelude RustStr Domain Auth Json StoreModels.

Definition PRINCIPAL_HEADER : string := "x-syouyu-principal".
Definition PRINCIPAL_TIMESTAMP_HEADER : string := "x-syouyu-timestamp".
Definition PRINCIPAL_SIGNATURE_HEADER : string := "x-syouyu-signature".

Module PrincipalAuthError.
Inductive t : Type :=
| MissingCredentials
| InvalidHeader
| InvalidSignature
| InvalidPrincipal
| InvalidLifetime
| Expired
| PermissionDenied
| InvalidConfiguration (message : string).
End PrincipalAuthError.
Abbreviation PrincipalAuthError := PrincipalAuthError.t (only parsing).

(** [std::time::Duration], in nanoseconds. *)
Abbreviation Duration := Z (only parsing).
Definition nanos_per_sec : Z := 1000000000.
Definition Duration_from_secs (s : Z) : Duration := (s * nanos_per_sec)%Z.
Definition Duration_from_mins (m : Z) : Duration := Duration_from_secs (m * 60).
Definition Duration_as_secs (d : Duration) : Z := (d / nanos_per_sec)%Z.
Definition Duration_is_zero (d : Duration) : bool := (d =? 0)%Z.

Record SignedPrincipal : Type := {
  sp_issuer : string;
  sp_audience : string;
  sp_scope : ServiceScope;
  sp_principal_id : Uuid;
  sp_permissions : gset string;
  sp_credential_limits : CredentialLimits;
  sp_issued_at : Z;
  sp_expires_at : Z;
  sp_context_id : Uuid;
}.

Record Principal : Type := {
  principal_scope : ServiceScope;
  principal_principal_id : Uuid;
  principal_permissions : gset string;
  principal_credential_limits : CredentialLimits;
  principal_context_id : Uuid;
  principal_issued_at : DateTime;
  principal_expires_at : DateTime;
}.

Definition Principal_require (self : Principal) (permission : string)
  : result PrincipalAuthError unit :=
  if bool_decide (permission ∈ principal_permissions self) then Ok tt
  else Err PrincipalAuthError.PermissionDenied.

Record PrincipalAuthenticator : Type := {
  pra_issuer : string;
  pra_audience : string;
  pra_secret : bytes;
  pra_max_ttl : Duration;
  pra_clock_skew : Duration;
}.

Definition PrincipalAuthenticator_new (issuer audience : string) (secret : bytes)
    (max_ttl : Duration) : result PrincipalAuthError PrincipalAuthenticator :=
  if str_is_empty issuer || str_is_empty audience
  then Err (PrincipalAuthError.InvalidConfiguration "principal issuer and audience are required")
  else if Nat.ltb (length secret) 32
  then Err (PrincipalAuthError.InvalidConfiguration
              "principal HMAC secret must contain at least 32 bytes")
  else if Duration_is_zero max_ttl || (Duration_from_mins 5 <? max_ttl)%Z
  then Err (PrincipalAuthError.InvalidConfiguration
              "principal maximum TTL must be between one and 300 seconds")
  else Ok {| pra_issuer := issuer; pra_audience := audience; pra_secret := secret;
             pra_max_ttl := max_ttl; pra_clock_skew := Duration_from_secs 15 |}.

Class PrincipalLib : Type := {
  url_safe_no_pad_decode : string -> option bytes;
  HmacSha256 : Type;
  hmac_new_from_slice : bytes -> option HmacSha256;
  (** [verify_slice] after updates with the parts of a message. *)
  hmac_verify_slice : HmacSha256 -> bytes -> bytes -> bool;
  signed_principal_from_slice : bytes -> option SignedPrincipal;
  timestamp_opt : Z -> option DateTime;
}.

(** The JSON decoder fills [u64] fields with [u64] values. *)
Class PrincipalLaws `{PrincipalLib} : Prop := {
  signed_principal_u64 b s :
    signed_principal_from_slice b = Some s ->
    in_u64 (sp_issued_at s) = true /\ in_u64 (sp_expires_at s) = true;
}.

Section principal.
Context `{AuthLib} `{PrincipalLib}.

Definition required_header (headers : HeaderMap) (name : string)
  : result PrincipalAuthError string :=
  value ← ok_or PrincipalAuthError.MissingCredentials (headers_get headers name);
  ok_or PrincipalAuthError.InvalidHeader (value_to_str value).

Definition timestamp (value : Z) : result PrincipalAuthError DateTime :=
  seconds ← ok_or PrincipalAuthError.InvalidPrincipal (i64_try_from_u64 value);
  ok_or PrincipalAuthError.InvalidPrincipal (timestamp_opt seconds).

(** The bytes the three [update]s feed to the MAC. *)
Definition signed_message (timestamp_text encoded : string) : bytes :=
  str_bytes timestamp_text ++ str_bytes "." ++ str_bytes encoded.

(** The checks on the decoded context; [now] is [Utc::now().timestamp()]. *)
Definition check_signed (self : PrincipalAuthenticator) (now signed_at : Z)
    (signed : SignedPrincipal) : result PrincipalAuthError Principal :=
  if negb (signed_at =? sp_issued_at signed)%Z
     || negb (String.eqb (sp_issuer signed) (pra_issuer self))
     || negb (String.eqb (sp_audience signed) (pra_audience self))
  then Err PrincipalAuthError.InvalidPrincipal
  else if (sp_expires_at signed <=? sp_issued_at signed)%Z
          || (Duration_as_secs (pra_max_ttl self)
                <? sp_expires_at signed - sp_issued_at signed)%Z
  then Err PrincipalAuthError.InvalidLifetime
  else
  now ← ok_or PrincipalAuthError.InvalidPrincipal (u64_try_from_i64 now);
  let skew := Duration_as_secs (pra_clock_skew self) in
  if (u64_saturating_add now skew <? sp_issued_at signed)%Z
     || (u64_saturating_add (sp_expires_at signed) skew <=? now)%Z
  then Err PrincipalAuthError.Expired
  else
  _ ← map_err (fun _ => PrincipalAuthError.InvalidPrincipal)
        (ServiceScope_validate (sp_scope signed));
  if is_nil (sp_principal_id signed) || is_nil (sp_context_id signed)
  then Err PrincipalAuthError.InvalidPrincipal
  else
  issued_at ← timestamp (sp_issued_at signed);
  expires_at ← timestamp (sp_expires_at signed);
  Ok {| principal_scope := sp_scope signed;
        principal_principal_id := sp_principal_id signed;
        principal_permissions := sp_permissions signed;
        principal_credential_limits := sp_credential_limits signed;
        principal_context_id := sp_context_id signed;
        principal_issued_at := issued_at;
        principal_expires_at := expires_at |}.

Definition authenticate (self : PrincipalAuthenticator) (now : Z) (headers : HeaderMap)
  : result PrincipalAuthError Principal :=
  encoded ← required_header headers PRINCIPAL_HEADER;
  timestamp_text ← required_header headers PRINCIPAL_TIMESTAMP_HEADER;
  signature_text ← required_header headers PRINCIPAL_SIGNATURE_HEADER;
  signed_at ← ok_or PrincipalAuthError.InvalidHeader (parse_u64 timestamp_text);
  mac ← ok_or (PrincipalAuthError.InvalidConfiguration "HMAC secret is invalid")
          (hmac_new_from_slice (pra_secret self));
  signature ← ok_or PrincipalAuthError.InvalidSignature (url_safe_no_pad_decode signature_text);
  _ ← ensure (hmac_verify_slice mac (signed_message timestamp_text encoded) signature)
        PrincipalAuthError.InvalidSignature;
  serialized ← ok_or PrincipalAuthError.InvalidPrincipal (url_safe_no_pad_decode encoded);
  signed ← ok_or PrincipalAuthError.InvalidPrincipal (signed_principal_from_slice serialized);
  check_signed self now signed_at signed.
End principal.

(** ** What an accepted context guarantees *)

(** The contexts the service is willing to act on at time [now]. *)
Record acceptable_context (issuer audience : string) (max_ttl_secs now signed_at : Z)
    (s : SignedPrincipal) : Prop := {
  ac_issuer : sp_issuer s = issuer;
  ac_audience : sp_audience s = audience;
  ac_signed_at : sp_issued_at s = signed_at;
  ac_lifetime : (sp_issued_at s < sp_expires_at s <= sp_issued_at s + max_ttl_secs)%Z;
  ac_issued : (sp_issued_at s <= now + 15)%Z;
  ac_fresh : (now < sp_expires_at s + 15)%Z;
  ac_now : (0 <= now)%Z;
  ac_scope : ServiceScope_validate (sp_scope s) = Ok tt;
  ac_principal : sp_principal_id s <> 0%N;
  ac_context : sp_context_id s <> 0%N;
}.

Definition principal_of (s : SignedPrincipal) (issued_at expires_at : DateTime) : Principal := {|
  principal_scope := sp_scope s;
  principal_principal_id := sp_principal_id s;
  principal_permissions := sp_permissions s;
  principal_credential_limits := sp_credential_limits s;
  principal_context_id := sp_context_id s;
  principal_issued_at := issued_at;
  principal_expires_at := expires_at;
|}.

Lemma PrincipalAuthenticator_new_Ok issuer audience secret ttl self :
  PrincipalAuthenticator_new issuer audience secret ttl = Ok self ->
  pra_issuer self = issuer /\ pra_audience self = audience /\ pra_secret self = secret /\
  pra_max_ttl self = ttl /\ Duration_as_secs (pra_clock_skew self) = 15%Z /\
  32 <= length secret /\ (ttl <= Duration_from_secs 300)%Z.
Proof.
  unfold PrincipalAuthenticator_new. case_match; [done|]. case_match; [done|].
  case_match; [done|]. intros [= <-]. reflect. destruct_and?. split_and!; [done..|].
  unfold Duration_from_mins in *. simpl in *. done.
Qed.

Section principal_lemmas.
Context `{AuthLib} `{PrincipalLib}.

Lemma check_signed_Ok self now signed_at s p :
  Duration_as_secs (pra_clock_skew self) = 15%Z -> in_i64 now = true ->
  in_u64 (sp_issued_at s) = true -> in_u64 (sp_expires_at s) = true ->
  check_signed self now signed_at s = Ok p <->
  acceptable_context (pra_issuer self) (pra_audience self)
    (Duration_as_secs (pra_max_ttl self)) now signed_at s /\
  exists i e, timestamp (sp_issued_at s) = Ok i /\ timestamp (sp_expires_at s) = Ok e /\
    p = principal_of s i e.
Proof.
  intros Hskew Hnow Hi He. unfold check_signed. rewrite Hskew.
  unfold in_i64, in_u64 in *. rewrite andb_true_iff, !Z.leb_le in Hnow, Hi, He.
  set (b1 := negb _ || _ || _). set (b2 := (_ <=? _)%Z || _).
  set (b4 := is_nil _ || is_nil _).
  assert (Hiff : acceptable_context (pra_issuer self) (pra_audience self)
      (Duration_as_secs (pra_max_ttl self)) now signed_at s <->
    b1 = false /\ b2 = false /\ (0 <= now)%Z /\
    (u64_saturating_add now 15 <? sp_issued_at s)%Z
      || (u64_saturating_add (sp_expires_at s) 15 <=? now)%Z = false /\
    ServiceScope_validate (sp_scope s) = Ok tt /\ b4 = false).
  { unfold b1, b2, b4, is_nil, u64_saturating_add.
    rewrite !orb_false_iff, !negb_false_iff, !Z.eqb_eq, !String.eqb_eq, !N.eqb_neq,
      !Z.leb_gt, !Z.ltb_ge.
    assert (i64_max < u64_max - 15)%Z by (unfold i64_max, u64_max; lia).
    split.
    - intros []. split_and!; auto; lia.
    - intros ([[? ?] ?] & [? ?] & ? & [? ?] & ? & ? & ?). constructor; auto; lia. }
  rewrite Hiff. clearbody b1 b2 b4. clear Hiff.
  destruct b1; [split; [done|naive_solver]|]. destruct b2; [split; [done|naive_solver]|].
  unfold u64_try_from_i64. destruct (Z.leb_spec 0 now); [|split; [done|intros; destruct_and?; lia]].
  cbn [ok_or mbind result_bind].
  destruct (_ || _); [split; [done|naive_solver]|].
  destruct (ServiceScope_validate _) as [[]|err]; [|split; [done|naive_solver]].
  cbn [map_err mbind result_bind]. destruct b4; [split; [done|naive_solver]|].
  destruct (timestamp (sp_issued_at s)) as [i|]; [|split; [done|naive_solver]].
  destruct (timestamp (sp_expires_at s)) as [e|]; [|split; [done|naive_solver]].
  cbn. split; [intros [= <-]; eauto 20|]. intros (_ & ? & ? & [= <-] & [= <-] & ->). done.
Qed.

Lemma required_header_Ok headers name v :
  required_header headers name = Ok v <-> headers_get headers name ≫= value_to_str = Some v.
Proof.
  unfold required_header. rewrite result_bind_Ok. setoid_rewrite ok_or_Ok.
  destruct (headers_get headers name); crush.
Qed.

Lemma authenticate_Ok self now headers p :
  authenticate self now headers = Ok p <->
  exists encoded text signature_text signed_at mac signature serialized signed,
    headers_get headers PRINCIPAL_HEADER ≫= value_to_str = Some encoded /\
    headers_get headers PRINCIPAL_TIMESTAMP_HEADER ≫= value_to_str = Some text /\
    headers_get headers PRINCIPAL_SIGNATURE_HEADER ≫= value_to_str = Some signature_text /\
    parse_u64 text = Some signed_at /\
    hmac_new_from_slice (pra_secret self) = Some mac /\
    url_safe_no_pad_decode signature_text = Some signature /\
    hmac_verify_slice mac (signed_message text encoded) signature = true /\
    url_safe_no_pad_decode encoded = Some serialized /\
    signed_principal_from_slice serialized = Some signed /\
    check_signed self now signed_at signed = Ok p.
Proof.
  unfold authenticate. split.
  - intros Ha.
    apply result_bind_Ok in Ha as (encoded & He%required_header_Ok & Ha).
    apply result_bind_Ok in Ha as (text & Ht%required_header_Ok & Ha).
    apply result_bind_Ok in Ha as (signature_text & Hs%required_header_Ok & Ha).
    do 3 (apply result_bind_Ok in Ha as (? & ?%ok_or_Ok & Ha)).
    apply result_bind_Ok in Ha as ([] & Hv%ensure_Ok & Ha).
    do 2 (apply result_bind_Ok in Ha as (? & ?%ok_or_Ok & Ha)). eauto 20.
  - intros (encoded & text & sig & at_ & mac & signature & serialized & signed &
            He%required_header_Ok & Ht%required_header_Ok & Hs%required_header_Ok &
            Hp & Hm & Hd & Hv & Hd' & Hf & Hc).
    rewrite He, Ht, Hs. cbn. rewrite Hp. cbn. rewrite Hm. cbn. rewrite Hd. cbn. rewrite Hv. cbn.
    rewrite Hd'. cbn. rewrite Hf. exact Hc.
Qed.

Lemma signed_message_inj text text' encoded encoded' z z' :
  parse_u64 text = Some z -> parse_u64 text' = Some z' ->
  signed_message text encoded = signed_message text' encoded' ->
  text = text' /\ encoded = encoded'.
Proof.
  assert (Hdot : forall s y, parse_u64 s = Some y -> Byte.x2e ∉ str_bytes s).
  { intros s y Hs Hin. by destruct (parse_u64_bytes s y _ Hs Hin) as [?%bool_decide_eq_true_1|?]. }
  intros Ht Ht' Heq. change (str_bytes ".") with [Byte.x2e] in Heq. unfold signed_message in Heq.
  apply split_at_first in Heq as [H1 H2]; [|by eapply Hdot|by eapply Hdot].
  split; by apply str_bytes_inj.
Qed.
End principal_lemmas.

(** ** A concrete library *)

Definition sample_signed : SignedPrincipal := {|
  sp_issuer := "heterocloud"; sp_audience := "heterocloud-syouyu-data";
  sp_scope := sample_scope; sp_principal_id := 7;
  sp_permissions := {["syouyu.credential.read"; "syouyu.credential.create"]};
  sp_credential_limits := {| max_credentials_per_bucket := 10; max_total_credentials := 100 |};
  sp_issued_at := 1000; sp_expires_at := 1120; sp_context_id := 9 |}.

(** The tag of a message is the message itself; texts decode to their bytes. *)
Definition sample_principal_lib : PrincipalLib := {|
  url_safe_no_pad_decode s := Some (str_bytes s);
  HmacSha256 := bytes;
  hmac_new_from_slice := Some;
  hmac_verify_slice _ m s := bool_decide (m = s);
  signed_principal_from_slice _ := Some sample_signed;
  timestamp_opt s := Some (s * second)%Z;
|}.

Lemma sample_principal_laws : @PrincipalLaws sample_principal_lib.
Proof. constructor. intros b s [= <-]. split; reflexivity. Qed.

Definition sample_secret : bytes := str_bytes "syouyu-principal-test-secret-at-least-32-bytes".
Definition sample_principal_authenticator : PrincipalAuthenticator := {|
  pra_issuer := "heterocloud"; pra_audience := "heterocloud-syouyu-data";
  pra_secret := sample_secret; pra_max_ttl := Duration_from_mins 5;
  pra_clock_skew := Duration_from_secs 15 |}.

Definition sample_principal_headers : @HeaderMap sample_auth :=
  [(PRINCIPAL_HEADER, "ctx"); (PRINCIPAL_TIMESTAMP_HEADER, "1000");
   (PRINCIPAL_SIGNATURE_HEADER, "1000.ctx"); ("idempotency-key", "42")].

Definition sample_principal : Principal :=
  principal_of sample_signed (1000 * second) (1120 * second).

(** ** Properties *)

(** C31. A signed principal context is accepted exactly when the three headers are
    present, the MAC over the timestamp text, a dot and the encoded context
    verifies under the configured secret, and the decoded context names the
    configured issuer and audience, repeats the signed timestamp, lives at most
    the configured number of seconds (never more than 300), lies in the window
    of fifteen seconds of skew around the clock and has no nil identifier;
    saturating [u64] arithmetic never admits another context. *)
Theorem principal_context_spec `{AuthLib} `{PrincipalLaws} issuer audience secret ttl self now
    headers p :
  PrincipalAuthenticator_new issuer audience secret ttl = Ok self -> in_i64 now = true ->
  (Duration_as_secs ttl <= 300)%Z /\ 32 <= length secret /\
  (authenticate self now headers = Ok p <->
   exists encoded text signature_text signed_at mac signature serialized signed i e,
     headers_get headers PRINCIPAL_HEADER ≫= value_to_str = Some encoded /\
     headers_get headers PRINCIPAL_TIMESTAMP_HEADER ≫= value_to_str = Some text /\
     headers_get headers PRINCIPAL_SIGNATURE_HEADER ≫= value_to_str = Some signature_text /\
     parse_u64 text = Some signed_at /\
     hmac_new_from_slice secret = Some mac /\
     url_safe_no_pad_decode signature_text = Some signature /\
     hmac_verify_slice mac (signed_message text encoded) signature = true /\
     url_safe_no_pad_decode encoded = Some serialized /\
     signed_principal_from_slice serialized = Some signed /\
     acceptable_context issuer audience (Duration_as_secs ttl) now signed_at signed /\
     timestamp (sp_issued_at signed) = Ok i /\ timestamp (sp_expires_at signed) = Ok e /\
     p = principal_of signed i e).
Proof.
  intros (<- & <- & <- & <- & Hskew & Hlen & Httl)%PrincipalAuthenticator_new_Ok Hnow.
  split; [|split; [done|]].
  { unfold Duration_as_secs, Duration_from_secs, nanos_per_sec in *.
    apply Z.div_le_upper_bound; lia. }
  rewrite authenticate_Ok. split.
  - intros (encoded & text & sig & at_ & mac & signature & serialized & signed & ?).
    destruct_and?. destruct (signed_principal_u64 serialized signed); [done|].
    rewrite check_signed_Ok in * by done. destruct_and?. destruct_exists. destruct_and?.
    do 10 eexists. split_and!; eassumption.
  - intros (encoded & text & sig & at_ & mac & signature & serialized & signed & i & e & ?).
    destruct_and?. destruct (signed_principal_u64 serialized signed); [done|].
    exists encoded, text, sig, at_, mac, signature, serialized, signed. split_and!; try done.
    rewrite check_signed_Ok by done. split; [done|]. by exists i, e.
Qed.

Lemma principal_context_spec_witness :
  authenticate (H := sample_auth) (H0 := sample_principal_lib) sample_principal_authenticator 1130
    sample_principal_headers = Ok sample_principal /\
  acceptable_context "heterocloud" "heterocloud-syouyu-data" 300 1130 1000 sample_signed.
Proof.
  assert (Hv : authenticate (H := sample_auth) (H0 := sample_principal_lib)
                 sample_principal_authenticator 1130 sample_principal_headers
               = Ok sample_principal) by (vm_compute; reflexivity).
  split; [exact Hv|].
  eapply (@principal_context_spec sample_auth sample_principal_lib sample_principal_laws
            "heterocloud" "heterocloud-syouyu-data" sample_secret (Duration_from_mins 5)) in Hv.
  - destruct Hv as (e & t & st & at_ & mac & sg & ser & sd & i & x & _ & Ht & _ & Hp & _ & _ & _ &
                    _ & Hs & Ha & _).
    injection Ht as <-. injection Hs as <-. vm_compute in Hp. injection Hp as <-. exact Ha.
  - vm_compute. reflexivity.
  - vm_compute. reflexivity.
Defined.

(** The MAC binds the timestamp and the context separately: no two pairs of
    headers whose timestamps parse feed the same bytes to the MAC, so a signature
    for one request never verifies as another split of the same bytes. *)
Theorem signed_message_injective text text' encoded encoded' z z' :
  parse_u64 text = Some z -> parse_u64 text' = Some z' ->
  signed_message text encoded = signed_message text' encoded' ->
  text = text' /\ encoded = encoded'.
Proof. apply signed_message_inj. Qed.

Lemma signed_message_injective_witness : "1000" = "1000" /\ "a.b" = "a.b".
Proof.
  apply (signed_message_injective "1000" "1000" "a.b" "a.b" 1000 1000); vm_compute; reflexivity.
Defined.
