(* ===== verification/ApiError.v ===== *)
(** * Errors of the HTTP interface ([crates/syouyu-api/src/error.rs])

    [ApiError] with its constructors, the conversions from the errors of every
    component, the stored form of a failure and the HTTP response.  The texts are
    those of the [Display] implementations in the crates. *)

From stdpp Require Import pretty.
From S2P Require Import Prelude Prog RustStr Domain Garage GarageAdapter Json Auth StoreModels PrincipalAuth.

(** ** [Display] *)

Definition ValidationError_to_string (e : ValidationError) : string :=
  match e with
  | InvalidLength field minimum maximum actual =>
      field +:+ " length must be between " +:+ pretty minimum +:+ " and " +:+ pretty maximum
      +:+ ", got " +:+ pretty actual
  | OutOfRange field minimum maximum actual =>
      field +:+ " must be between " +:+ pretty minimum +:+ " and " +:+ pretty maximum
      +:+ ", got " +:+ pretty actual
  | InvalidField field reason => field +:+ " is invalid: " +:+ reason
  | InvalidState m => "invalid state: " +:+ m
  end.

Definition AuthError_to_string (e : AuthError) : string :=
  match e with
  | MissingCredentials => "credentials are missing"
  | InvalidHeader => "credential header is invalid"
  | InvalidToken => "token is invalid or expired"
  | MissingKeyId => "provider token has no key ID"
  | UnknownKeyId => "provider token key ID is not trusted"
  | InvalidProviderCommand => "provider command claims are invalid"
  | InvalidProviderScope => "provider token contains an invalid scope"
  | InvalidExpectedScope => "expected request scope is invalid"
  | ScopeMismatch => "provider token scope does not match the request path"
  | TokenLifetimeExceeded => "credential lifetime exceeds the service limit"
  | MissingIdempotencyKey => "idempotency key is missing"
  | InvalidIdempotencyKey => "idempotency key is not a canonical UUID"
  | IdempotencyKeyMismatch => "idempotency key does not match provider token jti"
  | InvalidConfiguration m => "invalid authentication configuration: " +:+ m
  end.

Definition PrincipalAuthError_to_string (e : PrincipalAuthError) : string :=
  match e with
  | PrincipalAuthError.MissingCredentials => "credentials are missing"
  | PrincipalAuthError.InvalidHeader => "credential header is invalid"
  | PrincipalAuthError.InvalidSignature => "principal signature is invalid"
  | PrincipalAuthError.InvalidPrincipal => "principal context is invalid"
  | PrincipalAuthError.InvalidLifetime => "principal context lifetime is invalid"
  | PrincipalAuthError.Expired => "principal context is expired"
  | PrincipalAuthError.PermissionDenied => "principal lacks the required permission"
  | PrincipalAuthError.InvalidConfiguration m =>
      "invalid principal authentication configuration: " +:+ m
  end.

(** ** The error *)

Record ApiError : Type := {
  api_status : Z;
  api_code : string;
  api_message : string;
  api_operation_id : option Uuid;
  api_retry_after_seconds : option Z;
}.

Definition ApiError_new (status : Z) (code message : string) : ApiError := {|
  api_status := status; api_code := code; api_message := message;
  api_operation_id := None; api_retry_after_seconds := None |}.

Definition bad_request (message : string) : ApiError :=
  ApiError_new 400 "invalid_request" message.
Definition unauthorized (message : string) : ApiError :=
  ApiError_new 401 "invalid_credentials" message.
Definition forbidden : ApiError :=
  ApiError_new 403 "permission_denied" "principal does not have the required permission".
Definition not_found : ApiError := ApiError_new 404 "not_found" "resource was not found".
Definition method_not_allowed : ApiError :=
  ApiError_new 405 "method_not_allowed" "HTTP method is not allowed for this route".
Definition conflict (code message : string) : ApiError := ApiError_new 409 code message.
Definition dependency (message : string) : ApiError :=
  ApiError_new 502 "storage_backend_unavailable" message.
Definition operation_in_progress (operation_id : Uuid) : ApiError := {|
  api_status := 503;
  api_code := "operation_in_progress";
  api_message := "another operation for this service is still in progress";
  api_operation_id := Some operation_id;
  api_retry_after_seconds := Some 2%Z |}.
Definition internal : ApiError :=
  ApiError_new 500 "internal_error" "internal service error".

(** ** Conversions *)

Definition ApiError_from_AuthError (error : AuthError) : ApiError :=
  unauthorized (AuthError_to_string error).

Definition ApiError_from_PrincipalAuthError (error : PrincipalAuthError) : ApiError :=
  match error with
  | PrincipalAuthError.PermissionDenied => forbidden
  | other => unauthorized (PrincipalAuthError_to_string other)
  end.

Definition ApiError_from_GarageBackendError (error : GarageBackendError) : ApiError :=
  match error with
  | GarageBackendError.Conflict message => conflict "storage_backend_conflict" message
  | GarageBackendError.NotFound message
  | GarageBackendError.Unavailable message
  | GarageBackendError.InvalidResponse message => dependency message
  end.

Definition ApiError_from_StoreError (error_value : StoreError) : ApiError :=
  match error_value with
  | NotFound => not_found
  | Validation message => bad_request message
  | DomainValidation error => bad_request (ValidationError_to_string error)
  | InvalidNumericValue field => bad_request (field +:+ " is outside the supported range")
  | Conflict message => conflict "conflict" message
  | IdempotencyConflict =>
      conflict "idempotency_conflict" "Idempotency-Key was previously used for a different request"
  | BucketNameUnavailable =>
      conflict "bucket_name_unavailable" "bucket name is already owned by another service"
  | StaleGeneration current requested =>
      conflict "stale_generation"
        ("generation " +:+ pretty requested +:+ " is stale; current generation is "
         +:+ pretty current)
  | OperationInProgress operation_id => operation_in_progress operation_id
  | OperationLeaseLost current_operation_id => operation_in_progress current_operation_id
  | ServiceNotReady => conflict "service_not_ready" "service instance is not ready"
  | CredentialLimitExceeded scope limit =>
      conflict "credential_limit_exceeded"
        (scope +:+ " active credential limit of " +:+ pretty limit +:+ " has been reached")
  | Database _ | Migration | Configuration _ | CorruptData _ | Encryption _ => internal
  end.

(** ** Responses *)

(** [serde_json::Map] without [preserve_order]: the fields sorted by key. *)
Definition json_object (fields : list (string * Value)) : Value :=
  JObject (order_by (fun a b => String.leb a.1 b.1) fields).

Record HttpResponse : Type := {
  http_status : Z;
  http_headers : list (string * string);
  http_body : Value;
}.

Section responses.
Context `{AuthLib}.

Record ErrorBody : Type := {
  eb_code : string;
  eb_message : string;
  eb_operation_id : option Uuid;
}.
Record ErrorEnvelope : Type := { ee_error : ErrorBody }.

(** [Serialize] of the two; [operation_id] is skipped when it is [None]. *)
Definition error_body_value (self : ErrorBody) : Value :=
  json_object
    ([("code", JString (eb_code self)); ("message", JString (eb_message self))]
     ++ match eb_operation_id self with
        | Some id => [("operation_id", JString (uuid_to_string id))]
        | None => []
        end).
Definition envelope_value (self : ErrorEnvelope) : Value :=
  json_object [("error", error_body_value (ee_error self))].

Definition ApiError_envelope (self : ApiError) : ErrorEnvelope := {|
  ee_error := {| eb_code := api_code self; eb_message := api_message self;
                 eb_operation_id := api_operation_id self |} |}.

(** The envelope as JSON. *)
Definition envelope (self : ApiError) : Value := envelope_value (ApiError_envelope self).

Definition stored_response (self : ApiError) : StoredHttpResponse := {|
  resp_status := api_status self; resp_body := envelope self; resp_failed := true |}.

Definition into_response (self : ApiError) : HttpResponse := {|
  http_status := api_status self;
  http_headers := ("content-type", "application/json")
    :: match api_retry_after_seconds self with
       | Some seconds => [("retry-after", pretty seconds)]
       | None => []
       end;
  http_body := envelope self |}.
End responses.

(** ** Lemmas *)

Lemma json_object_no_floats fields :
  Forall (fun kv => no_floats kv.2 = true) fields -> no_floats (json_object fields) = true.
Proof.
  intros Hf. unfold json_object. cbn [no_floats]. apply forallb_forall. intros kv Hin.
  apply list_elem_of_In in Hin. rewrite (order_by_perm _ fields) in Hin.
  rewrite Forall_forall in Hf. auto.
Qed.

(** Every error is a JSON object of strings with an HTTP error status. *)
Lemma envelope_no_floats `{AuthLib} self : no_floats (envelope self) = true.
Proof.
  unfold envelope, envelope_value, error_body_value. apply json_object_no_floats. constructor; [|constructor]. cbn [snd].
  apply json_object_no_floats. cbn. destruct (api_operation_id self); repeat constructor.
Qed.
