(* ===== verification/Cipher.v ===== *)
(** * Receipt encryption ([crates/syouyu-store/src/cipher.rs])

    AES-256-GCM is a parameter ([Aead]) with the two documented properties of an
    authenticated cipher ([AeadLaws]); the additional data that binds a
    ciphertext to its idempotency key and operation is modelled.  [sample_aead]
    is an instance for which the laws hold. *)

From S2P Require Import Prelude RustStr Domain Json StoreModels.

Class Aead : Type := {
  Aes256Gcm : Type;
  new_from_slice : bytes -> option Aes256Gcm;
  aead_encrypt : Aes256Gcm -> forall (nonce msg aad : bytes), option bytes;
  aead_decrypt : Aes256Gcm -> forall (nonce msg aad : bytes), option bytes;
}.

Class AeadLaws `{Aead} : Prop := {
  aead_correct k n m a c : aead_encrypt k n m a = Some c -> aead_decrypt k n c a = Some m;
  aead_authentic k n m a a' c :
    aead_encrypt k n m a = Some c -> a' <> a -> aead_decrypt k n c a' = None;
}.

Definition NONCE_BYTES : nat := 12.

Definition aad (idempotency_key operation_id : Uuid) : bytes :=
  as_bytes idempotency_key ++ as_bytes operation_id ++ str_bytes "syouyu-receipt-1".

Section cipher.
Context `{Aead}.

Record ReceiptCipher : Type := { cipher_aead : Aes256Gcm }.

Definition ReceiptCipher_new (key : bytes) : result StoreError ReceiptCipher :=
  if negb (Nat.eqb (length key) 32)
  then Err (Configuration "receipt encryption key must be exactly 32 bytes")
  else
  c ← ok_or (Configuration "receipt encryption key is invalid") (new_from_slice key);
  Ok {| cipher_aead := c |}.

(** [getrandom::fill] overwrites a buffer of [NONCE_BYTES] zeros or fails;
    [random] is what the operating system returned. *)
Definition fill_nonce (random : option bytes) : option bytes :=
  (fun r => take NONCE_BYTES (r ++ replicate NONCE_BYTES nul)) <$> random.

Definition ReceiptCipher_encrypt (self : ReceiptCipher) (random : option bytes)
    (idempotency_key operation_id : Uuid) (plaintext : bytes)
  : result StoreError (bytes * bytes) :=
  nonce ← ok_or (Encryption "cannot generate receipt nonce") (fill_nonce random);
  ciphertext ← ok_or (Encryption "cannot encrypt operation receipt")
    (aead_encrypt (cipher_aead self) nonce plaintext (aad idempotency_key operation_id));
  Ok (nonce, ciphertext).

Definition ReceiptCipher_decrypt (self : ReceiptCipher)
    (idempotency_key operation_id : Uuid) (nonce ciphertext : bytes)
  : result StoreError bytes :=
  if negb (Nat.eqb (length nonce) NONCE_BYTES)
  then Err (CorruptData "operation receipt nonce")
  else ok_or (Encryption "cannot decrypt operation receipt")
         (aead_decrypt (cipher_aead self) nonce ciphertext (aad idempotency_key operation_id)).

Lemma fill_nonce_length random n : fill_nonce random = Some n -> length n = NONCE_BYTES.
Proof.
  unfold fill_nonce. intros (r & _ & ->)%fmap_Some.
  rewrite length_take, length_app, length_replicate. unfold NONCE_BYTES. lia.
Qed.

Lemma encrypt_decrypt `{!AeadLaws} self random k o p n c :
  ReceiptCipher_encrypt self random k o p = Ok (n, c) ->
  length n = NONCE_BYTES /\ ReceiptCipher_decrypt self k o n c = Ok p.
Proof.
  unfold ReceiptCipher_encrypt, ReceiptCipher_decrypt. intros He. open_ok.
  assert (Hn : length n = NONCE_BYTES) by (by eapply fill_nonce_length).
  split; [done|]. rewrite Hn, Nat.eqb_refl. simpl. by erewrite aead_correct.
Qed.
End cipher.

Lemma aad_length k o : length (aad k o) = 48.
Proof. unfold aad. by rewrite !length_app, !as_bytes_length. Qed.

Lemma aad_inj k o k' o' :
  (k < 2 ^ 128)%N -> (o < 2 ^ 128)%N -> (k' < 2 ^ 128)%N -> (o' < 2 ^ 128)%N ->
  aad k o = aad k' o' -> k = k' /\ o = o'.
Proof.
  intros Hk Ho Hk' Ho' He. unfold aad in He.
  apply app_inj_1 in He as [H1 He]; [|by rewrite !as_bytes_length].
  apply app_inj_1 in He as [H2 _]; [|by rewrite !as_bytes_length].
  split; by apply as_bytes_inj.
Qed.

(** ** A concrete authenticated cipher for evaluation *)

Definition sample_aead : Aead := {|
  Aes256Gcm := bytes;
  new_from_slice := fun key => Some key;
  aead_encrypt := fun key nonce msg a => if Nat.eqb (length a) 48 then Some (a ++ msg) else None;
  aead_decrypt := fun key nonce c a =>
    if Nat.eqb (length a) 48 && bool_decide (take 48 c = a) then Some (drop 48 c) else None;
|}.

Lemma sample_aead_laws : @AeadLaws sample_aead.
Proof.
  constructor; cbn; intros k n m a.
  - intros c Hc. destruct (Nat.eqb_spec (length a) 48) as [Ha|]; [|done]. simplify_eq.
    rewrite take_app_length' by done. rewrite bool_decide_eq_true_2 by done. simpl.
    by rewrite drop_app_length'.
  - intros a' c Hc Hne. destruct (Nat.eqb_spec (length a) 48) as [Ha|]; [|done]. simplify_eq.
    rewrite take_app_length' by done. rewrite bool_decide_eq_false_2 by congruence.
    by rewrite andb_false_r.
Qed.

(** ** Properties *)

Section cipher_properties.
Context `{Aead} `{!AeadLaws}.

(** C33. What [encrypt] returns decrypts, under the same idempotency key and
    operation, to the plaintext; under any other key or operation identifier
    decryption is refused with an encryption error. *)
Theorem receipt_encryption_bound self random k o k' o' p n c :
  (k < 2 ^ 128)%N -> (o < 2 ^ 128)%N -> (k' < 2 ^ 128)%N -> (o' < 2 ^ 128)%N ->
  ReceiptCipher_encrypt self random k o p = Ok (n, c) ->
  ReceiptCipher_decrypt self k' o' n c =
    if bool_decide (k' = k /\ o' = o) then Ok p
    else Err (Encryption "cannot decrypt operation receipt").
Proof.
  intros Hk Ho Hk' Ho' He. case_bool_decide as Heq.
  - destruct Heq as [-> ->]. by eapply encrypt_decrypt.
  - pose proof He as He'. apply encrypt_decrypt in He' as [Hn _].
    unfold ReceiptCipher_encrypt in He. open_ok.
    unfold ReceiptCipher_decrypt. rewrite Hn, Nat.eqb_refl. simpl.
    erewrite aead_authentic; [done|done|].
    intros Ha. apply Heq. by apply aad_inj in Ha as [-> ->].
Qed.
End cipher_properties.

Lemma receipt_encryption_bound_witness :
  @ReceiptCipher_decrypt sample_aead {| cipher_aead := [] : @Aes256Gcm sample_aead |} 5 8
    (replicate 12 nul) (aad 5 7 ++ [Byte.x61])
  = Err (Encryption "cannot decrypt operation receipt").
Proof.
  apply (@receipt_encryption_bound sample_aead sample_aead_laws
           {| cipher_aead := [] : @Aes256Gcm sample_aead |} (Some []) 5 7 5 8 [Byte.x61]);
    reflexivity.
Defined.
