(* ===== verification/Tables.v ===== *)
(** * The database: tables, constraints and transactions

    The rows of [migrations/0001_initial.sql] and
    [migrations/0002_operation_receipt_leases.sql] with the row structures of
    [crates/syouyu-store/src/lib.rs], each table a finite map on its primary
    key, the [CHECK], [UNIQUE] and [FOREIGN KEY] constraints as tests a statement
    makes before it writes, and the transaction monad: a transaction reads and
    writes a private copy of the tables, reports the locks it asked for, and
    returns either a value with the new tables or the error that rolls it back. *)

From S2P Require Import Prelude RustStr Domain Json StoreModels.

(** ** Rows *)

Record ServiceRow : Type := {
  svc_id : Uuid;
  svc_organization_id : Uuid;
  svc_project_id : Uuid;
  svc_name : string;
  svc_desired_generation : Z;
  svc_desired_spec : Value;
  svc_observed_generation : Z;
  svc_phase : string;
  svc_current_operation_id : Uuid;
  svc_last_error : option string;
  svc_created_at : DateTime;
  svc_updated_at : DateTime;
  svc_deleted_at : option DateTime;
}.

Record BucketRow : Type := {
  bkt_service_instance_id : Uuid;
  bkt_organization_id : Uuid;
  bkt_project_id : Uuid;
  bkt_physical_bucket_id : option string;
  bkt_bucket_name : string;
  bkt_region : string;
  bkt_quota_bytes : Z;
  bkt_quota_objects : Z;
  bkt_used_bytes : Z;
  bkt_used_objects : Z;
  bkt_usage_measured_at : option DateTime;
  bkt_created_at : DateTime;
  bkt_updated_at : DateTime;
}.

Record NameReservationRow : Type := {
  nam_service_instance_id : Uuid;
  nam_created_at : DateTime;
}.

Record CredentialRow : Type := {
  crd_id : Uuid;
  crd_service_instance_id : Uuid;
  crd_organization_id : Uuid;
  crd_project_id : Uuid;
  crd_principal_id : Uuid;
  crd_name : string;
  crd_garage_key_id : string;
  crd_access_key_id : string;
  crd_permissions : Value;
  crd_secret_key_fingerprint : bytes;
  crd_status : string;
  crd_created_at : DateTime;
  crd_revoked_at : option DateTime;
  crd_revoked_by : option Uuid;
}.

Record CredentialReservationRow : Type := {
  crr_credential_id : Uuid;
  crr_operation_id : Uuid;
  crr_service_instance_id : Uuid;
  crr_organization_id : Uuid;
  crr_project_id : Uuid;
  crr_name : string;
  crr_permissions : Value;
  crr_created_at : DateTime;
}.

Record ReceiptRow : Type := {
  rcp_idempotency_key : Uuid;
  rcp_operation_id : Uuid;
  rcp_organization_id : Uuid;
  rcp_project_id : Uuid;
  rcp_service_instance_id : Uuid;
  rcp_principal_id : Uuid;
  rcp_action : string;
  rcp_generation : option Z;
  rcp_request_hash : bytes;
  rcp_state : string;
  rcp_lease_attempt : Z;
  rcp_lease_expires_at : option DateTime;
  rcp_response_status : option Z;
  rcp_response_nonce : option bytes;
  rcp_response_ciphertext : option bytes;
  rcp_created_at : DateTime;
  rcp_completed_at : option DateTime;
  rcp_updated_at : DateTime;
}.

Record AuditRow : Type := {
  aud_event : AuditEvent;
  aud_created_at : DateTime;
}.

Record UsageRow : Type := {
  usg_organization_id : Uuid;
  usg_project_id : Uuid;
  usg_bytes_used : Z;
  usg_objects_used : Z;
  usg_measured_at : DateTime;
  usg_recorded_at : DateTime;
}.

(** ** The tables *)

Record Db : Type := {
  services : gmap Uuid ServiceRow;
  buckets : gmap Uuid BucketRow;
  name_reservations : gmap string NameReservationRow;
  credentials : gmap Uuid CredentialRow;
  credential_reservations : gmap Uuid CredentialReservationRow;
  receipts : gmap Uuid ReceiptRow;
  audit_events : gmap Uuid AuditRow;
  usage_snapshots : gmap Uuid UsageRow;
}.

Definition empty_db : Db := {|
  services := ∅; buckets := ∅; name_reservations := ∅; credentials := ∅;
  credential_reservations := ∅; receipts := ∅; audit_events := ∅; usage_snapshots := ∅ |}.

Definition set_services (t : gmap Uuid ServiceRow) (db : Db) : Db :=
  {| services := t; buckets := buckets db; name_reservations := name_reservations db;
     credentials := credentials db; credential_reservations := credential_reservations db;
     receipts := receipts db; audit_events := audit_events db;
     usage_snapshots := usage_snapshots db |}.
Definition set_buckets (t : gmap Uuid BucketRow) (db : Db) : Db :=
  {| services := services db; buckets := t; name_reservations := name_reservations db;
     credentials := credentials db; credential_reservations := credential_reservations db;
     receipts := receipts db; audit_events := audit_events db;
     usage_snapshots := usage_snapshots db |}.
Definition set_name_reservations (t : gmap string NameReservationRow) (db : Db) : Db :=
  {| services := services db; buckets := buckets db; name_reservations := t;
     credentials := credentials db; credential_reservations := credential_reservations db;
     receipts := receipts db; audit_events := audit_events db;
     usage_snapshots := usage_snapshots db |}.
Definition set_credentials (t : gmap Uuid CredentialRow) (db : Db) : Db :=
  {| services := services db; buckets := buckets db; name_reservations := name_reservations db;
     credentials := t; credential_reservations := credential_reservations db;
     receipts := receipts db; audit_events := audit_events db;
     usage_snapshots := usage_snapshots db |}.
Definition set_credential_reservations (t : gmap Uuid CredentialReservationRow) (db : Db) : Db :=
  {| services := services db; buckets := buckets db; name_reservations := name_reservations db;
     credentials := credentials db; credential_reservations := t;
     receipts := receipts db; audit_events := audit_events db;
     usage_snapshots := usage_snapshots db |}.
Definition set_receipts (t : gmap Uuid ReceiptRow) (db : Db) : Db :=
  {| services := services db; buckets := buckets db; name_reservations := name_reservations db;
     credentials := credentials db; credential_reservations := credential_reservations db;
     receipts := t; audit_events := audit_events db;
     usage_snapshots := usage_snapshots db |}.
Definition set_audit_events (t : gmap Uuid AuditRow) (db : Db) : Db :=
  {| services := services db; buckets := buckets db; name_reservations := name_reservations db;
     credentials := credentials db; credential_reservations := credential_reservations db;
     receipts := receipts db; audit_events := t;
     usage_snapshots := usage_snapshots db |}.
Definition set_usage_snapshots (t : gmap Uuid UsageRow) (db : Db) : Db :=
  {| services := services db; buckets := buckets db; name_reservations := name_reservations db;
     credentials := credentials db; credential_reservations := credential_reservations db;
     receipts := receipts db; audit_events := audit_events db;
     usage_snapshots := t |}.

(** ** Column constraints

    PostgreSQL stores no NUL character in a [TEXT] or [JSONB] column: the
    functions [..._text] test the columns the statements bind, [..._checks] add
    the [CHECK]s of the schema. *)

Definition between (lo hi : nat) (s : string) : bool :=
  Nat.leb lo (char_length s) && Nat.leb (char_length s) hi.

Definition service_text (r : ServiceRow) : bool :=
  no_nul (svc_name r) && no_nuls (svc_desired_spec r).

Definition service_checks (r : ServiceRow) : bool :=
  service_text r
  && between 1 120 (svc_name r)
  && (0 <? svc_desired_generation r)%Z
  && is_object (svc_desired_spec r)
  && (0 <=? svc_observed_generation r)%Z
  && is_ok (BucketPhase_from_str (svc_phase r))
  && ((String.eqb (svc_phase r) "deleted" && is_some (svc_deleted_at r))
      || (negb (String.eqb (svc_phase r) "deleted") && is_none (svc_deleted_at r))).

Definition bucket_text (r : BucketRow) : bool :=
  match bkt_physical_bucket_id r with None => true | Some id => no_nul id end
  && no_nul (bkt_bucket_name r) && no_nul (bkt_region r).

Definition bucket_checks (r : BucketRow) : bool :=
  bucket_text r
  && match bkt_physical_bucket_id r with None => true | Some id => between 1 256 id end
  && between 3 63 (bkt_bucket_name r)
  && between 1 64 (bkt_region r)
  && (0 <? bkt_quota_bytes r)%Z
  && (0 <? bkt_quota_objects r)%Z
  && (0 <=? bkt_used_bytes r)%Z
  && (0 <=? bkt_used_objects r)%Z.

Definition credential_text (r : CredentialRow) : bool :=
  no_nul (crd_name r) && no_nul (crd_garage_key_id r) && no_nul (crd_access_key_id r)
  && no_nuls (crd_permissions r).

Definition credential_checks (r : CredentialRow) : bool :=
  credential_text r
  && between 1 128 (crd_name r)
  && between 1 256 (crd_garage_key_id r)
  && between 1 256 (crd_access_key_id r)
  && is_object (crd_permissions r)
  && Nat.eqb (length (crd_secret_key_fingerprint r)) 32
  && ((String.eqb (crd_status r) "active" && is_none (crd_revoked_at r)
       && is_none (crd_revoked_by r))
      || (String.eqb (crd_status r) "revoked" && is_some (crd_revoked_at r)
          && is_some (crd_revoked_by r))).

Definition credential_reservation_text (r : CredentialReservationRow) : bool :=
  no_nul (crr_name r) && no_nuls (crr_permissions r).

Definition credential_reservation_checks (r : CredentialReservationRow) : bool :=
  credential_reservation_text r
  && between 1 128 (crr_name r) && is_object (crr_permissions r).

Definition receipt_text (r : ReceiptRow) : bool := no_nul (rcp_action r).

Definition receipt_checks (r : ReceiptRow) : bool :=
  receipt_text r
  && between 1 128 (rcp_action r)
  && Nat.eqb (length (rcp_request_hash r)) 32
  && match rcp_response_status r with None => true | Some s => (100 <=? s)%Z && (s <=? 599)%Z end
  && match rcp_response_nonce r with None => true | Some n => Nat.eqb (length n) 12 end
  && match rcp_generation r with None => true | Some g => (0 <? g)%Z end
  && ((String.eqb (rcp_state r) "in_progress" && is_none (rcp_response_status r)
       && is_none (rcp_response_nonce r) && is_none (rcp_response_ciphertext r)
       && is_none (rcp_completed_at r))
      || ((String.eqb (rcp_state r) "succeeded" || String.eqb (rcp_state r) "failed")
          && is_some (rcp_response_status r) && is_some (rcp_response_nonce r)
          && is_some (rcp_response_ciphertext r) && is_some (rcp_completed_at r)))
  && (0 <? rcp_lease_attempt r)%Z
  && ((String.eqb (rcp_state r) "in_progress" && is_some (rcp_lease_expires_at r))
      || ((String.eqb (rcp_state r) "succeeded" || String.eqb (rcp_state r) "failed")
          && is_none (rcp_lease_expires_at r))).

Definition audit_text (e : AuditEvent) : bool :=
  no_nul (ae_request_id e) && no_nul (ae_action e) && no_nul (ae_resource_type e)
  && match ae_resource_id e with None => true | Some id => no_nul id end
  && no_nuls (ae_details e).

Definition audit_checks (e : AuditEvent) : bool :=
  audit_text e
  && between 1 256 (ae_request_id e)
  && between 1 128 (ae_action e)
  && between 1 64 (ae_resource_type e)
  && (String.eqb (ae_outcome e) "allowed" || String.eqb (ae_outcome e) "denied"
      || String.eqb (ae_outcome e) "failed")
  && is_object (ae_details e).

Definition usage_checks (r : UsageRow) : bool :=
  (0 <=? usg_bytes_used r)%Z && (0 <=? usg_objects_used r)%Z.

(** The error of a row the column types or the [CHECK]s refuse: the parameters
    are decoded before any constraint is tested. *)
Definition row_error (text : bool) (table : string) : DbError :=
  if text then CheckViolation table else InvalidText.

(** The composite foreign key to [syouyu_service_instances]. *)
Definition service_scope_exists (db : Db) (service organization project : Uuid) : bool :=
  match services db !! service with
  | Some r => N.eqb (svc_organization_id r) organization && N.eqb (svc_project_id r) project
  | None => false
  end.

(** ** Transactions

    The locks a transaction takes: the three families of advisory locks and the
    rows it selects [FOR UPDATE].  Distinct keys are distinct locks. *)

Inductive LockKey : Type :=
| OperationLock (idempotency_key : Uuid)
| OrganizationCredentialsLock (organization_id : Uuid)
| ServiceLock (service_instance_id : Uuid)
| ReceiptRowLock (idempotency_key : Uuid)
| ServiceRowLock (service_instance_id : Uuid)
| BucketRowLock (service_instance_id : Uuid)
| CredentialRowLock (credential_id : Uuid)
| ReservationRowLock (operation_id : Uuid).

#[export] Instance LockKey_eq_dec : EqDecision LockKey.
Proof. solve_decision. Defined.

Definition Tx (A : Type) : Type := Db -> list LockKey * result StoreError (A * Db).

#[export] Instance Tx_ret : MRet Tx := fun A a db => ([], Ok (a, db)).
#[export] Instance Tx_bind : MBind Tx := fun A B f m db =>
  match m db with
  | (l, Ok (a, db')) => let (l', r) := f a db' in (l ++ l', r)
  | (l, Err e) => (l, Err e)
  end.

Definition fail {A : Type} (e : StoreError) : Tx A := fun db => ([], Err e).
Definition lift {A : Type} (r : result StoreError A) : Tx A := fun db =>
  ([], match r with Ok a => Ok (a, db) | Err e => Err e end).
Definition require (b : bool) (e : StoreError) : Tx unit := lift (ensure b e).
Definition take_lock (k : LockKey) : Tx unit := fun db => ([k], Ok (tt, db)).
(** [FOR UPDATE] locks the row the statement returns, if there is one. *)
Definition lock_row {A : Type} (k : LockKey) (row : option A) : Tx unit :=
  match row with Some _ => take_lock k | None => fun db => ([], Ok (tt, db)) end.
Definition gets {A : Type} (f : Db -> A) : Tx A := fun db => ([], Ok (f db, db)).
Definition modify (f : Db -> Db) : Tx unit := fun db => ([], Ok (tt, f db)).

Definition tx_locks {A : Type} (m : Tx A) (db : Db) : list LockKey := (m db).1.
Definition tx_result {A : Type} (m : Tx A) (db : Db) : result StoreError (A * Db) := (m db).2.

(** What can happen to a transaction besides its own result: the connection or
    the server may fail it before the commit, or the commit may succeed while its
    acknowledgement is lost. *)
Inductive Fault : Type := NoFault | FailedBeforeCommit | CommitAckLost.

(** [pool.begin() ... commit()]: an error drops the [Transaction], which rolls
    it back. *)
Definition transaction {A : Type} (fault : Fault) (m : Tx A) (db : Db)
  : result StoreError A * Db :=
  match fault, tx_result m db with
  | FailedBeforeCommit, _ => (Err (Database OtherDbError), db)
  | _, Err e => (Err e, db)
  | NoFault, Ok (a, db') => (Ok a, db')
  | CommitAckLost, Ok (_, db') => (Err (Database OtherDbError), db')
  end.

(** What a transaction reads from its surroundings: PostgreSQL's transaction
    time [now()] and wall clock [clock_timestamp()], the UUIDs it generates with
    [Uuid::now_v7], and the random bytes of [getrandom]. *)
Record Env : Type := {
  env_now : DateTime;
  env_clock : DateTime;
  env_operation_id : Uuid;
  env_credential_id : Uuid;
  env_audit_id : Uuid;
  env_random : option bytes;
}.

(** ** Reasoning about transactions *)

Lemma tx_result_bind {A B : Type} (m : Tx A) (f : A -> Tx B) db :
  tx_result (m ≫= f) db =
  match tx_result m db with
  | Ok (a, db') => tx_result (f a) db'
  | Err e => Err e
  end.
Proof.
  unfold tx_result, mbind, Tx_bind. destruct (m db) as [l [[a db']|e]]; simpl; [|done].
  by destruct (f a db').
Qed.

Lemma tx_bind_Ok {A B : Type} (m : Tx A) (f : A -> Tx B) db b db'' :
  tx_result (m ≫= f) db = Ok (b, db'') <->
  exists a db', tx_result m db = Ok (a, db') /\ tx_result (f a) db' = Ok (b, db'').
Proof.
  rewrite tx_result_bind. destruct (tx_result m db) as [[a db']|e]; crush.
Qed.

Lemma tx_ret_Ok {A : Type} (a b : A) db db' :
  tx_result (mret a) db = Ok (b, db') <-> a = b /\ db = db'.
Proof. unfold tx_result, mret, Tx_ret. crush. Qed.

Lemma tx_fail_Ok {A : Type} e (b : A) db db' : tx_result (fail e) db = Ok (b, db') <-> False.
Proof. unfold tx_result, fail. crush. Qed.

Lemma tx_lift_Ok {A : Type} (r : result StoreError A) b db db' :
  tx_result (lift r) db = Ok (b, db') <-> r = Ok b /\ db = db'.
Proof. unfold tx_result, lift. destruct r; crush. Qed.

Lemma tx_require_Ok c e u db db' :
  tx_result (require c e) db = Ok (u, db') <-> c = true /\ db = db'.
Proof. unfold require. rewrite tx_lift_Ok, ensure_Ok. done. Qed.

Lemma tx_lock_Ok k u db db' : tx_result (take_lock k) db = Ok (u, db') <-> db = db'.
Proof. unfold tx_result, take_lock. destruct u. crush. Qed.

Lemma tx_lock_row_Ok {A : Type} k (row : option A) u db db' :
  tx_result (lock_row k row) db = Ok (u, db') <-> db = db'.
Proof. destruct row; [apply tx_lock_Ok|]. unfold tx_result, lock_row. destruct u. crush. Qed.

Lemma tx_gets_Ok {A : Type} (f : Db -> A) b db db' :
  tx_result (gets f) db = Ok (b, db') <-> f db = b /\ db = db'.
Proof. unfold tx_result, gets. crush. Qed.

Lemma tx_modify_Ok f u db db' : tx_result (modify f) db = Ok (u, db') <-> f db = db'.
Proof. unfold tx_result, modify. destruct u. crush. Qed.

Create Rewrite HintDb tx.
#[export] Hint Rewrite @tx_bind_Ok @tx_ret_Ok @tx_fail_Ok @tx_lift_Ok tx_require_Ok tx_lock_Ok
  @tx_lock_row_Ok  @tx_gets_Ok tx_modify_Ok : tx.

(** Open a hypothesis that a transaction returned [Ok], one statement at a time. *)
Ltac open_tx :=
  repeat (progress (autorewrite with tx in *; destruct_and?; destruct_exists; simplify_eq)).

Lemma transaction_Ok {A : Type} fault (m : Tx A) db a db' :
  transaction fault m db = (Ok a, db') -> tx_result m db = Ok (a, db').
Proof. unfold transaction. destruct fault, (tx_result m db) as [[]|]; intros; by simplify_eq. Qed.

(** Whatever happens, the tables after a transaction are those before it or
    those its body committed. *)
Lemma transaction_state {A : Type} fault (m : Tx A) db r db' :
  transaction fault m db = (r, db') ->
  db' = db \/ exists a, tx_result m db = Ok (a, db').
Proof.
  unfold transaction. destruct fault, (tx_result m db) as [[]|]; intros; simplify_eq; eauto.
Qed.
