(* ===== verification/Receipts.v ===== *)
(** * Operation receipts: idempotency, leases and fencing

    The receipt half of [crates/syouyu-store/src/lib.rs]: [claim_existing_receipt],
    [reserve_receipt], [require_in_progress_receipt], [reject_parallel_operation],
    [finish_receipt], [decode_receipt] and [renew_operation], with the helpers
    [insert_audit], [advisory_lock], [lock_service] and [map_database_error]. *)

From S2P Require Import Prelude RustStr Domain Json StoreModels Cipher Tables.

Definition OPERATION_LEASE_SECONDS : Z := 120.
Definition in_progress : string := "in_progress".
Definition in_progressb (r : ReceiptRow) : bool := String.eqb (rcp_state r) in_progress.

Inductive ReceiptClaim : Type :=
| ClaimNew
| ClaimTakenOver (operation_id : Uuid)
| ClaimPrepared (prepared : Prepare unit).

(** [Prepare::map_context]; [unreachable!] on [Execute], which
    [claim_existing_receipt] never returns ([claim_prepared_cases]). *)
Definition map_context {T U : Type} (self : Prepare T) : option (Prepare U) :=
  match self with
  | Replay response => Some (Replay response)
  | InProgress operation_id => Some (InProgress operation_id)
  | Execute _ _ => None
  end.

Definition ReceiptRow_matches (self : ReceiptRow) (operation : OperationRequest) : bool :=
  N.eqb (rcp_organization_id self) (op_organization_id operation)
  && N.eqb (rcp_project_id self) (op_project_id operation)
  && N.eqb (rcp_service_instance_id self) (op_service_instance_id operation)
  && N.eqb (rcp_principal_id self) (op_principal_id operation)
  && String.eqb (rcp_action self) (op_action operation)
  && bool_decide (rcp_generation self = op_generation operation)
  && bool_decide (rcp_request_hash self = op_request_hash operation).

(** The columns [require_in_progress_receipt] selects. *)
Record ReceiptIdentityRow : Type := {
  rid_operation_id : Uuid;
  rid_organization_id : Uuid;
  rid_project_id : Uuid;
  rid_service_instance_id : Uuid;
  rid_principal_id : Uuid;
  rid_action : string;
  rid_generation : option Z;
  rid_request_hash : bytes;
  rid_state : string;
}.

Definition select_identity (r : ReceiptRow) : ReceiptIdentityRow := {|
  rid_operation_id := rcp_operation_id r;
  rid_organization_id := rcp_organization_id r;
  rid_project_id := rcp_project_id r;
  rid_service_instance_id := rcp_service_instance_id r;
  rid_principal_id := rcp_principal_id r;
  rid_action := rcp_action r;
  rid_generation := rcp_generation r;
  rid_request_hash := rcp_request_hash r;
  rid_state := rcp_state r;
|}.

Definition ReceiptIdentityRow_matches (self : ReceiptIdentityRow) (operation : OperationRequest)
  : bool :=
  N.eqb (rid_organization_id self) (op_organization_id operation)
  && N.eqb (rid_project_id self) (op_project_id operation)
  && N.eqb (rid_service_instance_id self) (op_service_instance_id operation)
  && N.eqb (rid_principal_id self) (op_principal_id operation)
  && String.eqb (rid_action self) (op_action operation)
  && bool_decide (rid_generation self = op_generation operation)
  && bool_decide (rid_request_hash self = op_request_hash operation).

(** ** Locks and errors *)

Definition advisory_lock (key : LockKey) : Tx unit := take_lock key.
Definition lock_service (service_instance_id : Uuid) : Tx unit :=
  advisory_lock (ServiceLock service_instance_id).

Definition map_database_error (e : DbError) : StoreError :=
  match e with
  | UniqueViolation _ => Conflict "resource already exists"
  | _ => Database e
  end.

(** A constraint the database enforces: the plain [?] keeps the error, the
    statements with [.map_err(map_database_error)] translate it. *)
Definition constraint (b : bool) (e : DbError) : Tx unit := require b (Database e).
Definition constraint_mapped (b : bool) (e : DbError) : Tx unit := require b (map_database_error e).

(** ** Reading receipts *)

Definition select_receipt_for_update (key : Uuid) : Tx (option ReceiptRow) :=
  row ← gets (fun db => receipts db !! key);
  _ ← lock_row (ReceiptRowLock key) row;
  mret row.

Definition lease_deadline (env : Env) : DateTime :=
  (env_clock env + OPERATION_LEASE_SECONDS * second)%Z.

(** The row after [claim_existing_receipt]'s UPDATE. *)
Definition claimed_row (env : Env) (r : ReceiptRow) : ReceiptRow := {|
  rcp_idempotency_key := rcp_idempotency_key r;
  rcp_operation_id := env_operation_id env;
  rcp_organization_id := rcp_organization_id r;
  rcp_project_id := rcp_project_id r;
  rcp_service_instance_id := rcp_service_instance_id r;
  rcp_principal_id := rcp_principal_id r;
  rcp_action := rcp_action r;
  rcp_generation := rcp_generation r;
  rcp_request_hash := rcp_request_hash r;
  rcp_state := rcp_state r;
  rcp_lease_attempt := (rcp_lease_attempt r + 1)%Z;
  rcp_lease_expires_at := Some (lease_deadline env);
  rcp_response_status := rcp_response_status r;
  rcp_response_nonce := rcp_response_nonce r;
  rcp_response_ciphertext := rcp_response_ciphertext r;
  rcp_created_at := rcp_created_at r;
  rcp_completed_at := rcp_completed_at r;
  rcp_updated_at := env_now env;
|}.

(** The condition of that UPDATE on the row it finds. *)
Definition claimable (env : Env) (operation_id : Uuid) (r : ReceiptRow) : bool :=
  N.eqb (rcp_operation_id r) operation_id
  && in_progressb r
  && match rcp_lease_expires_at r with
     | Some t => (t <=? env_clock env)%Z
     | None => false
     end.

(** Another receipt already has this operation ID ([UNIQUE (operation_id)]). *)
Definition operation_id_taken (key operation_id : Uuid) (t : gmap Uuid ReceiptRow) : bool :=
  map_existsb (fun k r => negb (N.eqb k key) && N.eqb (rcp_operation_id r) operation_id) t.

Definition update_claim (env : Env) (key operation_id : Uuid) : Tx nat :=
  row ← gets (fun db => receipts db !! key);
  match row with
  | Some r =>
      if claimable env operation_id r then
        _ ← constraint (rcp_lease_attempt r <? i64_max)%Z NumericOverflow;
        taken ← gets (fun db => operation_id_taken key (env_operation_id env) (receipts db));
        _ ← constraint (negb taken) (UniqueViolation "operation_id");
        _ ← modify (fun db => set_receipts (<[key := claimed_row env r]> (receipts db)) db);
        mret 1
      else mret 0
  | None => mret 0
  end.

Definition reservation_with_operation (operation_id : Uuid) (r : CredentialReservationRow)
  : CredentialReservationRow := {|
  crr_credential_id := crr_credential_id r;
  crr_operation_id := operation_id;
  crr_service_instance_id := crr_service_instance_id r;
  crr_organization_id := crr_organization_id r;
  crr_project_id := crr_project_id r;
  crr_name := crr_name r;
  crr_permissions := crr_permissions r;
  crr_created_at := crr_created_at r;
|}.

Definition has_operation (operation_id : Uuid) (r : CredentialReservationRow) : bool :=
  N.eqb (crr_operation_id r) operation_id.

(** [UPDATE syouyu_credential_reservations SET operation_id = new WHERE operation_id = old]. *)
Definition move_reservations (old new : Uuid) (t : gmap Uuid CredentialReservationRow)
  : gmap Uuid CredentialReservationRow :=
  map_update_where (has_operation old) (reservation_with_operation new) t.

Definition update_reservation_operation (old new : Uuid) : Tx unit :=
  t ← gets credential_reservations;
  let t' := move_reservations old new t in
  _ ← constraint (Nat.eqb (map_countb (has_operation old) t) 0
                  || Nat.leb (map_countb (has_operation new) t') 1)
        (UniqueViolation "operation_id");
  modify (set_credential_reservations t').

Section receipts.
Context `{SerdeJson} `{Aead}.

Record PgStore : Type := {
  receipt_cipher : ReceiptCipher;
  credential_limits : CredentialLimits;
}.

(** [PgStore::from_pool]. *)
Definition PgStore_from_pool (receipt_encryption_key : bytes) (limits : CredentialLimits)
  : result StoreError PgStore :=
  c ← ReceiptCipher_new receipt_encryption_key;
  l ← CredentialLimits_validate limits;
  Ok {| receipt_cipher := c; credential_limits := l |}.

Definition decode_receipt (self : PgStore) (row : ReceiptRow)
  : result StoreError StoredHttpResponse :=
  status ← ok_or (CorruptData "operation response status")
             (rcp_response_status row ≫= u16_try_from_i32);
  nonce ← ok_or (CorruptData "operation response nonce") (rcp_response_nonce row);
  ciphertext ← ok_or (CorruptData "operation response ciphertext") (rcp_response_ciphertext row);
  plaintext ← ReceiptCipher_decrypt (receipt_cipher self) (rcp_idempotency_key row)
                (rcp_operation_id row) nonce ciphertext;
  body ← ok_or (CorruptData "operation response JSON") (from_slice plaintext);
  Ok {| resp_status := status; resp_body := body;
        resp_failed := String.eqb (rcp_state row) "failed" |}.

Definition claim_existing_receipt (self : PgStore) (env : Env) (operation : OperationRequest)
  : Tx ReceiptClaim :=
  row ← select_receipt_for_update (op_idempotency_key operation);
  match row with
  | None => mret ClaimNew
  | Some row =>
      if negb (ReceiptRow_matches row operation) then fail IdempotencyConflict
      else if in_progressb row then
        if is_none (rcp_lease_expires_at row)
        then fail (CorruptData "operation receipt lease")
        else
        claimed ← update_claim env (op_idempotency_key operation) (rcp_operation_id row);
        if Nat.eqb claimed 0
        then mret (ClaimPrepared (InProgress (rcp_operation_id row)))
        else
        _ ← update_reservation_operation (rcp_operation_id row) (env_operation_id env);
        mret (ClaimTakenOver (env_operation_id env))
      else
        response ← lift (decode_receipt self row);
        mret (ClaimPrepared (Replay response))
  end.

(** ** Writing receipts *)

(** The row [reserve_receipt] inserts, with the column defaults. *)
Definition reserved_row (env : Env) (o : OperationRequest) : ReceiptRow := {|
  rcp_idempotency_key := op_idempotency_key o;
  rcp_operation_id := env_operation_id env;
  rcp_organization_id := op_organization_id o;
  rcp_project_id := op_project_id o;
  rcp_service_instance_id := op_service_instance_id o;
  rcp_principal_id := op_principal_id o;
  rcp_action := op_action o;
  rcp_generation := op_generation o;
  rcp_request_hash := op_request_hash o;
  rcp_state := in_progress;
  rcp_lease_attempt := 1;
  rcp_lease_expires_at := Some (lease_deadline env);
  rcp_response_status := None;
  rcp_response_nonce := None;
  rcp_response_ciphertext := None;
  rcp_created_at := env_now env;
  rcp_completed_at := None;
  rcp_updated_at := env_now env;
|}.

Definition reserve_receipt (env : Env) (operation : OperationRequest) : Tx Uuid :=
  let row := reserved_row env operation in
  let key := op_idempotency_key operation in
  _ ← constraint_mapped (receipt_checks row)
        (row_error (receipt_text row) "syouyu_operation_receipts");
  existing ← gets (fun db => receipts db !! key);
  _ ← constraint_mapped (is_none existing) (UniqueViolation "idempotency_key");
  taken ← gets (fun db => operation_id_taken key (env_operation_id env) (receipts db));
  _ ← constraint_mapped (negb taken) (UniqueViolation "operation_id");
  _ ← modify (fun db => set_receipts (<[key := row]> (receipts db)) db);
  mret (env_operation_id env).

Definition require_in_progress_receipt (operation : OperationRequest) (operation_id : Uuid)
  : Tx unit :=
  found ← select_receipt_for_update (op_idempotency_key operation);
  row ← lift (ok_or (CorruptData "operation receipt") (select_identity <$> found));
  if negb (ReceiptIdentityRow_matches row operation) then fail IdempotencyConflict
  else if negb (N.eqb (rid_operation_id row) operation_id)
  then fail (OperationLeaseLost (rid_operation_id row))
  else if negb (String.eqb (rid_state row) in_progress)
  then fail (Conflict "operation is already complete")
  else mret tt.

Definition parallel_receipt (service key : Uuid) (k : Uuid) (r : ReceiptRow) : bool :=
  N.eqb (rcp_service_instance_id r) service && in_progressb r && negb (N.eqb k key).

Definition reject_parallel_operation (service_instance_id idempotency_key : Uuid) : Tx unit :=
  rows ← gets (fun db =>
    List.filter (fun kr => parallel_receipt service_instance_id idempotency_key kr.1 kr.2)
      (map_to_list (receipts db)));
  match order_by (fun a b => (rcp_created_at a.2 <=? rcp_created_at b.2)%Z) rows with
  | (_, r) :: _ => fail (OperationInProgress (rcp_operation_id r))
  | [] => mret tt
  end.

Definition finished_row (env : Env) (state : string) (status : Z) (nonce ciphertext : bytes)
    (r : ReceiptRow) : ReceiptRow := {|
  rcp_idempotency_key := rcp_idempotency_key r;
  rcp_operation_id := rcp_operation_id r;
  rcp_organization_id := rcp_organization_id r;
  rcp_project_id := rcp_project_id r;
  rcp_service_instance_id := rcp_service_instance_id r;
  rcp_principal_id := rcp_principal_id r;
  rcp_action := rcp_action r;
  rcp_generation := rcp_generation r;
  rcp_request_hash := rcp_request_hash r;
  rcp_state := state;
  rcp_lease_attempt := rcp_lease_attempt r;
  rcp_lease_expires_at := None;
  rcp_response_status := Some status;
  rcp_response_nonce := Some nonce;
  rcp_response_ciphertext := Some ciphertext;
  rcp_created_at := rcp_created_at r;
  rcp_completed_at := Some (env_now env);
  rcp_updated_at := env_now env;
|}.

Definition update_finish (env : Env) (key operation_id : Uuid) (state : string) (status : Z)
    (nonce ciphertext : bytes) : Tx nat :=
  row ← gets (fun db => receipts db !! key);
  match row with
  | Some r =>
      if N.eqb (rcp_operation_id r) operation_id && in_progressb r then
        let r' := finished_row env state status nonce ciphertext r in
        _ ← constraint (receipt_checks r') (CheckViolation "syouyu_operation_receipts");
        _ ← modify (fun db => set_receipts (<[key := r']> (receipts db)) db);
        mret 1
      else mret 0
  | None => mret 0
  end.

Definition finish_receipt (self : PgStore) (env : Env) (operation : OperationRequest)
    (operation_id : Uuid) (response : StoredHttpResponse) : Tx unit :=
  found ← select_receipt_for_update (op_idempotency_key operation);
  row ← lift (ok_or (CorruptData "operation receipt") found);
  if negb (ReceiptRow_matches row operation) then fail IdempotencyConflict
  else if negb (N.eqb (rcp_operation_id row) operation_id)
  then fail (OperationLeaseLost (rcp_operation_id row))
  else if negb (in_progressb row) then
    stored ← lift (decode_receipt self row);
    if bool_decide (stored = response) then mret tt
    else fail (Conflict "operation receipt already has a different result")
  else
  plaintext ← lift (ok_or (CorruptData "operation response serialization")
                      (to_vec (resp_body response)));
  nc ← lift (ReceiptCipher_encrypt (receipt_cipher self) (env_random env)
               (op_idempotency_key operation) operation_id plaintext);
  let state := if resp_failed response then "failed" else "succeeded" in
  updated ← update_finish env (op_idempotency_key operation) operation_id state
              (resp_status response) nc.1 nc.2;
  if negb (Nat.eqb updated 1) then fail (OperationLeaseLost (rcp_operation_id row))
  else mret tt.

Definition renewed_row (env : Env) (r : ReceiptRow) : ReceiptRow := {|
  rcp_idempotency_key := rcp_idempotency_key r;
  rcp_operation_id := rcp_operation_id r;
  rcp_organization_id := rcp_organization_id r;
  rcp_project_id := rcp_project_id r;
  rcp_service_instance_id := rcp_service_instance_id r;
  rcp_principal_id := rcp_principal_id r;
  rcp_action := rcp_action r;
  rcp_generation := rcp_generation r;
  rcp_request_hash := rcp_request_hash r;
  rcp_state := rcp_state r;
  rcp_lease_attempt := rcp_lease_attempt r;
  rcp_lease_expires_at := Some (lease_deadline env);
  rcp_response_status := rcp_response_status r;
  rcp_response_nonce := rcp_response_nonce r;
  rcp_response_ciphertext := rcp_response_ciphertext r;
  rcp_created_at := rcp_created_at r;
  rcp_completed_at := rcp_completed_at r;
  rcp_updated_at := env_now env;
|}.

Definition update_lease (env : Env) (key operation_id : Uuid) : Tx nat :=
  row ← gets (fun db => receipts db !! key);
  match row with
  | Some r =>
      if N.eqb (rcp_operation_id r) operation_id && in_progressb r then
        _ ← modify (fun db => set_receipts (<[key := renewed_row env r]> (receipts db)) db);
        mret 1
      else mret 0
  | None => mret 0
  end.

(** The body of [renew_operation]'s transaction. *)
Definition renew_operation_tx (env : Env) (operation : OperationRequest) (operation_id : Uuid)
  : Tx unit :=
  _ ← advisory_lock (OperationLock (op_idempotency_key operation));
  _ ← require_in_progress_receipt operation operation_id;
  renewed ← update_lease env (op_idempotency_key operation) operation_id;
  if negb (Nat.eqb renewed 1) then fail (OperationLeaseLost operation_id) else mret tt.

(** ** Audit events *)

Definition audit_valid (audit : AuditEvent) : bool :=
  negb (str_is_empty (ae_request_id audit)
        || Nat.ltb 256 (str_len (ae_request_id audit))
        || str_is_empty (ae_action audit)
        || Nat.ltb 128 (str_len (ae_action audit))
        || str_is_empty (ae_resource_type audit)
        || Nat.ltb 64 (str_len (ae_resource_type audit))
        || negb (String.eqb (ae_outcome audit) "allowed"
                 || String.eqb (ae_outcome audit) "denied"
                 || String.eqb (ae_outcome audit) "failed")
        || negb (is_object (ae_details audit))).

Definition insert_audit (env : Env) (audit : AuditEvent) : Tx unit :=
  _ ← require (audit_valid audit) (Validation "audit event is invalid");
  _ ← constraint (audit_checks audit) (row_error (audit_text audit) "syouyu_audit_events");
  existing ← gets (fun db => audit_events db !! env_audit_id env);
  _ ← constraint (is_none existing) (UniqueViolation "syouyu_audit_events_pkey");
  modify (fun db => set_audit_events
    (<[env_audit_id env := {| aud_event := audit; aud_created_at := env_now env |}]>
       (audit_events db)) db).
End receipts.
