(* ===== verification/ReceiptLemmas.v ===== *)
(** * What the receipt operations do

    For each operation of [Receipts], the outcomes of a successful run: which row
    it found, what it checked, and the tables it leaves.  The transactions of
    [Store] are analysed through these lemmas only. *)

From S2P Require Import Prelude RustStr Domain Json StoreModels Cipher Tables Receipts.

Lemma ReceiptRow_matches_spec r o :
  ReceiptRow_matches r o = true <->
  rcp_organization_id r = op_organization_id o /\ rcp_project_id r = op_project_id o /\
  rcp_service_instance_id r = op_service_instance_id o /\
  rcp_principal_id r = op_principal_id o /\ rcp_action r = op_action o /\
  rcp_generation r = op_generation o /\ rcp_request_hash r = op_request_hash o.
Proof. unfold ReceiptRow_matches. reflect. tauto. Qed.

Lemma identity_matches r o :
  ReceiptIdentityRow_matches (select_identity r) o = ReceiptRow_matches r o.
Proof. done. Qed.

Lemma matches_claimed env r o : ReceiptRow_matches (claimed_row env r) o = ReceiptRow_matches r o.
Proof. done. Qed.

Lemma in_progressb_spec r : in_progressb r = true <-> rcp_state r = in_progress.
Proof. unfold in_progressb. apply String.eqb_eq. Qed.

Lemma operation_id_taken_false key o t :
  operation_id_taken key o t = false <->
  forall k r, t !! k = Some r -> rcp_operation_id r = o -> k = key.
Proof.
  unfold operation_id_taken. rewrite map_existsb_false. split; intros Ht k r Hk.
  - intros Ho. specialize (Ht k r Hk). rewrite Ho, N.eqb_refl, andb_true_r in Ht.
    by destruct (N.eqb_spec k key).
  - destruct (N.eqb_spec (rcp_operation_id r) o); [|by rewrite andb_false_r].
    rewrite (Ht k r) by done. by rewrite N.eqb_refl.
Qed.

(** A boolean test in the scrutinee of a transaction. *)
Lemma tx_if_Ok {A : Type} (c : bool) (m n : Tx A) db b db' :
  tx_result (if c then m else n) db = Ok (b, db') <->
  (c = true /\ tx_result m db = Ok (b, db')) \/ (c = false /\ tx_result n db = Ok (b, db')).
Proof. destruct c; naive_solver. Qed.

Lemma tx_constraint_Ok c e u db db' :
  tx_result (constraint c e) db = Ok (u, db') <-> c = true /\ db = db'.
Proof. unfold constraint. apply tx_require_Ok. Qed.

Lemma tx_constraint_mapped_Ok c e u db db' :
  tx_result (constraint_mapped c e) db = Ok (u, db') <-> c = true /\ db = db'.
Proof. unfold constraint_mapped. apply tx_require_Ok. Qed.

Lemma tx_advisory_Ok k u db db' : tx_result (advisory_lock k) db = Ok (u, db') <-> db = db'.
Proof. apply tx_lock_Ok. Qed.

Lemma tx_lock_service_Ok k u db db' : tx_result (lock_service k) db = Ok (u, db') <-> db = db'.
Proof. apply tx_lock_Ok. Qed.

Lemma tx_select_receipt_Ok key o db db' :
  tx_result (select_receipt_for_update key) db = Ok (o, db') <->
  receipts db !! key = o /\ db = db'.
Proof.
  unfold select_receipt_for_update. rewrite tx_result_bind. cbn [gets tx_result snd].
  rewrite tx_result_bind. destruct (receipts db !! key); simpl; rewrite tx_ret_Ok; naive_solver.
Qed.

#[export] Hint Rewrite @tx_if_Ok tx_constraint_Ok tx_constraint_mapped_Ok tx_advisory_Ok
  tx_lock_service_Ok tx_select_receipt_Ok : tx.
#[export] Hint Rewrite @ok_or_Ok negb_true_iff negb_false_iff N.eqb_eq N.eqb_neq Nat.eqb_eq
  Nat.eqb_neq String.eqb_eq String.eqb_neq bool_decide_eq_true bool_decide_eq_false : tx.

(** Open a successful run completely, splitting its branches. *)
Ltac run_tx :=
  repeat (progress (autorewrite with tx in *; destruct_and?; destruct_or?; destruct_exists;
                    simplify_eq)).

(** The tables after a lease was taken over. *)
Definition takeover_db (env : Env) (key : Uuid) (row : ReceiptRow) (db : Db) : Db :=
  set_credential_reservations
    (move_reservations (rcp_operation_id row) (env_operation_id env) (credential_reservations db))
    (set_receipts (<[key := claimed_row env row]> (receipts db)) db).

Section outcomes.
Context `{SerdeJson} `{Aead}.

Inductive claim_outcome (self : PgStore) (env : Env) (o : OperationRequest) (db : Db)
  : ReceiptClaim -> Db -> Prop :=
| claim_new :
    receipts db !! op_idempotency_key o = None ->
    claim_outcome self env o db ClaimNew db
| claim_taken_over row t :
    receipts db !! op_idempotency_key o = Some row ->
    ReceiptRow_matches row o = true ->
    rcp_state row = in_progress ->
    rcp_lease_expires_at row = Some t -> (t <= env_clock env)%Z ->
    (rcp_lease_attempt row < i64_max)%Z ->
    operation_id_taken (op_idempotency_key o) (env_operation_id env) (receipts db) = false ->
    map_countb (has_operation (rcp_operation_id row)) (credential_reservations db) = 0 \/
    map_countb (has_operation (env_operation_id env))
      (move_reservations (rcp_operation_id row) (env_operation_id env)
         (credential_reservations db)) <= 1 ->
    claim_outcome self env o db (ClaimTakenOver (env_operation_id env))
      (takeover_db env (op_idempotency_key o) row db)
| claim_busy row t :
    receipts db !! op_idempotency_key o = Some row ->
    ReceiptRow_matches row o = true ->
    rcp_state row = in_progress ->
    rcp_lease_expires_at row = Some t -> (env_clock env < t)%Z ->
    claim_outcome self env o db (ClaimPrepared (InProgress (rcp_operation_id row))) db
| claim_replayed row response :
    receipts db !! op_idempotency_key o = Some row ->
    ReceiptRow_matches row o = true ->
    rcp_state row <> in_progress ->
    decode_receipt self row = Ok response ->
    claim_outcome self env o db (ClaimPrepared (Replay response)) db.

Lemma update_claim_Ok env key oid db n db' :
  tx_result (update_claim env key oid) db = Ok (n, db') ->
  (n = 0 /\ db' = db /\ forall r, receipts db !! key = Some r -> claimable env oid r = false) \/
  (exists r, n = 1 /\ receipts db !! key = Some r /\ claimable env oid r = true /\
     (rcp_lease_attempt r < i64_max)%Z /\
     operation_id_taken key (env_operation_id env) (receipts db) = false /\
     db' = set_receipts (<[key := claimed_row env r]> (receipts db)) db).
Proof.
  unfold update_claim. intros Hrun. rewrite tx_bind_Ok in Hrun.
  destruct Hrun as (row & db1 & Hrow & Hrun).
  apply tx_gets_Ok in Hrow as [<- <-].
  destruct (receipts db !! key) as [r|] eqn:Hr; run_tx.
  - right. exists r. rewrite Z.ltb_lt in *. eauto 10.
  - left. split; [done|]. split; [done|]. intros r' Hr'. by simplify_eq.
  - left. split; [done|]. split; [done|]. intros r' Hr'. by simplify_eq.
Qed.

Lemma claim_existing_receipt_Ok self env o db c db' :
  tx_result (claim_existing_receipt self env o) db = Ok (c, db') ->
  claim_outcome self env o db c db'.
Proof.
  unfold claim_existing_receipt. intros Hrun. rewrite tx_bind_Ok in Hrun.
  destruct Hrun as (found & db1 & Hsel & Hrun).
  apply tx_select_receipt_Ok in Hsel as [<- <-].
  destruct (receipts db !! op_idempotency_key o) as [row|] eqn:Hrow; [|run_tx; by constructor].
  destruct (ReceiptRow_matches row o) eqn:Hm; cbn [negb] in Hrun; [|run_tx].
  destruct (in_progressb row) eqn:Hp.
  2:{ run_tx. eapply claim_replayed; [done..| |done].
      intros Hs. apply in_progressb_spec in Hs. congruence. }
  pose proof (proj1 (in_progressb_spec row) Hp) as Hstate.
  destruct (rcp_lease_expires_at row) as [t|] eqn:Ht; cbn in Hrun; [|run_tx].
  rewrite tx_bind_Ok in Hrun. destruct Hrun as (n & db2 & Hup & Hrun).
  assert (Hc : claimable env (rcp_operation_id row) row = (t <=? env_clock env)%Z).
  { unfold claimable. by rewrite N.eqb_refl, Hp, Ht. }
  apply update_claim_Ok in Hup as [(-> & -> & Hno)|(r & -> & Hr & Hyes & Hatt & Hop & ->)].
  - run_tx. specialize (Hno row Hrow). rewrite Hc in Hno.
    eapply claim_busy; eauto. lia.
  - simplify_eq. rewrite Hyes in Hc. cbn [Nat.eqb] in Hrun. unfold update_reservation_operation in Hrun.
    run_tx. change (set_credential_reservations _ _)
              with (takeover_db env (op_idempotency_key o) row db).
    eapply claim_taken_over; eauto; [lia|].
    rename select (_ || _ = true) into Hcount. by rewrite orb_true_iff, Nat.eqb_eq, Nat.leb_le in Hcount.
Qed.

(** [claim_existing_receipt] never asks the caller to execute, so
    [map_context]'s [unreachable!] is not reached. *)
Lemma claim_prepared_cases self env o db p db' :
  claim_outcome self env o db (ClaimPrepared p) db' ->
  exists q : Prepare unit, @map_context unit unit p = Some q.
Proof. intros Hc. inversion Hc; subst; simpl; eauto. Qed.

Lemma require_in_progress_receipt_Ok o oid db u db' :
  tx_result (require_in_progress_receipt o oid) db = Ok (u, db') ->
  db' = db /\ exists row, receipts db !! op_idempotency_key o = Some row /\
    ReceiptRow_matches row o = true /\ rcp_operation_id row = oid /\
    rcp_state row = in_progress.
Proof.
  unfold require_in_progress_receipt. intros Hrun. rewrite tx_bind_Ok in Hrun.
  destruct Hrun as (found & db1 & Hsel & Hrun).
  apply tx_select_receipt_Ok in Hsel as [<- <-].
  destruct (receipts db !! op_idempotency_key o) as [row|] eqn:Hrow; [|by run_tx].
  cbn in Hrun. rewrite tx_bind_Ok in Hrun. destruct Hrun as (rid & db2 & Hrid & Hrun). run_tx.
  rewrite identity_matches in *. split; [done|]. exists row. eauto.
Qed.

Lemma reject_parallel_operation_Ok service key db u db' :
  tx_result (reject_parallel_operation service key) db = Ok (u, db') ->
  db' = db /\ forall k r, receipts db !! k = Some r -> rcp_service_instance_id r = service ->
    rcp_state r = in_progress -> k = key.
Proof.
  unfold reject_parallel_operation. intros Hrun. rewrite tx_bind_Ok in Hrun.
  destruct Hrun as (rows & db1 & Hrows & Hrun). rewrite tx_gets_Ok in Hrows.
  destruct Hrows as [Hrows <-].
  pose proof (order_by_perm (fun a b => (rcp_created_at a.2 <=? rcp_created_at b.2)%Z) rows)
    as Hperm.
  destruct (order_by _ rows) as [|[k0 r0] rest]; [|by run_tx].
  apply tx_ret_Ok in Hrun as [_ <-]. split; [done|].
  apply Permutation_nil_l in Hperm. intros k r Hk Hs Hst.
  destruct (N.eqb_spec k key) as [|Hne]; [done|]. exfalso.
  assert (Hin : List.In (k, r) (List.filter
     (fun kr => parallel_receipt service key kr.1 kr.2) (map_to_list (receipts db)))).
  { apply filter_In. split; [by apply list_elem_of_In, elem_of_map_to_list|].
    unfold parallel_receipt. simpl. rewrite (proj2 (in_progressb_spec r)) by done.
    rewrite (proj2 (N.eqb_eq _ _)) by done. rewrite (proj2 (N.eqb_neq _ _)) by done. done. }
  rewrite Hrows, <- Hperm in Hin. exact Hin.
Qed.

Lemma reserve_receipt_Ok env o db oid db' :
  tx_result (reserve_receipt env o) db = Ok (oid, db') ->
  oid = env_operation_id env /\
  receipt_checks (reserved_row env o) = true /\
  receipts db !! op_idempotency_key o = None /\
  operation_id_taken (op_idempotency_key o) oid (receipts db) = false /\
  db' = set_receipts (<[op_idempotency_key o := reserved_row env o]> (receipts db)) db.
Proof.
  unfold reserve_receipt. intros Hrun. run_tx. rename select (is_none _ = true) into Hn.
  destruct (receipts _ !! _) eqn:Hr in Hn; [done|]. eauto 10.
Qed.

Lemma update_finish_Ok env key oid st status n c db k db' :
  tx_result (update_finish env key oid st status n c) db = Ok (k, db') -> k = 1 ->
  exists r, receipts db !! key = Some r /\ rcp_operation_id r = oid /\
    rcp_state r = in_progress /\ receipt_checks (finished_row env st status n c r) = true /\
    db' = set_receipts (<[key := finished_row env st status n c r]> (receipts db)) db.
Proof.
  unfold update_finish. intros Hrun Hk. rewrite tx_bind_Ok in Hrun.
  destruct Hrun as (row & db1 & Hrow & Hrun).
  apply tx_gets_Ok in Hrow as [<- <-].
  destruct (receipts db !! key) as [r|] eqn:Hr; run_tx.
  rename select (_ && _ = true) into Hg. apply andb_true_iff in Hg as [Ho Hp].
  apply N.eqb_eq in Ho. apply in_progressb_spec in Hp. eauto 10.
Qed.

Definition final_state (response : StoredHttpResponse) : string :=
  if resp_failed response then "failed" else "succeeded".

(** The row that records [response], given the nonce and the ciphertext. *)
Definition recorded_row (env : Env) (response : StoredHttpResponse) (n c : bytes)
    (r : ReceiptRow) : ReceiptRow :=
  finished_row env (final_state response) (resp_status response) n c r.

Lemma finish_receipt_Ok self env o oid response db u db' :
  tx_result (finish_receipt self env o oid response) db = Ok (u, db') ->
  exists row, receipts db !! op_idempotency_key o = Some row /\
    ReceiptRow_matches row o = true /\ rcp_operation_id row = oid /\
    ((rcp_state row <> in_progress /\ decode_receipt self row = Ok response /\ db' = db) \/
     (rcp_state row = in_progress /\ exists p n c,
        to_vec (resp_body response) = Some p /\
        ReceiptCipher_encrypt (receipt_cipher self) (env_random env) (op_idempotency_key o) oid p
          = Ok (n, c) /\
        receipt_checks (recorded_row env response n c row) = true /\
        db' = set_receipts (<[op_idempotency_key o := recorded_row env response n c row]>
                              (receipts db)) db)).
Proof.
  unfold finish_receipt. intros Hrun. rewrite tx_bind_Ok in Hrun.
  destruct Hrun as (found & db1 & Hsel & Hrun).
  apply tx_select_receipt_Ok in Hsel as [<- <-].
  destruct (receipts db !! op_idempotency_key o) as [row|] eqn:Hrow; [|by run_tx].
  cbn in Hrun. rewrite tx_bind_Ok in Hrun. destruct Hrun as (row' & db2 & Hrow' & Hrun).
  apply tx_lift_Ok in Hrow' as [[= <-] <-]. run_tx.
  - exists row. split; [done|]. split; [done|]. split; [done|]. left.
    split; [|done]. intros Hs. apply in_progressb_spec in Hs. congruence.
  - rename select (tx_result (update_finish _ _ _ _ _ _ _) _ = _) into Hup.
    apply update_finish_Ok in Hup as (r & Hr & Ho & Hp & Hck & ->); [|done].
    rewrite Hrow in Hr. injection Hr as <-.
    exists row. split; [done|]. split; [done|]. split; [done|]. right. split; [done|].
    eexists _, _, _. split; [done|]. split; [by rewrite <- surjective_pairing|].
    split; [done|]. done.
Qed.

Lemma renew_operation_tx_Ok env o oid db u db' :
  tx_result (renew_operation_tx env o oid) db = Ok (u, db') ->
  exists row, receipts db !! op_idempotency_key o = Some row /\
    ReceiptRow_matches row o = true /\ rcp_operation_id row = oid /\
    rcp_state row = in_progress /\
    db' = set_receipts (<[op_idempotency_key o := renewed_row env row]> (receipts db)) db.
Proof.
  unfold renew_operation_tx. intros Hrun. run_tx.
  rename select (tx_result (require_in_progress_receipt _ _) _ = _) into Hreq.
  apply require_in_progress_receipt_Ok in Hreq as (-> & row & Hrow & Hm & Ho & Hs).
  rename select (tx_result (update_lease _ _ _) _ = _) into Hup. unfold update_lease in Hup.
  rewrite tx_bind_Ok in Hup. destruct Hup as (r & db2 & Hr & Hup).
  apply tx_gets_Ok in Hr as [<- <-].
  rewrite Hrow in Hup. run_tx. eauto 10.
Qed.

Lemma insert_audit_Ok env audit db u db' :
  tx_result (insert_audit env audit) db = Ok (u, db') ->
  audit_events db !! env_audit_id env = None /\ audit_valid audit = true /\
  audit_text audit = true /\
  db' = set_audit_events
    (<[env_audit_id env := {| aud_event := audit; aud_created_at := env_now env |}]>
       (audit_events db)) db.
Proof.
  unfold insert_audit. intros Hrun. run_tx. rename select (is_none _ = true) into Hn.
  destruct (audit_events _ !! _) eqn:Hr in Hn; [done|].
  rename select (audit_checks _ = true) into Hck. unfold audit_checks in Hck.
  rewrite !andb_true_iff in Hck. destruct_and?. eauto.
Qed.
End outcomes.
