(* ===== verification/Store.v ===== *)
(** * The store's operations ([crates/syouyu-store/src/lib.rs])

    Every method of [PgStore] that runs a transaction: the prepare / complete
    pairs for reconciliation, deletion, credential creation and revocation,
    [renew_operation], [fail_operation], and the reads.  A method is the body of
    its transaction ([..._tx]) wrapped in [transaction]; each SQL statement is
    the update its text describes, with the constraints it can violate. *)

From S2P Require Import Prelude RustStr Domain Json StoreModels Cipher Tables Receipts.

(** ** Conversions *)

Definition to_i64 (value : Z) (field : string) : result StoreError Z :=
  ok_or (InvalidNumericValue field) (i64_try_from_u64 value).

Definition from_i64 (value : Z) (field : string) : result StoreError Z :=
  ok_or (CorruptData field) (u64_try_from_i64 value).

Definition BucketRow_try_into_record (self : BucketRow) : result StoreError BucketRecord :=
  qb ← from_i64 (bkt_quota_bytes self) "bucket quota_bytes";
  qo ← from_i64 (bkt_quota_objects self) "bucket quota_objects";
  ub ← from_i64 (bkt_used_bytes self) "bucket used_bytes";
  uo ← from_i64 (bkt_used_objects self) "bucket used_objects";
  Ok {| br_service_instance_id := bkt_service_instance_id self;
        br_organization_id := bkt_organization_id self;
        br_project_id := bkt_project_id self;
        br_physical_bucket_id := bkt_physical_bucket_id self;
        br_bucket_name := bkt_bucket_name self;
        br_region := bkt_region self;
        br_quota_bytes := qb;
        br_quota_objects := qo;
        br_used_bytes := ub;
        br_used_objects := uo;
        br_usage_measured_at := bkt_usage_measured_at self |}.

Definition ensure_scope (operation : OperationRequest) (organization_id project_id : Uuid)
  : result StoreError unit :=
  if negb (N.eqb (op_organization_id operation) organization_id)
     || negb (N.eqb (op_project_id operation) project_id)
  then Err (Conflict "service instance scope does not match authenticated principal")
  else Ok tt.

(** ** Rows *)

Definition fetch_service_row (service_instance_id : Uuid) (for_update : bool)
  : Tx (option ServiceRow) :=
  row ← gets (fun db => services db !! service_instance_id);
  _ ← (if for_update then lock_row (ServiceRowLock service_instance_id) row else mret tt);
  mret row.

Definition fetch_bucket_row (service_instance_id : Uuid) : Tx (option BucketRecord) :=
  row ← gets (fun db => buckets db !! service_instance_id);
  match row with
  | None => mret None
  | Some r => record ← lift (BucketRow_try_into_record r); mret (Some record)
  end.

Definition name_reserved_by (service : Uuid) (r : NameReservationRow) : bool :=
  N.eqb (nam_service_instance_id r) service.

Definition reserve_bucket_name (env : Env) (bucket_name : string) (service_instance_id : Uuid)
  : Tx unit :=
  _ ← constraint (no_nul bucket_name) InvalidText;
  existing ← gets (fun db => name_reservations db !! bucket_name);
  match existing with
  | Some r =>
      if name_reserved_by service_instance_id r then mret tt else fail BucketNameUnavailable
  | None =>
      _ ← constraint (between 3 63 bucket_name)
            (CheckViolation "syouyu_bucket_name_reservations");
      taken ← gets (fun db =>
        map_existsb (fun _ r => name_reserved_by service_instance_id r) (name_reservations db));
      _ ← constraint (negb taken) (UniqueViolation "service_instance_id");
      modify (fun db => set_name_reservations
        (<[bucket_name := {| nam_service_instance_id := service_instance_id;
                             nam_created_at := env_now env |}]> (name_reservations db)) db)
  end.

(** [UNIQUE (project_id, name)] on [syouyu_service_instances]. *)
Definition service_name_taken (id project : Uuid) (name : string) (t : gmap Uuid ServiceRow)
  : bool :=
  map_existsb (fun k r => negb (N.eqb k id) && N.eqb (svc_project_id r) project
                          && String.eqb (svc_name r) name) t.

Definition reconciled_service (env : Env) (command : ReconcileCommand) (spec : Value)
    (operation_id : Uuid) (created_at : DateTime) : ServiceRow := {|
  svc_id := op_service_instance_id (rec_operation command);
  svc_organization_id := op_organization_id (rec_operation command);
  svc_project_id := op_project_id (rec_operation command);
  svc_name := rec_name command;
  svc_desired_generation := rec_generation command;
  svc_desired_spec := spec;
  svc_observed_generation := rec_generation command;
  svc_phase := "ready";
  svc_current_operation_id := operation_id;
  svc_last_error := None;
  svc_created_at := created_at;
  svc_updated_at := env_now env;
  svc_deleted_at := None;
|}.

(** The [WHERE] of the upsert: same scope, no newer generation, not deleted. *)
Definition service_updatable (command : ReconcileCommand) (r : ServiceRow) : bool :=
  N.eqb (svc_organization_id r) (op_organization_id (rec_operation command))
  && N.eqb (svc_project_id r) (op_project_id (rec_operation command))
  && (svc_desired_generation r <=? rec_generation command)%Z
  && negb (String.eqb (svc_phase r) "deleted").

(** [INSERT INTO syouyu_service_instances ... ON CONFLICT (id) DO UPDATE ... WHERE ...];
    the result is the number of affected rows. *)
Definition upsert_service (env : Env) (command : ReconcileCommand) (spec : Value)
    (operation_id : Uuid) : Tx nat :=
  let id := op_service_instance_id (rec_operation command) in
  let project := op_project_id (rec_operation command) in
  existing ← gets (fun db => services db !! id);
  let created := match existing with Some r => svc_created_at r | None => env_now env end in
  let row := reconciled_service env command spec operation_id created in
  _ ← constraint_mapped (service_checks row) (row_error (service_text row) "syouyu_service_instances");
  if match existing with Some r => service_updatable command r | None => true end then
    taken ← gets (fun db => service_name_taken id project (rec_name command) (services db));
    _ ← constraint_mapped (negb taken) (UniqueViolation "project_id_name");
    _ ← modify (fun db => set_services (<[id := row]> (services db)) db);
    mret 1
  else mret 0.

Definition bucket_name_taken (id : Uuid) (name : string) (t : gmap Uuid BucketRow) : bool :=
  map_existsb (fun k r => negb (N.eqb k id) && String.eqb (bkt_bucket_name r) name) t.

Definition physical_id_taken (id : Uuid) (physical : string) (t : gmap Uuid BucketRow) : bool :=
  map_existsb (fun k r => negb (N.eqb k id)
                          && bool_decide (bkt_physical_bucket_id r = Some physical)) t.

(** The bucket row after the upsert; a conflicting row keeps the columns the
    [DO UPDATE] does not set. *)
Definition reconciled_bucket (env : Env) (command : ReconcileCommand) (physical : string)
    (qb qo : Z) (existing : option BucketRow) : BucketRow := {|
  bkt_service_instance_id := op_service_instance_id (rec_operation command);
  bkt_organization_id := match existing with
    | Some r => bkt_organization_id r | None => op_organization_id (rec_operation command) end;
  bkt_project_id := match existing with
    | Some r => bkt_project_id r | None => op_project_id (rec_operation command) end;
  bkt_physical_bucket_id := Some physical;
  bkt_bucket_name := spec_bucket_name (rec_spec command);
  bkt_region := spec_region (rec_spec command);
  bkt_quota_bytes := qb;
  bkt_quota_objects := qo;
  bkt_used_bytes := match existing with Some r => bkt_used_bytes r | None => 0 end;
  bkt_used_objects := match existing with Some r => bkt_used_objects r | None => 0 end;
  bkt_usage_measured_at := existing ≫= bkt_usage_measured_at;
  bkt_created_at := match existing with Some r => bkt_created_at r | None => env_now env end;
  bkt_updated_at := env_now env;
|}.

Definition upsert_bucket (env : Env) (command : ReconcileCommand) (physical : string) (qb qo : Z)
  : Tx unit :=
  let o := rec_operation command in
  let id := op_service_instance_id o in
  existing ← gets (fun db => buckets db !! id);
  let row := reconciled_bucket env command physical qb qo existing in
  _ ← constraint_mapped (bucket_checks row) (row_error (bucket_text row) "syouyu_buckets");
  scope_ok ← gets (fun db =>
    is_some existing || service_scope_exists db id (op_organization_id o) (op_project_id o));
  _ ← constraint_mapped scope_ok (ForeignKeyViolation "syouyu_buckets");
  name_taken ← gets (fun db => bucket_name_taken id (spec_bucket_name (rec_spec command)) (buckets db));
  _ ← constraint_mapped (negb name_taken) (UniqueViolation "bucket_name");
  id_taken ← gets (fun db => physical_id_taken id physical (buckets db));
  _ ← constraint_mapped (negb id_taken) (UniqueViolation "physical_bucket_id");
  modify (fun db => set_buckets (<[id := row]> (buckets db)) db).

Definition revoked_row (now : DateTime) (by_ : Uuid) (r : CredentialRow) : CredentialRow := {|
  crd_id := crd_id r;
  crd_service_instance_id := crd_service_instance_id r;
  crd_organization_id := crd_organization_id r;
  crd_project_id := crd_project_id r;
  crd_principal_id := crd_principal_id r;
  crd_name := crd_name r;
  crd_garage_key_id := crd_garage_key_id r;
  crd_access_key_id := crd_access_key_id r;
  crd_permissions := crd_permissions r;
  crd_secret_key_fingerprint := crd_secret_key_fingerprint r;
  crd_status := "revoked";
  crd_created_at := crd_created_at r;
  crd_revoked_at := Some (default now (crd_revoked_at r));
  crd_revoked_by := Some (default by_ (crd_revoked_by r));
|}.

Definition active_in (service : Uuid) (r : CredentialRow) : bool :=
  N.eqb (crd_service_instance_id r) service && String.eqb (crd_status r) "active".

Definition active_in_organization (organization : Uuid) (r : CredentialRow) : bool :=
  N.eqb (crd_organization_id r) organization && String.eqb (crd_status r) "active".

Definition reserved_in (service : Uuid) (r : CredentialReservationRow) : bool :=
  N.eqb (crr_service_instance_id r) service.

Definition reserved_in_organization (organization : Uuid) (r : CredentialReservationRow) : bool :=
  N.eqb (crr_organization_id r) organization.

Definition deleted_service (env : Env) (generation : Z) (operation_id : Uuid) (r : ServiceRow)
  : ServiceRow := {|
  svc_id := svc_id r;
  svc_organization_id := svc_organization_id r;
  svc_project_id := svc_project_id r;
  svc_name := svc_name r;
  svc_desired_generation := generation;
  svc_desired_spec := svc_desired_spec r;
  svc_observed_generation := generation;
  svc_phase := "deleted";
  svc_current_operation_id := operation_id;
  svc_last_error := None;
  svc_created_at := svc_created_at r;
  svc_updated_at := env_now env;
  svc_deleted_at := Some (env_now env);
|}.

(** [ORDER BY created_at, id]. *)
Definition created_before (a b : CredentialRow) : bool :=
  (crd_created_at a <? crd_created_at b)%Z
  || ((crd_created_at a =? crd_created_at b)%Z && N.leb (crd_id a) (crd_id b)).

Section store.
Context `{SerdeJson} `{Aead}.

Definition unreachable {A : Type} : Tx A := fail (Database OtherDbError).

(** The prologue the four [prepare_...] methods share: the operation lock, the
    claim, and the early return of a replay or of a live lease. *)
Definition with_claim {T : Type} (self : PgStore) (env : Env) (operation : OperationRequest)
    (body : option Uuid -> Tx (Prepare T)) : Tx (Prepare T) :=
  _ ← advisory_lock (OperationLock (op_idempotency_key operation));
  claim ← claim_existing_receipt self env operation;
  match claim with
  | ClaimNew => body None
  | ClaimTakenOver operation_id => body (Some operation_id)
  | ClaimPrepared prepared =>
      match map_context prepared with Some p => mret p | None => unreachable end
  end.

(** [match claimed_operation_id { Some(id) => id, None => reserve_receipt(..)? }]. *)
Definition claimed_or_reserved (env : Env) (operation : OperationRequest)
    (claimed : option Uuid) : Tx Uuid :=
  match claimed with
  | Some operation_id => mret operation_id
  | None => reserve_receipt env operation
  end.

(** ** Reconciliation *)

(** The checks against an existing service; returns [previously_applied] and
    the physical bucket ID. *)
Definition check_existing_service (command : ReconcileCommand) (existing : ServiceRow)
  : Tx (bool * option string) :=
  let o := rec_operation command in
  _ ← lift (ensure_scope o (svc_organization_id existing) (svc_project_id existing));
  if String.eqb (svc_phase existing) "deleted"
  then fail (Conflict "service instance has already been deleted")
  else if (rec_generation command <? svc_desired_generation existing)%Z
  then fail (StaleGeneration (svc_desired_generation existing) (rec_generation command))
  else
  found ← fetch_bucket_row (op_service_instance_id o);
  existing_bucket ← lift (ok_or (CorruptData "service bucket") found);
  if negb (String.eqb (br_bucket_name existing_bucket) (spec_bucket_name (rec_spec command)))
  then fail (Conflict "bucket_name is immutable after service creation")
  else
  let physical := br_physical_bucket_id existing_bucket in
  if (rec_generation command =? svc_desired_generation existing)%Z then
    current_spec ← lift (ok_or (CorruptData "service desired_spec")
                           (spec_from_value (svc_desired_spec existing)));
    if negb (String.eqb (svc_name existing) (rec_name command))
       || negb (bool_decide (current_spec = rec_spec command))
    then fail (Conflict "generation was reused with different desired state")
    else if negb (String.eqb (svc_phase existing) "ready")
            || negb (svc_observed_generation existing =? rec_generation command)%Z
    then fail (OperationInProgress (svc_current_operation_id existing))
    else mret (true, physical)
  else mret (false, physical).

Definition reconcile_context (command : ReconcileCommand) (physical : option string)
    (previously_applied : bool) : ReconcileContext :=
  let o := rec_operation command in
  {| rc_bucket := {| br_service_instance_id := op_service_instance_id o;
                     br_organization_id := op_organization_id o;
                     br_project_id := op_project_id o;
                     br_physical_bucket_id := physical;
                     br_bucket_name := spec_bucket_name (rec_spec command);
                     br_region := spec_region (rec_spec command);
                     br_quota_bytes := spec_quota_bytes (rec_spec command);
                     br_quota_objects := spec_quota_objects (rec_spec command);
                     br_used_bytes := 0;
                     br_used_objects := 0;
                     br_usage_measured_at := None |};
     rc_previously_applied := previously_applied |}.

Definition prepare_reconcile_tx (self : PgStore) (env : Env) (command : ReconcileCommand)
  : Tx (Prepare ReconcileContext) :=
  let o := rec_operation command in
  with_claim self env o (fun claimed =>
    _ ← lock_service (op_service_instance_id o);
    _ ← reject_parallel_operation (op_service_instance_id o) (op_idempotency_key o);
    existing ← fetch_service_row (op_service_instance_id o) true;
    checked ← match existing with
              | None => mret (false, None)
              | Some e => check_existing_service command e
              end;
    _ ← reserve_bucket_name env (spec_bucket_name (rec_spec command))
          (op_service_instance_id o);
    operation_id ← claimed_or_reserved env o claimed;
    mret (Execute operation_id (reconcile_context command checked.2 checked.1))).

Definition complete_reconcile_tx (self : PgStore) (env : Env) (command : ReconcileCommand)
    (operation_id : Uuid) (physical_bucket_id : string) (spec : Value) (qb qo : Z)
    (response : StoredHttpResponse) (audit : AuditEvent) : Tx unit :=
  let o := rec_operation command in
  let id := op_service_instance_id o in
  _ ← lock_service id;
  _ ← require_in_progress_receipt o operation_id;
  rows ← upsert_service env command spec operation_id;
  if negb (Nat.eqb rows 1)
  then fail (Conflict "service changed while reconciliation was in progress")
  else
  _ ← upsert_bucket env command physical_bucket_id qb qo;
  _ ← modify (fun db => set_name_reservations
        (map_delete_where (fun name r => name_reserved_by id r
           && negb (String.eqb name (spec_bucket_name (rec_spec command))))
           (name_reservations db)) db);
  _ ← finish_receipt self env o operation_id response;
  insert_audit env audit.

(** ** Deletion *)

Definition prepare_delete_tx (self : PgStore) (env : Env) (command : DeleteCommand)
  : Tx (Prepare DeleteContext) :=
  let o := del_operation command in
  let id := op_service_instance_id o in
  with_claim self env o (fun claimed =>
    _ ← advisory_lock (OrganizationCredentialsLock (op_organization_id o));
    _ ← lock_service id;
    _ ← reject_parallel_operation id (op_idempotency_key o);
    found ← fetch_service_row id true;
    service ← lift (ok_or NotFound found);
    _ ← lift (ensure_scope o (svc_organization_id service) (svc_project_id service));
    if String.eqb (svc_phase service) "deleted" then fail NotFound
    else
    expected_generation ← lift (ok_or (Configuration "service generation overflow")
                                  (i64_checked_add (svc_desired_generation service) 1));
    if (del_generation command <? expected_generation)%Z
    then fail (StaleGeneration (svc_desired_generation service) (del_generation command))
    else if negb (del_generation command =? expected_generation)%Z
    then fail (Conflict "delete generation must immediately follow desired generation")
    else
    found_bucket ← fetch_bucket_row id;
    bucket ← lift (ok_or (CorruptData "service bucket") found_bucket);
    if is_none (br_physical_bucket_id bucket) then fail (CorruptData "physical bucket ID")
    else
    garage_key_ids ← gets (fun db =>
      crd_garage_key_id <$>
        order_by created_before
          (List.filter (active_in id) (snd <$> map_to_list (credentials db))));
    operation_id ← claimed_or_reserved env o claimed;
    mret (Execute operation_id
            {| dc_bucket := bucket; dc_garage_key_ids := garage_key_ids |})).

(** The [UPDATE] of [complete_delete] on the service; the number of rows. *)
Definition update_deleted_service (env : Env) (command : DeleteCommand) (operation_id : Uuid)
  : Tx nat :=
  let o := del_operation command in
  let id := op_service_instance_id o in
  found ← gets (fun db => services db !! id);
  match found with
  | Some r =>
      if N.eqb (svc_organization_id r) (op_organization_id o)
         && N.eqb (svc_project_id r) (op_project_id o)
         && negb (String.eqb (svc_phase r) "deleted") then
        let row := deleted_service env (del_generation command) operation_id r in
        _ ← constraint (service_checks row) (CheckViolation "syouyu_service_instances");
        _ ← modify (fun db => set_services (<[id := row]> (services db)) db);
        mret 1
      else mret 0
  | None => mret 0
  end.

Definition complete_delete_tx (self : PgStore) (env : Env) (command : DeleteCommand)
    (operation_id : Uuid) (response : StoredHttpResponse) (audit : AuditEvent) : Tx unit :=
  let o := del_operation command in
  let id := op_service_instance_id o in
  _ ← lock_service id;
  _ ← require_in_progress_receipt o operation_id;
  _ ← modify (fun db => set_credentials
        (map_update_where (active_in id) (revoked_row (env_now env) (op_principal_id o))
           (credentials db)) db);
  updated ← update_deleted_service env command operation_id;
  if negb (Nat.eqb updated 1)
  then fail (Conflict "service changed while deletion was in progress")
  else
  _ ← modify (fun db => set_name_reservations
        (map_delete_where (fun _ r => name_reserved_by id r) (name_reservations db)) db);
  _ ← finish_receipt self env o operation_id response;
  insert_audit env audit.

(** ** Credentials *)

Definition ready_bucket_in_transaction (operation : OperationRequest) : Tx BucketRecord :=
  let id := op_service_instance_id operation in
  found ← fetch_service_row id true;
  service ← lift (ok_or NotFound found);
  _ ← lift (ensure_scope operation (svc_organization_id service) (svc_project_id service));
  if negb (String.eqb (svc_phase service) "ready")
     || negb (svc_observed_generation service =? svc_desired_generation service)%Z
  then fail ServiceNotReady
  else
  found_bucket ← fetch_bucket_row id;
  bucket ← lift (ok_or (CorruptData "ready service bucket") found_bucket);
  if is_none (br_physical_bucket_id bucket) then fail (CorruptData "physical bucket ID")
  else mret bucket.

Definition CredentialReservationRow_matches (self : CredentialReservationRow)
    (command : CreateCredentialCommand) : bool :=
  let o := cre_operation command in
  N.eqb (crr_service_instance_id self) (op_service_instance_id o)
  && N.eqb (crr_organization_id self) (op_organization_id o)
  && N.eqb (crr_project_id self) (op_project_id o)
  && String.eqb (crr_name self) (cre_name command)
  && bool_decide (permissions_from_value (crr_permissions self) = Some (cre_permissions command)).

(** [SELECT EXISTS (...)] over credentials and reservations of the service. *)
Definition credential_name_used (service : Uuid) (name : string) (db : Db) : bool :=
  map_existsb (fun _ r => N.eqb (crd_service_instance_id r) service
                          && String.eqb (crd_name r) name) (credentials db)
  || map_existsb (fun _ r => N.eqb (crr_service_instance_id r) service
                             && String.eqb (crr_name r) name) (credential_reservations db).

Definition per_bucket_count (service : Uuid) (db : Db) : nat :=
  map_countb (active_in service) (credentials db)
  + map_countb (reserved_in service) (credential_reservations db).

Definition total_count (organization : Uuid) (db : Db) : nat :=
  map_countb (active_in_organization organization) (credentials db)
  + map_countb (reserved_in_organization organization) (credential_reservations db).

Definition reservation_row (env : Env) (command : CreateCredentialCommand)
    (operation_id : Uuid) (permissions : Value) : CredentialReservationRow :=
  let o := cre_operation command in {|
  crr_credential_id := env_credential_id env;
  crr_operation_id := operation_id;
  crr_service_instance_id := op_service_instance_id o;
  crr_organization_id := op_organization_id o;
  crr_project_id := op_project_id o;
  crr_name := cre_name command;
  crr_permissions := permissions;
  crr_created_at := env_now env;
|}.

Definition insert_reservation (row : CredentialReservationRow) : Tx unit :=
  _ ← constraint_mapped (credential_reservation_checks row)
        (row_error (credential_reservation_text row) "syouyu_credential_reservations");
  existing ← gets (fun db => credential_reservations db !! crr_credential_id row);
  _ ← constraint_mapped (is_none existing) (UniqueViolation "credential_id");
  same_operation ← gets (fun db =>
    map_existsb (fun _ r => has_operation (crr_operation_id row) r) (credential_reservations db));
  _ ← constraint_mapped (negb same_operation) (UniqueViolation "operation_id");
  same_name ← gets (fun db =>
    map_existsb (fun _ r => N.eqb (crr_service_instance_id r) (crr_service_instance_id row)
                            && String.eqb (crr_name r) (crr_name row))
      (credential_reservations db));
  _ ← constraint_mapped (negb same_name) (UniqueViolation "service_instance_id_name");
  scope_ok ← gets (fun db => service_scope_exists db (crr_service_instance_id row)
                               (crr_organization_id row) (crr_project_id row));
  _ ← constraint_mapped scope_ok (ForeignKeyViolation "syouyu_credential_reservations");
  modify (fun db => set_credential_reservations
    (<[crr_credential_id row := row]> (credential_reservations db)) db).

Definition prepare_create_credential_tx (self : PgStore) (env : Env)
    (command : CreateCredentialCommand) : Tx (Prepare CreateCredentialContext) :=
  let o := cre_operation command in
  let id := op_service_instance_id o in
  with_claim self env o (fun claimed =>
    _ ← advisory_lock (OrganizationCredentialsLock (op_organization_id o));
    _ ← lock_service id;
    bucket ← ready_bucket_in_transaction o;
    match claimed with
    | Some operation_id =>
        _ ← reject_parallel_operation id (op_idempotency_key o);
        found ← gets (fun db => head
          (List.filter (has_operation operation_id) (snd <$> map_to_list (credential_reservations db))));
        _ ← lock_row (ReservationRowLock operation_id) found;
        reservation ← lift (ok_or (CorruptData "credential reservation") found);
        if negb (CredentialReservationRow_matches reservation command)
        then fail (CorruptData "credential reservation")
        else mret (Execute operation_id
               {| cc_bucket := bucket; cc_credential_id := crr_credential_id reservation |})
    | None =>
        _ ← constraint (no_nul (cre_name command)) InvalidText;
        duplicate ← gets (credential_name_used id (cre_name command));
        if (duplicate : bool)
        then fail (Conflict "credential name already exists for this service")
        else
        per_bucket ← gets (per_bucket_count id);
        let max_per_bucket := Z.min (max_credentials_per_bucket (cre_credential_limits command))
                                (max_credentials_per_bucket (credential_limits self)) in
        if (max_per_bucket <=? Z.of_nat per_bucket)%Z
        then fail (CredentialLimitExceeded "bucket" max_per_bucket)
        else
        total ← gets (total_count (op_organization_id o));
        let max_total := Z.min (max_total_credentials (cre_credential_limits command))
                           (max_total_credentials (credential_limits self)) in
        if (max_total <=? Z.of_nat total)%Z
        then fail (CredentialLimitExceeded "organization" max_total)
        else
        _ ← reject_parallel_operation id (op_idempotency_key o);
        operation_id ← reserve_receipt env o;
        permissions ← lift (ok_or (CorruptData "credential permissions serialization")
                              (permissions_to_value (cre_permissions command)));
        _ ← insert_reservation (reservation_row env command operation_id permissions);
        mret (Execute operation_id
                {| cc_bucket := bucket; cc_credential_id := env_credential_id env |})
    end).

Definition credential_row (env : Env) (command : CreateCredentialCommand)
    (credential : NewCredential) (permissions : Value) : CredentialRow :=
  let o := cre_operation command in {|
  crd_id := nc_id credential;
  crd_service_instance_id := op_service_instance_id o;
  crd_organization_id := op_organization_id o;
  crd_project_id := op_project_id o;
  crd_principal_id := op_principal_id o;
  crd_name := nc_name credential;
  crd_garage_key_id := nc_garage_key_id credential;
  crd_access_key_id := nc_access_key_id credential;
  crd_permissions := permissions;
  crd_secret_key_fingerprint := nc_secret_key_fingerprint credential;
  crd_status := "active";
  crd_created_at := env_now env;
  crd_revoked_at := None;
  crd_revoked_by := None;
|}.

Definition insert_credential (row : CredentialRow) : Tx unit :=
  _ ← constraint_mapped (credential_checks row) (row_error (credential_text row) "syouyu_credentials");
  existing ← gets (fun db => credentials db !! crd_id row);
  _ ← constraint_mapped (is_none existing) (UniqueViolation "id");
  same_key ← gets (fun db => map_existsb (fun _ r =>
    String.eqb (crd_garage_key_id r) (crd_garage_key_id row)
    || String.eqb (crd_access_key_id r) (crd_access_key_id row)) (credentials db));
  _ ← constraint_mapped (negb same_key) (UniqueViolation "garage_key_id");
  same_name ← gets (fun db => map_existsb (fun _ r =>
    N.eqb (crd_service_instance_id r) (crd_service_instance_id row)
    && String.eqb (crd_name r) (crd_name row)) (credentials db));
  _ ← constraint_mapped (negb same_name) (UniqueViolation "service_instance_id_name");
  scope_ok ← gets (fun db => service_scope_exists db (crd_service_instance_id row)
                               (crd_organization_id row) (crd_project_id row));
  _ ← constraint_mapped scope_ok (ForeignKeyViolation "syouyu_credentials");
  modify (fun db => set_credentials (<[crd_id row := row]> (credentials db)) db).

Definition complete_create_credential_tx (self : PgStore) (env : Env)
    (command : CreateCredentialCommand) (operation_id : Uuid) (credential : NewCredential)
    (permissions : Value) (response : StoredHttpResponse) (audit : AuditEvent) : Tx unit :=
  let o := cre_operation command in
  let id := op_service_instance_id o in
  _ ← advisory_lock (OrganizationCredentialsLock (op_organization_id o));
  _ ← lock_service id;
  _ ← require_in_progress_receipt o operation_id;
  _ ← constraint (no_nul (cre_name command)) InvalidText;
  reserved ← gets (fun db => match credential_reservations db !! nc_id credential with
    | Some r => has_operation operation_id r && reserved_in id r
                && String.eqb (crr_name r) (cre_name command)
    | None => false
    end);
  if negb reserved then fail (CorruptData "credential reservation")
  else
  _ ← insert_credential (credential_row env command credential permissions);
  _ ← modify (fun db => set_credential_reservations
        (map_delete_where (fun k r => N.eqb k (nc_id credential) && has_operation operation_id r)
           (credential_reservations db)) db);
  _ ← finish_receipt self env o operation_id response;
  insert_audit env audit.

Definition prepare_revoke_credential_tx (self : PgStore) (env : Env)
    (command : RevokeCredentialCommand) : Tx (Prepare RevokeCredentialContext) :=
  let o := rev_operation command in
  let id := op_service_instance_id o in
  with_claim self env o (fun claimed =>
    _ ← lock_service id;
    _ ← reject_parallel_operation id (op_idempotency_key o);
    _ ← ready_bucket_in_transaction o;
    found ← gets (fun db => r ← credentials db !! rev_credential_id command;
                            if N.eqb (crd_service_instance_id r) id then Some r else None);
    _ ← lock_row (CredentialRowLock (rev_credential_id command)) found;
    row ← lift (ok_or NotFound found);
    operation_id ← claimed_or_reserved env o claimed;
    mret (Execute operation_id
            {| vc_garage_key_id := crd_garage_key_id row;
               vc_already_revoked := String.eqb (crd_status row) "revoked" |})).

(** The [UPDATE] of [complete_revoke_credential]; the number of rows. *)
Definition update_revoked (env : Env) (command : RevokeCredentialCommand) : Tx nat :=
  let o := rev_operation command in
  found ← gets (fun db => credentials db !! rev_credential_id command);
  match found with
  | Some r =>
      if N.eqb (crd_service_instance_id r) (op_service_instance_id o) then
        _ ← modify (fun db => set_credentials
              (<[rev_credential_id command := revoked_row (env_now env) (op_principal_id o) r]>
                 (credentials db)) db);
        mret 1
      else mret 0
  | None => mret 0
  end.

Definition complete_revoke_credential_tx (self : PgStore) (env : Env)
    (command : RevokeCredentialCommand) (operation_id : Uuid) (response : StoredHttpResponse)
    (audit : AuditEvent) : Tx unit :=
  let o := rev_operation command in
  _ ← lock_service (op_service_instance_id o);
  _ ← require_in_progress_receipt o operation_id;
  updated ← update_revoked env command;
  if negb (Nat.eqb updated 1) then fail NotFound
  else
  _ ← finish_receipt self env o operation_id response;
  insert_audit env audit.

(** ** Failure *)

Definition fail_operation_tx (self : PgStore) (env : Env) (operation : OperationRequest)
    (operation_id : Uuid) (response : StoredHttpResponse) (audit : AuditEvent) : Tx unit :=
  let id := op_service_instance_id operation in
  _ ← advisory_lock (OrganizationCredentialsLock (op_organization_id operation));
  _ ← lock_service id;
  _ ← require_in_progress_receipt operation operation_id;
  _ ← finish_receipt self env operation operation_id response;
  _ ← modify (fun db => set_credential_reservations
        (map_delete_where (fun _ r => has_operation operation_id r)
           (credential_reservations db)) db);
  _ ← modify (fun db => set_name_reservations
        (map_delete_where (fun name r => name_reserved_by id r
           && negb (match buckets db !! id with
                    | Some b => String.eqb (bkt_bucket_name b) name
                    | None => false
                    end)) (name_reservations db)) db);
  insert_audit env audit.

(** ** The methods *)

(** [command.validate()?] and then the transaction. *)
Definition validated {A : Type} (v : result StoreError unit) (fault : Fault) (m : Tx A) (db : Db)
  : result StoreError A * Db :=
  match v with Ok _ => transaction fault m db | Err e => (Err e, db) end.

Definition prepare_reconcile (self : PgStore) (fault : Fault) (env : Env)
    (command : ReconcileCommand) (db : Db) : result StoreError (Prepare ReconcileContext) * Db :=
  validated (ReconcileCommand_validate command) fault (prepare_reconcile_tx self env command) db.

Definition complete_reconcile (self : PgStore) (fault : Fault) (env : Env)
    (command : ReconcileCommand) (operation_id : Uuid) (physical_bucket_id : string)
    (response : StoredHttpResponse) (audit : AuditEvent) (db : Db)
  : result StoreError unit * Db :=
  let prepared :=
    if str_is_empty physical_bucket_id || Nat.ltb 256 (str_len physical_bucket_id)
    then Err (Validation "physical bucket ID is invalid")
    else
    spec ← ok_or (CorruptData "service desired_spec serialization")
             (spec_to_value (rec_spec command));
    qb ← to_i64 (spec_quota_bytes (rec_spec command)) "quota_bytes";
    qo ← to_i64 (spec_quota_objects (rec_spec command)) "quota_objects";
    Ok (spec, qb, qo) in
  match prepared with
  | Ok (spec, qb, qo) =>
      transaction fault (complete_reconcile_tx self env command operation_id physical_bucket_id
                           spec qb qo response audit) db
  | Err e => (Err e, db)
  end.

Definition prepare_delete (self : PgStore) (fault : Fault) (env : Env) (command : DeleteCommand)
    (db : Db) : result StoreError (Prepare DeleteContext) * Db :=
  validated (DeleteCommand_validate command) fault (prepare_delete_tx self env command) db.

Definition complete_delete (self : PgStore) (fault : Fault) (env : Env) (command : DeleteCommand)
    (operation_id : Uuid) (response : StoredHttpResponse) (audit : AuditEvent) (db : Db)
  : result StoreError unit * Db :=
  transaction fault (complete_delete_tx self env command operation_id response audit) db.

Definition prepare_create_credential (self : PgStore) (fault : Fault) (env : Env)
    (command : CreateCredentialCommand) (db : Db)
  : result StoreError (Prepare CreateCredentialContext) * Db :=
  validated (CreateCredentialCommand_validate command) fault
    (prepare_create_credential_tx self env command) db.

(** The guard of [complete_create_credential] before its transaction. *)
Definition new_credential_valid (command : CreateCredentialCommand) (credential : NewCredential)
  : bool :=
  negb (is_nil (nc_id credential)
        || str_is_empty (nc_garage_key_id credential)
        || str_is_empty (nc_access_key_id credential)
        || negb (String.eqb (nc_name credential) (cre_name command))
        || negb (bool_decide (nc_permissions credential = cre_permissions command))).

Definition complete_create_credential (self : PgStore) (fault : Fault) (env : Env)
    (command : CreateCredentialCommand) (operation_id : Uuid) (credential : NewCredential)
    (response : StoredHttpResponse) (audit : AuditEvent) (db : Db)
  : result StoreError unit * Db :=
  let prepared :=
    if negb (new_credential_valid command credential)
    then Err (Validation "created credential metadata is invalid")
    else ok_or (CorruptData "credential permissions serialization")
           (permissions_to_value (nc_permissions credential)) in
  match prepared with
  | Ok permissions =>
      transaction fault (complete_create_credential_tx self env command operation_id credential
                           permissions response audit) db
  | Err e => (Err e, db)
  end.

Definition prepare_revoke_credential (self : PgStore) (fault : Fault) (env : Env)
    (command : RevokeCredentialCommand) (db : Db)
  : result StoreError (Prepare RevokeCredentialContext) * Db :=
  validated (OperationRequest_validate (rev_operation command)) fault
    (prepare_revoke_credential_tx self env command) db.

Definition complete_revoke_credential (self : PgStore) (fault : Fault) (env : Env)
    (command : RevokeCredentialCommand) (operation_id : Uuid) (response : StoredHttpResponse)
    (audit : AuditEvent) (db : Db) : result StoreError unit * Db :=
  transaction fault (complete_revoke_credential_tx self env command operation_id response audit) db.

Definition renew_operation (fault : Fault) (env : Env) (operation : OperationRequest)
    (operation_id : Uuid) (db : Db) : result StoreError unit * Db :=
  validated (OperationRequest_validate operation) fault
    (renew_operation_tx env operation operation_id) db.

Definition fail_operation (self : PgStore) (fault : Fault) (env : Env)
    (operation : OperationRequest) (operation_id : Uuid) (response : StoredHttpResponse)
    (audit : AuditEvent) (db : Db) : result StoreError unit * Db :=
  validated (ensure (resp_failed response)
               (Validation "failed operation response must be marked failed")) fault
    (fail_operation_tx self env operation operation_id response audit) db.

(** ** Reads, usage and audit *)

Definition ServiceRow_try_into_record (self : ServiceRow) (bucket : BucketRecord)
  : result StoreError ServiceRecord :=
  spec ← ok_or (CorruptData "service desired_spec") (spec_from_value (svc_desired_spec self));
  Ok {| sr_id := svc_id self;
        sr_organization_id := svc_organization_id self;
        sr_project_id := svc_project_id self;
        sr_name := svc_name self;
        sr_desired_generation := svc_desired_generation self;
        sr_observed_generation := svc_observed_generation self;
        sr_phase := svc_phase self;
        sr_operation_id := svc_current_operation_id self;
        sr_spec := spec;
        sr_bucket := bucket |}.

(** The first [SELECT] of [service_overview] with its tests. *)
Definition overview_service (organization_id project_id service_instance_id : Uuid)
  : Tx ServiceRow :=
  found ← fetch_service_row service_instance_id false;
  service ← lift (ok_or NotFound found);
  if negb (N.eqb (svc_organization_id service) organization_id)
     || negb (N.eqb (svc_project_id service) project_id) then fail NotFound
  else if String.eqb (svc_phase service) "deleted" then fail NotFound
  else mret service.

(** The second [SELECT] and the conversion. *)
Definition overview_record (service_instance_id : Uuid) (service : ServiceRow) : Tx ServiceRecord :=
  found_bucket ← fetch_bucket_row service_instance_id;
  bucket ← lift (ok_or (CorruptData "service bucket") found_bucket);
  lift (ServiceRow_try_into_record service bucket).

(** A transaction that takes no lock: under [READ COMMITTED] each [SELECT] sees
    what was committed when it starts, the first one [db], the second one [db'].
    Nothing is written; a failing statement or commit is a [Database] error. *)
Definition service_overview (organization_id project_id service_instance_id : Uuid)
    (db db' : Db) : result StoreError ServiceRecord :=
  service ← tx_result (overview_service organization_id project_id service_instance_id) db;
  record ← tx_result (overview_record service_instance_id service.1) db';
  Ok record.1.

Definition CredentialRow_try_into_record (self : CredentialRow)
  : result StoreError CredentialRecord :=
  permissions ← ok_or (CorruptData "credential permissions")
                  (permissions_from_value (crd_permissions self));
  Ok {| cr_id := crd_id self;
        cr_service_instance_id := crd_service_instance_id self;
        cr_name := crd_name self;
        cr_access_key_id := crd_access_key_id self;
        cr_permissions := permissions;
        cr_status := crd_status self;
        cr_created_at := crd_created_at self;
        cr_revoked_at := crd_revoked_at self |}.

Fixpoint collect {A B : Type} (f : A -> result StoreError B) (l : list A)
  : result StoreError (list B) :=
  match l with
  | [] => Ok []
  | a :: l' => b ← f a; bs ← collect f l'; Ok (b :: bs)
  end.

(** Two separate statements: [db] is what the existence test sees, [db'] what
    the listing sees.  [ORDER BY created_at DESC, id DESC]. *)
Definition list_credentials (organization_id project_id service_instance_id : Uuid) (db db' : Db)
  : result StoreError (list CredentialRecord) :=
  let exists_ := match services db !! service_instance_id with
    | Some r => N.eqb (svc_organization_id r) organization_id
                && N.eqb (svc_project_id r) project_id
                && negb (String.eqb (svc_phase r) "deleted")
    | None => false
    end in
  if negb exists_ then Err NotFound
  else collect CredentialRow_try_into_record
         (order_by (fun a b => created_before b a)
            (List.filter (fun r => N.eqb (crd_service_instance_id r) service_instance_id)
               (snd <$> map_to_list (credentials db')))).

Definition bucket_with_usage (env : Env) (used_bytes used_objects : Z) (measured_at : DateTime)
    (r : BucketRow) : BucketRow := {|
  bkt_service_instance_id := bkt_service_instance_id r;
  bkt_organization_id := bkt_organization_id r;
  bkt_project_id := bkt_project_id r;
  bkt_physical_bucket_id := bkt_physical_bucket_id r;
  bkt_bucket_name := bkt_bucket_name r;
  bkt_region := bkt_region r;
  bkt_quota_bytes := bkt_quota_bytes r;
  bkt_quota_objects := bkt_quota_objects r;
  bkt_used_bytes := used_bytes;
  bkt_used_objects := used_objects;
  bkt_usage_measured_at := Some measured_at;
  bkt_created_at := bkt_created_at r;
  bkt_updated_at := env_now env;
|}.

(** [INSERT INTO syouyu_usage_snapshots ... ON CONFLICT DO UPDATE ... WHERE
    syouyu_usage_snapshots.measured_at <= EXCLUDED.measured_at]. *)
Definition upsert_usage (env : Env) (id organization_id project_id : Uuid)
    (bytes_used objects_used : Z) (measured_at : DateTime) : Tx unit :=
  existing ← gets (fun db => usage_snapshots db !! id);
  let row organization project := {|
    usg_organization_id := organization; usg_project_id := project;
    usg_bytes_used := bytes_used; usg_objects_used := objects_used;
    usg_measured_at := measured_at; usg_recorded_at := env_now env |} in
  _ ← constraint (usage_checks (row organization_id project_id))
        (CheckViolation "syouyu_usage_snapshots");
  match existing with
  | None =>
      scope_ok ← gets (fun db => service_scope_exists db id organization_id project_id);
      _ ← constraint scope_ok (ForeignKeyViolation "syouyu_usage_snapshots");
      modify (fun db => set_usage_snapshots
        (<[id := row organization_id project_id]> (usage_snapshots db)) db)
  | Some r =>
      if (usg_measured_at r <=? measured_at)%Z
      then modify (fun db => set_usage_snapshots
             (<[id := row (usg_organization_id r) (usg_project_id r)]> (usage_snapshots db)) db)
      else mret tt
  end.

Definition record_usage_tx (env : Env) (organization_id project_id service_instance_id : Uuid)
    (bytes_used objects_used : Z) (measured_at : DateTime) : Tx BucketRow :=
  found ← gets (fun db => r ← buckets db !! service_instance_id;
                          if N.eqb (bkt_organization_id r) organization_id
                             && N.eqb (bkt_project_id r) project_id then Some r else None);
  _ ← lock_row (BucketRowLock service_instance_id) found;
  bucket ← lift (ok_or NotFound found);
  let row := bucket_with_usage env bytes_used objects_used measured_at bucket in
  _ ← constraint (bucket_checks row) (CheckViolation "syouyu_buckets");
  _ ← modify (fun db => set_buckets (<[service_instance_id := row]> (buckets db)) db);
  _ ← upsert_usage env service_instance_id organization_id project_id bytes_used objects_used
        measured_at;
  mret bucket.

(** The quota conversions come after the commit. *)
Definition record_usage (fault : Fault) (env : Env)
    (organization_id project_id service_instance_id : Uuid) (bytes_used objects_used : Z)
    (measured_at : DateTime) (db : Db) : result StoreError UsageRecord * Db :=
  match (b ← to_i64 bytes_used "bytes_used"; o ← to_i64 objects_used "objects_used"; Ok (b, o)) with
  | Err e => (Err e, db)
  | Ok (b, o) =>
      let (r, db') := transaction fault
        (record_usage_tx env organization_id project_id service_instance_id b o measured_at) db in
      (bucket ← r;
       qb ← from_i64 (bkt_quota_bytes bucket) "bucket quota_bytes";
       qo ← from_i64 (bkt_quota_objects bucket) "bucket quota_objects";
       Ok {| ur_service_instance_id := service_instance_id;
             ur_bytes_used := bytes_used;
             ur_objects_used := objects_used;
             ur_quota_bytes := qb;
             ur_quota_objects := qo;
             ur_measured_at := measured_at |}, db')
  end.

Definition record_audit (fault : Fault) (env : Env) (audit : AuditEvent) (db : Db)
  : result StoreError unit * Db :=
  transaction fault (insert_audit env audit) db.
End store.
