(* ===== verification/StoreEffects.v ===== *)
(** * What a committed transaction changes

    One lemma per transaction of [Store]: the tables after a successful run in
    terms of the tables before it, and the conditions the run has checked.  The
    invariants of [ServiceInv] and [CredentialInv] are proved from these lemmas,
    never from the code of a transaction again. *)

From S2P Require Import Prelude RustStr Domain Json StoreModels Cipher Tables Receipts ReceiptLemmas Store.

(** Open the next statement of a successful run; the primitive ones are
    resolved at once, the others are left as hypotheses. *)
Ltac tx_prim Hs :=
  lazymatch type of Hs with
  | tx_result (take_lock _) _ = _ => apply tx_lock_Ok in Hs as <-
  | tx_result (lock_row _ _) _ = _ => apply tx_lock_row_Ok in Hs as <-
  | tx_result (advisory_lock _) _ = _ => apply tx_advisory_Ok in Hs as <-
  | tx_result (lock_service _) _ = _ => apply tx_lock_service_Ok in Hs as <-
  | tx_result (gets _) _ = _ => apply tx_gets_Ok in Hs as [<- <-]
  | tx_result (modify _) _ = _ => apply tx_modify_Ok in Hs as <-
  | tx_result (mret _) _ = _ =>
      apply tx_ret_Ok in Hs as [Hs <-];
      first [discriminate Hs | match type of Hs with _ = ?b => is_var b; subst b end | idtac]
  | tx_result (lift _) _ = _ => apply tx_lift_Ok in Hs as [Hs <-]
  | tx_result (require _ _) _ = _ => apply tx_require_Ok in Hs as [Hs <-]
  | tx_result (constraint _ _) _ = _ => apply tx_constraint_Ok in Hs as [Hs <-]
  | tx_result (constraint_mapped _ _) _ = _ => apply tx_constraint_mapped_Ok in Hs as [Hs <-]
  | tx_result (fail _) _ = _ => by apply tx_fail_Ok in Hs
  | _ => idtac
  end.

Ltac tx_step H Hs :=
  cbv zeta in H;
  lazymatch type of H with
  | tx_result (@mbind Tx _ _ _ _ _) _ = _ =>
      let v := fresh "v" in let d := fresh "d" in
      apply tx_bind_Ok in H; destruct H as (v & d & Hs & H); tx_prim Hs
  end.

Ltac tx_steps H := repeat (let Hs := fresh "Hs" in tx_step H Hs); tx_prim H.

(** A guard whose failing branch is an error. *)
Ltac tx_guard H Hg :=
  lazymatch type of H with
  | tx_result (if ?c then _ else _) _ = _ =>
      destruct c eqn:Hg; [try (by apply tx_fail_Ok in H)|try (by apply tx_fail_Ok in H)]
  end.

(** No other operation of the service is in progress. *)
Definition no_parallel (service key : Uuid) (t : gmap Uuid ReceiptRow) : Prop :=
  forall k r, t !! k = Some r -> rcp_service_instance_id r = service ->
              rcp_state r = in_progress -> k = key.

(** A lease that has run out, taken over under a new operation identifier. *)
Record taken_over (env : Env) (o : OperationRequest) (db : Db) (row : ReceiptRow) : Prop := {
  to_row : receipts db !! op_idempotency_key o = Some row;
  to_matches : ReceiptRow_matches row o = true;
  to_state : rcp_state row = in_progress;
  to_expired : exists t, rcp_lease_expires_at row = Some t /\ (t <= env_clock env)%Z;
  to_attempt : (rcp_lease_attempt row < i64_max)%Z;
  to_fresh : operation_id_taken (op_idempotency_key o) (env_operation_id env) (receipts db) = false;
  to_reservations :
    map_countb (has_operation (rcp_operation_id row)) (credential_reservations db) = 0 \/
    map_countb (has_operation (env_operation_id env))
      (move_reservations (rcp_operation_id row) (env_operation_id env)
         (credential_reservations db)) <= 1;
}.

(** The receipts and the reservations after an operation started to execute: a
    new receipt, or a lease taken over with the reservations it holds. *)
Inductive begins (env : Env) (o : OperationRequest) (db : Db)
  : gmap Uuid ReceiptRow -> gmap Uuid CredentialReservationRow -> Prop :=
| begin_new :
    receipts db !! op_idempotency_key o = None ->
    receipt_checks (reserved_row env o) = true ->
    operation_id_taken (op_idempotency_key o) (env_operation_id env) (receipts db) = false ->
    begins env o db (<[op_idempotency_key o := reserved_row env o]> (receipts db))
      (credential_reservations db)
| begin_takeover row :
    taken_over env o db row ->
    begins env o db (<[op_idempotency_key o := claimed_row env row]> (receipts db))
      (move_reservations (rcp_operation_id row) (env_operation_id env)
         (credential_reservations db)).

Lemma no_parallel_insert service key r t :
  no_parallel service key (<[key := r]> t) -> no_parallel service key t.
Proof.
  intros Hn k' r' Hk' Hs Hp. destruct (decide (k' = key)) as [|Hne]; [done|].
  apply (Hn k' r'); [|done|done]. by rewrite lookup_insert_ne.
Qed.

(** The tables with one audit event more. *)
Definition audit_db (env : Env) (audit : AuditEvent) (db : Db) : Db :=
  set_audit_events (<[env_audit_id env := {| aud_event := audit; aud_created_at := env_now env |}]>
                      (audit_events db)) db.

Definition auditable (env : Env) (audit : AuditEvent) (db : Db) : Prop :=
  audit_events db !! env_audit_id env = None /\ audit_valid audit = true /\
  audit_text audit = true.

(** The name reservations after [reserve_bucket_name]. *)
Inductive names_after (env : Env) (name : string) (service : Uuid)
    (t : gmap string NameReservationRow) : gmap string NameReservationRow -> Prop :=
| name_kept r :
    t !! name = Some r -> nam_service_instance_id r = service ->
    names_after env name service t t
| name_added :
    t !! name = None ->
    (forall n r, t !! n = Some r -> nam_service_instance_id r <> service) ->
    names_after env name service t
      (<[name := {| nam_service_instance_id := service; nam_created_at := env_now env |}]> t).

Lemma reserve_bucket_name_Ok env name service db u db' :
  tx_result (reserve_bucket_name env name service) db = Ok (u, db') ->
  exists nm, names_after env name service (name_reservations db) nm /\
             db' = set_name_reservations nm db.
Proof.
  unfold reserve_bucket_name. intros Hrun. tx_step Hrun Htx. tx_step Hrun Hs.
  destruct (name_reservations db !! name) as [r|] eqn:Hr.
  - tx_guard Hrun Hg. apply tx_ret_Ok in Hrun as [_ <-]. exists (name_reservations db).
    apply N.eqb_eq in Hg. split; [by eapply name_kept|by destruct db].
  - tx_steps Hrun. eexists. split; [|done]. apply name_added; [done|]. intros n r Hn Hsv.
    rename select (negb _ = true) into Ht. apply negb_true_iff in Ht.
    rewrite map_existsb_false in Ht. specialize (Ht _ _ Hn). cbv beta in Ht.
    unfold name_reserved_by in Ht. by apply N.eqb_neq in Ht.
Qed.

Lemma fetch_service_row_Ok id upd db r db' :
  tx_result (fetch_service_row id upd) db = Ok (r, db') -> services db !! id = r /\ db' = db.
Proof.
  unfold fetch_service_row. intros Hrun.
  tx_step Hrun Hg. apply tx_bind_Ok in Hrun as (u & d & Hl & Hrun).
  assert (d = db) as -> by (destruct upd; tx_prim Hl; done).
  by apply tx_ret_Ok in Hrun as [<- <-].
Qed.

(** A bucket record shows its row. *)
Record shows_bucket (r : BucketRow) (b : BucketRecord) : Prop := {
  sb_id : br_service_instance_id b = bkt_service_instance_id r;
  sb_organization : br_organization_id b = bkt_organization_id r;
  sb_project : br_project_id b = bkt_project_id r;
  sb_physical : br_physical_bucket_id b = bkt_physical_bucket_id r;
  sb_name : br_bucket_name b = bkt_bucket_name r;
  sb_region : br_region b = bkt_region r;
  sb_quota_bytes : br_quota_bytes b = bkt_quota_bytes r;
  sb_quota_objects : br_quota_objects b = bkt_quota_objects r;
  sb_used_bytes : br_used_bytes b = bkt_used_bytes r;
  sb_used_objects : br_used_objects b = bkt_used_objects r;
  sb_measured : br_usage_measured_at b = bkt_usage_measured_at r;
}.

Lemma from_i64_Ok v f w : from_i64 v f = Ok w -> w = v.
Proof.
  unfold from_i64, u64_try_from_i64. rewrite ok_or_Ok.
  intros Hc. case_match; by simplify_eq.
Qed.

Lemma BucketRow_try_into_record_Ok r b :
  BucketRow_try_into_record r = Ok b -> shows_bucket r b.
Proof.
  unfold BucketRow_try_into_record. intros Hb.
  apply result_bind_Ok in Hb as (qb & Hqb%from_i64_Ok & Hb).
  apply result_bind_Ok in Hb as (qo & Hqo%from_i64_Ok & Hb).
  apply result_bind_Ok in Hb as (ub & Hub%from_i64_Ok & Hb).
  apply result_bind_Ok in Hb as (uo & Huo%from_i64_Ok & Hb).
  simplify_eq. by constructor.
Qed.

Lemma fetch_bucket_row_Ok id db b db' :
  tx_result (fetch_bucket_row id) db = Ok (Some b, db') ->
  db' = db /\ exists r, buckets db !! id = Some r /\ shows_bucket r b.
Proof.
  unfold fetch_bucket_row. intros Hrun. tx_step Hrun Hs.
  destruct (buckets db !! id) as [r|]; [|by apply tx_ret_Ok in Hrun as [? _]].
  tx_step Hrun Hr. apply tx_ret_Ok in Hrun as [[= <-] <-].
  apply BucketRow_try_into_record_Ok in Hr. eauto.
Qed.

Lemma ensure_scope_Ok o organization project u :
  ensure_scope o organization project = Ok u ->
  organization = op_organization_id o /\ project = op_project_id o.
Proof.
  unfold ensure_scope. destruct (N.eqb_spec (op_organization_id o) organization); [|done].
  destruct (N.eqb_spec (op_project_id o) project); [|done]. done.
Qed.

Section effects.
Context `{SerdeJson} `{Aead}.

(** ** Answers from the receipt alone *)

(** The request is answered without executing anything: another attempt still
    holds its lease, or the operation is complete. *)
Inductive answered {T : Type} (self : PgStore) (env : Env) (o : OperationRequest) (db : Db)
  : Prepare T -> Prop :=
| answer_busy row t :
    receipts db !! op_idempotency_key o = Some row ->
    ReceiptRow_matches row o = true ->
    rcp_state row = in_progress ->
    rcp_lease_expires_at row = Some t -> (env_clock env < t)%Z ->
    answered self env o db (InProgress (rcp_operation_id row))
| answer_replay row response :
    receipts db !! op_idempotency_key o = Some row ->
    ReceiptRow_matches row o = true ->
    rcp_state row <> in_progress ->
    decode_receipt self row = Ok response ->
    answered self env o db (Replay response).

Lemma with_claim_Ok {T : Type} self env o (body : option Uuid -> Tx (Prepare T)) db p db' :
  tx_result (with_claim self env o body) db = Ok (p, db') ->
  (db' = db /\ answered self env o db p) \/
  (receipts db !! op_idempotency_key o = None /\ tx_result (body None) db = Ok (p, db')) \/
  (exists row, taken_over env o db row /\
     tx_result (body (Some (env_operation_id env)))
       (takeover_db env (op_idempotency_key o) row db) = Ok (p, db')).
Proof.
  unfold with_claim. intros Hrun. tx_step Hrun Hl. tx_step Hrun Hclaim.
  apply claim_existing_receipt_Ok in Hclaim. destruct Hclaim.
  - right; left. eauto.
  - right; right. exists row. split; [constructor; eauto|done].
  - left. simpl in Hrun. apply tx_ret_Ok in Hrun as [<- <-]. split; [done|].
    by eapply answer_busy.
  - left. simpl in Hrun. apply tx_ret_Ok in Hrun as [<- <-]. split; [done|].
    by eapply answer_replay.
Qed.

(** What every [prepare_...] that uses [claimed_or_reserved] does to the
    receipts, after checks that left the tables alone except the names. *)
Lemma claimed_or_reserved_new env o db0 db oid db' :
  receipts db = receipts db0 ->
  tx_result (claimed_or_reserved env o None) db = Ok (oid, db') ->
  oid = env_operation_id env /\ exists t,
    begins env o db0 t (credential_reservations db0) /\ db' = set_receipts t db.
Proof.
  simpl. intros Heq (-> & Hck & Hn & Ht & ->)%reserve_receipt_Ok. rewrite Heq in *.
  split; [done|]. eexists. split; [by apply begin_new|done].
Qed.

(** The receipt that [finish_receipt] completes, and the row it writes. *)
Definition finishes (self : PgStore) (env : Env) (o : OperationRequest) (oid : Uuid)
    (response : StoredHttpResponse) (row : ReceiptRow) (t t' : gmap Uuid ReceiptRow) : Prop :=
  t !! op_idempotency_key o = Some row /\
  ReceiptRow_matches row o = true /\ rcp_operation_id row = oid /\
  rcp_state row = in_progress /\
  exists p n c, to_vec (resp_body response) = Some p /\
    ReceiptCipher_encrypt (receipt_cipher self) (env_random env) (op_idempotency_key o) oid p
      = Ok (n, c) /\
    receipt_checks (recorded_row env response n c row) = true /\
    t' = <[op_idempotency_key o := recorded_row env response n c row]> t.

(** Complete an operation whose receipt was checked in the same transaction. *)
Lemma finish_after_require self env o oid response db row u db' :
  receipts db !! op_idempotency_key o = Some row -> rcp_state row = in_progress ->
  tx_result (finish_receipt self env o oid response) db = Ok (u, db') ->
  exists t', finishes self env o oid response row (receipts db) t' /\ db' = set_receipts t' db.
Proof.
  intros Hrow0 Hs0 Hrun.
  apply finish_receipt_Ok in Hrun as (row' & Hrow & Hm & Ho & [(Hs & _)|(Hs & Hrest)]).
  - simplify_eq.
  - rewrite Hrow0 in Hrow. injection Hrow as <-.
    destruct Hrest as (p & n & c & Hp & Hn & Hck & ->). eexists. split; [|done].
    repeat split; [done..|]. by exists p, n, c.
Qed.

Lemma insert_audit_effect env audit db u db' :
  tx_result (insert_audit env audit) db = Ok (u, db') ->
  auditable env audit db /\ db' = audit_db env audit db.
Proof. by intros (Ha & Hv & Ht & ->)%insert_audit_Ok. Qed.

(** The last statements of every completion: record the response, then the
    audit event. *)
Lemma finish_and_audit self env o oid response audit db row u db' :
  receipts db !! op_idempotency_key o = Some row -> rcp_state row = in_progress ->
  tx_result (finish_receipt self env o oid response ≫= fun _ => insert_audit env audit) db
    = Ok (u, db') ->
  exists t', finishes self env o oid response row (receipts db) t' /\
    auditable env audit db /\ db' = audit_db env audit (set_receipts t' db).
Proof.
  intros Hrow Hs Hrun. tx_step Hrun Hfin.
  eapply finish_after_require in Hfin as (t' & Hfin & ->); [|done|done].
  apply insert_audit_effect in Hrun as [Ha ->]. by exists t'.
Qed.

(** ** Failure *)

Definition names_after_failure (service : Uuid) (db : Db) : gmap string NameReservationRow :=
  map_delete_where (fun name r => name_reserved_by service r
    && negb (match buckets db !! service with
             | Some b => String.eqb (bkt_bucket_name b) name
             | None => false
             end)) (name_reservations db).

Lemma fail_operation_effect self env o oid response audit db u db' :
  tx_result (fail_operation_tx self env o oid response audit) db = Ok (u, db') ->
  exists row t', finishes self env o oid response row (receipts db) t' /\
    auditable env audit db /\
    db' = audit_db env audit
      (set_name_reservations (names_after_failure (op_service_instance_id o) db)
      (set_credential_reservations
         (map_delete_where (fun _ r => has_operation oid r) (credential_reservations db))
      (set_receipts t' db))).
Proof.
  unfold fail_operation_tx. intros Hrun. tx_steps Hrun.
  rename select (tx_result (require_in_progress_receipt _ _) _ = _) into Hreq.
  apply require_in_progress_receipt_Ok in Hreq as (-> & row & Hrow & _ & _ & Hs).
  rename select (tx_result (finish_receipt _ _ _ _ _) _ = _) into Hfin.
  eapply finish_after_require in Hfin as (t' & Hfin & ->); [|done|done].
  apply insert_audit_effect in Hrun as [Ha ->]. by exists row, t'.
Qed.

(** ** Reconciliation *)

(** The existing service admits the reconciliation: same scope, not deleted,
    no newer generation, same bucket name; [physical] is its bucket's ID and
    [again] says that this generation was already applied. *)
Definition reconcile_allowed (command : ReconcileCommand) (db : Db) (again : bool)
    (physical : option string) : Prop :=
  let o := rec_operation command in
  match services db !! op_service_instance_id o with
  | None => again = false /\ physical = None
  | Some e =>
      svc_organization_id e = op_organization_id o /\ svc_project_id e = op_project_id o /\
      svc_phase e <> "deleted" /\
      (exists b, buckets db !! op_service_instance_id o = Some b /\
         bkt_bucket_name b = spec_bucket_name (rec_spec command) /\
         physical = bkt_physical_bucket_id b) /\
      if again
      then svc_desired_generation e = rec_generation command /\
           svc_observed_generation e = rec_generation command /\
           svc_phase e = "ready" /\ svc_name e = rec_name command /\
           spec_from_value (svc_desired_spec e) = Some (rec_spec command)
      else (svc_desired_generation e < rec_generation command)%Z
  end.

Lemma check_existing_service_Ok command e db x db' :
  services db !! op_service_instance_id (rec_operation command) = Some e ->
  tx_result (check_existing_service command e) db = Ok (x, db') ->
  db' = db /\ reconcile_allowed command db x.1 x.2.
Proof.
  intros He. unfold check_existing_service, reconcile_allowed. intros Hrun.
  tx_step Hrun Hsc. apply ensure_scope_Ok in Hsc as [Ho Hp].
  tx_guard Hrun Hdel. tx_guard Hrun Hst. tx_step Hrun Hb. tx_step Hrun Hf.
  apply ok_or_Ok in Hf as ->. apply fetch_bucket_row_Ok in Hb as (-> & b & Hb & Hshow).
  tx_guard Hrun Hname. rewrite He. apply String.eqb_neq in Hdel.
  apply negb_false_iff, String.eqb_eq in Hname. rewrite (sb_name _ _ Hshow) in Hname.
  rewrite (sb_physical _ _ Hshow) in Hrun. cbv zeta in Hrun.
  destruct (Z.eqb_spec (rec_generation command) (svc_desired_generation e)) as [Hg|Hg].
  - tx_step Hrun Hspec. apply ok_or_Ok in Hspec. tx_guard Hrun Hsame. tx_guard Hrun Hready.
    apply tx_ret_Ok in Hrun as [<- <-].
    apply orb_false_iff in Hsame as [Hn%negb_false_iff Hv%negb_false_iff].
    apply orb_false_iff in Hready as [Hr%negb_false_iff Hob%negb_false_iff].
    apply String.eqb_eq in Hn, Hr. apply bool_decide_eq_true in Hv. apply Z.eqb_eq in Hob.
    split; [done|]. simpl. subst. repeat split; eauto.
  - apply tx_ret_Ok in Hrun as [<- <-]. split; [done|]. simpl.
    repeat split; eauto. lia.
Qed.

Lemma reconcile_allowed_tables command db db' again physical :
  services db' = services db -> buckets db' = buckets db ->
  reconcile_allowed command db' again physical -> reconcile_allowed command db again physical.
Proof. unfold reconcile_allowed. by intros -> ->. Qed.

(** The body of [prepare_reconcile] up to the name reservation. *)
Lemma reconcile_checks command db x db' :
  tx_result (match services db !! op_service_instance_id (rec_operation command) with
             | None => mret (false, None)
             | Some e => check_existing_service command e
             end) db = Ok (x, db') ->
  db' = db /\ reconcile_allowed command db x.1 x.2.
Proof.
  destruct (services db !! _) as [e|] eqn:He; intros Hrun.
  - by eapply check_existing_service_Ok.
  - apply tx_ret_Ok in Hrun as [<- <-]. split; [done|]. unfold reconcile_allowed. by rewrite He.
Qed.

Lemma prepare_reconcile_effect self env command db p db' :
  let o := rec_operation command in
  tx_result (prepare_reconcile_tx self env command) db = Ok (p, db') ->
  (db' = db /\ answered self env o db p) \/
  exists again physical t cr nm,
    p = Execute (env_operation_id env) (reconcile_context command physical again) /\
    begins env o db t cr /\
    no_parallel (op_service_instance_id o) (op_idempotency_key o) (receipts db) /\
    reconcile_allowed command db again physical /\
    names_after env (spec_bucket_name (rec_spec command)) (op_service_instance_id o)
      (name_reservations db) nm /\
    db' = set_name_reservations nm (set_credential_reservations cr (set_receipts t db)).
Proof.
  intros o Hrun. subst o. unfold prepare_reconcile_tx in Hrun. cbv zeta in Hrun.
  apply with_claim_Ok in Hrun as [Hans|[[Hnone Hrun]|(row & Hto & Hrun)]]; [by left|right..];
    tx_step Hrun Hl; tx_step Hrun Hpar; tx_step Hrun Hsvc; tx_step Hrun Hchk; tx_step Hrun Hnam;
    tx_step Hrun Hcl; apply tx_ret_Ok in Hrun as [<- <-];
    apply reject_parallel_operation_Ok in Hpar as [-> Hpar];
    apply fetch_service_row_Ok in Hsvc as [<- ->];
    apply reconcile_checks in Hchk as [-> Hchk];
    apply reserve_bucket_name_Ok in Hnam as (nm & Hnam & ->).
  - apply (claimed_or_reserved_new _ _ db) in Hcl as (-> & t & Hb & ->); [|done].
    by eexists _, _, t, (credential_reservations db), nm.
  - apply tx_ret_Ok in Hcl as [<- <-]. eexists _, _, _, _, nm. split; [done|].
    split; [by apply begin_takeover|].
    split; [by eapply (no_parallel_insert _ _ (claimed_row env row))|]. done.
Qed.

Lemma upsert_service_Ok env command spec oid db db' :
  tx_result (upsert_service env command spec oid) db = Ok (1, db') ->
  let o := rec_operation command in
  exists created,
    service_checks (reconciled_service env command spec oid created) = true /\
    (forall r, services db !! op_service_instance_id o = Some r ->
       service_updatable command r = true /\ created = svc_created_at r) /\
    service_name_taken (op_service_instance_id o) (op_project_id o) (rec_name command)
      (services db) = false /\
    db' = set_services (<[op_service_instance_id o :=
            reconciled_service env command spec oid created]> (services db)) db.
Proof.
  intros Hrun. unfold upsert_service in Hrun. cbv zeta. tx_step Hrun Hs. tx_step Hrun Hck.
  tx_guard Hrun Hup; [|by apply tx_ret_Ok in Hrun as [? _]].
  tx_steps Hrun. eexists. split; [done|]. split; [|split; [by apply negb_true_iff|done]].
  intros r Hr. rewrite Hr in Hup |- *. done.
Qed.

Lemma upsert_bucket_Ok env command physical qb qo db u db' :
  tx_result (upsert_bucket env command physical qb qo) db = Ok (u, db') ->
  let o := rec_operation command in
  let id := op_service_instance_id o in
  let row := reconciled_bucket env command physical qb qo (buckets db !! id) in
  bucket_checks row = true /\
  bucket_name_taken id (spec_bucket_name (rec_spec command)) (buckets db) = false /\
  physical_id_taken id physical (buckets db) = false /\
  db' = set_buckets (<[id := row]> (buckets db)) db.
Proof.
  intros Hrun. unfold upsert_bucket in Hrun. cbv zeta. tx_steps Hrun.
  rewrite !negb_true_iff in *. done.
Qed.

Lemma complete_reconcile_effect self env command oid physical spec qb qo response audit db u db' :
  let o := rec_operation command in
  let id := op_service_instance_id o in
  let name := spec_bucket_name (rec_spec command) in
  let bucket := reconciled_bucket env command physical qb qo (buckets db !! id) in
  tx_result (complete_reconcile_tx self env command oid physical spec qb qo response audit) db
    = Ok (u, db') ->
  exists row t' created,
    let service := reconciled_service env command spec oid created in
    finishes self env o oid response row (receipts db) t' /\
    service_checks service = true /\
    (forall r, services db !! id = Some r ->
       service_updatable command r = true /\ created = svc_created_at r) /\
    service_name_taken id (op_project_id o) (rec_name command) (services db) = false /\
    bucket_checks bucket = true /\
    bucket_name_taken id name (buckets db) = false /\
    physical_id_taken id physical (buckets db) = false /\
    auditable env audit db /\
    db' = audit_db env audit (set_receipts t'
      (set_name_reservations (map_delete_where (fun n r => name_reserved_by id r
           && negb (String.eqb n name)) (name_reservations db))
      (set_buckets (<[id := bucket]> (buckets db))
      (set_services (<[id := service]> (services db)) db)))).
Proof.
  intros o id name bucket Hrun. subst o id name bucket. unfold complete_reconcile_tx in Hrun.
  tx_step Hrun Hl. tx_step Hrun Hreq. tx_step Hrun Hup. tx_guard Hrun Hrows.
  apply negb_false_iff, Nat.eqb_eq in Hrows. subst.
  tx_step Hrun Hbk. tx_step Hrun Hnam.
  apply require_in_progress_receipt_Ok in Hreq as (-> & row & Hrow & _ & _ & Hs).
  apply upsert_service_Ok in Hup as (created & Hck & Hupd & Htaken & ->).
  apply upsert_bucket_Ok in Hbk as (Hbck & Hbn & Hph & ->).
  eapply finish_and_audit in Hrun as (t' & Hfin & Ha & ->); [|done|done].
  exists row, t', created. by repeat (split; [done|]).
Qed.

(** ** Deletion *)

(** The service in scope that a deletion finds: live, one generation behind,
    with a physical bucket. *)
Definition delete_allowed (command : DeleteCommand) (db : Db) (bucket : BucketRecord) : Prop :=
  let o := del_operation command in
  exists e b, services db !! op_service_instance_id o = Some e /\
    svc_organization_id e = op_organization_id o /\ svc_project_id e = op_project_id o /\
    svc_phase e <> "deleted" /\
    i64_checked_add (svc_desired_generation e) 1 = Some (del_generation command) /\
    buckets db !! op_service_instance_id o = Some b /\ shows_bucket b bucket /\
    is_some (bkt_physical_bucket_id b) = true.

(** The Garage keys a deletion has to remove: those of the active credentials
    of the service, oldest first. *)
Definition active_keys (service : Uuid) (db : Db) : list string :=
  crd_garage_key_id <$>
    order_by created_before
      (List.filter (active_in service) (snd <$> map_to_list (credentials db))).

Lemma i64_checked_add_Some a b c : i64_checked_add a b = Some c -> c = (a + b)%Z.
Proof. unfold i64_checked_add. intros Hc. repeat case_match; by simplify_eq. Qed.

Lemma is_none_false {A : Type} (x : option A) : is_none x = false -> is_some x = true.
Proof. by destruct x. Qed.

Lemma prepare_delete_effect self env command db p db' :
  let o := del_operation command in
  tx_result (prepare_delete_tx self env command) db = Ok (p, db') ->
  (db' = db /\ answered self env o db p) \/
  exists bucket t cr,
    p = Execute (env_operation_id env)
          {| dc_bucket := bucket;
             dc_garage_key_ids := active_keys (op_service_instance_id o) db |} /\
    begins env o db t cr /\
    no_parallel (op_service_instance_id o) (op_idempotency_key o) (receipts db) /\
    delete_allowed command db bucket /\
    db' = set_credential_reservations cr (set_receipts t db).
Proof.
  intros o Hrun. subst o. unfold prepare_delete_tx in Hrun. cbv zeta in Hrun.
  apply with_claim_Ok in Hrun as [Hans|[[Hnone Hrun]|(row & Hto & Hrun)]]; [by left|right..];
    tx_step Hrun Hl1; tx_step Hrun Hl2; tx_step Hrun Hpar; tx_step Hrun Hsvc; tx_step Hrun Hfs;
    tx_step Hrun Hsc; tx_guard Hrun Hdel; tx_step Hrun Hgen; tx_guard Hrun Hst;
    tx_guard Hrun Hnext; tx_step Hrun Hbk; tx_step Hrun Hfb; tx_guard Hrun Hphys;
    tx_step Hrun Hkeys; tx_step Hrun Hcl; apply tx_ret_Ok in Hrun as [<- <-];
    apply reject_parallel_operation_Ok in Hpar as [-> Hpar];
    apply fetch_service_row_Ok in Hsvc as [<- ->]; apply ok_or_Ok in Hfs, Hgen, Hfb; subst;
    apply ensure_scope_Ok in Hsc as [Ho Hp];
    apply fetch_bucket_row_Ok in Hbk as (-> & b & Hb & Hshow);
    apply negb_false_iff, Z.eqb_eq in Hnext; rewrite <- Hnext in Hgen; apply String.eqb_neq in Hdel;
    apply is_none_false in Hphys; rewrite (sb_physical _ _ Hshow) in Hphys.
  - apply (claimed_or_reserved_new _ _ db) in Hcl as (-> & t & Hbg & ->); [|done].
    eexists _, t, (credential_reservations db). split; [done|]. split; [done|].
    split; [done|]. split; [|done]. eexists _, b. split_and!; eauto.
  - apply tx_ret_Ok in Hcl as [<- <-]. eexists _, _, _. split; [done|].
    split; [by apply begin_takeover|].
    split; [by eapply (no_parallel_insert _ _ (claimed_row env row))|]. split; [|done].
    eexists _, b. split_and!; eauto.
Qed.

Lemma update_deleted_service_Ok env command oid db db' :
  tx_result (update_deleted_service env command oid) db = Ok (1, db') ->
  let o := del_operation command in
  exists r, services db !! op_service_instance_id o = Some r /\
    svc_organization_id r = op_organization_id o /\ svc_project_id r = op_project_id o /\
    svc_phase r <> "deleted" /\
    service_checks (deleted_service env (del_generation command) oid r) = true /\
    db' = set_services (<[op_service_instance_id o :=
            deleted_service env (del_generation command) oid r]> (services db)) db.
Proof.
  intros Hrun. unfold update_deleted_service in Hrun. cbv zeta. tx_step Hrun Hs.
  destruct (services db !! _) as [r|] eqn:Hr; [|by apply tx_ret_Ok in Hrun as [? _]].
  tx_guard Hrun Hg; [|by apply tx_ret_Ok in Hrun as [? _]].
  apply andb_true_iff in Hg as [[Ho Hp]%andb_true_iff Hd]. apply N.eqb_eq in Ho, Hp.
  apply negb_true_iff, String.eqb_neq in Hd. tx_steps Hrun. exists r. split_and!; eauto.
Qed.

(** Revoke every active credential of the service. *)
Definition revoke_all (env : Env) (service by_ : Uuid) (t : gmap Uuid CredentialRow)
  : gmap Uuid CredentialRow :=
  map_update_where (active_in service) (revoked_row (env_now env) by_) t.

Lemma complete_delete_effect self env command oid response audit db u db' :
  let o := del_operation command in
  let id := op_service_instance_id o in
  tx_result (complete_delete_tx self env command oid response audit) db = Ok (u, db') ->
  exists row t' r,
    finishes self env o oid response row (receipts db) t' /\
    services db !! id = Some r /\
    svc_organization_id r = op_organization_id o /\ svc_project_id r = op_project_id o /\
    svc_phase r <> "deleted" /\
    service_checks (deleted_service env (del_generation command) oid r) = true /\
    auditable env audit db /\
    db' = audit_db env audit (set_receipts t'
      (set_name_reservations
         (map_delete_where (fun _ r => name_reserved_by id r) (name_reservations db))
      (set_services (<[id := deleted_service env (del_generation command) oid r]> (services db))
      (set_credentials (revoke_all env id (op_principal_id o) (credentials db)) db)))).
Proof.
  intros o id Hrun. subst o id. unfold complete_delete_tx in Hrun.
  tx_step Hrun Hl. tx_step Hrun Hreq. tx_step Hrun Hm. tx_step Hrun Hup. tx_guard Hrun Hrows.
  apply negb_false_iff, Nat.eqb_eq in Hrows. subst. tx_step Hrun Hnam.
  apply require_in_progress_receipt_Ok in Hreq as (-> & row & Hrow & _ & _ & Hs).
  apply update_deleted_service_Ok in Hup as (r & Hr & Ho & Hp & Hd & Hck & ->).
  eapply finish_and_audit in Hrun as (t' & Hfin & Ha & ->); [|done|done].
  exists row, t', r. by repeat (split; [done|]).
Qed.

(** ** Credentials *)

(** The service in scope that a credential operation needs: ready, observed,
    with a physical bucket. *)
Definition service_ready (o : OperationRequest) (db : Db) (bucket : BucketRecord) : Prop :=
  exists e b, services db !! op_service_instance_id o = Some e /\
    svc_organization_id e = op_organization_id o /\ svc_project_id e = op_project_id o /\
    svc_phase e = "ready" /\ svc_observed_generation e = svc_desired_generation e /\
    buckets db !! op_service_instance_id o = Some b /\ shows_bucket b bucket /\
    is_some (bkt_physical_bucket_id b) = true.

Lemma ready_bucket_Ok o db bucket db' :
  tx_result (ready_bucket_in_transaction o) db = Ok (bucket, db') ->
  db' = db /\ service_ready o db bucket.
Proof.
  intros Hrun. unfold ready_bucket_in_transaction in Hrun.
  tx_step Hrun Hsvc. tx_step Hrun Hfs. tx_step Hrun Hsc. tx_guard Hrun Hready.
  tx_step Hrun Hbk. tx_step Hrun Hfb. tx_guard Hrun Hphys. apply tx_ret_Ok in Hrun as [<- <-].
  apply fetch_service_row_Ok in Hsvc as [<- ->]. apply ok_or_Ok in Hfs, Hfb. subst.
  apply ensure_scope_Ok in Hsc as [Ho Hp].
  apply fetch_bucket_row_Ok in Hbk as (-> & b & Hb & Hshow).
  apply orb_false_iff in Hready as [Hr%negb_false_iff Hob%negb_false_iff].
  apply String.eqb_eq in Hr. apply Z.eqb_eq in Hob.
  apply is_none_false in Hphys. rewrite (sb_physical _ _ Hshow) in Hphys.
  split; [done|]. eexists _, b. split_and!; eauto.
Qed.

Definition bucket_limit (self : PgStore) (command : CreateCredentialCommand) : Z :=
  Z.min (max_credentials_per_bucket (cre_credential_limits command))
    (max_credentials_per_bucket (credential_limits self)).
Definition organization_limit (self : PgStore) (command : CreateCredentialCommand) : Z :=
  Z.min (max_total_credentials (cre_credential_limits command))
    (max_total_credentials (credential_limits self)).

(** A first attempt: the receipt and the reservation it inserts. *)
Record creates_new (self : PgStore) (env : Env) (command : CreateCredentialCommand) (db : Db)
    (permissions : Value) : Prop := {
  cn_key : receipts db !! op_idempotency_key (cre_operation command) = None;
  cn_receipt : receipt_checks (reserved_row env (cre_operation command)) = true;
  cn_fresh : operation_id_taken (op_idempotency_key (cre_operation command))
    (env_operation_id env) (receipts db) = false;
  cn_permissions : permissions_to_value (cre_permissions command) = Some permissions;
  cn_checks : credential_reservation_checks
    (reservation_row env command (env_operation_id env) permissions) = true;
  cn_id : credential_reservations db !! env_credential_id env = None;
  cn_operation : forall c r, credential_reservations db !! c = Some r ->
    crr_operation_id r <> env_operation_id env;
  cn_name : credential_name_used (op_service_instance_id (cre_operation command))
    (cre_name command) db = false;
  cn_bucket_limit : (Z.of_nat (per_bucket_count (op_service_instance_id (cre_operation command)) db)
    < bucket_limit self command)%Z;
  cn_organization_limit : (Z.of_nat (total_count (op_organization_id (cre_operation command)) db)
    < organization_limit self command)%Z;
}.

Lemma creates_new_begins self env command db permissions :
  creates_new self env command db permissions ->
  begins env (cre_operation command) db
    (<[op_idempotency_key (cre_operation command) := reserved_row env (cre_operation command)]>
       (receipts db)) (credential_reservations db).
Proof. intros [Hk Hr Hf _ _ _ _ _ _ _]. by apply begin_new. Qed.

Definition create_db (env : Env) (command : CreateCredentialCommand) (permissions : Value)
    (db : Db) : Db :=
  set_credential_reservations
    (<[env_credential_id env := reservation_row env command (env_operation_id env) permissions]>
       (credential_reservations db))
    (set_receipts
       (<[op_idempotency_key (cre_operation command) := reserved_row env (cre_operation command)]>
          (receipts db)) db).

(** The outcomes of [prepare_create_credential] that change the tables. *)
Inductive create_begins (self : PgStore) (env : Env) (command : CreateCredentialCommand)
    (db : Db) (bucket : BucketRecord) : Prepare CreateCredentialContext -> Db -> Prop :=
| create_first permissions db' :
    creates_new self env command db permissions ->
    db' = create_db env command permissions db ->
    create_begins self env command db bucket
      (Execute (env_operation_id env)
         {| cc_bucket := bucket; cc_credential_id := env_credential_id env |})
      db'
| create_again row c r :
    taken_over env (cre_operation command) db row ->
    move_reservations (rcp_operation_id row) (env_operation_id env)
      (credential_reservations db) !! c = Some r ->
    has_operation (env_operation_id env) r = true ->
    CredentialReservationRow_matches r command = true ->
    create_begins self env command db bucket
      (Execute (env_operation_id env)
         {| cc_bucket := bucket; cc_credential_id := crr_credential_id r |})
      (takeover_db env (op_idempotency_key (cre_operation command)) row db).

Lemma insert_reservation_Ok row db u db' :
  tx_result (insert_reservation row) db = Ok (u, db') ->
  credential_reservation_checks row = true /\
  credential_reservations db !! crr_credential_id row = None /\
  (forall c r, credential_reservations db !! c = Some r ->
     crr_operation_id r <> crr_operation_id row) /\
  db' = set_credential_reservations
    (<[crr_credential_id row := row]> (credential_reservations db)) db.
Proof.
  intros Hrun. unfold insert_reservation in Hrun. tx_steps Hrun. rewrite !negb_true_iff in *.
  split; [done|]. split; [by destruct (credential_reservations db !! _)|]. split; [|done].
  intros c r Hc Ho. rename select (map_existsb (fun _ r => has_operation _ r) _ = false) into Hno.
  rewrite map_existsb_false in Hno. specialize (Hno c r Hc). cbv beta in Hno.
  unfold has_operation in Hno. by apply N.eqb_neq in Hno.
Qed.

Lemma head_filter_Some {A : Type} (f : A -> bool) (l : list A) x :
  head (List.filter f l) = Some x -> x ∈ l /\ f x = true.
Proof.
  intros Hh. destruct (List.filter f l) as [|y l'] eqn:Hl; [done|]. simplify_eq/=.
  assert (Hin : List.In x (List.filter f l)) by (rewrite Hl; by left).
  apply filter_In in Hin as [Hin Hf]. by split; [apply list_elem_of_In|].
Qed.

Lemma prepare_create_effect self env command db p db' :
  let o := cre_operation command in
  tx_result (prepare_create_credential_tx self env command) db = Ok (p, db') ->
  (db' = db /\ answered self env o db p) \/
  exists bucket, service_ready o db bucket /\
    no_parallel (op_service_instance_id o) (op_idempotency_key o) (receipts db) /\
    create_begins self env command db bucket p db'.
Proof.
  intros o Hrun. subst o. unfold prepare_create_credential_tx in Hrun. cbv zeta in Hrun.
  apply with_claim_Ok in Hrun as [Hans|[[Hnone Hrun]|(row & Hto & Hrun)]]; [by left|right..];
    tx_step Hrun Hl1; tx_step Hrun Hl2; tx_step Hrun Hrdy; apply ready_bucket_Ok in Hrdy as [-> Hrdy].
  - tx_step Hrun Htx. tx_step Hrun Hdup. tx_guard Hrun Hused. tx_step Hrun Hpb. tx_guard Hrun Hlb.
    tx_step Hrun Htot. tx_guard Hrun Hlt. tx_step Hrun Hpar. tx_step Hrun Hres.
    tx_step Hrun Hperm. tx_step Hrun Hins. apply tx_ret_Ok in Hrun as [<- <-].
    apply reject_parallel_operation_Ok in Hpar as [-> Hpar].
    apply reserve_receipt_Ok in Hres as (-> & Hck & _ & Hfresh & ->).
    apply ok_or_Ok in Hperm. apply insert_reservation_Ok in Hins as (Hrck & Hid & Hop & ->).
    eexists. split; [done|]. split; [done|]. eapply create_first; [|reflexivity].
    constructor; try done; [unfold bucket_limit; lia|unfold organization_limit; lia].
  - tx_step Hrun Hpar. tx_step Hrun Hl3. tx_step Hrun Hrows. tx_step Hrun Hhd.
    tx_guard Hrun Hm. apply tx_ret_Ok in Hrun as [<- <-]. apply negb_false_iff in Hm.
    apply reject_parallel_operation_Ok in Hpar as [-> Hpar]. apply ok_or_Ok in Hhd.
    apply head_filter_Some in Hhd as [Hin Hop].
    apply list_elem_of_fmap in Hin as ([c r] & -> & Hin%elem_of_map_to_list).
    eexists. split; [done|].
    split; [by eapply (no_parallel_insert _ _ (claimed_row env row))|]. by eapply create_again.
Qed.

Lemma insert_credential_Ok row db u db' :
  tx_result (insert_credential row) db = Ok (u, db') ->
  credential_checks row = true /\ credentials db !! crd_id row = None /\
  map_existsb (fun _ r => String.eqb (crd_garage_key_id r) (crd_garage_key_id row)
    || String.eqb (crd_access_key_id r) (crd_access_key_id row)) (credentials db) = false /\
  map_existsb (fun _ r => N.eqb (crd_service_instance_id r) (crd_service_instance_id row)
    && String.eqb (crd_name r) (crd_name row)) (credentials db) = false /\
  db' = set_credentials (<[crd_id row := row]> (credentials db)) db.
Proof.
  intros Hrun. unfold insert_credential in Hrun. tx_steps Hrun. rewrite !negb_true_iff in *.
  split; [done|]. split; [by destruct (credentials db !! _)|]. done.
Qed.

Lemma complete_create_effect self env command oid credential permissions response audit db u db' :
  let o := cre_operation command in
  let new := credential_row env command credential permissions in
  tx_result (complete_create_credential_tx self env command oid credential permissions response
               audit) db = Ok (u, db') ->
  exists row t' r,
    finishes self env o oid response row (receipts db) t' /\
    credential_reservations db !! nc_id credential = Some r /\
    has_operation oid r = true /\
    crr_service_instance_id r = op_service_instance_id o /\ crr_name r = cre_name command /\
    credential_checks new = true /\ credentials db !! nc_id credential = None /\
    map_existsb (fun _ r => String.eqb (crd_garage_key_id r) (crd_garage_key_id new)
      || String.eqb (crd_access_key_id r) (crd_access_key_id new)) (credentials db) = false /\
    map_existsb (fun _ r => N.eqb (crd_service_instance_id r) (crd_service_instance_id new)
      && String.eqb (crd_name r) (crd_name new)) (credentials db) = false /\
    auditable env audit db /\
    db' = audit_db env audit (set_receipts t'
      (set_credential_reservations
         (map_delete_where (fun k r => N.eqb k (nc_id credential) && has_operation oid r)
            (credential_reservations db))
      (set_credentials (<[nc_id credential := new]> (credentials db)) db))).
Proof.
  intros o new Hrun. subst o new. unfold complete_create_credential_tx in Hrun.
  tx_step Hrun Hl1. tx_step Hrun Hl2. tx_step Hrun Hreq. tx_step Hrun Htx.
  tx_step Hrun Hres. tx_guard Hrun Hg.
  tx_step Hrun Hins. tx_step Hrun Hm.
  apply require_in_progress_receipt_Ok in Hreq as (-> & row & Hrow & _ & _ & Hs).
  apply insert_credential_Ok in Hins as (Hck & Hid & Hkeys & Hnames & ->).
  eapply finish_and_audit in Hrun as (t' & Hfin & Ha & ->); [|done|done].
  apply negb_false_iff in Hg. destruct (credential_reservations db !! _) as [r|] eqn:Hr; [|done].
  apply andb_true_iff in Hg as [[Hop Hsv]%andb_true_iff Hnm%String.eqb_eq].
  apply N.eqb_eq in Hsv. exists row, t', r. by repeat (split; [done|]).
Qed.

Lemma prepare_revoke_effect self env command db p db' :
  let o := rev_operation command in
  tx_result (prepare_revoke_credential_tx self env command) db = Ok (p, db') ->
  (db' = db /\ answered self env o db p) \/
  exists bucket c t cr,
    p = Execute (env_operation_id env)
          {| vc_garage_key_id := crd_garage_key_id c;
             vc_already_revoked := String.eqb (crd_status c) "revoked" |} /\
    begins env o db t cr /\
    no_parallel (op_service_instance_id o) (op_idempotency_key o) (receipts db) /\
    service_ready o db bucket /\
    credentials db !! rev_credential_id command = Some c /\
    crd_service_instance_id c = op_service_instance_id o /\
    db' = set_credential_reservations cr (set_receipts t db).
Proof.
  intros o Hrun. subst o. unfold prepare_revoke_credential_tx in Hrun. cbv zeta in Hrun.
  apply with_claim_Ok in Hrun as [Hans|[[Hnone Hrun]|(row & Hto & Hrun)]]; [by left|right..];
    tx_step Hrun Hl; tx_step Hrun Hpar; tx_step Hrun Hrdy; tx_step Hrun Hl2; tx_step Hrun Hfc;
    tx_step Hrun Hc; tx_step Hrun Hcl; apply tx_ret_Ok in Hrun as [<- <-];
    apply reject_parallel_operation_Ok in Hpar as [-> Hpar];
    apply ready_bucket_Ok in Hrdy as [-> Hrdy]; apply ok_or_Ok in Hc;
    apply bind_Some in Hc as (c & Hfound & Hsame);
    (destruct (N.eqb_spec (crd_service_instance_id c)
                 (op_service_instance_id (rev_operation command))) as [Hsv|]; [|done]);
    injection Hsame as <-.
  - apply (claimed_or_reserved_new _ _ db) in Hcl as (-> & t & Hbg & ->); [|done].
    by eexists _, c, t, (credential_reservations db).
  - apply tx_ret_Ok in Hcl as [<- <-]. eexists _, c, _, _. split; [done|].
    split; [by apply begin_takeover|].
    split; [by eapply (no_parallel_insert _ _ (claimed_row env row))|]. done.
Qed.

Lemma update_revoked_Ok env command db db' :
  tx_result (update_revoked env command) db = Ok (1, db') ->
  exists c, credentials db !! rev_credential_id command = Some c /\
    crd_service_instance_id c = op_service_instance_id (rev_operation command) /\
    db' = set_credentials (<[rev_credential_id command :=
      revoked_row (env_now env) (op_principal_id (rev_operation command)) c]> (credentials db)) db.
Proof.
  intros Hrun. unfold update_revoked in Hrun. tx_step Hrun Hs.
  destruct (credentials db !! _) as [c|] eqn:Hc; [|by apply tx_ret_Ok in Hrun as [? _]].
  tx_guard Hrun Hg; [|by apply tx_ret_Ok in Hrun as [? _]]. apply N.eqb_eq in Hg.
  tx_steps Hrun. eauto.
Qed.

Lemma complete_revoke_effect self env command oid response audit db u db' :
  let o := rev_operation command in
  tx_result (complete_revoke_credential_tx self env command oid response audit) db = Ok (u, db') ->
  exists row t' c,
    finishes self env o oid response row (receipts db) t' /\
    credentials db !! rev_credential_id command = Some c /\
    crd_service_instance_id c = op_service_instance_id o /\
    auditable env audit db /\
    db' = audit_db env audit (set_receipts t' (set_credentials
      (<[rev_credential_id command := revoked_row (env_now env) (op_principal_id o) c]>
         (credentials db)) db)).
Proof.
  intros o Hrun. subst o. unfold complete_revoke_credential_tx in Hrun.
  tx_step Hrun Hl. tx_step Hrun Hreq. tx_step Hrun Hup. tx_guard Hrun Hrows.
  apply negb_false_iff, Nat.eqb_eq in Hrows. subst.
  apply require_in_progress_receipt_Ok in Hreq as (-> & row & Hrow & _ & _ & Hs).
  apply update_revoked_Ok in Hup as (c & Hc & Hsv & ->).
  eapply finish_and_audit in Hrun as (t' & Hfin & Ha & ->); [|done|done].
  exists row, t', c. by repeat (split; [done|]).
Qed.

(** ** Usage *)

Lemma upsert_usage_Ok env id organization project b n measured db u db' :
  tx_result (upsert_usage env id organization project b n measured) db = Ok (u, db') ->
  (0 <= b)%Z /\ (0 <= n)%Z /\ exists t,
    db' = set_usage_snapshots t db /\
    (forall k, k <> id -> t !! k = usage_snapshots db !! k) /\
    match usage_snapshots db !! id with
    | Some r => if (usg_measured_at r <=? measured)%Z
                then exists r', t !! id = Some r' /\ usg_bytes_used r' = b /\
                       usg_objects_used r' = n /\ usg_measured_at r' = measured
                else t !! id = Some r
    | None => exists r', t !! id = Some r' /\ usg_bytes_used r' = b /\
                usg_objects_used r' = n /\ usg_measured_at r' = measured
    end.
Proof.
  intros Hrun. unfold upsert_usage in Hrun. tx_step Hrun Hs. tx_step Hrun Hck.
  unfold usage_checks in Hck. simpl in Hck. apply andb_true_iff in Hck as [Hb Hn].
  split; [lia|]. split; [lia|].
  destruct (usage_snapshots db !! id) as [r|] eqn:Hr.
  - destruct (usg_measured_at r <=? measured)%Z; tx_steps Hrun.
    + eexists. split; [done|]. split; [intros; by rewrite lookup_insert_ne|].
      eexists. by rewrite lookup_insert_eq.
    + exists (usage_snapshots db). split; [by destruct db|]. done.
  - tx_steps Hrun. eexists. split; [done|]. split; [intros; by rewrite lookup_insert_ne|].
    eexists. by rewrite lookup_insert_eq.
Qed.

Lemma record_usage_effect env organization project id b n measured db r db' :
  tx_result (record_usage_tx env organization project id b n measured) db = Ok (r, db') ->
  buckets db !! id = Some r /\ bkt_organization_id r = organization /\
  bkt_project_id r = project /\ bucket_checks (bucket_with_usage env b n measured r) = true /\
  exists t, db' = set_usage_snapshots t
              (set_buckets (<[id := bucket_with_usage env b n measured r]> (buckets db)) db).
Proof.
  intros Hrun. unfold record_usage_tx in Hrun. tx_step Hrun Hl. tx_step Hrun Hf.
  tx_step Hrun Hb. tx_step Hrun Hck. tx_step Hrun Hm. tx_step Hrun Hus.
  apply tx_ret_Ok in Hrun as [<- <-]. apply ok_or_Ok, bind_Some in Hb as (r & Hr & Hsc).
  destruct (N.eqb_spec (bkt_organization_id r) organization); [|done].
  destruct (N.eqb_spec (bkt_project_id r) project); [|done]. injection Hsc as <-.
  apply upsert_usage_Ok in Hus as (_ & _ & t & -> & _). by repeat (split; [done|]); exists t.
Qed.
End effects.
