(* ===== verification/StoreStep.v ===== *)
(** * The store as a transition system

    Every run of the service is a sequence of store transactions, in whatever
    order concurrent requests, retries and crashes produce; PostgreSQL makes each
    of them atomic.  [store_step] is one call of one method of [PgStore] with
    arbitrary arguments, an arbitrary clock, arbitrary generated identifiers and
    an arbitrary fault (the methods that only read are not steps); the actions of the commands are those the HTTP handlers
    set ([crates/syouyu-api/src/routes.rs]).  [store_effect] is the same relation
    in terms of tables, and [receipt_step] its projection on the receipts. *)

From stdpp Require Import relations.
From S2P Require Import Prelude RustStr Domain Auth Json StoreModels Cipher Tables Receipts ReceiptLemmas Store StoreEffects.

Definition CREDENTIAL_CREATE_ACTION : string := "credential.create".
Definition CREDENTIAL_REVOKE_ACTION : string := "credential.revoke".

Section step.
Context `{SerdeJson} `{Aead}.
Context (self : PgStore).

(** The request hash of a reconciliation binds the bucket name it asks for:
    [bucket_of] is the name in the request with that hash. *)
Context (bucket_of : bytes -> string).

Definition reconcile_command_ok (command : ReconcileCommand) : Prop :=
  op_action (rec_operation command) = PROVIDER_RECONCILE_ACTION /\
  spec_bucket_name (rec_spec command) = bucket_of (op_request_hash (rec_operation command)).

(** The handlers answer with JSON bodies of strings, integers and booleans. *)
Definition response_ok (response : StoredHttpResponse) : Prop :=
  no_floats (resp_body response) = true.

Inductive store_step_at (env : Env) (db : Db) : Db -> Prop :=
| step_prepare_reconcile fault command r db' :
    reconcile_command_ok command ->
    prepare_reconcile self fault env command db = (r, db') -> store_step_at env db db'
| step_complete_reconcile fault command oid physical response audit r db' :
    reconcile_command_ok command -> response_ok response ->
    complete_reconcile self fault env command oid physical response audit db = (r, db') ->
    store_step_at env db db'
| step_prepare_delete fault command r db' :
    op_action (del_operation command) = PROVIDER_DELETE_ACTION ->
    prepare_delete self fault env command db = (r, db') -> store_step_at env db db'
| step_complete_delete fault command oid response audit r db' :
    op_action (del_operation command) = PROVIDER_DELETE_ACTION ->
    op_generation (del_operation command) = Some (del_generation command) -> response_ok response ->
    complete_delete self fault env command oid response audit db = (r, db') ->
    store_step_at env db db'
| step_prepare_create fault command r db' :
    op_action (cre_operation command) = CREDENTIAL_CREATE_ACTION ->
    prepare_create_credential self fault env command db = (r, db') -> store_step_at env db db'
| step_complete_create fault command oid credential response audit r db' :
    op_action (cre_operation command) = CREDENTIAL_CREATE_ACTION -> response_ok response ->
    complete_create_credential self fault env command oid credential response audit db = (r, db') ->
    store_step_at env db db'
| step_prepare_revoke fault command r db' :
    op_action (rev_operation command) = CREDENTIAL_REVOKE_ACTION ->
    prepare_revoke_credential self fault env command db = (r, db') -> store_step_at env db db'
| step_complete_revoke fault command oid response audit r db' :
    op_action (rev_operation command) = CREDENTIAL_REVOKE_ACTION -> response_ok response ->
    complete_revoke_credential self fault env command oid response audit db = (r, db') ->
    store_step_at env db db'
| step_renew fault o oid r db' :
    renew_operation fault env o oid db = (r, db') -> store_step_at env db db'
| step_fail fault o oid response audit r db' :
    response_ok response ->
    fail_operation self fault env o oid response audit db = (r, db') -> store_step_at env db db'
| step_usage fault organization project service b n measured r db' :
    record_usage fault env organization project service b n measured db = (r, db') ->
    store_step_at env db db'
| step_audit fault audit r db' :
    record_audit fault env audit db = (r, db') -> store_step_at env db db'.

Definition store_step (db db' : Db) : Prop := exists env, store_step_at env db db'.

(** The states a service started on an empty database can reach. *)
Definition reachable (db : Db) : Prop := rtc store_step empty_db db.

Lemma reachable_invariant (P : Db -> Prop) :
  P empty_db ->
  (forall env db db', reachable db -> P db -> store_step_at env db db' -> P db') ->
  forall db, reachable db -> P db.
Proof.
  intros Hinit Hstep db Hr. revert db Hr. apply (rtc_ind_r P); [done|].
  intros db1 db2 Hr [env Hs] HP. by eapply Hstep.
Qed.

(** ** Effects *)

Definition service_alive (o : OperationRequest) (db : Db) : Prop :=
  exists e, services db !! op_service_instance_id o = Some e /\
    svc_organization_id e = op_organization_id o /\ svc_project_id e = op_project_id o /\
    svc_phase e <> "deleted".

(** A deletion starts with the generation after the service's. *)
Definition delete_generation_ok (o : OperationRequest) (db : Db) : Prop :=
  op_action o = PROVIDER_DELETE_ACTION ->
  exists e, services db !! op_service_instance_id o = Some e /\
    op_generation o = Some (svc_desired_generation e + 1)%Z.

Inductive store_effect (env : Env) (db : Db) : Db -> Prop :=
| eff_begin_reconcile command again physical t cr nm :
    reconcile_command_ok command ->
    begins env (rec_operation command) db t cr ->
    no_parallel (op_service_instance_id (rec_operation command))
      (op_idempotency_key (rec_operation command)) (receipts db) ->
    reconcile_allowed command db again physical ->
    names_after env (spec_bucket_name (rec_spec command))
      (op_service_instance_id (rec_operation command)) (name_reservations db) nm ->
    store_effect env db
      (set_name_reservations nm (set_credential_reservations cr (set_receipts t db)))
| eff_begin o t cr :
    op_action o <> PROVIDER_RECONCILE_ACTION -> op_action o <> CREDENTIAL_CREATE_ACTION ->
    begins env o db t cr ->
    no_parallel (op_service_instance_id o) (op_idempotency_key o) (receipts db) ->
    service_alive o db ->
    delete_generation_ok o db ->
    store_effect env db (set_credential_reservations cr (set_receipts t db))
| eff_begin_create command bucket p db' :
    op_action (cre_operation command) = CREDENTIAL_CREATE_ACTION ->
    service_ready (cre_operation command) db bucket ->
    no_parallel (op_service_instance_id (cre_operation command))
      (op_idempotency_key (cre_operation command)) (receipts db) ->
    create_begins self env command db bucket p db' ->
    store_effect env db db'
| eff_reconcile command oid physical spec qb qo response audit db' u :
    reconcile_command_ok command ->
    response_ok response ->
    spec_to_value (rec_spec command) = Some spec ->
    qb = spec_quota_bytes (rec_spec command) -> qo = spec_quota_objects (rec_spec command) ->
    tx_result (complete_reconcile_tx self env command oid physical spec qb qo response audit) db
      = Ok (u, db') ->
    store_effect env db db'
| eff_delete command oid response audit db' u :
    op_action (del_operation command) = PROVIDER_DELETE_ACTION ->
    op_generation (del_operation command) = Some (del_generation command) ->
    response_ok response ->
    tx_result (complete_delete_tx self env command oid response audit) db = Ok (u, db') ->
    store_effect env db db'
| eff_create command oid credential permissions response audit db' u :
    op_action (cre_operation command) = CREDENTIAL_CREATE_ACTION ->
    permissions_to_value (cre_permissions command) = Some permissions ->
    nc_name credential = cre_name command ->
    response_ok response ->
    tx_result (complete_create_credential_tx self env command oid credential permissions response
                 audit) db = Ok (u, db') ->
    store_effect env db db'
| eff_revoke command oid response audit db' u :
    op_action (rev_operation command) = CREDENTIAL_REVOKE_ACTION ->
    response_ok response ->
    tx_result (complete_revoke_credential_tx self env command oid response audit) db = Ok (u, db') ->
    store_effect env db db'
| eff_renew o oid db' u :
    tx_result (renew_operation_tx env o oid) db = Ok (u, db') ->
    store_effect env db db'
| eff_fail o oid response audit db' u :
    resp_failed response = true ->
    response_ok response ->
    tx_result (fail_operation_tx self env o oid response audit) db = Ok (u, db') ->
    store_effect env db db'
| eff_usage organization project id b n measured r db' :
    tx_result (record_usage_tx env organization project id b n measured) db = Ok (r, db') ->
    store_effect env db db'
| eff_audit audit :
    auditable env audit db -> store_effect env db (audit_db env audit db).

Lemma validated_state {A : Type} v fault (m : Tx A) db r db' :
  validated v fault m db = (r, db') ->
  db' = db \/ (v = Ok tt /\ exists a, tx_result m db = Ok (a, db')).
Proof.
  unfold validated. destruct v as [[]|]; intros Hr; [|left; congruence].
  apply transaction_state in Hr as [->|Ha]; auto.
Qed.

Lemma service_ready_alive o db bucket : service_ready o db bucket -> service_alive o db.
Proof.
  intros (e & b & He & Ho & Hp & Hr & _). exists e. rewrite Hr. by repeat split.
Qed.

Lemma to_i64_Ok v f w : to_i64 v f = Ok w -> w = v.
Proof. unfold to_i64, i64_try_from_u64. rewrite ok_or_Ok. case_match; crush. Qed.

Lemma DeleteCommand_generation command :
  DeleteCommand_validate command = Ok tt ->
  op_generation (del_operation command) = Some (del_generation command).
Proof.
  unfold DeleteCommand_validate. rewrite result_bind_Ok. intros (u & _ & Hv).
  by case_bool_decide.
Qed.

Lemma complete_reconcile_state fault env command oid physical response audit db r db' :
  complete_reconcile self fault env command oid physical response audit db = (r, db') ->
  db' = db \/ exists spec u, spec_to_value (rec_spec command) = Some spec /\
    tx_result (complete_reconcile_tx self env command oid physical spec
      (spec_quota_bytes (rec_spec command)) (spec_quota_objects (rec_spec command))
      response audit) db = Ok (u, db').
Proof.
  unfold complete_reconcile.
  destruct (if _ : bool then _ else _) as [[[spec qb] qo]|e] eqn:Hp; [|intros [= <- <-]; by left].
  intros Hr. apply transaction_state in Hr as [->|[u Hr]]; [by left|right].
  destruct (_ || _) in Hp; [done|].
  apply result_bind_Ok in Hp as (spec' & Hspec%ok_or_Ok & Hp).
  apply result_bind_Ok in Hp as (qb' & Hqb%to_i64_Ok & Hp).
  apply result_bind_Ok in Hp as (qo' & Hqo%to_i64_Ok & Hp). simplify_eq. eauto.
Qed.

Lemma complete_create_state fault env command oid credential response audit db r db' :
  complete_create_credential self fault env command oid credential response audit db = (r, db') ->
  db' = db \/ exists permissions u,
    permissions_to_value (cre_permissions command) = Some permissions /\
    nc_name credential = cre_name command /\
    tx_result (complete_create_credential_tx self env command oid credential permissions response
      audit) db = Ok (u, db').
Proof.
  unfold complete_create_credential.
  destruct (if negb (new_credential_valid command credential) then _ else _)
    as [permissions|e] eqn:Hp; [|intros [= <- <-]; by left].
  intros Hr. apply transaction_state in Hr as [->|[u Hr]]; [by left|right].
  destruct (new_credential_valid command credential) eqn:Hv; [|done]. apply ok_or_Ok in Hp.
  unfold new_credential_valid in Hv. rewrite negb_true_iff, !orb_false_iff, !negb_false_iff in Hv.
  destruct Hv as [[_ Hn%String.eqb_eq] Hperm%bool_decide_eq_true]. rewrite Hperm in Hp. eauto 10.
Qed.

Lemma record_usage_state fault env organization project id b n measured db r db' :
  record_usage fault env organization project id b n measured db = (r, db') ->
  db' = db \/ exists v, tx_result (record_usage_tx env organization project id b n measured) db
                        = Ok (v, db').
Proof.
  unfold record_usage.
  destruct (to_i64 b "bytes_used") as [b'|] eqn:Hb; cbn [mbind result_bind];
    [|intros [= <- <-]; by left].
  destruct (to_i64 n "objects_used") as [n'|] eqn:Hn; cbn [mbind result_bind];
    [|intros [= <- <-]; by left].
  apply to_i64_Ok in Hb, Hn. subst.
  destruct (transaction _ _ _) as [r' d] eqn:Ht. intros [= _ <-].
  by apply transaction_state in Ht.
Qed.

Lemma store_step_effect env db db' :
  store_step_at env db db' -> db' = db \/ store_effect env db db'.
Proof.
  intros Hstep. destruct Hstep as
    [fault command r db' Hok Hr|fault command oid physical response audit r db' Hok Hrs Hr
    |fault command r db' Ha Hr|fault command oid response audit r db' Ha Hg Hrs Hr
    |fault command r db' Ha Hr|fault command oid credential response audit r db' Ha Hrs Hr
    |fault command r db' Ha Hr|fault command oid response audit r db' Ha Hrs Hr
    |fault o oid r db' Hr|fault o oid response audit r db' Hrs Hr
    |fault organization project id b n measured r db' Hr|fault audit r db' Hr].
  - apply validated_state in Hr as [->|(_ & p & Hr)]; [by left|].
    apply prepare_reconcile_effect in Hr as [[-> _]|(again & physical & t & cr & nm & Hr)];
      [by left|right]. destruct Hr as (_ & Hb & Hp & Hal & Hn & ->).
    by eapply eff_begin_reconcile.
  - apply complete_reconcile_state in Hr as [->|(spec & u & Hs & Hr)]; [by left|right].
    by eapply eff_reconcile.
  - apply validated_state in Hr as [->|(Hv & p & Hr)]; [by left|].
    apply prepare_delete_effect in Hr as [[-> _]|(bucket & t & cr & _ & Hb & Hp & Hal & ->)];
      [by left|right]. eapply eff_begin; [by rewrite Ha..|done|done| |];
      destruct Hal as (e & b & He & Ho & Hpr & Hd & Hg & _); [by exists e|].
    intros _. exists e. split; [done|]. apply i64_checked_add_Some in Hg as <-. by apply DeleteCommand_generation.
  - apply transaction_state in Hr as [->|[u Hr]]; [by left|right]. by eapply eff_delete.
  - apply validated_state in Hr as [->|(_ & p & Hr)]; [by left|].
    apply prepare_create_effect in Hr as [[-> _]|(bucket & Hrd & Hp & Hb)];
      [by left|right]. by eapply eff_begin_create.
  - apply complete_create_state in Hr as [->|(perm & u & Hs & Hn & Hr)]; [by left|right].
    by eapply eff_create.
  - apply validated_state in Hr as [->|(_ & p & Hr)]; [by left|].
    apply prepare_revoke_effect in Hr
      as [[-> _]|(bucket & c & t & cr & _ & Hb & Hp & Hrd & _ & _ & ->)]; [by left|right].
    eapply eff_begin; [by rewrite Ha..|done|done|by eapply service_ready_alive|].
    unfold delete_generation_ok. by rewrite Ha.
  - apply transaction_state in Hr as [->|[u Hr]]; [by left|right]. by eapply eff_revoke.
  - apply validated_state in Hr as [->|(_ & p & Hr)]; [by left|right]. by eapply eff_renew.
  - apply validated_state in Hr as [->|(Hf & p & Hr)]; [by left|right].
    apply ensure_Ok in Hf. by eapply eff_fail.
  - apply record_usage_state in Hr as [->|[v Hr]]; [by left|right]. by eapply eff_usage.
  - apply transaction_state in Hr as [->|[u Hr]]; [by left|right].
    apply insert_audit_effect in Hr as [Ha ->]. by apply eff_audit.
Qed.
End step.

(** The cases of an effect, with the same names everywhere. *)
Ltac effect_cases H :=
  destruct H as
    [command again physical t cr nm Hcok Hbg Hp Hal Hn|o t cr Ha1 Ha2 Hbg Hp Hal Hg
    |command bucket p db' Ha Hrd Hp Hbg
    |command oid physical spec qb qo response audit db' u Hcok Hrs Hsp Hqb Hqo Hr
    |command oid response audit db' u Ha Hg Hrs Hr
    |command oid credential permissions response audit db' u Ha Hperm Hnm Hrs Hr
    |command oid response audit db' u Ha Hrs Hr|o oid db' u Hr
    |o oid response audit db' u Hfl Hrs Hr
    |organization project sid used n measured measurement db' Hr|audit Ha].
