(* ===== verification/Samples.v ===== *)
(** * A concrete run of the store

    A store over the concrete JSON and cipher of [Json] and [Cipher], and a run
    that creates a service, gives it a credential and starts to delete it.  The
    witnesses of the properties evaluate on its states. *)

From stdpp Require Import relations.
From S2P Require Import Prelude RustStr Domain Auth Json StoreModels Cipher Tables Receipts ReceiptLemmas Store StoreEffects StoreStep.

#[local] Existing Instance sample_json.
#[local] Existing Instance sample_aead.

Definition sample_store : PgStore := {|
  receipt_cipher := {| cipher_aead := replicate 32 nul : @Aes256Gcm sample_aead |};
  credential_limits := {| max_credentials_per_bucket := 2; max_total_credentials := 3 |} |}.

Definition sample_bucket_of (_ : bytes) : string := "abc".

(** The surroundings of the [n]-th transaction, at second [at_]. *)
Definition sample_env (n : N) (at_ : Z) : Env := {|
  env_now := at_ * second; env_clock := at_ * second; env_operation_id := 100 + n;
  env_credential_id := 200 + n; env_audit_id := 300 + n; env_random := Some [] |}.

Definition sample_operation (key : Uuid) (action : string) (generation : option Z)
  : OperationRequest := {|
  op_idempotency_key := key; op_organization_id := 1; op_project_id := 2;
  op_service_instance_id := 3; op_principal_id := 9; op_action := action;
  op_generation := generation; op_request_hash := replicate 32 nul |}.

Definition sample_bucket_spec : SyouyuSpec := {|
  spec_region := "r"; spec_bucket_name := "abc"; spec_quota_bytes := 10;
  spec_quota_objects := 5 |}.

Definition sample_reconcile : ReconcileCommand := {|
  rec_operation := sample_operation 10 PROVIDER_RECONCILE_ACTION (Some 1%Z);
  rec_name := "svc"; rec_generation := 1; rec_spec := sample_bucket_spec |}.

Definition sample_delete : DeleteCommand := {|
  del_operation := sample_operation 11 PROVIDER_DELETE_ACTION (Some 2%Z); del_generation := 2 |}.

Definition sample_create : CreateCredentialCommand := {|
  cre_operation := sample_operation 12 CREDENTIAL_CREATE_ACTION None;
  cre_name := "key"; cre_permissions := {| perm_read := true; perm_write := false |};
  cre_credential_limits := CredentialLimits_default |}.

Definition sample_revoke : RevokeCredentialCommand := {|
  rev_operation := sample_operation 13 CREDENTIAL_REVOKE_ACTION None; rev_credential_id := 203 |}.

Definition sample_response : StoredHttpResponse :=
  {| resp_status := 200; resp_body := JString "ok"; resp_failed := false |}.

Definition sample_failure : StoredHttpResponse :=
  {| resp_status := 502; resp_body := JString "no"; resp_failed := true |}.

Definition sample_audit : AuditEvent := {|
  ae_organization_id := 1; ae_project_id := 2; ae_service_instance_id := 3; ae_principal_id := 9;
  ae_principal_context_id := None; ae_request_id := "r"; ae_action := "a";
  ae_resource_type := "t"; ae_resource_id := None; ae_outcome := "allowed";
  ae_details := JObject [] |}.

Definition sample_credential (id : Uuid) : NewCredential := {|
  nc_id := id; nc_garage_key_id := "g"; nc_access_key_id := "a";
  nc_secret_key_fingerprint := replicate 32 nul; nc_name := "key";
  nc_permissions := {| perm_read := true; perm_write := false |} |}.

(** ** The run *)

Definition db_prepared : Db :=
  (prepare_reconcile sample_store NoFault (sample_env 1 0) sample_reconcile empty_db).2.
Definition db_ready : Db :=
  (complete_reconcile sample_store NoFault (sample_env 2 1) sample_reconcile 101 "phys"
     sample_response sample_audit db_prepared).2.
Definition db_reserved : Db :=
  (prepare_create_credential sample_store NoFault (sample_env 3 2) sample_create db_ready).2.
Definition db_created : Db :=
  (complete_create_credential sample_store NoFault (sample_env 4 3) sample_create 103
     (sample_credential 203) sample_response sample_audit db_reserved).2.
Definition db_deleting : Db :=
  (prepare_delete sample_store NoFault (sample_env 5 4) sample_delete db_created).2.
Definition db_deleted : Db :=
  (complete_delete sample_store NoFault (sample_env 6 5) sample_delete 105
     sample_response sample_audit db_deleting).2.

(** Every statement of the run succeeds. *)
Example sample_run_succeeds :
  is_ok (prepare_reconcile sample_store NoFault (sample_env 1 0) sample_reconcile empty_db).1 &&
  is_ok (complete_reconcile sample_store NoFault (sample_env 2 1) sample_reconcile 101 "phys"
     sample_response sample_audit db_prepared).1 &&
  is_ok (prepare_create_credential sample_store NoFault (sample_env 3 2) sample_create db_ready).1 &&
  is_ok (complete_create_credential sample_store NoFault (sample_env 4 3) sample_create 103
     (sample_credential 203) sample_response sample_audit db_reserved).1 &&
  is_ok (prepare_delete sample_store NoFault (sample_env 5 4) sample_delete db_created).1 &&
  is_ok (complete_delete sample_store NoFault (sample_env 6 5) sample_delete 105
     sample_response sample_audit db_deleting).1 = true.
Proof. vm_compute. reflexivity. Qed.

Lemma sample_step env db db' :
  store_step_at sample_store sample_bucket_of env db db' ->
  reachable sample_store sample_bucket_of db -> reachable sample_store sample_bucket_of db'.
Proof. intros Hs Hr. eapply rtc_r; [exact Hr|]. by exists env. Qed.

Lemma db_prepared_reachable : reachable sample_store sample_bucket_of db_prepared.
Proof.
  apply (sample_step (sample_env 1 0) empty_db); [|apply rtc_refl].
  eapply (step_prepare_reconcile _ _ _ _ NoFault sample_reconcile); [by split|apply surjective_pairing].
Qed.

Lemma db_ready_reachable : reachable sample_store sample_bucket_of db_ready.
Proof.
  apply (sample_step (sample_env 2 1) db_prepared); [|apply db_prepared_reachable].
  eapply (step_complete_reconcile _ _ _ _ NoFault sample_reconcile);
    [by split| |apply surjective_pairing]. reflexivity.
Qed.

Lemma db_reserved_reachable : reachable sample_store sample_bucket_of db_reserved.
Proof.
  apply (sample_step (sample_env 3 2) db_ready); [|apply db_ready_reachable].
  eapply (step_prepare_create _ _ _ _ NoFault sample_create); [done|apply surjective_pairing].
Qed.

Lemma db_created_reachable : reachable sample_store sample_bucket_of db_created.
Proof.
  apply (sample_step (sample_env 4 3) db_reserved); [|apply db_reserved_reachable].
  eapply (step_complete_create _ _ _ _ NoFault sample_create);
    [done| |apply surjective_pairing]. reflexivity.
Qed.

Lemma db_deleting_reachable : reachable sample_store sample_bucket_of db_deleting.
Proof.
  apply (sample_step (sample_env 5 4) db_created); [|apply db_created_reachable].
  eapply (step_prepare_delete _ _ _ _ NoFault sample_delete); [done|apply surjective_pairing].
Qed.

Lemma db_deleted_reachable : reachable sample_store sample_bucket_of db_deleted.
Proof.
  apply (sample_step (sample_env 6 5) db_deleting); [|apply db_deleting_reachable].
  eapply (step_complete_delete _ _ _ _ NoFault sample_delete);
    [done|done| |apply surjective_pairing]. reflexivity.
Qed.

(** The credential exists from [db_created] on, the service from [db_ready] on. *)
Lemma db_created_to_deleted : rtc (store_step sample_store sample_bucket_of) db_created db_deleted.
Proof.
  apply (rtc_l _ _ db_deleting).
  { exists (sample_env 5 4). eapply (step_prepare_delete _ _ _ _ NoFault sample_delete);
      [done|apply surjective_pairing]. }
  eapply rtc_once. exists (sample_env 6 5).
  eapply (step_complete_delete _ _ _ _ NoFault sample_delete); [done|done| |apply surjective_pairing].
  reflexivity.
Qed.

Lemma db_ready_to_deleted : rtc (store_step sample_store sample_bucket_of) db_ready db_deleted.
Proof.
  apply (rtc_l _ _ db_reserved).
  { exists (sample_env 3 2). eapply (step_prepare_create _ _ _ _ NoFault sample_create);
      [done|apply surjective_pairing]. }
  apply (rtc_l _ _ db_created).
  { exists (sample_env 4 3). eapply (step_complete_create _ _ _ _ NoFault sample_create);
      [done| |apply surjective_pairing]. reflexivity. }
  apply db_created_to_deleted.
Qed.
