(* ===== verification/UsageProps.v ===== *)
(** * Usage measurements

    [record_usage] writes a measurement to two tables: the bucket row, which the
    overview reads, and the snapshot table.  Only the snapshot table compares
    times, so that measurements which arrive out of order leave the two tables
    with different values. *)

From stdpp Require Import relations.
From S2P Require Import Prelude RustStr Domain Auth Json StoreModels Cipher Tables Receipts ReceiptLemmas Store StoreEffects StoreStep Samples.

(** The measurement a row holds. *)
Definition bucket_measurement (r : BucketRow) : Z * Z * option DateTime :=
  (bkt_used_bytes r, bkt_used_objects r, bkt_usage_measured_at r).
Definition snapshot_measurement (r : UsageRow) : Z * Z * DateTime :=
  (usg_bytes_used r, usg_objects_used r, usg_measured_at r).

(** The snapshot after a measurement: the later of the two, the new one on a tie. *)
Definition latest (old : option (Z * Z * DateTime)) (new : Z * Z * DateTime) : Z * Z * DateTime :=
  match old with
  | Some m => if (m.2 <=? new.2)%Z then new else m
  | None => new
  end.

Lemma record_usage_writes env organization project id b n measured db r db' :
  tx_result (record_usage_tx env organization project id b n measured) db = Ok (r, db') ->
  buckets db !! id = Some r /\ bkt_organization_id r = organization /\ bkt_project_id r = project /\
  exists t, db' = set_usage_snapshots t
              (set_buckets (<[id := bucket_with_usage env b n measured r]> (buckets db)) db) /\
    (forall k, k <> id -> t !! k = usage_snapshots db !! k) /\
    snapshot_measurement <$> t !! id
    = Some (latest (snapshot_measurement <$> usage_snapshots db !! id) (b, n, measured)).
Proof.
  intros Hrun. unfold record_usage_tx in Hrun. tx_step Hrun Hl. tx_step Hrun Hf.
  tx_step Hrun Hb. tx_step Hrun Hck. tx_step Hrun Hm. tx_step Hrun Hus.
  apply tx_ret_Ok in Hrun as [<- <-]. apply ok_or_Ok, bind_Some in Hb as (r & Hr & Hsc).
  destruct (N.eqb_spec (bkt_organization_id r) organization); [|done].
  destruct (N.eqb_spec (bkt_project_id r) project); [|done]. injection Hsc as <-.
  apply upsert_usage_Ok in Hus as (_ & _ & t & -> & Hother & Hrow). simpl in Hrow.
  split_and!; [done..|]. exists t. split_and!; [done..|].
  unfold latest. destruct (usage_snapshots db !! id) as [s|]; simpl.
  - destruct (usg_measured_at s <=? measured)%Z; [|by rewrite Hrow].
    destruct Hrow as (s' & -> & <- & <- & <-). done.
  - destruct Hrow as (s' & -> & <- & <- & <-). done.
Qed.

(** C25. Recording a measurement overwrites the bucket row with it whatever its
    time, but advances the snapshot only to a measurement that is not older: after
    a measurement that arrives late the bucket shows the older one and the snapshot
    the newer.  The answer repeats the request with the bucket's quotas, only a
    bucket of the caller's scope can be measured, and nothing else changes. *)
Theorem record_usage_spec fault env organization project id bytes objects measured db u db' :
  record_usage fault env organization project id bytes objects measured db = (Ok u, db') ->
  exists row row', buckets db !! id = Some row /\ bkt_organization_id row = organization /\
    bkt_project_id row = project /\ buckets db' = <[id := row']> (buckets db) /\
    bucket_measurement row' = (bytes, objects, Some measured) /\
    snapshot_measurement <$> usage_snapshots db' !! id
      = Some (latest (snapshot_measurement <$> usage_snapshots db !! id)
                (bytes, objects, measured)) /\
    u = {| ur_service_instance_id := id; ur_bytes_used := bytes; ur_objects_used := objects;
           ur_quota_bytes := bkt_quota_bytes row; ur_quota_objects := bkt_quota_objects row;
           ur_measured_at := measured |} /\
    services db' = services db /\ credentials db' = credentials db /\ receipts db' = receipts db.
Proof.
  unfold record_usage, to_i64. intros Hr.
  destruct (i64_try_from_u64 bytes) as [b|] eqn:Hb; [|done]. simpl in Hr.
  destruct (i64_try_from_u64 objects) as [n|] eqn:Hn; [|done]. simpl in Hr.
  assert (b = bytes /\ n = objects) as [-> ->].
  { unfold i64_try_from_u64 in *. repeat case_match; by simplify_eq. }
  destruct (transaction _ _ _) as [[row|] d] eqn:Ht; [|done]. simpl in Hr.
  apply transaction_Ok, record_usage_writes in Ht as (Hrow & Ho & Hp & t & -> & _ & Hs).
  injection Hr as Hu <-. unfold from_i64 in Hu.
  destruct (u64_try_from_i64 (bkt_quota_bytes row)) as [qb|] eqn:Hqb; [|done]. simpl in Hu.
  destruct (u64_try_from_i64 (bkt_quota_objects row)) as [qo|] eqn:Hqo; [|done]. simpl in Hu.
  unfold u64_try_from_i64 in *. repeat case_match; simplify_eq.
  by exists row, (bucket_with_usage env bytes objects measured row).
Qed.

(** Two measurements that arrive in the wrong order. *)
Definition db_measured : Db :=
  (record_usage NoFault (sample_env 7 6) 1 2 3 8 4 (20 * second) db_ready).2.
Definition db_remeasured : Db :=
  (record_usage NoFault (sample_env 8 7) 1 2 3 5 2 (10 * second) db_measured).2.

Lemma record_usage_spec_witness :
  exists row', buckets db_remeasured = <[3%N := row']> (buckets db_measured) /\
    bucket_measurement row' = (5, 2, Some (10 * second))%Z /\
    snapshot_measurement <$> usage_snapshots db_remeasured !! 3%N = Some (8, 4, 20 * second)%Z.
Proof.
  assert (Hs : snapshot_measurement <$> usage_snapshots db_measured !! 3%N
               = Some (8, 4, 20 * second)%Z) by (vm_compute; reflexivity).
  assert (Hok : is_ok (record_usage NoFault (sample_env 8 7) 1 2 3 5 2 (10 * second) db_measured).1
                = true) by (vm_compute; reflexivity).
  destruct (record_usage NoFault (sample_env 8 7) 1 2 3 5 2 (10 * second) db_measured).1
    as [u|] eqn:Hu; [|discriminate Hok].
  destruct (record_usage_spec NoFault (sample_env 8 7) 1 2 3 5 2 (10 * second) db_measured u
              db_remeasured) as (row & row' & _ & _ & _ & Hb & Hm & Hsn & _).
  - unfold db_remeasured. rewrite <- Hu. apply surjective_pairing.
  - exists row'. split; [exact Hb|]. split; [exact Hm|]. rewrite Hsn, Hs. reflexivity.
Defined.
