(* ===== verification/ReceiptProtocol.v ===== *)
(** * The life of the receipts

    What every call of the store does to the receipts ([receipt_step]), the
    invariant of the table, and the life of one receipt: it keeps its request, its
    operation identifier changes only when a lease ran out, and once it is finished
    it never changes again and its response can be read back. *)

From stdpp Require Import relations.
From S2P Require Import Prelude RustStr Domain Auth Json StoreModels Cipher Tables Receipts ReceiptLemmas Store StoreEffects StoreStep Samples.

Section protocol.
Context `{SerdeJson} `{Aead}.
Context (self : PgStore).
Context (bucket_of : bytes -> string).

(** ** What a step does to the receipts *)

Inductive receipt_step (env : Env) (t : gmap Uuid ReceiptRow) : gmap Uuid ReceiptRow -> Prop :=
| rs_reserve o :
    t !! op_idempotency_key o = None ->
    receipt_checks (reserved_row env o) = true ->
    operation_id_taken (op_idempotency_key o) (env_operation_id env) t = false ->
    no_parallel (op_service_instance_id o) (op_idempotency_key o) t ->
    receipt_step env t (<[op_idempotency_key o := reserved_row env o]> t)
| rs_takeover o row deadline :
    t !! op_idempotency_key o = Some row ->
    ReceiptRow_matches row o = true -> rcp_state row = in_progress ->
    rcp_lease_expires_at row = Some deadline -> (deadline <= env_clock env)%Z ->
    operation_id_taken (op_idempotency_key o) (env_operation_id env) t = false ->
    receipt_step env t (<[op_idempotency_key o := claimed_row env row]> t)
| rs_renew k row :
    t !! k = Some row -> rcp_state row = in_progress ->
    receipt_step env t (<[k := renewed_row env row]> t)
| rs_finish o oid response row t' :
    response_ok response -> finishes self env o oid response row t t' ->
    receipt_step env t t'.

Lemma begins_step env o db t cr :
  begins env o db t cr ->
  no_parallel (op_service_instance_id o) (op_idempotency_key o) (receipts db) ->
  receipt_step env (receipts db) t.
Proof.
  intros [Hnone Hck Hfresh|row Hto] Hp; [by apply rs_reserve|].
  destruct Hto as [Hrow Hm Hs (d & Hd & Hexp) _ Hfresh _]. by eapply rs_takeover.
Qed.

Lemma effect_receipts env db db' :
  store_effect self bucket_of env db db' ->
  receipts db' = receipts db \/ receipt_step env (receipts db) (receipts db').
Proof.
  intros Heff. effect_cases Heff.
  - right. by eapply begins_step.
  - right. by eapply begins_step.
  - right. destruct Hbg as [permissions db' Hnew ->|row c r Hto Hc Hop Hm].
    + eapply begins_step; [by eapply creates_new_begins|done].
    + eapply begins_step; [by apply begin_takeover|done].
  - right. apply complete_reconcile_effect in Hr as (row & t' & created & Hfin & Hr).
    destruct_and?. subst. by eapply rs_finish.
  - right. apply complete_delete_effect in Hr as (row & t' & r & Hfin & Hr).
    destruct_and?. subst. by eapply rs_finish.
  - right. apply complete_create_effect in Hr as (row & t' & r & Hfin & Hr).
    destruct_and?. subst. by eapply rs_finish.
  - right. apply complete_revoke_effect in Hr as (row & t' & c & Hfin & _ & _ & _ & ->).
    by eapply rs_finish.
  - right. apply renew_operation_tx_Ok in Hr as (row & Hrow & Hm & Ho & Hsp & ->).
    by apply rs_renew.
  - right. apply fail_operation_effect in Hr as (row & t' & Hfin & _ & ->). by eapply rs_finish.
  - left. by apply record_usage_effect in Hr as (_ & _ & _ & _ & t & ->).
  - by left.
Qed.

Lemma step_receipts env db db' :
  store_step_at self bucket_of env db db' ->
  receipts db' = receipts db \/ receipt_step env (receipts db) (receipts db').
Proof. intros [->|Heff]%store_step_effect; [by left|by apply effect_receipts]. Qed.

(** ** The invariant of the receipts *)

Record receipts_ok (t : gmap Uuid ReceiptRow) : Prop := {
  ro_row k r : t !! k = Some r -> rcp_idempotency_key r = k /\ receipt_checks r = true;
  ro_operation k1 r1 k2 r2 :
    t !! k1 = Some r1 -> t !! k2 = Some r2 -> rcp_operation_id r1 = rcp_operation_id r2 -> k1 = k2;
  ro_single k1 r1 k2 r2 :
    t !! k1 = Some r1 -> t !! k2 = Some r2 ->
    rcp_state r1 = in_progress -> rcp_state r2 = in_progress ->
    rcp_service_instance_id r1 = rcp_service_instance_id r2 -> k1 = k2;
}.

(** Replacing one row keeps the invariant when the new row does not clash
    with the others. *)
Lemma receipts_ok_insert t k r :
  receipts_ok t -> rcp_idempotency_key r = k -> receipt_checks r = true ->
  (forall k' r', t !! k' = Some r' -> k' <> k -> rcp_operation_id r' <> rcp_operation_id r) ->
  (rcp_state r = in_progress -> no_parallel (rcp_service_instance_id r) k t) ->
  receipts_ok (<[k := r]> t).
Proof.
  intros [Hrow Hop Hsingle] Hk Hck Hfresh Hpar. constructor.
  - intros k' r'. rewrite lookup_insert_Some. intros [[<- <-]|[_ Hr]]; eauto.
  - intros k1 r1 k2 r2. rewrite !lookup_insert_Some.
    intros [[<- <-]|[Hn1 H1]] [[<- <-]|[Hn2 H2]] Heq; eauto; exfalso;
      [by eapply (Hfresh k2)|by eapply (Hfresh k1)].
  - intros k1 r1 k2 r2. rewrite !lookup_insert_Some.
    intros [[<- <-]|[Hn1 H1]] [[<- <-]|[Hn2 H2]] Hs1 Hs2 Heq; eauto.
    + symmetry. by eapply (Hpar Hs1 k2).
    + by eapply (Hpar Hs2 k1).
Qed.

Lemma ok_no_parallel t k r :
  receipts_ok t -> t !! k = Some r -> rcp_state r = in_progress ->
  no_parallel (rcp_service_instance_id r) k t.
Proof. intros Hok Hr Hs k' r' Hr' Hsv Hs'. by eapply (ro_single _ Hok k' r' k r). Qed.

(** The constraints of the table leave an in-progress row no response. *)
Lemma in_progress_columns r :
  rcp_state r = in_progress -> receipt_checks r = true ->
  rcp_response_status r = None /\ rcp_response_nonce r = None /\
  rcp_response_ciphertext r = None /\ rcp_completed_at r = None /\
  is_some (rcp_lease_expires_at r) = true.
Proof.
  intros Hs. unfold receipt_checks, is_none. rewrite Hs. simpl.
  rewrite !orb_false_r, !andb_true_iff, !negb_true_iff. intros Hck. destruct_and?.
  split_and!; [by destruct (rcp_response_status r)|by destruct (rcp_response_nonce r)
    |by destruct (rcp_response_ciphertext r)|by destruct (rcp_completed_at r)|done].
Qed.

(** The lease columns may change in a row that stays in progress. *)
Lemma checks_lease r r' :
  rcp_state r = in_progress -> receipt_checks r = true ->
  rcp_state r' = rcp_state r -> rcp_action r' = rcp_action r ->
  rcp_request_hash r' = rcp_request_hash r -> rcp_generation r' = rcp_generation r ->
  rcp_response_status r' = rcp_response_status r ->
  rcp_response_nonce r' = rcp_response_nonce r ->
  rcp_response_ciphertext r' = rcp_response_ciphertext r ->
  rcp_completed_at r' = rcp_completed_at r ->
  (rcp_lease_attempt r <= rcp_lease_attempt r')%Z -> is_some (rcp_lease_expires_at r') = true ->
  receipt_checks r' = true.
Proof.
  intros Hs Hck E1 E2 E3 E4 E5 E6 E7 E8 Hatt Hl. pose proof (in_progress_columns r Hs Hck) as Hcol.
  unfold receipt_checks, receipt_text in *. rewrite E1, E2, E3, E4, E5, E6, E7, E8, Hl. rewrite Hs in *.
  destruct Hcol as (H1 & H2 & H3 & H4 & H5). rewrite H1, H2, H3, H4, H5 in *.
  simpl in *. rewrite !andb_true_iff in *. destruct_and?. rewrite Z.ltb_lt in *.
  split_and!; try done. lia.
Qed.

Lemma receipt_step_ok env t t' : receipts_ok t -> receipt_step env t t' -> receipts_ok t'.
Proof.
  intros Hok Hstep. destruct Hstep as
    [o Hnone Hck Hfresh Hpar|o row d Hrow Hm Hs Hd Hexp Hfresh|k row Hrow Hs
    |o oid response row t' _ Hfin].
  - rewrite operation_id_taken_false in Hfresh.
    apply receipts_ok_insert; [done|done|done| |done]. intros k' r' Hr' Hne Heq. eauto.
  - rewrite operation_id_taken_false in Hfresh. destruct (ro_row _ Hok _ _ Hrow) as [Hk Hck].
    apply receipts_ok_insert; [done|done| | |].
    + apply (checks_lease row); try done. simpl. lia.
    + intros k' r' Hr' Hne Heq. eauto.
    + intros _. by apply (ok_no_parallel _ _ row).
  - destruct (ro_row _ Hok _ _ Hrow) as [Hk Hck].
    apply receipts_ok_insert; [done|done| | |].
    + by apply (checks_lease row).
    + intros k' r' Hr' Hne Heq. apply Hne. by eapply (ro_operation _ Hok k' r' k row).
    + intros _. by apply (ok_no_parallel _ _ row).
  - destruct Hfin as (Hrow & Hm & Ho & Hs & p & n & c & Hp & Hn & Hck & ->).
    destruct (ro_row _ Hok _ _ Hrow) as [Hk _].
    apply receipts_ok_insert; [done|done|done| |].
    + intros k' r' Hr' Hne Heq. apply Hne.
      by eapply (ro_operation _ Hok k' r' _ row).
    + simpl. unfold final_state. by destruct (resp_failed response).
Qed.

Lemma reachable_receipts_ok db : reachable self bucket_of db -> receipts_ok (receipts db).
Proof.
  apply (reachable_invariant _ _ (fun db => receipts_ok (receipts db))); [by constructor|].
  intros env db1 db2 _ Hok [->|Hstep]%step_receipts; [done|]. by eapply receipt_step_ok.
Qed.

(** ** A recorded response can be read back *)

Lemma recorded_status env response n c row :
  receipt_checks (recorded_row env response n c row) = true ->
  (100 <= resp_status response <= 599)%Z.
Proof.
  unfold receipt_checks. simpl. rewrite !andb_true_iff, !Z.leb_le. intros Hck.
  destruct_and?. lia.
Qed.

Lemma final_state_failed response : String.eqb (final_state response) "failed" = resp_failed response.
Proof. unfold final_state. by destruct (resp_failed response). Qed.

Lemma decode_recorded `{!SerdeJsonLaws} `{!AeadLaws} env response p n c row :
  response_ok response -> to_vec (resp_body response) = Some p ->
  ReceiptCipher_encrypt (receipt_cipher self) (env_random env) (rcp_idempotency_key row)
    (rcp_operation_id row) p = Ok (n, c) ->
  receipt_checks (recorded_row env response n c row) = true ->
  decode_receipt self (recorded_row env response n c row) = Ok response.
Proof.
  intros Hresp Hp Henc Hst%recorded_status. apply encrypt_decrypt in Henc as [_ Hdec].
  unfold decode_receipt. simpl. unfold u16_try_from_i32.
  replace (in_u16 (resp_status response)) with true
    by (symmetry; unfold in_u16, u16_max; rewrite andb_true_iff; lia).
  cbn [ok_or mbind result_bind]. rewrite Hdec. cbn [mbind result_bind].
  rewrite (from_slice_to_vec _ _ Hresp Hp). cbn [ok_or mbind result_bind].
  rewrite final_state_failed. by destruct response.
Qed.

(** ** The request a receipt stands for *)

Record Identity : Type := {
  id_organization : Uuid;
  id_project : Uuid;
  id_service : Uuid;
  id_principal : Uuid;
  id_action : string;
  id_generation : option Z;
  id_hash : bytes;
}.

Definition identity_of (o : OperationRequest) : Identity := {|
  id_organization := op_organization_id o; id_project := op_project_id o;
  id_service := op_service_instance_id o; id_principal := op_principal_id o;
  id_action := op_action o; id_generation := op_generation o; id_hash := op_request_hash o |}.

Definition row_identity (r : ReceiptRow) : Identity := {|
  id_organization := rcp_organization_id r; id_project := rcp_project_id r;
  id_service := rcp_service_instance_id r; id_principal := rcp_principal_id r;
  id_action := rcp_action r; id_generation := rcp_generation r; id_hash := rcp_request_hash r |}.

(** ** The life of one receipt *)

(** A row after a step: the same request, and either untouched, or still in
    progress, or just finished; the operation identifier changes only to the
    one the step generated, after the lease ran out. *)
Record evolves (env : Env) (r r' : ReceiptRow) : Prop := {
  ev_identity : row_identity r' = row_identity r;
  ev_key : rcp_idempotency_key r' = rcp_idempotency_key r;
  ev_done : rcp_state r <> in_progress -> r' = r;
  ev_attempt : (rcp_lease_attempt r <= rcp_lease_attempt r')%Z;
  ev_operation : rcp_operation_id r' = rcp_operation_id r \/
    (rcp_operation_id r' = env_operation_id env /\
     exists d, rcp_lease_expires_at r = Some d /\ (d <= env_clock env)%Z);
}.

Lemma evolves_refl env r : evolves env r r.
Proof. constructor; [done..|lia|by left]. Qed.

Lemma receipt_step_evolves env t t' k r :
  receipt_step env t t' -> t !! k = Some r -> exists r', t' !! k = Some r' /\ evolves env r r'.
Proof.
  intros Hstep Hk.
  assert (Hone : forall k0 r0 r1, t !! k0 = Some r0 -> evolves env r0 r1 ->
    exists r', <[k0 := r1]> t !! k = Some r' /\ evolves env r r').
  { intros k0 r0 r1 H0' Hev. destruct (decide (k0 = k)) as [->|Hne].
    - rewrite lookup_insert_eq. simplify_eq. eauto.
    - rewrite lookup_insert_ne by done. eauto using evolves_refl. }
  destruct Hstep as
    [o Hnone Hck Hfresh Hpar|o row d Hrow Hm Hs Hd Hexp Hfresh|k0 row Hrow Hs
    |o oid response row t' Hresp Hfin].
  - exists r. rewrite lookup_insert_ne by congruence. eauto using evolves_refl.
  - apply (Hone _ row); [done|]. constructor; [done|done|done|simpl; lia|]. right. eauto.
  - apply (Hone _ row); [done|]. constructor; [done|done|done|simpl; lia|]. by left.
  - destruct Hfin as (Hrow & Hm & Ho & Hs & p & n & c & Hp & Hn & Hck & ->).
    apply (Hone _ row); [done|]. constructor; [done|done|done|simpl; lia|]. by left.
Qed.

Lemma step_evolves env db db' k r :
  store_step_at self bucket_of env db db' -> receipts db !! k = Some r ->
  exists r', receipts db' !! k = Some r' /\ evolves env r r'.
Proof.
  intros [->|Hs]%step_receipts Hr; [by eauto using evolves_refl|].
  by eapply receipt_step_evolves.
Qed.

Lemma done_stable db db' k r :
  rtc (store_step self bucket_of) db db' ->
  receipts db !! k = Some r -> rcp_state r <> in_progress -> receipts db' !! k = Some r.
Proof.
  induction 1 as [|db1 db2 db3 [env Hs] Hr IH]; [done|]. intros Hk Hst.
  destruct (step_evolves _ _ _ _ _ Hs Hk) as (r' & Hr' & Hev).
  rewrite (ev_done _ _ _ Hev Hst) in Hr'. by apply IH.
Qed.

(** Every finished receipt decodes. *)
Lemma reachable_decodes `{!SerdeJsonLaws} `{!AeadLaws} db k r :
  reachable self bucket_of db -> receipts db !! k = Some r -> rcp_state r <> in_progress ->
  exists response, decode_receipt self r = Ok response.
Proof.
  intros Hreach. revert k r. revert db Hreach.
  apply (reachable_invariant _ _ (fun db => forall k r, receipts db !! k = Some r ->
    rcp_state r <> in_progress -> exists response, decode_receipt self r = Ok response));
    [intros k r; simpl; by rewrite lookup_empty|].
  intros env db1 db2 Hr IH [->|Hstep]%step_receipts k r Hk Hst; [by eauto|].
  apply reachable_receipts_ok in Hr as Hok.
  destruct Hstep as
    [o Hnone Hck Hfresh Hpar|o row d Hrow Hm Hs Hd Hexp Hfresh|k0 row Hrow Hs
    |o oid response row t' Hresp Hfin].
  4: destruct Hfin as (Hrow & Hm & Ho & Hs & p & n & c & Hp & Hn & Hck & Ht); rewrite Ht in Hk.
  all: apply lookup_insert_Some in Hk as [[<- <-]|[_ Hk]]; [|by eauto].
  1-3: by destruct Hst.
  destruct (ro_row _ Hok _ _ Hrow) as [Hkey _].
  exists response. eapply decode_recorded; [done|done| |done]. by rewrite Hkey, Ho.
Qed.

(** ** Properties *)

(** C17. At every moment at most one operation of a service instance is in
    progress, no operation identifier is shared by two receipts, and every row
    satisfies the table's constraints under its own idempotency key. *)
Theorem single_flight db k1 r1 k2 r2 :
  reachable self bucket_of db ->
  receipts db !! k1 = Some r1 -> receipts db !! k2 = Some r2 ->
  rcp_idempotency_key r1 = k1 /\ receipt_checks r1 = true /\
  (rcp_operation_id r1 = rcp_operation_id r2 -> k1 = k2) /\
  (rcp_state r1 = in_progress -> rcp_state r2 = in_progress ->
   rcp_service_instance_id r1 = rcp_service_instance_id r2 -> k1 = k2).
Proof.
  intros Hok%reachable_receipts_ok H1 H2. destruct (ro_row _ Hok _ _ H1) as [Hk Hck].
  split_and!; [done|done| |]; intros.
  - by eapply ro_operation.
  - by eapply (ro_single _ Hok k1 r1 k2 r2).
Qed.

(** Receipts are kept for ever and never rewritten: a receipt keeps the
    request it was created for, its attempt counter never decreases, and once
    it is finished no sequence of store calls changes it in any column. *)
Theorem receipt_history db db' k r :
  rtc (store_step self bucket_of) db db' -> receipts db !! k = Some r ->
  exists r', receipts db' !! k = Some r' /\ row_identity r' = row_identity r /\
    (rcp_lease_attempt r <= rcp_lease_attempt r')%Z /\
    (rcp_state r <> in_progress -> r' = r).
Proof.
  intros Hrtc. revert r.
  induction Hrtc as [|db1 db2 db3 [env Hs] Hr IH]; intros r Hk; [exists r; by auto with lia|].
  destruct (step_evolves _ _ _ _ _ Hs Hk) as (r1 & Hr1 & Hev).
  destruct (IH r1 Hr1) as (r' & Hr' & Hid & Hatt & Hdone). exists r'.
  split; [done|]. split; [by rewrite Hid, (ev_identity _ _ _ Hev)|].
  split; [pose proof (ev_attempt _ _ _ Hev); lia|].
  intros Hst. pose proof (ev_done _ _ _ Hev Hst) as ->. by apply Hdone.
Qed.
End protocol.

#[local] Existing Instance sample_json.
#[local] Existing Instance sample_aead.

Lemma single_flight_witness :
  (fun r => (rcp_idempotency_key r, receipt_checks r)) <$> receipts db_reserved !! 12%N
    = Some (12%N, true).
Proof.
  destruct (receipts db_reserved !! 12%N) as [r|] eqn:Hr; [|vm_compute in Hr; discriminate Hr].
  destruct (single_flight sample_store sample_bucket_of db_reserved 12 r 12 r
              db_reserved_reachable Hr Hr) as (Hk & Hck & _).
  simpl. by rewrite Hk, Hck.
Defined.

Lemma receipt_history_witness : exists r', receipts db_ready !! 10%N = Some r' /\
  (1 <= rcp_lease_attempt r')%Z.
Proof.
  destruct (receipts db_prepared !! 10%N) as [r|] eqn:Hr; [|vm_compute in Hr; discriminate Hr].
  destruct (receipt_history sample_store sample_bucket_of db_prepared db_ready 10 r)
    as (r' & Hr' & _ & Hatt & _).
  - eapply rtc_once. exists (sample_env 2 1).
    eapply (step_complete_reconcile _ _ _ _ NoFault sample_reconcile);
      [by split| |apply surjective_pairing]. reflexivity.
  - exact Hr.
  - exists r'. split; [exact Hr'|]. vm_compute in Hr. injection Hr as <-. exact Hatt.
Defined.
