(* ===== verification/Commands.v ===== *)
(** * Commands: the store as its callers use it

    The four kinds of commands behind one interface, each with its [prepare] and
    its [complete] method as the HTTP handlers call them, and the guarantees a
    caller relies on: what [prepare] answers from an existing receipt, that
    [Execute] is granted to one attempt at a time, that a finished operation is
    replayed for ever, and that an attempt that lost its lease can no longer
    change anything. *)

From stdpp Require Import relations.
From S2P Require Import Prelude RustStr Domain Auth Json StoreModels Cipher Tables Receipts ReceiptLemmas Store StoreEffects StoreStep Samples ReceiptProtocol.

Inductive Command : Type :=
| ReconcileOp (command : ReconcileCommand)
| DeleteOp (command : DeleteCommand)
| CreateOp (command : CreateCredentialCommand)
| RevokeOp (command : RevokeCredentialCommand).

Definition command_operation (c : Command) : OperationRequest :=
  match c with
  | ReconcileOp c => rec_operation c
  | DeleteOp c => del_operation c
  | CreateOp c => cre_operation c
  | RevokeOp c => rev_operation c
  end.

Definition command_validate (c : Command) : result StoreError unit :=
  match c with
  | ReconcileOp c => ReconcileCommand_validate c
  | DeleteOp c => DeleteCommand_validate c
  | CreateOp c => CreateCredentialCommand_validate c
  | RevokeOp c => OperationRequest_validate (rev_operation c)
  end.

(** The answer of a [prepare] without its context. *)
Definition forget {T : Type} (p : Prepare T) : Prepare unit :=
  match p with
  | Execute oid _ => Execute oid tt
  | Replay response => Replay response
  | InProgress oid => InProgress oid
  end.

Definition forget_result {T : Type} (x : result StoreError (Prepare T) * Db)
  : result StoreError (Prepare unit) * Db :=
  (p ← x.1; Ok (forget p), x.2).

Section commands.
Context `{SerdeJson} `{Aead}.
Context (self : PgStore).
Context (bucket_of : bytes -> string).

Definition prepare_command (fault : Fault) (env : Env) (c : Command) (db : Db)
  : result StoreError (Prepare unit) * Db :=
  match c with
  | ReconcileOp c => forget_result (prepare_reconcile self fault env c db)
  | DeleteOp c => forget_result (prepare_delete self fault env c db)
  | CreateOp c => forget_result (prepare_create_credential self fault env c db)
  | RevokeOp c => forget_result (prepare_revoke_credential self fault env c db)
  end.

(** What an execution brings back from Garage. *)
Record Artifact : Type := { art_physical_bucket_id : string; art_credential : NewCredential }.

Definition complete_command (fault : Fault) (env : Env) (c : Command) (oid : Uuid)
    (artifact : Artifact) (response : StoredHttpResponse) (audit : AuditEvent) (db : Db)
  : result StoreError unit * Db :=
  match c with
  | ReconcileOp c => complete_reconcile self fault env c oid (art_physical_bucket_id artifact)
                       response audit db
  | DeleteOp c => complete_delete self fault env c oid response audit db
  | CreateOp c => complete_create_credential self fault env c oid (art_credential artifact)
                    response audit db
  | RevokeOp c => complete_revoke_credential self fault env c oid response audit db
  end.

(** The commands the handlers build. *)
Definition command_ok (c : Command) : Prop :=
  match c with
  | ReconcileOp c => reconcile_command_ok bucket_of c
  | DeleteOp c => op_action (del_operation c) = PROVIDER_DELETE_ACTION /\
                  op_generation (del_operation c) = Some (del_generation c)
  | CreateOp c => op_action (cre_operation c) = CREDENTIAL_CREATE_ACTION
  | RevokeOp c => op_action (rev_operation c) = CREDENTIAL_REVOKE_ACTION
  end.

Lemma complete_command_step fault env c oid artifact response audit db r db' :
  command_ok c -> response_ok response ->
  complete_command fault env c oid artifact response audit db = (r, db') ->
  store_step_at self bucket_of env db db'.
Proof.
  destruct c as [c|c|c|c]; simpl; intros Hok Hresp Hc.
  - by eapply step_complete_reconcile.
  - destruct Hok. by eapply step_complete_delete.
  - by eapply step_complete_create.
  - by eapply step_complete_revoke.
Qed.

Lemma prepare_command_step fault env c db r db' :
  command_ok c -> prepare_command fault env c db = (r, db') ->
  store_step_at self bucket_of env db db'.
Proof.
  destruct c as [c|c|c|c]; simpl; unfold forget_result; intros Hok [= _ <-].
  - eapply step_prepare_reconcile; [done|]. apply surjective_pairing.
  - destruct Hok. eapply step_prepare_delete; [done|]. apply surjective_pairing.
  - eapply step_prepare_create; [done|]. apply surjective_pairing.
  - eapply step_prepare_revoke; [done|]. apply surjective_pairing.
Qed.

(** ** Answers from an existing receipt *)

Lemma update_claim_live env key row d db :
  receipts db !! key = Some row -> rcp_lease_expires_at row = Some d -> (env_clock env < d)%Z ->
  tx_result (update_claim env key (rcp_operation_id row)) db = Ok (0, db).
Proof.
  intros Hr Hd Hlt. unfold update_claim. rewrite tx_result_bind. simpl. rewrite Hr.
  unfold claimable. rewrite Hd. replace (d <=? env_clock env)%Z with false by (symmetry; lia).
  by rewrite andb_false_r.
Qed.

(** What the prologue answers when the receipt exists and is not up for
    takeover. *)
Definition receipt_answer {T : Type} (row : ReceiptRow) (o : OperationRequest)
  : result StoreError (Prepare T) :=
  if negb (ReceiptRow_matches row o) then Err IdempotencyConflict
  else if in_progressb row then Ok (InProgress (rcp_operation_id row))
  else response ← decode_receipt self row; Ok (Replay response).

Lemma with_claim_answer {T : Type} env o (body : option Uuid -> Tx (Prepare T)) row db :
  receipts db !! op_idempotency_key o = Some row ->
  (ReceiptRow_matches row o = true -> rcp_state row = in_progress ->
     exists d, rcp_lease_expires_at row = Some d /\ (env_clock env < d)%Z) ->
  tx_result (with_claim self env o body) db =
  match receipt_answer row o with Ok p => Ok (p, db) | Err e => Err e end.
Proof.
  intros Hr Hlive. unfold with_claim, receipt_answer. rewrite !tx_result_bind.
  change (tx_result (advisory_lock _) db) with (@Ok StoreError _ (tt, db)). cbv iota beta.
  rewrite tx_result_bind. unfold claim_existing_receipt. rewrite tx_result_bind.
  replace (tx_result (select_receipt_for_update _) db)
    with (@Ok StoreError _ (Some row, db))
    by (symmetry; apply tx_select_receipt_Ok; by rewrite Hr). cbv iota beta.
  destruct (ReceiptRow_matches row o); [|done]. cbn [negb].
  destruct (in_progressb row) eqn:Hp.
  - apply in_progressb_spec in Hp. destruct (Hlive eq_refl Hp) as (d & Hd & Hlt). rewrite Hd.
    cbn [is_none is_some negb]. rewrite tx_result_bind.
    by rewrite (update_claim_live env _ row d db Hr Hd Hlt).
  - rewrite tx_result_bind. unfold tx_result at 2, lift. simpl.
    by destruct (decode_receipt self row).
Qed.

Lemma prepare_answer env c row db :
  command_validate c = Ok tt ->
  receipts db !! op_idempotency_key (command_operation c) = Some row ->
  (ReceiptRow_matches row (command_operation c) = true -> rcp_state row = in_progress ->
     exists d, rcp_lease_expires_at row = Some d /\ (env_clock env < d)%Z) ->
  prepare_command NoFault env c db = (receipt_answer row (command_operation c), db).
Proof.
  assert (Hx : forall T v (body : option Uuid -> Tx (Prepare T)) o, v = Ok tt ->
    receipts db !! op_idempotency_key o = Some row ->
    (ReceiptRow_matches row o = true -> rcp_state row = in_progress ->
       exists d, rcp_lease_expires_at row = Some d /\ (env_clock env < d)%Z) ->
    forget_result (validated v NoFault (with_claim self env o body) db) =
      (receipt_answer row o, db)).
  { intros T v body o -> Hr Hlive. unfold validated, transaction.
    rewrite (with_claim_answer env o body row db Hr Hlive).
    unfold receipt_answer, forget_result. destruct (ReceiptRow_matches row o); [|done].
    destruct (in_progressb row); [done|]. simpl. by destruct (decode_receipt self row). }
  intros Hv Hr Hlive. destruct c as [c|c|c|c]; simpl in *; by apply Hx.
Qed.

(** ** Executions *)

Lemma forget_execute {T : Type} v fault (m : Tx (Prepare T)) db oid u db' :
  forget_result (validated v fault m db) = (Ok (Execute oid u), db') ->
  v = Ok tt /\ exists context, tx_result m db = Ok (Execute oid context, db').
Proof.
  unfold forget_result, validated. destruct v as [[]|]; [|done].
  destruct (transaction fault m db) as [[p|] d] eqn:Ht; [|done]. intros [= Hp <-].
  destruct p; simplify_eq/=. apply transaction_Ok in Ht. eauto.
Qed.

(** A granted execution: the receipt was free or its lease had run out, and it
    now carries the attempt's identifier and a new lease. *)
Lemma prepare_executes fault env c db oid u db' :
  prepare_command fault env c db = (Ok (Execute oid u), db') ->
  oid = env_operation_id env /\
  no_parallel (op_service_instance_id (command_operation c))
    (op_idempotency_key (command_operation c)) (receipts db) /\
  exists cr, begins env (command_operation c) db (receipts db') cr.
Proof.
  destruct c as [c|c|c|c]; simpl; intros (_ & ctx & Hr)%forget_execute.
  - apply prepare_reconcile_effect in Hr as [[_ Ha]|(again & ph & t & cr & nm & Hr)];
      [by inversion Ha|]. destruct Hr as ([= -> _] & Hb & Hp & _ & _ & ->). eauto.
  - apply prepare_delete_effect in Hr as [[_ Ha]|(b & t & cr & [= -> _] & Hb & Hp & _ & ->)];
      [by inversion Ha|]. eauto.
  - apply prepare_create_effect in Hr as [[_ Ha]|(b & _ & Hp & Hb)]; [by inversion Ha|].
    inversion Hb; subst; simpl; (split; [done|]); (split; [done|]).
    + eexists. by eapply creates_new_begins.
    + eexists. by apply begin_takeover.
  - apply prepare_revoke_effect in Hr
      as [[_ Ha]|(b & k & t & cr & [= -> _] & Hb & Hp & _ & _ & _ & ->)];
      [by inversion Ha|]. eauto.
Qed.

(** A [prepare] that answered anything passed the command's own checks. *)
Lemma prepare_validates fault env c db q db' :
  prepare_command fault env c db = (Ok q, db') -> command_validate c = Ok tt.
Proof.
  assert (Hv : forall T v (m : Tx (Prepare T)),
    forget_result (validated v fault m db) = (Ok q, db') -> v = Ok tt).
  { intros T v m. unfold forget_result, validated. by destruct v as [[]|]. }
  destruct c; simpl; apply Hv.
Qed.

(** A replay comes from a finished receipt. *)
Lemma prepare_replays fault env c db stored db' :
  prepare_command fault env c db = (Ok (Replay stored), db') ->
  exists row, receipts db !! op_idempotency_key (command_operation c) = Some row /\
    rcp_state row <> in_progress /\
    receipt_answer (T := unit) row (command_operation c) = Ok (Replay stored).
Proof.
  assert (Hv : forall T v (m : Tx (Prepare T)),
    forget_result (validated v fault m db) = (Ok (Replay stored), db') ->
    tx_result m db = Ok (Replay stored, db')).
  { unfold forget_result, validated. intros T [[]|] m; [|done].
    destruct (transaction fault m db) as [[p|] d] eqn:Ht; [|done]. intros [= Hp <-].
    destruct p; simplify_eq/=. by apply transaction_Ok in Ht. }
  assert (Ha : forall T o, answered (T := T) self env o db (Replay stored) ->
    exists row, receipts db !! op_idempotency_key o = Some row /\
      rcp_state row <> in_progress /\ receipt_answer (T := unit) row o = Ok (Replay stored)).
  { intros T o Hans. inversion Hans as [|row response Hr Hm Hs Hd]. exists row.
    split; [done|]. split; [done|]. unfold receipt_answer. rewrite Hm, Hd.
    destruct (in_progressb row) eqn:Hp; [|done]. by apply in_progressb_spec in Hp. }
  destruct c as [c|c|c|c]; simpl; intros Hr%Hv.
  - apply prepare_reconcile_effect in Hr as [[_ Hr]|(? & ? & ? & ? & ? & [=] & _)]. by eapply Ha.
  - apply prepare_delete_effect in Hr as [[_ Hr]|(? & ? & ? & [=] & _)]. by eapply Ha.
  - apply prepare_create_effect in Hr as [[_ Hr]|(? & _ & _ & Hb)]; [by eapply Ha|by inversion Hb].
  - apply prepare_revoke_effect in Hr as [[_ Hr]|(? & ? & ? & ? & [=] & _)]. by eapply Ha.
Qed.

(** A fault turns an answer into a database error. *)
Lemma prepare_with_fault fault env c db q db' p d :
  prepare_command NoFault env c db = (Ok q, db') ->
  prepare_command fault env c db = (p, d) ->
  p = Ok q \/ p = Err (Database OtherDbError).
Proof.
  assert (Hv : forall T v (m : Tx (Prepare T)),
    forget_result (validated v NoFault m db) = (Ok q, db') ->
    forget_result (validated v fault m db) = (p, d) ->
    p = Ok q \/ p = Err (Database OtherDbError)).
  { unfold forget_result, validated. intros T [[]|] m; [|done]. unfold transaction.
    destruct (tx_result m db) as [[a d']|e]; [|done]. simpl.
    intros [= Hq _]. destruct fault; simpl; intros [= <- _]; auto. left. congruence. }
  destruct c; simpl; apply Hv.
Qed.
(** A completion either does nothing and reports an error, or finishes the
    receipt of its own attempt, whether or not the caller is told. *)
Lemma complete_command_ends fault env c oid artifact response audit db r db' :
  complete_command fault env c oid artifact response audit db = (r, db') ->
  (db' = db /\ exists e, r = Err e) \/
  ((r = Ok tt \/ r = Err (Database OtherDbError)) /\
   exists row, finishes self env (command_operation c) oid response row (receipts db)
                 (receipts db')).
Proof.
  assert (Ht : forall (m : Tx unit), transaction fault m db = (r, db') ->
    (db' = db /\ exists e, r = Err e) \/
    ((r = Ok tt \/ r = Err (Database OtherDbError)) /\ exists u, tx_result m db = Ok (u, db'))).
  { intros m. unfold transaction. destruct fault, (tx_result m db) as [[[] ?]|]; intros; simplify_eq;
      eauto 10. }
  destruct c as [c|c|c|c]; simpl; intros Hr.
  - unfold complete_reconcile in Hr. destruct (if _ : bool then _ else _) as [[[spec qb] qo]|e];
      [|simplify_eq; by eauto]. apply Ht in Hr as [Hr|[Hack [u Hr]]]; [by left|right; split; [done|]].
    apply complete_reconcile_effect in Hr as (row & t' & created & Hfin & Hr). exists row.
    destruct_and?. by subst.
  - apply Ht in Hr as [Hr|[Hack [u Hr]]]; [by left|right; split; [done|]].
    apply complete_delete_effect in Hr as (row & t' & s & Hfin & Hr). exists row.
    destruct_and?. by subst.
  - unfold complete_create_credential in Hr.
    destruct (if negb (new_credential_valid c _) then _ else _) as [perm|e]; [|simplify_eq; by eauto].
    apply Ht in Hr as [Hr|[Hack [u Hr]]]; [by left|right; split; [done|]].
    apply complete_create_effect in Hr as (row & t' & s & Hfin & Hr). exists row.
    destruct_and?. by subst.
  - apply Ht in Hr as [Hr|[Hack [u Hr]]]; [by left|right; split; [done|]].
    apply complete_revoke_effect in Hr as (row & t' & s & Hfin & _ & _ & _ & ->). by exists row.
Qed.

Lemma complete_command_cases fault env c oid artifact response audit db r db' :
  complete_command fault env c oid artifact response audit db = (r, db') ->
  (db' = db /\ is_ok r = false) \/
  exists row, finishes self env (command_operation c) oid response row (receipts db)
                (receipts db').
Proof. intros [[-> [e ->]]|[_ Hr]]%complete_command_ends; [by left|by right]. Qed.

(** A finished receipt answers its own request with its response. *)
Lemma finished_answer {T : Type} `{!SerdeJsonLaws} `{!AeadLaws} env o oid response row t t' :
  receipts_ok t -> response_ok response -> finishes self env o oid response row t t' ->
  exists r, t' !! op_idempotency_key o = Some r /\ rcp_state r <> in_progress /\
    receipt_answer (T := T) r o = Ok (Replay response).
Proof.
  intros Hok Hresp (Hrow & Hm & Ho & Hs & p & n & c & Hp & Hn & Hck & ->).
  destruct (ro_row _ Hok _ _ Hrow) as [Hk _]. eexists. rewrite lookup_insert_eq.
  split; [done|].
  assert (Hst : in_progressb (recorded_row env response n c row) = false).
  { unfold in_progressb, recorded_row, final_state. simpl. by destruct (resp_failed response). }
  split; [intros Hp'; apply in_progressb_spec in Hp'; congruence|].
  unfold receipt_answer. rewrite Hst.
  change (ReceiptRow_matches (recorded_row env response n c row) o) with (ReceiptRow_matches row o).
  assert (Hd : decode_receipt self (recorded_row env response n c row) = Ok response).
  { eapply (decode_recorded self env response p n c row); try done. by rewrite Hk, Ho. }
  by rewrite Hm, Hd.
Qed.

(** ** Attempts that lost their lease *)

(** A step that does not generate the identifier [oid]. *)
Definition step_avoiding (oid : Uuid) (db db' : Db) : Prop :=
  exists env, env_operation_id env <> oid /\ store_step_at self bucket_of env db db'.

(** The receipt of the key belongs to another attempt. *)
Definition lost (key oid : Uuid) (db : Db) : Prop :=
  exists r, receipts db !! key = Some r /\ rcp_operation_id r <> oid.

Lemma lost_stable key oid db db' :
  rtc (step_avoiding oid) db db' -> lost key oid db -> lost key oid db'.
Proof.
  induction 1 as [|db1 db2 db3 (env & Hne & Hs) Hr IH]; [done|]. intros (r & Hk & Ho). apply IH.
  destruct (step_evolves _ _ _ _ _ _ _ Hs Hk) as (r' & Hr' & Hev). exists r'. split; [done|].
  destruct (ev_operation _ _ _ Hev) as [->|[-> _]]; done.
Qed.

Lemma lost_no_finish env o oid response row db t' :
  lost (op_idempotency_key o) oid db ->
  ~ finishes self env o oid response row (receipts db) t'.
Proof. intros (r & Hr & Ho) (Hrow & _ & Heq & _). congruence. Qed.

(** ** Properties *)

(** A retry is answered from the receipt alone, for every kind of command:
    with the same key but another request it is refused as an idempotency
    conflict, while the first attempt holds its lease it is told the operation
    is in progress, and after the operation finished it gets the stored
    response; in none of these cases do the tables change. *)
Theorem prepare_existing_receipt env c row db :
  command_validate c = Ok tt ->
  receipts db !! op_idempotency_key (command_operation c) = Some row ->
  (ReceiptRow_matches row (command_operation c) = false ->
     prepare_command NoFault env c db = (Err IdempotencyConflict, db)) /\
  (forall d, ReceiptRow_matches row (command_operation c) = true ->
     rcp_state row = in_progress -> rcp_lease_expires_at row = Some d -> (env_clock env < d)%Z ->
     prepare_command NoFault env c db = (Ok (InProgress (rcp_operation_id row)), db)) /\
  (forall response, ReceiptRow_matches row (command_operation c) = true ->
     rcp_state row <> in_progress -> decode_receipt self row = Ok response ->
     prepare_command NoFault env c db = (Ok (Replay response), db)).
Proof.
  intros Hv Hr. split_and!.
  - intros Hm. rewrite (prepare_answer env c row db Hv Hr) by congruence.
    unfold receipt_answer. by rewrite Hm.
  - intros d Hm Hs Hd Hlt. rewrite (prepare_answer env c row db Hv Hr) by eauto.
    unfold receipt_answer. by rewrite Hm, (proj2 (in_progressb_spec row) Hs).
  - intros response Hm Hs Hd. rewrite (prepare_answer env c row db Hv Hr) by done.
    unfold receipt_answer. rewrite Hm, Hd. destruct (in_progressb row) eqn:Hp; [|done].
    by apply in_progressb_spec in Hp.
Qed.

(** C14. [Execute] is granted to one attempt at a time: only when the key is new
    or its lease has run out, only when no other operation of the service is in
    progress, and the granted receipt then carries the caller's request, the
    attempt's identifier and a lease of 120 seconds. *)
Theorem execute_exclusive fault env c db oid u db' :
  prepare_command fault env c db = (Ok (Execute oid u), db') ->
  let o := command_operation c in
  (receipts db !! op_idempotency_key o = None \/
   exists row d, receipts db !! op_idempotency_key o = Some row /\
     ReceiptRow_matches row o = true /\ rcp_state row = in_progress /\
     rcp_lease_expires_at row = Some d /\ (d <= env_clock env)%Z) /\
  (forall k r, receipts db !! k = Some r ->
     rcp_service_instance_id r = op_service_instance_id o -> rcp_state r = in_progress ->
     k = op_idempotency_key o) /\
  exists r', receipts db' !! op_idempotency_key o = Some r' /\
    row_identity r' = identity_of o /\ rcp_state r' = in_progress /\ rcp_operation_id r' = oid /\
    rcp_lease_expires_at r' = Some (env_clock env + 120 * 1000000)%Z.
Proof.
  intros (-> & Hp & cr & Hb)%prepare_executes. cbv zeta.
  destruct Hb as [Hnone Hck Hf|row Hto].
  - split; [by left|]. split; [done|]. eexists. by rewrite lookup_insert_eq.
  - destruct Hto as [Hrow Hm Hs (d & Hd & Hexp) _ _ _].
    split; [right; eauto 10|]. split; [done|]. eexists. rewrite lookup_insert_eq.
    split; [done|]. split; [|done]. apply ReceiptRow_matches_spec in Hm.
    unfold row_identity, identity_of. simpl. destruct_and?. congruence.
Qed.

(** C2. Exactly-once effects: when a completion has returned [Ok], every later
    [prepare] of the same command, in any state the service reaches afterwards,
    returns exactly the response of that completion and changes nothing. *)
Theorem replay_first_response `{!SerdeJsonLaws} `{!AeadLaws} fault env c oid artifact response
    audit db db' db2 env2 :
  reachable self bucket_of db -> response_ok response -> command_validate c = Ok tt ->
  complete_command fault env c oid artifact response audit db = (Ok tt, db') ->
  rtc (store_step self bucket_of) db' db2 ->
  prepare_command NoFault env2 c db2 = (Ok (Replay response), db2).
Proof.
  intros Hreach Hresp Hv Hc Hsteps.
  apply complete_command_cases in Hc as [[_ Hc]|(row & Hfin)]; [done|].
  eapply (finished_answer (T := unit)) in Hfin as (r & Hr & Hst & Ha); [|..|done];
    [|by eapply reachable_receipts_ok].
  eapply done_stable in Hr; [|done|done].
  rewrite <- Ha. by apply prepare_answer.
Qed.

(** C3. Fencing: once the receipt of an operation belongs to another attempt,
    the attempt [oid] can neither complete, nor fail, nor renew the operation,
    now or in any later state: every such call reports an error and leaves the
    tables as they are.  The only assumption is that the identifier [oid] is not
    generated a second time. *)
Theorem stale_attempt_fenced c oid db db' fault env artifact response audit :
  lost (op_idempotency_key (command_operation c)) oid db ->
  rtc (step_avoiding oid) db db' ->
  (exists e, complete_command fault env c oid artifact response audit db' = (Err e, db')) /\
  (exists e, fail_operation self fault env (command_operation c) oid response audit db'
             = (Err e, db')) /\
  (exists e, renew_operation fault env (command_operation c) oid db' = (Err e, db')).
Proof.
  intros Hl Hsteps. eapply lost_stable in Hl; [|done]. split_and!.
  - destruct (complete_command fault env c oid artifact response audit db') as [r d] eqn:Hc.
    apply complete_command_cases in Hc as [[-> He]|(row & Hfin)].
    + destruct r; [done|]. by eexists.
    + by eapply lost_no_finish in Hfin.
  - unfold fail_operation, validated, transaction. destruct (ensure _ _); [|by eexists].
    destruct (tx_result _ db') as [[v d]|e] eqn:Hr; [|destruct fault; by eexists].
    apply fail_operation_effect in Hr as (row & t' & Hfin & _). by eapply lost_no_finish in Hfin.
  - unfold renew_operation, validated, transaction.
    destruct (OperationRequest_validate _); [|by eexists].
    destruct (tx_result _ db') as [[v d]|e] eqn:Hr; [|destruct fault; by eexists].
    apply renew_operation_tx_Ok in Hr as (row & Hrow & _ & Ho & _).
    destruct Hl as (r & Hr & Hne). congruence.
Qed.
End commands.

#[local] Existing Instance sample_json.
#[local] Existing Instance sample_aead.

Lemma prepare_existing_receipt_witness :
  prepare_command sample_store NoFault (sample_env 9 50) (ReconcileOp sample_reconcile) db_prepared
    = (Ok (InProgress 101), db_prepared).
Proof.
  destruct (receipts db_prepared !! 10%N) as [r|] eqn:Hr; [|vm_compute in Hr; discriminate Hr].
  assert (Hrow : ReceiptRow_matches r (rec_operation sample_reconcile) = true /\
    rcp_state r = in_progress /\ rcp_operation_id r = 101%N /\
    rcp_lease_expires_at r = Some 120000000%Z).
  { vm_compute in Hr. injection Hr as <-. vm_compute. auto. }
  destruct Hrow as (Hm & Hs & Ho & Hd). rewrite <- Ho.
  apply (prepare_existing_receipt sample_store (sample_env 9 50) (ReconcileOp sample_reconcile) r
           db_prepared) with (d := 120000000%Z).
  - vm_compute. reflexivity.
  - exact Hr.
  - exact Hm.
  - exact Hs.
  - exact Hd.
  - reflexivity.
Defined.

Lemma execute_exclusive_witness :
  exists r', receipts db_prepared !! 10%N = Some r' /\ rcp_state r' = in_progress /\
    rcp_operation_id r' = 101%N /\ rcp_lease_expires_at r' = Some (120 * 1000000)%Z.
Proof.
  destruct (execute_exclusive sample_store NoFault (sample_env 1 0) (ReconcileOp sample_reconcile)
    empty_db 101 tt db_prepared) as (_ & _ & r' & Hr & _ & Hs & Ho & Hl).
  - transitivity (Ok (E := StoreError) (Execute 101%N tt),
      (prepare_command sample_store NoFault (sample_env 1 0) (ReconcileOp sample_reconcile) empty_db).2).
    + rewrite (surjective_pairing (prepare_command _ _ _ _ _)). reflexivity.
    + reflexivity.
  - exists r'. auto.
Defined.

Lemma replay_first_response_witness :
  prepare_command sample_store NoFault (sample_env 9 500) (ReconcileOp sample_reconcile) db_created
    = (Ok (Replay sample_response), db_created).
Proof.
  apply (@replay_first_response sample_json sample_aead sample_store sample_bucket_of
           sample_json_laws sample_aead_laws NoFault (sample_env 2 1) (ReconcileOp sample_reconcile)
           101 {| art_physical_bucket_id := "phys"; art_credential := sample_credential 1 |}
           sample_response sample_audit db_prepared db_ready).
  - apply db_prepared_reachable.
  - reflexivity.
  - vm_compute. reflexivity.
  - transitivity (Ok (E := StoreError) tt, db_ready).
    + unfold db_ready, complete_command. cbn [art_physical_bucket_id].
      rewrite (surjective_pairing (complete_reconcile _ _ _ _ _ _ _ _ _)) at 1. reflexivity.
    + reflexivity.
  - apply (rtc_l _ _ db_reserved).
    + exists (sample_env 3 2). eapply (step_prepare_create _ _ _ _ NoFault sample_create);
        [reflexivity|apply surjective_pairing].
    + apply rtc_once. exists (sample_env 4 3).
      eapply (step_complete_create _ _ _ _ NoFault sample_create);
        [reflexivity| |apply surjective_pairing]. reflexivity.
Defined.

Lemma stale_attempt_fenced_witness :
  exists e, complete_command sample_store NoFault (sample_env 9 1) (ReconcileOp sample_reconcile) 100
    {| art_physical_bucket_id := "phys"; art_credential := sample_credential 1 |}
    sample_response sample_audit db_prepared = (Err e, db_prepared).
Proof.
  apply (stale_attempt_fenced sample_store sample_bucket_of (ReconcileOp sample_reconcile) 100
           db_prepared db_prepared NoFault (sample_env 9 1)
           {| art_physical_bucket_id := "phys"; art_credential := sample_credential 1 |}
           sample_response sample_audit).
  - destruct (receipts db_prepared !! 10%N) as [r|] eqn:Hr; [|vm_compute in Hr; discriminate Hr].
    exists r. split; [exact Hr|]. vm_compute in Hr. injection Hr as <-. discriminate.
  - apply rtc_refl.
Defined.
