(* ===== verification/Idempotency.v ===== *)
(** * The idempotency protocol

    What the store promises its callers, as an abstract machine ([protocol]): an
    operation is started once and alone on its service, may be taken over only after
    its deadline, is kept alive and finished only by its current attempt, is finished
    once, and answers every retry with the response it was finished with.  The
    machine sees what a caller sees: the calls with their answers ([Label]), the
    clock and the identifier generated for the call.  The receipt table simulates it
    step by step, with the same labels. *)

From stdpp Require Import relations.
From S2P Require Import Prelude RustStr Domain Auth Json StoreModels Cipher Tables Receipts ReceiptLemmas Store StoreEffects StoreStep Samples ReceiptProtocol Commands.

(** ** The abstract machine *)

Inductive Status : Type :=
| Running (operation_id : Uuid) (attempt : Z) (deadline : DateTime)
| Done (response : StoredHttpResponse).

#[export] Instance Identity_eq_dec : EqDecision Identity.
Proof. solve_decision. Defined.

Record Operation : Type := { oper_identity : Identity; oper_status : Status }.

(** A call of the store with its answer.  [Finish] is a completion or a failure. *)
Inductive Label : Type :=
| Prepared (c : Command) (answer : result StoreError (Prepare unit))
| Renew (o : OperationRequest) (operation_id : Uuid) (answer : result StoreError unit)
| Finish (o : OperationRequest) (operation_id : Uuid) (response : StoredHttpResponse)
    (answer : result StoreError unit)
| Elsewhere.

Definition running_for (service : Uuid) (x : Operation) : Prop :=
  id_service (oper_identity x) = service /\
  match oper_status x with Running _ _ _ => True | Done _ => False end.

(** Nobody else works under this operation identifier. *)
Definition unused (operation_id key : Uuid) (m : gmap Uuid Operation) : Prop :=
  forall k x n d, m !! k = Some x -> oper_status x = Running operation_id n d -> k = key.

(** The call was committed: the caller is told so, or the acknowledgement is lost. *)
Definition acknowledged {A : Type} (a : A) (answer : result StoreError A) : Prop :=
  answer = Ok a \/ answer = Err (Database OtherDbError).

Section machine.
Context (now : DateTime) (fresh : Uuid) (m : gmap Uuid Operation).

(** The lease of an attempt that begins or renews now: 120 seconds. *)
Definition lease : DateTime := (now + 120 * 1000000)%Z.

(** The attempt holds the operation. *)
Definition holds (o : OperationRequest) (operation_id : Uuid) (attempt : Z) : Prop :=
  exists deadline, m !! op_idempotency_key o =
    Some {| oper_identity := identity_of o; oper_status := Running operation_id attempt deadline |}.

(** The answer a known key gives at once. *)
Inductive due (o : OperationRequest) : result StoreError (Prepare unit) -> Prop :=
| due_conflict x :
    m !! op_idempotency_key o = Some x -> oper_identity x <> identity_of o ->
    due o (Err IdempotencyConflict)
| due_in_progress oid attempt deadline :
    m !! op_idempotency_key o = Some {| oper_identity := identity_of o;
      oper_status := Running oid attempt deadline |} ->
    (now < deadline)%Z -> due o (Ok (InProgress oid))
| due_replay response :
    m !! op_idempotency_key o = Some {| oper_identity := identity_of o;
      oper_status := Done response |} ->
    due o (Ok (Replay response)).

Inductive protocol : Label -> gmap Uuid Operation -> Prop :=
| p_reply c answer :
    due (command_operation c) answer -> protocol (Prepared c answer) m
| p_start c answer :
    let o := command_operation c in
    m !! op_idempotency_key o = None ->
    (forall k x, m !! k = Some x -> ~ running_for (op_service_instance_id o) x) ->
    unused fresh (op_idempotency_key o) m ->
    acknowledged (Execute fresh tt) answer ->
    protocol (Prepared c answer)
      (<[op_idempotency_key o := {| oper_identity := identity_of o;
           oper_status := Running fresh 1 lease |}]> m)
| p_takeover c oid attempt deadline answer :
    let o := command_operation c in
    m !! op_idempotency_key o = Some {| oper_identity := identity_of o;
      oper_status := Running oid attempt deadline |} ->
    (deadline <= now)%Z ->
    unused fresh (op_idempotency_key o) m ->
    acknowledged (Execute fresh tt) answer ->
    protocol (Prepared c answer)
      (<[op_idempotency_key o := {| oper_identity := identity_of o;
           oper_status := Running fresh (attempt + 1) lease |}]> m)
| p_refuse c e :
    (forall answer, ~ due (command_operation c) answer) \/
      command_validate c = Err e \/ e = Database OtherDbError ->
    protocol (Prepared c (Err e)) m
| p_renew o oid attempt answer :
    holds o oid attempt -> acknowledged tt answer ->
    protocol (Renew o oid answer)
      (<[op_idempotency_key o := {| oper_identity := identity_of o;
           oper_status := Running oid attempt lease |}]> m)
| p_renew_refuse o oid e : protocol (Renew o oid (Err e)) m
| p_finish o oid attempt response answer :
    holds o oid attempt -> acknowledged tt answer ->
    protocol (Finish o oid response answer)
      (<[op_idempotency_key o := {| oper_identity := identity_of o;
           oper_status := Done response |}]> m)
| p_finish_refuse o oid response e : protocol (Finish o oid response (Err e)) m
| p_elsewhere : protocol Elsewhere m.
End machine.

(** What happened: the clock, the identifier generated and the call, one by one. *)
Abbreviation Trace := (list (DateTime * Uuid * Label)) (only parsing).

Inductive protocol_run : gmap Uuid Operation -> Trace -> gmap Uuid Operation -> Prop :=
| run_nil m : protocol_run m [] m
| run_cons now fresh l m m1 tr m2 :
    protocol now fresh m l m1 -> protocol_run m1 tr m2 -> protocol_run m ((now, fresh, l) :: tr) m2.

Section simulation.
Context `{SerdeJson} `{Aead} `{!SerdeJsonLaws} `{!AeadLaws}.
Context (self : PgStore) (bucket_of : bytes -> string).

(** ** The store with its labels *)

Inductive store_does (env : Env) (db : Db) : Label -> Db -> Prop :=
| does_prepare fault c answer db' :
    command_ok bucket_of c -> prepare_command self fault env c db = (answer, db') ->
    store_does env db (Prepared c answer) db'
| does_complete fault c oid artifact response audit answer db' :
    command_ok bucket_of c -> response_ok response ->
    complete_command self fault env c oid artifact response audit db = (answer, db') ->
    store_does env db (Finish (command_operation c) oid response answer) db'
| does_fail fault o oid response audit answer db' :
    response_ok response -> fail_operation self fault env o oid response audit db = (answer, db') ->
    store_does env db (Finish o oid response answer) db'
| does_renew fault o oid answer db' :
    renew_operation fault env o oid db = (answer, db') ->
    store_does env db (Renew o oid answer) db'
| does_usage fault organization project service b n measured answer db' :
    record_usage fault env organization project service b n measured db = (answer, db') ->
    store_does env db Elsewhere db'
| does_audit fault audit answer db' :
    record_audit fault env audit db = (answer, db') -> store_does env db Elsewhere db'.

Inductive store_run : Db -> Trace -> Db -> Prop :=
| store_nil db : store_run db [] db
| store_cons env l db db1 tr db2 :
    store_does env db l db1 -> store_run db1 tr db2 ->
    store_run db ((env_clock env, env_operation_id env, l) :: tr) db2.

(** A labelled call is a step of the store. *)
Lemma store_does_step env db l db' : store_does env db l db' -> store_step_at self bucket_of env db db'.
Proof.
  destruct 1.
  - by eapply prepare_command_step.
  - by eapply complete_command_step.
  - by eapply step_fail.
  - by eapply step_renew.
  - by eapply step_usage.
  - by eapply step_audit.
Qed.


(** ** The simulation relation *)

Definition represents (r : ReceiptRow) (x : Operation) : Prop :=
  row_identity r = oper_identity x /\
  match oper_status x with
  | Running oid attempt deadline =>
      rcp_state r = in_progress /\ rcp_operation_id r = oid /\ rcp_lease_attempt r = attempt /\
      rcp_lease_expires_at r = Some deadline
  | Done response => rcp_state r <> in_progress /\ decode_receipt self r = Ok response
  end.

Definition refines (t : gmap Uuid ReceiptRow) (m : gmap Uuid Operation) : Prop :=
  map_relation (fun _ => represents) (fun _ _ => False) (fun _ _ => False) t m.

Lemma refines_lookup t m k : refines t m ->
  match t !! k, m !! k with
  | Some r, Some x => represents r x
  | None, None => True
  | _, _ => False
  end.
Proof. intros Hr. specialize (Hr k). by destruct (t !! k), (m !! k). Qed.

Lemma refines_row t m k r : refines t m -> t !! k = Some r ->
  exists x, m !! k = Some x /\ represents r x.
Proof. intros Hr Hk. pose proof (refines_lookup _ _ k Hr) as Hx. rewrite Hk in Hx. by case_match; eauto. Qed.

Lemma refines_abstract t m k x : refines t m -> m !! k = Some x ->
  exists r, t !! k = Some r /\ represents r x.
Proof. intros Hr Hk. pose proof (refines_lookup _ _ k Hr) as Hx. rewrite Hk in Hx. by case_match; eauto. Qed.

Lemma refines_insert t m k r x :
  refines t m -> represents r x -> refines (<[k := r]> t) (<[k := x]> m).
Proof.
  intros Hr Hx k'. destruct (decide (k = k')) as [->|Hne].
  - by rewrite !lookup_insert_eq.
  - rewrite !lookup_insert_ne by done. apply Hr.
Qed.

Lemma row_matches_identity r o : ReceiptRow_matches r o = true <-> row_identity r = identity_of o.
Proof.
  rewrite ReceiptRow_matches_spec. unfold row_identity, identity_of. split.
  - intros ?. destruct_and?. congruence.
  - by intros [=].
Qed.

(** A running operation is a row in progress with its lease. *)
Lemma refines_in_progress t m o r :
  refines t m -> t !! op_idempotency_key o = Some r -> ReceiptRow_matches r o = true ->
  rcp_state r = in_progress -> exists deadline,
    m !! op_idempotency_key o = Some {| oper_identity := identity_of o;
      oper_status := Running (rcp_operation_id r) (rcp_lease_attempt r) deadline |} /\
    rcp_lease_expires_at r = Some deadline.
Proof.
  intros Href Hr Hm Hs. destruct (refines_row _ _ _ _ Href Hr) as ([i st] & Hx & Hi & Hst).
  simpl in *. apply row_matches_identity in Hm. destruct st as [oid n d|resp]; [|naive_solver].
  destruct Hst as (_ & <- & <- & Hd). exists d. by rewrite <- Hm, Hi.
Qed.

Lemma refines_unused t m k oid :
  refines t m -> operation_id_taken k oid t = false -> unused oid k m.
Proof.
  rewrite operation_id_taken_false. intros Href Hf k' x n d Hx Hst.
  destruct (refines_abstract _ _ _ _ Href Hx) as (r & Hr & _ & Hrep). rewrite Hst in Hrep.
  destruct Hrep as (_ & Ho & _). eauto.
Qed.

Lemma refines_alone t m service key :
  refines t m -> no_parallel service key t -> m !! key = None ->
  forall k x, m !! k = Some x -> ~ running_for service x.
Proof.
  intros Href Hpar Hnone k x Hx [Hsv Hrun].
  destruct (refines_abstract _ _ _ _ Href Hx) as (r & Hr & Hi & Hrep).
  destruct (oper_status x); [|done]. destruct Hrep as (Hst & _).
  rewrite <- Hi in Hsv. specialize (Hpar k r Hr Hsv Hst). congruence.
Qed.

(** ** Preparing *)

(** A fault hides the answer of a [prepare], and perhaps its effect. *)
Lemma prepare_fault_cases fault env c db answer db' :
  prepare_command self fault env c db = (answer, db') ->
  prepare_command self NoFault env c db = (answer, db') \/
  (answer = Err (Database OtherDbError) /\
   (db' = db \/ exists q, prepare_command self NoFault env c db = (Ok q, db'))).
Proof.
  assert (Hv : forall T v (t : Tx (Prepare T)),
    forget_result (validated v fault t db) = (answer, db') ->
    forget_result (validated v NoFault t db) = (answer, db') \/
    (answer = Err (Database OtherDbError) /\
     (db' = db \/ exists q, forget_result (validated v NoFault t db) = (Ok q, db')))).
  { unfold forget_result, validated. intros T [[]|e] t; [|by left]. unfold transaction.
    destruct fault, (tx_result t db) as [[a d]|e]; simpl; intros [= <- <-]; eauto 10. }
  destruct c; simpl; apply Hv.
Qed.

Lemma prepare_error env c db e db' :
  prepare_command self NoFault env c db = (Err e, db') -> db' = db.
Proof.
  assert (Hv : forall T v (t : Tx (Prepare T)),
    forget_result (validated v NoFault t db) = (Err e, db') -> db' = db).
  { unfold forget_result, validated. intros T [[]|e'] t; [|by intros [= _ ->]]. unfold transaction.
    by destruct (tx_result t db) as [[a d]|e']; simpl; intros [= _ <-]. }
  destruct c; simpl; apply Hv.
Qed.

Lemma prepare_invalid fault env c db e :
  command_validate c = Err e -> prepare_command self fault env c db = (Err e, db).
Proof.
  destruct c; simpl; unfold prepare_reconcile, prepare_delete, prepare_create_credential,
    prepare_revoke_credential, validated; by intros ->.
Qed.

(** What a known key answers at once is what the machine says. *)
Lemma due_answer env c m db answer :
  refines (receipts db) m -> command_validate c = Ok tt ->
  due (env_clock env) m (command_operation c) answer ->
  prepare_command self NoFault env c db = (answer, db).
Proof.
  intros Href Hv Hdue. set (o := command_operation c) in *.
  assert (Hrow : exists row, receipts db !! op_idempotency_key o = Some row /\
    receipt_answer (T := unit) self row o = answer /\
    (ReceiptRow_matches row o = true -> rcp_state row = in_progress ->
       exists d, rcp_lease_expires_at row = Some d /\ (env_clock env < d)%Z)).
  { unfold receipt_answer.
    destruct Hdue as [x Hx Hne|oid n d Hx Hlt|response Hx];
      destruct (refines_abstract _ _ _ _ Href Hx) as (row & Hr & Hi & Hst); simpl in *;
      exists row; (split; [done|]).
    - assert (Hm : ReceiptRow_matches row o = false).
      { apply not_true_iff_false. rewrite row_matches_identity. congruence. }
      by rewrite Hm.
    - destruct Hst as (Hs & <- & _ & Hd). rewrite (proj2 (row_matches_identity row o) Hi).
      rewrite (proj2 (in_progressb_spec row) Hs). eauto.
    - destruct Hst as (Hs & Hdec). rewrite (proj2 (row_matches_identity row o) Hi), Hdec.
      destruct (in_progressb row) eqn:Hp; [by apply in_progressb_spec in Hp|]. done. }
  destruct Hrow as (row & Hr & <- & Hlive). by apply prepare_answer.
Qed.

(** A granted attempt starts the operation or takes it over. *)
Lemma execute_simulated env c db oid u db' m answer :
  refines (receipts db) m -> prepare_command self NoFault env c db = (Ok (Execute oid u), db') ->
  acknowledged (Execute oid tt) answer ->
  exists m', protocol (env_clock env) (env_operation_id env) m (Prepared c answer) m' /\
    refines (receipts db') m'.
Proof.
  intros Href (-> & Hpar & cr & Hb)%prepare_executes Hack.
  destruct Hb as [Hnone Hck Hfresh|row Hto].
  - assert (Hn : m !! op_idempotency_key (command_operation c) = None).
    { pose proof (refines_lookup _ _ (op_idempotency_key (command_operation c)) Href) as Hl.
      rewrite Hnone in Hl. by destruct (m !! _). }
    eexists. split; [eapply p_start; [done| | |done]|].
    + by eapply refines_alone.
    + by eapply refines_unused.
    + by apply refines_insert.
  - destruct Hto as [Hrow Hm Hs (d & Hd & Hexp) _ Hfresh _].
    destruct (refines_in_progress _ _ _ _ Href Hrow Hm Hs) as (d' & Hx & Hd'). simplify_eq.
    eexists. split; [eapply p_takeover; [done|done|by eapply refines_unused|done]|].
    apply refines_insert; [done|]. split; [|done]. by apply row_matches_identity in Hm.
Qed.

(** An answer of the store without effect is the one due. *)
Lemma answered_due {T : Type} env o db m (p : Prepare T) :
  refines (receipts db) m -> answered self env o db p ->
  due (env_clock env) m o (Ok (forget p)).
Proof.
  intros Href Ha. destruct Ha as [row t Hr Hm Hs Hd Hlt|row response Hr Hm Hs Hd]; simpl.
  - destruct (refines_in_progress _ _ _ _ Href Hr Hm Hs) as (d & Hx & Hd'). simplify_eq.
    by eapply due_in_progress.
  - destruct (refines_row _ _ _ _ Href Hr) as ([i st] & Hx & Hi & Hst). simpl in *.
    apply row_matches_identity in Hm. rewrite Hm in Hi. subst i.
    destruct st as [|response']; [naive_solver|]. destruct Hst as [_ Hd'].
    rewrite Hd in Hd'. injection Hd' as <-. by eapply due_replay.
Qed.

Lemma prepare_answers env c db q db' m :
  refines (receipts db) m -> prepare_command self NoFault env c db = (Ok q, db') ->
  (forall oid u, q <> Execute oid u) ->
  db' = db /\ due (env_clock env) m (command_operation c) (Ok q).
Proof.
  intros Href Hq Hne.
  assert (Hv : forall T v (t : Tx (Prepare T)),
    forget_result (validated v NoFault t db) = (Ok q, db') ->
    exists p, tx_result t db = Ok (p, db') /\ q = forget p).
  { unfold forget_result, validated. intros T [[]|e] t; [|done]. unfold transaction.
    destruct (tx_result t db) as [[p d]|e]; [|done]. simpl. intros [= <- <-]. eauto. }
  destruct c as [c|c|c|c]; simpl in Hq; apply Hv in Hq as (p & Hp & ->).
  - apply prepare_reconcile_effect in Hp as [[-> Ha]|(? & ? & ? & ? & ? & -> & _)];
      [|by destruct (Hne _ _ eq_refl)]. split; [done|]. by eapply answered_due.
  - apply prepare_delete_effect in Hp as [[-> Ha]|(? & ? & ? & -> & _)];
      [|by destruct (Hne _ _ eq_refl)]. split; [done|]. by eapply answered_due.
  - apply prepare_create_effect in Hp as [[-> Ha]|(? & _ & _ & Hb)];
      [|by inversion Hb; subst; destruct (Hne _ _ eq_refl)]. split; [done|]. by eapply answered_due.
  - apply prepare_revoke_effect in Hp as [[-> Ha]|(? & ? & ? & ? & -> & _)];
      [|by destruct (Hne _ _ eq_refl)]. split; [done|]. by eapply answered_due.
Qed.

Lemma due_dec now m o : (exists answer, due now m o answer) \/ (forall answer, ~ due now m o answer).
Proof.
  destruct (m !! op_idempotency_key o) as [[i st]|] eqn:Hx;
    [|right; intros a Ha; destruct Ha; congruence].
  destruct (decide (i = identity_of o)) as [->|Hne]; [|left; eexists; by eapply due_conflict].
  destruct st as [oid n d|response]; [|left; eexists; by eapply due_replay].
  destruct (decide (now < d)%Z) as [Hlt|Hge]; [left; eexists; by eapply due_in_progress|].
  right. intros a Ha. destruct Ha; simplify_eq/=; done.
Qed.

Lemma prepare_simulated fault env c db answer db' m :
  refines (receipts db) m -> prepare_command self fault env c db = (answer, db') ->
  exists m', protocol (env_clock env) (env_operation_id env) m (Prepared c answer) m' /\
    refines (receipts db') m'.
Proof.
  intros Href Hp. destruct (command_validate c) as [[]|e] eqn:Hv.
  2: { rewrite (prepare_invalid _ _ _ _ e Hv) in Hp. injection Hp as <- <-.
       exists m. split; [|done]. apply p_refuse. auto. }
  assert (Hok : forall q d a, prepare_command self NoFault env c db = (Ok q, d) -> acknowledged q a ->
    exists m', protocol (env_clock env) (env_operation_id env) m (Prepared c a) m' /\
      refines (receipts d) m').
  { intros q d a Hq Hack. destruct q as [oid []|response|oid]; [by eapply execute_simulated|..];
      (eapply prepare_answers in Hq as [-> Ha]; [|done..]; exists m; split; [|done]);
      (destruct Hack as [->| ->]; [by apply p_reply|by apply p_refuse; auto]). }
  apply prepare_fault_cases in Hp as [Hp|[-> [->|[q Hq]]]].
  - destruct answer as [q|e]; [by eapply Hok; [|by left]|].
    pose proof (prepare_error _ _ _ _ _ Hp) as ->. exists m. split; [|done].
    destruct (due_dec (env_clock env) m (command_operation c)) as [[a Ha]|Hn].
    + pose proof (due_answer _ _ _ _ _ Href Hv Ha) as Hq. apply p_reply. congruence.
    + apply p_refuse. by left.
  - exists m. split; [|done]. apply p_refuse. auto.
  - eapply Hok; [exact Hq|by right].
Qed.

(** ** Renewing and finishing *)

(** A transaction that returns nothing was committed or left the tables alone. *)
Lemma transaction_cases fault (t : Tx unit) db answer db' :
  transaction fault t db = (answer, db') ->
  (db' = db /\ exists e, answer = Err e) \/
  (acknowledged tt answer /\ tx_result t db = Ok (tt, db')).
Proof.
  unfold transaction, acknowledged.
  destruct fault, (tx_result t db) as [[[] d]|e]; intros [= <- <-]; eauto.
Qed.

Lemma finish_simulated env o oid response answer db row t' m :
  receipts_ok (receipts db) -> refines (receipts db) m -> response_ok response ->
  acknowledged tt answer -> finishes self env o oid response row (receipts db) t' ->
  exists m', protocol (env_clock env) (env_operation_id env) m (Finish o oid response answer) m' /\
    refines t' m'.
Proof.
  intros Hok Href Hresp Hack (Hrow & Hm & Ho & Hs & p & n & c & Hp & Hn & Hck & ->).
  destruct (ro_row _ Hok _ _ Hrow) as [Hk _].
  destruct (refines_in_progress _ _ _ _ Href Hrow Hm Hs) as (d & Hx & _). rewrite Ho in Hx.
  eexists. split; [eapply p_finish; [by eexists|done]|]. apply refines_insert; [done|].
  split; [by apply row_matches_identity in Hm|].
  split; [simpl; unfold final_state; by destruct (resp_failed response)|].
  eapply (decode_recorded self); try done. by rewrite Hk, Ho.
Qed.

Lemma store_simulated env db l db' m :
  reachable self bucket_of db -> refines (receipts db) m -> store_does env db l db' ->
  exists m', protocol (env_clock env) (env_operation_id env) m l m' /\ refines (receipts db') m'.
Proof.
  intros Hreach Href Hd. pose proof (reachable_receipts_ok _ _ _ Hreach) as Hok.
  destruct Hd as [fault c answer db' _ Hp|fault c oid artifact response audit answer db' _ Hresp Hc
    |fault o oid response audit answer db' Hresp Hf|fault o oid answer db' Hr
    |fault org prj svc b n measured answer db' Hu|fault audit answer db' Ha].
  - by eapply prepare_simulated.
  - apply complete_command_ends in Hc as [[-> [e ->]]|[Hack [row Hfin]]].
    + exists m. split; [apply p_finish_refuse|done].
    + by eapply finish_simulated.
  - unfold fail_operation, validated in Hf. destruct (ensure _ _) as [[]|e].
    2: { injection Hf as <- <-. exists m. split; [apply p_finish_refuse|done]. }
    apply transaction_cases in Hf as [[-> [e ->]]|[Hack Hf]].
    { exists m. split; [apply p_finish_refuse|done]. }
    apply fail_operation_effect in Hf as (row & t' & Hfin & _ & ->). by eapply finish_simulated.
  - unfold renew_operation, validated in Hr. destruct (OperationRequest_validate o) as [[]|e].
    2: { injection Hr as <- <-. exists m. split; [apply p_renew_refuse|done]. }
    apply transaction_cases in Hr as [[-> [e ->]]|[Hack Hr]].
    { exists m. split; [apply p_renew_refuse|done]. }
    apply renew_operation_tx_Ok in Hr as (row & Hrow & Hm & Ho & Hs & ->).
    destruct (refines_in_progress _ _ _ _ Href Hrow Hm Hs) as (d & Hx & _). rewrite Ho in Hx.
    eexists. split; [eapply p_renew; [by eexists|done]|]. apply refines_insert; [done|].
    split; [by apply row_matches_identity in Hm|done].
  - exists m. split; [apply p_elsewhere|].
    assert (receipts db' = receipts db) as ->; [|done].
    apply record_usage_state in Hu as [->|[v Hu]]; [done|].
    by apply record_usage_effect in Hu as (_ & _ & _ & _ & t & ->).
  - exists m. split; [apply p_elsewhere|].
    assert (receipts db' = receipts db) as ->; [|done].
    apply transaction_state in Ha as [->|[u Ha]]; [done|]. by apply insert_audit_effect in Ha as [_ ->].
Qed.

Lemma run_simulated db tr db' :
  store_run db tr db' -> reachable self bucket_of db -> forall m, refines (receipts db) m ->
  exists m', protocol_run m tr m' /\ refines (receipts db') m'.
Proof.
  induction 1 as [db|env l db db1 tr db2 Hd Hr IH]; intros Hreach m Href.
  { exists m. split; [constructor|done]. }
  destruct (store_simulated _ _ _ _ _ Hreach Href Hd) as (m1 & Hp & Href1).
  destruct (IH) with (m := m1) as (m2 & Hrun & Href2); [|done|].
  - unfold reachable in *. eapply rtc_r; [done|]. exists env. by eapply store_does_step.
  - exists m2. split; [by econstructor|done].
Qed.

(** C1. The store implements the idempotency protocol, call by call.  From the empty
    tables and from every pair of related states, each sequence of calls, with the
    answers the callers get, is one the abstract machine allows at the same times and
    with the same identifiers, and leads to related states again: an operation is
    started only under a new key and alone on its service, taken over only from its
    deadline on, renewed and finished only under its current identifier, finished
    once; a retry of the same request is told so while it runs, gets exactly the
    response it was finished with afterwards, and another request under the key is
    refused.  A call whose acknowledgement is lost may have had its effect, every
    other error has none. *)
Theorem receipts_refine_protocol :
  refines (receipts empty_db) ∅ /\
  forall db m tr db', reachable self bucket_of db -> refines (receipts db) m ->
    store_run db tr db' ->
    exists m', protocol_run m tr m' /\ refines (receipts db') m'.
Proof.
  split; [intros k; simpl; by rewrite !lookup_empty|].
  intros db m tr db' Hreach Href Hrun. by eapply run_simulated.
Qed.
End simulation.

(** ** A concrete run *)

#[local] Existing Instance sample_json.
#[local] Existing Instance sample_aead.

(** A reconciliation is granted, a retry is told that it runs, it is completed, and
    another retry gets its response. *)
Definition retried_trace : list (DateTime * Uuid * Label) :=
  [((0 * second)%Z, 101%N, Prepared (ReconcileOp sample_reconcile) (Ok (Execute 101 tt)));
   ((50 * second)%Z, 109%N, Prepared (ReconcileOp sample_reconcile) (Ok (InProgress 101)));
   ((1 * second)%Z, 102%N, Finish (rec_operation sample_reconcile) 101 sample_response (Ok tt));
   ((500 * second)%Z, 109%N, Prepared (ReconcileOp sample_reconcile) (Ok (Replay sample_response)))].

Lemma retried_run : store_run sample_store sample_bucket_of empty_db retried_trace db_ready.
Proof.
  assert (Hp : forall n at_ db p db', prepare_command sample_store NoFault (sample_env n at_)
      (ReconcileOp sample_reconcile) db = (p, db') ->
    store_does sample_store sample_bucket_of (sample_env n at_) db
      (Prepared (ReconcileOp sample_reconcile) p) db').
  { intros n at_ db p db' Hp. by eapply (does_prepare _ _ _ _ NoFault). }
  apply (store_cons _ _ (sample_env 1 0) _ _ db_prepared); [apply Hp; by vm_compute|].
  apply (store_cons _ _ (sample_env 9 50) _ _ db_prepared); [apply Hp; by vm_compute|].
  apply (store_cons _ _ (sample_env 2 1) _ _ db_ready).
  { eapply (does_complete _ _ _ _ NoFault (ReconcileOp sample_reconcile) 101
      {| art_physical_bucket_id := "phys"; art_credential := sample_credential 1 |} _ sample_audit);
      [by split|done|]. by vm_compute. }
  apply (store_cons _ _ (sample_env 9 500) _ _ db_ready); [apply Hp; by vm_compute|].
  constructor.
Qed.

Lemma receipts_refine_protocol_witness :
  exists m, protocol_run ∅ retried_trace m /\ refines sample_store (receipts db_ready) m.
Proof.
  destruct (@receipts_refine_protocol sample_json sample_aead sample_json_laws sample_aead_laws
              sample_store sample_bucket_of) as [H0 Hsim].
  apply (Hsim empty_db ∅ retried_trace db_ready); [apply rtc_refl|exact H0|exact retried_run].
Defined.
