(* ===== verification/ServiceInv.v ===== *)
(** * The service side of the tables

    The invariant that ties service instances, buckets, bucket-name reservations
    and the operations in progress together, and its preservation by every store
    call.  Only the set of requests in progress matters here: [pending]. *)

From stdpp Require Import relations.
From S2P Require Import Prelude RustStr Domain Auth Json StoreModels Cipher Tables Receipts ReceiptLemmas Store StoreEffects StoreStep Samples ReceiptProtocol.

(** The request [i] is in progress. *)
Definition pending (t : gmap Uuid ReceiptRow) (i : Identity) : Prop :=
  exists k r, t !! k = Some r /\ rcp_state r = in_progress /\ row_identity r = i.

Section pending.
Context `{SerdeJson} `{Aead}.

Lemma matches_identity r o :
  ReceiptRow_matches r o = true -> row_identity r = identity_of o.
Proof.
  rewrite ReceiptRow_matches_spec. unfold row_identity, identity_of. intros. destruct_and?.
  congruence.
Qed.

Lemma pending_single t i j :
  receipts_ok t -> pending t i -> pending t j -> id_service i = id_service j -> i = j.
Proof.
  intros Hok (k1 & r1 & H1 & S1 & <-) (k2 & r2 & H2 & S2 & <-) Hs.
  assert (k1 = k2) as -> by (by eapply (ro_single _ Hok k1 r1 k2 r2)). congruence.
Qed.

Lemma pending_insert t k r i :
  rcp_state r = in_progress ->
  (forall r0, t !! k = Some r0 -> rcp_state r0 = in_progress -> row_identity r0 = row_identity r) ->
  pending (<[k := r]> t) i <-> i = row_identity r \/ pending t i.
Proof.
  intros Hs Hold. split.
  - intros (k' & r' & Hr' & Hs' & <-). apply lookup_insert_Some in Hr' as [[<- <-]|[_ Hr']];
      [by left|]. right. by exists k', r'.
  - intros [->|(k' & r' & Hr' & Hs' & <-)]; [exists k, r; by rewrite lookup_insert_eq|].
    destruct (decide (k' = k)) as [->|Hne].
    + exists k, r. rewrite lookup_insert_eq. by rewrite (Hold r').
    + exists k', r'. by rewrite lookup_insert_ne.
Qed.

Lemma begins_pending env o db t cr i :
  begins env o db t cr -> pending t i <-> i = identity_of o \/ pending (receipts db) i.
Proof.
  intros [Hnone Hck Hf|row Hto].
  - rewrite pending_insert; [done|done|]. intros. congruence.
  - destruct Hto as [Hrow Hm Hs _ _ _ _]. rewrite pending_insert; [|done|].
    + by rewrite <- (matches_identity _ _ Hm).
    + intros r0 Hr0 _. by simplify_eq.
Qed.

Lemma renew_pending env t k row i :
  t !! k = Some row -> rcp_state row = in_progress ->
  pending (<[k := renewed_row env row]> t) i <-> pending t i.
Proof.
  intros Hr Hs. rewrite pending_insert; [|done|intros; by simplify_eq].
  split; [|by right]. intros [->|Hp]; [|done]. by exists k, row.
Qed.

(** Finishing an operation ends everything in progress on its service, and
    nothing else. *)
Lemma finishes_pending self env o oid response row t t' i :
  receipts_ok t -> finishes self env o oid response row t t' ->
  pending t (identity_of o) /\
  (pending t' i <-> pending t i /\ id_service i <> op_service_instance_id o).
Proof.
  intros Hok (Hrow & Hm & _ & Hs & p & n & c & _ & _ & _ & ->).
  assert (Hpo : pending t (identity_of o)).
  { exists (op_idempotency_key o), row. by rewrite (matches_identity _ _ Hm). }
  assert (Hdone : rcp_state (recorded_row env response n c row) <> in_progress).
  { simpl. unfold final_state. by destruct (resp_failed response). }
  split; [done|]. split.
  - intros (k & r & Hr & Hs' & <-). apply lookup_insert_Some in Hr as [[<- <-]|[Hne Hr]]; [done|].
    split; [by exists k, r|]. intros Hsv. apply Hne. apply ReceiptRow_matches_spec in Hm.
    destruct_and?. eapply (ro_single _ Hok _ row k r); try done. simpl in Hsv. congruence.
  - intros [(k & r & Hr & Hs' & <-) Hsv]. exists k, r. rewrite lookup_insert_ne; [done|].
    intros <-. simplify_eq. apply matches_identity in Hm. rewrite Hm in Hsv. done.
Qed.
End pending.

(** ** The invariant *)

Section service_inv.
Context `{SerdeJson} `{Aead}.
Context (self : PgStore).
Context (bucket_of : bytes -> string).

(** The bucket row carries the desired specification. *)
Record mirrors (spec : SyouyuSpec) (b : BucketRow) : Prop := {
  mi_name : bkt_bucket_name b = spec_bucket_name spec;
  mi_region : bkt_region b = spec_region spec;
  mi_bytes : bkt_quota_bytes b = spec_quota_bytes spec;
  mi_objects : bkt_quota_objects b = spec_quota_objects spec;
}.

(** A service instance between operations: applied, and ready or deleted. *)
Record service_ok (db : Db) (id : Uuid) (s : ServiceRow) : Prop := {
  so_id : svc_id s = id;
  so_checks : service_checks s = true;
  so_observed : svc_observed_generation s = svc_desired_generation s;
  so_phase : svc_phase s = "ready" \/ svc_phase s = "deleted";
  so_spec : exists spec b, spec_to_value spec = Some (svc_desired_spec s) /\
    buckets db !! id = Some b /\ mirrors spec b;
}.

Record bucket_ok (db : Db) (id : Uuid) (b : BucketRow) : Prop := {
  bo_id : bkt_service_instance_id b = id;
  bo_checks : bucket_checks b = true;
  bo_physical : is_some (bkt_physical_bucket_id b) = true;
  bo_scope : exists s, services db !! id = Some s /\
    svc_organization_id s = bkt_organization_id b /\ svc_project_id s = bkt_project_id b;
}.

(** The service is ready and its bucket has the name [n]. *)
Definition live_name (db : Db) (n : string) (id : Uuid) : Prop :=
  exists s b, services db !! id = Some s /\ svc_phase s = "ready" /\
    buckets db !! id = Some b /\ bkt_bucket_name b = n.

(** The service is being created under the name [n]. *)
Definition claimed_name (db : Db) (n : string) (id : Uuid) : Prop :=
  services db !! id = None /\
  exists i, pending (receipts db) i /\ id_action i = PROVIDER_RECONCILE_ACTION /\
    id_service i = id /\ bucket_of (id_hash i) = n.

Definition reserved_name (db : Db) (n : string) (id : Uuid) : Prop :=
  exists v, name_reservations db !! n = Some v /\ nam_service_instance_id v = id.

Record service_inv (db : Db) : Prop := {
  si_service id s : services db !! id = Some s -> service_ok db id s;
  si_bucket id b : buckets db !! id = Some b -> bucket_ok db id b;
  si_bucket_name id1 b1 id2 b2 :
    buckets db !! id1 = Some b1 -> buckets db !! id2 = Some b2 ->
    bkt_bucket_name b1 = bkt_bucket_name b2 -> id1 = id2;
  si_reserved n v : name_reservations db !! n = Some v ->
    live_name db n (nam_service_instance_id v) \/ claimed_name db n (nam_service_instance_id v);
  si_live n id : live_name db n id -> reserved_name db n id;
  si_claimed i : pending (receipts db) i -> id_action i = PROVIDER_RECONCILE_ACTION ->
    reserved_name db (bucket_of (id_hash i)) (id_service i);
  si_alive i s : pending (receipts db) i -> services db !! id_service i = Some s ->
    svc_phase s <> "deleted";
  si_delete i : pending (receipts db) i -> id_action i = PROVIDER_DELETE_ACTION ->
    exists s, services db !! id_service i = Some s /\
      id_generation i = Some (svc_desired_generation s + 1)%Z;
}.

Lemma service_inv_empty : service_inv empty_db.
Proof.
  assert (Hp : forall i, ~ pending (receipts empty_db) i) by (intros i (k & r & Hr & _); done).
  constructor; try done; try (intros; exfalso; by eapply Hp).
  intros n id (s & b & Hs & _). done.
Qed.

(** ** Steps that leave services, buckets and names alone *)

Section same_tables.
Context (db db' : Db).
Context (Hsv : services db' = services db) (Hbk : buckets db' = buckets db).
Context (Hnm : name_reservations db' = name_reservations db).
Context (Hinv : service_inv db).

(** What the invariant asks of a request in progress. *)
Definition request_ok (i : Identity) : Prop :=
  (id_action i = PROVIDER_RECONCILE_ACTION ->
     reserved_name db (bucket_of (id_hash i)) (id_service i)) /\
  (forall s, services db !! id_service i = Some s -> svc_phase s <> "deleted") /\
  (id_action i = PROVIDER_DELETE_ACTION -> exists s, services db !! id_service i = Some s /\
     id_generation i = Some (svc_desired_generation s + 1)%Z).

(** Only the set of requests in progress changes. *)
Lemma service_inv_requests :
  (forall i, pending (receipts db') i -> pending (receipts db) i \/ request_ok i) ->
  (forall i, pending (receipts db) i -> id_action i = PROVIDER_RECONCILE_ACTION ->
     pending (receipts db') i) ->
  service_inv db'.
Proof.
  intros Hnew Hold. destruct Hinv as [Isv Ibk Ibn Irs Ilv Icl Ial Idl].
  constructor; unfold live_name, claimed_name, reserved_name;
    rewrite ?Hsv, ?Hbk, ?Hnm; try done.
  - intros id s Hs. destruct (Isv id s Hs). constructor; try done. by rewrite Hbk.
  - intros id b Hb. destruct (Ibk id b Hb). constructor; try done. by rewrite Hsv.
  - intros n v Hv. destruct (Irs n v Hv) as [?|(Hn & i & Hi & Ha & Hrest)]; [by left|right].
    split; [done|]. exists i. split; [by apply Hold|done].
  - intros i [Hi|(Hr & _ & _)]%Hnew Hact; [by apply Icl|by apply Hr].
  - intros i s [Hi|(_ & Ha & _)]%Hnew; [by eapply Ial|by apply Ha].
  - intros i [Hi|(_ & _ & Hd)]%Hnew Hact; [by apply Idl|by apply Hd].
Qed.

(** The end of an operation that is not a reconciliation. *)
Lemma service_inv_end o :
  receipts_ok (receipts db) -> op_action o <> PROVIDER_RECONCILE_ACTION ->
  pending (receipts db) (identity_of o) ->
  (forall i, pending (receipts db') i <->
     pending (receipts db) i /\ id_service i <> op_service_instance_id o) ->
  service_inv db'.
Proof.
  intros Hok Ha Hpo Hp. apply service_inv_requests.
  - intros i [Hi _]%Hp. by left.
  - intros i Hi Hact. apply Hp. split; [done|]. intros Hsame.
    pose proof (pending_single _ _ _ Hok Hi Hpo Hsame) as ->. done.
Qed.
End same_tables.
(** ** Steps on one service *)

(** A name the invariant accounts for, seen after a step that only touched the
    service [id]. *)
Lemma name_elsewhere db db' id n id' :
  id' <> id -> services db' !! id' = services db !! id' -> buckets db' !! id' = buckets db !! id' ->
  (forall i, pending (receipts db) i -> id_service i <> id -> pending (receipts db') i) ->
  live_name db n id' \/ claimed_name db n id' -> live_name db' n id' \/ claimed_name db' n id'.
Proof.
  intros Hne Hs Hb Hp [(s & b & Hlive)|(Hnone & i & Hi & Ha & Hid & Hbk)].
  - left. exists s, b. by rewrite Hs, Hb.
  - right. split; [by rewrite Hs|]. exists i. split; [|done]. apply Hp; congruence.
Qed.

Lemma live_elsewhere db db' id n id' :
  id' <> id -> services db' !! id' = services db !! id' -> buckets db' !! id' = buckets db !! id' ->
  live_name db' n id' -> live_name db n id'.
Proof. intros Hne Hs Hb (s & b & Hlive). exists s, b. by rewrite <- Hs, <- Hb. Qed.

Lemma service_ok_elsewhere db db' id s :
  buckets db' !! id = buckets db !! id -> service_ok db id s -> service_ok db' id s.
Proof. intros Hb [? ? ? ? Hspec]. constructor; [done..|]. by rewrite Hb. Qed.

Lemma bucket_ok_elsewhere db db' id b :
  services db' !! id = services db !! id -> bucket_ok db id b -> bucket_ok db' id b.
Proof. intros Hs [? ? ? Hscope]. constructor; [done..|]. by rewrite Hs. Qed.

(** The frame of a step that ends an operation on [id]: the other services keep
    their rows, their names and their requests. *)
Record ends_on (id : Uuid) (db db' : Db) : Prop := {
  eo_services k : k <> id -> services db' !! k = services db !! k;
  eo_buckets k : k <> id -> buckets db' !! k = buckets db !! k;
  eo_names n v : name_reservations db' !! n = Some v -> name_reservations db !! n = Some v;
  eo_names_kept n v : name_reservations db !! n = Some v -> nam_service_instance_id v <> id ->
    name_reservations db' !! n = Some v;
  eo_pending i : pending (receipts db') i <->
    pending (receipts db) i /\ id_service i <> id;
}.

(** What is left to show about [id] itself. *)
Record settled (id : Uuid) (db' : Db) : Prop := {
  se_service s : services db' !! id = Some s -> service_ok db' id s;
  se_bucket b : buckets db' !! id = Some b -> bucket_ok db' id b;
  se_bucket_name b k b' : buckets db' !! id = Some b -> buckets db' !! k = Some b' -> k <> id ->
    bkt_bucket_name b' <> bkt_bucket_name b;
  se_names n v : name_reservations db' !! n = Some v -> nam_service_instance_id v = id ->
    live_name db' n id;
  se_live n : live_name db' n id -> reserved_name db' n id;
}.

Lemma service_inv_settle id db db' :
  service_inv db -> ends_on id db db' -> settled id db' -> service_inv db'.
Proof.
  intros [Isv Ibk Ibn Irs Ilv Icl Ial Idl] [Esv Ebk Enm Ekp Epd] [Ssv Sbk Sbn Snm Slv].
  constructor.
  - intros k s Hs. destruct (decide (k = id)) as [->|Hne]; [by apply Ssv|].
    rewrite Esv in Hs by done. eapply service_ok_elsewhere; [by apply Ebk|by apply Isv].
  - intros k b Hb. destruct (decide (k = id)) as [->|Hne]; [by apply Sbk|].
    rewrite Ebk in Hb by done. eapply bucket_ok_elsewhere; [by apply Esv|by apply Ibk].
  - intros k1 b1 k2 b2 H1 H2 Heq.
    destruct (decide (k1 = id)) as [->|N1], (decide (k2 = id)) as [->|N2]; [done| | |].
    + by destruct (Sbn b1 k2 b2).
    + by destruct (Sbn b2 k1 b1).
    + rewrite Ebk in H1, H2 by done. by eapply (Ibn k1 b1 k2 b2).
  - intros n v Hv. destruct (decide (nam_service_instance_id v = id)) as [Heq|Hne].
    + left. rewrite Heq. by eapply Snm.
    + eapply (name_elsewhere db db' id); [done|by apply Esv|by apply Ebk| |by apply Irs, Enm].
      intros i Hi Hni. by apply Epd.
  - intros n k Hl. destruct (decide (k = id)) as [->|Hne]; [by apply Slv|].
    apply (live_elsewhere db db' id) in Hl; [|done|by apply Esv|by apply Ebk].
    apply Ilv in Hl as (v & Hv & Hk). exists v. split; [|done]. apply Ekp; congruence.
  - intros i [Hi Hne]%Epd Hact. destruct (Icl i Hi Hact) as (v & Hv & Hk).
    exists v. split; [|done]. apply Ekp; congruence.
  - intros i s [Hi Hne]%Epd Hs. rewrite Esv in Hs by done. by eapply Ial.
  - intros i [Hi Hne]%Epd Hact. rewrite Esv by done. by apply Idl.
Qed.

(** ** Starting operations *)

Lemma service_inv_begin env o db t cr cr' :
  service_inv db -> begins env o db t cr -> request_ok db (identity_of o) ->
  service_inv (set_credential_reservations cr' (set_receipts t db)).
Proof.
  intros Hinv Hb Hreq. apply (service_inv_requests db); [done..| |].
  - intros i Hi. apply (begins_pending _ _ _ _ _ _ Hb) in Hi as [->|Hi]; [by right|by left].
  - intros i Hi _. apply (begins_pending _ _ _ _ _ _ Hb). by right.
Qed.

Lemma begin_request_ok o db :
  op_action o <> PROVIDER_RECONCILE_ACTION -> service_alive o db -> delete_generation_ok o db ->
  request_ok db (identity_of o).
Proof.
  intros Ha (e & He & _ & _ & Hd) Hg. split; [done|]. split; [|exact Hg].
  intros s Hs. simpl in Hs. by simplify_eq.
Qed.

(** The first reconciliation of a service under a free name. *)
Lemma service_inv_claim env o db t cr n v :
  service_inv db -> begins env o db t cr ->
  op_action o = PROVIDER_RECONCILE_ACTION -> bucket_of (op_request_hash o) = n ->
  services db !! op_service_instance_id o = None -> name_reservations db !! n = None ->
  nam_service_instance_id v = op_service_instance_id o ->
  service_inv (set_name_reservations (<[n := v]> (name_reservations db))
                 (set_credential_reservations cr (set_receipts t db))).
Proof.
  intros [Isv Ibk Ibn Irs Ilv Icl Ial Idl] Hb Ha Hn Hnone Hfree Hv.
  assert (Hp : forall i, pending t i <-> i = identity_of o \/ pending (receipts db) i).
  { intros i. by eapply begins_pending. }
  assert (Hkeep : forall m id, reserved_name db m id ->
    reserved_name (set_name_reservations (<[n := v]> (name_reservations db))
                     (set_credential_reservations cr (set_receipts t db))) m id).
  { intros m id (w & Hw & Hid). exists w. simpl. rewrite lookup_insert_ne; [done|congruence]. }
  constructor; simpl.
  - intros id s Hs. destruct (Isv id s Hs). by constructor.
  - intros id b Hbk. destruct (Ibk id b Hbk). by constructor.
  - done.
  - intros m w Hw. apply lookup_insert_Some in Hw as [[<- <-]|[_ Hw]].
    + right. rewrite Hv. split; [done|]. exists (identity_of o). split; [|done]. apply Hp. by left.
    + destruct (Irs m w Hw) as [Hl|(Hs & i & Hi & Hrest)]; [by left|right].
      split; [done|]. exists i. split; [|done]. apply Hp. by right.
  - intros m id Hl. apply Hkeep, Ilv, Hl.
  - intros i [->|Hi]%Hp Hact; [|by apply Hkeep, Icl]. exists v. simpl. rewrite Hn.
    by rewrite lookup_insert_eq.
  - intros i s [->|Hi]%Hp Hs; [simpl in Hs; congruence|by eapply Ial].
  - intros i [->|Hi]%Hp Hact; [simpl in Hact; by rewrite Ha in Hact|by apply Idl].
Qed.

Lemma set_names_same db : set_name_reservations (name_reservations db) db = db.
Proof. by destruct db. Qed.

Lemma ready_not_deleted db id s :
  service_inv db -> services db !! id = Some s -> svc_phase s <> "deleted" ->
  svc_phase s = "ready".
Proof. intros Hinv Hs Hd. by destruct (so_phase _ _ _ (si_service _ Hinv _ _ Hs)). Qed.

Lemma service_inv_begin_reconcile env command again physical t cr nm db :
  service_inv db -> reconcile_command_ok bucket_of command ->
  begins env (rec_operation command) db t cr ->
  reconcile_allowed command db again physical ->
  names_after env (spec_bucket_name (rec_spec command))
    (op_service_instance_id (rec_operation command)) (name_reservations db) nm ->
  service_inv (set_name_reservations nm (set_credential_reservations cr (set_receipts t db))).
Proof.
  intros Hinv [Ha Hn] Hb Hal Hnm. set (o := rec_operation command) in *.
  assert (Hkept : reserved_name db (spec_bucket_name (rec_spec command)) (op_service_instance_id o) ->
    (forall s, services db !! op_service_instance_id o = Some s -> svc_phase s <> "deleted") ->
    service_inv (set_name_reservations (name_reservations db)
                   (set_credential_reservations cr (set_receipts t db)))).
  { intros Hres Hd. apply (service_inv_begin env o db t cr cr Hinv Hb). split; [|split; [done|]].
    - intros _. simpl. by rewrite <- Hn.
    - simpl. by rewrite Ha. }
  unfold reconcile_allowed in Hal. fold o in Hal. cbv zeta in Hal.
  destruct (services db !! op_service_instance_id o) as [e|] eqn:He.
  - destruct Hal as (_ & _ & Hd & (b & Hbk & Hname & _) & _).
    assert (Hres : reserved_name db (spec_bucket_name (rec_spec command)) (op_service_instance_id o)).
    { apply (si_live _ Hinv). exists e, b. split; [done|].
      split; [by eapply ready_not_deleted|done]. }
    destruct Hnm as [v Hv Hsv|Hfree _]; [|destruct Hres as (v & Hv & _); congruence].
    apply Hkept; [done|]. intros s [= <-]. done.
  - destruct Hnm as [v Hv Hsv|Hfree _].
    + apply Hkept; [by exists v|done].
    + by eapply service_inv_claim.
Qed.

(** ** Ending operations *)

Lemma name_reserved_by_spec id v : name_reserved_by id v = true <-> nam_service_instance_id v = id.
Proof. unfold name_reserved_by. apply N.eqb_eq. Qed.

(** Names of other services survive the clean-up of the service [id]. *)
Lemma names_kept (f : string -> NameReservationRow -> bool) id (t : gmap string NameReservationRow) n v :
  t !! n = Some v -> nam_service_instance_id v <> id ->
  map_delete_where (fun n v => name_reserved_by id v && f n v) t !! n = Some v.
Proof.
  intros Hv Hne. apply lookup_delete_where. split; [done|].
  destruct (name_reserved_by id v) eqn:E; [|done]. by apply name_reserved_by_spec in E.
Qed.

(** What remains reserved by [id] itself. *)
Lemma names_left (f : string -> NameReservationRow -> bool) id (t : gmap string NameReservationRow) n v :
  map_delete_where (fun n v => name_reserved_by id v && f n v) t !! n = Some v ->
  nam_service_instance_id v = id -> t !! n = Some v /\ f n v = false.
Proof.
  rewrite lookup_delete_where. intros [Hv Hf] Hid. apply name_reserved_by_spec in Hid.
  by rewrite Hid in Hf.
Qed.

Lemma service_inv_reconcile env command oid physical spec qb qo response audit u db db' :
  receipts_ok (receipts db) -> service_inv db -> reconcile_command_ok bucket_of command ->
  spec_to_value (rec_spec command) = Some spec ->
  qb = spec_quota_bytes (rec_spec command) -> qo = spec_quota_objects (rec_spec command) ->
  tx_result (complete_reconcile_tx self env command oid physical spec qb qo response audit) db
    = Ok (u, db') ->
  service_inv db'.
Proof.
  intros Hok Hinv [Ha Hn] Hspec -> -> Hrun.
  apply complete_reconcile_effect in Hrun as (row & t' & created & Hfin & Hck & Hup & _ & Hbck & Hbn
    & _ & _ & ->).
  set (o := rec_operation command) in *. set (id := op_service_instance_id o) in *.
  set (name := spec_bucket_name (rec_spec command)) in *.
  set (s' := reconciled_service env command spec oid created) in *.
  set (b' := reconciled_bucket env command physical _ _ (buckets db !! id)) in *.
  assert (Hpend := fun i => finishes_pending self env o oid response row _ t' i Hok Hfin).
  destruct (Hpend (identity_of o)) as [Hpo _].
  destruct (si_claimed _ Hinv _ Hpo Ha) as (v0 & Hv0 & Hid0). simpl in Hv0, Hid0.
  rewrite <- Hn in Hv0. fold name in Hv0. fold id in Hid0.
  apply (service_inv_settle id db); [done| |].
  - constructor; simpl.
    + intros k Hk. by rewrite lookup_insert_ne.
    + intros k Hk. by rewrite lookup_insert_ne.
    + intros n v [Hv _]%lookup_delete_where. done.
    + intros n v Hv Hne. by apply (names_kept (fun n _ => negb (String.eqb n name))).
    + intros i. apply Hpend.
  - assert (Hlive : live_name (audit_db env audit (set_receipts t'
      (set_name_reservations (map_delete_where (fun n r => name_reserved_by id r
           && negb (String.eqb n name)) (name_reservations db))
      (set_buckets (<[id := b']> (buckets db))
      (set_services (<[id := s']> (services db)) db))))) name id).
    { exists s', b'. simpl. by rewrite !lookup_insert_eq. }
    constructor; simpl.
    + intros s. rewrite lookup_insert_eq. intros [= <-]. constructor; [done|done|done|by left|].
      exists (rec_spec command), b'. simpl. rewrite lookup_insert_eq. by repeat split.
    + intros b. rewrite lookup_insert_eq. intros [= <-]. constructor; [done|done|done|].
      exists s'. simpl. rewrite lookup_insert_eq. split; [done|]. unfold b', s'. simpl. fold o.
      destruct (buckets db !! id) as [b0|] eqn:Hb0; [|done].
      destruct (bo_scope _ _ _ (si_bucket _ Hinv _ _ Hb0)) as (s0 & Hs0 & Ho0 & Hp0).
      destruct (Hup s0 Hs0) as [Hupd _]. unfold service_updatable in Hupd. fold o in Hupd.
      rewrite !andb_true_iff, !N.eqb_eq in Hupd. destruct_and?. split; congruence.
    + intros b k b2. rewrite lookup_insert_eq. intros [= <-] Hk Hne.
      rewrite lookup_insert_ne in Hk by done. unfold bucket_name_taken in Hbn.
      rewrite map_existsb_false in Hbn. specialize (Hbn k b2 Hk). cbv beta in Hbn.
      rewrite (proj2 (N.eqb_neq k id)) in Hbn by done. by apply String.eqb_neq in Hbn.
    + intros n v Hv Hid. apply names_left in Hv as [_ Hf]; [|done].
      apply negb_false_iff, String.eqb_eq in Hf as ->. exact Hlive.
    + intros n (s & b & Hs & _ & Hb & <-). simpl in Hs, Hb. rewrite lookup_insert_eq in Hb.
      injection Hb as <-. exists v0. split; [|done]. simpl. apply lookup_delete_where.
      split; [done|]. unfold b'. simpl. fold name. by rewrite String.eqb_refl, andb_false_r.
Qed.

Lemma service_inv_delete env command oid response audit u db db' :
  receipts_ok (receipts db) -> service_inv db ->
  tx_result (complete_delete_tx self env command oid response audit) db = Ok (u, db') ->
  service_inv db'.
Proof.
  intros Hok Hinv Hrun.
  apply complete_delete_effect in Hrun as (row & t' & r & Hfin & Hr & _ & _ & Hd & Hck & _ & ->).
  set (o := del_operation command) in *. set (id := op_service_instance_id o) in *.
  assert (Hpend := fun i => finishes_pending self env o oid response row _ t' i Hok Hfin).
  apply (service_inv_settle id db); [done| |].
  - constructor; simpl.
    + intros k Hk. by rewrite lookup_insert_ne.
    + done.
    + intros n v [Hv _]%lookup_delete_where. done.
    + intros n v Hv Hne. apply lookup_delete_where. split; [done|]. by apply N.eqb_neq.
    + intros i. apply Hpend.
  - destruct (si_service _ Hinv _ _ Hr) as [Hid _ _ _ Hspec]. constructor; simpl.
    + intros s. rewrite lookup_insert_eq. intros [= <-]. constructor; [done|done|done|by right|done].
    + intros b Hb. destruct (si_bucket _ Hinv _ _ Hb) as [? ? ? (s0 & Hs0 & Hsc)].
      simplify_eq. constructor; [done..|]. eexists. simpl. by rewrite lookup_insert_eq.
    + intros b k b2 Hb Hb2 Hne Heq. apply Hne. by eapply (si_bucket_name _ Hinv k b2 id b).
    + intros n v [_ Hf]%lookup_delete_where Hv. by apply N.eqb_neq in Hf.
    + intros n (s & b & Hs & Hph & _). simpl in Hs. rewrite lookup_insert_eq in Hs.
      injection Hs as <-. done.
Qed.

Lemma service_inv_fail env o oid response audit u db db' :
  receipts_ok (receipts db) -> service_inv db ->
  tx_result (fail_operation_tx self env o oid response audit) db = Ok (u, db') ->
  service_inv db'.
Proof.
  intros Hok Hinv Hrun. apply fail_operation_effect in Hrun as (row & t' & Hfin & _ & ->).
  set (id := op_service_instance_id o).
  assert (Hpend := fun i => finishes_pending self env o oid response row _ t' i Hok Hfin).
  apply (service_inv_settle id db); [done| |].
  - constructor; simpl; [done|done| | |intros i; apply Hpend].
    + intros n v [Hv _]%lookup_delete_where. done.
    + intros n v Hv Hne. by apply names_kept.
  - constructor; simpl.
    + intros s Hs. destruct (si_service _ Hinv _ _ Hs). by constructor.
    + intros b Hb. destruct (si_bucket _ Hinv _ _ Hb). by constructor.
    + intros b k b2 Hb Hb2 Hne Heq. apply Hne. by eapply (si_bucket_name _ Hinv k b2 id b).
    + intros n v Hv Hid. apply (names_left (fun n _ => negb _)) in Hv as [Hv Hf]; [|done].
      destruct (si_reserved _ Hinv _ _ Hv) as [Hl|[Hnone _]]; [by rewrite Hid in Hl|].
      rewrite Hid in Hnone. fold id in Hf. destruct (buckets db !! id) as [b|] eqn:Hb; [|done].
      destruct (bo_scope _ _ _ (si_bucket _ Hinv _ _ Hb)) as (s & Hs & _). congruence.
    + intros n (s & b & Hs & Hph & Hb & Hname).
      destruct (si_live _ Hinv n id) as (v & Hv & Hid); [by exists s, b|].
      exists v. split; [|done]. apply lookup_delete_where. split; [done|]. fold id.
      simpl in Hb. by rewrite Hb, Hname, String.eqb_refl, andb_false_r.
Qed.

(** ** Usage *)

Lemma service_inv_usage env organization project id b n measured r db db' :
  service_inv db ->
  tx_result (record_usage_tx env organization project id b n measured) db = Ok (r, db') ->
  service_inv db'.
Proof.
  intros Hinv (Hr & _ & _ & Hck & t & ->)%record_usage_effect.
  set (r' := bucket_with_usage env b n measured r) in *.
  assert (Hfwd : forall k x, <[id := r']> (buckets db) !! k = Some x -> exists y,
    buckets db !! k = Some y /\ bkt_bucket_name x = bkt_bucket_name y).
  { intros k x [[<- <-]|[_ Hx]]%lookup_insert_Some; eauto. }
  assert (Hlive : forall m k, live_name (set_usage_snapshots t (set_buckets (<[id := r']> (buckets db)) db))
    m k <-> live_name db m k).
  { intros m k. unfold live_name. simpl. split; intros (s & x & Hs & Hp & Hx & <-).
    - destruct (Hfwd k x Hx) as (y & Hy & ->). by exists s, y.
    - destruct (decide (k = id)) as [->|Hne].
      + exists s, r'. rewrite lookup_insert_eq. by simplify_eq.
      + exists s, x. by rewrite lookup_insert_ne. }
  destruct Hinv as [Isv Ibk Ibn Irs Ilv Icl Ial Idl]. constructor; simpl; try done.
  - intros k s Hs. destruct (Isv k s Hs) as [? ? ? ? (spec & y & Hsp & Hy & Hmi)].
    constructor; [done..|]. destruct (decide (k = id)) as [->|Hne].
    + exists spec, r'. simpl. rewrite lookup_insert_eq. simplify_eq. destruct Hmi. by repeat split.
    + exists spec, y. simpl. by rewrite lookup_insert_ne.
  - intros k x [[<- <-]|[_ Hx]]%lookup_insert_Some.
    + destruct (Ibk id r Hr). by constructor.
    + destruct (Ibk k x Hx). by constructor.
  - intros k1 x1 k2 x2 (y1 & Hy1 & ->)%Hfwd (y2 & Hy2 & ->)%Hfwd. by eapply Ibn.
  - intros m v Hv. destruct (Irs m v Hv) as [Hl|Hc]; [left; by apply Hlive|by right].
  - intros m k Hl%Hlive. by apply Ilv.
Qed.

Lemma effect_service_inv env db db' :
  receipts_ok (receipts db) -> service_inv db ->
  store_effect self bucket_of env db db' -> service_inv db'.
Proof.
  intros Hok Hinv Heff. effect_cases Heff.
  - by eapply service_inv_begin_reconcile.
  - eapply service_inv_begin; [done|done|]. by apply begin_request_ok.
  - assert (Hreq : request_ok db (identity_of (cre_operation command))).
    { apply begin_request_ok; [by rewrite Ha|by eapply service_ready_alive|].
      unfold delete_generation_ok. by rewrite Ha. }
    destruct Hbg as [permissions db' Hnew ->|row c r Hto Hc Hop Hm].
    + eapply (service_inv_begin env (cre_operation command)); [done|by eapply creates_new_begins|done].
    + eapply (service_inv_begin env (cre_operation command)); [done|by apply begin_takeover|done].
  - by eapply service_inv_reconcile.
  - by eapply service_inv_delete.
  - apply complete_create_effect in Hr as (row & t' & r & Hfin & Hr). destruct_and?. subst.
    assert (Hpend := fun i => finishes_pending self env _ oid response row _ t' i Hok Hfin).
    apply (service_inv_end db) with (o := cre_operation command);
      [done..|by rewrite Ha|apply (proj1 (Hpend (identity_of (cre_operation command))))|apply Hpend].
  - apply complete_revoke_effect in Hr as (row & t' & c & Hfin & _ & _ & _ & ->).
    assert (Hpend := fun i => finishes_pending self env _ oid response row _ t' i Hok Hfin).
    apply (service_inv_end db) with (o := rev_operation command);
      [done..|by rewrite Ha|apply (proj1 (Hpend (identity_of (rev_operation command))))|apply Hpend].
  - apply renew_operation_tx_Ok in Hr as (row & Hrow & _ & _ & Hsp & ->).
    apply (service_inv_requests db); [done..| |].
    + intros i Hi. apply renew_pending in Hi; auto.
    + intros i Hi _. by apply renew_pending.
  - by eapply service_inv_fail.
  - by eapply service_inv_usage.
  - destruct Hinv as [Isv Ibk Ibn Irs Ilv Icl Ial Idl]. constructor; try done.
    + intros id s Hsp. destruct (Isv id s Hsp). by constructor.
    + intros id b Hbg. destruct (Ibk id b Hbg). by constructor.
Qed.

Lemma reachable_service_inv db : reachable self bucket_of db -> service_inv db.
Proof.
  apply (reachable_invariant self bucket_of); [apply service_inv_empty|].
  intros env db1 db2 Hr Hinv [->|Heff]%store_step_effect; [done|].
  eapply effect_service_inv; [|done|done]. by eapply reachable_receipts_ok.
Qed.
End service_inv.
