(* ===== verification/ServiceProps.v ===== *)
(** * Properties of service instances and buckets

    Consequences of the invariant of [ServiceInv] for the callers of the store:
    names are exclusive and never leaked, reads of a live service succeed,
    generations only grow and a deletion is final. *)

From stdpp Require Import relations.
From S2P Require Import Prelude RustStr Domain Auth Json StoreModels Cipher Tables Receipts ReceiptLemmas Store StoreEffects StoreStep Samples ReceiptProtocol ServiceInv.

Section properties.
Context `{SerdeJson} `{Aead}.
Context (self : PgStore).
Context (bucket_of : bytes -> string).

(** ** Histories of a service instance *)

(** What one step may do to a service row. *)
Record service_evolves (s s' : ServiceRow) : Prop := {
  sv_organization : svc_organization_id s' = svc_organization_id s;
  sv_project : svc_project_id s' = svc_project_id s;
  sv_created : svc_created_at s' = svc_created_at s;
  sv_generation : (svc_desired_generation s <= svc_desired_generation s')%Z;
  sv_deleted : svc_phase s = "deleted" -> s' = s;
}.

Lemma service_evolves_refl s : service_evolves s s.
Proof. constructor; done || lia. Qed.

Lemma evolves_insert (t : gmap Uuid ServiceRow) id s1 k s :
  (forall s0, t !! id = Some s0 -> service_evolves s0 s1) -> t !! k = Some s ->
  exists s', <[id := s1]> t !! k = Some s' /\ service_evolves s s'.
Proof.
  intros Hev Hk. destruct (decide (id = k)) as [->|Hne].
  - rewrite lookup_insert_eq. eauto.
  - rewrite lookup_insert_ne by done. eauto using service_evolves_refl.
Qed.

Lemma effect_service_evolves env db db' id s :
  receipts_ok (receipts db) -> service_inv bucket_of db ->
  store_effect self bucket_of env db db' -> services db !! id = Some s ->
  exists s', services db' !! id = Some s' /\ service_evolves s s'.
Proof.
  intros Hok Hinv Heff Hs.
  assert (Hsame : services db' = services db ->
    exists s', services db' !! id = Some s' /\ service_evolves s s').
  { intros ->. eauto using service_evolves_refl. }
  effect_cases Heff; try (by apply Hsame).
  - apply Hsame. by destruct Hbg as [? ? ? ->|].
  - apply complete_reconcile_effect in Hr as (row & t' & created & _ & _ & Hup & Hr).
    destruct_and?. subst. simpl. apply evolves_insert; [|done]. intros s0 Hs0.
    destruct (Hup s0 Hs0) as [Hu ->]. unfold service_updatable in Hu.
    rewrite !andb_true_iff, !N.eqb_eq, Z.leb_le, negb_true_iff, String.eqb_neq in Hu.
    destruct_and?. by constructor.
  - apply complete_delete_effect in Hr as (row & t' & r & Hfin & Hr & Ho & Hpr & Hd & _ & _ & ->).
    simpl. apply evolves_insert; [|done]. intros s0 Hs0. rewrite Hr in Hs0. injection Hs0 as <-.
    destruct (finishes_pending _ _ _ _ _ _ _ _ (identity_of (del_operation command)) Hok Hfin) as [Hpo _].
    destruct (si_delete _ _ Hinv _ Hpo Ha) as (s1 & Hs1 & Hgen). simpl in Hs1, Hgen.
    rewrite Hg in Hgen. injection Hgen as Hgen. rewrite Hr in Hs1. injection Hs1 as <-. constructor; simpl; done || lia.
  - apply Hsame. apply complete_create_effect in Hr as (row & t' & r & _ & Hr).
    destruct_and?. by subst.
  - apply Hsame. by apply complete_revoke_effect in Hr as (row & t' & c & _ & _ & _ & _ & ->).
  - apply Hsame. by apply renew_operation_tx_Ok in Hr as (row & _ & _ & _ & _ & ->).
  - apply Hsame. by apply fail_operation_effect in Hr as (row & t' & _ & _ & ->).
  - apply Hsame. by apply record_usage_effect in Hr as (_ & _ & _ & _ & t & ->).
Qed.

Lemma service_stable db db' id s :
  reachable self bucket_of db -> rtc (store_step self bucket_of) db db' ->
  services db !! id = Some s ->
  exists s', services db' !! id = Some s' /\ service_evolves s s'.
Proof.
  intros Hreach Hrtc. revert s Hreach.
  induction Hrtc as [|db1 db2 db3 [env Hst] Hrtc IH]; intros s Hreach Hs.
  { exists s. split; [done|]. by constructor. }
  assert (Hr2 : reachable self bucket_of db2) by (eapply rtc_r; [done|by exists env]).
  apply store_step_effect in Hst as [->|Heff]; [by apply IH|].
  destruct (effect_service_evolves env db1 db2 id s) as (s1 & Hs1 & Hev);
    [by eapply reachable_receipts_ok|by eapply reachable_service_inv|done|done|].
  destruct (IH s1 Hr2 Hs1) as (s' & Hs' & [Ho Hp Hc Hg Hd]). destruct Hev as [E1 E2 E3 E4 E5].
  exists s'. split; [done|]. constructor; [congruence..|lia|].
  intros Hdel. pose proof (E5 Hdel) as ->. by apply Hd.
Qed.

(** C20. Service rows are kept for ever: along any run a service instance stays
    in its organization and project, its generation never decreases, and a
    deleted instance is final: no later call changes its row at all. *)
Theorem service_history db db' id s :
  reachable self bucket_of db -> rtc (store_step self bucket_of) db db' ->
  services db !! id = Some s ->
  exists s', services db' !! id = Some s' /\
    svc_organization_id s' = svc_organization_id s /\ svc_project_id s' = svc_project_id s /\
    svc_created_at s' = svc_created_at s /\
    (svc_desired_generation s <= svc_desired_generation s')%Z /\
    (svc_phase s = "deleted" -> s' = s).
Proof.
  intros Hreach Hrtc Hs. destruct (service_stable db db' id s) as (s' & Hs' & []); [done..|].
  by exists s'.
Qed.

(** ** Names *)

(** A bucket name belongs to one service instance: a ready service holds
    the reservation of its bucket's name, and no other service instance, not
    even a deleted one, has a bucket of that name. *)
Theorem bucket_name_exclusive db id s b :
  reachable self bucket_of db -> services db !! id = Some s -> svc_phase s = "ready" ->
  buckets db !! id = Some b ->
  (exists v, name_reservations db !! bkt_bucket_name b = Some v /\ nam_service_instance_id v = id) /\
  (forall id' b', buckets db !! id' = Some b' -> bkt_bucket_name b' = bkt_bucket_name b -> id' = id).
Proof.
  intros Hinv%reachable_service_inv Hs Hr Hb. split.
  - apply (si_live _ _ Hinv). by exists s, b.
  - intros id' b' Hb' Heq. by eapply (si_bucket_name _ _ Hinv id' b' id b).
Qed.

(** C21. Names are never leaked: every reservation is either the name of the
    bucket of a ready service or held by a creation that is still in progress,
    so a failed creation gives its name back. *)
Theorem name_reservations_accounted db n v :
  reachable self bucket_of db -> name_reservations db !! n = Some v ->
  (exists s b, services db !! nam_service_instance_id v = Some s /\ svc_phase s = "ready" /\
     buckets db !! nam_service_instance_id v = Some b /\ bkt_bucket_name b = n) \/
  (services db !! nam_service_instance_id v = None /\
   exists k r, receipts db !! k = Some r /\ rcp_state r = in_progress /\
     rcp_service_instance_id r = nam_service_instance_id v /\
     rcp_action r = PROVIDER_RECONCILE_ACTION).
Proof.
  intros Hinv%reachable_service_inv Hv. destruct (si_reserved _ _ Hinv n v Hv) as [Hl|Hc]; [by left|].
  right. destruct Hc as (Hn & i & (k & r & Hr & Hs & <-) & Ha & Hid & _). split; [done|].
  by exists k, r.
Qed.

(** ** Reads *)

Lemma from_i64_nonneg v f : (0 <= v)%Z -> from_i64 v f = Ok v.
Proof.
  intros Hv. unfold from_i64, u64_try_from_i64. by rewrite (proj2 (Z.leb_le _ _) Hv).
Qed.

Lemma bucket_record_total b :
  bucket_checks b = true -> exists r, BucketRow_try_into_record b = Ok r /\ shows_bucket b r.
Proof.
  unfold bucket_checks. rewrite !andb_true_iff, !Z.ltb_lt, !Z.leb_le. intros Hck. destruct_and?.
  unfold BucketRow_try_into_record. rewrite !from_i64_nonneg by lia. eexists. split; [done|].
  by constructor.
Qed.

Lemma fetch_bucket_total id b db :
  buckets db !! id = Some b -> bucket_checks b = true ->
  exists r, tx_result (fetch_bucket_row id) db = Ok (Some r, db) /\ shows_bucket b r.
Proof.
  intros Hb Hck. destruct (bucket_record_total b Hck) as (r & Hr & Hsh). exists r.
  split; [|done]. unfold fetch_bucket_row. rewrite tx_result_bind.
  change (tx_result (gets _) db) with (@Ok StoreError _ (buckets db !! id, db)).
  rewrite Hb. cbv iota beta. by rewrite tx_result_bind, Hr.
Qed.

Definition visible (s : ServiceRow) (organization project : Uuid) : bool :=
  N.eqb (svc_organization_id s) organization && N.eqb (svc_project_id s) project
  && negb (String.eqb (svc_phase s) "deleted").

Lemma tx_fetch_service id db :
  tx_result (fetch_service_row id false) db = Ok (services db !! id, db).
Proof. done. Qed.

Lemma overview_service_run organization project id db :
  tx_result (overview_service organization project id) db =
  match services db !! id with
  | Some s => if visible s organization project then Ok (s, db) else Err NotFound
  | None => Err NotFound
  end.
Proof.
  unfold overview_service. rewrite tx_result_bind, tx_fetch_service.
  destruct (services db !! id) as [s|]; [|done]. rewrite tx_result_bind. cbn. unfold visible.
  by destruct (N.eqb _ organization), (N.eqb _ project), (String.eqb _ _).
Qed.

Lemma overview_record_run id s b spec db :
  buckets db !! id = Some b -> bucket_checks b = true ->
  spec_from_value (svc_desired_spec s) = Some spec ->
  exists r, tx_result (overview_record id s) db = Ok (
    {| sr_id := svc_id s; sr_organization_id := svc_organization_id s;
       sr_project_id := svc_project_id s; sr_name := svc_name s;
       sr_desired_generation := svc_desired_generation s;
       sr_observed_generation := svc_observed_generation s; sr_phase := svc_phase s;
       sr_operation_id := svc_current_operation_id s; sr_spec := spec; sr_bucket := r |}, db) /\
    shows_bucket b r.
Proof.
  intros Hb Hck Hsp. destruct (fetch_bucket_total id b db Hb Hck) as (r & Hr & Hsh).
  exists r. split; [|done]. unfold overview_record.
  rewrite tx_result_bind, Hr, tx_result_bind. unfold ServiceRow_try_into_record. by rewrite Hsp.
Qed.

(** ** Bucket rows are for ever *)

Lemma effect_bucket_name env db db' id b :
  receipts_ok (receipts db) -> service_inv bucket_of db ->
  store_effect self bucket_of env db db' -> buckets db !! id = Some b ->
  exists b', buckets db' !! id = Some b' /\ bkt_bucket_name b' = bkt_bucket_name b.
Proof.
  intros Hok Hinv Heff Hb.
  assert (Hsame : buckets db' = buckets db ->
    exists b', buckets db' !! id = Some b' /\ bkt_bucket_name b' = bkt_bucket_name b).
  { intros ->. eauto. }
  effect_cases Heff; try (by apply Hsame).
  - apply Hsame. by destruct Hbg as [? ? ? ->|].
  - destruct Hcok as [Ha Hn].
    apply complete_reconcile_effect in Hr as (row & t' & created & Hfin & Hr). destruct_and?.
    subst. simpl. set (o := rec_operation command) in *.
    destruct (finishes_pending _ _ _ _ _ _ _ _ (identity_of o) Hok Hfin) as [Hpo _].
    destruct (si_claimed _ _ Hinv _ Hpo Ha) as (v & Hv & Hid). simpl in Hv, Hid.
    destruct (decide (id = op_service_instance_id o)) as [->|Hne].
    + rewrite lookup_insert_eq. eexists. split; [done|]. simpl. rewrite Hn. fold o.
      destruct (si_reserved _ _ Hinv _ _ Hv) as [(s & b0 & _ & _ & Hb0 & <-)|[Hnone _]];
        rewrite Hid in *; [congruence|].
      destruct (bo_scope _ _ _ (si_bucket _ _ Hinv _ _ Hb)) as (s & Hs & _). congruence.
    + rewrite lookup_insert_ne by done. eauto.
  - apply Hsame. by apply complete_delete_effect in Hr as (row & t' & r & _ & _ & _ & _ & _ & _ & _ & ->).
  - apply Hsame. apply complete_create_effect in Hr as (row & t' & r & _ & Hr).
    destruct_and?. by subst.
  - apply Hsame. by apply complete_revoke_effect in Hr as (row & t' & c & _ & _ & _ & _ & ->).
  - apply Hsame. by apply renew_operation_tx_Ok in Hr as (row & _ & _ & _ & _ & ->).
  - apply Hsame. by apply fail_operation_effect in Hr as (row & t' & _ & _ & ->).
  - apply record_usage_effect in Hr as (Hr & _ & _ & _ & t & ->). simpl.
    destruct (decide (id = sid)) as [->|Hne].
    + rewrite lookup_insert_eq. simplify_eq. eauto.
    + rewrite lookup_insert_ne by done. eauto.
Qed.

Lemma bucket_name_stable db db' id b :
  reachable self bucket_of db -> rtc (store_step self bucket_of) db db' ->
  buckets db !! id = Some b ->
  exists b', buckets db' !! id = Some b' /\ bkt_bucket_name b' = bkt_bucket_name b.
Proof.
  intros Hreach Hrtc. revert b Hreach.
  induction Hrtc as [|db1 db2 db3 [env Hst] Hrtc IH]; intros b Hreach Hb; [by eauto|].
  assert (Hr2 : reachable self bucket_of db2) by (eapply rtc_r; [done|by exists env]).
  apply store_step_effect in Hst as [->|Heff]; [by apply IH|].
  destruct (effect_bucket_name env db1 db2 id b) as (b1 & Hb1 & Hn1);
    [by eapply reachable_receipts_ok|by eapply reachable_service_inv|done|done|].
  destruct (IH b1 Hr2 Hb1) as (b' & Hb' & Hn'). exists b'. split; congruence.
Qed.

(** C24. An overview never finds corrupt data, although its two statements take
    no lock and other transactions may commit between them ([db] is what the
    first one sees, [db'] what the second one sees).  For a live service in the
    requested scope it returns the service as the first statement saw it, with
    the bucket as the second one saw it; that bucket always has the name the
    specification asks for, and also its region and quotas unless the service
    was given another specification in between.  In every other case the answer
    is [NotFound]. *)
Theorem service_overview_total `{!SerdeJsonLaws} db db' organization project id :
  reachable self bucket_of db -> rtc (store_step self bucket_of) db db' ->
  match services db !! id with
  | Some s =>
      if visible s organization project
      then exists record s' b', service_overview organization project id db db' = Ok record /\
        sr_id record = id /\ sr_organization_id record = organization /\
        sr_project_id record = project /\ sr_name record = svc_name s /\
        sr_phase record = "ready" /\
        sr_desired_generation record = svc_desired_generation s /\
        sr_observed_generation record = svc_desired_generation s /\
        spec_to_value (sr_spec record) = Some (svc_desired_spec s) /\
        services db' !! id = Some s' /\ buckets db' !! id = Some b' /\
        shows_bucket b' (sr_bucket record) /\
        br_bucket_name (sr_bucket record) = spec_bucket_name (sr_spec record) /\
        (svc_desired_spec s' = svc_desired_spec s ->
         br_region (sr_bucket record) = spec_region (sr_spec record) /\
         br_quota_bytes (sr_bucket record) = spec_quota_bytes (sr_spec record) /\
         br_quota_objects (sr_bucket record) = spec_quota_objects (sr_spec record))
      else service_overview organization project id db db' = Err NotFound
  | None => service_overview organization project id db db' = Err NotFound
  end.
Proof.
  intros Hreach Hrtc. unfold service_overview. rewrite overview_service_run.
  destruct (services db !! id) as [s|] eqn:Hs; [|done].
  destruct (visible s organization project) eqn:Hv; [|done]. cbn [mbind result_bind fst].
  pose proof (reachable_service_inv _ _ _ Hreach) as Hinv.
  assert (Hinv' : service_inv bucket_of db').
  { apply (reachable_service_inv self). unfold reachable in *. by etransitivity. }
  destruct (si_service _ _ Hinv _ _ Hs) as [Hid _ Hob Hph (spec & b & Hsp & Hb & Hmi)].
  destruct (bucket_name_stable db db' id b) as (b' & Hb' & Hn'); [done..|].
  destruct (bo_scope _ _ _ (si_bucket _ _ Hinv' _ _ Hb')) as (s' & Hs' & _).
  destruct (overview_record_run id s b' spec db') as (r & Hr & Hsh);
    [done|apply (si_bucket _ _ Hinv' _ _ Hb')|by apply spec_from_to_value|].
  rewrite Hr. eexists _, s', b'. split; [done|]. simpl. unfold visible in Hv.
  rewrite !andb_true_iff, negb_true_iff, String.eqb_neq, !N.eqb_eq in Hv. destruct Hv as [[Ho Hp] Hd].
  destruct Hph as [Hph|]; [|done]. pose proof (sb_name _ _ Hsh) as Hsn.
  pose proof (mi_name _ _ Hmi) as Hmn. split_and!; try done; [congruence|].
  intros Heq. destruct (si_service _ _ Hinv' _ _ Hs') as [_ _ _ _ (spec' & b2 & Hsp' & Hb2 & Hmi')].
  rewrite Heq in Hsp'. apply spec_from_to_value in Hsp, Hsp'. simplify_eq.
  destruct Hsh, Hmi'. split_and!; congruence.
Qed.

(** C26. A bucket name is bound to its service instance for ever: bucket rows
    are never removed and never renamed, and no other service instance can
    complete a reconciliation under that name in any later state, even after
    the owner was deleted and the name's reservation released. *)
Theorem bucket_name_bound_forever db db' id b fault env command oid physical response audit :
  reachable self bucket_of db -> rtc (store_step self bucket_of) db db' ->
  buckets db !! id = Some b ->
  (exists b', buckets db' !! id = Some b' /\ bkt_bucket_name b' = bkt_bucket_name b) /\
  (op_service_instance_id (rec_operation command) <> id ->
   spec_bucket_name (rec_spec command) = bkt_bucket_name b ->
   exists e, complete_reconcile self fault env command oid physical response audit db'
             = (Err e, db')).
Proof.
  intros Hreach Hrtc Hb. destruct (bucket_name_stable db db' id b) as (b' & Hb' & Hn'); [done..|].
  split; [by exists b'|]. intros Hne Hname. unfold complete_reconcile.
  destruct (if _ : bool then _ else _) as [[[spec qb] qo]|e]; [|by eexists]. unfold transaction.
  destruct (tx_result _ db') as [[u d]|e] eqn:Hr; [exfalso|destruct fault; by eexists].
  apply complete_reconcile_effect in Hr as (row & t' & created & _ & _ & _ & _ & _ & Hbn & _).
  unfold bucket_name_taken in Hbn. rewrite map_existsb_false in Hbn. specialize (Hbn id b' Hb').
  cbv beta in Hbn. rewrite (proj2 (N.eqb_neq _ _)) in Hbn by done.
  apply String.eqb_neq in Hbn. congruence.
Qed.
End properties.

#[local] Existing Instance sample_json.
#[local] Existing Instance sample_aead.

Lemma service_history_witness :
  exists s', services db_deleted !! 3%N = Some s' /\ (1 <= svc_desired_generation s')%Z.
Proof.
  destruct (services db_ready !! 3%N) as [s|] eqn:Hs; [|vm_compute in Hs; discriminate Hs].
  destruct (service_history sample_store sample_bucket_of db_ready db_deleted 3 s)
    as (s' & Hs' & _ & _ & _ & Hg & _).
  - apply db_ready_reachable.
  - apply db_ready_to_deleted.
  - exact Hs.
  - exists s'. split; [exact Hs'|]. vm_compute in Hs. injection Hs as <-. exact Hg.
Defined.

Lemma bucket_name_exclusive_witness :
  exists v, name_reservations db_ready !! "abc" = Some v /\ nam_service_instance_id v = 3%N.
Proof.
  destruct (services db_ready !! 3%N) as [s|] eqn:Hs; [|vm_compute in Hs; discriminate Hs].
  destruct (buckets db_ready !! 3%N) as [b|] eqn:Hb; [|vm_compute in Hb; discriminate Hb].
  assert (Hn : bkt_bucket_name b = "abc") by (vm_compute in Hb; injection Hb as <-; reflexivity).
  rewrite <- Hn.
  apply (bucket_name_exclusive sample_store sample_bucket_of db_ready 3 s b db_ready_reachable Hs).
  - vm_compute in Hs. injection Hs as <-. reflexivity.
  - exact Hb.
Defined.

Lemma name_reservations_accounted_witness :
  exists k r, receipts db_prepared !! k = Some r /\ rcp_state r = in_progress /\
    rcp_service_instance_id r = 3%N /\ rcp_action r = PROVIDER_RECONCILE_ACTION.
Proof.
  destruct (name_reservations db_prepared !! "abc") as [v|] eqn:Hv;
    [|vm_compute in Hv; discriminate Hv].
  assert (Hid : nam_service_instance_id v = 3%N)
    by (vm_compute in Hv; injection Hv as <-; reflexivity).
  destruct (name_reservations_accounted sample_store sample_bucket_of db_prepared "abc" v
              db_prepared_reachable Hv) as [(s & b & Hs & _)|(_ & k & r & Hr & Hst & Hsv & Ha)].
  - rewrite Hid in Hs. vm_compute in Hs. discriminate Hs.
  - exists k, r. rewrite <- Hid. auto.
Defined.

(** The next generation of the sample service, with other quotas. *)
Definition requota_command : ReconcileCommand := {|
  rec_operation := sample_operation 21 PROVIDER_RECONCILE_ACTION (Some 2%Z);
  rec_name := "svc"; rec_generation := 2;
  rec_spec := {| spec_region := "r"; spec_bucket_name := "abc"; spec_quota_bytes := 20;
                 spec_quota_objects := 5 |} |}.

Definition db_requota : Db :=
  (complete_reconcile sample_store NoFault (sample_env 8 7) requota_command 107 "phys"
     sample_response sample_audit
     (prepare_reconcile sample_store NoFault (sample_env 7 6) requota_command db_ready).2).2.

Lemma db_ready_to_requota : rtc (store_step sample_store sample_bucket_of) db_ready db_requota.
Proof.
  eapply rtc_l.
  { exists (sample_env 7 6). eapply (step_prepare_reconcile _ _ _ _ NoFault requota_command);
      [by split|apply surjective_pairing]. }
  eapply rtc_once. exists (sample_env 8 7).
  eapply (step_complete_reconcile _ _ _ _ NoFault requota_command);
    [by split| |apply surjective_pairing]. reflexivity.
Qed.

Lemma service_overview_total_witness :
  exists record, service_overview 1 2 3 db_ready db_requota = Ok record /\
    br_bucket_name (sr_bucket record) = spec_bucket_name (sr_spec record).
Proof.
  pose proof (@service_overview_total sample_json sample_aead sample_store sample_bucket_of
                sample_json_laws db_ready db_requota 1 2 3 db_ready_reachable db_ready_to_requota) as Ht.
  destruct (services db_ready !! 3%N) as [s|] eqn:Hs; [|vm_compute in Hs; discriminate Hs].
  replace (visible s 1 2) with true in Ht by (vm_compute in Hs; injection Hs as <-; reflexivity).
  destruct Ht as (record & s' & b' & Hr & Ht). exists record. split; [exact Hr|]. apply Ht.
Defined.

(** A reconciliation that commits between the two statements leaves its mark: the
    overview shows the quota of generation 1 in the specification and that of
    generation 2 in the bucket. *)
Example overview_torn :
  match service_overview 1 2 3 db_ready db_requota with
  | Ok record => Some (sr_desired_generation record, spec_quota_bytes (sr_spec record),
                       br_quota_bytes (sr_bucket record))
  | Err _ => None
  end = Some (1, 10, 20)%Z.
Proof. vm_compute. reflexivity. Qed.

(** A second service that asks for the name of the deleted one. *)
Definition reuse_command : ReconcileCommand := {|
  rec_operation := {|
    op_idempotency_key := 20; op_organization_id := 1; op_project_id := 2;
    op_service_instance_id := 4; op_principal_id := 9; op_action := PROVIDER_RECONCILE_ACTION;
    op_generation := Some 1%Z; op_request_hash := replicate 32 nul |};
  rec_name := "new"; rec_generation := 1; rec_spec := sample_bucket_spec |}.

Lemma bucket_name_bound_forever_witness :
  exists e, complete_reconcile sample_store NoFault (sample_env 8 7) reuse_command 107 "other"
    sample_response sample_audit db_deleted = (Err e, db_deleted).
Proof.
  destruct (buckets db_ready !! 3%N) as [b|] eqn:Hb; [|vm_compute in Hb; discriminate Hb].
  apply (bucket_name_bound_forever sample_store sample_bucket_of db_ready db_deleted 3 b).
  - apply db_ready_reachable.
  - apply db_ready_to_deleted.
  - exact Hb.
  - discriminate.
  - vm_compute in Hb. injection Hb as <-. reflexivity.
Defined.

(** The preparation of that second service is granted, so its Garage bucket is
    created, and then its completion is refused: the operation stays in
    progress. *)
Example deleted_name_reuse_stuck :
  let prepared := prepare_reconcile sample_store NoFault (sample_env 7 6) reuse_command db_deleted in
  let completed := complete_reconcile sample_store NoFault (sample_env 8 7) reuse_command 107 "other"
    sample_response sample_audit prepared.2 in
  match prepared.1 with Ok (Execute oid _) => Some oid | _ => None end = Some 107%N /\
  completed.1 = Err (Conflict "resource already exists") /\
  rcp_state <$> receipts completed.2 !! 20%N = Some in_progress.
Proof. vm_compute. auto. Qed.
