(* ===== verification/CredentialInv.v ===== *)
(** * The credential side of the tables

    The invariant of credentials and credential reservations: every reservation
    is owned by a creation in progress on a ready service, active credentials
    belong to ready services, and the limits per bucket and per organization
    count both. *)

From stdpp Require Import relations.
From S2P Require Import Prelude RustStr Domain Auth Json StoreModels Cipher Tables Receipts ReceiptLemmas Store StoreEffects StoreStep Samples ReceiptProtocol ServiceInv.

(** The receipt that owns a reservation. *)
Definition owns (r : ReceiptRow) (v : CredentialReservationRow) : Prop :=
  rcp_state r = in_progress /\ rcp_operation_id r = crr_operation_id v /\
  rcp_action r = CREDENTIAL_CREATE_ACTION /\
  rcp_service_instance_id r = crr_service_instance_id v /\
  rcp_organization_id r = crr_organization_id v /\ rcp_project_id r = crr_project_id v.

Definition owned (t : gmap Uuid ReceiptRow) (v : CredentialReservationRow) : Prop :=
  exists k r, t !! k = Some r /\ owns r v.

(** The service row a credential or a reservation refers to. *)
Definition in_service (db : Db) (service organization project : Uuid) (ready : bool) : Prop :=
  exists s, services db !! service = Some s /\ svc_organization_id s = organization /\
    svc_project_id s = project /\ (ready = true -> svc_phase s = "ready").

Definition activeb (r : CredentialRow) : bool := String.eqb (crd_status r) "active".

Section credential_inv.
Context `{SerdeJson} `{Aead}.
Context (self : PgStore).
Context (bucket_of : bytes -> string).

Record credential_ok (db : Db) (c : Uuid) (r : CredentialRow) : Prop := {
  co_id : crd_id r = c;
  co_checks : credential_checks r = true;
  co_service : in_service db (crd_service_instance_id r) (crd_organization_id r)
    (crd_project_id r) (activeb r);
}.

Record reservation_ok (db : Db) (c : Uuid) (v : CredentialReservationRow) : Prop := {
  vo_id : crr_credential_id v = c;
  vo_owned : owned (receipts db) v;
  vo_service : in_service db (crr_service_instance_id v) (crr_organization_id v)
    (crr_project_id v) true;
}.

Record within_limits (db : Db) : Prop := {
  wl_bucket service :
    (Z.of_nat (per_bucket_count service db) <= max_credentials_per_bucket (credential_limits self))%Z;
  wl_organization organization :
    (Z.of_nat (total_count organization db) <= max_total_credentials (credential_limits self))%Z;
}.

Record credential_inv (db : Db) : Prop := {
  ci_credential c r : credentials db !! c = Some r -> credential_ok db c r;
  ci_keys c1 r1 c2 r2 : credentials db !! c1 = Some r1 -> credentials db !! c2 = Some r2 ->
    crd_garage_key_id r1 = crd_garage_key_id r2 \/ crd_access_key_id r1 = crd_access_key_id r2 \/
    (crd_service_instance_id r1 = crd_service_instance_id r2 /\ crd_name r1 = crd_name r2) ->
    c1 = c2;
  ci_reservation c v : credential_reservations db !! c = Some v -> reservation_ok db c v;
  ci_operation c1 v1 c2 v2 : credential_reservations db !! c1 = Some v1 ->
    credential_reservations db !! c2 = Some v2 ->
    crr_operation_id v1 = crr_operation_id v2 -> c1 = c2;
  ci_limits : within_limits db;
}.

(** ** Counting *)

(** Fewer or equally many rows on both tables. *)
Record counts_le (db db' : Db) : Prop := {
  cl_active service : map_countb (active_in service) (credentials db') <=
    map_countb (active_in service) (credentials db);
  cl_active_org organization : map_countb (active_in_organization organization) (credentials db') <=
    map_countb (active_in_organization organization) (credentials db);
  cl_reserved service : map_countb (reserved_in service) (credential_reservations db') <=
    map_countb (reserved_in service) (credential_reservations db);
  cl_reserved_org organization :
    map_countb (reserved_in_organization organization) (credential_reservations db') <=
    map_countb (reserved_in_organization organization) (credential_reservations db);
}.

Lemma within_limits_le db db' : counts_le db db' -> within_limits db -> within_limits db'.
Proof.
  intros [C1 C2 C3 C4] [L1 L2]. constructor; unfold per_bucket_count, total_count in *.
  - intros service. specialize (C1 service). specialize (C3 service). specialize (L1 service). lia.
  - intros org. specialize (C2 org). specialize (C4 org). specialize (L2 org). lia.
Qed.

Lemma count_moved (f : CredentialReservationRow -> bool) old new t :
  (forall v, f (reservation_with_operation new v) = f v) ->
  map_countb f (move_reservations old new t) <= map_countb f t.
Proof.
  intros Hf. apply map_countb_fmap_le. intros k v _. case_match; [by rewrite Hf|done].
Qed.

Lemma count_revoked (f : CredentialRow -> bool) env service by_ t :
  (forall v, f (revoked_row (env_now env) by_ v) = true -> f v = true) ->
  map_countb f (revoke_all env service by_ t) <= map_countb f t.
Proof. intros Hf. apply map_countb_fmap_le. intros k v _. case_match; [apply Hf|done]. Qed.

Lemma count_revoke_one (f : CredentialRow -> bool) now by_ (t : gmap Uuid CredentialRow) c r :
  (forall v, f (revoked_row now by_ v) = false) -> t !! c = Some r ->
  map_countb f (<[c := revoked_row now by_ r]> t) <= map_countb f t.
Proof.
  intros Hf Hr. pose proof (map_countb_insert_Some f t c (revoked_row now by_ r) r Hr) as Hc.
  rewrite Hf in Hc. simpl in Hc. lia.
Qed.

(** ** Owners *)

Lemma owned_same_row t k r r' v :
  t !! k = Some r -> rcp_state r' = in_progress -> rcp_operation_id r' = rcp_operation_id r ->
  row_identity r' = row_identity r -> owned t v -> owned (<[k := r']> t) v.
Proof.
  intros Hr Hs Ho Hid (k1 & r1 & H1 & Hown). destruct (decide (k1 = k)) as [->|Hne].
  - rewrite Hr in H1. injection H1 as <-. exists k, r'. rewrite lookup_insert_eq. split; [done|].
    destruct Hown as (_ & ? & ? & ? & ? & ?). injection Hid as ? ? ? ? ? ? ?.
    repeat split; congruence.
  - exists k1, r1. by rewrite lookup_insert_ne.
Qed.

Lemma owned_finish env o oid response row t t' v :
  finishes self env o oid response row t t' ->
  crr_operation_id v <> oid \/ op_action o <> CREDENTIAL_CREATE_ACTION ->
  owned t v -> owned t' v.
Proof.
  intros (Hrow & Hm & Ho & Hs & p & n & c & _ & _ & _ & ->) Hne (k & r & Hr & Hown).
  exists k, r. split; [|done]. rewrite lookup_insert_ne; [done|]. intros <-. simplify_eq.
  destruct Hown as (_ & Hop & Hact & _). apply ReceiptRow_matches_spec in Hm. destruct_and?.
  destruct Hne as [Hne|Hne]; congruence.
Qed.

(** The reservations after an operation began: still one owner each. *)
Lemma moved_cases old new t c v :
  move_reservations old new t !! c = Some v ->
  exists v0, t !! c = Some v0 /\
    ((crr_operation_id v0 = old /\ v = reservation_with_operation new v0) \/
     (crr_operation_id v0 <> old /\ v = v0)).
Proof.
  unfold move_reservations. rewrite lookup_update_where, fmap_Some.
  intros (v0 & Hv0 & ->). exists v0. split; [done|]. unfold has_operation.
  destruct (N.eqb_spec (crr_operation_id v0) old); auto.
Qed.

Lemma begins_reservations env o db t cr c v :
  receipts_ok (receipts db) -> credential_inv db -> begins env o db t cr ->
  cr !! c = Some v ->
  exists v0, credential_reservations db !! c = Some v0 /\ crr_credential_id v = crr_credential_id v0 /\
    crr_service_instance_id v = crr_service_instance_id v0 /\
    crr_organization_id v = crr_organization_id v0 /\ crr_project_id v = crr_project_id v0 /\
    owned t v.
Proof.
  intros Hok Hinv [Hnone Hck Hf|row Hto] Hv.
  - exists v. repeat split; try done.
    destruct (vo_owned _ _ _ (ci_reservation _ Hinv _ _ Hv)) as (k & r & Hr & Hown).
    exists k, r. rewrite lookup_insert_ne; [done|congruence].
  - destruct Hto as [Hrow Hm Hs _ _ _ _].
    apply moved_cases in Hv as (v0 & Hv0 & Hcase). exists v0.
    destruct (vo_owned _ _ _ (ci_reservation _ Hinv _ _ Hv0)) as (k & r & Hr & Hown).
    destruct Hcase as [[Hop ->]|[Hop ->]]; repeat split; try done.
    + assert (k = op_idempotency_key o) as ->.
      { eapply (ro_operation _ Hok k r _ row); [done|done|]. destruct Hown. destruct_and?. congruence. }
      rewrite Hrow in Hr. injection Hr as <-. eexists _, (claimed_row env row).
      rewrite lookup_insert_eq. split; [done|]. unfold owns in *. simpl. by destruct_and?.
    + exists k, r. rewrite lookup_insert_ne; [done|]. intros <-. simplify_eq.
      unfold owns in Hown. destruct_and?. congruence.
Qed.

(** Moving the reservations of a receipt to a fresh identifier keeps one
    reservation per identifier. *)
Lemma moved_operation db key oid row c1 v1 c2 v2 :
  credential_inv db -> receipts db !! key = Some row ->
  operation_id_taken key oid (receipts db) = false ->
  move_reservations (rcp_operation_id row) oid (credential_reservations db) !! c1 = Some v1 ->
  move_reservations (rcp_operation_id row) oid (credential_reservations db) !! c2 = Some v2 ->
  crr_operation_id v1 = crr_operation_id v2 -> c1 = c2.
Proof.
  intros Hinv Hrow Hfresh H1 H2 Heq. rewrite operation_id_taken_false in Hfresh.
  (* a reservation that already carries the new identifier was the receipt's own *)
  assert (Hown : forall c v, credential_reservations db !! c = Some v ->
    crr_operation_id v = oid -> rcp_operation_id row = crr_operation_id v).
  { intros c v Hv Hop.
    destruct (vo_owned _ _ _ (ci_reservation _ Hinv _ _ Hv)) as (k & r & Hr & _ & Ho & _).
    rewrite <- Ho in Hop. pose proof (Hfresh k r Hr Hop) as ->. congruence. }
  apply moved_cases in H1 as (w1 & Hw1 & [[Ho1 ->]|[Ho1 ->]]);
    apply moved_cases in H2 as (w2 & Hw2 & [[Ho2 ->]|[Ho2 ->]]); simpl in Heq.
  - apply (ci_operation _ Hinv c1 w1 c2 w2); congruence.
  - symmetry in Heq. apply (Hown c2 w2 Hw2) in Heq. congruence.
  - apply (Hown c1 w1 Hw1) in Heq. congruence.
  - by apply (ci_operation _ Hinv c1 w1 c2 w2).
Qed.

Lemma begins_operation env o db t cr c1 v1 c2 v2 :
  credential_inv db -> begins env o db t cr ->
  cr !! c1 = Some v1 -> cr !! c2 = Some v2 -> crr_operation_id v1 = crr_operation_id v2 -> c1 = c2.
Proof.
  intros Hinv [Hnone Hck Hf|row [Hrow _ _ _ _ Hfresh _]];
    [by apply (ci_operation _ Hinv)|by eapply moved_operation].
Qed.

(** ** Preservation *)

Lemma credential_ok_same db db' c r :
  services db' = services db -> credential_ok db c r -> credential_ok db' c r.
Proof. intros Hs [? ? Hsv]. constructor; [done..|]. unfold in_service in *. by rewrite Hs. Qed.

Lemma in_service_same db db' service organization project ready :
  services db' = services db -> in_service db service organization project ready ->
  in_service db' service organization project ready.
Proof. unfold in_service. by intros ->. Qed.

(** Credentials, reservations and services are untouched; the owners remain. *)
Lemma credential_inv_receipts db db' :
  services db' = services db -> credentials db' = credentials db ->
  credential_reservations db' = credential_reservations db ->
  (forall v, owned (receipts db) v -> owned (receipts db') v) ->
  credential_inv db -> credential_inv db'.
Proof.
  intros Hs Hc Hv Hown [Ic Ik Iv Io Il]. constructor; rewrite ?Hc, ?Hv; try done.
  - intros c r Hr. by apply (credential_ok_same db), Ic.
  - intros c v Hr. destruct (Iv c v Hr). constructor; [done|auto|]. by eapply in_service_same.
  - apply (within_limits_le db); [|done]. constructor; by rewrite ?Hc, ?Hv.
Qed.

Lemma credential_inv_begin env o db t cr db' :
  receipts_ok (receipts db) -> credential_inv db -> begins env o db t cr ->
  services db' = services db -> credentials db' = credentials db -> receipts db' = t ->
  credential_reservations db' = cr -> credential_inv db'.
Proof.
  intros Hok Hinv Hb Hs Hc Ht Hcr. pose proof Hinv as [Ic Ik Iv Io Il].
  constructor; rewrite ?Hc, ?Hcr; try done.
  - intros c r Hr. by apply (credential_ok_same db), Ic.
  - intros c v Hv. destruct (begins_reservations _ _ _ _ _ _ _ Hok Hinv Hb Hv)
      as (v0 & Hv0 & E1 & E2 & E3 & E4 & Hown).
    destruct (Iv c v0 Hv0) as [Hid _ Hsv]. constructor; [congruence|by rewrite Ht|].
    rewrite E2, E3, E4. by eapply in_service_same.
  - intros c1 v1 c2 v2. by eapply begins_operation.
  - apply (within_limits_le db); [|done].
    destruct Hb as [_ _ _|row Hto]; constructor; intros; rewrite ?Hc, ?Hcr; try done;
      by apply count_moved.
Qed.

Lemma active_reserved_counts db command env permissions :
  creates_new self env command db permissions ->
  within_limits db -> within_limits (create_db env command permissions db).
Proof.
  intros [_ _ _ _ _ Hid _ _ Hbl Hol] [L1 L2]. constructor; unfold per_bucket_count, total_count in *;
    simpl; intros x; rewrite map_countb_insert_None by done; unfold reserved_in,
    reserved_in_organization; simpl.
  - specialize (L1 x). unfold bucket_limit, per_bucket_count, reserved_in in *.
    destruct (N.eqb_spec (op_service_instance_id (cre_operation command)) x) as [<-|]; simpl; lia.
  - specialize (L2 x). unfold organization_limit, total_count, reserved_in_organization in *.
    destruct (N.eqb_spec (op_organization_id (cre_operation command)) x) as [<-|]; simpl; lia.
Qed.

Lemma service_ready_in o db bucket :
  service_ready o db bucket ->
  in_service db (op_service_instance_id o) (op_organization_id o) (op_project_id o) true.
Proof. intros (e & b & He & Ho & Hp & Hr & _). by exists e. Qed.

Lemma credential_inv_create_first env command db permissions bucket :
  credential_inv db -> op_action (cre_operation command) = CREDENTIAL_CREATE_ACTION ->
  service_ready (cre_operation command) db bucket ->
  creates_new self env command db permissions ->
  credential_inv (create_db env command permissions db).
Proof.
  intros [Ic Ik Iv Io Il] Ha Hrd Hnew. pose proof (active_reserved_counts _ _ _ _ Hnew Il) as Hl.
  destruct Hnew as [Hnone _ _ _ _ Hid Hop _ _ _].
  constructor; simpl; try done.
  - intros c r Hr. by apply (credential_ok_same db), Ic.
  - intros c v [[<- <-]|[_ Hv]]%lookup_insert_Some.
    + constructor; [done| |by eapply service_ready_in].
      eexists _, _. simpl. rewrite lookup_insert_eq. split; [done|]. by repeat split.
    + destruct (Iv c v Hv) as [? (k & r & Hr & Hown) ?]. constructor; [done| |done].
      exists k, r. simpl. rewrite lookup_insert_ne; [done|congruence].
  - intros c1 v1 c2 v2 [[<- <-]|[_ H1]]%lookup_insert_Some [[<- <-]|[_ H2]]%lookup_insert_Some Heq.
    + done.
    + symmetry in Heq. by destruct (Hop c2 v2 H2).
    + by destruct (Hop c1 v1 H1).
    + by apply (Io c1 v1 c2 v2).
Qed.

(** A reservation of a service excludes every other operation on it. *)
Lemma reservation_excludes db c v i :
  receipts_ok (receipts db) -> credential_inv db ->
  credential_reservations db !! c = Some v -> pending (receipts db) i ->
  id_service i = crr_service_instance_id v -> id_action i = CREDENTIAL_CREATE_ACTION.
Proof.
  intros Hok Hinv Hv Hi Hs.
  destruct (vo_owned _ _ _ (ci_reservation _ Hinv _ _ Hv)) as (k & r & Hr & Hst & _ & Ha & Hsv & _).
  assert (Hp : pending (receipts db) (row_identity r)) by (by exists k, r).
  assert (i = row_identity r) as -> by (eapply pending_single; [done..|simpl; congruence]). done.
Qed.

(** The service [id] was replaced by a row of the same scope; the references
    to it stay valid when [keep] says they need no more. *)
Lemma in_service_insert db db' id s0 s1 service organization project ready :
  services db !! id = Some s0 -> services db' = <[id := s1]> (services db) ->
  svc_organization_id s1 = svc_organization_id s0 -> svc_project_id s1 = svc_project_id s0 ->
  (ready = true -> service = id -> svc_phase s1 = "ready") ->
  in_service db service organization project ready ->
  in_service db' service organization project ready.
Proof.
  intros H0' Hs Ho Hp Hr (s & Hsv & Hso & Hsp & Hsr). destruct (decide (service = id)) as [->|Hne].
  - simplify_eq. exists s1. rewrite Hs, lookup_insert_eq. repeat split; [congruence..|auto].
  - exists s. rewrite Hs, lookup_insert_ne by done. done.
Qed.

Lemma in_service_new db db' id s1 service organization project ready :
  services db !! id = None -> services db' = <[id := s1]> (services db) ->
  in_service db service organization project ready ->
  in_service db' service organization project ready.
Proof.
  intros Hn Hs (s & Hsv & Hrest). exists s. split; [|done].
  rewrite Hs, lookup_insert_ne; [done|congruence].
Qed.

Lemma credential_inv_reconcile env command oid physical spec qb qo response audit u db db' :
  credential_inv db -> op_action (rec_operation command) = PROVIDER_RECONCILE_ACTION ->
  tx_result (complete_reconcile_tx self env command oid physical spec qb qo response audit) db
    = Ok (u, db') ->
  credential_inv db'.
Proof.
  intros [Ic Ik Iv Io Il] Ha Hrun.
  apply complete_reconcile_effect in Hrun as (row & t' & created & Hfin & _ & Hup & _ & _ & _ & _
    & _ & ->).
  set (id := op_service_instance_id (rec_operation command)) in *.
  set (s' := reconciled_service env command spec oid created) in *.
  set (db' := audit_db env audit _).
  assert (Hsv : forall service organization project ready,
    in_service db service organization project ready ->
    in_service db' service organization project ready).
  { intros service organization project ready. destruct (services db !! id) as [s0|] eqn:Hs0.
    - destruct (Hup s0 eq_refl) as [Hu _]. unfold service_updatable in Hu.
      rewrite !andb_true_iff, !N.eqb_eq in Hu. destruct_and?.
      by apply (in_service_insert db db' id s0 s').
    - by apply (in_service_new db db' id s'). }
  constructor; simpl; try done.
  - intros c r Hr. destruct (Ic c r Hr). constructor; auto.
  - intros c v Hv. destruct (Iv c v Hv). constructor; [done| |auto].
    eapply owned_finish; [done| |done]. right. by rewrite Ha.
  - by apply (within_limits_le db).
Qed.

Lemma revoked_checks now by_ r : credential_checks r = true -> credential_checks (revoked_row now by_ r) = true.
Proof.
  unfold credential_checks. simpl. rewrite !andb_true_iff. intros Hck. destruct_and?.
  by repeat split.
Qed.

(** The rows of [revoke_all]: identified as before, and not active in [id]. *)
Lemma revoke_all_cases env id by_ t c r :
  revoke_all env id by_ t !! c = Some r ->
  exists r0, t !! c = Some r0 /\ crd_garage_key_id r = crd_garage_key_id r0 /\
    crd_access_key_id r = crd_access_key_id r0 /\
    crd_service_instance_id r = crd_service_instance_id r0 /\ crd_name r = crd_name r0 /\
    crd_organization_id r = crd_organization_id r0 /\ crd_project_id r = crd_project_id r0 /\
    crd_id r = crd_id r0 /\ (credential_checks r0 = true -> credential_checks r = true) /\
    (activeb r = true -> activeb r0 = true /\ crd_service_instance_id r0 <> id).
Proof.
  unfold revoke_all. rewrite lookup_update_where, fmap_Some. intros (r0 & Hr0 & ->). exists r0.
  split; [done|]. destruct (active_in id r0) eqn:Hact.
  - split_and!; [done..|apply revoked_checks|done].
  - split_and!; [done..|]. intros Ha. split; [done|]. intros <-.
    unfold active_in in Hact. unfold activeb in Ha. by rewrite N.eqb_refl, Ha in Hact.
Qed.

Lemma credential_inv_delete env command oid response audit u db db' :
  receipts_ok (receipts db) -> credential_inv db ->
  op_action (del_operation command) = PROVIDER_DELETE_ACTION ->
  tx_result (complete_delete_tx self env command oid response audit) db = Ok (u, db') ->
  credential_inv db'.
Proof.
  intros Hok Hinv Ha Hrun. pose proof Hinv as [Ic Ik Iv Io Il].
  apply complete_delete_effect in Hrun as (row & t' & s0 & Hfin & Hs0 & _ & _ & _ & _ & _ & ->).
  set (o := del_operation command) in *. set (id := op_service_instance_id o) in *.
  set (db' := audit_db env audit _).
  destruct (finishes_pending _ _ _ _ _ _ _ _ (identity_of o) Hok Hfin) as [Hpo _].
  assert (Hsv : forall service organization project ready,
    (ready = true -> service <> id) -> in_service db service organization project ready ->
    in_service db' service organization project ready).
  { intros service organization project ready Hne.
    apply (in_service_insert db db' id s0 (deleted_service env (del_generation command) oid s0));
      try done. intros Hr Heq. by destruct (Hne Hr). }
  constructor; simpl.
  - intros c r Hr. apply revoke_all_cases in Hr as (r0 & Hr0 & _ & _ & E3 & _ & E5 & E6 & E7 & Hck & Hact).
    destruct (Ic c r0 Hr0) as [Hid Hck0 Hsv0]. constructor; [congruence|auto|].
    rewrite E3, E5, E6. destruct (activeb r) eqn:Hr'.
    + destruct (Hact eq_refl) as [Ha0 Hne]. rewrite Ha0 in Hsv0. by apply Hsv.
    + apply Hsv; [done|]. destruct Hsv0 as (s & ? & ? & ? & _). by exists s.
  - intros c1 r1 c2 r2 H1 H2. apply revoke_all_cases in H1 as (q1 & Hq1 & -> & -> & -> & -> & _).
    apply revoke_all_cases in H2 as (q2 & Hq2 & -> & -> & -> & -> & _). by apply Ik.
  - intros c v Hv. destruct (Iv c v Hv). constructor; [done| |].
    + eapply owned_finish; [done| |done]. right. fold o. by rewrite Ha.
    + apply Hsv; [|done]. intros _ Heq.
      pose proof (reservation_excludes db c v (identity_of o) Hok Hinv Hv Hpo) as Hex.
      simpl in Hex. rewrite Ha in Hex. by discriminate Hex.
  - done.
  - apply (within_limits_le db); [|done]. constructor; simpl; try done; intros x;
      apply count_revoked; intros r; unfold active_in, active_in_organization; simpl;
      by rewrite andb_false_r.
Qed.

Lemma credential_inv_revoke env command oid response audit u db db' :
  credential_inv db -> op_action (rev_operation command) = CREDENTIAL_REVOKE_ACTION ->
  tx_result (complete_revoke_credential_tx self env command oid response audit) db = Ok (u, db') ->
  credential_inv db'.
Proof.
  intros [Ic Ik Iv Io Il] Ha Hrun.
  apply complete_revoke_effect in Hrun as (row & t' & c0 & Hfin & Hc0 & _ & _ & ->).
  set (by_ := op_principal_id (rev_operation command)).
  set (cid := rev_credential_id command) in *.
  assert (Hcase : forall c r, <[cid := revoked_row (env_now env) by_ c0]> (credentials db) !! c = Some r ->
    exists r0, credentials db !! c = Some r0 /\
      (r = r0 \/ r = revoked_row (env_now env) by_ r0)).
  { intros c r [[<- <-]|[_ Hr]]%lookup_insert_Some; eauto. }
  constructor; simpl; try done.
  - intros c r (r0 & Hr0 & [->| ->])%Hcase; [by apply (credential_ok_same db), Ic|].
    destruct (Ic c r0 Hr0) as [Hid Hck (s & ? & ? & ? & _)]. constructor; [done|by apply revoked_checks|].
    by exists s.
  - intros c1 r1 c2 r2 (q1 & Hq1 & [->| ->])%Hcase (q2 & Hq2 & [->| ->])%Hcase;
      by apply (Ik c1 q1 c2 q2).
  - intros c v Hv. destruct (Iv c v Hv). constructor; [done| |done].
    eapply owned_finish; [done| |done]. right. by rewrite Ha.
  - apply (within_limits_le db); [|done]. constructor; simpl; try done; intros x;
      apply count_revoke_one; try done; intros r; unfold active_in, active_in_organization; simpl;
      by rewrite andb_false_r.
Qed.

(** Completing a creation turns its reservation into the credential. *)
Lemma remove_own_reservation oid c (t : gmap Uuid CredentialReservationRow) r :
  t !! c = Some r -> has_operation oid r = true ->
  map_delete_where (fun k r => N.eqb k c && has_operation oid r) t = delete c t.
Proof.
  intros Hr Hop. apply map_eq. intros k. apply option_eq. intros v.
  rewrite lookup_delete_where, lookup_delete_Some. split.
  - intros [Hv Hf]. split; [|done]. intros <-. simplify_eq. by rewrite N.eqb_refl, Hop in Hf.
  - intros [Hne Hv]. split; [done|]. by rewrite (proj2 (N.eqb_neq k c)) by congruence.
Qed.

Lemma create_counts (fc : CredentialRow -> bool) (fr : CredentialReservationRow -> bool)
    (tc : gmap Uuid CredentialRow) (tr : gmap Uuid CredentialReservationRow) c new r :
  tc !! c = None -> tr !! c = Some r -> fc new = fr r ->
  map_countb fc (<[c := new]> tc) + map_countb fr (delete c tr) = map_countb fc tc + map_countb fr tr.
Proof.
  intros Hc Hr Hf. rewrite map_countb_insert_None by done.
  rewrite (map_countb_delete fr tr c r Hr), Hf. lia.
Qed.

Lemma credential_inv_create env command oid credential permissions response audit u db db' :
  receipts_ok (receipts db) -> credential_inv db ->
  tx_result (complete_create_credential_tx self env command oid credential permissions response
               audit) db = Ok (u, db') ->
  credential_inv db'.
Proof.
  intros Hok Hinv Hrun. pose proof Hinv as [Ic Ik Iv Io Il].
  apply complete_create_effect in Hrun
    as (row & t' & r & Hfin & Hr & Hop & Hsv & _ & Hck & Hnone & Hkeys & Hnames & _ & ->).
  rewrite (remove_own_reservation oid _ _ r Hr Hop).
  set (new := credential_row env command credential permissions) in *.
  set (cid := nc_id credential) in *.
  (* the reservation is owned by this operation, so its scope is the operation's *)
  destruct (Iv cid r Hr) as [_ (k & rr & Hrr & _ & Hro & _ & _ & Hor & Hpr) Hsr].
  assert (Hscope : crr_organization_id r = op_organization_id (cre_operation command) /\
                   crr_project_id r = op_project_id (cre_operation command)).
  { destruct Hfin as (Hrow & Hm & Ho & _). apply N.eqb_eq in Hop.
    assert (k = op_idempotency_key (cre_operation command)) as ->
      by (apply (ro_operation _ Hok k rr _ row); congruence).
    apply ReceiptRow_matches_spec in Hm. destruct_and?. split; congruence. }
  destruct Hscope as [Ho Hp]. rewrite Hsv, Ho, Hp in Hsr.
  rewrite map_existsb_false in Hkeys, Hnames.
  assert (Hnew : forall c q, credentials db !! c = Some q ->
    ~ (crd_garage_key_id q = crd_garage_key_id new \/ crd_access_key_id q = crd_access_key_id new \/
       (crd_service_instance_id q = crd_service_instance_id new /\ crd_name q = crd_name new))).
  { intros c q Hq. specialize (Hkeys c q Hq). specialize (Hnames c q Hq). cbv beta in Hkeys, Hnames.
    apply orb_false_iff in Hkeys as [K1%String.eqb_neq K2%String.eqb_neq].
    apply andb_false_iff in Hnames as [K3%N.eqb_neq|K3%String.eqb_neq]; tauto. }
  constructor; simpl.
  - intros c q [[<- <-]|[_ Hq]]%lookup_insert_Some; [|by apply (credential_ok_same db), Ic].
    constructor; [done|done|]. eapply in_service_same; [|exact Hsr]. done.
  - intros c1 q1 c2 q2 [[<- <-]|[_ H1]]%lookup_insert_Some [[<- <-]|[_ H2]]%lookup_insert_Some Heq.
    + done.
    + destruct (Hnew c2 q2 H2). destruct_or?; destruct_and?; auto.
    + by destruct (Hnew c1 q1 H1).
    + by apply (Ik c1 q1 c2 q2).
  - intros c v [Hne Hv]%lookup_delete_Some. destruct (Iv c v Hv). constructor; [done| |done].
    eapply owned_finish; [done| |done]. left. intros Heq. apply Hne.
    apply N.eqb_eq in Hop. apply (Io cid r c v); congruence.
  - intros c1 v1 c2 v2 [_ H1]%lookup_delete_Some [_ H2]%lookup_delete_Some. by apply Io.
  - destruct Il as [L1 L2]. constructor; unfold per_bucket_count, total_count; simpl.
    + intros x. rewrite (create_counts _ _ _ _ _ _ r); [apply L1|done|done|].
      unfold active_in, reserved_in. simpl. by rewrite Hsv, andb_true_r.
    + intros x. rewrite (create_counts _ _ _ _ _ _ r); [apply L2|done|done|].
      unfold active_in_organization, reserved_in_organization. simpl. by rewrite Ho, andb_true_r.
Qed.

Lemma credential_inv_fail env o oid response audit u db db' :
  credential_inv db ->
  tx_result (fail_operation_tx self env o oid response audit) db = Ok (u, db') ->
  credential_inv db'.
Proof.
  intros [Ic Ik Iv Io Il] Hrun. apply fail_operation_effect in Hrun as (row & t' & Hfin & _ & ->).
  constructor; simpl; try done.
  - intros c r Hr. by apply (credential_ok_same db), Ic.
  - intros c v [Hv Hop]%lookup_delete_where. destruct (Iv c v Hv). constructor; [done| |done].
    eapply owned_finish; [done| |done]. left. by apply N.eqb_neq in Hop.
  - intros c1 v1 c2 v2 [H1 _]%lookup_delete_where [H2 _]%lookup_delete_where. by apply Io.
  - apply (within_limits_le db); [|done]. constructor; simpl; try done; intros x;
      apply map_countb_filter_le.
Qed.

Lemma effect_credential_inv env db db' :
  receipts_ok (receipts db) -> credential_inv db ->
  store_effect self bucket_of env db db' -> credential_inv db'.
Proof.
  intros Hok Hinv Heff. effect_cases Heff.
  - by eapply credential_inv_begin.
  - by eapply credential_inv_begin.
  - destruct Hbg as [permissions db' Hnew ->|row c r Hto Hc Hop Hm].
    + by eapply credential_inv_create_first.
    + by eapply credential_inv_begin; [done|done|by apply begin_takeover|..].
  - destruct Hcok. by eapply credential_inv_reconcile.
  - by eapply credential_inv_delete.
  - by eapply credential_inv_create.
  - by eapply credential_inv_revoke.
  - apply renew_operation_tx_Ok in Hr as (row & Hrow & _ & _ & Hsp & ->).
    apply (credential_inv_receipts db); [done..| |done]. intros v. simpl. by apply owned_same_row with row.
  - by eapply credential_inv_fail.
  - apply record_usage_effect in Hr as (_ & _ & _ & _ & t & ->).
    by apply (credential_inv_receipts db).
  - by apply (credential_inv_receipts db).
Qed.

Lemma reachable_credential_inv db :
  (0 <= max_credentials_per_bucket (credential_limits self))%Z ->
  (0 <= max_total_credentials (credential_limits self))%Z ->
  reachable self bucket_of db -> credential_inv db.
Proof.
  intros Hb Ho. apply (reachable_invariant self bucket_of).
  - by constructor.
  - intros env db1 db2 Hr Hinv [->|Heff]%store_step_effect; [done|].
    eapply effect_credential_inv; [|done|done]. by eapply reachable_receipts_ok.
Qed.
End credential_inv.
