(* ===== verification/CredentialProps.v ===== *)
(** * Properties of credentials

    Consequences of the invariants for the callers of the store: limits are
    never exceeded, a deleted service has nothing left that grants access,
    reservations belong to creations in progress, and revocation is final. *)

From stdpp Require Import relations.
From S2P Require Import Prelude RustStr Domain Auth Json StoreModels Cipher Tables Receipts ReceiptLemmas Store StoreEffects StoreStep Samples ReceiptProtocol ServiceInv CredentialInv.

Section properties.
Context `{SerdeJson} `{Aead}.
Context (self : PgStore).
Context (bucket_of : bytes -> string).

(** The limits of a store come from the validated configuration. *)
Lemma from_pool_limits key limits :
  PgStore_from_pool key limits = Ok self -> credential_limits self = limits.
Proof.
  unfold PgStore_from_pool. rewrite result_bind_Ok. intros (c & _ & Hl).
  apply result_bind_Ok in Hl as (l & Hl & [= <-]). unfold CredentialLimits_validate in Hl.
  case_match; by simplify_eq.
Qed.

(** C4. The credential limits hold at every moment, whatever the interleaving
    of creations: the active credentials and the reservations of a bucket, and
    those of an organization, never exceed the configured maxima. *)
Theorem credential_limits_hold key limits db service organization :
  PgStore_from_pool key limits = Ok self ->
  in_u32 (max_credentials_per_bucket limits) = true ->
  in_u32 (max_total_credentials limits) = true ->
  reachable self bucket_of db ->
  (Z.of_nat (map_countb (active_in service) (credentials db)
     + map_countb (reserved_in service) (credential_reservations db))
     <= max_credentials_per_bucket limits)%Z /\
  (Z.of_nat (map_countb (active_in_organization organization) (credentials db)
     + map_countb (reserved_in_organization organization) (credential_reservations db))
     <= max_total_credentials limits)%Z.
Proof.
  intros <-%from_pool_limits Hb Ho Hr. unfold in_u32 in *. rewrite !andb_true_iff in *.
  destruct (reachable_credential_inv self bucket_of db) as [_ _ _ _ [L1 L2]]; [lia|lia|done|].
  split; [apply L1|apply L2].
Qed.

Context (Hbucket : (0 <= max_credentials_per_bucket (credential_limits self))%Z).
Context (Htotal : (0 <= max_total_credentials (credential_limits self))%Z).

(** C18. A deleted service has nothing left: no active credential, no credential
    reservation, no reserved bucket name and no operation in progress refers to
    it. *)
Theorem deleted_service_clean db id s :
  reachable self bucket_of db -> services db !! id = Some s -> svc_phase s = "deleted" ->
  map_countb (active_in id) (credentials db) = 0 /\
  map_countb (reserved_in id) (credential_reservations db) = 0 /\
  (forall n v, name_reservations db !! n = Some v -> nam_service_instance_id v <> id) /\
  (forall k r, receipts db !! k = Some r -> rcp_state r = in_progress ->
     rcp_service_instance_id r <> id).
Proof.
  intros Hr Hs Hd. pose proof (reachable_service_inv self bucket_of db Hr) as Hsi.
  pose proof (reachable_credential_inv self bucket_of db Hbucket Htotal Hr) as Hci.
  rewrite !map_countb_zero. split_and!.
  - intros c r Hc. destruct (active_in id r) eqn:Ha; [|done]. exfalso. unfold active_in in Ha.
    apply andb_true_iff in Ha as [<-%N.eqb_eq Ha].
    destruct (co_service _ _ _ (ci_credential _ _ Hci c r Hc)) as (s' & Hs' & _ & _ & Hrd).
    unfold activeb in Hrd. specialize (Hrd Ha). congruence.
  - intros c v Hv. destruct (reserved_in id v) eqn:Ha; [|done]. exfalso. apply N.eqb_eq in Ha as <-.
    destruct (vo_service _ _ _ (ci_reservation _ _ Hci c v Hv)) as (s' & Hs' & _ & _ & Hrd).
    specialize (Hrd eq_refl). congruence.
  - intros n v Hv <-. destruct (si_reserved _ _ Hsi n v Hv) as [(s' & b & Hs' & Hrd & _)|[Hn _]];
      congruence.
  - intros k r Hk Hst <-. apply (si_alive _ _ Hsi (row_identity r) s); [by exists k, r|done|done].
Qed.

(** C22. Every credential reservation is owned by exactly the creation in
    progress that made it, under that attempt's operation identifier and scope,
    and its service is ready: reservations cannot outlive their operation. *)
Theorem reservation_owned db c v :
  reachable self bucket_of db -> credential_reservations db !! c = Some v ->
  (exists k r, receipts db !! k = Some r /\ rcp_state r = in_progress /\
     rcp_action r = CREDENTIAL_CREATE_ACTION /\ rcp_operation_id r = crr_operation_id v /\
     rcp_service_instance_id r = crr_service_instance_id v) /\
  (exists s, services db !! crr_service_instance_id v = Some s /\ svc_phase s = "ready" /\
     svc_organization_id s = crr_organization_id v /\ svc_project_id s = crr_project_id v) /\
  (forall c' v', credential_reservations db !! c' = Some v' ->
     crr_operation_id v' = crr_operation_id v -> c' = c).
Proof.
  intros Hr Hv. pose proof (reachable_credential_inv self bucket_of db Hbucket Htotal Hr) as Hci.
  destruct (ci_reservation _ _ Hci c v Hv) as [_ (k & r & Hk & Hown) (s & Hs & Ho & Hp & Hrd)].
  unfold owns in Hown. destruct_and?. split_and!; eauto 10.
  intros c' v' Hv' Heq. by apply (ci_operation _ _ Hci c' v' c v).
Qed.

(** ** Histories of a credential *)

Lemma revoked_row_id now by_ r :
  credential_checks r = true -> crd_status r <> "active" -> revoked_row now by_ r = r.
Proof.
  unfold credential_checks. rewrite !andb_true_iff, orb_true_iff, !andb_true_iff.
  intros [_ [[[Ha _] _]|[[Hs Hat] Hby]]] Hna; [by apply String.eqb_eq in Ha|].
  apply String.eqb_eq in Hs. destruct r; simpl in *. subst.
  destruct crd_revoked_at, crd_revoked_by; try done.
Qed.

(** What a step may do to a credential: nothing, or revoke it. *)
Definition credential_evolves (r r' : CredentialRow) : Prop :=
  r' = r \/ exists now by_, r' = revoked_row now by_ r.

Lemma effect_credential_evolves env db db' c r :
  store_effect self bucket_of env db db' -> credentials db !! c = Some r ->
  exists r', credentials db' !! c = Some r' /\ credential_evolves r r'.
Proof.
  intros Heff Hc.
  assert (Hsame : credentials db' = credentials db ->
    exists r', credentials db' !! c = Some r' /\ credential_evolves r r').
  { intros ->. exists r. split; [done|by left]. }
  effect_cases Heff; try (by apply Hsame).
  - apply Hsame. by destruct Hbg as [? ? ? ->|].
  - apply Hsame. apply complete_reconcile_effect in Hr as (row & t' & created & _ & Hr).
    destruct_and?. by subst.
  - apply complete_delete_effect in Hr as (row & t' & s & _ & _ & _ & _ & _ & _ & _ & ->). simpl.
    unfold revoke_all. rewrite lookup_update_where, Hc. simpl. eexists. split; [done|].
    case_match; [right; eauto|by left].
  - apply complete_create_effect in Hr
      as (row & t' & v & _ & _ & _ & _ & _ & _ & Hnone & _ & _ & _ & ->). simpl.
    exists r. split; [|by left]. rewrite lookup_insert_ne; [done|congruence].
  - apply complete_revoke_effect in Hr as (row & t' & c0 & _ & Hc0 & _ & _ & ->). simpl.
    destruct (decide (rev_credential_id command = c)) as [<-|Hne].
    + rewrite lookup_insert_eq. simplify_eq. eexists. split; [done|]. right. eauto.
    + rewrite lookup_insert_ne by done. exists r. split; [done|by left].
  - apply Hsame. by apply renew_operation_tx_Ok in Hr as (row & _ & _ & _ & _ & ->).
  - apply Hsame. by apply fail_operation_effect in Hr as (row & t' & _ & _ & ->).
  - apply Hsame. by apply record_usage_effect in Hr as (_ & _ & _ & _ & t & ->).
Qed.

(** C19. Credentials are never deleted or rewritten: along any run a credential
    keeps its keys, name, permissions and scope, and a revoked credential stays
    exactly as it is, revocation time and author included, so it can never
    become active again. *)
Theorem credential_history db db' c r :
  reachable self bucket_of db -> rtc (store_step self bucket_of) db db' ->
  credentials db !! c = Some r ->
  exists r', credentials db' !! c = Some r' /\
    crd_garage_key_id r' = crd_garage_key_id r /\ crd_access_key_id r' = crd_access_key_id r /\
    crd_service_instance_id r' = crd_service_instance_id r /\ crd_name r' = crd_name r /\
    crd_permissions r' = crd_permissions r /\
    (crd_status r <> "active" -> r' = r).
Proof.
  intros Hreach Hrtc. revert r Hreach.
  induction Hrtc as [|db1 db2 db3 [env Hst] Hrtc IH]; intros r Hreach Hc.
  { exists r. by repeat split. }
  assert (Hr2 : reachable self bucket_of db2) by (eapply rtc_r; [done|by exists env]).
  apply store_step_effect in Hst as [->|Heff]; [by apply IH|].
  pose proof (reachable_credential_inv self bucket_of db1 Hbucket Htotal Hreach) as Hci.
  destruct (effect_credential_evolves env db1 db2 c r Heff Hc) as (r1 & Hc1 & Hev).
  destruct (IH r1 Hr2 Hc1) as (r' & Hr' & E1 & E2 & E3 & E4 & E5 & Hdone). exists r'.
  destruct Hev as [->|(now & by_ & ->)]; [by repeat split|]. simpl in *.
  split_and!; [done..|]. intros Hna. rewrite Hdone by done.
  apply revoked_row_id; [|done]. apply (ci_credential _ _ Hci c r Hc).
Qed.

(** Credentials are identified uniquely: no two credentials share a Garage
    key, an access key, or a name within a service, and each belongs to an
    existing service of its own organization and project. *)
Theorem credentials_unique db c1 r1 c2 r2 :
  reachable self bucket_of db -> credentials db !! c1 = Some r1 -> credentials db !! c2 = Some r2 ->
  (crd_garage_key_id r1 = crd_garage_key_id r2 \/ crd_access_key_id r1 = crd_access_key_id r2 \/
   (crd_service_instance_id r1 = crd_service_instance_id r2 /\ crd_name r1 = crd_name r2) ->
   c1 = c2) /\
  (exists s, services db !! crd_service_instance_id r1 = Some s /\
     svc_organization_id s = crd_organization_id r1 /\ svc_project_id s = crd_project_id r1).
Proof.
  intros Hr H1 H2. pose proof (reachable_credential_inv self bucket_of db Hbucket Htotal Hr) as Hci.
  split; [by apply (ci_keys _ _ Hci)|].
  destruct (co_service _ _ _ (ci_credential _ _ Hci c1 r1 H1)) as (s & Hs & Ho & Hp & _). eauto.
Qed.
End properties.

#[local] Existing Instance sample_json.
#[local] Existing Instance sample_aead.

Lemma credential_limits_hold_witness :
  (Z.of_nat (map_countb (active_in 3) (credentials db_reserved)
     + map_countb (reserved_in 3) (credential_reservations db_reserved)) <= 2)%Z.
Proof.
  apply (credential_limits_hold sample_store sample_bucket_of (replicate 32 nul)
           (credential_limits sample_store) db_reserved 3 1).
  - vm_compute. reflexivity.
  - reflexivity.
  - reflexivity.
  - apply db_reserved_reachable.
Defined.

Lemma deleted_service_clean_witness : map_countb (active_in 3) (credentials db_deleted) = 0.
Proof.
  destruct (services db_deleted !! 3%N) as [s|] eqn:Hs; [|vm_compute in Hs; discriminate Hs].
  apply (deleted_service_clean sample_store sample_bucket_of ltac:(simpl; lia) ltac:(simpl; lia)
           db_deleted 3 s db_deleted_reachable Hs).
  vm_compute in Hs. injection Hs as <-. reflexivity.
Defined.

Lemma reservation_owned_witness :
  exists k r, receipts db_reserved !! k = Some r /\ rcp_state r = in_progress.
Proof.
  destruct (credential_reservations db_reserved !! 203%N) as [v|] eqn:Hv;
    [|vm_compute in Hv; discriminate Hv].
  destruct (reservation_owned sample_store sample_bucket_of ltac:(simpl; lia) ltac:(simpl; lia)
              db_reserved 203 v db_reserved_reachable Hv) as ((k & r & Hk & Hs & _) & _).
  exists k, r. auto.
Defined.

Lemma credential_history_witness :
  exists r', credentials db_deleted !! 203%N = Some r' /\ crd_name r' = "key".
Proof.
  destruct (credentials db_created !! 203%N) as [r|] eqn:Hr; [|vm_compute in Hr; discriminate Hr].
  destruct (credential_history sample_store sample_bucket_of ltac:(simpl; lia) ltac:(simpl; lia)
              db_created db_deleted 203 r) as (r' & Hr' & _ & _ & _ & Hn & _).
  - apply db_created_reachable.
  - apply db_created_to_deleted.
  - exact Hr.
  - exists r'. split; [exact Hr'|]. rewrite Hn. vm_compute in Hr. injection Hr as <-. reflexivity.
Defined.

Lemma credentials_unique_witness :
  exists s, services db_created !! 3%N = Some s /\ svc_organization_id s = 1%N.
Proof.
  destruct (credentials db_created !! 203%N) as [r|] eqn:Hr; [|vm_compute in Hr; discriminate Hr].
  destruct (credentials_unique sample_store sample_bucket_of ltac:(simpl; lia) ltac:(simpl; lia)
              db_created 203 r 203 r db_created_reachable Hr Hr) as (_ & s & Hs & Ho & _).
  vm_compute in Hr. injection Hr as <-. exists s. auto.
Defined.
