(* ===== verification/Takeover.v ===== *)
(** * Taking over an abandoned attempt

    A process that was granted an operation may die before it reports the result.
    While its receipt is in progress no other operation can start on the service,
    so nothing of what the attempt was granted on can change; and once the lease
    has run out the same request is granted again.  The store therefore never
    leaves an operation, or the service behind it, stuck. *)

From stdpp Require Import relations.
From S2P Require Import Prelude RustStr Domain Auth Json StoreModels Cipher Tables Receipts ReceiptLemmas Store StoreEffects StoreStep Samples ReceiptProtocol Commands ServiceInv ServiceProps CredentialInv CredentialProps.

Section takeover.
Context `{SerdeJson} `{Aead}.
Context (self : PgStore).
Context (bucket_of : bytes -> string).

(** The request of the command is in progress. *)
Definition running (c : Command) (db : Db) : Prop :=
  exists row, receipts db !! op_idempotency_key (command_operation c) = Some row /\
    ReceiptRow_matches row (command_operation c) = true /\ rcp_state row = in_progress.

(** What the tables must say for the command to be granted again. *)
Definition grounds (c : Command) (db : Db) : Prop :=
  match c with
  | ReconcileOp command =>
      (exists again physical, reconcile_allowed command db again physical) /\
      reserved_name db (spec_bucket_name (rec_spec command))
        (op_service_instance_id (rec_operation command))
  | DeleteOp command => exists bucket, delete_allowed command db bucket
  | CreateOp command =>
      (exists bucket, service_ready (cre_operation command) db bucket) /\
      exists row k v, receipts db !! op_idempotency_key (cre_operation command) = Some row /\
        credential_reservations db !! k = Some v /\
        crr_operation_id v = rcp_operation_id row /\
        CredentialReservationRow_matches v command = true
  | RevokeOp command =>
      (exists bucket, service_ready (rev_operation command) db bucket) /\
      exists r, credentials db !! rev_credential_id command = Some r /\
        crd_service_instance_id r = op_service_instance_id (rev_operation command)
  end.

(** ** Granting establishes the grounds *)

Lemma begins_running env o db t cr :
  begins env o db t cr ->
  exists row, t !! op_idempotency_key o = Some row /\ ReceiptRow_matches row o = true /\
    rcp_state row = in_progress.
Proof.
  intros [Hn Hck Hf|row [Hrow Hm Hs _ _ _ _]]; eexists; rewrite lookup_insert_eq;
    (split; [done|]); (split; [|done]).
  - by apply ReceiptRow_matches_spec.
  - by rewrite matches_claimed.
Qed.

Lemma names_after_reserved env name service t nm db :
  names_after env name service t nm -> name_reservations db = nm -> reserved_name db name service.
Proof.
  intros [r Hr Hs|Hn Ho] Heq; unfold reserved_name; rewrite Heq; [eauto|].
  eexists. by rewrite lookup_insert_eq.
Qed.

(** The committed effect of a granting [prepare]. *)
Lemma granted_grounds `{!SerdeJsonLaws} fault env c db oid u db' :
  prepare_command self fault env c db = (Ok (Execute oid u), db') ->
  running c db' /\ grounds c db'.
Proof.
  destruct c as [c|c|c|c]; simpl; intros (_ & ctx & Hr)%forget_execute.
  - apply prepare_reconcile_effect in Hr
      as [[_ Ha]|(again & ph & t & cr & nm & _ & Hb & _ & Hal & Hn & ->)]; [by inversion Ha|].
    split; [by eapply begins_running|]. split; [by eauto|]. by eapply names_after_reserved.
  - apply prepare_delete_effect in Hr as [[_ Ha]|(b & t & cr & _ & Hb & _ & Hal & ->)];
      [by inversion Ha|]. split; [by eapply begins_running|]. by exists b.
  - apply prepare_create_effect in Hr as [[_ Ha]|(b & Hrd & _ & Hb)]; [by inversion Ha|].
    inversion Hb as [permissions ? Hnew Heq|row k v Hto Hk Hop Hm]; subst.
    + split; [by eapply (begins_running _ (cre_operation c)), creates_new_begins|].
      split; [by exists b|]. eexists _, (env_credential_id env), _. simpl.
      rewrite !lookup_insert_eq. split_and!; [done..|]. simpl.
      unfold CredentialReservationRow_matches. simpl.
      rewrite !N.eqb_refl, String.eqb_refl. simpl. apply bool_decide_eq_true.
      by eapply permissions_from_to_value, cn_permissions.
    + split; [by eapply (begins_running _ (cre_operation c)), begin_takeover|].
      split; [by exists b|]. eexists _, k, v. simpl. rewrite lookup_insert_eq.
      split_and!; [done|done|by apply N.eqb_eq in Hop|done].
  - apply prepare_revoke_effect in Hr
      as [[_ Ha]|(b & k & t & cr & _ & Hb & _ & Hrd & Hc & Hs & ->)]; [by inversion Ha|].
    split; [by eapply begins_running|]. split; [by exists b|]. by exists k.
Qed.
(** ** A running operation freezes its service *)

(** Everything the grounds are about, kept from [db] to [db']: the service, the
    name and the physical identifier of its bucket, its reserved names, all
    credentials, and the credential reservation that belongs to the receipt. *)
Record kept (id key : Uuid) (db db' : Db) : Prop := {
  kp_service : services db' !! id = services db !! id;
  kp_bucket b : buckets db !! id = Some b ->
    exists b', buckets db' !! id = Some b' /\ bkt_bucket_name b' = bkt_bucket_name b /\
      bkt_physical_bucket_id b' = bkt_physical_bucket_id b;
  kp_name n : reserved_name db n id -> reserved_name db' n id;
  kp_reservation row row' c v :
    receipts db !! key = Some row -> receipts db' !! key = Some row' ->
    credential_reservations db !! c = Some v -> crr_operation_id v = rcp_operation_id row ->
    credential_reservations db' !! c = Some (reservation_with_operation (rcp_operation_id row') v);
}.

Lemma reservation_same v : reservation_with_operation (crr_operation_id v) v = v.
Proof. by destruct v. Qed.

(** Starting an operation moves at most the reservation of its own receipt. *)
Lemma begins_keeps env o db t cr key row row' c v :
  receipts_ok (receipts db) -> begins env o db t cr ->
  receipts db !! key = Some row -> t !! key = Some row' ->
  credential_reservations db !! c = Some v -> crr_operation_id v = rcp_operation_id row ->
  cr !! c = Some (reservation_with_operation (rcp_operation_id row') v).
Proof.
  intros Hok [Hnone Hck Hf|row0 [Hrow Hm Hs _ _ _ _]] Hr Hr' Hv Hop.
  - rewrite lookup_insert_ne in Hr' by congruence. simplify_eq. rewrite <- Hop.
    by rewrite reservation_same.
  - unfold move_reservations. rewrite lookup_update_where, Hv. simpl. unfold has_operation.
    destruct (decide (op_idempotency_key o = key)) as [<-|Hne].
    + rewrite lookup_insert_eq in Hr'. simplify_eq. by rewrite Hop, N.eqb_refl.
    + rewrite lookup_insert_ne in Hr' by done. simplify_eq.
      rewrite (proj2 (N.eqb_neq _ _)); [by rewrite <- Hop, reservation_same|].
      rewrite Hop. intros Heq. by destruct Hne; eapply (ro_operation _ Hok).
Qed.

(** An operation that finishes while the receipt of [key] stays in progress is
    another service's. *)
Lemma finish_elsewhere env o oid response row0 t t' key row row' :
  receipts_ok t -> finishes self env o oid response row0 t t' ->
  t !! key = Some row -> t' !! key = Some row' ->
  rcp_state row = in_progress -> rcp_state row' = in_progress ->
  row' = row /\ rcp_operation_id row <> oid /\
  op_service_instance_id o <> rcp_service_instance_id row.
Proof.
  intros Hok (Hrow & Hm & Ho & Hs & p & n & c & _ & _ & _ & ->) Hr Hr' Hs0 Hs'.
  apply lookup_insert_Some in Hr' as [[_ <-]|[Hne Hr']].
  { exfalso. revert Hs'. simpl. unfold final_state. by destruct (resp_failed response). }
  simplify_eq. split; [done|]. split.
  - intros Heq. destruct Hne. by eapply (ro_operation _ Hok).
  - intros Heq. destruct Hne. apply ReceiptRow_matches_spec in Hm. destruct_and?.
    eapply (ro_single _ Hok); [done|done|done|done|congruence].
Qed.

Lemma reserved_name_kept f id id' n db db' :
  name_reservations db' = map_delete_where (fun n v => name_reserved_by id' v && f n v)
                            (name_reservations db) ->
  id' <> id -> reserved_name db n id -> reserved_name db' n id.
Proof.
  intros Heq Hne (v & Hv & Hid). exists v. split; [|done]. rewrite Heq.
  apply names_kept; [done|congruence].
Qed.

Lemma reservation_kept (f : Uuid -> CredentialReservationRow -> bool) oid db c v :
  (forall k r, f k r = true -> has_operation oid r = true) ->
  credential_reservations db !! c = Some v -> crr_operation_id v <> oid ->
  map_delete_where f (credential_reservations db) !! c = Some v.
Proof.
  intros Hf Hv Hne. apply lookup_delete_where. split; [done|].
  destruct (f c v) eqn:Hc; [|done]. apply Hf, N.eqb_eq in Hc. congruence.
Qed.
Lemma kept_same id key db db' :
  services db' !! id = services db !! id -> buckets db' !! id = buckets db !! id ->
  (forall n, reserved_name db n id -> reserved_name db' n id) ->
  (forall row row' c v, receipts db !! key = Some row -> receipts db' !! key = Some row' ->
     credential_reservations db !! c = Some v -> crr_operation_id v = rcp_operation_id row ->
     credential_reservations db' !! c
       = Some (reservation_with_operation (rcp_operation_id row') v)) ->
  kept id key db db'.
Proof. intros Hs Hb Hn Hr. constructor; [done| |done|done]. intros b. rewrite Hb. eauto. Qed.

(** The reservation of a receipt that keeps its operation identifier. *)
Lemma reservation_unmoved key db (t' : gmap Uuid ReceiptRow)
    (cr' : gmap Uuid CredentialReservationRow) :
  (forall row row', receipts db !! key = Some row -> t' !! key = Some row' ->
     rcp_operation_id row' = rcp_operation_id row /\
     forall c v, credential_reservations db !! c = Some v ->
       crr_operation_id v = rcp_operation_id row -> cr' !! c = Some v) ->
  forall row row' c v, receipts db !! key = Some row -> t' !! key = Some row' ->
    credential_reservations db !! c = Some v -> crr_operation_id v = rcp_operation_id row ->
    cr' !! c = Some (reservation_with_operation (rcp_operation_id row') v).
Proof.
  intros Hx row row' c v Hr Hr' Hv Hop. destruct (Hx row row' Hr Hr') as [-> Hc].
  rewrite <- Hop, reservation_same. by apply Hc.
Qed.

Lemma names_after_keeps env name service db db' n id :
  names_after env name service (name_reservations db) (name_reservations db') ->
  reserved_name db n id -> reserved_name db' n id.
Proof.
  intros Hn (v & Hv & Hid). exists v. split; [|done]. inversion Hn; [done|].
  rewrite lookup_insert_ne; [done|congruence].
Qed.

Lemma finish_keeps env o oid response row0 db db' key row row' :
  receipts_ok (receipts db) ->
  finishes self env o oid response row0 (receipts db) (receipts db') ->
  (forall id, op_service_instance_id o <> id ->
     services db' !! id = services db !! id /\ buckets db' !! id = buckets db !! id /\
     forall n, reserved_name db n id -> reserved_name db' n id) ->
  (forall c v, credential_reservations db !! c = Some v -> crr_operation_id v <> oid ->
     credential_reservations db' !! c = Some v) ->
  receipts db !! key = Some row -> rcp_state row = in_progress ->
  receipts db' !! key = Some row' -> rcp_state row' = in_progress ->
  kept (rcp_service_instance_id row) key db db'.
Proof.
  intros Hok Hfin Helse Hres Hrow Hst Hrow' Hst'.
  destruct (finish_elsewhere _ _ _ _ _ _ _ _ _ _ Hok Hfin Hrow Hrow' Hst Hst') as (-> & Hop & Hid).
  destruct (Helse _ Hid) as (Hs & Hb & Hn). apply kept_same; [done..|].
  apply reservation_unmoved. intros r r' Hr Hr'. simplify_eq. split; [done|].
  intros c v Hv Heq. apply Hres; [done|congruence].
Qed.

(** Whatever the store does while the receipt is in progress before and after,
    its service is kept. *)
Lemma effect_keeps env db db' key row row' :
  receipts_ok (receipts db) -> store_effect self bucket_of env db db' ->
  receipts db !! key = Some row -> rcp_state row = in_progress ->
  receipts db' !! key = Some row' -> rcp_state row' = in_progress ->
  kept (rcp_service_instance_id row) key db db'.
Proof.
  intros Hok Heff Hrow Hst Hrow' Hst'. effect_cases Heff.
  - apply kept_same; [done|done| |].
    + intros n0. by eapply names_after_keeps.
    + intros r r' c v. by eapply (begins_keeps env _ db t cr).
  - apply kept_same; [done|done|done|]. intros r r' c v. by eapply (begins_keeps env _ db t cr).
  - destruct Hbg as [permissions db' Hnew ->|r0 c v Hto Hc Hop Hm].
    + apply kept_same; [done|done|done|]. apply reservation_unmoved. simpl. intros r r' Hr Hr'.
      pose proof (cn_key _ _ _ _ _ Hnew). pose proof (cn_id _ _ _ _ _ Hnew).
      rewrite lookup_insert_ne in Hr' by congruence. simplify_eq. split; [done|].
      intros c v Hv _. rewrite lookup_insert_ne; [done|congruence].
    + apply kept_same; [done|done|done|]. intros r r' c' v'.
      by eapply begins_keeps; [done|apply begin_takeover].
  - apply complete_reconcile_effect in Hr as (r0 & t' & created & Hfin & _ & _ & _ & _ & _ & _ & _ & ->).
    eapply finish_keeps; try done. intros id Hne. simpl. rewrite !lookup_insert_ne by done.
    split_and!; [done..|]. intros n0. by eapply (reserved_name_kept _ _ _ _ db).
  - apply complete_delete_effect in Hr as (r0 & t' & s & Hfin & _ & _ & _ & _ & _ & _ & ->).
    eapply finish_keeps; try done. intros id Hne. simpl. rewrite !lookup_insert_ne by done.
    split_and!; [done..|]. intros n0 (v & Hv & Hid). exists v. split; [|done]. simpl.
    apply lookup_delete_where. split; [done|]. apply N.eqb_neq. congruence.
  - apply complete_create_effect in Hr as (r0 & t' & s & Hfin & _ & _ & _ & _ & _ & _ & _ & _ & _ & ->).
    eapply finish_keeps; try done. intros c v Hv Hne.
    eapply reservation_kept; [|done|done]. by intros k r [_ ?]%andb_true_iff.
  - apply complete_revoke_effect in Hr as (r0 & t' & s & Hfin & _ & _ & _ & ->).
    by eapply finish_keeps.
  - apply renew_operation_tx_Ok in Hr as (r0 & Hr0 & _ & _ & _ & ->).
    apply kept_same; [done|done|done|]. apply reservation_unmoved. simpl. intros r r' Hr Hr'.
    apply lookup_insert_Some in Hr' as [[<- <-]|[_ Hr']]; by simplify_eq.
  - apply fail_operation_effect in Hr as (r0 & t' & Hfin & _ & ->).
    eapply finish_keeps; try done.
    + intros id Hne. split_and!; [done..|]. intros n0. by eapply (reserved_name_kept _ _ _ _ db).
    + intros c v Hv Hne. by eapply reservation_kept.
  - apply record_usage_effect in Hr as (Hbg & _ & _ & _ & t & ->). constructor; [done| |done|].
    + intros b0 Hb0. simpl. destruct (decide (sid = rcp_service_instance_id row)) as [->|Hne].
      * rewrite lookup_insert_eq. simplify_eq. by eexists.
      * rewrite lookup_insert_ne by done. eauto.
    + apply reservation_unmoved. simpl. intros r r' Hr' Hr''. by simplify_eq.
  - apply kept_same; [done|done|done|]. apply reservation_unmoved. simpl. intros r r' Hr Hr'.
    by simplify_eq.
Qed.
Lemma kept_bucket id key db db' b :
  service_inv bucket_of db' -> kept id key db db' -> buckets db !! id = Some b ->
  exists b' record, buckets db' !! id = Some b' /\ shows_bucket b' record /\
    bkt_bucket_name b' = bkt_bucket_name b /\ bkt_physical_bucket_id b' = bkt_physical_bucket_id b.
Proof.
  intros Hsi Hk (b' & Hb' & Hn & Hp)%(kp_bucket _ _ _ _ Hk).
  destruct (bucket_record_total b') as (r & _ & Hsh); [by eapply bo_checks, si_bucket|].
  by exists b', r.
Qed.

Lemma kept_ready o key db db' :
  service_inv bucket_of db' -> kept (op_service_instance_id o) key db db' ->
  (exists bucket, service_ready o db bucket) -> exists bucket, service_ready o db' bucket.
Proof.
  intros Hsi Hk (_ & e & b & He & Ho & Hp & Hr & Hg & Hb & _ & Hph).
  destruct (kept_bucket _ _ _ _ _ Hsi Hk Hb) as (b' & r & Hb' & Hsh & _ & Hph').
  exists r, e, b'. rewrite (kp_service _ _ _ _ Hk), Hph'. by split_and!.
Qed.

Lemma kept_grounds env c db db' :
  service_inv bucket_of db' -> store_effect self bucket_of env db db' -> running c db' ->
  kept (op_service_instance_id (command_operation c))
    (op_idempotency_key (command_operation c)) db db' ->
  grounds c db -> grounds c db'.
Proof.
  intros Hsi Heff (row' & Hrow' & _) Hk. destruct c as [c|c|c|c]; simpl in *.
  - intros [(again & physical & Hal) Hn]. split; [|by eapply kp_name]. exists again, physical.
    unfold reconcile_allowed in *. rewrite (kp_service _ _ _ _ Hk).
    destruct (services db !! _) as [e|]; [|done].
    destruct Hal as (Ho & Hp & Hd & (b & Hb & Hbn & Hph) & Hag). split_and!; [done..| |done].
    destruct (kept_bucket _ _ _ _ _ Hsi Hk Hb) as (b' & r & Hb' & _ & Hn' & Hph').
    exists b'. split_and!; congruence.
  - intros (bucket & e & b & He & Ho & Hp & Hd & Hg & Hb & _ & Hph).
    destruct (kept_bucket _ _ _ _ _ Hsi Hk Hb) as (b' & r & Hb' & Hsh & _ & Hph').
    exists r, e, b'. rewrite (kp_service _ _ _ _ Hk), Hph'. by split_and!.
  - intros [Hrd (row & k & v & Hrow & Hv & Hop & Hm)]. split; [by eapply kept_ready|].
    eexists row', k, _. split; [done|].
    split; [by eapply (kp_reservation _ _ _ _ Hk)|]. done.
  - intros [Hrd (r & Hr & Hs)]. split; [by eapply kept_ready|].
    destruct (effect_credential_evolves _ _ _ _ _ _ _ Heff Hr) as (r' & Hr' & [->|(? & ? & ->)]);
      eauto.
Qed.

(** ** Granting again *)

Lemma moved_unique old new (t : gmap Uuid CredentialReservationRow) :
  (forall c1 v1 c2 v2, move_reservations old new t !! c1 = Some v1 ->
     move_reservations old new t !! c2 = Some v2 ->
     crr_operation_id v1 = crr_operation_id v2 -> c1 = c2) ->
  map_countb (has_operation new) (move_reservations old new t) <= 1.
Proof.
  intros Hu. generalize dependent (move_reservations old new t). intros m Hu.
  destruct (decide (map_countb (has_operation new) m = 0)) as [|Hne]; [lia|].
  destruct (map_existsb (fun _ => has_operation new) m) eqn:Hex.
  - apply map_existsb_true in Hex as (k & v & Hk & Hv). rewrite (map_countb_delete _ m k v Hk), Hv.
    simpl. rewrite (proj2 (map_countb_zero _ _)); [done|].
    intros k' v' [Hne' Hk']%lookup_delete_Some. destruct (has_operation new v') eqn:Hv'; [|done].
    apply N.eqb_eq in Hv, Hv'. destruct Hne'. by apply (Hu k v k' v'); [..|congruence].
  - rewrite map_existsb_false in Hex. destruct Hne. apply map_countb_zero. eauto.
Qed.

Lemma takeover_ready env o db row d :
  credential_inv self db ->
  receipts db !! op_idempotency_key o = Some row -> ReceiptRow_matches row o = true ->
  rcp_state row = in_progress -> rcp_lease_expires_at row = Some d -> (d <= env_clock env)%Z ->
  (rcp_lease_attempt row < i64_max)%Z ->
  operation_id_taken (op_idempotency_key o) (env_operation_id env) (receipts db) = false ->
  taken_over env o db row.
Proof.
  intros Hci Hrow Hm Hs Hd Hexp Hat Hf. constructor; eauto. right. apply moved_unique.
  intros c1 v1 c2 v2. by eapply moved_operation.
Qed.

(** Run the next statement of a transaction, given what it returns. *)
Lemma tx_run {A B : Type} (m : Tx A) (f : A -> Tx B) db a db1 r :
  tx_result m db = Ok (a, db1) -> tx_result (f a) db1 = r -> tx_result (m ≫= f) db = r.
Proof. intros Hm Hf. by rewrite tx_result_bind, Hm. Qed.

Lemma claim_takes_over env o db row :
  taken_over env o db row ->
  tx_result (claim_existing_receipt self env o) db
    = Ok (ClaimTakenOver (env_operation_id env), takeover_db env (op_idempotency_key o) row db).
Proof.
  intros [Hrow Hm Hs (d & Hd & Hexp) Hat Hf Hr]. unfold claim_existing_receipt.
  eapply tx_run; [by apply tx_select_receipt_Ok|]. cbn beta iota. rewrite Hm. cbn [negb].
  rewrite (proj2 (in_progressb_spec row) Hs), Hd. cbn [is_none is_some negb].
  eapply (tx_run _ _ _ 1).
  { unfold update_claim. eapply tx_run; [by apply tx_gets_Ok|]. cbn beta iota. unfold claimable.
    rewrite N.eqb_refl, (proj2 (in_progressb_spec row) Hs), Hd, (proj2 (Z.leb_le _ _) Hexp).
    cbn [andb]. eapply (tx_run _ _ _ tt); [apply tx_constraint_Ok; split; [by apply Z.ltb_lt|done]|].
    eapply tx_run; [by apply tx_gets_Ok|]. cbn beta.
    eapply (tx_run _ _ _ tt); [by apply tx_constraint_Ok|]. by eapply (tx_run _ _ _ tt); [by apply tx_modify_Ok|]. }
  cbn [Nat.eqb]. eapply (tx_run _ _ _ tt).
  { unfold update_reservation_operation. eapply tx_run; [by apply tx_gets_Ok|]. cbv zeta.
    eapply (tx_run _ _ _ tt); [apply tx_constraint_Ok; split; [|done]|by apply tx_modify_Ok]. simpl.
    rewrite orb_true_iff, Nat.eqb_eq, Nat.leb_le. done. }
  done.
Qed.

Lemma with_claim_takeover {T : Type} env o (body : option Uuid -> Tx (Prepare T)) db row r :
  taken_over env o db row ->
  tx_result (body (Some (env_operation_id env))) (takeover_db env (op_idempotency_key o) row db) = r ->
  tx_result (with_claim self env o body) db = r.
Proof.
  intros Hto Hbody. unfold with_claim. eapply (tx_run _ _ _ tt); [by apply tx_advisory_Ok|].
  by eapply tx_run; [by apply claim_takes_over|].
Qed.
Lemma reject_parallel_run service key db :
  no_parallel service key (receipts db) ->
  tx_result (reject_parallel_operation service key) db = Ok (tt, db).
Proof.
  intros Hn. unfold reject_parallel_operation. eapply tx_run; [by apply tx_gets_Ok|].
  assert (Hnil : List.filter (fun kr => parallel_receipt service key kr.1 kr.2)
                   (map_to_list (receipts db)) = []).
  { destruct (List.filter _ _) as [|[k r] l] eqn:Hl; [done|]. exfalso.
    assert (Hin : List.In (k, r) ((k, r) :: l)) by (by left). rewrite <- Hl in Hin.
    apply filter_In in Hin as [Hin%list_elem_of_In%elem_of_map_to_list Hp]. simpl in Hp.
    apply andb_true_iff in Hp as [[Hs%N.eqb_eq Hp%in_progressb_spec]%andb_true_iff Hk].
    apply negb_true_iff, N.eqb_neq in Hk. destruct Hk. by eapply Hn. }
  by rewrite Hnil.
Qed.

Lemma takeover_no_parallel env o db row :
  receipts_ok (receipts db) -> taken_over env o db row ->
  no_parallel (op_service_instance_id o) (op_idempotency_key o)
    (receipts (takeover_db env (op_idempotency_key o) row db)).
Proof.
  intros Hok [Hrow Hm Hs _ _ _ _] k r Hr Hsv Hp. simpl in Hr.
  apply lookup_insert_Some in Hr as [[<- _]|[_ Hr]]; [done|].
  apply ReceiptRow_matches_spec in Hm. destruct_and?.
  eapply (ro_single _ Hok); [done|done|done|done|congruence].
Qed.

Lemma ensure_scope_run o organization project :
  organization = op_organization_id o -> project = op_project_id o ->
  ensure_scope o organization project = Ok tt.
Proof. intros -> ->. unfold ensure_scope. by rewrite !N.eqb_refl. Qed.

Lemma service_row_run id upd db : tx_result (fetch_service_row id upd) db = Ok (services db !! id, db).
Proof.
  unfold fetch_service_row. rewrite tx_result_bind. cbn [gets tx_result snd].
  by destruct upd, (services db !! id).
Qed.

Lemma check_existing_run command e db again physical :
  services db !! op_service_instance_id (rec_operation command) = Some e ->
  (forall id b, buckets db !! id = Some b -> bucket_checks b = true) ->
  reconcile_allowed command db again physical ->
  tx_result (check_existing_service command e) db = Ok ((again, physical), db).
Proof.
  intros He Hck Hal. unfold reconcile_allowed in Hal. rewrite He in Hal.
  destruct Hal as (Ho & Hp & Hd & (b & Hb & Hn & ->) & Hag). unfold check_existing_service.
  eapply (tx_run _ _ _ tt); [by apply tx_lift_Ok; split; [apply ensure_scope_run|]|].
  rewrite (proj2 (String.eqb_neq _ _) Hd).
  assert (Hge : (rec_generation command <? svc_desired_generation e)%Z = false).
  { destruct again; [destruct_and? Hag|]; lia. }
  rewrite Hge. destruct (fetch_bucket_total _ _ _ Hb (Hck _ _ Hb)) as (r & Hr & Hsh).
  eapply tx_run; [exact Hr|]. eapply tx_run; [by apply tx_lift_Ok|]. cbv beta zeta.
  rewrite (sb_name _ _ Hsh), Hn, String.eqb_refl, (sb_physical _ _ Hsh). cbn [negb].
  destruct again.
  - destruct Hag as (Hg & Hob & Hph & Hnm & Hspec). rewrite Hg, Z.eqb_refl, Hspec.
    eapply tx_run; [by apply tx_lift_Ok|]. cbv beta.
    rewrite Hnm, String.eqb_refl, bool_decide_true by done.
    by rewrite Hph, Hob, Z.eqb_refl.
  - by rewrite (proj2 (Z.eqb_neq _ _)) by lia.
Qed.

Lemma ready_bucket_run o db bucket :
  (forall id b, buckets db !! id = Some b -> bucket_checks b = true) ->
  service_ready o db bucket ->
  exists record, tx_result (ready_bucket_in_transaction o) db = Ok (record, db).
Proof.
  intros Hck (e & b & He & Ho & Hp & Hr & Hg & Hb & _ & Hph).
  destruct (fetch_bucket_total _ _ _ Hb (Hck _ _ Hb)) as (r & Hrun & Hsh). exists r.
  unfold ready_bucket_in_transaction. eapply tx_run; [apply service_row_run|]. rewrite He.
  eapply tx_run; [by apply tx_lift_Ok|].
  eapply (tx_run _ _ _ tt); [by apply tx_lift_Ok; split; [apply ensure_scope_run|]|].
  rewrite Hr, Hg, Z.eqb_refl. cbn [String.eqb negb orb].
  eapply tx_run; [exact Hrun|]. eapply tx_run; [by apply tx_lift_Ok|]. cbv beta.
  rewrite (sb_physical _ _ Hsh). unfold is_none. by rewrite Hph.
Qed.
Lemma forget_execute_run {T : Type} v (m : Tx (Prepare T)) db oid context db' :
  v = Ok tt -> tx_result m db = Ok (Execute oid context, db') ->
  forget_result (validated v NoFault m db) = (Ok (Execute oid tt), db').
Proof. intros -> Hm. unfold forget_result, validated, transaction. by rewrite Hm. Qed.

Lemma reconcile_again env c db row :
  receipts_ok (receipts db) -> (forall id b, buckets db !! id = Some b -> bucket_checks b = true) ->
  ReconcileCommand_validate c = Ok tt ->
  taken_over env (rec_operation c) db row -> grounds (ReconcileOp c) db ->
  exists context db', tx_result (prepare_reconcile_tx self env c) db
    = Ok (Execute (env_operation_id env) context, db').
Proof.
  intros Hok Hck Hval Hto [(again & physical & Hal) (v & Hv & Hid)]. eexists _, _.
  destruct (validated_spec_no_nul _ (ReconcileCommand_validate_spec _ Hval)) as [_ Htx].
  unfold prepare_reconcile_tx. eapply with_claim_takeover; [done|].
  eapply (tx_run _ _ _ tt); [by apply tx_lock_service_Ok|].
  eapply tx_run; [by apply reject_parallel_run, takeover_no_parallel|].
  eapply tx_run; [apply service_row_run|]. cbn beta.
  eapply (tx_run _ _ _ (again, physical)).
  { change (services (takeover_db _ _ _ _)) with (services db).
    destruct (services db !! _) as [e|] eqn:He; [by eapply check_existing_run|].
    unfold reconcile_allowed in Hal. rewrite He in Hal. by destruct Hal as [-> ->]. }
  eapply (tx_run _ _ _ tt).
  { unfold reserve_bucket_name. eapply (tx_run _ _ _ tt); [by apply tx_constraint_Ok|].
    eapply tx_run; [apply tx_gets_Ok; split; [exact Hv|done]|].
    cbn beta iota. by rewrite (proj2 (name_reserved_by_spec _ _) Hid). }
  by eapply tx_run.
Qed.

Lemma delete_again env c db row :
  receipts_ok (receipts db) -> (forall id b, buckets db !! id = Some b -> bucket_checks b = true) ->
  taken_over env (del_operation c) db row -> grounds (DeleteOp c) db ->
  exists context db', tx_result (prepare_delete_tx self env c) db
    = Ok (Execute (env_operation_id env) context, db').
Proof.
  intros Hok Hck Hto (_ & e & b & He & Ho & Hp & Hd & Hg & Hb & _ & Hph).
  destruct (fetch_bucket_total _ _ (takeover_db env (op_idempotency_key (del_operation c)) row db)
    Hb (Hck _ _ Hb)) as (r & Hrun & Hsh).
  eexists _, _. unfold prepare_delete_tx. cbv zeta. eapply with_claim_takeover; [done|].
  eapply (tx_run _ _ _ tt); [by apply tx_advisory_Ok|].
  eapply (tx_run _ _ _ tt); [by apply tx_lock_service_Ok|].
  eapply tx_run; [by apply reject_parallel_run, takeover_no_parallel|].
  eapply tx_run; [apply service_row_run|]. cbn beta.
  change (services (takeover_db _ _ _ _)) with (services db). rewrite He.
  eapply tx_run; [by apply tx_lift_Ok|].
  eapply (tx_run _ _ _ tt); [by apply tx_lift_Ok; split; [apply ensure_scope_run|]|].
  cbn beta. rewrite (proj2 (String.eqb_neq _ _) Hd), Hg.
  eapply tx_run; [by apply tx_lift_Ok|]. cbn beta. rewrite Z.ltb_irrefl, Z.eqb_refl. cbn [negb].
  eapply tx_run; [exact Hrun|]. eapply tx_run; [by apply tx_lift_Ok|]. cbn beta.
  rewrite (sb_physical _ _ Hsh). unfold is_none. rewrite Hph. cbn [negb].
  eapply tx_run; [by apply tx_gets_Ok|]. by eapply tx_run.
Qed.

(** The only reservation of an operation is the one a query for it finds. *)
Lemma head_only (t : gmap Uuid CredentialReservationRow) k v oid :
  t !! k = Some v -> has_operation oid v = true ->
  (forall k' w, t !! k' = Some w -> crr_operation_id w = oid -> k' = k) ->
  head (List.filter (has_operation oid) (snd <$> map_to_list t)) = Some v.
Proof.
  intros Hk Hv Hu. destruct (List.filter _ _) as [|w l] eqn:Hl.
  - exfalso. assert (Hin : List.In v []); [|done]. rewrite <- Hl. apply filter_In.
    split; [|done]. apply list_elem_of_In, list_elem_of_fmap.
    exists (k, v). split; [done|]. by apply elem_of_map_to_list.
  - simpl. f_equal. assert (Hin : List.In w (w :: l)) by (by left). rewrite <- Hl in Hin.
    apply filter_In in Hin as [Hin%list_elem_of_In Hw%N.eqb_eq].
    apply list_elem_of_fmap in Hin as ([k' w'] & -> & Hin%elem_of_map_to_list). simpl in *.
    assert (k' = k) as -> by eauto. congruence.
Qed.

Lemma create_again_run env c db row :
  receipts_ok (receipts db) -> credential_inv self db ->
  (forall id b, buckets db !! id = Some b -> bucket_checks b = true) ->
  taken_over env (cre_operation c) db row -> grounds (CreateOp c) db ->
  exists context db', tx_result (prepare_create_credential_tx self env c) db
    = Ok (Execute (env_operation_id env) context, db').
Proof.
  intros Hok Hci Hck Hto [(bucket & Hrd) (row0 & k & v & Hrow0 & Hv & Hop & Hm)].
  pose proof (to_row _ _ _ _ Hto) as Hrow. rewrite Hrow in Hrow0. injection Hrow0 as <-.
  set (db1 := takeover_db env (op_idempotency_key (cre_operation c)) row db).
  destruct (ready_bucket_run (cre_operation c) db1 bucket) as [record Hrun]; [done|done|].
  set (v1 := reservation_with_operation (env_operation_id env) v).
  assert (Hv1 : credential_reservations db1 !! k = Some v1).
  { simpl. unfold move_reservations. rewrite lookup_update_where, Hv. simpl.
    unfold has_operation. by rewrite Hop, N.eqb_refl. }
  assert (Hhd : head (List.filter (has_operation (env_operation_id env))
    (snd <$> map_to_list (credential_reservations db1))) = Some v1).
  { eapply (head_only _ k); [done|by apply N.eqb_eq|]. intros k' w Hw Hwo.
    eapply (moved_operation self db); [done|exact Hrow|by eapply to_fresh|exact Hw|exact Hv1|done]. }
  eexists _, _. unfold prepare_create_credential_tx. cbv zeta.
  eapply with_claim_takeover; [done|].
  eapply (tx_run _ _ _ tt); [by apply tx_advisory_Ok|].
  eapply (tx_run _ _ _ tt); [by apply tx_lock_service_Ok|].
  eapply tx_run; [exact Hrun|]. cbn beta iota.
  eapply tx_run; [by apply reject_parallel_run, takeover_no_parallel|].
  eapply tx_run; [apply tx_gets_Ok; split; [exact Hhd|done]|].
  eapply (tx_run _ _ _ tt); [by apply tx_lock_row_Ok|].
  eapply tx_run; [by apply tx_lift_Ok|]. cbn beta.
  change (CredentialReservationRow_matches v1 c) with (CredentialReservationRow_matches v c).
  by rewrite Hm.
Qed.

Lemma revoke_again env c db row :
  receipts_ok (receipts db) -> (forall id b, buckets db !! id = Some b -> bucket_checks b = true) ->
  taken_over env (rev_operation c) db row -> grounds (RevokeOp c) db ->
  exists context db', tx_result (prepare_revoke_credential_tx self env c) db
    = Ok (Execute (env_operation_id env) context, db').
Proof.
  intros Hok Hck Hto [(bucket & Hrd) (r & Hr & Hs)].
  destruct (ready_bucket_run (rev_operation c)
    (takeover_db env (op_idempotency_key (rev_operation c)) row db) bucket) as [record Hrun];
    [done|done|].
  eexists _, _. unfold prepare_revoke_credential_tx. cbv zeta.
  eapply with_claim_takeover; [done|].
  eapply (tx_run _ _ _ tt); [by apply tx_lock_service_Ok|].
  eapply tx_run; [by apply reject_parallel_run, takeover_no_parallel|].
  eapply tx_run; [exact Hrun|].
  eapply (tx_run _ _ _ (Some r)); [apply tx_gets_Ok; split; [|done]|].
  { simpl. rewrite Hr. simpl. by rewrite Hs, N.eqb_refl. }
  eapply (tx_run _ _ _ tt); [by apply tx_lock_row_Ok|]. eapply tx_run; [by apply tx_lift_Ok|]. by eapply tx_run.
Qed.
Lemma takeover_grants env c db row d :
  receipts_ok (receipts db) -> service_inv bucket_of db -> credential_inv self db ->
  command_validate c = Ok tt -> grounds c db ->
  receipts db !! op_idempotency_key (command_operation c) = Some row ->
  ReceiptRow_matches row (command_operation c) = true -> rcp_state row = in_progress ->
  rcp_lease_expires_at row = Some d -> (d <= env_clock env)%Z ->
  (rcp_lease_attempt row < i64_max)%Z ->
  operation_id_taken (op_idempotency_key (command_operation c)) (env_operation_id env)
    (receipts db) = false ->
  exists db', prepare_command self NoFault env c db = (Ok (Execute (env_operation_id env) tt), db').
Proof.
  intros Hok Hsi Hci Hv Hg Hrow Hm Hs Hd Hexp Hat Hf.
  assert (Hck : forall id b, buckets db !! id = Some b -> bucket_checks b = true).
  { intros id b Hb. by eapply bo_checks, si_bucket. }
  pose proof (takeover_ready _ _ _ _ _ Hci Hrow Hm Hs Hd Hexp Hat Hf) as Hto.
  destruct c as [c|c|c|c]; simpl in *.
  - destruct (reconcile_again _ _ _ _ Hok Hck Hv Hto Hg) as (? & db' & Hr). exists db'.
    by eapply forget_execute_run.
  - destruct (delete_again _ _ _ _ Hok Hck Hto Hg) as (? & db' & Hr). exists db'.
    by eapply forget_execute_run.
  - destruct (create_again_run _ _ _ _ Hok Hci Hck Hto Hg) as (? & db' & Hr). exists db'.
    by eapply forget_execute_run.
  - destruct (revoke_again _ _ _ _ Hok Hck Hto Hg) as (? & db' & Hr). exists db'.
    by eapply forget_execute_run.
Qed.

(** ** Progress *)

Lemma running_evolves env c db db' :
  store_step_at self bucket_of env db db' -> running c db ->
  running c db' \/ exists row, receipts db' !! op_idempotency_key (command_operation c) = Some row /\
    ReceiptRow_matches row (command_operation c) = true /\ rcp_state row <> in_progress.
Proof.
  intros Hst (row & Hrow & Hm & _).
  destruct (step_evolves _ _ _ _ _ _ _ Hst Hrow) as (row' & Hrow' & Hev).
  assert (Hm' : ReceiptRow_matches row' (command_operation c) = true).
  { pose proof (ev_identity _ _ _ Hev) as Hid. injection Hid as ? ? ? ? ? ? ?.
    rewrite ReceiptRow_matches_spec in *. destruct_and?. split_and!; congruence. }
  destruct (decide (rcp_state row' = in_progress)); [left|right]; by exists row'.
Qed.

Context (Hbucket : (0 <= max_credentials_per_bucket (credential_limits self))%Z).
Context (Htotal : (0 <= max_total_credentials (credential_limits self))%Z).

(** From a granting on, the operation keeps its grounds until it is finished,
    and then it stays finished. *)
Lemma granted_persists c db db' :
  reachable self bucket_of db -> rtc (store_step self bucket_of) db db' ->
  running c db -> grounds c db ->
  (running c db' /\ grounds c db') \/
  exists row, receipts db' !! op_idempotency_key (command_operation c) = Some row /\
    ReceiptRow_matches row (command_operation c) = true /\ rcp_state row <> in_progress.
Proof.
  intros Hreach Hrtc. revert Hreach.
  induction Hrtc as [|db1 db2 db3 [env Hst] Hrtc IH]; intros Hreach Hrun Hg; [by left|].
  assert (Hr2 : reachable self bucket_of db2) by (eapply rtc_r; [done|by exists env]).
  destruct (running_evolves _ _ _ _ Hst Hrun) as [Hrun2|(row & Hrow & Hm & Hs)].
  2:{ right. exists row. split; [|done]. by eapply done_stable. }
  apply IH; [done..|]. pose proof (store_step_effect _ _ _ _ _ Hst) as [->|Heff]; [done|].
  eapply kept_grounds; [by eapply reachable_service_inv|done|done| |done].
  destruct Hrun as (row & Hrow & Hm & Hs), Hrun2 as (row2 & Hrow2 & _ & Hs2).
  assert (op_service_instance_id (command_operation c) = rcp_service_instance_id row) as ->.
  { apply ReceiptRow_matches_spec in Hm. by destruct_and?. }
  eapply effect_keeps; try done. by eapply reachable_receipts_ok.
Qed.

Lemma lost_acknowledgement fault env c db oid u :
  (prepare_command self NoFault env c db).1 = Ok (Execute oid u) -> fault <> FailedBeforeCommit ->
  (prepare_command self fault env c db).2 = (prepare_command self NoFault env c db).2.
Proof.
  destruct c as [c|c|c|c]; simpl; unfold prepare_reconcile, prepare_delete,
    prepare_create_credential, prepare_revoke_credential, validated, transaction; 
    destruct fault; try done; case_match; try done; by destruct (tx_result _ _) as [[]|].
Qed.

(** What holds at any time after a granting. *)
Lemma granted_since `{!SerdeJsonLaws} fault env c db oid u db' :
  reachable self bucket_of db -> command_ok bucket_of c ->
  (prepare_command self NoFault env c db).1 = Ok (Execute oid u) -> fault <> FailedBeforeCommit ->
  rtc (store_step self bucket_of) (prepare_command self fault env c db).2 db' ->
  reachable self bucket_of db' /\ command_validate c = Ok tt /\
  ((running c db' /\ grounds c db') \/
   exists row, receipts db' !! op_idempotency_key (command_operation c) = Some row /\
     ReceiptRow_matches row (command_operation c) = true /\ rcp_state row <> in_progress).
Proof.
  intros Hreach Hcok Hex Hfault Hrtc. rewrite (lost_acknowledgement _ _ _ _ _ _ Hex Hfault) in Hrtc.
  destruct (prepare_command self NoFault env c db) as [p db1] eqn:Hp. simpl in Hex, Hrtc. subst p.
  assert (Hr1 : reachable self bucket_of db1).
  { eapply rtc_r; [done|]. exists env. by eapply prepare_command_step. }
  split; [unfold reachable in *; by etrans|]. split; [by destruct c; apply forget_execute in Hp as [? _]|].
  destruct (granted_grounds _ _ _ _ _ _ _ Hp) as [Hrun Hg]. by eapply granted_persists.
Qed.

(** C15. The store never leaves an operation stuck: once a command was granted,
    even if the process died before it learned so, every later retry of the same
    command can be answered.  The receipt is still there; either it is finished,
    and the retry gets the stored response, or it is in progress with a deadline:
    before the deadline the retry is told so, and from the deadline on it is
    granted the operation again, whatever happened on the service in between. *)
Theorem granted_operation_recoverable `{!SerdeJsonLaws} `{!AeadLaws} fault env c db oid u db' :
  reachable self bucket_of db -> command_ok bucket_of c ->
  (prepare_command self NoFault env c db).1 = Ok (Execute oid u) -> fault <> FailedBeforeCommit ->
  rtc (store_step self bucket_of) (prepare_command self fault env c db).2 db' ->
  exists row, receipts db' !! op_idempotency_key (command_operation c) = Some row /\
   ((exists response, forall env', prepare_command self NoFault env' c db' = (Ok (Replay response), db'))
    \/
    exists deadline, rcp_lease_expires_at row = Some deadline /\
      forall env',
       ((env_clock env' < deadline)%Z ->
        prepare_command self NoFault env' c db' = (Ok (InProgress (rcp_operation_id row)), db')) /\
       ((deadline <= env_clock env')%Z -> (rcp_lease_attempt row < i64_max)%Z ->
        operation_id_taken (op_idempotency_key (command_operation c)) (env_operation_id env')
          (receipts db') = false ->
        exists db2, prepare_command self NoFault env' c db'
                      = (Ok (Execute (env_operation_id env') tt), db2))).
Proof.
  intros Hreach Hcok Hex Hfault Hrtc.
  destruct (granted_since _ _ _ _ _ _ _ Hreach Hcok Hex Hfault Hrtc) as (Hr' & Hv & Hcase).
  pose proof (reachable_receipts_ok _ _ _ Hr') as Hok. destruct Hcase
    as [[(row & Hrow & Hm & Hs) Hg']|(row & Hrow & Hm & Hs)]; exists row; (split; [done|]).
  - right. destruct (ro_row _ Hok _ _ Hrow) as [_ Hck].
    destruct (in_progress_columns _ Hs Hck) as (_ & _ & _ & _ & Hl).
    destruct (rcp_lease_expires_at row) as [d|] eqn:Hd; [|done]. exists d. split; [done|].
    intros env'. split.
    + intros Hlt. rewrite (prepare_answer self env' c row db' Hv Hrow) by eauto.
      unfold receipt_answer. by rewrite Hm, (proj2 (in_progressb_spec row) Hs).
    + intros Hle Hat Hf. eapply takeover_grants; try done.
      * by eapply reachable_service_inv.
      * by eapply reachable_credential_inv.
  - left. destruct (reachable_decodes _ _ _ _ _ Hr' Hrow Hs) as [response Hd]. exists response.
    intros env'. rewrite (prepare_answer self env' c row db' Hv Hrow) by done.
    unfold receipt_answer. rewrite Hm, Hd. destruct (in_progressb row) eqn:Hpb; [|done].
    by apply in_progressb_spec in Hpb.
Qed.
End takeover.

(** ** A concrete takeover *)

#[local] Existing Instance sample_json.
#[local] Existing Instance sample_aead.

(** A creation whose acknowledgement was lost is granted again after the lease. *)
Lemma granted_operation_recoverable_witness :
  exists db2, prepare_command sample_store NoFault (sample_env 9 120)
    (ReconcileOp sample_reconcile) db_prepared = (Ok (Execute 109%N tt), db2).
Proof.
  destruct (@granted_operation_recoverable sample_json sample_aead sample_store sample_bucket_of
    ltac:(simpl; lia) ltac:(simpl; lia) sample_json_laws sample_aead_laws CommitAckLost
    (sample_env 1 0) (ReconcileOp sample_reconcile) empty_db 101%N tt db_prepared)
    as (row & Hrow & Hcase).
  - apply rtc_refl.
  - vm_compute. auto.
  - vm_compute. reflexivity.
  - discriminate.
  - apply rtc_refl.
  - assert (Hcols : rcp_lease_expires_at row = Some 120000000%Z /\ rcp_lease_attempt row = 1%Z).
    { vm_compute in Hrow. injection Hrow as <-. split; reflexivity. }
    destruct Hcols as [Hd Hat]. destruct Hcase as [(response & Hre)|(d & Hd' & Hag)].
    + specialize (Hre (sample_env 9 50)). apply (f_equal (fun x => match x.1 with
        | Ok (Replay _) => true | _ => false end)) in Hre. vm_compute in Hre. discriminate Hre.
    + rewrite Hd in Hd'. injection Hd' as <-. apply (Hag (sample_env 9 120)).
      * vm_compute. discriminate.
      * rewrite Hat. reflexivity.
      * vm_compute. reflexivity.
Defined.
