(* ===== verification/Refusals.v ===== *)
(** * Why the store refuses a new request

    What a [prepare] can answer to a request whose idempotency key is new, on any
    reachable database: it is granted, or refused for one of the reasons of the
    service (scope, generation, names, limits, another operation).  In particular
    no constraint of the schema is ever violated and no row is ever found corrupt:
    the validation of the commands and the invariants of the tables rule it out. *)

From stdpp Require Import relations.
From S2P Require Import Prelude RustStr Domain Auth Json StoreModels Cipher Tables Receipts ReceiptLemmas Store StoreEffects StoreStep Samples ReceiptProtocol Commands ServiceInv ServiceProps CredentialInv CredentialProps Takeover.

(** ** Transactions that may be refused *)

(** The transaction ends in [P], or fails with an error of [E]. *)
Definition outcome {A : Type} (E : StoreError -> Prop) (m : Tx A) (db : Db) (P : A -> Db -> Prop)
  : Prop :=
  match tx_result m db with Ok (a, db') => P a db' | Err e => E e end.

Lemma outcome_bind {A B : Type} E (m : Tx A) (f : A -> Tx B) db P :
  outcome E m db (fun a db' => outcome E (f a) db' P) -> outcome E (m ≫= f) db P.
Proof. unfold outcome. rewrite tx_result_bind. by destruct (tx_result m db) as [[]|]. Qed.

Lemma outcome_run {A B : Type} E (m : Tx A) (f : A -> Tx B) db a db' P :
  tx_result m db = Ok (a, db') -> outcome E (f a) db' P -> outcome E (m ≫= f) db P.
Proof. intros Hm Hf. apply outcome_bind. unfold outcome at 1. by rewrite Hm. Qed.

Lemma outcome_mono {A : Type} (E : StoreError -> Prop) (m : Tx A) db (P Q : A -> Db -> Prop) :
  outcome E m db P -> (forall a db', P a db' -> Q a db') -> outcome E m db Q.
Proof. unfold outcome. destruct (tx_result m db) as [[]|]; auto. Qed.

Lemma outcome_lift {A B : Type} E (r : result StoreError A) (f : A -> Tx B) db P :
  (forall e, r = Err e -> E e) -> (forall a, r = Ok a -> outcome E (f a) db P) ->
  outcome E (lift r ≫= f) db P.
Proof.
  intros He Hk. apply outcome_bind. unfold outcome at 1, tx_result, lift.
  destruct r; simpl; auto.
Qed.

Lemma outcome_then {A B : Type} E (m : Tx A) (f : A -> Tx B) db P :
  outcome E m db (fun _ _ => True) ->
  (forall a db', tx_result m db = Ok (a, db') -> outcome E (f a) db' P) ->
  outcome E (m ≫= f) db P.
Proof.
  intros Hm Hf. apply outcome_bind. unfold outcome in Hm |- * at 1.
  destruct (tx_result m db) as [[a db']|e]; [|done]. by apply Hf.
Qed.

Lemma outcome_guard {A : Type} E (b : bool) e (m : Tx A) db P :
  (b = true -> E e) -> (b = false -> outcome E m db P) ->
  outcome E (if b then fail e else m) db P.
Proof. intros He Hm. destruct b; [by apply He|by apply Hm]. Qed.

(** A length check in bytes implies the check in characters of a column. *)
Lemma between_bytes n s : 1 <= str_len s <= n -> between 1 n s = true.
Proof.
  intros Hs. unfold between. rewrite andb_true_iff, !Nat.leb_le.
  pose proof (char_length_le s). pose proof (char_length_pos s). lia.
Qed.

Section refusals.
Context `{SerdeJson} `{Aead}.
Context (self : PgStore).
Context (bucket_of : bytes -> string).

(** The generation a command asks for. *)
Definition command_generation (c : Command) : Z :=
  match c with
  | ReconcileOp c => rec_generation c
  | DeleteOp c => del_generation c
  | _ => 0
  end.

(** The error a deleted service answers with. *)
Definition deleted_error (c : Command) : StoreError :=
  match c with
  | ReconcileOp _ => Conflict "service instance has already been deleted"
  | DeleteOp _ => NotFound
  | _ => ServiceNotReady
  end.

(** The reasons to refuse a new request, with the error of each. *)
Inductive refusal (c : Command) (db : Db) : StoreError -> Prop :=
| refuse_parallel k r :
    receipts db !! k = Some r -> rcp_state r = in_progress ->
    rcp_service_instance_id r = op_service_instance_id (command_operation c) ->
    refusal c db (OperationInProgress (rcp_operation_id r))
| refuse_missing :
    services db !! op_service_instance_id (command_operation c) = None ->
    match c with ReconcileOp _ => False | _ => True end ->
    refusal c db NotFound
| refuse_scope s :
    services db !! op_service_instance_id (command_operation c) = Some s ->
    svc_organization_id s <> op_organization_id (command_operation c) \/
    svc_project_id s <> op_project_id (command_operation c) ->
    refusal c db (Conflict "service instance scope does not match authenticated principal")
| refuse_deleted s :
    services db !! op_service_instance_id (command_operation c) = Some s ->
    svc_phase s = "deleted" -> refusal c db (deleted_error c)
| refuse_stale s :
    services db !! op_service_instance_id (command_operation c) = Some s ->
    (command_generation c < svc_desired_generation s
       + match c with DeleteOp _ => 1 | _ => 0 end)%Z ->
    refusal c db (StaleGeneration (svc_desired_generation s) (command_generation c))
| refuse_overflow command s :
    c = DeleteOp command ->
    services db !! op_service_instance_id (del_operation command) = Some s ->
    in_i64 (svc_desired_generation s + 1) = false ->
    refusal c db (Configuration "service generation overflow")
| refuse_gap command s :
    c = DeleteOp command ->
    services db !! op_service_instance_id (del_operation command) = Some s ->
    (svc_desired_generation s + 1 < del_generation command)%Z ->
    refusal c db (Conflict "delete generation must immediately follow desired generation")
| refuse_renaming command b :
    c = ReconcileOp command ->
    buckets db !! op_service_instance_id (rec_operation command) = Some b ->
    bkt_bucket_name b <> spec_bucket_name (rec_spec command) ->
    refusal c db (Conflict "bucket_name is immutable after service creation")
| refuse_reuse command s :
    c = ReconcileOp command ->
    services db !! op_service_instance_id (rec_operation command) = Some s ->
    svc_desired_generation s = rec_generation command ->
    svc_name s <> rec_name command \/ spec_from_value (svc_desired_spec s) <> Some (rec_spec command) ->
    refusal c db (Conflict "generation was reused with different desired state")
| refuse_bucket_name command v :
    c = ReconcileOp command ->
    name_reservations db !! spec_bucket_name (rec_spec command) = Some v ->
    nam_service_instance_id v <> op_service_instance_id (rec_operation command) ->
    refusal c db BucketNameUnavailable
| refuse_credential_name command :
    c = CreateOp command ->
    credential_name_used (op_service_instance_id (cre_operation command)) (cre_name command) db = true ->
    refusal c db (Conflict "credential name already exists for this service")
| refuse_bucket_limit command :
    c = CreateOp command ->
    (bucket_limit self command
       <= Z.of_nat (per_bucket_count (op_service_instance_id (cre_operation command)) db))%Z ->
    refusal c db (CredentialLimitExceeded "bucket" (bucket_limit self command))
| refuse_organization_limit command :
    c = CreateOp command ->
    (organization_limit self command
       <= Z.of_nat (total_count (op_organization_id (cre_operation command)) db))%Z ->
    refusal c db (CredentialLimitExceeded "organization" (organization_limit self command))
| refuse_no_credential command :
    c = RevokeOp command ->
    (forall r, credentials db !! rev_credential_id command = Some r ->
       crd_service_instance_id r <> op_service_instance_id (rev_operation command)) ->
    refusal c db NotFound.

(** A request made for the first time, with the identifiers the store drew for it
    not in use yet. *)
Record first_request (env : Env) (c : Command) (db : Db) : Prop := {
  fr_key : receipts db !! op_idempotency_key (command_operation c) = None;
  fr_operation : operation_id_taken (op_idempotency_key (command_operation c))
    (env_operation_id env) (receipts db) = false;
  fr_hash : length (op_request_hash (command_operation c)) = 32;
  fr_credential command : c = CreateOp command ->
    credential_reservations db !! env_credential_id env = None /\
    exists v, permissions_to_value (cre_permissions command) = Some v;
}.

(** ** The shared statements *)

Lemma outcome_parallel {T : Type} c db (f : unit -> Tx T) P :
  (no_parallel (op_service_instance_id (command_operation c))
     (op_idempotency_key (command_operation c)) (receipts db) ->
   outcome (refusal c db) (f tt) db P) ->
  outcome (refusal c db)
    (reject_parallel_operation (op_service_instance_id (command_operation c))
       (op_idempotency_key (command_operation c)) ≫= f) db P.
Proof.
  intros Hk. apply outcome_bind. unfold outcome at 1.
  destruct (tx_result (reject_parallel_operation _ _) db) as [[[] db']|e] eqn:Hr.
  { apply reject_parallel_operation_Ok in Hr as [-> Hn]. by apply Hk. }
  unfold reject_parallel_operation in Hr. rewrite tx_result_bind in Hr.
  change (tx_result (gets _) db) with (@Ok StoreError _ (List.filter (fun kr => parallel_receipt
    (op_service_instance_id (command_operation c)) (op_idempotency_key (command_operation c))
    kr.1 kr.2) (map_to_list (receipts db)), db)) in Hr. cbv iota beta in Hr.
  match type of Hr with context [order_by ?le ?l] => pose proof (order_by_perm le l) as Hp;
    destruct (order_by le l) as [|[k r] rest] end; [done|].
  injection Hr as <-.
  assert (Hin : List.In (k, r) (List.filter (fun kr => parallel_receipt
    (op_service_instance_id (command_operation c)) (op_idempotency_key (command_operation c))
    kr.1 kr.2) (map_to_list (receipts db)))).
  { eapply Permutation_in; [exact Hp|by left]. }
  apply filter_In in Hin as [Hin%list_elem_of_In%elem_of_map_to_list Hpar]. simpl in Hpar.
  apply andb_true_iff in Hpar as [[Hs%N.eqb_eq Hst%in_progressb_spec]%andb_true_iff _].
  by eapply refuse_parallel.
Qed.
Lemma outcome_scope {T : Type} c s db (f : unit -> Tx T) P :
  services db !! op_service_instance_id (command_operation c) = Some s ->
  (svc_organization_id s = op_organization_id (command_operation c) ->
   svc_project_id s = op_project_id (command_operation c) ->
   outcome (refusal c db) (f tt) db P) ->
  outcome (refusal c db)
    (lift (ensure_scope (command_operation c) (svc_organization_id s) (svc_project_id s)) ≫= f) db P.
Proof.
  intros Hs Hk. apply outcome_lift.
  - intros e. unfold ensure_scope. destruct (N.eqb_spec (op_organization_id (command_operation c)) (svc_organization_id s)),
      (N.eqb_spec (op_project_id (command_operation c)) (svc_project_id s)); try done;
      intros [= <-]; eapply refuse_scope; try done; intuition congruence.
  - intros [] [Ho Hp]%ensure_scope_Ok. by apply Hk.
Qed.

(** The bucket of a service is there and readable. *)
Lemma outcome_bucket {T : Type} c id s db message (f : BucketRecord -> Tx T) P :
  service_inv bucket_of db -> services db !! id = Some s ->
  (forall b record, buckets db !! id = Some b -> shows_bucket b record ->
     is_none (br_physical_bucket_id record) = false ->
     outcome (refusal c db) (f record) db P) ->
  outcome (refusal c db)
    (fetch_bucket_row id ≫= fun found => lift (ok_or (CorruptData message) found) ≫= f) db P.
Proof.
  intros Hsi Hs Hk. destruct (so_spec _ _ _ (si_service _ _ Hsi _ _ Hs)) as (spec & b & _ & Hb & _).
  destruct (si_bucket _ _ Hsi _ _ Hb) as [_ Hck Hph _].
  destruct (fetch_bucket_total _ _ db Hb Hck) as (record & Hr & Hsh).
  eapply outcome_run; [exact Hr|]. eapply outcome_run; [by apply tx_lift_Ok|].
  apply (Hk b); [done|done|]. rewrite (sb_physical _ _ Hsh). unfold is_none. by rewrite Hph.
Qed.

Lemma reserved_checks env c db :
  command_ok bucket_of c -> command_validate c = Ok tt -> first_request env c db ->
  receipt_checks (reserved_row env (command_operation c)) = true.
Proof.
  intros Hok Hv Hfr. unfold receipt_checks. simpl. rewrite (fr_hash _ _ _ Hfr).
  assert (Hact : no_nul (op_action (command_operation c)) &&
                 between 1 128 (op_action (command_operation c)) = true).
  { destruct c; simpl in *; [destruct Hok as [-> _]|destruct Hok as [-> _]|rewrite Hok|rewrite Hok];
      vm_compute; reflexivity. }
  unfold receipt_text. cbn [reserved_row rcp_action]. rewrite Hact. cbn [andb Nat.eqb].
  assert (Hop : OperationRequest_validate (command_operation c) = Ok tt).
  { destruct c; simpl in Hv |- *; [..|done]; unfold ReconcileCommand_validate,
      DeleteCommand_validate, CreateCredentialCommand_validate in Hv;
      apply result_bind_Ok in Hv as ([] & Hv & _); done. }
  unfold OperationRequest_validate in Hop. case_match; [done|].
  destruct (op_generation (command_operation c)) as [g|]; [|done].
  destruct (Z.leb_spec g 0); [done|]. by rewrite (proj2 (Z.ltb_lt 0 g)).
Qed.

(** Reserving the receipt of a first request. *)
Lemma reserve_receipt_run env c db db1 :
  command_ok bucket_of c -> command_validate c = Ok tt -> first_request env c db ->
  receipts db1 = receipts db ->
  tx_result (reserve_receipt env (command_operation c)) db1
    = Ok (env_operation_id env, set_receipts
        (<[op_idempotency_key (command_operation c) := reserved_row env (command_operation c)]>
           (receipts db)) db1).
Proof.
  intros Hok Hv Hfr Heq. pose proof (reserved_checks _ _ _ Hok Hv Hfr) as Hck.
  unfold reserve_receipt. cbv zeta.
  eapply (tx_run _ _ _ tt); [by apply tx_constraint_mapped_Ok|].
  eapply tx_run; [by apply tx_gets_Ok|]. cbn beta.
  eapply (tx_run _ _ _ tt).
  { apply tx_constraint_mapped_Ok. split; [|done]. by rewrite Heq, (fr_key _ _ _ Hfr). }
  eapply tx_run; [by apply tx_gets_Ok|]. cbn beta.
  eapply (tx_run _ _ _ tt).
  { apply tx_constraint_mapped_Ok. split; [|done]. by rewrite Heq, (fr_operation _ _ _ Hfr). }
  eapply (tx_run _ _ _ tt); [by apply tx_modify_Ok|]. by rewrite Heq.
Qed.

Lemma outcome_first {T : Type} env c db (body : option Uuid -> Tx (Prepare T)) P :
  first_request env c db -> outcome (refusal c db) (body None) db P ->
  outcome (refusal c db) (with_claim self env (command_operation c) body) db P.
Proof.
  intros Hfr Hb. unfold with_claim. eapply (outcome_run _ _ _ _ tt); [by apply tx_advisory_Ok|].
  apply (outcome_run _ _ _ _ ClaimNew db); [|done]. unfold claim_existing_receipt.
  eapply tx_run; [apply tx_select_receipt_Ok; split; [apply (fr_key _ _ _ Hfr)|done]|]. done.
Qed.
(** ** Reconciliation *)

Lemma outcome_check `{!SerdeJsonLaws} c e db :
  service_inv bucket_of db -> services db !! op_service_instance_id (rec_operation c) = Some e ->
  outcome (refusal (ReconcileOp c) db) (check_existing_service c e) db (fun _ _ => True).
Proof.
  intros Hsi He. pose proof (si_service _ _ Hsi _ _ He) as Hso. unfold check_existing_service.
  cbv zeta. apply (outcome_scope (ReconcileOp c)); [done|]. intros Ho Hp. simpl.
  apply outcome_guard; intros Hdel.
  { apply String.eqb_eq in Hdel. by eapply (refuse_deleted (ReconcileOp c)). }
  apply outcome_guard; intros Hst.
  { eapply (refuse_stale (ReconcileOp c)); [done|]. simpl. lia. }
  eapply outcome_bucket; [done|done|]. intros b record Hb Hsh _.
  apply outcome_guard; intros Hn.
  { apply negb_true_iff, String.eqb_neq in Hn. rewrite (sb_name _ _ Hsh) in Hn.
    by eapply refuse_renaming. }
  destruct (Z.eqb_spec (rec_generation c) (svc_desired_generation e)) as [Hg|]; [|done].
  destruct (so_spec _ _ _ Hso) as (spec & _ & Hspec & _). apply spec_from_to_value in Hspec.
  rewrite Hspec. eapply outcome_run; [by apply tx_lift_Ok|]. cbn beta.
  apply outcome_guard; intros Hs.
  { eapply refuse_reuse; [done|done|done|]. rewrite Hspec.
    apply orb_true_iff in Hs as [Hs|Hs]; apply negb_true_iff in Hs.
    - left. by apply String.eqb_neq.
    - right. apply bool_decide_eq_false in Hs. congruence. }
  apply outcome_guard; intros Hr; [|done]. exfalso. apply String.eqb_neq in Hdel.
  rewrite (so_observed _ _ _ Hso), <- Hg, Z.eqb_refl, orb_false_r in Hr.
  apply negb_true_iff, String.eqb_neq in Hr. by destruct (so_phase _ _ _ Hso).
Qed.

(** A service that may be reconciled under a name holds that name or none. *)
Lemma name_free c again physical db n v :
  service_inv bucket_of db -> reconcile_allowed c db again physical ->
  receipts db !! op_idempotency_key (rec_operation c) = None ->
  no_parallel (op_service_instance_id (rec_operation c)) (op_idempotency_key (rec_operation c))
    (receipts db) ->
  name_reservations db !! n = Some v ->
  nam_service_instance_id v = op_service_instance_id (rec_operation c) ->
  reserved_name db (spec_bucket_name (rec_spec c)) (op_service_instance_id (rec_operation c)).
Proof.
  intros Hsi Hal Hkey Hpar Hv Hid. unfold reconcile_allowed in Hal.
  destruct (services db !! _) as [e|] eqn:He.
  - destruct Hal as (_ & _ & Hd & (b & Hb & Hbn & _) & _). apply (si_live _ _ Hsi).
    destruct (so_phase _ _ _ (si_service _ _ Hsi _ _ He)); [|done]. by exists e, b.
  - exfalso. destruct (si_reserved _ _ Hsi _ _ Hv) as [(s & b & Hs & _)|(_ & i & Hp & _ & Hi & _)].
    + congruence.
    + destruct Hp as (k & r & Hr & Hst & <-).
      pose proof (Hpar k r Hr ltac:(simpl in *; congruence) Hst) as ->. congruence.
Qed.

Lemma reconcile_name_length c :
  ReconcileCommand_validate c = Ok tt -> between 3 63 (spec_bucket_name (rec_spec c)) = true.
Proof.
  intros Hv%ReconcileCommand_validate_spec%validated_spec_fits. destruct Hv as (_ & _ & Hn & _). unfold between. rewrite andb_true_iff, !Nat.leb_le. done.
Qed.

Lemma prepare_reconcile_outcome `{!SerdeJsonLaws} env c db :
  service_inv bucket_of db -> command_ok bucket_of (ReconcileOp c) ->
  ReconcileCommand_validate c = Ok tt -> first_request env (ReconcileOp c) db ->
  outcome (refusal (ReconcileOp c) db) (prepare_reconcile_tx self env c) db
    (fun p _ => exists context, p = Execute (env_operation_id env) context).
Proof.
  intros Hsi Hok Hv Hfr. unfold prepare_reconcile_tx. cbv zeta.
  apply (outcome_first env (ReconcileOp c)); [done|]. simpl.
  eapply (outcome_run _ _ _ _ tt); [by apply tx_lock_service_Ok|].
  apply (outcome_parallel (ReconcileOp c)). intros Hpar. simpl in Hpar.
  eapply outcome_run; [apply service_row_run|]. cbn beta.
  apply outcome_then.
  { destruct (services db !! _) as [e|] eqn:He; [by apply outcome_check|done]. }
  intros x db1 Hx. apply reconcile_checks in Hx as [-> Hal].
  apply outcome_then.
  { unfold reserve_bucket_name.
    destruct (validated_spec_no_nul _ (ReconcileCommand_validate_spec _ Hv)) as [_ Htx].
    eapply (outcome_run _ _ _ _ tt); [by apply tx_constraint_Ok|].
    eapply outcome_run; [by apply tx_gets_Ok|]. cbn beta.
    destruct (name_reservations db !! _) as [v|] eqn:Hn.
    - destruct (name_reserved_by _ v) eqn:Hby; [done|].
      eapply refuse_bucket_name; [done|done|]. by apply N.eqb_neq.
    - pose proof (reconcile_name_length _ Hv) as Hlen.
      eapply (outcome_run _ _ _ _ tt); [by apply tx_constraint_Ok|].
      eapply outcome_run; [by apply tx_gets_Ok|]. cbn beta.
      eapply (outcome_run _ _ _ _ tt); [|done]. apply tx_constraint_Ok. split; [|done].
      apply negb_true_iff, map_existsb_false. intros n v Hnv. apply N.eqb_neq. intros Hid.
      destruct (name_free _ _ _ _ _ _ Hsi Hal (fr_key _ _ _ Hfr) Hpar Hnv Hid) as (w & Hw & _).
      congruence. }
  intros [] db2 Hres. apply reserve_bucket_name_Ok in Hres as (nm & _ & ->).
  eapply outcome_run; [by apply (reserve_receipt_run env (ReconcileOp c) db)|].
  by eexists.
Qed.
(** ** Deletion *)

Lemma prepare_delete_outcome env c db :
  service_inv bucket_of db -> command_ok bucket_of (DeleteOp c) ->
  DeleteCommand_validate c = Ok tt -> first_request env (DeleteOp c) db ->
  outcome (refusal (DeleteOp c) db) (prepare_delete_tx self env c) db
    (fun p _ => exists context, p = Execute (env_operation_id env) context).
Proof.
  intros Hsi Hok Hv Hfr. unfold prepare_delete_tx. cbv zeta.
  apply (outcome_first env (DeleteOp c)); [done|]. simpl.
  eapply (outcome_run _ _ _ _ tt); [by apply tx_advisory_Ok|].
  eapply (outcome_run _ _ _ _ tt); [by apply tx_lock_service_Ok|].
  apply (outcome_parallel (DeleteOp c)). intros Hpar.
  eapply outcome_run; [apply service_row_run|]. cbn beta. apply outcome_lift.
  { intros e He. destruct (services db !! _) as [s|] eqn:Hs; [done|]. injection He as <-.
    by apply refuse_missing. }
  intros s Hs%ok_or_Ok. apply (outcome_scope (DeleteOp c)); [done|]. intros Ho Hp. simpl.
  apply outcome_guard; intros Hdel.
  { apply String.eqb_eq in Hdel. by eapply (refuse_deleted (DeleteOp c)). }
  apply outcome_lift.
  { unfold i64_checked_add. intros e He. destruct (in_i64 _) eqn:Hi; [done|]. injection He as <-.
    by eapply refuse_overflow. }
  intros g Hg%ok_or_Ok%i64_checked_add_Some. subst g.
  apply outcome_guard; intros Hst.
  { eapply (refuse_stale (DeleteOp c)); [done|]. simpl. lia. }
  apply outcome_guard; intros Hgap.
  { eapply refuse_gap; [done|done|]. apply negb_true_iff in Hgap. lia. }
  eapply outcome_bucket; [done|done|]. intros b record Hb Hsh Hph. rewrite Hph.
  eapply outcome_run; [by apply tx_gets_Ok|].
  eapply outcome_run; [by apply (reserve_receipt_run env (DeleteOp c) db)|].
  by eexists.
Qed.

(** ** Credentials *)

Lemma outcome_ready {T : Type} c db (f : BucketRecord -> Tx T) P :
  service_inv bucket_of db ->
  match c with CreateOp _ | RevokeOp _ => True | _ => False end ->
  (forall record, service_ready (command_operation c) db record ->
     outcome (refusal c db) (f record) db P) ->
  outcome (refusal c db) (ready_bucket_in_transaction (command_operation c) ≫= f) db P.
Proof.
  intros Hsi Hc Hk. apply outcome_then.
  2:{ intros record db' [-> Hr]%ready_bucket_Ok. by apply Hk. }
  unfold ready_bucket_in_transaction. cbv zeta. 
  eapply outcome_run; [apply service_row_run|]. cbn beta. apply outcome_lift.
  { intros e He. destruct (services db !! _) as [s|] eqn:Hs; [done|]. injection He as <-.
    apply refuse_missing; [done|]. by destruct c. }
  intros s Hs%ok_or_Ok. apply outcome_scope; [done|]. intros Ho Hp.
  apply outcome_guard; intros Hr.
  { replace ServiceNotReady with (deleted_error c) by (by destruct c).
    eapply refuse_deleted; [done|]. pose proof (si_service _ _ Hsi _ _ Hs) as Hso.
    rewrite (so_observed _ _ _ Hso), Z.eqb_refl, orb_false_r in Hr.
    apply negb_true_iff, String.eqb_neq in Hr. by destruct (so_phase _ _ _ Hso). }
  eapply outcome_bucket; [done|done|]. intros b record Hb Hsh Hph. by rewrite Hph.
Qed.

Lemma prepare_revoke_outcome env c db :
  service_inv bucket_of db -> command_ok bucket_of (RevokeOp c) ->
  command_validate (RevokeOp c) = Ok tt -> first_request env (RevokeOp c) db ->
  outcome (refusal (RevokeOp c) db) (prepare_revoke_credential_tx self env c) db
    (fun p _ => exists context, p = Execute (env_operation_id env) context).
Proof.
  intros Hsi Hok Hv Hfr. unfold prepare_revoke_credential_tx. cbv zeta.
  apply (outcome_first env (RevokeOp c)); [done|]. simpl.
  eapply (outcome_run _ _ _ _ tt); [by apply tx_lock_service_Ok|].
  apply (outcome_parallel (RevokeOp c)). intros Hpar.
  apply (outcome_ready (RevokeOp c)); [done|done|]. intros record Hrd.
  eapply outcome_run; [by apply tx_gets_Ok|]. cbn beta.
  eapply (outcome_run _ _ _ _ tt); [by apply tx_lock_row_Ok|]. apply outcome_lift.
  { intros e He. destruct (credentials db !! _) as [r|] eqn:Hr; simpl in He.
    - destruct (N.eqb_spec (crd_service_instance_id r) (op_service_instance_id (rev_operation c)));
        [done|]. injection He as <-. eapply refuse_no_credential; [done|]. intros; congruence.
    - injection He as <-. eapply refuse_no_credential; [done|]. intros; congruence. }
  intros row _. eapply outcome_run; [by apply (reserve_receipt_run env (RevokeOp c) db)|].
  by eexists.
Qed.

Lemma created_name_valid c :
  CreateCredentialCommand_validate c = Ok tt ->
  1 <= str_len (cre_name c) <= 128 /\ no_nul (cre_name c) = true.
Proof.
  unfold CreateCredentialCommand_validate. intros Hv.
  apply result_bind_Ok in Hv as (_ & _ & Hv). apply result_bind_Ok in Hv as (_ & _ & Hv).
  apply map_err_Ok, CredentialSpec_validate_Ok in Hv as [Hn _].
  apply validate_human_name_Ok in Hn as (Hn & Hctl & _). split; [done|by apply no_control_no_nul].
Qed.

Lemma reservation_checks_hold `{!SerdeJsonLaws} env c permissions :
  CreateCredentialCommand_validate c = Ok tt ->
  permissions_to_value (cre_permissions c) = Some permissions ->
  credential_reservation_checks (reservation_row env c (env_operation_id env) permissions) = true.
Proof.
  intros [Hn Htx]%created_name_valid Hp. unfold credential_reservation_checks, credential_reservation_text. simpl.
  rewrite (permissions_to_value_object _ _ Hp), (permissions_to_value_no_nuls _ _ Hp), !andb_true_r.
  by rewrite Htx, between_bytes.
Qed.

(** The reservation of a first creation meets every constraint of its table. *)
Lemma insert_reservation_run `{!SerdeJsonLaws} env c db t permissions bucket :
  credential_inv self db -> CreateCredentialCommand_validate c = Ok tt ->
  first_request env (CreateOp c) db -> service_ready (cre_operation c) db bucket ->
  permissions_to_value (cre_permissions c) = Some permissions ->
  credential_name_used (op_service_instance_id (cre_operation c)) (cre_name c) db = false ->
  exists db', tx_result (insert_reservation (reservation_row env c (env_operation_id env) permissions))
    (set_receipts t db) = Ok (tt, db').
Proof.
  intros Hci Hv Hfr (e & b & He & Ho & Hp & _) Hperm Hname.
  destruct (fr_credential _ _ _ Hfr c eq_refl) as [Hid _].
  assert (Hop : map_existsb (fun _ r => has_operation (env_operation_id env) r)
                  (credential_reservations db) = false).
  { apply map_existsb_false. intros k v Hk. apply N.eqb_neq. intros Heq.
    destruct (vo_owned _ _ _ (ci_reservation _ _ Hci _ _ Hk)) as (k' & r & Hr & _ & Hro & _).
    pose proof (fr_operation _ _ _ Hfr) as Hf. rewrite operation_id_taken_false in Hf.
    pose proof (Hf k' r Hr ltac:(congruence)) as ->. pose proof (fr_key _ _ _ Hfr). congruence. }
  apply orb_false_iff in Hname as [_ Hname].
  eexists. unfold insert_reservation. cbn [reservation_row crr_credential_id crr_operation_id
    crr_service_instance_id crr_organization_id crr_project_id crr_name].
  eapply (tx_run _ _ _ tt).
  { apply tx_constraint_mapped_Ok. split; [by apply reservation_checks_hold|done]. }
  eapply tx_run; [by apply tx_gets_Ok|]. eapply (tx_run _ _ _ tt).
  { apply tx_constraint_mapped_Ok. split; [|done]. simpl. by rewrite ?Hid. }
  eapply tx_run; [by apply tx_gets_Ok|]. eapply (tx_run _ _ _ tt).
  { apply tx_constraint_mapped_Ok. split; [|done]. simpl. by rewrite ?Hop. }
  eapply tx_run; [by apply tx_gets_Ok|]. eapply (tx_run _ _ _ tt).
  { apply tx_constraint_mapped_Ok. split; [|done]. simpl. by rewrite ?Hname. }
  eapply tx_run; [by apply tx_gets_Ok|]. eapply (tx_run _ _ _ tt).
  { apply tx_constraint_mapped_Ok. split; [|done]. unfold service_scope_exists. simpl.
    by rewrite He, Ho, Hp, !N.eqb_refl. }
  by apply tx_modify_Ok.
Qed.

Lemma prepare_create_outcome `{!SerdeJsonLaws} env c db :
  service_inv bucket_of db -> credential_inv self db -> command_ok bucket_of (CreateOp c) ->
  CreateCredentialCommand_validate c = Ok tt -> first_request env (CreateOp c) db ->
  outcome (refusal (CreateOp c) db) (prepare_create_credential_tx self env c) db
    (fun p _ => exists context, p = Execute (env_operation_id env) context).
Proof.
  intros Hsi Hci Hok Hv Hfr. destruct (fr_credential _ _ _ Hfr c eq_refl) as [_ [permissions Hperm]].
  unfold prepare_create_credential_tx. cbv zeta.
  apply (outcome_first env (CreateOp c)); [done|]. simpl.
  eapply (outcome_run _ _ _ _ tt); [by apply tx_advisory_Ok|].
  eapply (outcome_run _ _ _ _ tt); [by apply tx_lock_service_Ok|].
  apply (outcome_ready (CreateOp c)); [done|done|]. intros record Hrd.
  destruct (created_name_valid _ Hv) as [_ Htx].
  eapply (outcome_run _ _ _ _ tt); [by apply tx_constraint_Ok|].
  eapply outcome_run; [by apply tx_gets_Ok|]. cbn beta.
  apply outcome_guard; intros Hname; [by eapply refuse_credential_name|].
  eapply outcome_run; [by apply tx_gets_Ok|]. cbn beta.
  apply outcome_guard; intros Hb.
  { eapply refuse_bucket_limit; [done|]. unfold bucket_limit. lia. }
  eapply outcome_run; [by apply tx_gets_Ok|]. cbn beta.
  apply outcome_guard; intros Ht.
  { eapply refuse_organization_limit; [done|]. unfold organization_limit. lia. }
  apply (outcome_parallel (CreateOp c)). intros Hpar.
  eapply outcome_run; [by apply (reserve_receipt_run env (CreateOp c) db)|]. cbn beta.
  rewrite Hperm. eapply outcome_run; [by apply tx_lift_Ok|]. cbn beta.
  destruct (insert_reservation_run env c db (<[op_idempotency_key (command_operation (CreateOp c))
    := reserved_row env (command_operation (CreateOp c))]> (receipts db)) permissions record)
    as [db' Hins]; [done..|].
  eapply outcome_run; [exact Hins|]. by eexists.
Qed.

Lemma outcome_prepared {T : Type} c v (m : Tx (Prepare T)) oid db :
  v = Ok tt -> outcome (refusal c db) m db (fun p _ => exists context, p = Execute oid context) ->
  (exists db', forget_result (validated v NoFault m db) = (Ok (Execute oid tt), db')) \/
  exists e, forget_result (validated v NoFault m db) = (Err e, db) /\ refusal c db e.
Proof.
  intros -> Hm. unfold outcome in Hm. unfold forget_result, validated, transaction.
  destruct (tx_result m db) as [[p db']|e]; [left|right].
  - destruct Hm as [context ->]. by exists db'.
  - by exists e.
Qed.

Context (Hbucket : (0 <= max_credentials_per_bucket (credential_limits self))%Z).
Context (Htotal : (0 <= max_total_credentials (credential_limits self))%Z).

(** C23. A valid request with a new idempotency key is granted, or it is refused
    for a reason of the service (another operation in progress, a missing,
    foreign or deleted service, an outdated or inconsistent generation, a name
    that is taken, a limit that is reached, an unknown credential) with the error
    that names this reason, and the tables stay as they are.  No request ever
    violates a constraint of the database or finds corrupt data. *)
Theorem first_request_decided `{!SerdeJsonLaws} env c db :
  reachable self bucket_of db -> command_ok bucket_of c -> command_validate c = Ok tt ->
  first_request env c db ->
  (exists db', prepare_command self NoFault env c db = (Ok (Execute (env_operation_id env) tt), db'))
  \/ exists e, prepare_command self NoFault env c db = (Err e, db) /\ refusal c db e.
Proof.
  intros Hreach Hok Hv Hfr. pose proof (reachable_service_inv _ _ _ Hreach) as Hsi.
  pose proof (reachable_credential_inv _ _ _ Hbucket Htotal Hreach) as Hci.
  destruct c as [c|c|c|c]; apply outcome_prepared; try done.
  - by apply prepare_reconcile_outcome.
  - by apply prepare_delete_outcome.
  - by apply prepare_create_outcome.
  - by apply prepare_revoke_outcome.
Qed.
End refusals.

(** ** A concrete refusal *)

#[local] Existing Instance sample_json.
#[local] Existing Instance sample_aead.

(** A second credential of the same name. *)
Definition duplicate_create : CreateCredentialCommand := {|
  cre_operation := sample_operation 77 CREDENTIAL_CREATE_ACTION None;
  cre_name := cre_name sample_create;
  cre_permissions := cre_permissions sample_create;
  cre_credential_limits := cre_credential_limits sample_create |}.

Lemma first_request_decided_witness :
  exists e, prepare_command sample_store NoFault (sample_env 9 500) (CreateOp duplicate_create)
              db_created = (Err e, db_created) /\
    refusal sample_store (CreateOp duplicate_create) db_created e.
Proof.
  destruct (@first_request_decided sample_json sample_aead sample_store sample_bucket_of
    ltac:(simpl; lia) ltac:(simpl; lia) sample_json_laws (sample_env 9 500) (CreateOp duplicate_create) db_created) as [[db' Hx]|Hx].
  - apply db_created_reachable.
  - reflexivity.
  - vm_compute. reflexivity.
  - constructor; [vm_compute; reflexivity..|]. intros command [= <-].
    split; [vm_compute; reflexivity|]. eexists. vm_compute. reflexivity.
  - apply (f_equal (fun x => is_ok x.1)) in Hx. vm_compute in Hx. discriminate Hx.
  - exact Hx.
Defined.
