(* ===== verification/Completions.v ===== *)
(** * Finishing an operation

    The process that holds the lease of an operation can finish it: its completion
    succeeds, or it is refused because a row with the same unique value (a service
    name, a bucket name, a physical bucket, a key) exists elsewhere or because the
    name of the service has a NUL character; deletions and revocations are never
    refused, and a failure can always be recorded.  No check,
    no foreign key and no missing row stands in the way: they are implied by what
    the operation was granted on. *)

From stdpp Require Import relations.
From S2P Require Import Prelude RustStr Domain Auth Json StoreModels Cipher Tables Receipts ReceiptLemmas Store StoreEffects StoreStep Samples ReceiptProtocol Commands ServiceInv ServiceProps CredentialInv CredentialProps Takeover Refusals.

Section completions.
Context `{SerdeJson} `{Aead}.
Context (self : PgStore).
Context (bucket_of : bytes -> string).

(** ** The holder of a lease *)

(** The receipt of the operation is in progress under the attempt [oid]. *)
Definition holds (o : OperationRequest) (oid : Uuid) (db : Db) : Prop :=
  exists row, receipts db !! op_idempotency_key o = Some row /\
    ReceiptRow_matches row o = true /\ rcp_state row = in_progress /\ rcp_operation_id row = oid.

(** The response can be serialized and encrypted, and the audit event stored. *)
Record recordable (env : Env) (o : OperationRequest) (oid : Uuid) (response : StoredHttpResponse)
    (audit : AuditEvent) (db : Db) : Prop := {
  rd_body : exists p, to_vec (resp_body response) = Some p /\
    is_ok (ReceiptCipher_encrypt (receipt_cipher self) (env_random env) (op_idempotency_key o) oid p)
      = true;
  rd_status : (100 <= resp_status response <= 599)%Z;
  rd_audit : auditable env audit db;
}.

Lemma encrypt_nonce random key oid p n c :
  ReceiptCipher_encrypt (receipt_cipher self) random key oid p = Ok (n, c) -> length n = NONCE_BYTES.
Proof.
  unfold ReceiptCipher_encrypt, fill_nonce. intros (x & Hx & Hr)%result_bind_Ok.
  apply result_bind_Ok in Hr as (y & _ & [= <- _]). apply ok_or_Ok, fmap_Some in Hx as (r & _ & ->).
  rewrite length_take, length_app, length_replicate. lia.
Qed.

Lemma recorded_checks env response n c row :
  rcp_state row = in_progress -> receipt_checks row = true ->
  (100 <= resp_status response <= 599)%Z -> length n = NONCE_BYTES ->
  receipt_checks (recorded_row env response n c row) = true.
Proof.
  intros Hs Hck Hst Hn. pose proof (in_progress_columns row Hs Hck) as Hcol.
  unfold receipt_checks, receipt_text in *. destruct Hcol as (E1 & E2 & E3 & E4 & _). rewrite E1, E2, Hs in Hck.
  simpl in *. rewrite Hn. rewrite !andb_true_iff in *. destruct_and?.
  rewrite !Z.leb_le. unfold final_state. split_and!; try done; try lia; by destruct (resp_failed _).
Qed.

Lemma require_run o oid db :
  holds o oid db -> tx_result (require_in_progress_receipt o oid) db = Ok (tt, db).
Proof.
  intros (row & Hrow & Hm & Hs & Ho). unfold require_in_progress_receipt.
  eapply tx_run; [by apply tx_select_receipt_Ok|]. eapply tx_run; [by apply tx_lift_Ok|].
  cbn beta. rewrite identity_matches, Hm. simpl. by rewrite Ho, N.eqb_refl, Hs.
Qed.

Lemma audit_checks_hold audit :
  audit_valid audit = true -> audit_text audit = true -> audit_checks audit = true.
Proof.
  unfold audit_valid, audit_checks.
  rewrite negb_true_iff, !orb_false_iff, !negb_false_iff, !andb_true_iff. intros Hv Htx.
  destruct_and?. rewrite Nat.ltb_ge, str_is_empty_false in *.
  split_and!; try done; apply between_bytes; lia.
Qed.

(** The last statements of every completion. *)
Lemma finish_run env o oid response audit db db1 :
  holds o oid db -> (forall row, receipts db !! op_idempotency_key o = Some row ->
    receipt_checks row = true) -> recordable env o oid response audit db ->
  receipts db1 = receipts db ->
  exists t, tx_result (finish_receipt self env o oid response) db1 = Ok (tt, set_receipts t db1).
Proof.
  intros (row & Hrow & Hm & Hs & Ho) Hck [(p & Hp & He) Hst _] Heq.
  destruct (ReceiptCipher_encrypt _ _ _ _ _) as [[n c]|] eqn:Hn; [|done].
  pose proof (recorded_checks env response n c row Hs (Hck _ Hrow) Hst (encrypt_nonce _ _ _ _ _ _ Hn))
    as Hrck.
  eexists. unfold finish_receipt. rewrite <- Heq in Hrow.
  eapply tx_run; [by apply tx_select_receipt_Ok|]. eapply tx_run; [by apply tx_lift_Ok|].
  cbn beta. rewrite Hm, Ho, N.eqb_refl, (proj2 (in_progressb_spec row) Hs). cbn [negb].
  rewrite Hp. eapply tx_run; [by apply tx_lift_Ok|].
  eapply tx_run; [by apply tx_lift_Ok|]. cbn beta zeta.
  eapply (tx_run _ _ _ 1); [|by cbn [Nat.eqb negb]].
  unfold update_finish. eapply tx_run; [by apply tx_gets_Ok|]. cbn beta iota.
  rewrite Ho, N.eqb_refl, (proj2 (in_progressb_spec row) Hs). cbn [andb].
  eapply (tx_run _ _ _ tt); [by apply tx_constraint_Ok|].
  by eapply (tx_run _ _ _ tt); [by apply tx_modify_Ok|].
Qed.

Lemma audit_run env audit db db1 :
  auditable env audit db -> audit_events db1 = audit_events db ->
  exists db', tx_result (insert_audit env audit) db1 = Ok (tt, db').
Proof.
  intros (Hf & Hv & Htx) Heq. eexists. unfold insert_audit.
  eapply (tx_run _ _ _ tt); [by apply tx_require_Ok|].
  eapply (tx_run _ _ _ tt); [by apply tx_constraint_Ok; split; [apply audit_checks_hold|]|].
  rewrite <- Heq in Hf. eapply tx_run; [by apply tx_gets_Ok|]. cbn beta.
  eapply (tx_run _ _ _ tt); [by apply tx_constraint_Ok|]. by apply tx_modify_Ok.
Qed.

Lemma finish_audit_run env o oid response audit db db1 :
  receipts_ok (receipts db) -> holds o oid db -> recordable env o oid response audit db ->
  receipts db1 = receipts db -> audit_events db1 = audit_events db ->
  exists db', tx_result (finish_receipt self env o oid response ≫= fun _ => insert_audit env audit) db1
    = Ok (tt, db').
Proof.
  intros Hok Hh Hrd Hr Ha.
  destruct (finish_run env o oid response audit db db1 Hh) as [t Ht]; [|done|done|].
  { intros row Hrow. by destruct (ro_row _ Hok _ _ Hrow). }
  destruct (audit_run env audit db (set_receipts t db1)) as [db' Hdb']; [by apply Hrd|done|].
  exists db'. by eapply tx_run.
Qed.
(** ** Failures, deletions and revocations *)

Lemma fail_run env o oid response audit db :
  receipts_ok (receipts db) -> holds o oid db -> recordable env o oid response audit db ->
  exists db', tx_result (fail_operation_tx self env o oid response audit) db = Ok (tt, db').
Proof.
  intros Hok Hh Hrd. destruct (finish_run env o oid response audit db db Hh) as [t Ht]; [|done|done|].
  { intros row Hrow. by destruct (ro_row _ Hok _ _ Hrow). }
  edestruct (audit_run env audit db) as [db' Ha];
    [apply Hrd|..|exists db'; unfold fail_operation_tx; cbv zeta].
  2:{ eapply (tx_run _ _ _ tt); [by apply tx_advisory_Ok|].
      eapply (tx_run _ _ _ tt); [by apply tx_lock_service_Ok|].
      eapply tx_run; [by apply require_run|]. eapply tx_run; [exact Ht|].
      eapply (tx_run _ _ _ tt); [by apply tx_modify_Ok|].
      eapply (tx_run _ _ _ tt); [by apply tx_modify_Ok|]. exact Ha. }
  done.
Qed.

Lemma deleted_checks env g oid s :
  service_checks s = true -> (svc_desired_generation s < g)%Z ->
  service_checks (deleted_service env g oid s) = true.
Proof.
  unfold service_checks, service_text. rewrite !andb_true_iff, !Z.ltb_lt, !Z.leb_le. intros Hck Hg.
  destruct_and?. simpl. split_and!; try done; lia.
Qed.

Lemma delete_run env c oid response audit db :
  receipts_ok (receipts db) -> service_inv bucket_of db -> grounds (DeleteOp c) db ->
  holds (del_operation c) oid db -> recordable env (del_operation c) oid response audit db ->
  exists db', tx_result (complete_delete_tx self env c oid response audit) db = Ok (tt, db').
Proof.
  intros Hok Hsi (_ & s & b & Hs & Ho & Hp & Hd & Hg%i64_checked_add_Some & _) Hh Hrd.
  pose proof (si_service _ _ Hsi _ _ Hs) as Hso.
  assert (Hck : service_checks (deleted_service env (del_generation c) oid s) = true).
  { apply deleted_checks; [apply Hso|lia]. }
  edestruct (finish_audit_run env (del_operation c) oid response audit db) as [db' Hf];
    [done|done|done|..|exists db'; unfold complete_delete_tx; cbv zeta].
  3:{ eapply (tx_run _ _ _ tt); [by apply tx_lock_service_Ok|].
      eapply tx_run; [by apply require_run|].
      eapply (tx_run _ _ _ tt); [by apply tx_modify_Ok|].
      eapply (tx_run _ _ _ 1).
      { unfold update_deleted_service. eapply tx_run; [apply tx_gets_Ok; split; [exact Hs|done]|].
        cbn beta iota. rewrite Ho, Hp, !N.eqb_refl, (proj2 (String.eqb_neq _ _) Hd). cbn [andb negb].
        eapply (tx_run _ _ _ tt); [by apply tx_constraint_Ok|].
        by eapply (tx_run _ _ _ tt); [by apply tx_modify_Ok|]. }
      cbn [Nat.eqb negb]. eapply (tx_run _ _ _ tt); [by apply tx_modify_Ok|]. exact Hf. }
  all: done.
Qed.

Lemma revoke_run env c oid response audit db :
  receipts_ok (receipts db) -> grounds (RevokeOp c) db ->
  holds (rev_operation c) oid db -> recordable env (rev_operation c) oid response audit db ->
  exists db', tx_result (complete_revoke_credential_tx self env c oid response audit) db
    = Ok (tt, db').
Proof.
  intros Hok [_ (r & Hr & Hs)] Hh Hrd.
  edestruct (finish_audit_run env (rev_operation c) oid response audit db) as [db' Hf];
    [done|done|done|..|exists db'; unfold complete_revoke_credential_tx; cbv zeta].
  3:{ eapply (tx_run _ _ _ tt); [by apply tx_lock_service_Ok|].
      eapply tx_run; [by apply require_run|].
      eapply (tx_run _ _ _ 1).
      { unfold update_revoked. eapply tx_run; [by apply tx_gets_Ok|].
        cbn beta iota. rewrite Hs, N.eqb_refl.
        by eapply (tx_run _ _ _ tt); [by apply tx_modify_Ok|]. }
      cbn [Nat.eqb negb]. exact Hf. }
  all: done.
Qed.
(** ** Creations *)

(** A reserved name is not the name of a credential of the service. *)
Definition reserved_names_free (db : Db) : Prop :=
  forall k v c r, credential_reservations db !! k = Some v -> credentials db !! c = Some r ->
    crd_service_instance_id r = crr_service_instance_id v -> crd_name r <> crr_name v.

Lemma names_free_weaken db db' :
  (forall k v, credential_reservations db' !! k = Some v ->
     exists v0, credential_reservations db !! k = Some v0 /\ crr_name v0 = crr_name v /\
       crr_service_instance_id v0 = crr_service_instance_id v) ->
  (forall c r, credentials db' !! c = Some r ->
     exists r0, credentials db !! c = Some r0 /\ crd_name r0 = crd_name r /\
       crd_service_instance_id r0 = crd_service_instance_id r) ->
  reserved_names_free db -> reserved_names_free db'.
Proof.
  intros Hv Hc Hf k v c r Hk Hr Heq. destruct (Hv k v Hk) as (v0 & Hv0 & <- & Hvs).
  destruct (Hc c r Hr) as (r0 & Hr0 & <- & Hrs). eapply (Hf k v0 c r0); congruence.
Qed.

Lemma begins_names env o db t cr k v :
  begins env o db t cr -> cr !! k = Some v ->
  exists v0, credential_reservations db !! k = Some v0 /\ crr_name v0 = crr_name v /\
    crr_service_instance_id v0 = crr_service_instance_id v.
Proof.
  intros [Hn Hck Hf|row Hto] Hk; [by exists v|].
  apply moved_cases in Hk as (v0 & Hv0 & [[_ ->]|[_ ->]]); by exists v0.
Qed.

(** While an operation of a service is in progress, every reservation of the
    service is its own. *)
Lemma operation_of_service db k w o oid row env response t' :
  receipts_ok (receipts db) -> credential_inv self db ->
  finishes self env o oid response row (receipts db) t' ->
  credential_reservations db !! k = Some w ->
  op_service_instance_id o = crr_service_instance_id w -> crr_operation_id w = oid.
Proof.
  intros Hok Hci (Hrow & Hm & <- & Hs & _) Hk Heq. apply ReceiptRow_matches_spec in Hm.
  destruct_and?. destruct (vo_owned _ _ _ (ci_reservation _ _ Hci _ _ Hk))
    as (k' & r & Hr & Hst & <- & _ & Hsv & _).
  assert (k' = op_idempotency_key o) as ->; [|congruence].
  eapply (ro_single _ Hok); [done|done|done|done|congruence].
Qed.

Lemma reachable_names_free db :
  (0 <= max_credentials_per_bucket (credential_limits self))%Z ->
  (0 <= max_total_credentials (credential_limits self))%Z ->
  reachable self bucket_of db -> reserved_names_free db.
Proof.
  intros Hb Ht. apply (reachable_invariant self bucket_of); [by intros k v c r|].
  intros env db1 db2 Hreach Hf [->|Heff]%store_step_effect; [done|].
  pose proof (reachable_receipts_ok _ _ _ Hreach) as Hok.
  pose proof (reachable_credential_inv _ _ _ Hb Ht Hreach) as Hci.
  effect_cases Heff.
  - apply (names_free_weaken db1); [|by eauto|done]. intros k v. by eapply begins_names.
  - apply (names_free_weaken db1); [|by eauto|done]. intros k v. by eapply begins_names.
  - destruct Hbg as [permissions db' Hnew ->|row c r Hto Hc Hop Hm].
    + intros k v c r Hk Hr. simpl in Hk, Hr.
      apply lookup_insert_Some in Hk as [[<- <-]|[_ Hk]]; [|by eapply Hf]. simpl.
      pose proof (cn_name _ _ _ _ _ Hnew) as Hn. apply orb_false_iff in Hn as [Hn _].
      rewrite map_existsb_false in Hn. specialize (Hn c r Hr). cbv beta in Hn.
      intros Hsp Heq. by rewrite Hsp, Heq, N.eqb_refl, String.eqb_refl in Hn.
    + apply (names_free_weaken db1); [|by eauto|done]. intros k v.
      by eapply begins_names, begin_takeover.
  - apply complete_reconcile_effect in Hr as (row & t' & created & _ & Hr). destruct_and?. by subst.
  - apply complete_delete_effect in Hr as (row & t' & s & _ & _ & _ & _ & _ & _ & _ & ->).
    apply (names_free_weaken db1); [by eauto| |done]. simpl. intros c r.
    unfold revoke_all. rewrite lookup_update_where, fmap_Some. intros (r0 & Hr0 & ->).
    exists r0. split; [done|]. by destruct (active_in _ r0).
  - apply complete_create_effect in Hr
      as (row & t' & v & Hfin & Hv & Hop & Hsv & _ & _ & _ & _ & _ & _ & ->).
    intros k w c r Hk Hr. simpl in Hk, Hr. apply lookup_delete_where in Hk as [Hk Hne].
    apply lookup_insert_Some in Hr as [[<- <-]|[_ Hr]]; [|by eapply Hf]. simpl. intros Hsp _.
    assert (k = nc_id credential) as ->; [|by rewrite N.eqb_refl in Hne; simplify_eq; rewrite Hop in Hne].
    eapply (ci_operation _ _ Hci k w _ v); [done|done|]. apply N.eqb_eq in Hop. rewrite Hop.
    by eapply operation_of_service.
  - apply complete_revoke_effect in Hr as (row & t' & r0 & _ & Hr0 & _ & _ & ->).
    apply (names_free_weaken db1); [by eauto| |done]. simpl. intros c r Hr.
    apply lookup_insert_Some in Hr as [[<- <-]|[_ Hr]]; by eauto.
  - by apply renew_operation_tx_Ok in Hr as (row & _ & _ & _ & _ & ->).
  - apply fail_operation_effect in Hr as (row & t' & _ & _ & ->).
    apply (names_free_weaken db1); [|by eauto|done]. simpl.
    intros k v [Hk _]%lookup_delete_where. by exists v.
  - by apply record_usage_effect in Hr as (_ & _ & _ & _ & t & ->).
  - done.
Qed.
(** ** Completions that can be refused *)

(** Another row already has a value that must be unique. *)
Inductive clash (c : Command) (artifact : Artifact) (db : Db) : Prop :=
| clash_service_name command k s :
    c = ReconcileOp command -> services db !! k = Some s ->
    k <> op_service_instance_id (rec_operation command) ->
    svc_project_id s = op_project_id (rec_operation command) -> svc_name s = rec_name command ->
    clash c artifact db
| clash_bucket_name command k b :
    c = ReconcileOp command -> buckets db !! k = Some b ->
    k <> op_service_instance_id (rec_operation command) ->
    bkt_bucket_name b = spec_bucket_name (rec_spec command) ->
    clash c artifact db
| clash_physical_bucket command k b :
    c = ReconcileOp command -> buckets db !! k = Some b ->
    k <> op_service_instance_id (rec_operation command) ->
    bkt_physical_bucket_id b = Some (art_physical_bucket_id artifact) ->
    clash c artifact db
| clash_credential command k r :
    c = CreateOp command -> credentials db !! k = Some r ->
    k = nc_id (art_credential artifact) \/
    crd_garage_key_id r = nc_garage_key_id (art_credential artifact) \/
    crd_access_key_id r = nc_access_key_id (art_credential artifact) ->
    clash c artifact db.

(** The name of the service has a NUL character, which no column can store. *)
Definition unstorable (c : Command) : Prop :=
  match c with ReconcileOp command => no_nul (rec_name command) = false | _ => False end.

Definition refused (c : Command) (artifact : Artifact) (db : Db) (e : StoreError) : Prop :=
  (e = Conflict "resource already exists" /\ clash c artifact db) \/
  (e = Database InvalidText /\ unstorable c).

(** What the execution of a granted command brings back from Garage: an identifier
    of the bucket; or a key for the credential the store reserved, in the form the
    handlers give it. *)
Definition deliverable (c : Command) (oid : Uuid) (artifact : Artifact) (db : Db) : Prop :=
  match c with
  | ReconcileOp command =>
      1 <= str_len (art_physical_bucket_id artifact) <= 256 /\
      no_nul (art_physical_bucket_id artifact) = true /\
      exists v, spec_to_value (rec_spec command) = Some v
  | CreateOp command =>
      let new := art_credential artifact in
      new_credential_valid command new = true /\
      str_len (nc_garage_key_id new) <= 256 /\ str_len (nc_access_key_id new) <= 256 /\
      no_nul (nc_garage_key_id new) = true /\ no_nul (nc_access_key_id new) = true /\
      length (nc_secret_key_fingerprint new) = 32 /\
      (exists v, permissions_to_value (cre_permissions command) = Some v) /\
      exists v, credential_reservations db !! nc_id new = Some v /\ crr_operation_id v = oid
  | _ => True
  end.

Lemma outcome_unique {A : Type} E (b : bool) column (f : unit -> Tx A) db P :
  (b = false -> E (Conflict "resource already exists")) -> (b = true -> outcome E (f tt) db P) ->
  outcome E (constraint_mapped b (UniqueViolation column) ≫= f) db P.
Proof.
  intros He Hf. destruct b; [|by apply He].
  eapply (outcome_run _ _ _ _ tt); [by apply tx_constraint_mapped_Ok|]. by apply Hf.
Qed.

Lemma new_credential_checks `{!SerdeJsonLaws} env c new permissions :
  CreateCredentialCommand_validate c = Ok tt -> new_credential_valid c new = true ->
  str_len (nc_garage_key_id new) <= 256 -> str_len (nc_access_key_id new) <= 256 ->
  no_nul (nc_garage_key_id new) = true -> no_nul (nc_access_key_id new) = true ->
  length (nc_secret_key_fingerprint new) = 32 ->
  permissions_to_value (cre_permissions c) = Some permissions ->
  credential_checks (credential_row env c new permissions) = true.
Proof.
  intros Hv Hn Hg Ha Htg Hta Hf Hp.
  pose proof (reservation_checks_hold env c permissions Hv Hp) as Hck.
  unfold credential_reservation_checks, credential_reservation_text in Hck. simpl in Hck.
  rewrite !andb_true_iff in Hck. destruct Hck as [[[Htn Htp] Hnm] Hob].
  unfold new_credential_valid in Hn. rewrite negb_true_iff, !orb_false_iff, !negb_false_iff in Hn.
  destruct Hn as [[[[_ Hg0] Ha0] Hnn%String.eqb_eq] _]. rewrite str_is_empty_false in Hg0, Ha0.
  unfold credential_checks, credential_text. simpl.
  rewrite Hnn, Htn, Htg, Hta, Htp, Hnm, Hob, Hf. simpl.
  rewrite !between_bytes by lia. done.
Qed.
Lemma insert_credential_outcome env c artifact permissions db k v bucket :
  credential_checks (credential_row env c (art_credential artifact) permissions) = true ->
  service_ready (cre_operation c) db bucket -> reserved_names_free db ->
  credential_reservations db !! k = Some v ->
  crr_service_instance_id v = op_service_instance_id (cre_operation c) ->
  crr_name v = nc_name (art_credential artifact) ->
  outcome (refused (CreateOp c) artifact db)
    (insert_credential (credential_row env c (art_credential artifact) permissions)) db
    (fun _ db' => receipts db' = receipts db /\ audit_events db' = audit_events db).
Proof.
  intros Hck (e & b & He & Ho & Hp & _) Hfree Hv Hvs Hvn. unfold insert_credential.
  cbn [credential_row crd_id crd_garage_key_id crd_access_key_id crd_service_instance_id
    crd_organization_id crd_project_id crd_name].
  eapply (outcome_run _ _ _ _ tt); [by apply tx_constraint_mapped_Ok|].
  eapply outcome_run; [apply tx_gets_Ok; split; [reflexivity|done]|]. cbn beta.
  apply outcome_unique; intros Hid.
  { destruct (credentials db !! _) as [r|] eqn:Hr; [|done]. left. split; [done|].
    eapply clash_credential; [done|exact Hr|]. by left. }
  eapply outcome_run; [apply tx_gets_Ok; split; [reflexivity|done]|]. cbn beta.
  apply outcome_unique; intros Hkey.
  { apply negb_false_iff, map_existsb_true in Hkey as (k' & r & Hr & Hx).
    left. split; [done|]. eapply clash_credential; [done|exact Hr|].
    apply orb_true_iff in Hx. rewrite !String.eqb_eq in Hx. by right. }
  eapply outcome_run; [apply tx_gets_Ok; split; [reflexivity|done]|]. cbn beta.
  apply outcome_unique; intros Hnm.
  { exfalso. apply negb_false_iff, map_existsb_true in Hnm as (k' & r & Hr & Hx).
    apply andb_true_iff in Hx as [Hs%N.eqb_eq Hn%String.eqb_eq].
    eapply (Hfree k v k' r); [done|done|congruence|congruence]. }
  eapply outcome_run; [apply tx_gets_Ok; split; [reflexivity|done]|]. cbn beta.
  eapply (outcome_run _ _ _ _ tt); [|done]. apply tx_constraint_mapped_Ok. split; [|done].
  unfold service_scope_exists. by rewrite He, Ho, Hp, !N.eqb_refl.
Qed.

Lemma create_outcome `{!SerdeJsonLaws} env c oid artifact permissions response audit db :
  receipts_ok (receipts db) -> credential_inv self db -> reserved_names_free db ->
  CreateCredentialCommand_validate c = Ok tt -> grounds (CreateOp c) db ->
  holds (cre_operation c) oid db -> recordable env (cre_operation c) oid response audit db ->
  deliverable (CreateOp c) oid artifact db ->
  permissions_to_value (cre_permissions c) = Some permissions ->
  outcome (refused (CreateOp c) artifact db)
    (complete_create_credential_tx self env c oid (art_credential artifact) permissions response audit)
    db (fun _ _ => True).
Proof.
  intros Hok Hci Hfree Hv [[bucket Hrd] (row & k & v & Hrow & Hk & Hop & Hm)] Hh Hrec
    (Hnv & Hg & Ha & Htg & Hta & Hf & _ & (w & Hw & Hwo)) Hperm.
  pose proof Hh as (row' & Hrow' & _ & _ & Hro). rewrite Hrow in Hrow'. injection Hrow' as <-.
  assert (k = nc_id (art_credential artifact)) as ->.
  { eapply (ci_operation _ _ Hci); [done|done|congruence]. }
  unfold CredentialReservationRow_matches in Hm. rewrite !andb_true_iff in Hm.
  destruct Hm as [[[[Hms%N.eqb_eq _] _] Hmn%String.eqb_eq] _].
  pose proof (new_credential_checks env c _ permissions Hv Hnv Hg Ha Htg Hta Hf Hperm) as Hck.
  assert (Hnn : nc_name (art_credential artifact) = cre_name c).
  { unfold new_credential_valid in Hnv. rewrite negb_true_iff, !orb_false_iff, !negb_false_iff in Hnv.
    by destruct Hnv as [[_ Hnn%String.eqb_eq] _]. }
  unfold complete_create_credential_tx. cbv zeta.
  eapply (outcome_run _ _ _ _ tt); [by apply tx_advisory_Ok|].
  eapply (outcome_run _ _ _ _ tt); [by apply tx_lock_service_Ok|].
  eapply outcome_run; [by apply require_run|].
  destruct (created_name_valid _ Hv) as [_ Htx].
  eapply (outcome_run _ _ _ _ tt); [by apply tx_constraint_Ok|].
  eapply outcome_run; [apply tx_gets_Ok; split; [reflexivity|done]|]. cbn beta.
  rewrite Hk. unfold has_operation, reserved_in.
  rewrite Hop, Hro, Hms, Hmn, !N.eqb_refl, String.eqb_refl. cbn [andb negb].
  eapply outcome_bind, outcome_mono;
    [eapply (insert_credential_outcome env c artifact permissions db); by eauto; congruence|].
  intros [] db1 [Hr1 Ha1]. eapply (outcome_run _ _ _ _ tt); [by apply tx_modify_Ok|].
  edestruct (finish_audit_run env (cre_operation c) oid response audit db) as [db' Hfin];
    [done|done|done|..|unfold outcome; by rewrite Hfin]; done.
Qed.
Lemma reconcile_validated c :
  ReconcileCommand_validate c = Ok tt ->
  (0 < rec_generation c)%Z /\ between 1 120 (rec_name c) = true /\ spec_fits_database (rec_spec c).
Proof.
  unfold ReconcileCommand_validate, OperationRequest_validate. intros ([] & Ho & Hv)%result_bind_Ok.
  destruct (negb (bool_decide _)) eqn:Hg; [done|].
  apply negb_false_iff, bool_decide_eq_true in Hg. rewrite Hg in Ho.
  destruct (str_is_empty (op_action _) || _); [done|].
  destruct (str_is_empty (rec_name c) || _) eqn:Hn; [done|]. apply orb_false_iff in Hn as [Hn1 Hn2].
  apply str_is_empty_false in Hn1. apply Nat.ltb_ge in Hn2. apply map_err_Ok in Hv.
  split_and!; [|by apply between_bytes|by apply validated_spec_fits].
  destruct (Z.leb_spec (rec_generation c) 0); [done|lia].
Qed.

Lemma upsert_service_outcome `{!SerdeJsonLaws} env c oid artifact spec db again physical :
  ReconcileCommand_validate c = Ok tt -> spec_to_value (rec_spec c) = Some spec ->
  reconcile_allowed c db again physical ->
  outcome (refused (ReconcileOp c) artifact db) (upsert_service env c spec oid) db
    (fun n db' => n = 1 /\ exists created,
       db' = set_services (<[op_service_instance_id (rec_operation c) :=
               reconciled_service env c spec oid created]> (services db)) db).
Proof.
  intros Hval Hspec Hal. pose proof (reconcile_validated _ Hval) as (Hgen & Hname & _).
  destruct (validated_spec_no_nul _ (ReconcileCommand_validate_spec _ Hval)) as [Htr Htb].
  unfold upsert_service. cbv zeta.
  eapply outcome_run; [apply tx_gets_Ok; split; [reflexivity|done]|]. cbn beta.
  destruct (no_nul (rec_name c)) eqn:Htn.
  2:{ unfold outcome. rewrite tx_result_bind. unfold service_checks, service_text. simpl.
      rewrite Htn. by right. }
  eapply (outcome_run _ _ _ _ tt).
  { apply tx_constraint_mapped_Ok. split; [|done]. unfold service_checks, service_text. simpl.
    rewrite Htn, (spec_to_value_no_nuls _ _ Hspec), Htr, Htb. simpl.
    rewrite Hname, (spec_to_value_object _ _ Hspec). rewrite (proj2 (Z.ltb_lt 0 _)) by done.
    by rewrite (proj2 (Z.leb_le 0 _)) by lia. }
  assert (Hup : match services db !! op_service_instance_id (rec_operation c) with
                | Some r => service_updatable c r | None => true end = true).
  { unfold reconcile_allowed in Hal. destruct (services db !! _) as [e|]; [|done].
    destruct Hal as (Ho & Hp & Hd & _ & Hag). unfold service_updatable.
    rewrite Ho, Hp, !N.eqb_refl, (proj2 (String.eqb_neq _ _) Hd). simpl. rewrite andb_true_r.
    apply Z.leb_le. destruct again; [destruct_and? Hag|]; lia. }
  rewrite Hup. eapply outcome_run; [apply tx_gets_Ok; split; [reflexivity|done]|]. cbn beta.
  apply outcome_unique; intros Ht.
  { apply negb_false_iff, map_existsb_true in Ht as (k & s & Hs & Hx).
    apply andb_true_iff in Hx as [[Hk%negb_true_iff%N.eqb_neq Hp%N.eqb_eq]%andb_true_iff
      Hn%String.eqb_eq]. left. split; [done|]. by eapply clash_service_name. }
  eapply (outcome_run _ _ _ _ tt); [by apply tx_modify_Ok|]. split; [done|]. by eexists.
Qed.

Lemma reconciled_bucket_checks env c physical db :
  SyouyuSpec_validate (rec_spec c) = Ok tt -> 1 <= str_len physical <= 256 ->
  no_nul physical = true ->
  (forall id b, buckets db !! id = Some b -> bucket_checks b = true) ->
  bucket_checks (reconciled_bucket env c physical (spec_quota_bytes (rec_spec c))
    (spec_quota_objects (rec_spec c)) (buckets db !! op_service_instance_id (rec_operation c))) = true.
Proof.
  intros Hval Hph Htx Hck. destruct (validated_spec_no_nul _ Hval) as [Htr Htb].
  apply validated_spec_fits in Hval as (Hqb & Hqo & Hn & Hr).
  unfold bucket_checks, bucket_text. simpl. rewrite Htx, Htr, Htb. simpl.
  rewrite (between_bytes _ _ Hph). unfold between. rewrite !andb_true_iff, !Z.ltb_lt, !Z.leb_le, !Nat.leb_le.
  assert (Hused : forall b, buckets db !! op_service_instance_id (rec_operation c) = Some b ->
    (0 <= bkt_used_bytes b)%Z /\ (0 <= bkt_used_objects b)%Z).
  { intros b Hb. specialize (Hck _ _ Hb). unfold bucket_checks in Hck.
    rewrite !andb_true_iff, !Z.leb_le in Hck. by destruct_and?. }
  destruct (buckets db !! _) as [b|]; [destruct (Hused b eq_refl)|]; split_and!; lia || done.
Qed.

Lemma upsert_bucket_outcome env c artifact db db1 s :
  SyouyuSpec_validate (rec_spec c) = Ok tt ->
  1 <= str_len (art_physical_bucket_id artifact) <= 256 ->
  no_nul (art_physical_bucket_id artifact) = true ->
  (forall id b, buckets db !! id = Some b -> bucket_checks b = true) ->
  db1 = set_services (<[op_service_instance_id (rec_operation c) := s]> (services db)) db ->
  svc_organization_id s = op_organization_id (rec_operation c) ->
  svc_project_id s = op_project_id (rec_operation c) ->
  outcome (refused (ReconcileOp c) artifact db)
    (upsert_bucket env c (art_physical_bucket_id artifact) (spec_quota_bytes (rec_spec c))
       (spec_quota_objects (rec_spec c))) db1
    (fun _ db' => receipts db' = receipts db /\ audit_events db' = audit_events db).
Proof.
  intros Hval Hph Htx Hck -> Ho Hp. unfold upsert_bucket. cbv zeta.
  eapply outcome_run; [apply tx_gets_Ok; split; [reflexivity|done]|]. cbn beta. simpl buckets.
  eapply (outcome_run _ _ _ _ tt).
  { apply tx_constraint_mapped_Ok. split; [by apply reconciled_bucket_checks|done]. }
  eapply outcome_run; [apply tx_gets_Ok; split; [reflexivity|done]|]. cbn beta.
  eapply (outcome_run _ _ _ _ tt).
  { apply tx_constraint_mapped_Ok. split; [|done]. unfold service_scope_exists. simpl.
    by rewrite lookup_insert_eq, Ho, Hp, !N.eqb_refl, orb_true_r. }
  eapply outcome_run; [apply tx_gets_Ok; split; [reflexivity|done]|]. cbn beta.
  apply outcome_unique; intros Hn.
  { apply negb_false_iff, map_existsb_true in Hn as (k & b & Hb & Hx).
    apply andb_true_iff in Hx as [Hk%negb_true_iff%N.eqb_neq Hx%String.eqb_eq].
    left. split; [done|]. by eapply clash_bucket_name. }
  eapply outcome_run; [apply tx_gets_Ok; split; [reflexivity|done]|]. cbn beta.
  apply outcome_unique; intros Hi; [|done].
  apply negb_false_iff, map_existsb_true in Hi as (k & b & Hb & Hx).
  apply andb_true_iff in Hx as [Hk%negb_true_iff%N.eqb_neq Hx%bool_decide_eq_true].
  left. split; [done|]. by eapply clash_physical_bucket.
Qed.

Lemma reconcile_outcome `{!SerdeJsonLaws} env c oid artifact spec response audit db :
  receipts_ok (receipts db) -> service_inv bucket_of db ->
  ReconcileCommand_validate c = Ok tt -> grounds (ReconcileOp c) db ->
  holds (rec_operation c) oid db -> recordable env (rec_operation c) oid response audit db ->
  deliverable (ReconcileOp c) oid artifact db -> spec_to_value (rec_spec c) = Some spec ->
  outcome (refused (ReconcileOp c) artifact db)
    (complete_reconcile_tx self env c oid (art_physical_bucket_id artifact) spec
       (spec_quota_bytes (rec_spec c)) (spec_quota_objects (rec_spec c)) response audit)
    db (fun _ _ => True).
Proof.
  intros Hok Hsi Hv [(again & physical & Hal) _] Hh Hrec (Hph & Htx & _) Hspec.
  pose proof (ReconcileCommand_validate_spec _ Hv) as Hval.
  unfold complete_reconcile_tx. cbv zeta.
  eapply (outcome_run _ _ _ _ tt); [by apply tx_lock_service_Ok|].
  eapply outcome_run; [by apply require_run|].
  eapply outcome_bind, outcome_mono; [by eapply upsert_service_outcome|].
  intros n db1 [-> [created ->]]. cbn [Nat.eqb negb].
  eapply outcome_bind, outcome_mono.
  { eapply (upsert_bucket_outcome env c artifact db); [done|done|done| |reflexivity|done|done].
    intros id b Hb. by eapply bo_checks, si_bucket. }
  intros [] db2 [Hr2 Ha2]. eapply (outcome_run _ _ _ _ tt); [by apply tx_modify_Ok|].
  edestruct (finish_audit_run env (rec_operation c) oid response audit db) as [db' Hfin];
    [done|done|done|..|unfold outcome; by rewrite Hfin]; done.
Qed.
Lemma outcome_transaction c artifact (m : Tx unit) db :
  outcome (refused c artifact db) m db (fun _ _ => True) ->
  (exists db', transaction NoFault m db = (Ok tt, db')) \/
  (transaction NoFault m db = (Err (Conflict "resource already exists"), db) /\ clash c artifact db) \/
  (transaction NoFault m db = (Err (Database InvalidText), db) /\ unstorable c).
Proof.
  unfold outcome, transaction. destruct (tx_result m db) as [[[] db']|e]; [by eauto|].
  intros [[-> Hc]|[-> Hc]]; auto.
Qed.

Lemma to_i64_fits v field : (v <= i64_max)%Z -> to_i64 v field = Ok v.
Proof. intros Hv. unfold to_i64, i64_try_from_u64. by rewrite (proj2 (Z.leb_le _ _) Hv). Qed.

Lemma complete_decided `{!SerdeJsonLaws} env c oid artifact response audit db :
  receipts_ok (receipts db) -> service_inv bucket_of db -> credential_inv self db ->
  reserved_names_free db -> command_validate c = Ok tt -> grounds c db ->
  holds (command_operation c) oid db ->
  recordable env (command_operation c) oid response audit db -> deliverable c oid artifact db ->
  (exists db', complete_command self NoFault env c oid artifact response audit db = (Ok tt, db')) \/
  (complete_command self NoFault env c oid artifact response audit db
     = (Err (Conflict "resource already exists"), db) /\ clash c artifact db) \/
  (complete_command self NoFault env c oid artifact response audit db
     = (Err (Database InvalidText), db) /\ unstorable c).
Proof.
  intros Hok Hsi Hci Hfree Hv Hg Hh Hrec Hdel. destruct c as [c|c|c|c]; simpl in *.
  - pose proof (reconcile_validated _ Hv) as (_ & _ & Hqb & Hqo & _).
    pose proof Hdel as (Hph & _ & [spec Hspec]). unfold complete_reconcile.
    rewrite (proj2 (str_is_empty_false _)), (proj2 (Nat.ltb_ge _ _)), Hspec by lia. simpl.
    rewrite !to_i64_fits by lia. simpl. apply outcome_transaction. by eapply reconcile_outcome.
  - left. destruct (delete_run env c oid response audit db) as [db' Hr]; [done..|]. exists db'.
    unfold complete_delete, transaction. by rewrite Hr.
  - pose proof Hdel as (Hnv & _ & _ & _ & _ & _ & [permissions Hp] & _).
    unfold complete_create_credential. rewrite Hnv. simpl.
    assert (nc_permissions (art_credential artifact) = cre_permissions c) as ->.
    { unfold new_credential_valid in Hnv. rewrite negb_true_iff, !orb_false_iff, !negb_false_iff in Hnv.
      by destruct Hnv as [_ ?%bool_decide_eq_true]. }
    rewrite Hp. simpl. apply outcome_transaction. by eapply create_outcome.
  - left. destruct (revoke_run env c oid response audit db) as [db' Hr]; [done..|]. exists db'.
    unfold complete_revoke_credential, transaction. by rewrite Hr.
Qed.

Context (Hbucket : (0 <= max_credentials_per_bucket (credential_limits self))%Z).
Context (Htotal : (0 <= max_total_credentials (credential_limits self))%Z).

(** C16. Whoever holds the lease of a granted operation can finish it, at any time
    and whatever else happened: a failure can always be recorded, and so can a
    result, with two exceptions: another row already has a value that must be unique
    (the name of a service in the project, a bucket name, a physical bucket, the keys
    or the identifier of a credential), or the name of the service has a NUL
    character, which no column can store.  Then the completion reports the conflict,
    or the database's error, and changes nothing.  Deletions and revocations know no
    exception.  The assumptions are that the response can be serialized, encrypted and
    audited and that what Garage delivered has the form the columns require. *)
Theorem holder_can_finish `{!SerdeJsonLaws} fault env0 c db0 oid0 u db env oid artifact response audit :
  reachable self bucket_of db0 -> command_ok bucket_of c ->
  (prepare_command self NoFault env0 c db0).1 = Ok (Execute oid0 u) -> fault <> FailedBeforeCommit ->
  rtc (store_step self bucket_of) (prepare_command self fault env0 c db0).2 db ->
  holds (command_operation c) oid db ->
  recordable env (command_operation c) oid response audit db ->
  (resp_failed response = true ->
   exists db', fail_operation self NoFault env (command_operation c) oid response audit db
                 = (Ok tt, db')) /\
  (deliverable c oid artifact db ->
   (exists db', complete_command self NoFault env c oid artifact response audit db = (Ok tt, db')) \/
   (complete_command self NoFault env c oid artifact response audit db
      = (Err (Conflict "resource already exists"), db) /\ clash c artifact db) \/
   (complete_command self NoFault env c oid artifact response audit db
      = (Err (Database InvalidText), db) /\ unstorable c)).
Proof.
  intros Hreach Hcok Hex Hfault Hrtc Hh Hrec.
  destruct (granted_since self bucket_of _ _ _ _ _ _ _ Hreach Hcok Hex Hfault Hrtc)
    as (Hr & Hv & Hcase).
  pose proof (reachable_receipts_ok _ _ _ Hr) as Hok. split.
  - intros Hf. destruct (fail_run env _ oid response audit db Hok Hh Hrec) as [db' Hrun].
    exists db'. unfold fail_operation, validated, transaction. by rewrite Hf, Hrun.
  - intros Hdel. destruct Hcase as [[_ Hg]|(row & Hrow & _ & Hs)].
    + apply complete_decided; try done.
      * by eapply reachable_service_inv.
      * by eapply reachable_credential_inv.
      * by eapply reachable_names_free.
    + destruct Hh as (row' & Hrow' & _ & Hs' & _). congruence.
Qed.
End completions.

(** ** A concrete completion *)

#[local] Existing Instance sample_json.
#[local] Existing Instance sample_aead.

Lemma holder_can_finish_witness :
  exists db', complete_command sample_store NoFault (sample_env 2 1) (ReconcileOp sample_reconcile) 101
    {| art_physical_bucket_id := "phys"; art_credential := sample_credential 1 |}
    sample_response sample_audit db_prepared = (Ok tt, db').
Proof.
  destruct (@holder_can_finish sample_json sample_aead sample_store sample_bucket_of
    ltac:(simpl; lia) ltac:(simpl; lia) sample_json_laws NoFault (sample_env 1 0)
    (ReconcileOp sample_reconcile) empty_db 101%N tt db_prepared (sample_env 2 1) 101%N
    {| art_physical_bucket_id := "phys"; art_credential := sample_credential 1 |}
    sample_response sample_audit) as [_ Hfin].
  - apply rtc_refl.
  - vm_compute. auto.
  - vm_compute. reflexivity.
  - discriminate.
  - apply rtc_refl.
  - eexists. split; [vm_compute; reflexivity|]. split_and!; vm_compute; reflexivity.
  - constructor; [eexists; split; vm_compute; reflexivity|simpl; lia|].
    split; [vm_compute; reflexivity|]. split; vm_compute; reflexivity.
  - destruct Hfin as [Hok|[[Hx _]|[Hx _]]].
    + split; [vm_compute; lia|]. split; [vm_compute; reflexivity|]. eexists. vm_compute. reflexivity.
    + exact Hok.
    + apply (f_equal (fun x => is_ok x.1)) in Hx. vm_compute in Hx. discriminate Hx.
    + apply (f_equal (fun x => is_ok x.1)) in Hx. vm_compute in Hx. discriminate Hx.
Defined.

(** ** A name no column can store *)

(** The validation of a command does not look for NUL characters in the service's
    name: this one is granted, ... *)
Definition nul_command : ReconcileCommand := {|
  rec_operation := sample_operation 10 PROVIDER_RECONCILE_ACTION (Some 1%Z);
  rec_name := String Ascii.zero "svc"; rec_generation := 1; rec_spec := sample_bucket_spec |}.

(** ... its completion is refused by the database, and the operation stays in
    progress. *)
Example nul_name_stuck :
  let prepared := prepare_reconcile sample_store NoFault (sample_env 1 0) nul_command empty_db in
  let completed := complete_reconcile sample_store NoFault (sample_env 2 1) nul_command 101 "phys"
    sample_response sample_audit prepared.2 in
  match prepared.1 with Ok (Execute oid _) => Some oid | _ => None end = Some 101%N /\
  completed.1 = Err (Database InvalidText) /\
  rcp_state <$> receipts completed.2 !! 10%N = Some in_progress.
Proof. vm_compute. auto. Qed.
