(* ===== verification/Locks.v ===== *)
(** * Lock order

    The advisory locks of every store transaction are taken in one global order
    (operation, organization, service), so transactions that wait for each
    other's advisory locks never form a cycle.  The row lock of an existing receipt
    has no such order. *)

From stdpp Require Import relations.
From S2P Require Import Prelude RustStr Domain Auth Json StoreModels Cipher Tables Receipts ReceiptLemmas Store StoreEffects StoreStep Samples.

Definition is_advisory (k : LockKey) : bool :=
  match k with
  | OperationLock _ | OrganizationCredentialsLock _ | ServiceLock _ => true
  | _ => false
  end.

(** The order in which the store takes its advisory locks. *)
Definition lock_rank (k : LockKey) : nat :=
  match k with
  | OperationLock _ => 0
  | OrganizationCredentialsLock _ => 1
  | ServiceLock _ => 2
  | _ => 3
  end.

Definition advisory (l : list LockKey) : list LockKey := List.filter is_advisory l.

Lemma tx_locks_bind {A B : Type} (m : Tx A) (f : A -> Tx B) db :
  tx_locks (m ≫= f) db =
  tx_locks m db ++ match tx_result m db with Ok (a, db') => tx_locks (f a) db' | Err _ => [] end.
Proof.
  unfold tx_locks, tx_result, mbind, Tx_bind. destruct (m db) as [l [[a db']|e]]; simpl;
    [by destruct (f a db')|by rewrite app_nil_r].
Qed.

(** [takes m l]: the advisory locks of [m] are the first ones of [l]. *)
Definition takes {A : Type} (m : Tx A) (l : list LockKey) : Prop :=
  forall db, advisory (tx_locks m db) `prefix_of` l.

Lemma takes_bind {A B : Type} (m : Tx A) (f : A -> Tx B) l :
  takes m [] -> (forall a, takes (f a) l) -> takes (m ≫= f) l.
Proof.
  intros Hm Hf db. rewrite tx_locks_bind. unfold advisory. rewrite List.filter_app.
  specialize (Hm db). apply prefix_nil_inv in Hm. fold (advisory (tx_locks m db)). rewrite Hm.
  destruct (tx_result m db) as [[a db']|e]; [apply Hf|apply prefix_nil].
Qed.

Lemma takes_lock {B : Type} k (f : unit -> Tx B) l :
  takes (f tt) l -> is_advisory k = true -> takes (advisory_lock k ≫= f) (k :: l).
Proof.
  intros Hf Hk db. rewrite tx_locks_bind. unfold advisory. rewrite List.filter_app. simpl.
  rewrite Hk. simpl. apply prefix_cons, Hf.
Qed.

Lemma takes_nil {A : Type} (m : Tx A) l : takes m [] -> takes m l.
Proof. intros Hm db. specialize (Hm db). apply prefix_nil_inv in Hm. rewrite Hm. apply prefix_nil. Qed.

Lemma takes_if {A : Type} (b : bool) (m n : Tx A) l : takes m l -> takes n l -> takes (if b then m else n) l.
Proof. by destruct b. Qed.

Lemma takes_row {A : Type} k (f : unit -> Tx A) l :
  is_advisory k = false -> takes (f tt) l -> takes (take_lock k ≫= f) l.
Proof.
  intros Hk Hf db. rewrite tx_locks_bind. unfold advisory. rewrite List.filter_app. simpl.
  rewrite Hk. simpl. apply Hf.
Qed.

(** The statements that take no lock. *)
Lemma takes_ret {A : Type} (a : A) : takes (mret a : Tx A) []. Proof. by intros db. Qed.
Lemma takes_fail {A : Type} e : takes (fail e : Tx A) []. Proof. by intros db. Qed.
Lemma takes_lift {A : Type} (r : result StoreError A) : takes (lift r) []. Proof. by intros db. Qed.
Lemma takes_gets {A : Type} (f : Db -> A) : takes (gets f) []. Proof. by intros db. Qed.
Lemma takes_modify f : takes (modify f) []. Proof. by intros db. Qed.
Lemma takes_require b e : takes (require b e) []. Proof. by intros db. Qed.
Lemma takes_constraint b e : takes (constraint b e) []. Proof. by intros db. Qed.
Lemma takes_lock_row {A : Type} k (row : option A) : is_advisory k = false -> takes (lock_row k row) [].
Proof. intros Hk db. destruct row; [|done]. unfold tx_locks. simpl. by rewrite Hk. Qed.
Lemma takes_constraint_mapped b e : takes (constraint_mapped b e) []. Proof. by intros db. Qed.

(** Walk through a transaction. *)
Ltac takes_walk :=
  repeat match goal with
  | |- takes (mret _) _ => apply takes_nil, takes_ret
  | |- takes (fail _) _ => apply takes_nil, takes_fail
  | |- takes (lift _) _ => apply takes_nil, takes_lift
  | |- takes (gets _) _ => apply takes_nil, takes_gets
  | |- takes (modify _) _ => apply takes_nil, takes_modify
  | |- takes (require _ _) _ => apply takes_nil, takes_require
  | |- takes (lock_row _ _) _ => apply takes_nil, takes_lock_row; reflexivity
  | |- takes (constraint _ _) _ => apply takes_nil, takes_constraint
  | |- takes (constraint_mapped _ _) _ => apply takes_nil, takes_constraint_mapped
  | |- takes (take_lock _ ≫= _) _ => apply takes_row; [reflexivity|]
  | |- takes (advisory_lock _ ≫= _) (_ :: _) => apply takes_lock; [|reflexivity]
  | |- takes (lock_service _ ≫= _) (_ :: _) => apply takes_lock; [|reflexivity]
  | |- takes (_ ≫= _) _ => apply takes_bind; [|intros ?]
  | |- takes (if _ then _ else _) _ => apply takes_if
  | |- takes (match ?x with _ => _ end) _ => destruct x
  | |- takes (let _ := _ in _) _ => cbv zeta
  | |- takes _ _ => solve [eauto with locks]
  end.

Create HintDb locks.
#[local] Hint Resolve takes_nil : locks.

Section locks.
Context `{SerdeJson} `{Aead}.
Context (self : PgStore).

Lemma takes_select_receipt k : takes (select_receipt_for_update k) [].
Proof. unfold select_receipt_for_update. takes_walk. Qed.
Lemma takes_fetch_service id b : takes (fetch_service_row id b) [].
Proof. unfold fetch_service_row. destruct b; takes_walk. Qed.
#[local] Hint Resolve takes_select_receipt takes_fetch_service : locks.

Lemma takes_fetch_bucket id : takes (fetch_bucket_row id) [].
Proof. unfold fetch_bucket_row. takes_walk. Qed.
Lemma takes_update_claim env k o : takes (update_claim env k o) [].
Proof. unfold update_claim. takes_walk. Qed.
Lemma takes_update_reservation a b : takes (update_reservation_operation a b) [].
Proof. unfold update_reservation_operation. takes_walk. Qed.
#[local] Hint Resolve takes_fetch_bucket takes_update_claim takes_update_reservation : locks.

Lemma takes_claim env o : takes (claim_existing_receipt self env o) [].
Proof. unfold claim_existing_receipt. takes_walk. Qed.
Lemma takes_reserve env o : takes (reserve_receipt env o) [].
Proof. unfold reserve_receipt. takes_walk. Qed.
Lemma takes_require_in_progress o oid : takes (require_in_progress_receipt o oid) [].
Proof. unfold require_in_progress_receipt. takes_walk. Qed.
Lemma takes_reject service key : takes (reject_parallel_operation service key) [].
Proof. unfold reject_parallel_operation. takes_walk. Qed.
Lemma takes_update_finish env k o st s n c : takes (update_finish env k o st s n c) [].
Proof. unfold update_finish. takes_walk. Qed.
#[local] Hint Resolve takes_claim takes_reserve takes_require_in_progress takes_reject
  takes_update_finish : locks.

Lemma takes_finish env o oid response : takes (finish_receipt self env o oid response) [].
Proof. unfold finish_receipt. takes_walk. Qed.
Lemma takes_insert_audit env audit : takes (insert_audit env audit) [].
Proof. unfold insert_audit. takes_walk. Qed.
Lemma takes_update_lease env k o : takes (update_lease env k o) [].
Proof. unfold update_lease. takes_walk. Qed.
Lemma takes_reserve_name env n s : takes (reserve_bucket_name env n s) [].
Proof. unfold reserve_bucket_name. takes_walk. Qed.
Lemma takes_claimed env o c : takes (claimed_or_reserved env o c) [].
Proof. unfold claimed_or_reserved. takes_walk. Qed.
Lemma takes_check command e : takes (check_existing_service command e) [].
Proof. unfold check_existing_service. takes_walk. Qed.
Lemma takes_upsert_service env command spec oid : takes (upsert_service env command spec oid) [].
Proof. unfold upsert_service. takes_walk. Qed.
Lemma takes_upsert_bucket env command p qb qo : takes (upsert_bucket env command p qb qo) [].
Proof. unfold upsert_bucket. takes_walk. Qed.
Lemma takes_update_deleted env command oid : takes (update_deleted_service env command oid) [].
Proof. unfold update_deleted_service. takes_walk. Qed.
Lemma takes_ready_bucket o : takes (ready_bucket_in_transaction o) [].
Proof. unfold ready_bucket_in_transaction. takes_walk. Qed.
Lemma takes_insert_reservation row : takes (insert_reservation row) [].
Proof. unfold insert_reservation. takes_walk. Qed.
Lemma takes_insert_credential row : takes (insert_credential row) [].
Proof. unfold insert_credential. takes_walk. Qed.
Lemma takes_update_revoked env command : takes (update_revoked env command) [].
Proof. unfold update_revoked. takes_walk. Qed.
Lemma takes_upsert_usage env id organization project b n measured :
  takes (upsert_usage env id organization project b n measured) [].
Proof. unfold upsert_usage. takes_walk. Qed.
#[local] Hint Resolve takes_finish takes_insert_audit takes_update_lease takes_reserve_name
  takes_claimed takes_check takes_upsert_service takes_upsert_bucket takes_update_deleted
  takes_ready_bucket takes_insert_reservation takes_insert_credential takes_update_revoked
  takes_upsert_usage : locks.

Lemma takes_with_claim {T : Type} env o (body : option Uuid -> Tx (Prepare T)) l :
  (forall c, takes (body c) l) ->
  takes (with_claim self env o body) (OperationLock (op_idempotency_key o) :: l).
Proof. intros Hb. unfold with_claim, unreachable. takes_walk; apply Hb. Qed.

(** ** The methods *)

Inductive Method : Type :=
| MPrepareReconcile (command : ReconcileCommand)
| MCompleteReconcile (command : ReconcileCommand) (oid : Uuid) (physical : string) (spec : Value)
    (qb qo : Z) (response : StoredHttpResponse) (audit : AuditEvent)
| MPrepareDelete (command : DeleteCommand)
| MCompleteDelete (command : DeleteCommand) (oid : Uuid) (response : StoredHttpResponse)
    (audit : AuditEvent)
| MPrepareCreate (command : CreateCredentialCommand)
| MCompleteCreate (command : CreateCredentialCommand) (oid : Uuid) (credential : NewCredential)
    (permissions : Value) (response : StoredHttpResponse) (audit : AuditEvent)
| MPrepareRevoke (command : RevokeCredentialCommand)
| MCompleteRevoke (command : RevokeCredentialCommand) (oid : Uuid)
    (response : StoredHttpResponse) (audit : AuditEvent)
| MRenew (o : OperationRequest) (oid : Uuid)
| MFail (o : OperationRequest) (oid : Uuid) (response : StoredHttpResponse) (audit : AuditEvent)
| MUsage (organization project service : Uuid) (b n : Z) (measured : DateTime)
| MAudit (audit : AuditEvent)
| MOverview (organization project service : Uuid).

(** The locks a method asks for, in order, when it runs on [db]. *)
Definition method_locks (env : Env) (m : Method) (db : Db) : list LockKey :=
  match m with
  | MPrepareReconcile c => tx_locks (prepare_reconcile_tx self env c) db
  | MCompleteReconcile c oid p spec qb qo r a =>
      tx_locks (complete_reconcile_tx self env c oid p spec qb qo r a) db
  | MPrepareDelete c => tx_locks (prepare_delete_tx self env c) db
  | MCompleteDelete c oid r a => tx_locks (complete_delete_tx self env c oid r a) db
  | MPrepareCreate c => tx_locks (prepare_create_credential_tx self env c) db
  | MCompleteCreate c oid k p r a =>
      tx_locks (complete_create_credential_tx self env c oid k p r a) db
  | MPrepareRevoke c => tx_locks (prepare_revoke_credential_tx self env c) db
  | MCompleteRevoke c oid r a => tx_locks (complete_revoke_credential_tx self env c oid r a) db
  | MRenew o oid => tx_locks (renew_operation_tx env o oid) db
  | MFail o oid r a => tx_locks (fail_operation_tx self env o oid r a) db
  | MUsage organization project service b n measured =>
      tx_locks (record_usage_tx env organization project service b n measured) db
  | MAudit a => tx_locks (insert_audit env a) db
  | MOverview organization project service =>
      tx_locks (overview_service organization project service ≫= overview_record service) db
  end.

(** The advisory locks each method may take, in order. *)
Definition method_order (m : Method) : list LockKey :=
  let service o := ServiceLock (op_service_instance_id o) in
  let organization o := OrganizationCredentialsLock (op_organization_id o) in
  let operation o := OperationLock (op_idempotency_key o) in
  match m with
  | MPrepareReconcile c => [operation (rec_operation c); service (rec_operation c)]
  | MCompleteReconcile c _ _ _ _ _ _ _ => [service (rec_operation c)]
  | MPrepareDelete c =>
      [operation (del_operation c); organization (del_operation c); service (del_operation c)]
  | MCompleteDelete c _ _ _ => [service (del_operation c)]
  | MPrepareCreate c =>
      [operation (cre_operation c); organization (cre_operation c); service (cre_operation c)]
  | MCompleteCreate c _ _ _ _ _ => [organization (cre_operation c); service (cre_operation c)]
  | MPrepareRevoke c => [operation (rev_operation c); service (rev_operation c)]
  | MCompleteRevoke c _ _ _ => [service (rev_operation c)]
  | MRenew o _ => [operation o]
  | MFail o _ _ _ => [organization o; service o]
  | MUsage _ _ _ _ _ _ | MAudit _ | MOverview _ _ _ => []
  end.

Lemma method_takes env m db : advisory (method_locks env m db) `prefix_of` method_order m.
Proof.
  revert db. destruct m; simpl;
    lazymatch goal with |- forall db, advisory (tx_locks ?t db) `prefix_of` ?l => change (takes t l) end.
  - apply takes_with_claim. intros claimed. takes_walk.
  - unfold complete_reconcile_tx. takes_walk.
  - apply takes_with_claim. intros claimed. takes_walk.
  - unfold complete_delete_tx. takes_walk.
  - apply takes_with_claim. intros claimed. takes_walk.
  - unfold complete_create_credential_tx. takes_walk.
  - apply takes_with_claim. intros claimed. takes_walk.
  - unfold complete_revoke_credential_tx. takes_walk.
  - unfold renew_operation_tx. takes_walk.
  - unfold fail_operation_tx. takes_walk.
  - unfold record_usage_tx. takes_walk.
  - apply takes_insert_audit.
  - unfold overview_service, overview_record. takes_walk.
Qed.

(** ** Deadlock freedom *)

(** Every lock of a list has a higher rank than the ones before it. *)
Definition ranked (l : list LockKey) : Prop :=
  forall held next rest, l = held ++ next :: rest -> forall k, k ∈ held -> lock_rank k < lock_rank next.

(** A transaction that holds the advisory locks [held] and waits for [next]. *)
Definition waiting (held : list LockKey) (next : LockKey) : Prop :=
  exists env m db rest, advisory (method_locks env m db) = held ++ next :: rest.

(** The first transaction waits for a lock the second one holds while it waits
    itself. *)
Definition blocked_by (a b : list LockKey * LockKey) : Prop :=
  waiting a.1 a.2 /\ waiting b.1 b.2 /\ a.2 ∈ b.1.

Lemma sorted_ranks l : StronglySorted lt (lock_rank <$> l) -> ranked l.
Proof.
  intros Hs held next rest -> k Hk. rewrite fmap_app in Hs.
  induction held as [|h held IH]; [by apply elem_of_nil in Hk|]. simpl in Hs.
  apply StronglySorted_inv in Hs as [Hs Hall]. apply elem_of_cons in Hk as [->|Hk]; [|by apply IH].
  rewrite Forall_app, Forall_cons in Hall. tauto.
Qed.

Lemma method_order_ranked m : ranked (method_order m).
Proof. apply sorted_ranks. destruct m; simpl; repeat constructor; simpl; lia. Qed.

Lemma ranked_prefix l l' : l `prefix_of` l' -> ranked l' -> ranked l.
Proof.
  intros [k ->] Hr held next rest Heq. apply (Hr held next (rest ++ k)).
  rewrite Heq. by rewrite <- app_assoc.
Qed.

Lemma waiting_ranked held next k : waiting held next -> k ∈ held -> lock_rank k < lock_rank next.
Proof.
  intros (env & m & db & rest & Heq). pose proof (method_takes env m db) as Hp.
  eapply ranked_prefix in Hp; [|apply method_order_ranked]. by eapply Hp.
Qed.

(** C27. The advisory locks never deadlock: every store method takes them in the
    order operation, organization, service, whatever branch it runs, so
    transactions that wait for each other's advisory locks cannot form a
    cycle. *)
Theorem advisory_locks_deadlock_free a : ~ tc blocked_by a a.
Proof.
  assert (Hlt : forall x y, tc blocked_by x y -> lock_rank x.2 < lock_rank y.2).
  { intros x y Hxy. induction Hxy as [x y (_ & Hw & Hin)|x y z (_ & Hw & Hin) _ IH].
    - by eapply waiting_ranked.
    - etransitivity; [by eapply waiting_ranked|done]. }
  intros Ha. specialize (Hlt a a Ha). lia.
Qed.
End locks.

(** ** Row locks

    The row locks do not follow that order: the takeover of an operation locks the
    receipt's row before it waits for the service lock, and the completion it may
    compete with holds the service lock when it selects that row for update. *)

Section row_locks.
Context `{SerdeJson} `{Aead}.
Context (self : PgStore).

Lemma select_locks key row db :
  receipts db !! key = Some row ->
  tx_locks (select_receipt_for_update key) db = [ReceiptRowLock key].
Proof.
  intros Hr. unfold select_receipt_for_update. rewrite tx_locks_bind. unfold tx_result, gets. simpl.
  by rewrite Hr.
Qed.

Lemma claim_locks env o row db : receipts db !! op_idempotency_key o = Some row -> exists rest,
  tx_locks (claim_existing_receipt self env o) db = ReceiptRowLock (op_idempotency_key o) :: rest.
Proof.
  intros Hr. unfold claim_existing_receipt. rewrite tx_locks_bind, (select_locks _ row) by done.
  by eexists.
Qed.

(** C28. When the receipt exists, the two halves of a deletion take the receipt's
    row lock and the service lock in opposite orders: the takeover of an expired
    attempt locks the row first and the service second, every completion locks the
    service first and the row second.  A takeover that races with the late
    completion of the old attempt can therefore deadlock on the row lock (a first
    attempt finds no row to lock). *)
Theorem receipt_row_lock_inversion env command oid ctx db db' row env2 old response audit db2 row2 :
  let o := del_operation command in
  receipts db !! op_idempotency_key o = Some row ->
  tx_result (prepare_delete_tx self env command) db = Ok (Execute oid ctx, db') ->
  receipts db2 !! op_idempotency_key o = Some row2 ->
  (exists deadline, rcp_state row = in_progress /\ rcp_lease_expires_at row = Some deadline /\
     (deadline <= env_clock env)%Z) /\
  (exists before after,
     method_locks self env (MPrepareDelete command) db =
       OperationLock (op_idempotency_key o) :: ReceiptRowLock (op_idempotency_key o)
         :: before ++ ServiceLock (op_service_instance_id o) :: after) /\
  (exists after,
     method_locks self env2 (MCompleteDelete command old response audit) db2 =
       ServiceLock (op_service_instance_id o) :: ReceiptRowLock (op_idempotency_key o) :: after).
Proof.
  intros o Hrow Hrun Hrow2. apply and_assoc. split; simpl.
  - destruct (claim_locks env o row db Hrow) as (rest & Hl).
    assert (Hbody : forall T (c : Tx T) d,
      tx_locks (advisory_lock (OrganizationCredentialsLock (op_organization_id o)) ≫= fun _ =>
                lock_service (op_service_instance_id o) ≫= fun _ => c) d
      = OrganizationCredentialsLock (op_organization_id o)
          :: ServiceLock (op_service_instance_id o) :: tx_locks c d).
    { intros T c d. rewrite tx_locks_bind. unfold tx_result at 1. cbn [advisory_lock take_lock snd].
      rewrite tx_locks_bind. reflexivity. }
    unfold prepare_delete_tx, with_claim in Hrun |- *. fold o in Hrun |- *. cbv zeta in Hrun |- *.
    rewrite tx_locks_bind. tx_step Hrun Hop. apply tx_bind_Ok in Hrun as (claim & d & Hc & Hrun).
    change (tx_result (advisory_lock _) db) with (@Ok StoreError _ (tt, db)). cbv iota beta.
    rewrite tx_locks_bind, Hc, Hl.
    apply claim_existing_receipt_Ok in Hc. destruct Hc.
    + congruence.
    + simplify_eq. split; [by eauto|]. rewrite Hbody. by eexists (rest ++ [OrganizationCredentialsLock (op_organization_id o)]), _;
        rewrite <- app_assoc.
    + by apply tx_ret_Ok in Hrun as [? _].
    + by apply tx_ret_Ok in Hrun as [? _].
  - unfold complete_delete_tx. rewrite tx_locks_bind. fold o. unfold tx_result at 1.
    cbn [lock_service advisory_lock take_lock snd]. rewrite tx_locks_bind.
    unfold require_in_progress_receipt. rewrite tx_locks_bind, (select_locks _ row2) by done.
    by eexists.
Qed.
End row_locks.

#[local] Existing Instance sample_json.
#[local] Existing Instance sample_aead.

Lemma receipt_row_lock_inversion_witness :
  exists after, method_locks sample_store (sample_env 9 1000)
      (MCompleteDelete sample_delete 105 sample_response sample_audit) db_deleting
    = ServiceLock 3 :: ReceiptRowLock 11 :: after.
Proof.
  destruct (tx_result (prepare_delete_tx sample_store (sample_env 9 1000) sample_delete) db_deleting)
    as [[[oid ctx|response|oid] db']|e] eqn:Hrun;
    [|vm_compute in Hrun; discriminate Hrun..].
  destruct (receipts db_deleting !! 11%N) as [row|] eqn:Hrow; [|vm_compute in Hrow; discriminate Hrow].
  destruct (receipt_row_lock_inversion sample_store (sample_env 9 1000) sample_delete oid ctx
    db_deleting db' row (sample_env 9 1000) 105 sample_response sample_audit db_deleting row
    Hrow Hrun Hrow) as (_ & _ & Hc).
  exact Hc.
Defined.
