(* ===== verification/Routes.v ===== *)
(** * The HTTP handlers ([crates/syouyu-api/src/routes.rs])

    Every handler as a program whose effects are the calls of the two traits it
    is written against, [Repository] ([RepositoryE]) and [Garage] ([GarageE]), the
    clock and the generation of identifiers.  The extractors' results are
    arguments ([result string T]: the text of a rejection or the value). *)

From stdpp Require Import pretty.
From S2P Require Import Prelude Prog RustStr Domain Garage GarageAdapter Json Auth StoreModels PrincipalAuth ApiError StoreStep.

Definition IDEMPOTENCY_KEY : string := "idempotency-key".
Definition REQUEST_ID : string := "x-request-id".
Definition CREDENTIAL_CREATE_PERMISSION : string := "syouyu.credential.create".
Definition CREDENTIAL_READ_PERMISSION : string := "syouyu.credential.read".
Definition CREDENTIAL_REVOKE_PERMISSION : string := "syouyu.credential.revoke".
Definition OVERVIEW_READ_PERMISSION : string := "syouyu.overview.read".
Definition USAGE_READ_PERMISSION : string := "syouyu.usage.read".

(** The trait [Repository]. *)
Inductive RepositoryE : Type -> Type :=
| StoreHealth : RepositoryE (result StoreError unit)
| PrepareReconcile (command : ReconcileCommand)
    : RepositoryE (result StoreError (Prepare ReconcileContext))
| CompleteReconcile (command : ReconcileCommand) (operation_id : Uuid) (physical_bucket_id : string)
    (response : StoredHttpResponse) (audit : AuditEvent) : RepositoryE (result StoreError unit)
| PrepareDelete (command : DeleteCommand) : RepositoryE (result StoreError (Prepare DeleteContext))
| CompleteDelete (command : DeleteCommand) (operation_id : Uuid) (response : StoredHttpResponse)
    (audit : AuditEvent) : RepositoryE (result StoreError unit)
| PrepareCreateCredential (command : CreateCredentialCommand)
    : RepositoryE (result StoreError (Prepare CreateCredentialContext))
| CompleteCreateCredential (command : CreateCredentialCommand) (operation_id : Uuid)
    (credential : NewCredential) (response : StoredHttpResponse) (audit : AuditEvent)
    : RepositoryE (result StoreError unit)
| PrepareRevokeCredential (command : RevokeCredentialCommand)
    : RepositoryE (result StoreError (Prepare RevokeCredentialContext))
| CompleteRevokeCredential (command : RevokeCredentialCommand) (operation_id : Uuid)
    (response : StoredHttpResponse) (audit : AuditEvent) : RepositoryE (result StoreError unit)
| RenewOperation (operation : OperationRequest) (operation_id : Uuid)
    : RepositoryE (result StoreError unit)
| FailOperation (operation : OperationRequest) (operation_id : Uuid)
    (response : StoredHttpResponse) (audit : AuditEvent) : RepositoryE (result StoreError unit)
| ServiceOverview (organization_id project_id service_instance_id : Uuid)
    : RepositoryE (result StoreError ServiceRecord)
| ListCredentials (organization_id project_id service_instance_id : Uuid)
    : RepositoryE (result StoreError (list CredentialRecord))
| RecordUsage (organization_id project_id service_instance_id : Uuid)
    (bytes_used objects_used : Z) (measured_at : DateTime)
    : RepositoryE (result StoreError UsageRecord)
| RecordAudit (audit : AuditEvent) : RepositoryE (result StoreError unit).

(** What a handler can do. *)
Inductive ApiE : Type -> Type :=
| StoreCall {X : Type} (e : RepositoryE X) : ApiE X
| GarageCall {X : Type} (e : GarageE X) : ApiE X
| UtcNow : ApiE DateTime
| NowV7 : ApiE Uuid.

Abbreviation Handler A := (prog ApiE (result ApiError A)) (only parsing).

Definition store {A : Type} (e : RepositoryE (result StoreError A)) : Handler A :=
  prog_map_err ApiError_from_StoreError (call (StoreCall e)).
Definition garage {A : Type} (e : GarageE (result GarageBackendError A))
  : prog ApiE (result GarageBackendError A) := call (GarageCall e).
Definition ret {A : Type} (r : result ApiError A) : Handler A := Ret r.

(** [Utc::now().timestamp()]. *)
Definition unix_seconds (t : DateTime) : Z := (t / second)%Z.

(** ** Request and response bodies *)

Record ReconcileRequest : Type := {
  rr_generation : Z;
  rr_name : string;
  rr_spec : SyouyuSpec;
}.
Record DeleteQuery : Type := { dq_generation : Z }.
Record CreateCredentialRequest : Type := {
  ccr_name : string;
  ccr_permissions : BucketPermissions;
}.
Record ProviderOperationResponse : Type := {
  por_operation_id : Uuid;
  por_status : BucketStatus;
}.
Record ServiceOverviewResponse : Type := {
  sor_service_instance_id : Uuid;
  sor_name : string;
  sor_region : string;
  sor_bucket_name : string;
  sor_phase : BucketPhase;
  sor_endpoint : string;
  sor_quota : BucketQuota;
  sor_usage : BucketUsage;
  sor_active_credentials : Z;
  sor_measured_at : DateTime;
}.
Record UsageResponse : Type := {
  usr_service_instance_id : Uuid;
  usr_bytes_used : Z;
  usr_objects_used : Z;
  usr_unfinished_upload_bytes : Z;
  usr_unfinished_uploads : Z;
  usr_quota_bytes : Z;
  usr_quota_objects : Z;
  usr_measured_at : DateTime;
}.
Record CredentialResponse : Type := {
  cdr_id : Uuid;
  cdr_name : string;
  cdr_access_key_id : string;
  cdr_permissions : BucketPermissions;
  cdr_status : string;
  cdr_created_at : DateTime;
  cdr_revoked_at : option DateTime;
}.
Record IssuedCredentialResponse : Type := {
  icr_credential : CredentialResponse;
  icr_secret_access_key : string;
  icr_bucket_name : string;
  icr_endpoint : string;
}.
Record CredentialListResponse : Type := { clr_credentials : list CredentialResponse }.
Record RevokedCredentialResponse : Type := {
  rcr_credential_id : Uuid;
  rcr_status : string;
}.

Definition CredentialResponse_from (value : CredentialRecord) : CredentialResponse := {|
  cdr_id := cr_id value;
  cdr_name := cr_name value;
  cdr_access_key_id := cr_access_key_id value;
  cdr_permissions := cr_permissions value;
  cdr_status := cr_status value;
  cdr_created_at := cr_created_at value;
  cdr_revoked_at := cr_revoked_at value |}.

(** What the handlers use of [uuid], [url], [chrono], [serde_json] and [sha2]
    beyond [AuthLib] and [UrlLib]. *)
Class ApiLib `{UrlLib} : Type := {
  uuid_parse_str : string -> option Uuid;
  url_to_string : Url -> string;
  datetime_to_string : DateTime -> string;
  (** [serde_json::to_vec] of a [ReconcileRequest] and of a [Value]. *)
  reconcile_request_to_vec : ReconcileRequest -> option bytes;
  value_to_vec : Value -> option bytes;
  sha256 : bytes -> bytes;
}.

(** ** Serialization *)

Definition number (z : Z) : Value := JNumber (if (z <? 0)%Z then NegInt z else PosInt z).
Definition opt_value {A : Type} (f : A -> Value) (o : option A) : Value :=
  match o with Some a => f a | None => JNull end.

Section handlers.
Context `{AuthLib} `{PrincipalLib} `{ApiLib}.

Definition uuid_value (u : Uuid) : Value := JString (uuid_to_string u).
Definition datetime_value (t : DateTime) : Value := JString (datetime_to_string t).

Definition permissions_value (p : BucketPermissions) : Value :=
  json_object [("read", JBool (perm_read p)); ("write", JBool (perm_write p))].
Definition limits_value (l : CredentialLimits) : Value :=
  json_object [("max_credentials_per_bucket", number (max_credentials_per_bucket l));
               ("max_total_credentials", number (max_total_credentials l))].
Definition usage_value (u : BucketUsage) : Value :=
  json_object [("bytes", number (usage_bytes u)); ("objects", number (usage_objects u));
               ("unfinished_upload_bytes", number (usage_unfinished_upload_bytes u));
               ("unfinished_uploads", number (usage_unfinished_uploads u))].
Definition status_value (s : BucketStatus) : Value :=
  json_object [("observed_generation", number (status_observed_generation s));
               ("phase", JString (BucketPhase_to_string (status_phase s)));
               ("backend_bucket_id", opt_value JString (status_backend_bucket_id s));
               ("endpoint", opt_value JString (status_endpoint s));
               ("usage", usage_value (status_usage s));
               ("message", opt_value JString (status_message s));
               ("updated_at", datetime_value (status_updated_at s))].
Definition operation_response_value (r : ProviderOperationResponse) : Value :=
  json_object [("operation_id", uuid_value (por_operation_id r));
               ("status", status_value (por_status r))].
Definition credential_value (c : CredentialResponse) : Value :=
  json_object [("id", uuid_value (cdr_id c)); ("name", JString (cdr_name c));
               ("access_key_id", JString (cdr_access_key_id c));
               ("permissions", permissions_value (cdr_permissions c));
               ("status", JString (cdr_status c));
               ("created_at", datetime_value (cdr_created_at c));
               ("revoked_at", opt_value datetime_value (cdr_revoked_at c))].
Definition issued_value (r : IssuedCredentialResponse) : Value :=
  json_object [("credential", credential_value (icr_credential r));
               ("secret_access_key", JString (icr_secret_access_key r));
               ("bucket_name", JString (icr_bucket_name r));
               ("endpoint", JString (icr_endpoint r))].
Definition credential_list_value (r : CredentialListResponse) : Value :=
  json_object [("credentials", JArray (credential_value <$> clr_credentials r))].
Definition revoked_value (r : RevokedCredentialResponse) : Value :=
  json_object [("credential_id", uuid_value (rcr_credential_id r));
               ("status", JString (rcr_status r))].
Definition overview_value (r : ServiceOverviewResponse) : Value :=
  json_object [("service_instance_id", uuid_value (sor_service_instance_id r));
               ("name", JString (sor_name r)); ("region", JString (sor_region r));
               ("bucket_name", JString (sor_bucket_name r));
               ("phase", JString (BucketPhase_to_string (sor_phase r)));
               ("endpoint", JString (sor_endpoint r));
               ("quota", json_object [("bytes", number (quota_bytes (sor_quota r)));
                                      ("objects", number (quota_objects (sor_quota r)))]);
               ("usage", usage_value (sor_usage r));
               ("active_credentials", number (sor_active_credentials r));
               ("measured_at", datetime_value (sor_measured_at r))].
Definition usage_response_value (r : UsageResponse) : Value :=
  json_object [("service_instance_id", uuid_value (usr_service_instance_id r));
               ("bytes_used", number (usr_bytes_used r));
               ("objects_used", number (usr_objects_used r));
               ("unfinished_upload_bytes", number (usr_unfinished_upload_bytes r));
               ("unfinished_uploads", number (usr_unfinished_uploads r));
               ("quota_bytes", number (usr_quota_bytes r));
               ("quota_objects", number (usr_quota_objects r));
               ("measured_at", datetime_value (usr_measured_at r))].

(** [Json(value)] as a response. *)
Definition json_response (value : Value) : HttpResponse :=
  {| http_status := 200; http_headers := [("content-type", "application/json")];
     http_body := value |}.

(** ** Helpers *)

Record AppState : Type := {
  provider_auth : ProviderAuthenticator;
  principal_auth : PrincipalAuthenticator;
  storage_region : string;
  s3_endpoint : Url;
}.

(** The extractors [StrictJson], [StrictPath] and [StrictQuery]. *)
Definition strict {A : Type} (extracted : result string A) : result ApiError A :=
  map_err bad_request extracted.

Definition provider_claims (state : AppState) (headers : HeaderMap) (action : string)
  : Handler ProviderClaims :=
  decode_now ← call UtcNow;
  now ← call UtcNow;
  ret (map_err ApiError_from_AuthError
         (authenticate_headers_for_action (provider_auth state) (unix_seconds decode_now)
            (unix_seconds now) headers action)).

Definition authorize (state : AppState) (headers : HeaderMap) (permission : string)
  : Handler Principal :=
  now ← call UtcNow;
  ret (principal ← map_err ApiError_from_PrincipalAuthError
                     (authenticate (principal_auth state) (unix_seconds now) headers);
       _ ← map_err ApiError_from_PrincipalAuthError (Principal_require principal permission);
       Ok principal).

Definition principal_operation (principal : Principal) (idempotency_key : Uuid) (action : string)
    (hash : bytes) : OperationRequest := {|
  op_idempotency_key := idempotency_key;
  op_organization_id := scope_organization_id (principal_scope principal);
  op_project_id := scope_project_id (principal_scope principal);
  op_service_instance_id := scope_service_instance_id (principal_scope principal);
  op_principal_id := principal_principal_id principal;
  op_action := action;
  op_generation := None;
  op_request_hash := hash |}.

Definition public_idempotency_key (headers : HeaderMap) : result ApiError Uuid :=
  header ← ok_or (bad_request "Idempotency-Key is required") (headers_get headers IDEMPOTENCY_KEY);
  value ← ok_or (bad_request "Idempotency-Key is invalid") (value_to_str header);
  parsed ← ok_or (bad_request "Idempotency-Key must be a canonical UUID") (uuid_parse_str value);
  if negb (String.eqb (uuid_to_string parsed) value)
  then Err (bad_request "Idempotency-Key must use canonical lowercase UUID encoding")
  else Ok parsed.

Definition request_id (headers : HeaderMap) : prog ApiE string :=
  match headers_get headers REQUEST_ID ≫= value_to_str with
  | Some value =>
      if negb (str_is_empty value) && Nat.leb (str_len value) 256 then Ret value
      else id ← call NowV7; Ret (uuid_to_string id)
  | None => id ← call NowV7; Ret (uuid_to_string id)
  end.

Definition request_generation (generation : Z) : result ApiError Z :=
  ok_or internal (u64_try_from_i64 generation).

Definition success_response (status : Z) (value : Value) : result ApiError StoredHttpResponse :=
  Ok {| resp_status := status; resp_body := value; resp_failed := false |}.

(** [StatusCode::from_u16] accepts 100 to 999. *)
Definition stored_into_response (stored : StoredHttpResponse) : result ApiError HttpResponse :=
  if (100 <=? resp_status stored)%Z && (resp_status stored <=? 999)%Z
  then Ok {| http_status := resp_status stored;
             http_headers := [("content-type", "application/json");
                              ("cache-control", "no-store, private"); ("pragma", "no-cache")];
             http_body := resp_body stored |}
  else Err internal.

Definition prepared_response {T : Type} (prepared : Prepare T) : result ApiError HttpResponse :=
  match prepared with
  | Replay response => stored_into_response response
  | InProgress operation_id => Err (operation_in_progress operation_id)
  | Execute _ _ => Err internal
  end.

Definition audit_for_operation (operation : OperationRequest) (principal_context_id : option Uuid)
    (request_id resource_type : string) (resource_id : option string) (details : Value)
  : AuditEvent := {|
  ae_organization_id := op_organization_id operation;
  ae_project_id := op_project_id operation;
  ae_service_instance_id := op_service_instance_id operation;
  ae_principal_id := op_principal_id operation;
  ae_principal_context_id := principal_context_id;
  ae_request_id := request_id;
  ae_action := op_action operation;
  ae_resource_type := resource_type;
  ae_resource_id := resource_id;
  ae_outcome := "allowed";
  ae_details := details |}.

(** [audit.outcome = "failed"]. *)
Definition failed_audit (audit : AuditEvent) : AuditEvent := {|
  ae_organization_id := ae_organization_id audit;
  ae_project_id := ae_project_id audit;
  ae_service_instance_id := ae_service_instance_id audit;
  ae_principal_id := ae_principal_id audit;
  ae_principal_context_id := ae_principal_context_id audit;
  ae_request_id := ae_request_id audit;
  ae_action := ae_action audit;
  ae_resource_type := ae_resource_type audit;
  ae_resource_id := ae_resource_id audit;
  ae_outcome := "failed";
  ae_details := ae_details audit |}.

Definition persist_backend_failure (operation : OperationRequest) (operation_id : Uuid)
    (backend_error : GarageBackendError) (audit : AuditEvent) : prog ApiE ApiError :=
  let api_error := ApiError_from_GarageBackendError backend_error in
  r ← call (StoreCall (FailOperation operation operation_id (stored_response api_error)
                         (failed_audit audit)));
  match r with
  | Err error => Ret (ApiError_from_StoreError error)
  | Ok _ => Ret api_error
  end.

Definition persist_failure (operation : OperationRequest) (operation_id : Uuid)
    (api_error : ApiError) (audit : AuditEvent) : Handler unit :=
  _ ←? store (FailOperation operation operation_id (stored_response api_error)
                (failed_audit audit));
  ret (Ok tt).

(** [return Err(persist_backend_failure(.., audit_for_operation(..)).await)]. *)
Definition backend_failure {A : Type} (headers : HeaderMap) (operation : OperationRequest)
    (operation_id : Uuid) (error : GarageBackendError) (context : option Uuid)
    (resource_type : string) (resource_id : option string) (details : Value) : Handler A :=
  rid ← request_id headers;
  e ← persist_backend_failure operation operation_id error
        (audit_for_operation operation context rid resource_type resource_id details);
  ret (Err e).

Definition record_read_audit (principal : Principal) (headers : HeaderMap)
    (action resource_type : string) : Handler unit :=
  rid ← request_id headers;
  _ ←? store (RecordAudit {|
    ae_organization_id := scope_organization_id (principal_scope principal);
    ae_project_id := scope_project_id (principal_scope principal);
    ae_service_instance_id := scope_service_instance_id (principal_scope principal);
    ae_principal_id := principal_principal_id principal;
    ae_principal_context_id := Some (principal_context_id principal);
    ae_request_id := rid;
    ae_action := action;
    ae_resource_type := resource_type;
    ae_resource_id := Some (uuid_to_string (scope_service_instance_id (principal_scope principal)));
    ae_outcome := "allowed";
    ae_details := json_object [] |});
  ret (Ok tt).

(** The store's error, converted by [?]. *)
Definition from_store {A : Type} (r : result StoreError A) : result ApiError A :=
  map_err ApiError_from_StoreError r.

(** ** Provider commands

    Each command handler is split where it calls [prepare_*]: the checks that build
    the command before, the execution of a granted attempt after. *)

Definition reconcile_command (state : AppState) (path : result string Uuid)
    (headers : HeaderMap) (json : result string ReconcileRequest) : Handler ReconcileCommand :=
  service_instance_id ←? ret (strict path);
  request ←? ret (strict json);
  claims ←? provider_claims state headers PROVIDER_RECONCILE_ACTION;
  _ ←? ret (map_err ApiError_from_AuthError (require_idempotency_key headers (pc_jwt_id claims)));
  if negb (N.eqb (pc_service_instance_id claims) service_instance_id)
     || negb (pc_generation claims =? rr_generation request)%Z
  then ret (Err forbidden)
  else
  _ ←? ret (map_err (fun error => bad_request (ValidationError_to_string error))
              (SyouyuSpec_validate (rr_spec request)));
  if negb (String.eqb (spec_region (rr_spec request)) (storage_region state))
  then ret (Err (bad_request
         ("region must match the configured storage region " +:+ storage_region state)))
  else
  let generation := rr_generation request in
  hash ←? ret (from_store (request_hash sha256 PROVIDER_RECONCILE_ACTION
                             (reconcile_request_to_vec request)));
  ret (Ok {|
    rec_operation := {|
      op_idempotency_key := pc_jwt_id claims;
      op_organization_id := pc_organization_id claims;
      op_project_id := pc_project_id claims;
      op_service_instance_id := service_instance_id;
      op_principal_id := pc_subject claims;
      op_action := PROVIDER_RECONCILE_ACTION;
      op_generation := Some generation;
      op_request_hash := hash |};
    rec_name := rr_name request;
    rec_generation := generation;
    rec_spec := rr_spec request |}).

(** The physical bucket of the service, from the row or from Garage. *)
Definition reconciled_bucket_id (headers : HeaderMap) (command : ReconcileCommand)
    (operation_id : Uuid) (context : ReconcileContext) : Handler string :=
  let operation := rec_operation command in
  if rc_previously_applied context
  then ret (ok_or internal (br_physical_bucket_id (rc_bucket context)))
  else
  _ ←? store (RenewOperation operation operation_id);
  r ← garage (ReconcileBucket (br_physical_bucket_id (rc_bucket context)) (rec_spec command));
  match r with
  | Ok bucket => ret (Ok (rb_physical_bucket_id bucket))
  | Err error =>
      backend_failure headers operation operation_id error None "service_instance"
        (Some (uuid_to_string (op_service_instance_id operation)))
        (json_object [("generation", number (rec_generation command))])
  end.

Definition execute_reconcile (state : AppState) (headers : HeaderMap) (command : ReconcileCommand)
    (operation_id : Uuid) (context : ReconcileContext) : Handler HttpResponse :=
  let operation := rec_operation command in
  let generation := rec_generation command in
  physical_bucket_id ←? reconciled_bucket_id headers command operation_id context;
  observed ←? ret (request_generation generation);
  updated_at ← call UtcNow;
  let status := {|
    status_observed_generation := observed;
    status_phase := Ready;
    status_backend_bucket_id := Some physical_bucket_id;
    status_endpoint := Some (url_to_string (s3_endpoint state));
    status_usage := BucketUsage_default;
    status_message := None;
    status_updated_at := updated_at |} in
  let response := {| por_operation_id := operation_id; por_status := status |} in
  let response_status := if rc_previously_applied context then 200%Z else 202%Z in
  stored ←? ret (success_response response_status (operation_response_value response));
  rid ← request_id headers;
  let audit := audit_for_operation operation None rid "service_instance"
    (Some (uuid_to_string (op_service_instance_id operation)))
    (json_object [("generation", number generation);
                  ("bucket_name", JString (spec_bucket_name (rec_spec command)));
                  ("quota_bytes", number (spec_quota_bytes (rec_spec command)));
                  ("quota_objects", number (spec_quota_objects (rec_spec command)))]) in
  _ ←? store (CompleteReconcile command operation_id physical_bucket_id stored audit);
  ret (stored_into_response stored).

Definition reconcile_service_instance (state : AppState) (path : result string Uuid)
    (headers : HeaderMap) (json : result string ReconcileRequest) : Handler HttpResponse :=
  command ←? reconcile_command state path headers json;
  prepared ←? store (PrepareReconcile command);
  match prepared with
  | Execute operation_id context => execute_reconcile state headers command operation_id context
  | other => ret (prepared_response other)
  end.

(** The loop over [context.garage_key_ids]. *)
Fixpoint revoke_keys (headers : HeaderMap) (operation : OperationRequest) (operation_id : Uuid)
    (service_instance_id : Uuid) (generation : Z) (garage_key_ids : list string) : Handler unit :=
  match garage_key_ids with
  | [] => ret (Ok tt)
  | garage_key_id :: rest =>
      _ ←? store (RenewOperation operation operation_id);
      r ← garage (RevokeCredential garage_key_id);
      match r with
      | Err error =>
          backend_failure headers operation operation_id error None "service_instance"
            (Some (uuid_to_string service_instance_id))
            (json_object [("generation", number generation); ("phase", JString "key_revocation")])
      | Ok _ => revoke_keys headers operation operation_id service_instance_id generation rest
      end
  end.

(** From the usage check to the deletion of the bucket. *)
Definition empty_and_delete_bucket (headers : HeaderMap) (operation : OperationRequest)
    (operation_id service_instance_id : Uuid) (generation : Z) (physical_bucket_id : string)
    (garage_key_ids : list string) : Handler unit :=
  let failure {A : Type} (error : GarageBackendError) (phase : string) : Handler A :=
    backend_failure headers operation operation_id error None "service_instance"
      (Some (uuid_to_string service_instance_id))
      (json_object [("generation", number generation); ("phase", JString phase)]) in
  _ ←? store (RenewOperation operation operation_id);
  r ← garage (BucketUsageOf physical_bucket_id);
  usage ←? match r with
           | Ok usage => ret (Ok usage)
           | Err (GarageBackendError.NotFound _) => ret (Ok BucketUsage_default)
           | Err error => failure error "usage_check"
           end;
  if negb (bucket_is_empty usage) then
    let error := conflict "bucket_not_empty"
      "service bucket must contain no objects or unfinished uploads before deletion" in
    rid ← request_id headers;
    _ ←? persist_failure operation operation_id error
      (audit_for_operation operation None rid "service_instance"
         (Some (uuid_to_string service_instance_id))
         (json_object [("generation", number generation);
                       ("bytes", number (usage_bytes usage));
                       ("objects", number (usage_objects usage));
                       ("unfinished_upload_bytes", number (usage_unfinished_upload_bytes usage));
                       ("unfinished_uploads", number (usage_unfinished_uploads usage))]));
    ret (Err error)
  else
  _ ←? revoke_keys headers operation operation_id service_instance_id generation garage_key_ids;
  _ ←? store (RenewOperation operation operation_id);
  r ← garage (DeleteBucket physical_bucket_id);
  match r with
  | Err error => failure error "bucket_deletion"
  | Ok _ => ret (Ok tt)
  end.

Definition delete_command (state : AppState) (path : result string Uuid)
    (query : result string DeleteQuery) (headers : HeaderMap) : Handler DeleteCommand :=
  service_instance_id ←? ret (strict path);
  query ←? ret (strict query);
  claims ←? provider_claims state headers PROVIDER_DELETE_ACTION;
  _ ←? ret (map_err ApiError_from_AuthError (require_idempotency_key headers (pc_jwt_id claims)));
  if negb (N.eqb (pc_service_instance_id claims) service_instance_id)
     || negb (pc_generation claims =? dq_generation query)%Z
  then ret (Err forbidden)
  else
  let generation := dq_generation query in
  hash ←? ret (from_store (request_hash sha256 PROVIDER_DELETE_ACTION
    (value_to_vec (json_object [("service_instance_id", uuid_value service_instance_id);
                                ("generation", number generation)]))));
  ret (Ok {|
    del_operation := {|
      op_idempotency_key := pc_jwt_id claims;
      op_organization_id := pc_organization_id claims;
      op_project_id := pc_project_id claims;
      op_service_instance_id := service_instance_id;
      op_principal_id := pc_subject claims;
      op_action := PROVIDER_DELETE_ACTION;
      op_generation := Some generation;
      op_request_hash := hash |};
    del_generation := generation |}).

Definition execute_delete (headers : HeaderMap) (command : DeleteCommand) (operation_id : Uuid)
    (context : DeleteContext) : Handler HttpResponse :=
  let operation := del_operation command in
  let generation := del_generation command in
  let service_instance_id := op_service_instance_id operation in
  physical_bucket_id ←? ret (ok_or internal (br_physical_bucket_id (dc_bucket context)));
  _ ←? empty_and_delete_bucket headers operation operation_id service_instance_id generation
         physical_bucket_id (dc_garage_key_ids context);
  observed ←? ret (request_generation generation);
  updated_at ← call UtcNow;
  let response := {|
    por_operation_id := operation_id;
    por_status := {|
      status_observed_generation := observed;
      status_phase := Deleted;
      status_backend_bucket_id := None;
      status_endpoint := None;
      status_usage := BucketUsage_default;
      status_message := None;
      status_updated_at := updated_at |} |} in
  stored ←? ret (success_response 200 (operation_response_value response));
  rid ← request_id headers;
  let audit := audit_for_operation operation None rid "service_instance"
    (Some (uuid_to_string service_instance_id))
    (json_object [("generation", number generation)]) in
  _ ←? store (CompleteDelete command operation_id stored audit);
  ret (stored_into_response stored).

Definition delete_service_instance (state : AppState) (path : result string Uuid)
    (query : result string DeleteQuery) (headers : HeaderMap) : Handler HttpResponse :=
  command ←? delete_command state path query headers;
  prepared ←? store (PrepareDelete command);
  match prepared with
  | Execute operation_id context => execute_delete headers command operation_id context
  | other => ret (prepared_response other)
  end.

(** ** Principal commands *)

Definition create_credential_command (state : AppState) (headers : HeaderMap)
    (json : result string CreateCredentialRequest) : Handler (Principal * CreateCredentialCommand) :=
  request ←? ret (strict json);
  principal ←? authorize state headers CREDENTIAL_CREATE_PERMISSION;
  _ ←? ret (map_err (fun error => bad_request (ValidationError_to_string error))
              (CredentialSpec_validate {| cred_spec_name := ccr_name request;
                                          cred_spec_permissions := ccr_permissions request |}));
  idempotency_key ←? ret (public_idempotency_key headers);
  hash ←? ret (from_store (request_hash sha256 CREDENTIAL_CREATE_ACTION
    (value_to_vec (json_object
       [("request", json_object [("name", JString (ccr_name request));
                                 ("permissions", permissions_value (ccr_permissions request))]);
        ("credential_limits", limits_value (principal_credential_limits principal))]))));
  ret (Ok (principal, {|
    cre_operation :=
      principal_operation principal idempotency_key CREDENTIAL_CREATE_ACTION hash;
    cre_name := ccr_name request;
    cre_permissions := ccr_permissions request;
    cre_credential_limits := principal_credential_limits principal |})).

(** After Garage issued the key. *)
Definition complete_issued (state : AppState) (headers : HeaderMap) (principal : Principal)
    (command : CreateCredentialCommand) (operation_id : Uuid) (context : CreateCredentialContext)
    (issued : IssuedCredential) : Handler HttpResponse :=
  created_at ← call UtcNow;
  let response := {|
    icr_credential := {|
      cdr_id := cc_credential_id context;
      cdr_name := cre_name command;
      cdr_access_key_id := ic_access_key_id issued;
      cdr_permissions := cre_permissions command;
      cdr_status := "active";
      cdr_created_at := created_at;
      cdr_revoked_at := None |};
    icr_secret_access_key := ic_secret_access_key issued;
    icr_bucket_name := br_bucket_name (cc_bucket context);
    icr_endpoint := url_to_string (s3_endpoint state) |} in
  stored ←? ret (success_response 201 (issued_value response));
  let credential := {|
    nc_id := cc_credential_id context;
    nc_garage_key_id := ic_garage_key_id issued;
    nc_access_key_id := ic_access_key_id issued;
    nc_secret_key_fingerprint := sha256 (str_bytes (ic_secret_access_key issued));
    nc_name := cre_name command;
    nc_permissions := cre_permissions command |} in
  rid ← request_id headers;
  let audit := audit_for_operation (cre_operation command)
    (Some (principal_context_id principal)) rid
    "credential" (Some (uuid_to_string (cc_credential_id context)))
    (json_object [("name", JString (cre_name command));
                  ("permissions", permissions_value (cre_permissions command));
                  ("access_key_id", JString (nc_access_key_id credential))]) in
  completed ← call (StoreCall (CompleteCreateCredential command operation_id credential
                                 stored audit));
  match completed with
  | Err (OperationLeaseLost current) =>
      _ ← garage (RevokeCredential (nc_garage_key_id credential));
      ret (Err (ApiError_from_StoreError (OperationLeaseLost current)))
  | Err error => ret (Err (ApiError_from_StoreError error))
  | Ok _ => ret (stored_into_response stored)
  end.

Definition execute_create (state : AppState) (headers : HeaderMap) (principal : Principal)
    (command : CreateCredentialCommand) (operation_id : Uuid) (context : CreateCredentialContext)
  : Handler HttpResponse :=
  let operation := cre_operation command in
  physical_bucket_id ←? ret (ok_or internal (br_physical_bucket_id (cc_bucket context)));
  let deterministic_name :=
    "syouyu-" +:+ uuid_to_string (scope_service_instance_id (principal_scope principal))
    +:+ "-" +:+ uuid_to_string (cc_credential_id context) in
  _ ←? store (RenewOperation operation operation_id);
  r ← garage (CreateCredential physical_bucket_id deterministic_name (cre_permissions command));
  match r with
  | Err error =>
      backend_failure headers operation operation_id error
        (Some (principal_context_id principal)) "credential"
        (Some (uuid_to_string (cc_credential_id context)))
        (json_object [("name", JString (cre_name command))])
  | Ok issued => complete_issued state headers principal command operation_id context issued
  end.

Definition create_credential (state : AppState) (headers : HeaderMap)
    (json : result string CreateCredentialRequest) : Handler HttpResponse :=
  pc ←? create_credential_command state headers json;
  let '(principal, command) := pc in
  prepared ←? store (PrepareCreateCredential command);
  match prepared with
  | Execute operation_id context =>
      execute_create state headers principal command operation_id context
  | other => ret (prepared_response other)
  end.

Definition revoke_credential_command (state : AppState) (path : result string Uuid)
    (headers : HeaderMap) : Handler (Principal * RevokeCredentialCommand) :=
  credential_id ←? ret (strict path);
  principal ←? authorize state headers CREDENTIAL_REVOKE_PERMISSION;
  idempotency_key ←? ret (public_idempotency_key headers);
  hash ←? ret (from_store (request_hash sha256 CREDENTIAL_REVOKE_ACTION
    (value_to_vec (json_object [("credential_id", uuid_value credential_id)]))));
  ret (Ok (principal, {|
    rev_operation :=
      principal_operation principal idempotency_key CREDENTIAL_REVOKE_ACTION hash;
    rev_credential_id := credential_id |})).

(** [if !already_revoked && let Err(error) = revoke_credential(..)]. *)
Definition revoke_in_garage (headers : HeaderMap) (principal : Principal)
    (command : RevokeCredentialCommand) (operation_id : Uuid) (context : RevokeCredentialContext)
  : Handler unit :=
  if negb (vc_already_revoked context) then
    r ← garage (RevokeCredential (vc_garage_key_id context));
    match r with
    | Err error =>
        backend_failure headers (rev_operation command) operation_id error
          (Some (principal_context_id principal)) "credential"
          (Some (uuid_to_string (rev_credential_id command))) (json_object [])
    | Ok _ => ret (Ok tt)
    end
  else ret (Ok tt).

Definition execute_revoke (headers : HeaderMap) (principal : Principal)
    (command : RevokeCredentialCommand) (operation_id : Uuid) (context : RevokeCredentialContext)
  : Handler HttpResponse :=
  let operation := rev_operation command in
  let credential_id := rev_credential_id command in
  _ ←? store (RenewOperation operation operation_id);
  _ ←? revoke_in_garage headers principal command operation_id context;
  let response := {| rcr_credential_id := credential_id; rcr_status := "revoked" |} in
  stored ←? ret (success_response 200 (revoked_value response));
  rid ← request_id headers;
  let audit := audit_for_operation operation (Some (principal_context_id principal)) rid
    "credential" (Some (uuid_to_string credential_id))
    (json_object [("already_revoked", JBool (vc_already_revoked context))]) in
  _ ←? store (CompleteRevokeCredential command operation_id stored audit);
  ret (stored_into_response stored).

Definition revoke_credential (state : AppState) (path : result string Uuid) (headers : HeaderMap)
  : Handler HttpResponse :=
  pc ←? revoke_credential_command state path headers;
  let '(principal, command) := pc in
  prepared ←? store (PrepareRevokeCredential command);
  match prepared with
  | Execute operation_id context => execute_revoke headers principal command operation_id context
  | other => ret (prepared_response other)
  end.

(** ** Reads *)

Definition service_overview (state : AppState) (headers : HeaderMap) : Handler HttpResponse :=
  principal ←? authorize state headers OVERVIEW_READ_PERMISSION;
  let scope := principal_scope principal in
  record ←? store (ServiceOverview (scope_organization_id scope) (scope_project_id scope)
                     (scope_service_instance_id scope));
  credentials ←? store (ListCredentials (scope_organization_id scope) (scope_project_id scope)
                          (scope_service_instance_id scope));
  phase ←? ret (map_err (fun _ => internal) (BucketPhase_from_str (sr_phase record)));
  _ ←? record_read_audit principal headers "service.overview.read" "service_instance";
  measured_at ← match br_usage_measured_at (sr_bucket record) with
                | Some t => Ret t
                | None => call UtcNow
                end;
  ret (Ok (json_response (overview_value {|
    sor_service_instance_id := sr_id record;
    sor_name := sr_name record;
    sor_region := br_region (sr_bucket record);
    sor_bucket_name := br_bucket_name (sr_bucket record);
    sor_phase := phase;
    sor_endpoint := url_to_string (s3_endpoint state);
    sor_quota := {| quota_bytes := br_quota_bytes (sr_bucket record);
                    quota_objects := br_quota_objects (sr_bucket record) |};
    sor_usage := {| usage_bytes := br_used_bytes (sr_bucket record);
                    usage_objects := br_used_objects (sr_bucket record);
                    usage_unfinished_upload_bytes := 0;
                    usage_unfinished_uploads := 0 |};
    sor_active_credentials := Z.of_nat (length
      (List.filter (fun credential => String.eqb (cr_status credential) "active") credentials));
    sor_measured_at := measured_at |}))).

Definition service_usage (state : AppState) (headers : HeaderMap) : Handler HttpResponse :=
  principal ←? authorize state headers USAGE_READ_PERMISSION;
  let scope := principal_scope principal in
  service ←? store (ServiceOverview (scope_organization_id scope) (scope_project_id scope)
                      (scope_service_instance_id scope));
  physical_bucket_id ←? ret (ok_or internal (br_physical_bucket_id (sr_bucket service)));
  usage ←? prog_map_err ApiError_from_GarageBackendError
             (garage (BucketUsageOf physical_bucket_id));
  measured_at ← call UtcNow;
  stored ←? store (RecordUsage (scope_organization_id scope) (scope_project_id scope)
                     (scope_service_instance_id scope) (usage_bytes usage) (usage_objects usage)
                     measured_at);
  _ ←? record_read_audit principal headers "usage.read" "bucket";
  ret (Ok (json_response (usage_response_value {|
    usr_service_instance_id := ur_service_instance_id stored;
    usr_bytes_used := ur_bytes_used stored;
    usr_objects_used := ur_objects_used stored;
    usr_unfinished_upload_bytes := usage_unfinished_upload_bytes usage;
    usr_unfinished_uploads := usage_unfinished_uploads usage;
    usr_quota_bytes := ur_quota_bytes stored;
    usr_quota_objects := ur_quota_objects stored;
    usr_measured_at := ur_measured_at stored |}))).

Definition list_credentials (state : AppState) (headers : HeaderMap) : Handler HttpResponse :=
  principal ←? authorize state headers CREDENTIAL_READ_PERMISSION;
  let scope := principal_scope principal in
  credentials ←? store (ListCredentials (scope_organization_id scope) (scope_project_id scope)
                          (scope_service_instance_id scope));
  _ ←? record_read_audit principal headers "credential.list" "credential";
  ret (Ok (json_response (credential_list_value {|
    clr_credentials := CredentialResponse_from <$> credentials |}))).

Definition live : HttpResponse := json_response (json_object [("status", JString "ok")]).

Definition ready : Handler HttpResponse :=
  _ ←? store StoreHealth;
  _ ←? prog_map_err ApiError_from_GarageBackendError (garage GarageHealth);
  ret (Ok (json_response (json_object [("status", JString "ready")]))).
End handlers.

(** ** Bodies without floats *)

Lemma number_no_floats z : no_floats (number z) = true.
Proof. unfold number. by destruct (z <? 0)%Z. Qed.

Lemma opt_value_no_floats {A : Type} (f : A -> Value) o :
  (forall a, no_floats (f a) = true) -> no_floats (opt_value f o) = true.
Proof. intros Hf. destruct o; simpl; auto. Qed.

#[export] Hint Resolve json_object_no_floats number_no_floats opt_value_no_floats : syouyu.

(** Descend through the objects of a body. *)
Ltac floatless :=
  repeat (apply json_object_no_floats; repeat constructor; cbn [snd]);
  auto with syouyu.

Section bodies.
Context `{AuthLib} `{PrincipalLib} `{ApiLib}.

Lemma usage_no_floats u : no_floats (usage_value u) = true.
Proof. unfold usage_value. floatless. Qed.

Lemma permissions_no_floats p : no_floats (permissions_value p) = true.
Proof. unfold permissions_value. floatless. Qed.

Hint Resolve usage_no_floats permissions_no_floats : syouyu.

Lemma operation_response_no_floats r : no_floats (operation_response_value r) = true.
Proof. unfold operation_response_value, status_value. floatless. Qed.

Lemma issued_no_floats r : no_floats (issued_value r) = true.
Proof. unfold issued_value, credential_value. floatless. Qed.

Lemma revoked_no_floats r : no_floats (revoked_value r) = true.
Proof. unfold revoked_value. floatless. Qed.
End bodies.
