(* ===== verification/Config.v ===== *)
(** * Configuration and start-up

    [config.rs] of the API crate, which reads and checks the environment, and
    [run] of [main.rs], which connects, migrates, binds and serves.  The theorems
    show what a configuration that loads guarantees to the other components, every
    way in which the start-up can still stop, and in which order the process touches
    the outside world. *)

From S2P Require Import Prelude Prog RustStr Net Domain Garage GarageAdapter Json Auth StoreModels PrincipalAuth ApiError Cipher Tables Receipts Routes.

(** [base64]'s [STANDARD.decode]. *)
Class StartupLib : Type := {
  standard_decode : string -> option bytes;
}.

(** [Url::set_path] changes the path only. *)
Class UrlLaws `{GarageLib} : Prop := {
  set_path_scheme u p : url_scheme (url_set_path u p) = url_scheme u;
  set_path_host u p : url_host_str (url_set_path u p) = url_host_str u;
  set_path_username u p : url_username (url_set_path u p) = url_username u;
  set_path_password u p : url_password (url_set_path u p) = url_password u;
  set_path_query u p : url_query (url_set_path u p) = url_query u;
  set_path_fragment u p : url_fragment (url_set_path u p) = url_fragment u;
}.

(** An [anyhow::Error]: the message on top and the error under it.  The message
    [bind {addr}] keeps the address itself. *)
Inductive ErrorMessage : Type :=
| Text (message : string)
| BindTo (addr : SocketAddr).

Inductive ErrorSource `{GarageLib} : Type :=
| VarError
| ParseError
| Base64Error
| UrlParseError
| StoreFailure (e : StoreError)
| AuthFailure (e : AuthError)
| PrincipalFailure (e : PrincipalAuthError)
| GarageFailure (e : GarageError)
| IoFailure (message : string).

Record AnyhowError `{GarageLib} : Type := {
  ah_message : ErrorMessage;
  ah_source : option ErrorSource;
}.

Section config.
Context `{UrlLib} `{!GarageLib} `{AuthLib} `{StartupLib} `{SerdeJson} `{Aead}.

Definition context (message : string) (source : ErrorSource) : AnyhowError :=
  {| ah_message := Text message; ah_source := Some source |}.
Definition bail {A : Type} (message : string) : result AnyhowError A :=
  Err {| ah_message := Text message; ah_source := None |}.

(** [env::var(name).ok()]: nothing when the variable is unset or not Unicode. *)
Definition Env : Type := string -> option string.

Definition required (env : Env) (name : string) : result AnyhowError string :=
  ok_or (context (name +:+ " is required") VarError) (env name).

Definition parse_or {T : Type} (parse : string -> option T) (env : Env) (name default_ : string)
  : result AnyhowError T :=
  ok_or (context (name +:+ " is invalid") ParseError) (parse (default default_ (env name))).

Definition absolute_http_url (name value : string) : result AnyhowError Url :=
  url ← ok_or (context (name +:+ " is invalid") UrlParseError) (url_parse value);
  if negb (String.eqb (url_scheme url) "http" || String.eqb (url_scheme url) "https")
     || is_none (url_host_str url)
     || negb (str_is_empty (url_username url))
     || is_some (url_password url)
     || is_some (url_query url)
     || is_some (url_fragment url)
  then bail (name +:+ " must be an HTTP(S) URL without credentials, query, or fragment")
  else
  let normalized := trim_end_matches Byte.x2f (url_path url) +:+ "/" in
  Ok (url_set_path url normalized).

Definition validate_region (value : string) : result AnyhowError unit :=
  if str_is_empty value || Nat.ltb 63 (str_len value)
     || starts_with value "-" || ends_with value "-"
     || existsb (fun byte => negb (is_ascii_lowercase byte) && negb (is_ascii_digit byte)
                             && negb (is_byte "-" byte)) (str_bytes value)
  then bail "GARAGE_REGION must be a lowercase DNS label of at most 63 characters"
  else Ok tt.

Record Config : Type := {
  cfg_bind_addr : SocketAddr;
  cfg_database_url : string;
  cfg_database_max_connections : Z;
  cfg_migrate_on_start : bool;
  cfg_receipt_encryption_key : bytes;
  cfg_credential_limits : CredentialLimits;
  cfg_provider_authenticator : ProviderAuthenticator;
  cfg_principal_authenticator : PrincipalAuthenticator;
  cfg_garage_admin_endpoint : Url;
  cfg_garage_admin_token : string;
  cfg_garage_region : string;
  cfg_s3_public_endpoint : Url;
}.

Definition from_env (env : Env) : result AnyhowError Config :=
  bind_addr ← parse_or parse_socket_addr env "SYOUYU_BIND_ADDR" "0.0.0.0:8080";
  database_url ← required env "DATABASE_URL";
  database_max_connections ← parse_or parse_u32 env "DATABASE_MAX_CONNECTIONS" "20";
  migrate_on_start ← parse_or parse_bool env "MIGRATE_ON_START" "true";
  encoded_key ← required env "SYOUYU_RECEIPT_ENCRYPTION_KEY_BASE64";
  receipt_encryption_key ←
    ok_or (context "SYOUYU_RECEIPT_ENCRYPTION_KEY_BASE64 is invalid" Base64Error)
      (standard_decode encoded_key);
  if negb (Nat.eqb (length receipt_encryption_key) 32)
  then bail "SYOUYU_RECEIPT_ENCRYPTION_KEY_BASE64 must decode to exactly 32 bytes"
  else
  per_bucket ← parse_or parse_u32 env "SYOUYU_MAX_CREDENTIALS_PER_BUCKET" "10000";
  total ← parse_or parse_u32 env "SYOUYU_MAX_TOTAL_CREDENTIALS" "1000000";
  credential_limits ←
    map_err (fun e => context "invalid credential limits" (StoreFailure e))
      (CredentialLimits_validate
         {| max_credentials_per_bucket := per_bucket; max_total_credentials := total |});
  provider_issuer ← required env "HETEROCLOUD_PROVIDER_ISSUER";
  provider_audience ← required env "HETEROCLOUD_PROVIDER_AUDIENCE";
  provider_keys ← required env "HETEROCLOUD_PROVIDER_PUBLIC_KEYS_JSON";
  provider_authenticator ←
    map_err (fun e => context "invalid provider authentication configuration" (AuthFailure e))
      (from_public_keys_json provider_issuer provider_audience provider_keys);
  principal_issuer ← required env "SYOUYU_PRINCIPAL_ISSUER";
  principal_audience ← required env "SYOUYU_PRINCIPAL_AUDIENCE";
  principal_secret ← required env "SYOUYU_PRINCIPAL_CONTEXT_HMAC_SECRET";
  principal_ttl ← parse_or parse_u64 env "SYOUYU_PRINCIPAL_MAX_TTL_SECONDS" "300";
  principal_authenticator ←
    map_err (fun e => context "invalid principal authentication configuration"
                        (PrincipalFailure e))
      (PrincipalAuthenticator_new principal_issuer principal_audience
         (str_bytes principal_secret) (Duration_from_secs principal_ttl));
  garage_endpoint ← required env "GARAGE_ADMIN_ENDPOINT";
  garage_admin_endpoint ← absolute_http_url "GARAGE_ADMIN_ENDPOINT" garage_endpoint;
  garage_admin_token ← required env "GARAGE_ADMIN_TOKEN";
  let garage_region := default "heteronet-global" (env "GARAGE_REGION") in
  _ ← validate_region garage_region;
  s3_endpoint ← required env "SYOUYU_S3_PUBLIC_ENDPOINT";
  s3_public_endpoint ← absolute_http_url "SYOUYU_S3_PUBLIC_ENDPOINT" s3_endpoint;
  Ok {| cfg_bind_addr := bind_addr; cfg_database_url := database_url;
        cfg_database_max_connections := database_max_connections;
        cfg_migrate_on_start := migrate_on_start;
        cfg_receipt_encryption_key := receipt_encryption_key;
        cfg_credential_limits := credential_limits;
        cfg_provider_authenticator := provider_authenticator;
        cfg_principal_authenticator := principal_authenticator;
        cfg_garage_admin_endpoint := garage_admin_endpoint;
        cfg_garage_admin_token := garage_admin_token; cfg_garage_region := garage_region;
        cfg_s3_public_endpoint := s3_public_endpoint |}.

(** ** Start-up *)

(** What [router] is given. *)
Record App : Type := {
  app_store : PgStore;
  app_garage : GarageAdapter;
  app_state : AppState;
}.

Inductive StartupE : Type -> Type :=
| ConnectPool (database_url : string) (max_connections : Z) : StartupE (result DbError unit)
| RunMigrations : StartupE (result unit unit)
| BindListener (addr : SocketAddr) : StartupE (result string unit)
| Serve (app : App) : StartupE (result string unit).

(** [PgStore::connect]. *)
Definition PgStore_connect (database_url : string) (max_connections : Z) (key : bytes)
    (limits : CredentialLimits) : prog StartupE (result StoreError PgStore) :=
  if str_is_empty database_url then Ret (Err (Configuration "DATABASE_URL is empty"))
  else
  _ ←? prog_map_err Database (call (ConnectPool database_url max_connections));
  Ret (PgStore_from_pool key limits).

(** [PgStore::migrate]. *)
Definition PgStore_migrate : prog StartupE (result StoreError unit) :=
  prog_map_err (fun _ => Migration) (call RunMigrations).

Definition app_of (config : Config) (store : PgStore) (garage_client : GarageAdminClient) : App := {|
  app_store := store;
  app_garage := {| adapter_client := garage_client |};
  app_state := {| provider_auth := cfg_provider_authenticator config;
                  principal_auth := cfg_principal_authenticator config;
                  storage_region := cfg_garage_region config;
                  s3_endpoint := cfg_s3_public_endpoint config |} |}.

(** [run] of [main.rs]; [arg] is the first command-line argument. *)
Definition run (env : Env) (arg : option string) : prog StartupE (result AnyhowError unit) :=
  config ←? Ret (from_env env);
  store ←? prog_map_err (fun e => context "connect to PostgreSQL" (StoreFailure e))
    (PgStore_connect (cfg_database_url config) (cfg_database_max_connections config)
       (cfg_receipt_encryption_key config) (cfg_credential_limits config));
  let migrate_only := bool_decide (arg = Some "migrate") in
  _ ←? (if cfg_migrate_on_start config || migrate_only
        then prog_map_err (fun e => context "run database migrations" (StoreFailure e))
               PgStore_migrate
        else Ret (Ok tt));
  if migrate_only then Ret (Ok tt)
  else
  garage_client ←? Ret (map_err (fun e => context "configure Garage administration client"
                                            (GarageFailure e))
                          (GarageAdminClient_new (cfg_garage_admin_endpoint config)
                             (cfg_garage_admin_token config)));
  _ ←? prog_map_err (fun m => {| ah_message := BindTo (cfg_bind_addr config);
                                   ah_source := Some (IoFailure m) |})
         (call (BindListener (cfg_bind_addr config)));
  prog_map_err (fun m => context "serve Syouyu API" (IoFailure m))
    (call (Serve (app_of config store garage_client))).

(** What the process does besides: [init_tracing] and the last log line. *)
Inductive ProcessE : Type -> Type :=
| InitTracing : ProcessE unit
| LogTerminated (error : AnyhowError) : ProcessE unit
| Startup {X : Type} (e : StartupE X) : ProcessE X.

Inductive ExitCode : Type := SUCCESS | FAILURE.

Definition main (env : Env) (arg : option string) : prog ProcessE ExitCode :=
  _ ← call InitTracing;
  r ← interp (fun _ e => call (Startup e)) (run env arg);
  match r with
  | Ok _ => Ret SUCCESS
  | Err error => _ ← call (LogTerminated error); Ret FAILURE
  end.

(** ** Facts *)

(** The exit code reports the outcome of [run], and a failure is logged. *)
Lemma exit_code_reports env arg tr code :
  runs (main env arg) tr code ->
  exists tr0 r, runs (run env arg) tr0 r /\
    match r with
    | Ok _ => code = SUCCESS
    | Err error => code = FAILURE /\ Event (LogTerminated error) tt ∈ tr
    end.
Proof.
  unfold main. intros (t1 & t2 & [] & -> & _ & Hr)%runs_bind.
  apply runs_bind in Hr as (t3 & t4 & r & -> & (tr0 & Hr & _)%runs_interp & Hc).
  exists tr0, r. split; [done|]. destruct r as [u|error]; [by destruct Hc|].
  apply runs_bind in Hc as (t5 & t6 & [] & -> & ->%runs_call & -> & ->). split; [done|].
  rewrite !elem_of_app, list_elem_of_singleton. tauto.
Qed.

(** A URL the configuration accepts is one the Garage client and the domain accept. *)
Lemma absolute_http_url_origin `{!UrlLaws} name value url :
  absolute_http_url name value = Ok url -> origin_url url = true.
Proof.
  unfold absolute_http_url, origin_url. destruct (url_parse value) as [u|]; simpl; [|done].
  destruct (_ || _) eqn:E; [done|]. intros [= <-].
  rewrite set_path_scheme, set_path_host, set_path_username, set_path_password, set_path_query,
    set_path_fragment, E. done.
Qed.

Lemma validate_base_url_origin url : validate_base_url url = Ok tt <-> origin_url url = true.
Proof. unfold validate_base_url, origin_url. by destruct (_ || _). Qed.

Lemma is_region_byte_cases b :
  is_region_byte b = negb (negb (is_ascii_lowercase b) && negb (is_ascii_digit b)
                           && negb (is_byte "-" b)).
Proof. unfold is_region_byte. by destruct (is_ascii_lowercase b), (is_ascii_digit b), (is_byte "-" b). Qed.

Lemma region_end_alphanumeric b :
  is_region_byte b = true -> is_ascii_alphanumeric b = negb (is_byte "-" b).
Proof. by destruct b; vm_compute. Qed.

(** A text starts (ends) with a hyphen when its first (last) byte is one. *)
Definition hyphen_at (o : option Byte.byte) : bool :=
  match o with Some b => is_byte "-" b | None => false end.

Lemma bytes_prefix_hyphen l : bytes_prefix (str_bytes "-") l = hyphen_at (head l).
Proof.
  destruct l as [|b l]; [done|]. cbn -[Byte.eqb is_byte]. rewrite andb_true_r. by destruct b.
Qed.

Lemma starts_with_hyphen v : starts_with v "-" = hyphen_at (head (str_bytes v)).
Proof. apply bytes_prefix_hyphen. Qed.

Lemma ends_with_hyphen v : ends_with v "-" = hyphen_at (last (str_bytes v)).
Proof.
  unfold ends_with. change (rev (str_bytes "-")) with (str_bytes "-").
  by rewrite bytes_prefix_hyphen, rev_alt, <- head_reverse.
Qed.

Lemma hyphen_at_alphanumeric l o :
  Forall (fun b => is_region_byte b = true) l -> (forall b, o = Some b -> b ∈ l) -> is_Some o ->
  hyphen_at o = false <-> alphanumeric_end o.
Proof.
  intros Hf Ho [b ->]. rewrite Forall_forall in Hf. specialize (Hf b (Ho b eq_refl)).
  unfold alphanumeric_end. simpl. rewrite <- negb_true_iff, <- region_end_alphanumeric by done.
  naive_solver.
Qed.

Lemma validate_region_valid v : validate_region v = Ok tt <-> valid_region v.
Proof.
  unfold validate_region, valid_region, bail. rewrite starts_with_hyphen, ends_with_hyphen.
  assert (Hall : existsb (fun b => negb (is_ascii_lowercase b) && negb (is_ascii_digit b)
                             && negb (is_byte "-" b)) (str_bytes v) = false <->
                 Forall (fun b => is_region_byte b = true) (str_bytes v)).
  { rewrite Forall_forall. setoid_rewrite is_region_byte_cases. setoid_rewrite negb_true_iff.
    apply existsb_false. }
  assert (Hnil : 1 <= str_len v -> is_Some (head (str_bytes v)) /\ is_Some (last (str_bytes v))).
  { rewrite <- str_bytes_length, last_is_Some. destruct (str_bytes v); simpl; [lia|]. by eauto. }
  transitivity (str_is_empty v || Nat.ltb 63 (str_len v) || hyphen_at (head (str_bytes v))
    || hyphen_at (last (str_bytes v))
    || existsb (fun b => negb (is_ascii_lowercase b) && negb (is_ascii_digit b)
                         && negb (is_byte "-" b)) (str_bytes v) = false).
  { by destruct (_ || _). }
  rewrite !orb_false_iff, Hall, str_is_empty_false, Nat.ltb_ge.
  split; intros Hc; destruct_and?; destruct Hnil; try lia.
  all: assert (Hh := hyphen_at_alphanumeric (str_bytes v) (head (str_bytes v))).
  all: assert (Hl := hyphen_at_alphanumeric (str_bytes v) (last (str_bytes v))).
  all: rewrite Hh, Hl in * by eauto using last_Some_elem_of, head_Some_elem_of.
  all: split_and!; done || lia.
Qed.

(** ** What a loaded configuration guarantees *)

(** An HTTP origin without credentials, query or fragment. *)
Definition plain_origin (url : Url) : Prop :=
  (url_scheme url = "http" \/ url_scheme url = "https") /\ is_Some (url_host_str url) /\
  url_username url = "" /\ url_password url = None /\ url_query url = None /\ url_fragment url = None.

(** What the other components rely on: the receipt key and the limits make a store,
    the region is one the domain accepts, both endpoints are plain HTTP origins,
    and both authenticators hold usable secrets. *)
Record accepted (c : Config) : Prop := {
  acc_store : match PgStore_from_pool (cfg_receipt_encryption_key c) (cfg_credential_limits c) with
              | Ok store => credential_limits store = cfg_credential_limits c
              | Err e => e = Configuration "receipt encryption key is invalid" /\
                         new_from_slice (cfg_receipt_encryption_key c) = None
              end;
  acc_key : length (cfg_receipt_encryption_key c) = 32;
  acc_limits : (0 < max_credentials_per_bucket (cfg_credential_limits c) <= u32_max)%Z /\
               (0 < max_total_credentials (cfg_credential_limits c) <= u32_max)%Z;
  acc_connections : (0 <= cfg_database_max_connections c <= u32_max)%Z;
  acc_region : Domain.validate_region (cfg_garage_region c) = Ok tt;
  acc_garage_endpoint : plain_origin (cfg_garage_admin_endpoint c);
  acc_s3_endpoint : plain_origin (cfg_s3_public_endpoint c);
  acc_provider : pa_issuer (cfg_provider_authenticator c) <> "" /\
                 pa_audience (cfg_provider_authenticator c) <> "";
  acc_principal : 32 <= length (pra_secret (cfg_principal_authenticator c)) /\
                  (0 < Duration_as_secs (pra_max_ttl (cfg_principal_authenticator c)) <= 300)%Z;
}.

Lemma origin_url_plain url : origin_url url = true -> plain_origin url.
Proof.
  unfold origin_url, plain_origin.
  destruct (url_host_str url), (url_password url), (url_query url), (url_fragment url);
    rewrite ?orb_true_r; try done. simpl. rewrite !orb_false_r.
  intros [Hs%negb_false_iff%orb_true_iff Hu]%negb_true_iff%orb_false_iff.
  rewrite !String.eqb_eq in Hs. apply negb_false_iff in Hu. split_and!; [done|by eexists| |done..].
  unfold str_is_empty, str_len in Hu. by destruct (url_username url).
Qed.

Lemma from_pool_accepts key limits :
  length key = 32 -> CredentialLimits_validate limits = Ok limits ->
  match PgStore_from_pool key limits with
  | Ok store => credential_limits store = limits
  | Err e => e = Configuration "receipt encryption key is invalid" /\ new_from_slice key = None
  end.
Proof.
  intros Hk Hl. unfold PgStore_from_pool, ReceiptCipher_new. rewrite Hk, Nat.eqb_refl. simpl.
  destruct (new_from_slice key); simpl; [|done]. by rewrite Hl.
Qed.

(** Why the Garage client cannot be made for an accepted endpoint. *)
Inductive client_refused (token : string) : GarageError -> Prop :=
| token_empty : token = "" ->
    client_refused token (GarageError.InvalidConfiguration "admin token must not be empty")
| token_unsendable : token <> "" -> header_value_valid ("Bearer " +:+ token) = false ->
    client_refused token (GarageError.InvalidConfiguration "admin token is invalid")
| transport_refused source : token <> "" -> header_value_valid ("Bearer " +:+ token) = true ->
    client_refused token (GarageError.ClientBuild source).

Lemma garage_client_accepts url token :
  origin_url url = true ->
  match GarageAdminClient_new url token with
  | Ok client => token <> "" /\ header_value_valid ("Bearer " +:+ token) = true
  | Err e => client_refused token e
  end.
Proof.
  intros Hu. unfold GarageAdminClient_new, with_timeout.
  rewrite (proj2 (validate_base_url_origin url) Hu). cbn [mbind result_bind].
  destruct (str_is_empty token) eqn:Ht.
  { constructor. destruct token; [done|]. by vm_compute in Ht. }
  assert (token <> "") by (by intros ->).
  cbn -[ensure String.append]. unfold ensure.
  destruct (header_value_valid _) eqn:Hh; simpl; [|by constructor].
  destruct (client_build _ _) as [client|e]; simpl; [done|by constructor].
Qed.

Lemma CredentialLimits_validate_Ok l l' :
  CredentialLimits_validate l = Ok l' <->
  l' = l /\ max_credentials_per_bucket l <> 0%Z /\ max_total_credentials l <> 0%Z.
Proof.
  unfold CredentialLimits_validate. destruct (_ || _) eqn:E.
  - split; [done|]. intros (_ & Hb & Ht). reflect. tauto.
  - reflect. split; [by intros [= <-]|]. by intros (-> & _).
Qed.

Lemma parse_or_Ok {T : Type} (parse : string -> option T) env name d t :
  parse_or parse env name d = Ok t <-> parse (default d (env name)) = Some t.
Proof. apply ok_or_Ok. Qed.

Lemma Duration_seconds s : (0 < Duration_from_secs s <= Duration_from_secs 300)%Z ->
  (0 < Duration_as_secs (Duration_from_secs s) <= 300)%Z.
Proof.
  unfold Duration_from_secs, Duration_as_secs. rewrite Z.div_mul by done.
  unfold nanos_per_sec. lia.
Qed.

Lemma principal_config_accepts issuer audience secret s self :
  (0 <= s)%Z -> PrincipalAuthenticator_new issuer audience secret (Duration_from_secs s) = Ok self ->
  32 <= length (pra_secret self) /\ (0 < Duration_as_secs (pra_max_ttl self) <= 300)%Z.
Proof.
  intros Hs Hnew. pose proof (PrincipalAuthenticator_new_Ok _ _ _ _ _ Hnew)
    as (_ & _ & -> & -> & _ & Hlen & Httl). split; [done|]. apply Duration_seconds. split; [|done].
  unfold PrincipalAuthenticator_new in Hnew. do 2 (case_match; [done|]).
  destruct (Duration_is_zero _) eqn:Hz; [done|]. unfold Duration_is_zero in Hz.
  apply Z.eqb_neq in Hz. unfold Duration_from_secs, nanos_per_sec in *. lia.
Qed.

Lemma provider_config_accepts issuer audience keys self :
  from_public_keys_json issuer audience keys = Ok self ->
  pa_issuer self <> "" /\ pa_audience self <> "".
Proof.
  unfold from_public_keys_json. destruct (_ || _) eqn:E; [done|].
  apply orb_false_iff in E as [Hi Ha]. intros Hk. open_ok.
  case_bool_decide; [done|]. open_ok. simpl. split; by intros ->.
Qed.

Lemma from_env_accepted `{!UrlLaws} env c :
  from_env env = Ok c -> accepted c /\ origin_url (cfg_garage_admin_endpoint c) = true.
Proof.
  unfold from_env. intros Hc.
  repeat match type of Hc with
  | (_ ≫= _) = Ok _ => let x := fresh "x" in let Hx := fresh "Hx" in
      apply result_bind_Ok in Hc as (x & Hx & Hc)
  | (if negb ?b then bail _ else _) = Ok _ => destruct b eqn:Hlen; [|done]; cbn [negb] in Hc
  | (let _ := _ in _) = Ok _ => cbv zeta in Hc
  end.
  injection Hc as <-. apply Nat.eqb_eq in Hlen.
  apply parse_or_Ok, parse_uint_range in Hx1, Hx5, Hx6, Hx15; [|done..].
  apply map_err_Ok in Hx7, Hx11, Hx16. apply CredentialLimits_validate_Ok in Hx7 as (-> & Hb & Ht).
  apply absolute_http_url_origin in Hx18, Hx22. simpl in Hb, Ht.
  split; [|done]. constructor; simpl; try done.
  - apply from_pool_accepts; [done|]. by apply CredentialLimits_validate_Ok.
  - lia.
  - apply validate_region_Ok, validate_region_valid. by destruct x20.
  - by apply origin_url_plain.
  - by apply origin_url_plain.
  - by eapply provider_config_accepts.
  - eapply principal_config_accepts; [|done]. lia.
Qed.

(** ** The order of start-up *)

Lemma runs_migrate tr r :
  runs PgStore_migrate tr r <->
  exists answer, tr = [Event RunMigrations answer] /\ r = map_err (fun _ => Migration) answer.
Proof. unfold PgStore_migrate. rewrite runs_map_err. by setoid_rewrite runs_call. Qed.

Lemma runs_connect url n key limits tr store :
  runs (PgStore_connect url n key limits) tr (Ok store) ->
  url <> "" /\ tr = [Event (ConnectPool url n) (Ok tt)] /\ PgStore_from_pool key limits = Ok store.
Proof.
  unfold PgStore_connect. destruct (str_is_empty url) eqn:Hu; [by intros [_ [=]]|].
  intros [(e & _ & [=])|(tr1 & tr2 & [] & -> & (r & Hc & Hr)%runs_map_err & -> & Hs)]%runs_try.
  apply runs_call in Hc as ->. destruct r as [[]|]; [|done]. rewrite app_nil_r.
  split_and!; [by intros ->|done|done].
Qed.

(** The calls of a process that serves with [config]. *)
Definition serving_trace (config : Config) (app : App) (answer : result string unit)
  : list (event StartupE) :=
  Event (ConnectPool (cfg_database_url config) (cfg_database_max_connections config)) (Ok tt) ::
  (if cfg_migrate_on_start config then [Event RunMigrations (Ok tt)] else []) ++
  [Event (BindListener (cfg_bind_addr config)) (Ok tt); Event (Serve app) answer].

Definition is_serve (ev : event StartupE) : bool :=
  match ev with Event (Serve _) _ => true | _ => false end.

Lemma serve_inj app app' answer answer' :
  Event (Serve app) answer = Event (Serve app') answer' -> app = app' /\ answer = answer'.
Proof.
  intros Heq. pose (f := fun ev : event StartupE =>
    match ev with
    | @Event _ X e x => match e in StartupE Y return Y -> option (App * result string unit) with
                        | Serve app => fun x => Some (app, x)
                        | _ => fun _ => None
                        end x
    end).
  assert (Hf : f (Event (Serve app) answer) = f (Event (Serve app') answer')) by by rewrite Heq.
  by injection Hf.
Qed.

Definition never_serves {A : Type} (p : prog StartupE A) : Prop :=
  forall tr a, runs p tr a -> Forall (fun ev => is_serve ev = false) tr.

Lemma connect_never_serves url n key limits : never_serves (PgStore_connect url n key limits).
Proof.
  intros tr a. apply (always_Forall _ []). unfold PgStore_connect. by walk.
Qed.

Lemma migrate_never_serves (b : bool) f :
  never_serves (if b then prog_map_err (S := AnyhowError) f PgStore_migrate else Ret (Ok tt)).
Proof. intros tr a. apply (always_Forall _ []). unfold PgStore_migrate. by walk. Qed.

Lemma runs_migrate_if (b : bool) f tr :
  runs (if b then prog_map_err (S := AnyhowError) f PgStore_migrate else Ret (Ok tt)) tr (Ok tt) ->
  tr = if b then [Event RunMigrations (Ok tt)] else [].
Proof.
  destruct b; [|by intros [-> _]].
  intros (r & (answer & -> & ->)%runs_migrate & Hr)%runs_map_err. by destruct answer as [[]|].
Qed.

(** Past the migration the process binds and serves, or stops with an error. *)
Lemma run_tail config store tr r :
  runs (garage_client ←? Ret (map_err (fun e => context "configure Garage administration client"
                                            (GarageFailure e))
                          (GarageAdminClient_new (cfg_garage_admin_endpoint config)
                             (cfg_garage_admin_token config)));
        _ ←? prog_map_err (fun m => {| ah_message := BindTo (cfg_bind_addr config);
                                       ah_source := Some (IoFailure m) |})
               (call (BindListener (cfg_bind_addr config)));
        prog_map_err (fun m => context "serve Syouyu API" (IoFailure m))
          (call (Serve (app_of config store garage_client)))) tr r ->
  (is_ok r = false /\ Forall (fun ev => is_serve ev = false) tr) \/
  exists client answer,
    GarageAdminClient_new (cfg_garage_admin_endpoint config) (cfg_garage_admin_token config)
      = Ok client /\
    tr = [Event (BindListener (cfg_bind_addr config)) (Ok tt);
          Event (Serve (app_of config store client)) answer] /\
    is_ok r = is_ok answer.
Proof.
  intros [(e & _ & -> & ->)|(client & Hc%map_err_Ok & Hr)]%runs_ret_try; [by left|].
  apply runs_try in Hr as [(e & (b & ->%runs_call & Hb)%runs_map_err & ->)
                          |(tr1 & tr2 & [] & -> & (b & ->%runs_call & Hb)%runs_map_err & Hr)].
  { left. split; [done|]. by constructor. }
  right. destruct b as [[]|]; [|done]. apply runs_map_err in Hr as (answer & ->%runs_call & ->).
  exists client, answer. split_and!; [done..|]. by destruct answer.
Qed.

(** What a process has done when it comes to configure the Garage client. *)
Definition opened (config : Config) : list (event StartupE) :=
  Event (ConnectPool (cfg_database_url config) (cfg_database_max_connections config)) (Ok tt) ::
  (if cfg_migrate_on_start config then [Event RunMigrations (Ok tt)] else []).

(** Every way in which a process whose environment was accepted can stop. *)
Inductive startup_error (c : Config) (arg : option string)
  : list (event StartupE) -> AnyhowError -> Prop :=
| database_url_empty : cfg_database_url c = "" ->
    startup_error c arg [] (context "connect to PostgreSQL"
      (StoreFailure (Configuration "DATABASE_URL is empty")))
| connect_failed e : cfg_database_url c <> "" ->
    startup_error c arg
      [Event (ConnectPool (cfg_database_url c) (cfg_database_max_connections c)) (Err e)]
      (context "connect to PostgreSQL" (StoreFailure (Database e)))
| key_refused : new_from_slice (cfg_receipt_encryption_key c) = None ->
    startup_error c arg
      [Event (ConnectPool (cfg_database_url c) (cfg_database_max_connections c)) (Ok tt)]
      (context "connect to PostgreSQL"
         (StoreFailure (Configuration "receipt encryption key is invalid")))
| migration_failed : cfg_migrate_on_start c = true \/ arg = Some "migrate" ->
    startup_error c arg
      [Event (ConnectPool (cfg_database_url c) (cfg_database_max_connections c)) (Ok tt);
       Event RunMigrations (Err tt)]
      (context "run database migrations" (StoreFailure Migration))
| garage_refused e : arg <> Some "migrate" -> client_refused (cfg_garage_admin_token c) e ->
    startup_error c arg (opened c) (context "configure Garage administration client" (GarageFailure e))
| bind_failed m : arg <> Some "migrate" ->
    startup_error c arg (opened c ++ [Event (BindListener (cfg_bind_addr c)) (Err m)])
      {| ah_message := BindTo (cfg_bind_addr c); ah_source := Some (IoFailure m) |}
| serve_failed app m : arg <> Some "migrate" ->
    startup_error c arg
      (opened c ++ [Event (BindListener (cfg_bind_addr c)) (Ok tt); Event (Serve app) (Err m)])
      (context "serve Syouyu API" (IoFailure m)).

Lemma connect_error c arg tr e :
  accepted c ->
  runs (PgStore_connect (cfg_database_url c) (cfg_database_max_connections c)
          (cfg_receipt_encryption_key c) (cfg_credential_limits c)) tr (Err e) ->
  startup_error c arg tr (context "connect to PostgreSQL" (StoreFailure e)).
Proof.
  intros Hacc Hr. unfold PgStore_connect in Hr.
  destruct (str_is_empty (cfg_database_url c)) eqn:Hu.
  { destruct Hr as [-> [= ->]]. constructor. destruct (cfg_database_url c); [done|].
    by vm_compute in Hu. }
  assert (cfg_database_url c <> "") by (by intros Hn; rewrite Hn in Hu).
  apply runs_try in Hr as [(e' & (r & ->%runs_call & Hr)%runs_map_err & [= <-])
                          |(tr1 & tr2 & [] & -> & (r & ->%runs_call & Hr)%runs_map_err & -> & Hs)].
  - destruct r as [|e'']; [done|]. injection Hr as ->. by constructor.
  - destruct r as [[]|]; [|done]. rewrite app_nil_r. pose proof (acc_store _ Hacc) as Hst.
    rewrite <- Hs in Hst. destruct Hst as [-> Hn]. by constructor.
Qed.

(** The rest of start-up, once connected. *)
Lemma run_tail_ends config store arg tr r :
  accepted config -> origin_url (cfg_garage_admin_endpoint config) = true -> arg <> Some "migrate" ->
  runs (garage_client ←? Ret (map_err (fun e => context "configure Garage administration client"
                                            (GarageFailure e))
                          (GarageAdminClient_new (cfg_garage_admin_endpoint config)
                             (cfg_garage_admin_token config)));
        _ ←? prog_map_err (fun m => {| ah_message := BindTo (cfg_bind_addr config);
                                       ah_source := Some (IoFailure m) |})
               (call (BindListener (cfg_bind_addr config)));
        prog_map_err (fun m => context "serve Syouyu API" (IoFailure m))
          (call (Serve (app_of config store garage_client)))) tr r ->
  match r with
  | Ok _ => cfg_garage_admin_token config <> "" /\
            header_value_valid ("Bearer " +:+ cfg_garage_admin_token config) = true
  | Err e => startup_error config arg (opened config ++ tr) e
  end.
Proof.
  intros Hacc Ho Harg. pose proof (garage_client_accepts _ (cfg_garage_admin_token config) Ho) as Hg.
  intros [(e & He & -> & ->)|(client & Hc%map_err_Ok & Hr)]%runs_ret_try.
  { destruct (GarageAdminClient_new _ _) as [|e']; [done|]. injection He as <-.
    rewrite app_nil_r. by constructor. }
  rewrite Hc in Hg.
  apply runs_try in Hr as [(e & (b & ->%runs_call & Hb)%runs_map_err & ->)
                          |(tr1 & tr2 & [] & -> & (b & ->%runs_call & Hb)%runs_map_err & Hr)].
  { destruct b as [|m]; [done|]. injection Hb as ->. by constructor. }
  destruct b as [[]|]; [|done]. apply runs_map_err in Hr as (answer & ->%runs_call & ->).
  destruct answer as [[]|m]; [done|]. by constructor.
Qed.

Lemma run_ends c arg tr r :
  accepted c -> origin_url (cfg_garage_admin_endpoint c) = true ->
  forall env, from_env env = Ok c -> runs (run env arg) tr r ->
  match r with
  | Ok _ => cfg_database_url c <> "" /\
            (arg = Some "migrate" \/
             (cfg_garage_admin_token c <> "" /\
              header_value_valid ("Bearer " +:+ cfg_garage_admin_token c) = true))
  | Err e => startup_error c arg tr e
  end.
Proof.
  intros Hacc Ho env Henv Hrun. unfold run in Hrun. rewrite Henv in Hrun.
  apply runs_ret_try in Hrun as [(e & [=] & _)|(config & [= <-] & Hrun)].
  apply runs_try in Hrun as [(e & (r0 & Hc & Hr0)%runs_map_err & ->)
                            |(tr1 & tr2 & store & -> & (r0 & Hc & Hr0)%runs_map_err & Hrun)].
  { destruct r0 as [|e0]; [done|]. injection Hr0 as ->. by apply connect_error. }
  symmetry in Hr0. apply map_err_Ok in Hr0 as ->. apply runs_connect in Hc as (Hurl & -> & Hstore).
  cbv zeta in Hrun.
  apply runs_try in Hrun as [(e & Hm & ->)|(tr3 & tr4 & [] & -> & Hm & Hrun)].
  { destruct (_ || _) eqn:Hmig; [|by destruct Hm].
    apply orb_true_iff in Hmig. rewrite bool_decide_eq_true in Hmig.
    apply runs_map_err in Hm as (r0 & (answer & -> & ->)%runs_migrate & Hm).
    destruct answer as [|[]]; [done|]. injection Hm as ->. by constructor. }
  apply runs_migrate_if in Hm as ->. case_bool_decide as Harg.
  { destruct Hrun as [-> ->]. auto. }
  rewrite orb_false_r. eapply run_tail_ends in Hrun; [|done..].
  rewrite app_assoc. destruct r; auto.
Qed.
End config.

(** C39. The process touches the outside world in one order only: it serves
    requests only after the whole environment was accepted, the database
    connection was made, the migrations asked for have succeeded and the listener
    was bound, with the store, the Garage client and the settings built from that
    configuration; and when it is started to migrate, a successful run connects
    and migrates, whatever [MIGRATE_ON_START] says, and does nothing else. *)
Theorem startup_order `{UrlLib} `{!GarageLib} `{AuthLib} `{StartupLib} `{Aead} env arg tr r :
  runs (run env arg) tr r ->
  (forall app answer, Event (Serve app) answer ∈ tr ->
     exists config store client, from_env env = Ok config /\ arg <> Some "migrate" /\
       PgStore_from_pool (cfg_receipt_encryption_key config) (cfg_credential_limits config)
         = Ok store /\
       GarageAdminClient_new (cfg_garage_admin_endpoint config) (cfg_garage_admin_token config)
         = Ok client /\
       app = app_of config store client /\ tr = serving_trace config app answer) /\
  (r = Ok tt -> arg = Some "migrate" ->
     exists config, from_env env = Ok config /\
       tr = [Event (ConnectPool (cfg_database_url config) (cfg_database_max_connections config))
               (Ok tt); Event RunMigrations (Ok tt)]).
Proof.
  intros Hrun.
  assert (Hno : forall (tr : list (event StartupE)) app answer,
    Forall (fun ev => is_serve ev = false) tr -> Event (Serve app) answer ∉ tr).
  { intros t app answer Hf Hin. rewrite Forall_forall in Hf. by specialize (Hf _ Hin). }
  apply runs_ret_try in Hrun as [(e & _ & -> & ->)|(config & Hcfg & Hrun)]; [by split; [set_solver|]|].
  apply runs_try in Hrun as [(e & (r0 & Hc & _)%runs_map_err & ->)
                            |(tr1 & tr2 & store & -> & (r0 & Hc & Hr0)%runs_map_err & Hrun)].
  { split; [|done]. intros app answer Hin. 
    by destruct (Hno _ app answer (connect_never_serves _ _ _ _ _ _ Hc) Hin). }
  symmetry in Hr0. apply map_err_Ok in Hr0 as ->. apply runs_connect in Hc as (_ & -> & Hstore).
  cbv zeta in Hrun.
  apply runs_try in Hrun as [(e & Hm & ->)|(tr3 & tr4 & [] & -> & Hm & Hrun)].
  { split; [|done]. intros app answer [[=]|Hin]%elem_of_cons.
    by destruct (Hno _ app answer (migrate_never_serves _ _ _ _ Hm) Hin). }
  apply runs_migrate_if in Hm as ->. case_bool_decide as Harg.
  - destruct Hrun as [-> ->]. rewrite orb_true_r, app_nil_r. split; [|eauto].
    intros app answer Hin. exfalso. eapply Hno; [|exact Hin]. by repeat constructor.
  - split; [|done]. rewrite orb_false_r. apply run_tail in Hrun
      as [[_ Hf]|(client & answer & Hclient & -> & _)].
    + intros app answer [[=]|[Hin|Hin]%elem_of_app]%elem_of_cons.
      * destruct (cfg_migrate_on_start config); set_solver.
      * by destruct (Hno _ app answer Hf Hin).
    + intros app answer' [[=]|[Hin|Hin]%elem_of_app]%elem_of_cons;
        [by destruct (cfg_migrate_on_start config); set_solver|].
      apply elem_of_cons in Hin as [[=]|Hin]. apply list_elem_of_singleton in Hin.
      apply serve_inj in Hin as [-> ->].
      by exists config, store, client.
Qed.

(** C40. What loading the environment settles and what it leaves open.  A
    configuration that loads has a 32-byte receipt key and positive limits that make
    a store with exactly these limits, a region that satisfies the domain's rules,
    two plain HTTP origins as endpoints, a principal secret of at least 32 bytes and
    contexts of 1 to 300 seconds.  Two settings are checked only later: an empty
    [DATABASE_URL] stops the process before it touches anything, and an empty
    [GARAGE_ADMIN_TOKEN], or one that is no header value, stops it after the database
    was connected and migrated.  Apart from these a start-up stops only because the
    database, the migration, the cipher, the HTTP client, the listener or the server
    failed, with the error and after exactly the calls that [startup_error] lists;
    and a run that succeeds had a database URL and, unless it only migrates, a usable
    token. *)
Theorem loaded_config_starts `{UrlLib} `{!GarageLib} `{AuthLib} `{StartupLib} `{Aead} `{!UrlLaws}
    env c arg tr r :
  from_env env = Ok c -> runs (run env arg) tr r ->
  accepted c /\
  match r with
  | Ok _ => cfg_database_url c <> "" /\
            (arg = Some "migrate" \/
             (cfg_garage_admin_token c <> "" /\
              header_value_valid ("Bearer " +:+ cfg_garage_admin_token c) = true))
  | Err e => startup_error c arg tr e
  end.
Proof.
  intros Henv Hrun. destruct (from_env_accepted _ _ Henv) as [Hacc Ho]. split; [done|].
  by eapply run_ends.
Qed.

(** ** A concrete environment *)

Definition sample_startup : StartupLib := {| standard_decode s := Some (str_bytes s) |}.

Lemma sample_url_laws : @UrlLaws sample_url sample_garage.
Proof. by constructor. Qed.

Definition thirty_two : string := "0123456789abcdef0123456789abcdef".
Definition sample_environment : Env := fun name =>
  snd <$> List.find (fun kv => String.eqb kv.1 name)
    [("DATABASE_URL", "postgres://db"); ("SYOUYU_RECEIPT_ENCRYPTION_KEY_BASE64", thirty_two);
     ("HETEROCLOUD_PROVIDER_ISSUER", "heterocloud");
     ("HETEROCLOUD_PROVIDER_AUDIENCE", "heterocloud-syouyu");
     ("HETEROCLOUD_PROVIDER_PUBLIC_KEYS_JSON", "pem"); ("SYOUYU_PRINCIPAL_ISSUER", "issuer");
     ("SYOUYU_PRINCIPAL_AUDIENCE", "audience");
     ("SYOUYU_PRINCIPAL_CONTEXT_HMAC_SECRET", thirty_two);
     ("GARAGE_ADMIN_ENDPOINT", "http://garage:3903"); ("GARAGE_ADMIN_TOKEN", "token");
     ("SYOUYU_S3_PUBLIC_ENDPOINT", "https://s3.example.test")].

Section sample_start.
#[local] Existing Instance sample_url.
#[local] Existing Instance sample_garage.
#[local] Existing Instance sample_auth.
#[local] Existing Instance sample_startup.
#[local] Existing Instance sample_aead.

Definition sample_answer (X : Type) (e : StartupE X) : X :=
  match e with
  | ConnectPool _ _ | RunMigrations | BindListener _ | Serve _ => Ok tt
  end.

Definition sample_config : result AnyhowError Config := from_env sample_environment.

Definition served (tr : list (event StartupE)) : bool :=
  match last tr with Some (Event (Serve _) (Ok _)) => true | _ => false end.

(** The environment with one variable emptied. *)
Definition emptied (name : string) : Env := fun n =>
  if String.eqb n name then Some "" else sample_environment n.

Definition start (env : Env) : list (event StartupE) * result AnyhowError unit :=
  drive sample_answer (run env None).

Lemma loaded_config_starts_witness :
  match from_env (emptied "GARAGE_ADMIN_TOKEN") with
  | Ok c => cfg_garage_region c = "heteronet-global" /\ accepted c
  | Err _ => False
  end.
Proof.
  assert (Hr : match from_env (emptied "GARAGE_ADMIN_TOKEN") with
               | Ok c => cfg_garage_region c | Err _ => "" end = "heteronet-global")
    by (vm_compute; reflexivity).
  destruct (from_env (emptied "GARAGE_ADMIN_TOKEN")) as [c|e] eqn:Hc; [|done]. split; [done|].
  exact (proj1 (@loaded_config_starts _ _ _ _ _ sample_url_laws (emptied "GARAGE_ADMIN_TOKEN") c None
    (start (emptied "GARAGE_ADMIN_TOKEN")).1 (start (emptied "GARAGE_ADMIN_TOKEN")).2 Hc
    (drive_runs _ _))).
Defined.

Definition kind (ev : event StartupE) : string :=
  match ev with
  | Event (ConnectPool _ _) _ => "connect"
  | Event RunMigrations _ => "migrate"
  | Event (BindListener _) _ => "bind"
  | Event (Serve _) _ => "serve"
  end.

(** The calls a start-up makes and the message it stops with. *)
Definition outcome (env : Env) : list string * option string :=
  (kind <$> (start env).1,
   match (start env).2 with
   | Err {| ah_source := Some (StoreFailure (Configuration message)) |} => Some message
   | Err {| ah_source := Some (GarageFailure (GarageError.InvalidConfiguration message)) |} =>
       Some message
   | _ => None
   end).

(** An empty [DATABASE_URL] loads, and stops the process before its first call; an
    empty [GARAGE_ADMIN_TOKEN] loads too, and stops it after it connected to and
    migrated the database. *)
Example empty_settings_load :
  is_ok (from_env (emptied "DATABASE_URL")) = true /\
  outcome (emptied "DATABASE_URL") = ([], Some "DATABASE_URL is empty") /\
  is_ok (from_env (emptied "GARAGE_ADMIN_TOKEN")) = true /\
  outcome (emptied "GARAGE_ADMIN_TOKEN")
  = (["connect"; "migrate"], Some "admin token must not be empty").
Proof. vm_compute. split_and!; reflexivity. Qed.

Lemma startup_order_witness :
  exists app config, from_env sample_environment = Ok config /\
    (drive sample_answer (run sample_environment None)).1 = serving_trace config app (Ok tt).
Proof.
  assert (Hs : served (drive sample_answer (run sample_environment None)).1 = true)
    by (vm_compute; reflexivity).
  assert (Hr := drive_runs sample_answer (run sample_environment None)).
  destruct (drive sample_answer (run sample_environment None)) as [tr r]. cbn [fst snd] in *. unfold served in Hs.
  destruct (last tr) as [ev|] eqn:Hl; [|discriminate Hs]. apply last_Some_elem_of in Hl.
  destruct ev as [X e x]. destruct e as [| | |app]; try discriminate Hs. destruct x as [[]|]; [|discriminate Hs].
  destruct (@startup_order _ _ _ _ _ sample_environment None tr r Hr) as [Hserve _].
  destruct (Hserve app (Ok tt) Hl) as (config & store & client & H1 & _ & _ & _ & _ & H2). eauto.
Defined.
End sample_start.
