(* ===== verification/RouteProps.v ===== *)
(** * Properties of the handlers

    Which calls the handlers make, in which order, and how their runs relate to
    the store: every run of a handler against [PgStore], interleaved with any
    other activity, is a run of the transition system of [StoreStep]. *)

From stdpp Require Import relations.
From S2P Require Import Prelude Prog RustStr Domain Garage GarageAdapter Json Auth StoreModels PrincipalAuth ApiError Cipher Tables Receipts ReceiptLemmas Store StoreEffects StoreStep Samples ReceiptProtocol Commands Routes.

(** ** Requests *)

Section requests.
Context `{AuthLib} `{PrincipalLib} `{ApiLib}.

Inductive ApiRequest : Type :=
| PutServiceInstance (path : result string Uuid) (headers : HeaderMap)
    (json : result string ReconcileRequest)
| DeleteServiceInstance (path : result string Uuid) (query : result string DeleteQuery)
    (headers : HeaderMap)
| PostCredential (headers : HeaderMap) (json : result string CreateCredentialRequest)
| DeleteCredential (path : result string Uuid) (headers : HeaderMap)
| GetServiceOverview (headers : HeaderMap)
| GetUsage (headers : HeaderMap)
| GetCredentials (headers : HeaderMap)
| GetReady
| GetLive
| UnknownPath
| UnsupportedMethod.

(** The routing table of [router] with its two fallbacks. *)
Definition handle (state : AppState) (request : ApiRequest)
  : prog ApiE (result ApiError HttpResponse) :=
  match request with
  | PutServiceInstance path headers json => reconcile_service_instance state path headers json
  | DeleteServiceInstance path query headers => delete_service_instance state path query headers
  | PostCredential headers json => Routes.create_credential state headers json
  | DeleteCredential path headers => Routes.revoke_credential state path headers
  | GetServiceOverview headers => Routes.service_overview state headers
  | GetUsage headers => service_usage state headers
  | GetCredentials headers => Routes.list_credentials state headers
  | GetReady => ready
  | GetLive => ret (Ok live)
  | UnknownPath => ret (Err not_found)
  | UnsupportedMethod => ret (Err method_not_allowed)
  end.
End requests.

(** ** The store behind the trait *)

Section store_impl.
Context `{SerdeJson} `{Aead}.
Context (self : PgStore) (bucket_of : bytes -> string).

(** [impl Repository for PgStore]: one call in a state of the database, with an
    arbitrary clock, identifiers and fault.  The overview and the listing are two statements. *)
Definition repository_step (X : Type) (e : RepositoryE X) : Db -> X -> Db -> Prop :=
  match e with
  | StoreHealth => fun db _ db' => db' = db
  | PrepareReconcile command => fun db r db' =>
      exists fault env, prepare_reconcile self fault env command db = (r, db')
  | CompleteReconcile command oid physical response audit => fun db r db' =>
      exists fault env, complete_reconcile self fault env command oid physical response audit db
                        = (r, db')
  | PrepareDelete command => fun db r db' =>
      exists fault env, prepare_delete self fault env command db = (r, db')
  | CompleteDelete command oid response audit => fun db r db' =>
      exists fault env, complete_delete self fault env command oid response audit db = (r, db')
  | PrepareCreateCredential command => fun db r db' =>
      exists fault env, prepare_create_credential self fault env command db = (r, db')
  | CompleteCreateCredential command oid credential response audit => fun db r db' =>
      exists fault env, complete_create_credential self fault env command oid credential response
                          audit db = (r, db')
  | PrepareRevokeCredential command => fun db r db' =>
      exists fault env, prepare_revoke_credential self fault env command db = (r, db')
  | CompleteRevokeCredential command oid response audit => fun db r db' =>
      exists fault env, complete_revoke_credential self fault env command oid response audit db
                        = (r, db')
  | RenewOperation operation oid => fun db r db' =>
      exists fault env, renew_operation fault env operation oid db = (r, db')
  | FailOperation operation oid response audit => fun db r db' =>
      exists fault env, fail_operation self fault env operation oid response audit db = (r, db')
  | ServiceOverview organization project service => fun db r db' =>
      rtc (store_step self bucket_of) db db' /\
      (r = Store.service_overview organization project service db db' \/
       exists e, r = Err (Database e))
  | ListCredentials organization project service => fun db r db' =>
      rtc (store_step self bucket_of) db db' /\
      (r = Store.list_credentials organization project service db db' \/
       exists e, r = Err (Database e))
  | RecordUsage organization project service b n measured => fun db r db' =>
      exists fault env, record_usage fault env organization project service b n measured db = (r, db')
  | RecordAudit audit => fun db r db' =>
      exists fault env, record_audit fault env audit db = (r, db')
  end.

Definition api_step (X : Type) (e : ApiE X) : Db -> X -> Db -> Prop :=
  match e with
  | StoreCall e => repository_step _ e
  | GarageCall _ => fun db _ db' => db' = db
  | UtcNow => fun db _ db' => db' = db
  | NowV7 => fun db _ db' => db' = db
  end.

(** What [StoreStep] assumes of the commands and responses. *)
Definition repository_call_ok (X : Type) (e : RepositoryE X) : Prop :=
  match e with
  | PrepareReconcile command => command_ok bucket_of (ReconcileOp command)
  | CompleteReconcile command _ _ response _ =>
      command_ok bucket_of (ReconcileOp command) /\ response_ok response
  | PrepareDelete command => command_ok bucket_of (DeleteOp command)
  | CompleteDelete command _ response _ =>
      command_ok bucket_of (DeleteOp command) /\ response_ok response
  | PrepareCreateCredential command => command_ok bucket_of (CreateOp command)
  | CompleteCreateCredential command _ _ response _ =>
      command_ok bucket_of (CreateOp command) /\ response_ok response
  | PrepareRevokeCredential command => command_ok bucket_of (RevokeOp command)
  | CompleteRevokeCredential command _ response _ =>
      command_ok bucket_of (RevokeOp command) /\ response_ok response
  | FailOperation _ _ response _ => response_ok response
  | _ => True
  end.

Definition call_ok (ev : event ApiE) : Prop :=
  match ev with
  | Event e _ => match e with StoreCall e => repository_call_ok _ e | _ => True end
  end.

Lemma repository_step_store X (e : RepositoryE X) x db db' :
  repository_call_ok X e -> repository_step X e db x db' -> rtc (store_step self bucket_of) db db'.
Proof.
  destruct e; simpl; intros Hok Hs; try (destruct Hs as (fault & env & Hs); apply rtc_once;
    exists env); destruct_and?.
  - by subst.
  - by eapply step_prepare_reconcile.
  - by eapply step_complete_reconcile.
  - by eapply step_prepare_delete.
  - by eapply step_complete_delete.
  - by eapply step_prepare_create.
  - by eapply step_complete_create.
  - by eapply step_prepare_revoke.
  - by eapply step_complete_revoke.
  - by eapply step_renew.
  - by eapply step_fail.
  - done.
  - done.
  - by eapply step_usage.
  - by eapply step_audit.
Qed.

Lemma api_step_store X (e : ApiE X) x db db' :
  call_ok (Event e x) -> api_step X e db x db' -> rtc (store_step self bucket_of) db db'.
Proof.
  destruct e; simpl; [apply repository_step_store|intros _ ->; done..].
Qed.
End store_impl.

(** ** The checks before the command *)

Section fronts.
Context `{AuthLib} `{PrincipalLib} `{ApiLib}.

(** The only effect is reading the clock. *)
Definition clock_event (ev : event ApiE) : Prop :=
  match ev with Event e _ => match e with UtcNow => True | _ => False end end.

Lemma runs_provider_claims state headers action tr r :
  runs (provider_claims state headers action) tr r ->
  Forall clock_event tr /\ exists t1 t2,
    r = map_err ApiError_from_AuthError
          (authenticate_headers_for_action (provider_auth state) t1 t2 headers action).
Proof.
  intros (t1 & tr1 & -> & t2 & tr2 & -> & -> & ->). split; [by repeat constructor|eauto].
Qed.

Lemma runs_authorize state headers permission tr r :
  runs (authorize state headers permission) tr r ->
  Forall clock_event tr /\ exists t,
    r = (principal ← map_err ApiError_from_PrincipalAuthError
                       (authenticate (principal_auth state) t headers);
         _ ← map_err ApiError_from_PrincipalAuthError (Principal_require principal permission);
         Ok principal).
Proof. intros (t & tr1 & -> & -> & ->). split; [by repeat constructor|eauto]. Qed.

(** A provider command is built from authenticated claims that name the path's
    service and the body's generation, under the token's own idempotency key. *)
Record provider_operation (state : AppState) (headers : HeaderMap) (action : string)
    (generation : Z) (encoded : option bytes) (o : OperationRequest) : Prop := {
  po_claims : exists t1 t2 claims,
    authenticate_headers_for_action (provider_auth state) t1 t2 headers action = Ok claims /\
    require_idempotency_key headers (pc_jwt_id claims) = Ok tt /\
    op_idempotency_key o = pc_jwt_id claims /\
    op_organization_id o = pc_organization_id claims /\
    op_project_id o = pc_project_id claims /\
    op_service_instance_id o = pc_service_instance_id claims /\
    op_principal_id o = pc_subject claims /\
    generation = pc_generation claims;
  po_action : op_action o = action;
  po_generation : op_generation o = Some generation;
  po_hash : request_hash sha256 action encoded = Ok (op_request_hash o);
}.

Lemma clock_only_claims state headers action past :
  always (fun _ ev => clock_event ev) past (provider_claims state headers action).
Proof. unfold provider_claims, ret. walk; done. Qed.

Lemma clock_only_authorize state headers permission past :
  always (fun _ ev => clock_event ev) past (authorize state headers permission).
Proof. unfold authorize, ret. walk; done. Qed.

Lemma clock_only_reconcile state path headers json past :
  always (fun _ ev => clock_event ev) past (reconcile_command state path headers json).
Proof. unfold reconcile_command, ret. walk; apply clock_only_claims. Qed.

Lemma clock_only_delete state path query headers past :
  always (fun _ ev => clock_event ev) past (delete_command state path query headers).
Proof. unfold delete_command, ret. walk; apply clock_only_claims. Qed.

Lemma clock_only_create state headers json past :
  always (fun _ ev => clock_event ev) past (create_credential_command state headers json).
Proof. unfold create_credential_command, ret. walk; apply clock_only_authorize. Qed.

Lemma clock_only_revoke state path headers past :
  always (fun _ ev => clock_event ev) past (revoke_credential_command state path headers).
Proof. unfold revoke_credential_command, ret. walk; apply clock_only_authorize. Qed.

Lemma runs_reconcile_command state path headers json tr command :
  runs (reconcile_command state path headers json) tr (Ok command) ->
  exists request, json = Ok request /\ path = Ok (op_service_instance_id (rec_operation command)) /\
    provider_operation state headers PROVIDER_RECONCILE_ACTION (rec_generation command)
      (reconcile_request_to_vec request) (rec_operation command) /\
    rec_generation command = rr_generation request /\
    rec_name command = rr_name request /\ rec_spec command = rr_spec request /\
    SyouyuSpec_validate (rr_spec request) = Ok tt.
Proof.
  unfold reconcile_command, ret.
  intros [(e & _ & _ & [=])|(service & Hpath%map_err_Ok & Hr)]%runs_ret_try.
  apply runs_ret_try in Hr as [(e & _ & _ & [=])|(request & Hjson%map_err_Ok & Hr)].
  apply runs_try in Hr as [(e & _ & [=])|Hr].
  destruct Hr as (tr1 & tr2 & claims & -> & (_ & t1 & t2 & Ha)%runs_provider_claims & Hr).
  symmetry in Ha. apply map_err_Ok in Ha.
  apply runs_ret_try in Hr as [(e & _ & _ & [=])|([] & Hid%map_err_Ok & Hr)].
  case_match eqn:Hscope; [by destruct Hr as [_ ?]|].
  apply runs_ret_try in Hr as [(e & _ & _ & [=])|([] & Hspec%map_err_Ok & Hr)].
  case_match eqn:Hregion; [by destruct Hr as [_ ?]|].
  apply runs_ret_try in Hr as [(e & _ & _ & [=])|(hash & Hh%map_err_Ok & [_ [= ->]])].
  reflect. destruct Hscope as [Hs Hg]. exists request. simpl. split; [done|].
  split; [done|]. split; [|done].
  constructor; [|done..]. exists t1, t2, claims. split_and!; simpl; congruence || done.
Qed.

Lemma runs_delete_command state path query headers tr command :
  runs (delete_command state path query headers) tr (Ok command) ->
  path = Ok (op_service_instance_id (del_operation command)) /\
  provider_operation state headers PROVIDER_DELETE_ACTION (del_generation command)
    (value_to_vec (json_object
       [("service_instance_id", uuid_value (op_service_instance_id (del_operation command)));
        ("generation", number (del_generation command))])) (del_operation command).
Proof.
  unfold delete_command, ret.
  intros [(e & _ & _ & [=])|(service & Hpath%map_err_Ok & Hr)]%runs_ret_try.
  apply runs_ret_try in Hr as [(e & _ & _ & [=])|(request & Hq%map_err_Ok & Hr)].
  apply runs_try in Hr as [(e & _ & [=])|Hr].
  destruct Hr as (tr1 & tr2 & claims & -> & (_ & t1 & t2 & Ha)%runs_provider_claims & Hr).
  symmetry in Ha. apply map_err_Ok in Ha.
  apply runs_ret_try in Hr as [(e & _ & _ & [=])|([] & Hid%map_err_Ok & Hr)].
  case_match eqn:Hscope; [by destruct Hr as [_ ?]|].
  apply runs_ret_try in Hr as [(e & _ & _ & [=])|(hash & Hh%map_err_Ok & [_ [= ->]])].
  reflect. destruct Hscope as [Hs Hg]. split; [done|].
  constructor; [|done..]. exists t1, t2, claims. split_and!; simpl; congruence || done.
Qed.

(** A principal command is built from an accepted context that carries the
    permission, in the context's own scope. *)
Definition principal_command (state : AppState) (headers : HeaderMap)
    (permission action : string) (encoded : option bytes) (principal : Principal)
    (o : OperationRequest) : Prop :=
  exists t key hash,
    authenticate (principal_auth state) t headers = Ok principal /\
    permission ∈ principal_permissions principal /\
    public_idempotency_key headers = Ok key /\
    request_hash sha256 action encoded = Ok hash /\
    o = principal_operation principal key action hash.

Lemma authorize_Ok state headers permission tr principal :
  runs (authorize state headers permission) tr (Ok principal) ->
  exists t, authenticate (principal_auth state) t headers = Ok principal /\
            permission ∈ principal_permissions principal.
Proof.
  intros (_ & t & Hr)%runs_authorize. exists t. symmetry in Hr.
  apply result_bind_Ok in Hr as (q & Ha%map_err_Ok & Hr).
  apply result_bind_Ok in Hr as ([] & Hp%map_err_Ok & [= ->]). split; [done|].
  unfold Principal_require in Hp. by case_bool_decide.
Qed.

Lemma runs_create_command state headers json tr principal command :
  runs (create_credential_command state headers json) tr (Ok (principal, command)) ->
  exists request, json = Ok request /\
  principal_command state headers CREDENTIAL_CREATE_PERMISSION CREDENTIAL_CREATE_ACTION
    (value_to_vec (json_object
       [("request", json_object [("name", JString (ccr_name request));
                                 ("permissions", permissions_value (ccr_permissions request))]);
        ("credential_limits", limits_value (principal_credential_limits principal))]))
    principal (cre_operation command) /\
  cre_name command = ccr_name request /\ cre_permissions command = ccr_permissions request /\
  cre_credential_limits command = principal_credential_limits principal.
Proof.
  unfold create_credential_command, ret.
  intros [(e & _ & _ & [=])|(request & Hq%map_err_Ok & Hr)]%runs_ret_try.
  apply runs_try in Hr as [(e & _ & [=])|(tr1 & tr2 & q & -> & (t & Ha & Hp)%authorize_Ok & Hr)].
  apply runs_ret_try in Hr as [(e & _ & _ & [=])|([] & _ & Hr)].
  apply runs_ret_try in Hr as [(e & _ & _ & [=])|(key & Hk & Hr)].
  apply runs_ret_try in Hr as [(e & _ & _ & [=])|(hash & Hh%map_err_Ok & [_ [= -> ->]])].
  exists request. split; [done|]. split; [|done]. by exists t, key, hash.
Qed.

Lemma runs_revoke_command state path headers tr principal command :
  runs (revoke_credential_command state path headers) tr (Ok (principal, command)) ->
  path = Ok (rev_credential_id command) /\
  principal_command state headers CREDENTIAL_REVOKE_PERMISSION CREDENTIAL_REVOKE_ACTION
    (value_to_vec (json_object [("credential_id", uuid_value (rev_credential_id command))]))
    principal (rev_operation command).
Proof.
  unfold revoke_credential_command, ret.
  intros [(e & _ & _ & [=])|(id & Hq%map_err_Ok & Hr)]%runs_ret_try.
  apply runs_try in Hr as [(e & _ & [=])|(tr1 & tr2 & q & -> & (t & Ha & Hp)%authorize_Ok & Hr)].
  apply runs_ret_try in Hr as [(e & _ & _ & [=])|(key & Hk & Hr)].
  apply runs_ret_try in Hr as [(e & _ & _ & [=])|(hash & Hh%map_err_Ok & [_ [= -> ->]])].
  split; [done|]. by exists t, key, hash.
Qed.
End fronts.

(** ** The calls of the handlers are steps of the store *)

(** The encoded request determines the bucket name it asks for, and so does its
    digest, as far as the service is concerned. *)
Class HashBinds `{ApiLib} (bucket_of : bytes -> string) : Prop := {
  hash_binds request encoded :
    reconcile_request_to_vec request = Some encoded ->
    bucket_of (sha256 (hash_input PROVIDER_RECONCILE_ACTION encoded))
      = spec_bucket_name (rr_spec request);
}.

(** The response a handler stores is the one it built. *)
Ltac open_stored :=
  lazymatch goal with
  | Hs : runs (Ret (success_response _ _)) _ (Ok _) |- _ => destruct Hs as [_ [= ->]]
  end.

Section calls.
Context `{AuthLib} `{PrincipalLib} `{ApiLib} (bucket_of : bytes -> string) `{!HashBinds bucket_of}.

Abbreviation ok_calls := (always (fun _ ev => call_ok bucket_of ev)).

Lemma clock_call_ok ev : clock_event ev -> call_ok bucket_of ev.
Proof. destruct ev as [X e x]. by destruct e. Qed.

Lemma always_impl {E : Type -> Type} {A : Type} (P Q : event E -> Prop) past (p : prog E A) :
  (forall ev, P ev -> Q ev) -> always (fun _ ev => P ev) past p -> always (fun _ ev => Q ev) past p.
Proof.
  intros HPQ. revert past. induction p as [a|X e k IH]; intros past Hp; simpl in *; [done|].
  intros x. destruct (Hp x). auto.
Qed.

Lemma request_hash_Ok action encoded h :
  request_hash sha256 action encoded = Ok h ->
  exists b, encoded = Some b /\ h = sha256 (hash_input action b).
Proof. unfold request_hash. intros (b & Hb%ok_or_Ok & [= <-])%result_bind_Ok. eauto. Qed.

Lemma reconcile_front_ok state path headers json tr command :
  runs (reconcile_command state path headers json) tr (Ok command) ->
  command_ok bucket_of (ReconcileOp command).
Proof.
  intros (request & _ & _ & [_ Ha _ Hh] & _ & _ & Hs & _)%runs_reconcile_command.
  apply request_hash_Ok in Hh as (b & Hb & Hh). split; [done|].
  rewrite Hs, Hh. symmetry. by apply hash_binds.
Qed.

Lemma delete_front_ok state path query headers tr command :
  runs (delete_command state path query headers) tr (Ok command) ->
  command_ok bucket_of (DeleteOp command).
Proof. by intros (_ & [_ Ha Hg _])%runs_delete_command. Qed.

Lemma create_front_ok state headers json tr principal command :
  runs (create_credential_command state headers json) tr (Ok (principal, command)) ->
  command_ok bucket_of (CreateOp command).
Proof. by intros (? & _ & (? & ? & ? & _ & _ & _ & _ & Ho) & _)%runs_create_command; simpl; rewrite Ho. Qed.

Lemma revoke_front_ok state path headers tr principal command :
  runs (revoke_credential_command state path headers) tr (Ok (principal, command)) ->
  command_ok bucket_of (RevokeOp command).
Proof. by intros (_ & (? & ? & ? & _ & _ & _ & _ & Ho))%runs_revoke_command; simpl; rewrite Ho. Qed.

Lemma request_id_calls headers past : ok_calls past (request_id headers).
Proof. unfold request_id. walk; done. Qed.

Lemma backend_failure_calls {A : Type} headers o oid error ctx ty id details past :
  ok_calls past (backend_failure (A := A) headers o oid error ctx ty id details).
Proof.
  unfold backend_failure, persist_backend_failure, ret. walk; [apply request_id_calls|].
  apply envelope_no_floats.
Qed.

Lemma reconciled_bucket_calls headers command oid context past :
  ok_calls past (reconciled_bucket_id headers command oid context).
Proof.
  unfold reconciled_bucket_id, store, garage, ret. walk; try done. apply backend_failure_calls.
Qed.

Lemma execute_reconcile_calls state headers command oid context past :
  command_ok bucket_of (ReconcileOp command) ->
  ok_calls past (execute_reconcile state headers command oid context).
Proof.
  intros Hok. unfold execute_reconcile, store, ret.
  walk; try done; [apply reconciled_bucket_calls|apply request_id_calls|].
  split; [done|]. open_stored. apply operation_response_no_floats.
Qed.

Lemma revoke_keys_calls headers o oid service generation keys past :
  ok_calls past (revoke_keys headers o oid service generation keys).
Proof.
  revert past. induction keys as [|k keys IH]; intros past;
    cbn [revoke_keys]; [done|].
  unfold store, garage. walk; try done. apply backend_failure_calls.
Qed.

Lemma empty_and_delete_calls headers o oid service generation bucket keys past :
  ok_calls past (empty_and_delete_bucket headers o oid service generation bucket keys).
Proof.
  unfold empty_and_delete_bucket, persist_failure, store, garage, ret.
  walk; try done; try apply backend_failure_calls; try apply request_id_calls;
    try apply revoke_keys_calls.
Qed.

Lemma execute_delete_calls headers command oid context past :
  command_ok bucket_of (DeleteOp command) ->
  ok_calls past (execute_delete headers command oid context).
Proof.
  intros Hok. unfold execute_delete, store, ret.
  walk; try done; [apply empty_and_delete_calls|apply request_id_calls|].
  split; [done|]. open_stored. apply operation_response_no_floats.
Qed.

Lemma execute_create_calls state headers principal command oid context past :
  command_ok bucket_of (CreateOp command) ->
  ok_calls past (execute_create state headers principal command oid context).
Proof.
  intros Hok. unfold execute_create, complete_issued, store, garage, ret.
  walk; try done; try apply backend_failure_calls; try apply request_id_calls.
  split; [done|]. open_stored. apply issued_no_floats.
Qed.

Lemma execute_revoke_calls headers principal command oid context past :
  command_ok bucket_of (RevokeOp command) ->
  ok_calls past (execute_revoke headers principal command oid context).
Proof.
  intros Hok. unfold execute_revoke, revoke_in_garage, store, garage, ret.
  walk; try done; try apply backend_failure_calls; try apply request_id_calls.
  split; [done|]. open_stored. apply revoked_no_floats.
Qed.

Lemma read_audit_calls principal headers action ty past :
  ok_calls past (record_read_audit principal headers action ty).
Proof. unfold record_read_audit, store, ret. walk; try done. apply request_id_calls. Qed.

Lemma handle_calls state request past : ok_calls past (handle state request).
Proof.
  assert (Hclock : forall A (p : prog ApiE A) past, always (fun _ ev => clock_event ev) past p ->
    ok_calls past p) by (intros; eapply always_impl; [apply clock_call_ok|done]).
  destruct request; cbn [handle].
  - unfold reconcile_service_instance, store, ret. walk; try done.
    + apply Hclock, clock_only_reconcile.
    + by eapply reconcile_front_ok.
    + by eapply execute_reconcile_calls, reconcile_front_ok.
  - unfold delete_service_instance, store, ret. walk; try done.
    + apply Hclock, clock_only_delete.
    + by eapply delete_front_ok.
    + by eapply execute_delete_calls, delete_front_ok.
  - unfold Routes.create_credential, store, ret. walk; subst; try done.
    + apply Hclock, clock_only_create.
    + by eapply create_front_ok.
    + by eapply execute_create_calls, create_front_ok.
  - unfold Routes.revoke_credential, store, ret. walk; subst; try done.
    + apply Hclock, clock_only_revoke.
    + by eapply revoke_front_ok.
    + by eapply execute_revoke_calls, revoke_front_ok.
  - unfold Routes.service_overview, store, ret. walk; try done. apply read_audit_calls.
  - unfold service_usage, store, garage, ret. walk; try done. apply read_audit_calls.
  - unfold Routes.list_credentials, store, ret. walk; try done. apply read_audit_calls.
  - unfold ready, store, garage, ret. walk; done.
  - done.
  - done.
  - done.
Qed.
End calls.

(** A run of a handler is a run of the store. *)
Lemma handler_steps `{AuthLib} `{PrincipalLib} `{ApiLib} `{SerdeJson} `{Aead}
    self bucket_of `{!HashBinds bucket_of} state request db tr r db' :
  exec (store_step self bucket_of) (api_step self bucket_of) (handle state request) db tr r db' ->
  rtc (store_step self bucket_of) db db'.
Proof.
  intros Hx. refine (exec_steps _ _ (call_ok bucket_of) [] _ _ _ _ _ _
                       (handle_calls bucket_of state request []) Hx).
  intros X e x w w'. apply api_step_store.
Qed.

(** C13. The handlers only use the store as the transition system of [StoreStep]
    says: whatever Garage and the clock answer and whatever other requests do in
    between, running any request from a reachable database leaves it in a
    reachable one, so every property of the reachable states holds under the
    real request handlers. *)
Theorem handlers_preserve_reachability `{AuthLib} `{PrincipalLib} `{ApiLib} `{SerdeJson} `{Aead}
    self bucket_of `{!HashBinds bucket_of} state request db tr r db' :
  reachable self bucket_of db ->
  exec (store_step self bucket_of) (api_step self bucket_of) (handle state request) db tr r db' ->
  reachable self bucket_of db'.
Proof.
  intros Hr Hx. apply handler_steps in Hx; [|done]. unfold reachable in *. by etrans.
Qed.
