(* ===== verification/RouteErrors.v ===== *)
(** * How a granted attempt can fail

    An attempt that the store granted on a usable context ends in success, or its
    error is accounted for: the failure was stored in the receipt, or a call on the
    store reported the error itself. *)

From S2P Require Import Prelude Prog RustStr Domain Garage GarageAdapter Json Auth StoreModels PrincipalAuth ApiError Cipher Tables Receipts Store StoreStep Commands Routes RouteProps.

(** No call on the store. *)
Definition no_store (ev : event ApiE) : Prop :=
  match ev with Event (StoreCall _) _ => False | _ => True end.

Section settled.
Context `{AuthLib} `{PrincipalLib} `{ApiLib}.

(** The last call stored [e] as the result of the attempt. *)
Definition failure_stored (o : OperationRequest) (oid : Uuid) (e : ApiError)
    (tr : list (event ApiE)) : Prop :=
  exists tr0 audit,
    tr = tr0 ++ [Event (StoreCall (FailOperation o oid
      {| resp_status := api_status e; resp_body := envelope e; resp_failed := true |} audit)) (Ok tt)].

(** The last call on the store reported the error [e] stands for. *)
Definition store_refused (e : ApiError) (tr : list (event ApiE)) : Prop :=
  exists tr0 A (call : RepositoryE (result StoreError A)) error tr1,
    tr = tr0 ++ Event (StoreCall call) (Err error) :: tr1 /\
    e = ApiError_from_StoreError error /\ Forall no_store tr1.

Definition settled (o : OperationRequest) (oid : Uuid) (e : ApiError) (tr : list (event ApiE))
  : Prop := failure_stored o oid e tr \/ store_refused e tr.

(** What the handlers rely on in a granted attempt: the generation is not negative,
    and the bucket of an applied, deleted or used service has its physical identifier. *)
Definition usable (ev : event ApiE) : Prop :=
  match ev with
  | Event e x =>
      match e in ApiE X return X -> Prop with
      | StoreCall e =>
          match e in RepositoryE X return X -> Prop with
          | PrepareReconcile c => fun x => forall oid context, x = Ok (Execute oid context) ->
              (0 <= rec_generation c)%Z /\
              (rc_previously_applied context = true ->
               is_some (br_physical_bucket_id (rc_bucket context)) = true)
          | PrepareDelete c => fun x => forall oid context, x = Ok (Execute oid context) ->
              (0 <= del_generation c)%Z /\ is_some (br_physical_bucket_id (dc_bucket context)) = true
          | PrepareCreateCredential _ => fun x => forall oid context, x = Ok (Execute oid context) ->
              is_some (br_physical_bucket_id (cc_bucket context)) = true
          | _ => fun _ => True
          end
      | _ => fun _ => True
      end x
  end.

Lemma settled_app o oid e tr tr' : settled o oid e tr' -> settled o oid e (tr ++ tr').
Proof.
  intros [(tr0 & audit & ->)|(tr0 & A & c & error & tr1 & -> & -> & Hn)].
  - left. exists (tr ++ tr0), audit. by rewrite app_assoc.
  - right. exists (tr ++ tr0), A, c, error, tr1. by rewrite app_assoc.
Qed.

(** Every error of [m] is accounted for. *)
Definition settles {A : Type} (o : OperationRequest) (oid : Uuid)
    (m : prog ApiE (result ApiError A)) : Prop :=
  forall tr e, runs m tr (Err e) -> settled o oid e tr.

Lemma settles_try {A B : Type} o oid (m : prog ApiE (result ApiError A))
    (k : A -> prog ApiE (result ApiError B)) :
  settles o oid m -> (forall tr a, runs m tr (Ok a) -> settles o oid (k a)) ->
  settles o oid (try_bind m k).
Proof.
  intros Hm Hk tr e [(e' & Hr & [= <-])|(tr1 & tr2 & a & -> & Hr & Hr')]%runs_try; [by apply Hm|].
  apply settled_app. by eapply Hk.
Qed.

Lemma settles_bind {A B : Type} o oid (m : prog ApiE A) (k : A -> prog ApiE (result ApiError B)) :
  (forall tr a, runs m tr a -> settles o oid (k a)) -> settles o oid (m ≫= k).
Proof.
  intros Hk tr e (tr1 & tr2 & a & -> & Hr & Hr')%runs_bind. apply settled_app. by eapply Hk.
Qed.

Lemma settles_Ok {A : Type} o oid (a : A) : settles o oid (Ret (Ok a)).
Proof. by intros tr e [_ [=]]. Qed.

Lemma settles_some {A : Type} o oid (v : option A) :
  is_some v = true -> settles o oid (Ret (ok_or internal v)).
Proof. intros Hv tr e [_ He]. by destruct v. Qed.

(** A response with a valid status is always sent. *)
Lemma settles_stored o oid stored :
  (100 <= resp_status stored <= 999)%Z -> settles o oid (Ret (stored_into_response stored)).
Proof.
  intros Hs tr e [_ He]. unfold stored_into_response in He.
  by rewrite (proj2 (Z.leb_le _ _)), (proj2 (Z.leb_le _ _)) in He by lia.
Qed.

Lemma settles_store {A : Type} o oid (c : RepositoryE (result StoreError A)) :
  settles o oid (store c).
Proof.
  intros tr e ([a|error] & Hr%runs_call & [= ->])%runs_map_err. subst tr.
  right. by exists [], A, c, error, [].
Qed.

Lemma settles_backend_failure {A : Type} o oid headers error ctx ty id details :
  settles o oid (backend_failure (A := A) headers o oid error ctx ty id details).
Proof.
  unfold backend_failure. apply settles_bind. intros _ rid _. unfold persist_backend_failure, ret.
  intros tr e (tr1 & tr2 & e' & -> & Hr & -> & [= ->])%runs_bind. rewrite app_nil_r.
  apply runs_bind in Hr as (tr3 & tr4 & [[]|err] & -> & ->%runs_call & -> & ->).
  - left. by eexists [], _.
  - right. by eexists [], _, _, err, [].
Qed.

Lemma settles_persist {A : Type} o oid error audit :
  settles o oid (_ ←? persist_failure o oid error audit; ret (Err error) : Handler A).
Proof.
  unfold persist_failure, ret. intros tr e Hr.
  apply runs_try in Hr as [(e' & Hr & [= <-])|(tr1 & tr2 & [] & -> & Hr & -> & [= ->])].
  - apply runs_try in Hr as [(e' & Hr & [= <-])|(tr1 & tr2 & [] & -> & _ & _ & [=])].
    by eapply settles_store.
  - apply runs_try in Hr as [(e' & _ & [=])|(tr1' & tr2 & [] & -> & Hr & -> & _)].
    apply runs_map_err in Hr as ([[]|] & ->%runs_call & [=]). left. by eexists [], _.
Qed.

(** A lost lease reports the error of the completion after the key was taken back. *)
Lemma settles_taken_back {A : Type} o oid command id credential response audit
    (k : result StoreError unit -> Handler A) :
  (forall u, settles o oid (k (Ok u))) ->
  (forall error, k (Err error) =
     (match error with
      | OperationLeaseLost _ => _ ← garage (RevokeCredential (nc_garage_key_id credential));
                                ret (Err (ApiError_from_StoreError error))
      | _ => ret (Err (ApiError_from_StoreError error))
      end)) ->
  settles o oid (call (StoreCall (CompleteCreateCredential command id credential response audit))
                 ≫= k).
Proof.
  intros Hok Herr tr e (tr1 & tr2 & [u|error] & -> & ->%runs_call & Hr)%runs_bind.
  { apply settled_app. by eapply Hok. }
  rewrite Herr in Hr. right.
  assert (Forall no_store tr2 /\ e = ApiError_from_StoreError error) as [Hn ->].
  { destruct error; try by destruct Hr as [-> [= ->]].
    apply runs_bind in Hr as (tr3 & tr4 & x & -> & ->%runs_call & -> & [= ->]).
    split; [by constructor|done]. }
  by eexists [], _, _, error, tr2.
Qed.

(** Walk through a handler, stopping at the parts that can fail. *)
Ltac settle :=
  repeat first
    [ (apply settles_taken_back; [intros u|by intros []]) | apply settles_Ok
    | apply settles_some | apply settles_stored | apply settles_store
    | apply settles_backend_failure | apply settles_persist
    | lazymatch goal with
      | |- settles _ _ (_ ≫= _) => apply settles_bind; intros
      | |- settles _ _ (try_bind _ _) => apply settles_try; [|intros]
      | |- settles _ _ (match ?b with _ => _ end) => destruct b eqn:?
      end ].

Lemma settles_revoke_keys headers o oid service generation keys :
  settles o oid (revoke_keys headers o oid service generation keys).
Proof. induction keys as [|k keys IH]; cbn [revoke_keys]; settle. apply IH. Qed.

Lemma generation_some generation : (0 <= generation)%Z -> is_some (u64_try_from_i64 generation) = true.
Proof. intros Hg. unfold u64_try_from_i64. by rewrite (proj2 (Z.leb_le _ _)). Qed.

(** The responses the handlers record. *)
Lemma success_status status value tr stored :
  runs (Ret (Ok {| resp_status := status; resp_body := value; resp_failed := false |})
        : Handler StoredHttpResponse) tr (Ok stored) -> resp_status stored = status.
Proof. by intros [_ [= ->]]. Qed.

(** Close the side conditions [settle] leaves. *)
Ltac settled_status :=
  match goal with
  | Hr : runs (Ret (Ok _)) _ (Ok ?stored) |- (100 <= resp_status ?stored <= 999)%Z =>
      rewrite (success_status _ _ _ _ Hr); repeat case_match; lia
  end.

Lemma execute_reconcile_settles state headers command oid context :
  usable (Event (StoreCall (PrepareReconcile command)) (Ok (Execute oid context))) ->
  settles (rec_operation command) oid (execute_reconcile state headers command oid context).
Proof.
  intros Hu. destruct (Hu _ _ eq_refl) as [Hg Hp].
  unfold execute_reconcile, reconciled_bucket_id, request_generation, success_response, ret.
  cbv zeta. settle; [by apply Hp|by apply generation_some|settled_status..].
Qed.

Lemma execute_delete_settles headers command oid context :
  usable (Event (StoreCall (PrepareDelete command)) (Ok (Execute oid context))) ->
  settles (del_operation command) oid (execute_delete headers command oid context).
Proof.
  intros Hu. destruct (Hu _ _ eq_refl) as [Hg Hp].
  unfold execute_delete, empty_and_delete_bucket, request_generation, success_response, ret.
  cbv zeta. settle; [done|apply settles_revoke_keys|by apply generation_some|settled_status].
Qed.

Lemma execute_create_settles state headers principal command oid context :
  usable (Event (StoreCall (PrepareCreateCredential command)) (Ok (Execute oid context))) ->
  settles (cre_operation command) oid
    (execute_create state headers principal command oid context).
Proof.
  intros Hu. specialize (Hu _ _ eq_refl).
  unfold execute_create, complete_issued, success_response, ret. cbv zeta.
  settle; [done|settled_status].
Qed.

Lemma execute_revoke_settles headers principal command oid context :
  settles (rev_operation command) oid (execute_revoke headers principal command oid context).
Proof.
  unfold execute_revoke, revoke_in_garage, success_response, ret. cbv zeta. settle; settled_status.
Qed.
End settled.
