(* ===== verification/ApiSamples.v ===== *)
(** * A concrete service

    Concrete libraries for the handlers, a sample state and requests, and a
    driver that runs a handler against the store of [Samples]; the witnesses of
    the handlers' properties evaluate on it. *)

From stdpp Require Import pretty relations.
From S2P Require Import Prelude Prog RustStr Domain Garage GarageAdapter Json Auth StoreModels PrincipalAuth ApiError Cipher Tables Receipts ReceiptLemmas Store StoreEffects StoreStep Samples ReceiptProtocol Commands Routes RouteProps.

Definition sample_request : ReconcileRequest := {|
  rr_generation := 1; rr_name := "svc"; rr_spec := sample_bucket_spec |}.

#[export] Instance ReconcileRequest_eq_dec : EqDecision ReconcileRequest.
Proof. solve_decision. Defined.

(** Only the sample request is serialized, to no bytes; the digest is constant. *)
Definition sample_api : @ApiLib sample_url :=
  @Build_ApiLib sample_url (fun s => Z.to_N <$> parse_u64 s) (fun u => u) (fun t => pretty t)
    (fun r => if decide (r = sample_request) then Some [] else None) (fun _ => Some [])
    (fun _ => replicate 32 nul).

Lemma sample_hash_binds : @HashBinds sample_url sample_api sample_bucket_of.
Proof. constructor. simpl. intros r b. case_decide; [|done]. by subst. Qed.

(** Tokens that carry the given claims. *)
Definition claims_auth (claims : ProviderClaims) : AuthLib := {|
  HeaderMap := list (string * string);
  HeaderValue := string;
  headers_get h name := snd <$> List.find (fun kv => String.eqb kv.1 name) h;
  value_to_str := Some;
  uuid_to_string u := pretty u;
  DecodingKey := bytes;
  from_ed_pem := Some;
  public_keys_from_str s := Some {["k" := s]};
  decode_header _ := Some {| alg := EdDSA; kid := Some "k" |};
  jwt_decode _ _ _ _ := Some claims;
|}.

(** The decimal text of a number has no hyphen. *)
Definition hyphen : Byte.byte := Byte.x2d.

Lemma pretty_go_no_hyphen n s :
  hyphen ∉ str_bytes s -> hyphen ∉ str_bytes (pretty_N_go n s).
Proof.
  revert s. induction (N.lt_wf_0 n) as [n _ IH]; intros s Hs.
  destruct (decide (n = 0)%N) as [->|Hn]; [by rewrite pretty_N_go_0|].
  rewrite pretty_N_go_step by lia. apply IH; [apply N.div_lt; lia|].
  unfold str_bytes, String.list_byte_of_string in *. simpl. intros [Hc|Hc]%elem_of_cons; [|done].
  unfold pretty_N_char in Hc. by repeat case_match.
Qed.

Lemma pretty_no_hyphen (n : N) : hyphen ∉ str_bytes (pretty n).
Proof.
  unfold pretty, pretty_N. case_decide; [|apply pretty_go_no_hyphen; by intros ?%elem_of_nil].
  intros Hc. apply list_elem_of_In in Hc. simpl in Hc. by destruct Hc.
Qed.

Lemma pretty_hyphen_inj (u w : N) x y :
  pretty u +:+ "-" +:+ x = pretty w +:+ "-" +:+ y -> u = w.
Proof.
  intros Heq%(f_equal str_bytes). rewrite !str_bytes_app in Heq.
  apply (split_at_first hyphen) in Heq as [Heq%str_bytes_inj _]; try apply pretty_no_hyphen.
  by apply (inj pretty) in Heq.
Qed.

Definition reconcile_claims : ProviderClaims := sample_claims.
Definition delete_claims : ProviderClaims := {|
  pc_issuer := "heterocloud"; pc_audience := "heterocloud-syouyu"; pc_subject := 7;
  pc_organization_id := 1; pc_project_id := 2; pc_service_instance_id := 3;
  pc_action := PROVIDER_DELETE_ACTION; pc_generation := 2; pc_jwt_id := 42;
  pc_issued_at := 1000; pc_not_before := 995; pc_expires_at := 1060 |}.

Section sample_state.
Context (claims : ProviderClaims).
#[local] Existing Instance sample_url.
#[local] Existing Instance sample_principal_lib.
#[local] Existing Instance sample_api.

Definition sample_state : @AppState (claims_auth claims) sample_url :=
  @Build_AppState (claims_auth claims) sample_url
    (@Build_ProviderAuthenticator (claims_auth claims) "heterocloud"
       "heterocloud-syouyu" ({["k" := str_bytes "pem"]} : gmap string bytes) 5%Z)
    sample_principal_authenticator "r" "http://s3/".

Definition api_headers : @HeaderMap (claims_auth claims) :=
  [("authorization", "Bearer token"); ("idempotency-key", "42"); ("x-request-id", "q")].
End sample_state.

Definition put_request : @ApiRequest (claims_auth reconcile_claims) :=
  @PutServiceInstance (claims_auth reconcile_claims) (Ok 3%N) (api_headers reconcile_claims)
    (Ok sample_request).
Definition delete_request : @ApiRequest (claims_auth delete_claims) :=
  @DeleteServiceInstance (claims_auth delete_claims) (Ok 3%N) (Ok {| dq_generation := 2 |})
    (api_headers delete_claims).

Definition put_handler : prog ApiE (result ApiError HttpResponse) :=
  @handle (claims_auth reconcile_claims) sample_principal_lib sample_url sample_api
    (sample_state reconcile_claims) put_request.
Definition delete_handler : prog ApiE (result ApiError HttpResponse) :=
  @handle (claims_auth delete_claims) sample_principal_lib sample_url sample_api
    (sample_state delete_claims) delete_request.

(** ** Answers *)

Definition sample_record : BucketRecord := {|
  br_service_instance_id := 3; br_organization_id := 1; br_project_id := 2;
  br_physical_bucket_id := Some "phys"; br_bucket_name := "abc"; br_region := "r";
  br_quota_bytes := 10; br_quota_objects := 5; br_used_bytes := 0; br_used_objects := 0;
  br_usage_measured_at := None |}.

Definition sample_backend (X : Type) (e : GarageE X) : X :=
  match e with
  | GarageHealth => Ok tt
  | ReconcileBucket _ _ => Ok {| rb_physical_bucket_id := "phys" |}
  | BucketUsageOf _ => Ok BucketUsage_default
  | CreateCredential _ _ _ => Ok {| ic_garage_key_id := "g"; ic_access_key_id := "a";
                                    ic_secret_access_key := "s" |}
  | RevokeCredential _ => Ok tt
  | DeleteBucket _ => Ok tt
  end.

(** A repository that grants every attempt. *)
Definition granting_repository (X : Type) (e : RepositoryE X) : X :=
  match e with
  | PrepareReconcile _ =>
      Ok (Execute 100%N {| rc_bucket := sample_record; rc_previously_applied := false |})
  | PrepareDelete _ =>
      Ok (Execute 100%N {| dc_bucket := sample_record; dc_garage_key_ids := ["g1"; "g2"] |})
  | PrepareCreateCredential _ =>
      Ok (Execute 100%N {| cc_bucket := sample_record; cc_credential_id := 200 |})
  | PrepareRevokeCredential _ =>
      Ok (Execute 100%N {| vc_garage_key_id := "g"; vc_already_revoked := false |})
  | ServiceOverview _ _ _ | ListCredentials _ _ _ | RecordUsage _ _ _ _ _ _ => Err NotFound
  | StoreHealth => Ok tt
  | CompleteReconcile _ _ _ _ _ | CompleteDelete _ _ _ _ | CompleteCreateCredential _ _ _ _ _
  | CompleteRevokeCredential _ _ _ _ | RenewOperation _ _ | FailOperation _ _ _ _
  | RecordAudit _ => Ok tt
  end.

Definition granting_world (X : Type) (e : ApiE X) : X :=
  match e with
  | StoreCall e => granting_repository _ e
  | GarageCall e => sample_backend _ e
  | UtcNow => (1003 * second)%Z
  | NowV7 => 900%N
  end.

Definition put_run : list (event ApiE) * result ApiError HttpResponse :=
  drive granting_world put_handler.
Definition delete_run : list (event ApiE) * result ApiError HttpResponse :=
  drive granting_world delete_handler.

Example runs_succeed : is_ok put_run.2 && is_ok delete_run.2 = true.
Proof. vm_compute. reflexivity. Qed.
