(* ===== verification/Router.v ===== *)
(** * The router ([crates/syouyu-api/src/routes.rs])

    From an HTTP request to its response: the table of paths and methods with its
    fallbacks and its layers, and the extractors of the handlers.  The frameworks are
    a parameter ([AxumLib]): axum turns a table of routes into a service, tower-http's
    layers wrap a service, Swagger UI adds pages.  [AxumLaws] states what their
    documentation says of these, and [serve] is the table of the source given to
    axum, wrapped in the layers of the source in their order. *)

From Stdlib Require Import Ascii.
From stdpp Require Import pretty.
From S2P Require Import Prelude Prog RustStr Domain Garage GarageAdapter Json Auth StoreModels PrincipalAuth ApiError StoreStep Routes RouteProps ApiSamples.

(** ** Requests and replies *)

Inductive Method : Type := GET | HEAD | POST | PUT | DELETE | OtherMethod (name : string).
#[export] Instance Method_eq_dec : EqDecision Method.
Proof. solve_decision. Defined.

(** What a route leads to: the handlers, and the pages of Swagger UI. *)
Inductive Endpoint : Type :=
| Live | ReadyCheck | Metrics | ReconcileInstance | DeleteInstance | Overview | Usage
| CreateCredentialEp | ListCredentialsEp | RevokeCredentialEp | Docs.
#[export] Instance Endpoint_eq_dec : EqDecision Endpoint.
Proof. solve_decision. Defined.

Record Route : Type := {
  route_path : string;
  route_methods : list (Method * Endpoint);
}.

(** The body limit, the two request-identifier layers and tracing, outermost last. *)
Inductive Layer : Type :=
| BodyLimit (bytes : Z)
| PropagateRequestId (header : string)
| SetRequestId (header : string)
| Trace.

Inductive Reply : Type :=
| JsonReply (response : HttpResponse)
| TextReply (status : Z) (headers : list (string * string)) (text : string).

Definition newline : string := String (ascii_of_nat 10) "".

Definition metrics : Reply :=
  TextReply 200 [("content-type", "text/plain; version=0.0.4; charset=utf-8")]
    ("# HELP syouyu_api_up Whether the Syouyu API process is running." +:+ newline +:+
     "# TYPE syouyu_api_up gauge" +:+ newline +:+ "syouyu_api_up 1" +:+ newline).

(** [async fn not_found], [async fn method_not_allowed]: the fallbacks. *)
Definition not_found_fallback : result ApiError HttpResponse := Err not_found.
Definition method_not_allowed_fallback : result ApiError HttpResponse := Err method_not_allowed.

(** [HeaderNameExt::request_id]. *)
Definition HeaderNameExt_request_id : string := REQUEST_ID.

(** [get(handler)]. *)
Definition get (e : Endpoint) : list (Method * Endpoint) := [(GET, e)].

Record Router : Type := {
  router_routes : list Route;
  router_docs : string;
  router_openapi : string;
  router_method_not_allowed : result ApiError HttpResponse;
  router_fallback : result ApiError HttpResponse;
  router_layers : list Layer;
}.

Definition router : Router := {|
  router_routes :=
    [ {| route_path := "/health/live"; route_methods := get Live |};
      {| route_path := "/health/ready"; route_methods := get ReadyCheck |};
      {| route_path := "/metrics"; route_methods := get Metrics |};
      {| route_path := "/internal/v1/service-instances/{service_instance_id}";
         route_methods := [(PUT, ReconcileInstance); (DELETE, DeleteInstance)] |};
      {| route_path := "/v1/service-overview"; route_methods := get Overview |};
      {| route_path := "/v1/usage"; route_methods := get Usage |};
      {| route_path := "/v1/credentials";
         route_methods := (POST, CreateCredentialEp) :: get ListCredentialsEp |};
      {| route_path := "/v1/credentials/{credential_id}";
         route_methods := [(DELETE, RevokeCredentialEp)] |} ];
  router_docs := "/docs";
  router_openapi := "/openapi.json";
  router_method_not_allowed := method_not_allowed_fallback;
  router_fallback := not_found_fallback;
  router_layers := [BodyLimit (64 * 1024); PropagateRequestId HeaderNameExt_request_id;
                    SetRequestId HeaderNameExt_request_id; Trace] |}.

(** ** Paths *)

Definition slash : ascii := "/".

Fixpoint segments (s : string) : list string :=
  match s with
  | "" => [""]
  | String c s' =>
      if Ascii.eqb c slash then "" :: segments s'
      else match segments s' with
           | seg :: rest => String c seg :: rest
           | [] => [String c ""]
           end
  end.

(** [{name}]. *)
Definition is_capture (seg : string) : bool := starts_with seg "{" && ends_with seg "}".

(** A pattern without a wildcard matches segment by segment; a capture takes one
    segment that is not empty. *)
Fixpoint match_segments (pattern path : list string) : option (list string) :=
  match pattern, path with
  | [], [] => Some []
  | p :: pattern', s :: path' =>
      if is_capture p then
        if str_is_empty s then None
        else captured ← match_segments pattern' path'; Some (s :: captured)
      else if String.eqb p s then match_segments pattern' path' else None
  | _, _ => None
  end.

(** A request on its way to the handler: [DefaultBodyLimit] leaves its limit with it. *)
Record HttpRequest `{AuthLib} : Type := {
  req_method : Method;
  req_path : string;
  req_query : option string;
  req_headers : HeaderMap;
  req_body : bytes;
  req_body_limit : option Z;
}.

(** What a handler replies. *)
Inductive ReplyBody : Type := JsonBody (value : Value) | TextBody (text : string).

Definition reply_status (reply : Reply) : Z :=
  match reply with JsonReply r => http_status r | TextReply status _ _ => status end.
Definition reply_headers (reply : Reply) : list (string * string) :=
  match reply with JsonReply r => http_headers r | TextReply _ headers _ => headers end.
Definition reply_body (reply : Reply) : ReplyBody :=
  match reply with JsonReply r => JsonBody (http_body r) | TextReply _ _ text => TextBody text end.

(** [IntoResponse for Result<T, ApiError>]. *)
Definition result_reply `{AuthLib} (r : result ApiError HttpResponse) : Reply :=
  JsonReply (match r with Ok response => response | Err e => into_response e end).

(** The response on the wire. *)
Record Outgoing `{AuthLib} : Type := {
  out_status : Z;
  out_headers : HeaderMap;
  out_body : ReplyBody;
}.

(** The frameworks. *)
Class AxumLib `{AuthLib} : Type := {
  (** The captured segments when the pattern matches the path. *)
  path_match : string -> string -> option (list string);
  (** The routes [SwaggerUi::new(docs).url(openapi, ..)] adds, and their replies. *)
  swagger_routes : string -> string -> list Route;
  swagger_reply : Method -> string -> Reply;
  (** [Path::<Uuid>], [Query::<DeleteQuery>] and [Json::<T>] with the body limit. *)
  extract_uuid : list string -> result string Uuid;
  extract_query : option string -> result string DeleteQuery;
  extract_reconcile : option Z -> HeaderMap -> bytes -> result string ReconcileRequest;
  extract_create : option Z -> HeaderMap -> bytes -> result string CreateCredentialRequest;
  (** [HeaderMap::insert] and the value [MakeRequestUuid] makes of its identifier. *)
  headers_insert : HeaderMap -> string -> HeaderValue -> HeaderMap;
  request_id_value : Uuid -> HeaderValue;
  (** The response to a method made of a reply, given the methods to advertise. *)
  outgoing : Method -> list Method -> Reply -> Outgoing;
  (** The service of a table of routes, given what serves an endpoint. *)
  route_service : Router -> (Endpoint -> list string -> HttpRequest -> prog ApiE Reply) ->
    HttpRequest -> prog ApiE Outgoing;
  (** The service inside a layer; the identifier is the one [MakeRequestUuid] makes. *)
  layer : Layer -> Uuid -> (HttpRequest -> prog ApiE Outgoing) -> HttpRequest -> prog ApiE Outgoing;
}.

Section documented.
Context `{AxumLib}.

(** The endpoint of a method; a route for [GET] also serves [HEAD]. *)
Definition serving (m : Method) (methods : list (Method * Endpoint)) : option Endpoint :=
  let find m := snd <$> List.find (fun p => bool_decide (p.1 = m)) methods in
  match find m with
  | Some e => Some e
  | None => if bool_decide (m = HEAD) then find GET else None
  end.

Definition all_routes (r : Router) : list Route :=
  router_routes r ++ swagger_routes (router_docs r) (router_openapi r).

(** The only route of the table that matches the path. *)
Definition matches_only (r : Router) (route : Route) (path : string) (captured : list string)
  : Prop :=
  route ∈ all_routes r /\ path_match (route_path route) path = Some captured /\
  forall route', route' ∈ all_routes r -> is_some (path_match (route_path route') path) = true ->
    route' = route.

Definition with_headers (request : HttpRequest) (headers : HeaderMap) : HttpRequest := {|
  req_method := req_method request; req_path := req_path request; req_query := req_query request;
  req_headers := headers; req_body := req_body request; req_body_limit := req_body_limit request |}.

Definition with_limit (request : HttpRequest) (limit : Z) : HttpRequest := {|
  req_method := req_method request; req_path := req_path request; req_query := req_query request;
  req_headers := req_headers request; req_body := req_body request; req_body_limit := Some limit |}.

Definition with_header (out : Outgoing) (name : string) (value : HeaderValue) : Outgoing := {|
  out_status := out_status out; out_headers := headers_insert (out_headers out) name value;
  out_body := out_body out |}.
End documented.

(** What the documentation of the frameworks says of them. *)
Class AxumLaws `{AxumLib} : Prop := {
  (** A pattern without a wildcard matches segment by segment. *)
  path_match_segments pattern path :
    contains pattern "{*" = false ->
    path_match pattern path = match_segments (segments pattern) (segments path);
  headers_get_insert headers name value :
    headers_get (headers_insert headers name value) name = Some value;
  request_id_text id : value_to_str (request_id_value id) = Some (uuid_to_string id);
  (** Swagger UI answers [GET] at the document's path and at or below its own, by one
      route each, and sets no request identifier. *)
  swagger_paths docs openapi route path :
    route ∈ swagger_routes docs openapi -> is_some (path_match (route_path route) path) = true ->
    starts_with path docs = true \/ path = openapi;
  swagger_methods docs openapi route :
    route ∈ swagger_routes docs openapi -> route_methods route = [(GET, Docs)];
  swagger_unique docs openapi route route' path :
    route ∈ swagger_routes docs openapi -> route' ∈ swagger_routes docs openapi ->
    is_some (path_match (route_path route) path) = true ->
    is_some (path_match (route_path route') path) = true -> route' = route;
  swagger_reply_headers m path : "x-request-id" ∉ (reply_headers (swagger_reply m path)).*1;
  (** A response has the status and body of the reply (no body for [HEAD]), its
      headers, and at most a type, a length and the methods allowed. *)
  outgoing_status m allow reply : out_status (outgoing m allow reply) = reply_status reply;
  outgoing_body m allow reply :
    m <> HEAD -> out_body (outgoing m allow reply) = reply_body reply;
  outgoing_headers m allow reply name :
    name ∉ "content-type" :: "content-length" :: "allow" :: (reply_headers reply).*1 ->
    headers_get (out_headers (outgoing m allow reply)) name = None;
  (** The route that matches serves its methods; other methods go to
      [method_not_allowed_fallback], other paths to [fallback]. *)
  route_found r endpoint request route captured e :
    matches_only r route (req_path request) captured ->
    serving (req_method request) (route_methods route) = Some e ->
    route_service r endpoint request
    = (reply ← endpoint e captured request; Ret (outgoing (req_method request) [] reply));
  route_wrong_method r endpoint request route captured :
    matches_only r route (req_path request) captured ->
    serving (req_method request) (route_methods route) = None ->
    route_service r endpoint request
    = Ret (outgoing (req_method request) (route_methods route).*1
             (result_reply (router_method_not_allowed r)));
  route_missing r endpoint request :
    (forall route, route ∈ all_routes r -> path_match (route_path route) (req_path request) = None) ->
    route_service r endpoint request
    = Ret (outgoing (req_method request) [] (result_reply (router_fallback r)));
  (** [DefaultBodyLimit::max], [SetRequestIdLayer] (a request that has the header keeps
      it), [PropagateRequestIdLayer] (so does a response) and [TraceLayer]. *)
  layer_body_limit limit fresh service request :
    layer (BodyLimit limit) fresh service request = service (with_limit request limit);
  layer_set_request_id name fresh service request :
    layer (SetRequestId name) fresh service request
    = service (match headers_get (req_headers request) name with
               | Some _ => request
               | None => with_headers request
                           (headers_insert (req_headers request) name (request_id_value fresh))
               end);
  layer_propagate_request_id name fresh service request :
    layer (PropagateRequestId name) fresh service request
    = (out ← service request;
       Ret (match headers_get (out_headers out) name, headers_get (req_headers request) name with
            | None, Some value => with_header out name value
            | _, _ => out
            end));
  layer_trace fresh service request : layer Trace fresh service request = service request;
}.

(** ** The service *)

Section service.
Context `{AuthLib} `{PrincipalLib} `{ApiLib} `{!AxumLib}.

(** The arguments of the handler, by its extractors. *)
Definition extract (e : Endpoint) (captured : list string) (request : HttpRequest)
  : option ApiRequest :=
  let headers := req_headers request in
  let limit := req_body_limit request in
  match e with
  | Live => Some GetLive
  | ReadyCheck => Some GetReady
  | ReconcileInstance => Some (PutServiceInstance (extract_uuid captured) headers
                                 (extract_reconcile limit headers (req_body request)))
  | DeleteInstance => Some (DeleteServiceInstance (extract_uuid captured)
                              (extract_query (req_query request)) headers)
  | Overview => Some (GetServiceOverview headers)
  | Usage => Some (GetUsage headers)
  | CreateCredentialEp =>
      Some (PostCredential headers (extract_create limit headers (req_body request)))
  | ListCredentialsEp => Some (GetCredentials headers)
  | RevokeCredentialEp => Some (DeleteCredential (extract_uuid captured) headers)
  | Metrics | Docs => None
  end.

Definition answer (state : AppState) (e : Endpoint) (captured : list string) (request : HttpRequest)
  : prog ApiE Reply :=
  match extract e captured request with
  | Some api_request => r ← handle state api_request; Ret (result_reply r)
  | None => Ret (match e with
                 | Metrics => metrics
                 | _ => swagger_reply (req_method request) (req_path request)
                 end)
  end.

(** [router(state)]: the table of routes, wrapped in its layers, the last outermost. *)
Definition serve (state : AppState) (fresh : Uuid) : HttpRequest -> prog ApiE Outgoing :=
  fold_left (fun service l => layer l fresh service) (router_layers router)
    (route_service router (answer state)).
End service.

(** ** Which requests reach which handler *)

Lemma segments_cons s : exists seg rest, segments s = seg :: rest.
Proof.
  destruct s as [|c s]; simpl; [by eauto|]. destruct (Ascii.eqb c slash); [by eauto|].
  destruct (segments s); eauto.
Qed.

#[export] Instance segments_inj : Inj (=) (=) segments.
Proof.
  intros s. induction s as [|c s IH]; intros [|d t]; simpl; try done.
  - destruct (Ascii.eqb d slash); destruct (segments_cons t) as (? & ? & ->); done.
  - destruct (Ascii.eqb c slash); destruct (segments_cons s) as (? & ? & ->); done.
  - specialize (IH t). destruct (segments_cons s) as (x & l & Hs), (segments_cons t) as (y & k & Ht).
    rewrite Hs, Ht in *. destruct (Ascii.eqb_spec c slash), (Ascii.eqb_spec d slash);
      intros [=]; subst; try done; f_equal; auto; apply IH; congruence.
Qed.

(** A segment contains no slash. *)
Definition segment (s : string) : Prop := s <> "" /\ segments s = [s].

Lemma segments_single s : Forall (fun seg => segments seg = [seg]) (segments s).
Proof.
  induction s as [|c s IH]; simpl; [by repeat constructor|].
  destruct (Ascii.eqb c slash) eqn:Hc; [by constructor|].
  destruct (segments_cons s) as (x & l & Hs). rewrite Hs in *. apply Forall_cons in IH as [Hx Hl].
  constructor; [|done]. simpl. by rewrite Hc, Hx.
Qed.

Lemma literal_match pattern path captured :
  forallb (fun seg => negb (is_capture seg)) pattern = true ->
  match_segments pattern path = Some captured -> path = pattern /\ captured = [].
Proof.
  revert path captured. induction pattern as [|p pattern IH]; intros [|s path] captured; simpl;
    try done; [by intros _ [= <-]|].
  rewrite andb_true_iff, negb_true_iff. intros [-> Hp].
  destruct (String.eqb_spec p s) as [->|]; [|done]. intros Hm.
  by destruct (IH _ _ Hp Hm) as [-> ->].
Qed.

(** A pattern that ends in its only capture. *)
Lemma capture_match prefix name path captured :
  forallb (fun seg => negb (is_capture seg)) prefix = true -> is_capture name = true ->
  match_segments (prefix ++ [name]) path = Some captured ->
  exists s, s <> "" /\ path = prefix ++ [s] /\ captured = [s].
Proof.
  intros Hp Hn. revert path captured Hp. induction prefix as [|p prefix IH]; intros [|s path] captured; simpl;
    try done.
  - rewrite Hn. intros _. destruct (str_is_empty s) eqn:He; [done|].
    destruct path; simpl; [|done]. intros [= <-]. exists s.
    split; [by intros ->|done].
  - rewrite andb_true_iff, negb_true_iff. intros [-> Hp].
    destruct (String.eqb_spec p s) as [->|]; [|done]. intros Hm.
    destruct (IH _ _ Hp Hm) as (x & Hx & -> & ->). by exists x.
Qed.

Definition reads (m : Method) : Prop := m = GET \/ m = HEAD.

(** The published interface. *)
Inductive routed : Method -> string -> Endpoint -> list string -> Prop :=
| routed_live m : reads m -> routed m "/health/live" Live []
| routed_ready m : reads m -> routed m "/health/ready" ReadyCheck []
| routed_metrics m : reads m -> routed m "/metrics" Metrics []
| routed_put s : segment s ->
    routed PUT ("/internal/v1/service-instances/" +:+ s) ReconcileInstance [s]
| routed_delete s : segment s ->
    routed DELETE ("/internal/v1/service-instances/" +:+ s) DeleteInstance [s]
| routed_overview m : reads m -> routed m "/v1/service-overview" Overview []
| routed_usage m : reads m -> routed m "/v1/usage" Usage []
| routed_create : routed POST "/v1/credentials" CreateCredentialEp []
| routed_list m : reads m -> routed m "/v1/credentials" ListCredentialsEp []
| routed_revoke s : segment s -> routed DELETE ("/v1/credentials/" +:+ s) RevokeCredentialEp [s].

#[local] Arguments String.append !_ _ /.

Section routing.
Context `{AuthLib} `{PrincipalLib} `{ApiLib} `{!AxumLib} `{!AxumLaws}.

Lemma literal_route pattern path captured :
  contains pattern "{*" = false ->
  forallb (fun seg => negb (is_capture seg)) (segments pattern) = true ->
  path_match pattern path = Some captured -> path = pattern /\ captured = [].
Proof.
  intros Hw Hp. rewrite path_match_segments by done. intros [Hs ->]%literal_match; [|done].
  split; [|done]. by apply (inj segments).
Qed.

Lemma capture_route prefix pre name path captured :
  (forall s, segments s = [s] -> segments (prefix +:+ s) = pre ++ [s]) ->
  segments (prefix +:+ name) = pre ++ [name] -> contains (prefix +:+ name) "{*" = false ->
  forallb (fun seg => negb (is_capture seg)) pre = true -> is_capture name = true ->
  path_match (prefix +:+ name) path = Some captured ->
  exists s, segment s /\ path = prefix +:+ s /\ captured = [s].
Proof.
  intros Hpre Hname Hw Hlit Hcap. rewrite path_match_segments, Hname by done.
  intros (s & Hne & Hs & ->)%capture_match; [|done..].
  assert (Hsingle : segments s = [s]).
  { pose proof (segments_single path) as Hall. rewrite Hs in Hall.
    by apply Forall_app in Hall as [_ [Hall _]%Forall_cons]. }
  exists s. split; [done|]. split; [|done]. apply (inj segments). by rewrite Hs, Hpre.
Qed.

Lemma serving_Some m methods e :
  serving m methods = Some e -> (m, e) ∈ methods \/ (m = HEAD /\ (GET, e) ∈ methods).
Proof.
  assert (Hfind : forall m', snd <$> List.find (fun p => bool_decide (p.1 = m')) methods = Some e ->
    (m', e) ∈ methods).
  { intros m' ([m1 e1] & Hf & ->)%fmap_Some. apply find_some in Hf as [Hin Hm].
    apply bool_decide_eq_true in Hm. simpl in Hm. subst. by apply list_elem_of_In. }
  unfold serving. destruct (snd <$> List.find (fun p => bool_decide (p.1 = m)) methods) eqn:Hm.
  - intros [= ->]. left. by apply Hfind.
  - case_bool_decide; [|done]. intros Hg. right. split; [done|]. by apply Hfind.
Qed.

(** The routes of the table. *)
Definition instance_route : Route :=
  {| route_path := "/internal/v1/service-instances/{service_instance_id}";
     route_methods := [(PUT, ReconcileInstance); (DELETE, DeleteInstance)] |}.
Definition credential_route : Route :=
  {| route_path := "/v1/credentials/{credential_id}";
     route_methods := [(DELETE, RevokeCredentialEp)] |}.
Definition literal_routes : list (string * list (Method * Endpoint)) :=
  [("/health/live", [(GET, Live)]); ("/health/ready", [(GET, ReadyCheck)]);
   ("/metrics", [(GET, Metrics)]); ("/v1/service-overview", [(GET, Overview)]);
   ("/v1/usage", [(GET, Usage)]);
   ("/v1/credentials", [(POST, CreateCredentialEp); (GET, ListCredentialsEp)])].

(** The paths each of them matches. *)
Inductive route_at : Route -> string -> list string -> Prop :=
| at_literal path methods : (path, methods) ∈ literal_routes ->
    route_at {| route_path := path; route_methods := methods |} path []
| at_instance s : segment s ->
    route_at instance_route ("/internal/v1/service-instances/" +:+ s) [s]
| at_credential s : segment s -> route_at credential_route ("/v1/credentials/" +:+ s) [s].

(** Open a membership in a concrete list. *)
Ltac open_list H :=
  repeat (apply elem_of_cons in H as [H|H]; [|]); [..|by apply not_elem_of_nil in H].

Lemma published_route route path captured :
  route ∈ router_routes router -> path_match (route_path route) path = Some captured ->
  route_at route path captured.
Proof.
  intros Hin Hp. cbn [router router_routes] in Hin. open_list Hin; subst route; cbn [route_path] in Hp.
  4: apply (capture_route "/internal/v1/service-instances/" ["";"internal";"v1";"service-instances"]
              "{service_instance_id}") in Hp as (s & Hs & -> & ->);
       [by apply at_instance|by intros s Hs; simpl; rewrite Hs|reflexivity..].
  7: apply (capture_route "/v1/credentials/" ["";"v1";"credentials"] "{credential_id}") in Hp
       as (s & Hs & -> & ->); [by apply at_credential|by intros s Hs; simpl; rewrite Hs|reflexivity..].
  all: apply literal_route in Hp as [-> ->]; [|reflexivity..]; apply at_literal;
    repeat first [apply list_elem_of_here | apply list_elem_of_further].
Qed.

(** The routes do not overlap. *)
Lemma literal_unique path methods methods' :
  (path, methods) ∈ literal_routes -> (path, methods') ∈ literal_routes -> methods' = methods.
Proof.
  intros Hin Hin'. unfold literal_routes in *. open_list Hin; injection Hin as -> ->;
    open_list Hin'; by inversion Hin'.
Qed.

Lemma literal_no_capture path methods s :
  (path, methods) ∈ literal_routes -> segment s ->
  path <> "/internal/v1/service-instances/" +:+ s /\ path <> "/v1/credentials/" +:+ s.
Proof.
  intros Hin Hs. unfold literal_routes in Hin. open_list Hin; injection Hin as -> ->; by split.
Qed.

Lemma route_at_unique route path captured route' captured' :
  route_at route path captured -> route_at route' path captured' -> route' = route.
Proof.
  intros Hr1 Hr2. destruct Hr1 as [path methods Hin|s Hs|s Hs]; inversion Hr2 as [path' ? Hin' Hr Hpath|s' Hs' Hr Hpath|s' Hs' Hr Hpath];
    subst; try done.
  - f_equal. by eapply literal_unique.
  - by destruct (literal_no_capture _ _ s' Hin Hs') as [[] _].
  - by destruct (literal_no_capture _ _ s' Hin Hs') as [_ []].
  - by destruct (literal_no_capture _ _ s Hin' Hs) as [[] _].
  - by destruct (literal_no_capture _ _ s Hin' Hs) as [_ []].
Qed.

Lemma route_at_no_docs route path captured :
  route_at route path captured -> starts_with path "/docs" = false /\ path <> "/openapi.json".
Proof.
  intros Hr. destruct Hr as [path methods Hin|s Hs|s Hs]; [|by split..].
  unfold literal_routes in Hin. open_list Hin; injection Hin as -> ->; by split.
Qed.

Lemma routes_unique route route' path captured :
  route ∈ all_routes router -> route' ∈ all_routes router ->
  path_match (route_path route) path = Some captured ->
  is_some (path_match (route_path route') path) = true -> route' = route.
Proof.
  assert (Hmixed : forall r1 r2 c, r1 ∈ router_routes router ->
    r2 ∈ swagger_routes (router_docs router) (router_openapi router) ->
    path_match (route_path r1) path = Some c -> is_some (path_match (route_path r2) path) = true ->
    False).
  { intros r1 r2 c Hr1 Hr2 Hm1 Hm2. apply published_route in Hm1 as [Hd Ho]%route_at_no_docs; [|done].
    destruct (swagger_paths _ _ _ _ Hr2 Hm2) as [Hs| ->]; [|done]. simpl in Hs. congruence. }
  unfold all_routes. rewrite !elem_of_app. intros [Hr1|Hr1] [Hr2|Hr2] Hm1 Hm2.
  - destruct (path_match (route_path route') path) as [c'|] eqn:Hm2'; [|done].
    eapply route_at_unique; [by apply published_route|by apply published_route].
  - by destruct (Hmixed _ _ _ Hr1 Hr2 Hm1 Hm2).
  - destruct (path_match (route_path route') path) as [c'|] eqn:Hm2'; [|done].
    destruct (Hmixed _ _ c' Hr2 Hr1); [done|by rewrite Hm1].
  - eapply (swagger_unique _ _ _ _ path Hr1 Hr2); [by rewrite Hm1|done].
Qed.

Lemma route_search (routes : list Route) path :
  (forall route, route ∈ routes -> path_match (route_path route) path = None) \/
  exists route captured, route ∈ routes /\ path_match (route_path route) path = Some captured.
Proof.
  induction routes as [|r routes IH]; [by left; intros route ?%not_elem_of_nil|].
  destruct (path_match (route_path r) path) as [c|] eqn:Hr.
  { right. exists r, c. split; [apply list_elem_of_here|done]. }
  destruct IH as [Hn|(route & c & Hin & Hc)].
  - left. intros route [->|Hin]%elem_of_cons; auto.
  - right. exists route, c. split; [by apply list_elem_of_further|done].
Qed.

(** Every path has one route or none. *)
Lemma route_of path :
  (forall route, route ∈ all_routes router -> path_match (route_path route) path = None) \/
  exists route captured, matches_only router route path captured.
Proof.
  destruct (route_search (all_routes router) path) as [Hn|(route & c & Hin & Hc)]; [by left|right].
  exists route, c. split_and!; [done..|]. intros route' Hin' Hm. by eapply routes_unique.
Qed.

(** Each of them is in the table and matches its paths. *)
Lemma route_at_listed route path captured :
  route_at route path captured ->
  route ∈ router_routes router /\ path_match (route_path route) path = Some captured.
Proof.
  assert (Hin : forall i r, router_routes router !! i = Some r -> r ∈ router_routes router)
    by apply list_elem_of_lookup_2.
  intros Hr. destruct Hr as [path methods Hl|s [Hne Hs]|s [Hne Hs]].
  - unfold literal_routes in Hl. open_list Hl; injection Hl as -> ->; cbn [route_path];
      rewrite path_match_segments by reflexivity; (split; [|reflexivity]).
    1: by apply (Hin 0). 1: by apply (Hin 1). 1: by apply (Hin 2).
    1: by apply (Hin 4). 1: by apply (Hin 5). by apply (Hin 6).
  - split; [by apply (Hin 3)|]. rewrite path_match_segments by reflexivity. simpl. rewrite Hs.
    simpl. by destruct s.
  - split; [by apply (Hin 7)|]. rewrite path_match_segments by reflexivity. simpl. rewrite Hs.
    simpl. by destruct s.
Qed.

Lemma route_at_only route path captured :
  route_at route path captured -> matches_only router route path captured.
Proof.
  intros [Hin Hm]%route_at_listed. split_and!; [apply elem_of_app; by left|done|].
  intros route' Hin' Hm'. eapply routes_unique; [|done..]. apply elem_of_app. by left.
Qed.

Lemma matches_only_det route path captured route' captured' :
  matches_only router route path captured -> matches_only router route' path captured' ->
  route' = route /\ captured' = captured.
Proof.
  intros (Hin & Hm & Hu) (Hin' & Hm' & _).
  assert (route' = route) as -> by (apply Hu; [done|by rewrite Hm']). split; congruence.
Qed.

(** The published interface is what the table serves. *)
Lemma routed_served m path e captured :
  routed m path e captured <->
  exists route, route_at route path captured /\ serving m (route_methods route) = Some e.
Proof.
  assert (Hl : forall i path methods, literal_routes !! i = Some (path, methods) ->
    route_at {| route_path := path; route_methods := methods |} path []).
  { intros i p methods Hi. by eapply at_literal, list_elem_of_lookup_2. }
  split.
  - intros Hr. destruct Hr as [m Hm|m Hm|m Hm|s Hs|s Hs|m Hm|m Hm| |m Hm|s Hs]; eexists;
      (split; [first [by apply at_instance | by apply at_credential
                     | by apply (Hl 0) | by apply (Hl 1) | by apply (Hl 2) | by apply (Hl 3)
                     | by apply (Hl 4) | by apply (Hl 5)]|]); try reflexivity; by destruct Hm as [-> | ->].
  - intros (route & Hr & Hs%serving_Some). destruct Hr as [path methods Hin|s Hseg|s Hseg].
    + unfold literal_routes in Hin. open_list Hin; injection Hin as -> ->; cbn [route_methods] in Hs;
        (destruct Hs as [Hs|[-> Hs]]; open_list Hs; simplify_eq; constructor; first [by left|by right]).
    + simpl in Hs. destruct Hs as [Hs|[-> Hs]]; open_list Hs; simplify_eq; by constructor.
    + simpl in Hs. destruct Hs as [Hs|[-> Hs]]; open_list Hs; simplify_eq; by constructor.
Qed.

(** A path is published when it is served under some method. *)
Lemma published_served path :
  (exists m e captured, routed m path e captured) <->
  exists route captured, route_at route path captured.
Proof.
  split.
  - intros (m & e & captured & (route & Hr & _)%routed_served). eauto.
  - intros (route & captured & Hr).
    assert (exists m e, serving m (route_methods route) = Some e) as (m & e & Hs).
    { destruct Hr as [path methods Hin|s Hs|s Hs].
      - unfold literal_routes in Hin. exists GET.
        open_list Hin; injection Hin as -> ->; by eexists.
      - exists PUT. by eexists.
      - exists DELETE. by eexists. }
    exists m, e, captured. apply routed_served. eauto.
Qed.

(** A page of the documentation. *)
Definition documented (path : string) : Prop :=
  exists route, route ∈ swagger_routes "/docs" "/openapi.json" /\
    is_some (path_match (route_path route) path) = true.

(** What the table answers. *)
Inductive dispatched (state : AppState) (request : HttpRequest) : prog ApiE Outgoing -> Prop :=
| dispatched_found e captured :
    routed (req_method request) (req_path request) e captured \/
      (e = Docs /\ documented (req_path request)) ->
    dispatched state request (reply ← answer state e captured request;
                              Ret (outgoing (req_method request) [] reply))
| dispatched_wrong_method allow :
    (forall e captured, ~ routed (req_method request) (req_path request) e captured) ->
    (exists m e captured, routed m (req_path request) e captured) \/
      documented (req_path request) ->
    dispatched state request
      (Ret (outgoing (req_method request) allow (result_reply method_not_allowed_fallback)))
| dispatched_missing :
    (forall m e captured, ~ routed m (req_path request) e captured) ->
    ~ documented (req_path request) ->
    dispatched state request
      (Ret (outgoing (req_method request) [] (result_reply not_found_fallback))).

Lemma matched_kind route path captured :
  matches_only router route path captured ->
  route_at route path captured \/
  ((forall m e c, ~ routed m path e c) /\ documented path /\ route_methods route = [(GET, Docs)]).
Proof.
  intros (Hin & Hm & _). unfold all_routes in Hin. apply elem_of_app in Hin as [Hin|Hin].
  - left. by apply published_route.
  - right. assert (Hd : documented path) by (exists route; split; [done|by rewrite Hm]).
    split_and!; [|done|by eapply swagger_methods].
    intros m e c (r & [Hs Ho]%route_at_no_docs & _)%routed_served.
    destruct (swagger_paths _ _ _ path Hin) as [Hp|Hp]; [by rewrite Hm| |done]. simpl in Hp. congruence.
Qed.

Lemma documented_not_routed m path e captured :
  documented path -> ~ routed m path e captured.
Proof.
  intros (route & Hin & Hm) (r & [Hs Ho]%route_at_no_docs & _)%routed_served.
  destruct (swagger_paths _ _ _ path Hin Hm) as [Hp|Hp]; [congruence|done].
Qed.

Lemma routed_det m path e captured e' captured' :
  routed m path e captured -> routed m path e' captured' -> e' = e /\ captured' = captured.
Proof.
  intros (r & Hr & Hs)%routed_served (r' & Hr' & Hs')%routed_served.
  pose proof (route_at_unique _ _ _ _ _ Hr Hr') as ->. split; [congruence|].
  apply route_at_listed in Hr as [_ Hr], Hr' as [_ Hr']. congruence.
Qed.

Lemma dispatch state request : dispatched state request (route_service router (answer state) request).
Proof.
  destruct (route_of (req_path request)) as [Hn|(route & captured & Hm)].
  - rewrite route_missing by done. constructor.
    + intros m e c (r & [Hin Hp]%route_at_listed & _)%routed_served.
      rewrite Hn in Hp; [done|]. apply elem_of_app. by left.
    + intros (r & Hin & Hp). rewrite Hn in Hp; [done|]. apply elem_of_app. by right.
  - destruct (serving (req_method request) (route_methods route)) as [e|] eqn:Hs.
    + rewrite (route_found _ _ _ _ _ _ Hm Hs). constructor.
      destruct (matched_kind _ _ _ Hm) as [Hr|(_ & Hd & Hg)].
      * left. apply routed_served. eauto.
      * right. split; [|done]. rewrite Hg in Hs. apply serving_Some in Hs.
        destruct Hs as [Hs|[_ Hs]]; open_list Hs; by simplify_eq.
    + rewrite (route_wrong_method _ _ _ _ _ Hm Hs).
      destruct (matched_kind _ _ _ Hm) as [Hr|(Hno & Hd & Hg)]; constructor.
      * intros e c (r & Hr' & Hs')%routed_served.
        assert (r = route) as -> by (by eapply route_at_unique). congruence.
      * left. apply published_served. eauto.
      * intros e c. apply Hno.
      * by right.
Qed.
End routing.

(** ** The layers *)

(** What the handlers see of a request: its identifier, or the one it is given, and
    the limit of 64 KiB for its body. *)
Definition seen `{AxumLib} (fresh : Uuid) (request : HttpRequest) : HttpRequest := {|
  req_method := req_method request; req_path := req_path request; req_query := req_query request;
  req_headers := match headers_get (req_headers request) "x-request-id" with
                 | Some _ => req_headers request
                 | None => headers_insert (req_headers request) "x-request-id"
                             (request_id_value fresh)
                 end;
  req_body := req_body request; req_body_limit := Some 65536%Z |}.

Section layers.
Context `{AuthLib} `{PrincipalLib} `{ApiLib} `{!AxumLib} `{!AxumLaws}.

(** The identifier the handlers see. *)
Lemma seen_request_id fresh request :
  exists value, headers_get (req_headers (seen fresh request)) "x-request-id" = Some value /\
    match headers_get (req_headers request) "x-request-id" with
    | Some given => value = given
    | None => value_to_str value = Some (uuid_to_string fresh)
    end.
Proof.
  unfold seen. simpl. destruct (headers_get (req_headers request) _) as [v|] eqn:Hv; [by exists v|].
  exists (request_id_value fresh). split; [apply headers_get_insert|apply request_id_text].
Qed.

Lemma serve_layers state fresh request tr out :
  runs (serve state fresh request) tr out ->
  exists inner, runs (route_service router (answer state) (seen fresh request)) tr inner /\
    out_status out = out_status inner /\ out_body out = out_body inner /\
    (headers_get (out_headers inner) "x-request-id" = None ->
     headers_get (out_headers out) "x-request-id"
       = headers_get (req_headers (seen fresh request)) "x-request-id").
Proof.
  unfold serve. cbn [router router_layers fold_left]. rewrite layer_trace, layer_set_request_id.
  unfold HeaderNameExt_request_id, REQUEST_ID.
  set (named := match headers_get (req_headers request) "x-request-id" with
                | Some _ => request | None => _ end).
  assert (Hseen : with_limit named (64 * 1024) = seen fresh request).
  { unfold named, seen. by destruct (headers_get _ _). }
  assert (Hh : headers_get (req_headers named) "x-request-id"
               = headers_get (req_headers (seen fresh request)) "x-request-id") by (by rewrite <- Hseen).
  rewrite layer_propagate_request_id, layer_body_limit, Hseen.
  intros (tr1 & tr2 & inner & -> & Hr & -> & ->)%runs_bind. rewrite app_nil_r.
  exists inner. split; [done|]. rewrite Hh.
  destruct (seen_request_id fresh request) as (value & Hv & _). rewrite Hv.
  destruct (headers_get (out_headers inner) "x-request-id"); [done|]. simpl.
  split_and!; [done..|]. intros _. apply headers_get_insert.
Qed.

(** C35. The routing is exact.  A request whose method and path are those of the
    published interface (a path parameter being one segment that is not empty, [HEAD]
    going with [GET]) is answered by that handler with exactly that segment, with the
    status and body the handler replies; a path that is neither published nor a page
    of the documentation gets 404 and a published path under another method 405, each
    with its error as body and without any call on the store or on Garage. *)
Theorem routing_exact state fresh request tr out :
  runs (serve state fresh request) tr out ->
  (forall e captured, routed (req_method request) (req_path request) e captured ->
     exists reply, runs (answer state e captured (seen fresh request)) tr reply /\
       out_status out = reply_status reply /\
       (req_method request <> HEAD -> out_body out = reply_body reply)) /\
  ((forall m e captured, ~ routed m (req_path request) e captured) ->
   ~ documented (req_path request) ->
     tr = [] /\ out_status out = 404%Z /\
     (req_method request <> HEAD -> out_body out = JsonBody (json_object [("error", json_object
        [("code", JString "not_found"); ("message", JString "resource was not found")])]))) /\
  ((exists m e captured, routed m (req_path request) e captured) ->
   (forall e captured, ~ routed (req_method request) (req_path request) e captured) ->
     tr = [] /\ out_status out = 405%Z /\
     (req_method request <> HEAD -> out_body out = JsonBody (json_object [("error", json_object
        [("code", JString "method_not_allowed");
         ("message", JString "HTTP method is not allowed for this route")])]))).
Proof.
  intros (inner & Hr & -> & -> & _)%serve_layers.
  pose proof (dispatch state (seen fresh request)) as Hd.
  destruct Hd as [e captured Hfound|allow Hno Hsome|Hno Hdoc].
  - apply runs_bind in Hr as (tr1 & tr2 & reply & -> & Hr & -> & ->). rewrite app_nil_r.
    simpl in *. rewrite outgoing_status. split_and!.
    + intros e' c' Hr'. destruct Hfound as [Hf|[_ Hd]]; [|by destruct (documented_not_routed _ _ _ _ Hd Hr')].
      destruct (routed_det _ _ _ _ _ _ Hf Hr') as [-> ->].
      exists reply. split_and!; [done..|]. apply outgoing_body.
    + intros Hn Hnd. destruct Hfound as [Hf|[_ Hd]]; [by apply Hn in Hf|done].
    + intros (m & e' & c' & Hr') Hn. destruct Hfound as [Hf|[_ Hd]]; [by apply Hn in Hf|].
      by destruct (documented_not_routed _ _ _ _ Hd Hr').
  - destruct Hr as [-> ->]. simpl in *. rewrite outgoing_status. split_and!.
    + by intros e' c' ?%Hno.
    + intros Hn Hnd. destruct Hsome as [(m & e & c & Hs)|Hd]; [by apply Hn in Hs|done].
    + intros _ _. split_and!; [done..|]. intros Hm. by rewrite outgoing_body.
  - destruct Hr as [-> ->]. simpl in *. rewrite outgoing_status. split_and!.
    + by intros e' c' ?%Hno.
    + intros _ _. split_and!; [done..|]. intros Hm. by rewrite outgoing_body.
    + by intros (m & e & c & ?%Hno).
Qed.
End layers.
(** ** One identifier for the response and the audit log *)

(** The audit event a call records, if any, carries [id]. *)
Definition audits_as (id : string) (ev : event ApiE) : Prop :=
  match ev with
  | Event e _ =>
      match e with
      | StoreCall e =>
          match e with
          | CompleteReconcile _ _ _ _ audit | CompleteDelete _ _ _ audit
          | CompleteCreateCredential _ _ _ _ audit | CompleteRevokeCredential _ _ _ audit
          | FailOperation _ _ _ audit | RecordAudit audit => ae_request_id audit = id
          | _ => True
          end
      | _ => True
      end
  end.

Section correlation.
Context `{AuthLib} `{PrincipalLib} `{ApiLib} `{!AxumLib}.
Context (headers : HeaderMap) (id : string).

Abbreviation audited := (always (fun _ ev => audits_as id ev)).

Lemma clock_audited {A : Type} past (p : prog ApiE A) :
  always (fun _ ev => clock_event ev) past p -> audited past p.
Proof. apply always_impl. intros [X e x]. by destruct e. Qed.

Lemma store_audited {A : Type} past (e : RepositoryE (result StoreError A)) :
  (forall x, audits_as id (Event (StoreCall e) x)) -> audited past (store e).
Proof. intros Hq. unfold store. by apply always_map_err, always_call. Qed.

(** The handlers name the request by its header. *)
Context (Hid : request_id headers = Ret id).

Lemma named_by_header tr a : runs (request_id headers) tr a -> a = id.
Proof. rewrite Hid. by intros [_ ->]. Qed.

Lemma naming_audited past : audited past (request_id headers).
Proof. by rewrite Hid. Qed.

Ltac name_audits :=
  try done; try apply naming_audited;
  repeat match goal with Hr : runs (request_id headers) _ _ |- _ => apply named_by_header in Hr end;
  try (apply store_audited; intros; simpl; by subst); try (simpl; by subst).

Lemma backend_failure_audited {A : Type} o oid error ctx ty rid details past :
  audited past (backend_failure (A := A) headers o oid error ctx ty rid details).
Proof. unfold backend_failure, persist_backend_failure, ret. walk; name_audits. Qed.

Lemma execute_reconcile_audited state command oid context past :
  audited past (execute_reconcile state headers command oid context).
Proof.
  unfold execute_reconcile, reconciled_bucket_id, garage, ret.
  walk; name_audits; apply backend_failure_audited.
Qed.

Lemma revoke_keys_audited o oid service generation keys past :
  audited past (revoke_keys headers o oid service generation keys).
Proof.
  revert past. induction keys as [|k keys IH]; intros past; cbn [revoke_keys]; [done|].
  unfold garage. walk; name_audits; apply backend_failure_audited.
Qed.

Lemma execute_delete_audited command oid context past :
  audited past (execute_delete headers command oid context).
Proof.
  unfold execute_delete, empty_and_delete_bucket, persist_failure, garage, ret.
  walk; name_audits; try apply backend_failure_audited; apply revoke_keys_audited.
Qed.

Lemma execute_create_audited state principal command oid context past :
  audited past (execute_create state headers principal command oid context).
Proof.
  unfold execute_create, complete_issued, garage, ret.
  walk; name_audits; apply backend_failure_audited.
Qed.

Lemma execute_revoke_audited principal command oid context past :
  audited past (execute_revoke headers principal command oid context).
Proof.
  unfold execute_revoke, revoke_in_garage, garage, ret.
  walk; name_audits; apply backend_failure_audited.
Qed.

Lemma read_audited principal action ty past :
  audited past (record_read_audit principal headers action ty).
Proof. unfold record_read_audit, ret. walk; name_audits. Qed.
End correlation.

Section identifiers.
Context `{AuthLib} `{PrincipalLib} `{ApiLib} `{!AxumLib}.

Definition request_headers (request : ApiRequest) : option HeaderMap :=
  match request with
  | PutServiceInstance _ headers _ | DeleteServiceInstance _ _ headers | PostCredential headers _
  | DeleteCredential _ headers | GetServiceOverview headers | GetUsage headers
  | GetCredentials headers => Some headers
  | GetReady | GetLive | UnknownPath | UnsupportedMethod => None
  end.

Lemma handle_audited state request id past :
  (forall headers, request_headers request = Some headers -> request_id headers = Ret id) ->
  always (fun _ ev => audits_as id ev) past (handle state request).
Proof.
  destruct request; cbn [handle request_headers]; intros Hid;
    try specialize (Hid _ eq_refl).
  - unfold reconcile_service_instance, ret. walk; try done;
      [apply clock_audited, clock_only_reconcile|].
    by apply execute_reconcile_audited.
  - unfold delete_service_instance, ret. walk; try done;
      [apply clock_audited, clock_only_delete|].
    by apply execute_delete_audited.
  - unfold Routes.create_credential, ret. walk; try done;
      [apply clock_audited, clock_only_create|].
    by apply execute_create_audited.
  - unfold Routes.revoke_credential, ret. walk; try done;
      [apply clock_audited, clock_only_revoke|].
    by apply execute_revoke_audited.
  - unfold Routes.service_overview, ret. walk; try done.
    by apply read_audited.
  - unfold service_usage, garage, ret. walk; try done.
    by apply read_audited.
  - unfold Routes.list_credentials, ret. walk; try done.
    by apply read_audited.
  - unfold ready, garage, ret. walk; done.
  - done.
  - done.
  - done.
Qed.

Lemma extract_headers e captured request api_request headers :
  extract e captured request = Some api_request -> request_headers api_request = Some headers ->
  headers = req_headers request.
Proof. destruct e; simpl; intros [= <-]; simpl; congruence. Qed.

(** The handlers leave the header of the identifier to the layers. *)
Definition plain (r : result ApiError HttpResponse) : Prop :=
  match r with Ok response => "x-request-id" ∉ (http_headers response).*1 | Err _ => True end.
Definition replies_plain (p : prog ApiE (result ApiError HttpResponse)) : Prop :=
  forall tr r, runs p tr r -> plain r.

Lemma plain_try {A : Type} (m : prog ApiE (result ApiError A)) k :
  (forall a, replies_plain (k a)) -> replies_plain (try_bind m k).
Proof. intros Hk tr r [(e & _ & ->)|(tr1 & tr2 & a & -> & _ & Hr)]%runs_try; [done|by eapply Hk]. Qed.

Lemma plain_bind {A : Type} (m : prog ApiE A) k :
  (forall a, replies_plain (k a)) -> replies_plain (m ≫= k).
Proof. intros Hk tr r (tr1 & tr2 & a & -> & _ & Hr)%runs_bind. by eapply Hk. Qed.

Lemma plain_ret r : plain r -> replies_plain (Ret r).
Proof. by intros Hr tr r' [_ ->]. Qed.

Lemma plain_json value : plain (Ok (json_response value)).
Proof. simpl. by intros [[=]|?%not_elem_of_nil]%elem_of_cons. Qed.

Lemma plain_stored stored : plain (stored_into_response stored).
Proof.
  unfold stored_into_response. destruct (_ && _); [|done]. simpl.
  rewrite !elem_of_cons, elem_of_nil. by intros [[=]|[[=]|[[=]|[]]]].
Qed.

Lemma plain_prepared {T : Type} (q : Prepare T) : plain (prepared_response q).
Proof. destruct q; simpl; [done|apply plain_stored|done]. Qed.

(** Walk through a handler to its replies. *)
Ltac plainly :=
  repeat first
    [ apply plain_try; intros | apply plain_bind; intros
    | apply plain_ret; first [apply plain_json | apply plain_stored | apply plain_prepared | done]
    | lazymatch goal with |- replies_plain (match ?b with _ => _ end) => destruct b end ].

Lemma handle_plain state request : replies_plain (handle state request).
Proof.
  destruct request; cbn [handle];
    unfold reconcile_service_instance, delete_service_instance, Routes.create_credential,
      Routes.revoke_credential, Routes.service_overview, service_usage, Routes.list_credentials, ready,
      execute_reconcile, execute_delete, execute_create, complete_issued, execute_revoke,
      backend_failure, ret; cbv zeta; plainly.
Qed.

Lemma answer_plain `{!AxumLaws} state e captured request tr reply :
  runs (answer state e captured request) tr reply -> "x-request-id" ∉ (reply_headers reply).*1.
Proof.
  unfold answer. destruct (extract e captured request) as [api|] eqn:He.
  - intros (tr1 & tr2 & r & -> & Hr%handle_plain & -> & ->)%runs_bind.
    destruct r as [response|error]; [done|]. simpl.
    destruct (api_retry_after_seconds error); simpl;
      rewrite ?elem_of_cons, elem_of_nil; by intros [[=]|?]; destruct_or?.
  - intros [_ ->]. destruct e; try apply swagger_reply_headers. simpl.
    rewrite elem_of_cons, elem_of_nil. by intros [[=]|[]].
Qed.

(** The table answers without an identifier of its own. *)
Lemma inner_plain `{!AxumLaws} state request tr inner :
  runs (route_service router (answer state) request) tr inner ->
  headers_get (out_headers inner) "x-request-id" = None.
Proof.
  assert (Hnone : forall m allow reply, "x-request-id" ∉ (reply_headers reply).*1 ->
    headers_get (out_headers (outgoing m allow reply)) "x-request-id" = None).
  { intros m allow reply Hr. apply outgoing_headers. rewrite !elem_of_cons.
    by intros [[=]|[[=]|[[=]|?]]]. }
  intros Hr. destruct (dispatch state request).
  - apply runs_bind in Hr as (tr1 & tr2 & reply & -> & Hr%answer_plain & -> & ->). by apply Hnone.
  - destruct Hr as [_ ->]. apply Hnone. simpl. rewrite elem_of_cons, elem_of_nil. by intros [[=]|[]].
  - destruct Hr as [_ ->]. apply Hnone. simpl. rewrite elem_of_cons, elem_of_nil. by intros [[=]|[]].
Qed.

(** C34. Every response can be found in the audit log: its [x-request-id] is the
    identifier the client sent, or the one the service gave the request, and when
    that is a text of 1 to 256 bytes, every audit event recorded for the request, in
    whatever operation, carries the same identifier. *)
Theorem response_correlated `{!AxumLaws} state fresh request tr out :
  runs (serve state fresh request) tr out ->
  exists value, headers_get (out_headers out) "x-request-id" = Some value /\
    match headers_get (req_headers request) "x-request-id" with
    | Some given => value = given
    | None => value_to_str value = Some (uuid_to_string fresh)
    end /\
    forall id, value_to_str value = Some id -> 0 < str_len id <= 256 ->
      Forall (audits_as id) tr.
Proof.
  intros (inner & Hr & _ & _ & Hout)%serve_layers.
  destruct (seen_request_id fresh request) as (value & Hv & Hm). exists value.
  split; [rewrite <- Hv; by eapply Hout, inner_plain|]. split; [exact Hm|]. intros id Hid Hlen.
  assert (Hname : request_id (req_headers (seen fresh request)) = Ret id).
  { unfold request_id, REQUEST_ID. rewrite Hv. simpl.
    rewrite Hid, (proj2 (str_is_empty_false id)) by lia. by rewrite (proj2 (Nat.leb_le _ _)) by lia. }
  destruct (dispatch state (seen fresh request)); try by destruct Hr as [-> _].
  apply runs_bind in Hr as (tr1 & tr2 & reply & -> & Hr & [-> _]). rewrite app_nil_r.
  unfold answer in Hr. destruct (extract e captured _) as [api|] eqn:He; [|by destruct Hr as [-> _]].
  apply runs_bind in Hr as (tr3 & tr4 & r & -> & Hr & [-> _]). rewrite app_nil_r.
  refine (always_Forall _ [] _ _ _ (handle_audited state api id [] _) Hr).
  intros headers Hh. by rewrite (extract_headers _ _ _ _ _ He Hh).
Qed.
End identifiers.

(** ** A concrete service *)

#[local] Existing Instance sample_url.
#[local] Existing Instance sample_principal_lib.
#[local] Existing Instance sample_api.

#[local] Instance router_claims_auth : AuthLib := claims_auth reconcile_claims.

Definition sample_match (pattern path : string) : option (list string) :=
  match_segments (segments pattern) (segments path).

(** One page of documentation and the document. *)
Definition sample_swagger (docs openapi : string) : list Route :=
  if String.eqb docs "/docs" && String.eqb openapi "/openapi.json"
  then [{| route_path := "/docs"; route_methods := [(GET, Docs)] |};
        {| route_path := "/openapi.json"; route_methods := [(GET, Docs)] |}]
  else [].

Definition sample_outgoing (m : Method) (allow : list Method) (reply : Reply) : Outgoing := {|
  out_status := reply_status reply;
  out_headers := (reply_headers reply : @HeaderMap router_claims_auth);
  out_body := if bool_decide (m = HEAD) then TextBody "" else reply_body reply |}.

(** The first route that matches. *)
Definition sample_route_service (r : Router)
    (endpoint : Endpoint -> list string -> HttpRequest -> prog ApiE Reply) (request : HttpRequest)
  : prog ApiE Outgoing :=
  let m := req_method request in
  let path := req_path request in
  match List.find (fun route => is_some (sample_match (route_path route) path))
          (router_routes r ++ sample_swagger (router_docs r) (router_openapi r)) with
  | Some route =>
      match serving m (route_methods route) with
      | Some e => reply ← endpoint e (default [] (sample_match (route_path route) path)) request;
                  Ret (sample_outgoing m [] reply)
      | None => Ret (sample_outgoing m (route_methods route).*1
                       (result_reply (router_method_not_allowed r)))
      end
  | None => Ret (sample_outgoing m [] (result_reply (router_fallback r)))
  end.

Definition sample_layer (l : Layer) (fresh : Uuid) (service : HttpRequest -> prog ApiE Outgoing)
    (request : HttpRequest) : prog ApiE Outgoing :=
  match l with
  | BodyLimit limit =>
      service {| req_method := req_method request; req_path := req_path request;
                 req_query := req_query request; req_headers := req_headers request;
                 req_body := req_body request; req_body_limit := Some limit |}
  | SetRequestId name =>
      service (match headers_get (req_headers request) name with
               | Some _ => request
               | None =>
                   {| req_method := req_method request; req_path := req_path request;
                      req_query := req_query request;
                      req_headers := ((name, pretty fresh) :: req_headers request
                                      : @HeaderMap router_claims_auth);
                      req_body := req_body request; req_body_limit := req_body_limit request |}
               end)
  | PropagateRequestId name =>
      out ← service request;
      Ret (match headers_get (out_headers out) name, headers_get (req_headers request) name with
           | None, Some value =>
               {| out_status := out_status out;
                  out_headers := ((name, value) :: out_headers out : @HeaderMap router_claims_auth);
                  out_body := out_body out |}
           | _, _ => out
           end)
  | Trace => service request
  end.

Definition sample_axum : @AxumLib router_claims_auth := {|
  path_match := sample_match;
  swagger_routes := sample_swagger;
  swagger_reply _ _ := TextReply 200 [("content-type", "text/html")] "";
  extract_uuid captured := match captured with
                           | [s] => ok_or "not a UUID" (Z.to_N <$> parse_u64 s)
                           | _ => Err "no parameter"
                           end;
  extract_query _ := Ok {| dq_generation := 2 |};
  extract_reconcile _ _ _ := Ok sample_request;
  extract_create _ _ _ := Err "no body";
  headers_insert headers name value := (name, value) :: headers;
  request_id_value id := pretty id;
  outgoing := sample_outgoing;
  route_service := sample_route_service;
  layer := sample_layer |}.
#[local] Existing Instance sample_axum.

Lemma sample_swagger_paths docs openapi route path :
  route ∈ sample_swagger docs openapi -> is_some (sample_match (route_path route) path) = true ->
  docs = "/docs" /\ openapi = "/openapi.json" /\ route_methods route = [(GET, Docs)] /\
  route_path route = path /\ (path = "/docs" \/ path = "/openapi.json").
Proof.
  unfold sample_swagger. destruct (String.eqb_spec docs "/docs"), (String.eqb_spec openapi "/openapi.json");
    try by intros ?%not_elem_of_nil.
  intros Hin Hm. destruct (sample_match (route_path route) path) as [c|] eqn:Hp; [|done].
  apply elem_of_cons in Hin as [->|Hin];
    [|apply elem_of_cons in Hin as [->|Hin]; [|by apply not_elem_of_nil in Hin]];
    apply literal_match in Hp as [Hp _]; [|reflexivity| |reflexivity];
    apply (inj segments) in Hp; subst; split_and!; eauto.
Qed.

Lemma sample_find r path route captured :
  @matches_only router_claims_auth sample_axum r route path captured ->
  List.find (fun route => is_some (sample_match (route_path route) path))
    (router_routes r ++ sample_swagger (router_docs r) (router_openapi r)) = Some route /\
  sample_match (route_path route) path = Some captured.
Proof.
  intros (Hin & Hm & Hu). change (path_match ?p ?q) with (sample_match p q) in *. split; [|done].
  destruct (List.find _ _) as [route'|] eqn:Hf.
  - apply find_some in Hf as [Hin' Hm']. f_equal. apply Hu; [by apply list_elem_of_In|done].
  - eapply find_none in Hf; [|by apply list_elem_of_In, Hin]. simpl in Hf. by rewrite Hm in Hf.
Qed.

Lemma sample_axum_laws : @AxumLaws router_claims_auth sample_axum.
Proof.
  constructor; try done.
  - intros headers name value. simpl. by rewrite String.eqb_refl.
  - intros docs openapi route path Hin Hm.
    destruct (sample_swagger_paths _ _ _ _ Hin Hm) as (-> & -> & _ & _ & [-> | ->]); auto.
  - intros docs openapi route Hin. simpl in Hin. unfold sample_swagger in Hin.
    destruct (_ && _); [|by apply not_elem_of_nil in Hin].
    apply elem_of_cons in Hin as [->|Hin]; [done|].
    by apply elem_of_cons in Hin as [->|Hin%not_elem_of_nil].
  - intros docs openapi [p1 m1] [p2 m2] path Hin1 Hin2 Hm1 Hm2.
    destruct (sample_swagger_paths _ _ _ _ Hin1 Hm1) as (_ & _ & Hg1 & Hp1 & _).
    destruct (sample_swagger_paths _ _ _ _ Hin2 Hm2) as (_ & _ & Hg2 & Hp2 & _). simpl in *. congruence.
  - intros m path. simpl. rewrite elem_of_cons, elem_of_nil. by intros [[=]|[]].
  - intros m allow reply Hm. simpl. by rewrite bool_decide_eq_false_2.
  - intros m allow reply name Hn. simpl in *.
    assert (Hnr : name ∉ (reply_headers reply).*1) by set_solver. clear Hn.
    induction (reply_headers reply) as [|[k v] l IH]; [done|]. simpl in *.
    destruct (String.eqb_spec k name); [set_solver|]. apply IH. set_solver.
  - intros r endpoint request route captured e [Hf Hm]%sample_find Hs.
    change (route_service r endpoint request) with (sample_route_service r endpoint request). unfold sample_route_service.
    by rewrite Hf, Hs, Hm.
  - intros r endpoint request route captured [Hf Hm]%sample_find Hs.
    change (route_service r endpoint request) with (sample_route_service r endpoint request). unfold sample_route_service.
    by rewrite Hf, Hs.
  - intros r endpoint request Hn.
    change (route_service r endpoint request) with (sample_route_service r endpoint request). unfold sample_route_service.
    destruct (List.find _ _) as [route|] eqn:Hf; [|done].
    apply find_some in Hf as [Hin Hm]. apply list_elem_of_In, Hn in Hin.
    change (path_match ?p ?q) with (sample_match p q) in Hin. simpl in Hin, Hm. by rewrite Hin in Hm.
Qed.

Definition sample_http (m : Method) (path : string) (headers : list (string * string)) : HttpRequest := {|
  req_method := m; req_path := path; req_query := None;
  req_headers := (headers : @HeaderMap router_claims_auth); req_body := []; req_body_limit := None |}.

Definition serve_run (fresh : Uuid) (request : HttpRequest) : list (event ApiE) * Outgoing :=
  drive granting_world (serve (sample_state reconcile_claims) fresh request).

Lemma routing_exact_witness :
  out_status (serve_run 77 (sample_http POST "/internal/v1/service-instances/3" [])).2 = 405%Z /\
  out_status (serve_run 77 (sample_http GET "/internal/v1/service-instances/" [])).2 = 404%Z.
Proof.
  split.
  - apply (@routing_exact _ _ _ _ _ sample_axum_laws (sample_state reconcile_claims) 77
             (sample_http POST "/internal/v1/service-instances/3" [])
             (serve_run 77 (sample_http POST "/internal/v1/service-instances/3" [])).1).
    + exact (drive_runs granting_world _).
    + exists PUT, ReconcileInstance, ["3"]. by apply (routed_put "3").
    + intros e captured Hr. inversion Hr.
  - apply (@routing_exact _ _ _ _ _ sample_axum_laws (sample_state reconcile_claims) 77
             (sample_http GET "/internal/v1/service-instances/" [])
             (serve_run 77 (sample_http GET "/internal/v1/service-instances/" [])).1).
    + exact (drive_runs granting_world _).
    + intros m e captured Hr. inversion Hr as [| | |s Hs Hm Hp|s Hs Hm Hp| | | | |]; by destruct s, Hs.
    + intros (route & Hin & Hm).
      destruct (sample_swagger_paths _ _ _ _ Hin Hm) as (_ & _ & _ & _ & [Hp|Hp]); discriminate Hp.
Defined.

(** A put without an identifier, which the service calls 77. *)
Definition anonymous_put : HttpRequest :=
  sample_http PUT "/internal/v1/service-instances/3"
    [("authorization", "Bearer token"); ("idempotency-key", "42")].

Definition completes (ev : event ApiE) : bool :=
  match ev with Event (StoreCall (CompleteReconcile _ _ _ _ _)) _ => true | _ => false end.

Lemma response_correlated_witness :
  existsb completes (serve_run 77 anonymous_put).1 = true /\
  headers_get (out_headers (serve_run 77 anonymous_put).2) "x-request-id" = Some "77" /\
  Forall (audits_as "77") (serve_run 77 anonymous_put).1.
Proof.
  split; [vm_compute; reflexivity|]. split; [vm_compute; reflexivity|].
  destruct (@response_correlated _ _ _ _ _ sample_axum_laws (sample_state reconcile_claims) 77
    anonymous_put (serve_run 77 anonymous_put).1 (serve_run 77 anonymous_put).2) as (value & Hs & Hv & Ha).
  - exact (drive_runs granting_world _).
  - apply Ha; [|vm_compute; lia]. exact Hv.
Defined.
