(* ===== verification/RouteTraces.v ===== *)
(** * What the handlers do, in which order

    Properties of every trace of the command handlers, whatever the store, Garage
    and the clock answer: Garage is only changed under a lease that was renewed
    just before, a success is only reported when the store recorded it, a bucket
    is only deleted when Garage reported it empty. *)

From S2P Require Import Prelude Prog RustStr Domain Garage GarageAdapter Json Auth StoreModels PrincipalAuth ApiError Cipher Tables Receipts ReceiptLemmas Store StoreEffects StoreStep Samples ReceiptProtocol Commands Routes RouteProps RouteErrors ApiSamples.

(** [ev] is the [prepare] call of [c], answered with [p] (the context forgotten). *)
Definition prepare_event (c : Command) (p : result StoreError (Prepare unit)) (ev : event ApiE)
  : Prop :=
  match ev with
  | Event e x =>
      match e in ApiE X return X -> Prop with
      | StoreCall e =>
          match e in RepositoryE X return X -> Prop with
          | PrepareReconcile command => fun x => c = ReconcileOp command /\ p = (q ← x; Ok (forget q))
          | PrepareDelete command => fun x => c = DeleteOp command /\ p = (q ← x; Ok (forget q))
          | PrepareCreateCredential command => fun x =>
              c = CreateOp command /\ p = (q ← x; Ok (forget q))
          | PrepareRevokeCredential command => fun x =>
              c = RevokeOp command /\ p = (q ← x; Ok (forget q))
          | _ => fun _ => False
          end
      | _ => fun _ => False
      end x
  end.

(** [ev] is the [complete] call of [c] for the attempt [oid], answered with [r]. *)
Definition complete_event (c : Command) (oid : Uuid) (stored : StoredHttpResponse)
    (r : result StoreError unit) (ev : event ApiE) : Prop :=
  match ev with
  | Event e x =>
      match e in ApiE X return X -> Prop with
      | StoreCall e =>
          match e in RepositoryE X return X -> Prop with
          | CompleteReconcile command id _ response _ => fun x =>
              c = ReconcileOp command /\ oid = id /\ stored = response /\ r = x
          | CompleteDelete command id response _ => fun x =>
              c = DeleteOp command /\ oid = id /\ stored = response /\ r = x
          | CompleteCreateCredential command id _ response _ => fun x =>
              c = CreateOp command /\ oid = id /\ stored = response /\ r = x
          | CompleteRevokeCredential command id response _ => fun x =>
              c = RevokeOp command /\ oid = id /\ stored = response /\ r = x
          | _ => fun _ => False
          end
      | _ => fun _ => False
      end x
  end.

Definition renewed (o : OperationRequest) (oid : Uuid) : event ApiE :=
  Event (StoreCall (RenewOperation o oid)) (Ok tt).

(** The store granted an attempt at [o] to [oid]. *)
Definition granted_in (o : OperationRequest) (oid : Uuid) (past : list (event ApiE)) : Prop :=
  Exists (fun ev => exists c, command_operation c = o /\ prepare_event c (Ok (Execute oid tt)) ev)
    past.

(** The last call renewed the lease of a granted attempt. *)
Definition under_lease (past : list (event ApiE)) : Prop :=
  exists o oid past0, past = past0 ++ [renewed o oid] /\ granted_in o oid past0.

(** The last call was refused because the lease was lost, and the key is the one
    this attempt had just received from Garage. *)
Definition compensating (garage_key_id : string) (past : list (event ApiE)) : Prop :=
  exists past0 command oid credential response audit current bucket name permissions issued,
    past = past0 ++ [Event (StoreCall (CompleteCreateCredential command oid credential response
                                         audit)) (Err (OperationLeaseLost current))] /\
    Event (GarageCall (CreateCredential bucket name permissions)) (Ok issued) ∈ past0 /\
    garage_key_id = ic_garage_key_id issued.

(** Garage is changed under a lease, or to take back a key. *)
Definition garage_guard (past : list (event ApiE)) (ev : event ApiE) : Prop :=
  match ev with
  | Event e _ =>
      match e with
      | GarageCall e =>
          match e with
          | ReconcileBucket _ _ | CreateCredential _ _ _ | DeleteBucket _ => under_lease past
          | RevokeCredential id => under_lease past \/ compensating id past
          | GarageHealth | BucketUsageOf _ => True
          end
      | _ => True
      end
  end.

Lemma runs_store {A : Type} (e : RepositoryE (result StoreError A)) tr a :
  runs (store e) tr (Ok a) <-> tr = [Event (StoreCall e) (Ok a)].
Proof.
  unfold store. rewrite runs_map_err. setoid_rewrite runs_call. split.
  - intros ([b|] & -> & [= ->]). done.
  - intros ->. by exists (Ok a).
Qed.

Lemma always_store {A : Type} Q past (e : RepositoryE (result StoreError A)) :
  (forall x, Q past (Event (StoreCall e) x)) -> always Q past (store e).
Proof. intros Hq. unfold store. by apply always_map_err, always_call. Qed.

Lemma runs_garage {A : Type} (e : GarageE (result GarageBackendError A)) tr r :
  runs (garage e) tr r <-> tr = [Event (GarageCall e) r].
Proof. apply runs_call. Qed.

Lemma granted_in_app o oid past tr : granted_in o oid past -> granted_in o oid (past ++ tr).
Proof. intros Hg. apply Exists_app. by left. Qed.

Lemma renewed_lease o oid past tr (u : unit) :
  granted_in o oid past -> runs (store (RenewOperation o oid)) tr (Ok u) ->
  under_lease (past ++ tr).
Proof. intros Hg ->%runs_store. destruct u. by exists o, oid, past. Qed.

#[export] Hint Resolve granted_in_app renewed_lease : syouyu.

(** No call on Garage at all. *)
Definition no_garage (ev : event ApiE) : Prop :=
  match ev with Event e _ => match e with GarageCall _ => False | _ => True end end.

Lemma no_garage_guard {A : Type} past (p : prog ApiE A) :
  always (fun _ ev => no_garage ev) past p -> always garage_guard past p.
Proof.
  revert past. induction p as [a|X e k IH]; intros past Hp; simpl in *; [done|].
  intros x. destruct (Hp x) as [Hn Hk]. split; [by destruct e|auto].
Qed.

Section traces.
Context `{AuthLib} `{PrincipalLib} `{ApiLib}.

Lemma request_id_no_garage headers past : always (fun _ ev => no_garage ev) past (request_id headers).
Proof. unfold request_id. walk; done. Qed.

Lemma clock_no_garage {A : Type} past (p : prog ApiE A) :
  always (fun _ ev => clock_event ev) past p -> always garage_guard past p.
Proof.
  intros Hp. apply no_garage_guard. eapply always_impl; [|exact Hp].
  intros [X e x]. by destruct e.
Qed.

Lemma backend_failure_guard {A : Type} headers o oid error ctx ty id details past :
  always garage_guard past (backend_failure (A := A) headers o oid error ctx ty id details).
Proof.
  apply no_garage_guard. unfold backend_failure, persist_backend_failure, ret.
  walk; [apply request_id_no_garage|done].
Qed.

Lemma request_id_guard headers past : always garage_guard past (request_id headers).
Proof. apply no_garage_guard, request_id_no_garage. Qed.

(** Close the calls of a handler that are not on Garage. *)
Ltac calm :=
  try done; try apply request_id_guard; try apply backend_failure_guard;
  try (apply always_store; done).

Lemma reconcile_guard state headers command oid context past :
  granted_in (rec_operation command) oid past ->
  always garage_guard past (execute_reconcile state headers command oid context).
Proof.
  intros Hg. unfold execute_reconcile, reconciled_bucket_id, garage, ret. walk; calm.
  simpl. eauto with syouyu.
Qed.

Lemma revoke_keys_guard headers o oid service generation keys past :
  granted_in o oid past ->
  always garage_guard past (revoke_keys headers o oid service generation keys).
Proof.
  revert past. induction keys as [|k keys IH]; intros past Hg; cbn [revoke_keys]; [done|].
  unfold garage. walk; calm.
  - left. eauto with syouyu.
  - apply IH. auto with syouyu.
Qed.

Lemma delete_guard headers command oid context past :
  granted_in (del_operation command) oid past ->
  always garage_guard past (execute_delete headers command oid context).
Proof.
  intros Hg. unfold execute_delete, empty_and_delete_bucket, persist_failure, garage, ret.
  walk; calm; simpl; eauto 10 using revoke_keys_guard with syouyu.
Qed.

Lemma create_guard state headers principal command oid context past :
  granted_in (cre_operation command) oid past ->
  always garage_guard past (execute_create state headers principal command oid context).
Proof.
  intros Hg. unfold execute_create, complete_issued, garage, ret.
  walk; calm; simpl; eauto 10 with syouyu.
  right. subst. open_stored.
  repeat match goal with
  | Hr : runs (call _) _ _ |- _ => apply runs_call in Hr
  end. subst.
  do 11 eexists. split; [reflexivity|]. split; [|reflexivity].
  rewrite !elem_of_app, list_elem_of_singleton. tauto.
Qed.

Lemma revoke_guard headers principal command oid context past :
  granted_in (rev_operation command) oid past ->
  always garage_guard past (execute_revoke headers principal command oid context).
Proof.
  intros Hg. unfold execute_revoke, revoke_in_garage, garage, ret.
  walk; calm; simpl; eauto 10 with syouyu.
Qed.

(** The call that granted the attempt is in the past of its execution. *)
Lemma prepared_grants {T : Type} (e : RepositoryE (result StoreError (Prepare T))) past tr oid
    (context : T) c :
  prepare_event c (Ok (Execute oid tt)) (Event (StoreCall e) (Ok (Execute oid context))) ->
  runs (store e) tr (Ok (Execute oid context)) ->
  granted_in (command_operation c) oid (past ++ tr).
Proof.
  intros He ->%runs_store. apply Exists_app. right. constructor. eauto.
Qed.

Lemma handle_guard state request past : always garage_guard past (handle state request).
Proof.
  destruct request; cbn [handle].
  - unfold reconcile_service_instance, ret. walk; calm; [apply clock_no_garage, clock_only_reconcile|].
    subst. apply reconcile_guard. eapply (prepared_grants _ _ _ _ _ (ReconcileOp _)); [|done]. done.
  - unfold delete_service_instance, ret. walk; calm; [apply clock_no_garage, clock_only_delete|].
    subst. apply delete_guard. eapply (prepared_grants _ _ _ _ _ (DeleteOp _)); [|done]. done.
  - unfold Routes.create_credential, ret.
    walk; calm; [apply clock_no_garage, clock_only_create|].
    subst. apply create_guard. eapply (prepared_grants _ _ _ _ _ (CreateOp _)); [|done]. done.
  - unfold Routes.revoke_credential, ret.
    walk; calm; [apply clock_no_garage, clock_only_revoke|].
    subst. apply revoke_guard. eapply (prepared_grants _ _ _ _ _ (RevokeOp _)); [|done]. done.
  - unfold Routes.service_overview, record_read_audit, ret. walk; calm.
  - unfold service_usage, record_read_audit, garage, ret. walk; calm.
  - unfold Routes.list_credentials, record_read_audit, ret. walk; calm.
  - unfold ready, garage, ret. walk; calm.
  - unfold ret. walk; calm.
  - unfold ret. walk; calm.
  - unfold ret. walk; calm.
Qed.

(** ** Successes are recorded *)

(** The trace ends with a successful completion of [c] that stores [stored]. *)
Definition committed (c : Command) (oid : Uuid) (stored : StoredHttpResponse)
    (tr : list (event ApiE)) : Prop :=
  exists tr0 ev, tr = tr0 ++ [ev] /\ complete_event c oid stored (Ok tt) ev.

Lemma committed_app c oid stored tr tr' : committed c oid stored tr' -> committed c oid stored (tr ++ tr').
Proof. intros (tr0 & ev & -> & He). exists (tr ++ tr0), ev. by rewrite app_assoc. Qed.

Lemma execute_reconcile_Ok state headers command oid context tr resp :
  runs (execute_reconcile state headers command oid context) tr (Ok resp) ->
  exists stored, committed (ReconcileOp command) oid stored tr /\ resp_failed stored = false /\
    stored_into_response stored = Ok resp.
Proof.
  unfold execute_reconcile, ret. cbv zeta.
  intros [(e & _ & [=])|(tr1 & tr2 & id & -> & _ & Hr)]%runs_try.
  apply runs_ret_try in Hr as [(e & _ & _ & [=])|(observed & _ & Hr)].
  apply runs_bind in Hr as (tr3 & tr4 & t & -> & _ & Hr).
  apply runs_ret_try in Hr as [(e & [=] & _)|(stored & [= <-] & Hr)].
  apply runs_bind in Hr as (tr5 & tr6 & rid & -> & _ & Hr).
  apply runs_try in Hr as [(e & _ & [=])|(tr7 & tr8 & [] & -> & ->%runs_store & [-> Hresp])].
  eexists. split; [|split; [|by rewrite Hresp]]; [|done].
  do 3 apply committed_app. eexists [], _. split; [done|]. done.
Qed.

Lemma execute_delete_Ok headers command oid context tr resp :
  runs (execute_delete headers command oid context) tr (Ok resp) ->
  exists stored, committed (DeleteOp command) oid stored tr /\ resp_failed stored = false /\
    stored_into_response stored = Ok resp.
Proof.
  unfold execute_delete, ret. cbv zeta.
  intros [(e & _ & _ & [=])|(id & _ & Hr)]%runs_ret_try.
  apply runs_try in Hr as [(e & _ & [=])|(tr1 & tr2 & [] & -> & _ & Hr)].
  apply runs_ret_try in Hr as [(e & _ & _ & [=])|(observed & _ & Hr)].
  apply runs_bind in Hr as (tr3 & tr4 & t & -> & _ & Hr).
  apply runs_ret_try in Hr as [(e & [=] & _)|(stored & [= <-] & Hr)].
  apply runs_bind in Hr as (tr5 & tr6 & rid & -> & _ & Hr).
  apply runs_try in Hr as [(e & _ & [=])|(tr7 & tr8 & [] & -> & ->%runs_store & [-> Hresp])].
  eexists. split; [|split; [|by rewrite Hresp]]; [|done].
  do 3 apply committed_app. eexists [], _. split; [done|]. done.
Qed.

Lemma execute_revoke_Ok headers principal command oid context tr resp :
  runs (execute_revoke headers principal command oid context) tr (Ok resp) ->
  exists stored, committed (RevokeOp command) oid stored tr /\ resp_failed stored = false /\
    stored_into_response stored = Ok resp.
Proof.
  unfold execute_revoke, ret. cbv zeta.
  intros [(e & _ & [=])|(tr1 & tr2 & [] & -> & _ & Hr)]%runs_try.
  apply runs_try in Hr as [(e & _ & [=])|(tr3 & tr4 & [] & -> & _ & Hr)].
  apply runs_ret_try in Hr as [(e & [=] & _)|(stored & [= <-] & Hr)].
  apply runs_bind in Hr as (tr5 & tr6 & rid & -> & _ & Hr).
  apply runs_try in Hr as [(e & _ & [=])|(tr7 & tr8 & [] & -> & ->%runs_store & [-> Hresp])].
  eexists. split; [|split; [|by rewrite Hresp]]; [|done].
  do 3 apply committed_app. eexists [], _. split; [done|]. done.
Qed.

Lemma backend_failure_Err {A : Type} headers o oid error ctx ty id details tr (a : A) :
  ~ runs (backend_failure headers o oid error ctx ty id details) tr (Ok a).
Proof.
  unfold backend_failure. intros (tr1 & tr2 & rid & -> & _ & Hr)%runs_bind.
  apply runs_bind in Hr as (tr3 & tr4 & e & -> & _ & [_ ?]). done.
Qed.

Lemma execute_create_Ok state headers principal command oid context tr resp :
  runs (execute_create state headers principal command oid context) tr (Ok resp) ->
  exists stored, committed (CreateOp command) oid stored tr /\ resp_failed stored = false /\
    stored_into_response stored = Ok resp.
Proof.
  unfold execute_create, ret. cbv zeta.
  intros [(e & _ & _ & [=])|(id & _ & Hr)]%runs_ret_try.
  apply runs_try in Hr as [(e & _ & [=])|(tr1 & tr2 & [] & -> & _ & Hr)].
  apply runs_bind in Hr as (tr3 & tr4 & [issued|error] & -> & _ & Hr);
    [|by apply backend_failure_Err in Hr].
  unfold complete_issued, ret in Hr. cbv zeta in Hr.
  apply runs_bind in Hr as (tr5 & tr6 & t & -> & _ & Hr).
  apply runs_ret_try in Hr as [(e & [=] & _)|(stored & [= <-] & Hr)].
  apply runs_bind in Hr as (tr7 & tr8 & rid & -> & _ & Hr).
  apply runs_bind in Hr as (tr9 & tr10 & [[]|e] & -> & ->%runs_call & Hr).
  - destruct Hr as [-> Hresp]. eexists. split; [|split; [|by rewrite Hresp]]; [|done].
    do 4 apply committed_app. eexists [], _. split; [done|]. done.
  - exfalso. destruct e; try by destruct Hr as [_ ?].
    apply runs_bind in Hr as (? & ? & ? & _ & _ & _ & [=]).
Qed.

Definition is_command (request : ApiRequest) : bool :=
  match request with
  | PutServiceInstance _ _ _ | DeleteServiceInstance _ _ _ | PostCredential _ _
  | DeleteCredential _ _ => true
  | _ => false
  end.

(** The command a request stands for, when its checks pass. *)
Definition request_command (state : AppState) (request : ApiRequest) (tr : list (event ApiE))
    (c : Command) : Prop :=
  match request, c with
  | PutServiceInstance path headers json, ReconcileOp command =>
      runs (reconcile_command state path headers json) tr (Ok command)
  | DeleteServiceInstance path query headers, DeleteOp command =>
      runs (delete_command state path query headers) tr (Ok command)
  | PostCredential headers json, CreateOp command =>
      exists principal, runs (create_credential_command state headers json) tr
                          (Ok (principal, command))
  | DeleteCredential path headers, RevokeOp command =>
      exists principal, runs (revoke_credential_command state path headers) tr
                          (Ok (principal, command))
  | _, _ => False
  end.

(** A recorded response as the client receives it. *)
Definition delivered (status : Z) (body : Value) (response : HttpResponse) : Prop :=
  http_status response = status /\ http_body response = body /\
  http_headers response = [("content-type", "application/json");
                           ("cache-control", "no-store, private"); ("pragma", "no-cache")].

Lemma stored_into_response_Ok stored response :
  stored_into_response stored = Ok response ->
  (100 <= resp_status stored <= 999)%Z /\ delivered (resp_status stored) (resp_body stored) response.
Proof.
  unfold stored_into_response. destruct (_ && _) eqn:E; [|done]. intros [= <-].
  apply andb_true_iff in E as [?%Z.leb_le ?%Z.leb_le]. by split; [lia|].
Qed.

Lemma stored_into_response_delivered stored :
  (100 <= resp_status stored <= 999)%Z -> exists response,
  stored_into_response stored = Ok response /\
  delivered (resp_status stored) (resp_body stored) response.
Proof.
  intros Hs. unfold stored_into_response.
  rewrite (proj2 (Z.leb_le _ _)), (proj2 (Z.leb_le _ _)) by lia. by eexists.
Qed.

Lemma delivered_same status body r1 r2 :
  delivered status body r1 -> delivered status body r2 -> r1 = r2.
Proof.
  destruct r1, r2. unfold delivered. simpl. intros (-> & -> & ->) (-> & -> & ->). done.
Qed.

(** How the handler of a command goes on when its [prepare] was answered. *)
Inductive after_prepare (c : Command) (p : result StoreError (Prepare unit)) (ev : event ApiE)
    (tr : list (event ApiE)) (r : result ApiError HttpResponse) : Prop :=
| after_refused e : p = Err e -> tr = [] -> r = Err (ApiError_from_StoreError e) ->
    after_prepare c p ev tr r
| after_answered q : p = Ok q -> (forall oid u, q <> Execute oid u) -> tr = [] ->
    r = prepared_response q -> after_prepare c p ev tr r
| after_granted oid u : p = Ok (Execute oid u) ->
    (forall resp, r = Ok resp -> exists stored, committed c oid stored tr /\
       resp_failed stored = false /\ stored_into_response stored = Ok resp) ->
    (forall e, r = Err e -> usable ev -> settled (command_operation c) oid e tr) ->
    after_prepare c p ev tr r.

Lemma prepared_anatomy {T : Type} (e : RepositoryE (result StoreError (Prepare T)))
    (body : Uuid -> T -> prog ApiE (result ApiError HttpResponse)) c tr r :
  (forall x : result StoreError (Prepare T),
     prepare_event c (q ← x; Ok (forget q)) (Event (StoreCall e) x)) ->
  (forall oid ctx tr resp, runs (body oid ctx) tr (Ok resp) ->
     exists stored, committed c oid stored tr /\ resp_failed stored = false /\
       stored_into_response stored = Ok resp) ->
  (forall oid ctx, usable (Event (StoreCall e) (Ok (Execute oid ctx))) ->
     settles (command_operation c) oid (body oid ctx)) ->
  runs (prepared ←? store e;
        match prepared with
        | Execute oid ctx => body oid ctx
        | other => ret (prepared_response other)
        end) tr r ->
  exists p ev tr1, tr = ev :: tr1 /\ prepare_event c p ev /\ after_prepare c p ev tr1 r.
Proof.
  intros He Hbody Hset Hr. apply runs_try in Hr as [(err & Hs & ->)|(tr1 & tr2 & p & -> & Hs & Hr)].
  - unfold store in Hs. apply runs_map_err in Hs as ([|err'] & ->%runs_call & [= ->]).
    eexists _, _, []. split; [done|]. split; [apply He|]. by eapply after_refused.
  - apply runs_store in Hs as ->. eexists _, _, tr2. split; [done|]. split; [apply He|].
    destruct p as [oid ctx|response|oid].
    + eapply after_granted; [done| |].
      * intros resp ->. by eapply Hbody.
      * intros err -> Hu. by eapply Hset.
    + destruct Hr as [-> ->]. by eapply (after_answered _ _ _ _ _ (Replay response)).
    + destruct Hr as [-> ->]. by eapply (after_answered _ _ _ _ _ (InProgress oid)).
Qed.

(** A command handler runs its checks, then one [prepare], then what the answer
    calls for. *)
Lemma command_anatomy state request tr r :
  is_command request = true -> runs (handle state request) tr r ->
  (Forall clock_event tr /\ is_ok r = false) \/
  exists c p tr0 ev tr1, request_command state request tr0 c /\ Forall clock_event tr0 /\
    tr = tr0 ++ ev :: tr1 /\ prepare_event c p ev /\ after_prepare c p ev tr1 r.
Proof.
  destruct request; simpl is_command; intros Hc Hr; [..|done|done|done|done|done|done|done]; cbn [handle] in Hr.
  - apply runs_try in Hr as [(e & Hf & ->)|(tr0 & tr1 & command & -> & Hf & Hr)];
      (assert (Hclock := always_Forall _ [] _ _ _ (clock_only_reconcile _ _ _ _ _) Hf));
      [by left|right].
    eapply (prepared_anatomy _ _ (ReconcileOp command)) in Hr as (p & ev & tr2 & -> & Hp & Ha);
      [|done|intros; by eapply execute_reconcile_Ok|intros; by apply execute_reconcile_settles].
    by eexists (ReconcileOp command), p, tr0, ev, tr2.
  - apply runs_try in Hr as [(e & Hf & ->)|(tr0 & tr1 & command & -> & Hf & Hr)];
      (assert (Hclock := always_Forall _ [] _ _ _ (clock_only_delete _ _ _ _ _) Hf));
      [by left|right].
    eapply (prepared_anatomy _ _ (DeleteOp command)) in Hr as (p & ev & tr2 & -> & Hp & Ha);
      [|done|intros; by eapply execute_delete_Ok|intros; by apply execute_delete_settles].
    by eexists (DeleteOp command), p, tr0, ev, tr2.
  - apply runs_try in Hr as [(e & Hf & ->)|(tr0 & tr1 & [principal command] & -> & Hf & Hr)];
      (assert (Hclock := always_Forall _ [] _ _ _ (clock_only_create _ _ _ _) Hf));
      [by left|right].
    eapply (prepared_anatomy _ _ (CreateOp command)) in Hr as (p & ev & tr2 & -> & Hp & Ha);
      [|done|intros; by eapply execute_create_Ok|intros; by apply execute_create_settles].
    eexists (CreateOp command), p, tr0, ev, tr2. split; [by exists principal|done].
  - apply runs_try in Hr as [(e & Hf & ->)|(tr0 & tr1 & [principal command] & -> & Hf & Hr)];
      (assert (Hclock := always_Forall _ [] _ _ _ (clock_only_revoke _ _ _ _) Hf));
      [by left|right].
    eapply (prepared_anatomy _ _ (RevokeOp command)) in Hr as (p & ev & tr2 & -> & Hp & Ha);
      [|done|intros; by eapply execute_revoke_Ok|intros; apply execute_revoke_settles].
    eexists (RevokeOp command), p, tr0, ev, tr2. split; [by exists principal|done].
Qed.

(** ** Deleting a bucket *)

(** Garage reported no objects and no unfinished uploads, or no such bucket. *)
Definition reported_empty (bucket : string) (past : list (event ApiE)) : Prop :=
  (exists usage, Event (GarageCall (BucketUsageOf bucket)) (Ok usage) ∈ past /\
     usage_bytes usage = 0%Z /\ usage_objects usage = 0%Z /\
     usage_unfinished_upload_bytes usage = 0%Z /\ usage_unfinished_uploads usage = 0%Z) \/
  (exists message, Event (GarageCall (BucketUsageOf bucket))
                     (Err (GarageBackendError.NotFound message)) ∈ past).

Definition revoked_in (past : list (event ApiE)) (garage_key_id : string) : Prop :=
  Event (GarageCall (RevokeCredential garage_key_id)) (Ok tt) ∈ past.

Definition deletion_guard (past : list (event ApiE)) (ev : event ApiE) : Prop :=
  match ev with
  | Event e _ =>
      match e with
      | GarageCall e =>
          match e with
          | DeleteBucket bucket =>
              exists command oid context,
                Event (StoreCall (PrepareDelete command)) (Ok (Execute oid context)) ∈ past /\
                br_physical_bucket_id (dc_bucket context) = Some bucket /\
                reported_empty bucket past /\ Forall (revoked_in past) (dc_garage_key_ids context)
          | _ => True
          end
      | _ => True
      end
  end.

(** No bucket is deleted. *)
Definition keeps_bucket (ev : event ApiE) : Prop :=
  match ev with
  | Event e _ =>
      match e with
      | GarageCall e => match e with DeleteBucket _ => False | _ => True end
      | _ => True
      end
  end.

Lemma keeps_bucket_guard {A : Type} past (p : prog ApiE A) :
  always (fun _ ev => keeps_bucket ev) past p -> always deletion_guard past p.
Proof.
  revert past. induction p as [a|X e k IH]; intros past Hp; simpl in *; [done|].
  intros x. destruct (Hp x) as [Hn Hk]. split; [|auto]. destruct e as [| ? e| |]; try done.
  by destruct e.
Qed.

Lemma always_no_garage_keeps {A : Type} past (p : prog ApiE A) :
  always (fun _ ev => no_garage ev) past p -> always (fun _ ev => keeps_bucket ev) past p.
Proof. apply always_impl. intros [X e x]. by destruct e. Qed.

Lemma always_clock_keeps {A : Type} past (p : prog ApiE A) :
  always (fun _ ev => clock_event ev) past p -> always (fun _ ev => keeps_bucket ev) past p.
Proof. apply always_impl. intros [X e x]. by destruct e. Qed.

Lemma request_id_keeps headers past : always (fun _ ev => keeps_bucket ev) past (request_id headers).
Proof. apply always_no_garage_keeps, request_id_no_garage. Qed.

Lemma backend_failure_keeps {A : Type} headers o oid error ctx ty id details past :
  always (fun _ ev => keeps_bucket ev) past
    (backend_failure (A := A) headers o oid error ctx ty id details).
Proof.
  unfold backend_failure, persist_backend_failure, ret. walk; [apply request_id_keeps|done].
Qed.

Lemma revoke_keys_keeps headers o oid service generation keys past :
  always (fun _ ev => keeps_bucket ev) past (revoke_keys headers o oid service generation keys).
Proof.
  revert past. induction keys as [|k keys IH]; intros past; cbn [revoke_keys]; [done|].
  unfold store, garage. walk; try done. apply backend_failure_keeps.
Qed.

Lemma revoke_keys_Ok headers o oid service generation keys tr :
  runs (revoke_keys headers o oid service generation keys) tr (Ok tt) -> Forall (revoked_in tr) keys.
Proof.
  revert tr. induction keys as [|k keys IH]; intros tr; cbn [revoke_keys]; [by constructor|].
  intros [(e & _ & [=])|(tr1 & tr2 & [] & -> & ->%runs_store & Hr)]%runs_try.
  apply runs_bind in Hr as (tr3 & tr4 & [[]|error] & -> & ->%runs_garage & Hr);
    [|by apply backend_failure_Err in Hr].
  apply IH in Hr. constructor.
  - unfold revoked_in. set_solver.
  - eapply Forall_impl; [exact Hr|]. unfold revoked_in. set_solver.
Qed.

(** Close the calls of a handler that keep the bucket. *)
Ltac keeps :=
  try done; try apply request_id_keeps; try apply backend_failure_keeps;
  try apply revoke_keys_keeps; try (apply always_store; done).

(** The usage Garage reported lets the deletion go on. *)
Lemma usage_reported bucket tr1 tr2 (r : result GarageBackendError BucketUsage) usage past
    (failure : GarageBackendError -> prog ApiE (result ApiError BucketUsage)) :
  (forall e tr, ~ runs (failure e) tr (Ok usage)) ->
  runs (call (GarageCall (BucketUsageOf bucket))) tr1 r ->
  runs (match r with
        | Ok usage => Ret (Ok usage)
        | Err (GarageBackendError.NotFound _) => Ret (Ok BucketUsage_default)
        | Err error => failure error
        end) tr2 (Ok usage) ->
  bucket_is_empty usage = true -> reported_empty bucket ((past ++ tr1) ++ tr2).
Proof.
  intros Hf ->%runs_call Hr He. unfold bucket_is_empty in He. reflect. destruct_and?.
  destruct r as [u|e].
  - destruct Hr as [-> [= ->]]. left. exists u. split; [set_solver|done].
  - destruct e as [m|m|m|m]; try (by apply Hf in Hr). right. exists m. set_solver.
Qed.

Lemma reported_empty_app bucket past tr : reported_empty bucket past -> reported_empty bucket (past ++ tr).
Proof. intros [(u & Hin & Hu)|(m & Hin)]; [left; exists u|right; exists m]; set_solver. Qed.

Lemma empty_and_delete_guard headers command oid context past bucket :
  Event (StoreCall (PrepareDelete command)) (Ok (Execute oid context)) ∈ past ->
  br_physical_bucket_id (dc_bucket context) = Some bucket ->
  always deletion_guard past
    (empty_and_delete_bucket headers (del_operation command) oid
       (op_service_instance_id (del_operation command)) (del_generation command) bucket
       (dc_garage_key_ids context)).
Proof.
  intros Hin Hb. unfold empty_and_delete_bucket, persist_failure, garage, ret. cbv zeta.
  walk; try (by apply keeps_bucket_guard; keeps); try done.
  exists command, oid, context. split; [set_solver|]. split; [done|].
  apply negb_false_iff in Heqb. split.
  - do 2 apply reported_empty_app.
    refine (usage_reported bucket _ _ _ _ _ (fun error => backend_failure headers _ _ error _ _ _ _)
              _ Hrun0 Hrun1 Heqb).
    intros e tr'. apply backend_failure_Err.
  - destruct a2. apply revoke_keys_Ok in Hrun2. eapply Forall_impl; [exact Hrun2|].
    unfold revoked_in. set_solver.
Qed.

Lemma execute_delete_guard headers command oid context past :
  Event (StoreCall (PrepareDelete command)) (Ok (Execute oid context)) ∈ past ->
  always deletion_guard past (execute_delete headers command oid context).
Proof.
  intros Hin. unfold execute_delete, ret. cbv zeta.
  walk; try (by apply keeps_bucket_guard; keeps); try done.
  destruct Hrun as [-> Hid]. symmetry in Hid. apply ok_or_Ok in Hid. rewrite app_nil_r.
  by apply empty_and_delete_guard.
Qed.

Lemma handle_deletion_guard state request past :
  always deletion_guard past (handle state request).
Proof.
  destruct request; cbn [handle].
  2: { unfold delete_service_instance, ret.
       walk; try (by apply keeps_bucket_guard; keeps).
       - apply keeps_bucket_guard, always_clock_keeps, clock_only_delete.
       - subst. apply execute_delete_guard. apply runs_store in Hrun0 as ->. set_solver. }
  all: apply keeps_bucket_guard.
  - unfold reconcile_service_instance, execute_reconcile, reconciled_bucket_id, garage, ret.
    walk; keeps. apply always_clock_keeps, clock_only_reconcile.
  - unfold Routes.create_credential, execute_create, complete_issued, garage, ret.
    walk; keeps. apply always_clock_keeps, clock_only_create.
  - unfold Routes.revoke_credential, execute_revoke, revoke_in_garage, garage, ret.
    walk; keeps. apply always_clock_keeps, clock_only_revoke.
  - unfold Routes.service_overview, record_read_audit, ret. walk; keeps.
  - unfold service_usage, record_read_audit, garage, ret. walk; keeps.
  - unfold Routes.list_credentials, record_read_audit, ret. walk; keeps.
  - unfold ready, garage, ret. walk; keeps.
  - unfold ret. walk; keeps.
  - unfold ret. walk; keeps.
  - unfold ret. walk; keeps.
Qed.
End traces.

(** ** Properties *)

(** Every change a request makes in Garage is fenced: the call that comes
    immediately before it renewed, successfully, the lease of an attempt that the
    store granted to this very request.  The one exception is the removal of a
    key whose lease was lost while it was created, and then the key is the one
    this request itself had just been issued. *)
Theorem garage_changes_under_lease `{AuthLib} `{PrincipalLib} `{ApiLib} state request tr r tr1 ev
    tr2 :
  runs (handle state request) tr r -> tr = tr1 ++ ev :: tr2 -> garage_guard tr1 ev.
Proof. intros Hr Htr. exact (always_elim _ [] _ _ _ _ _ _ (handle_guard state request []) Hr Htr). Qed.

Lemma garage_changes_under_lease_witness :
  length delete_run.1 = 13 /\ under_lease (take 10 delete_run.1).
Proof.
  split; [vm_compute; reflexivity|].
  apply (@garage_changes_under_lease (claims_auth delete_claims) sample_principal_lib sample_url
    sample_api (sample_state delete_claims) delete_request delete_run.1 delete_run.2
    (take 10 delete_run.1)
    (Event (GarageCall (DeleteBucket "phys")) (Ok tt)) (drop 11 delete_run.1)).
  - exact (drive_runs granting_world delete_handler).
  - vm_compute. reflexivity.
Defined.

(** C11. A bucket is deleted in Garage only for a deletion the store granted, only
    the physical bucket of that deletion's context, only after Garage reported
    that it holds no objects and no unfinished uploads (or does not exist), and
    only after every key of the service was confirmed revoked. *)
Theorem bucket_deletion_guarded `{AuthLib} `{PrincipalLib} `{ApiLib} state request tr r tr1 bucket
    answer tr2 :
  runs (handle state request) tr r ->
  tr = tr1 ++ Event (GarageCall (DeleteBucket bucket)) answer :: tr2 ->
  exists command oid context,
    Event (StoreCall (PrepareDelete command)) (Ok (Execute oid context)) ∈ tr1 /\
    br_physical_bucket_id (dc_bucket context) = Some bucket /\
    reported_empty bucket tr1 /\ Forall (revoked_in tr1) (dc_garage_key_ids context).
Proof.
  intros Hr Htr.
  exact (always_elim _ [] _ _ _ _ _ _ (handle_deletion_guard state request []) Hr Htr).
Qed.

Lemma bucket_deletion_guarded_witness : reported_empty "phys" (take 10 delete_run.1).
Proof.
  destruct (@bucket_deletion_guarded (claims_auth delete_claims) sample_principal_lib sample_url
    sample_api (sample_state delete_claims) delete_request delete_run.1 delete_run.2
    (take 10 delete_run.1) "phys" (Ok tt) (drop 11 delete_run.1)) as (c & o & x & _ & _ & He & _).
  - exact (drive_runs granting_world delete_handler).
  - vm_compute. reflexivity.
  - exact He.
Defined.

(** C10. A command reports success only for a result the store holds: either the
    store replayed a stored response, or the last call of the request completed
    the attempt it was granted and the completion returned [Ok]; in both cases
    the client receives exactly the stored status and body, as uncacheable JSON. *)
Theorem success_is_committed `{AuthLib} `{PrincipalLib} `{ApiLib} state request tr response :
  is_command request = true -> runs (handle state request) tr (Ok response) ->
  exists c stored,
    http_status response = resp_status stored /\ http_body response = resp_body stored /\
    http_headers response = [("content-type", "application/json");
                             ("cache-control", "no-store, private"); ("pragma", "no-cache")] /\
    (Exists (prepare_event c (Ok (Replay stored))) tr \/
     exists oid tr0 ev, tr = tr0 ++ [ev] /\ complete_event c oid stored (Ok tt) ev /\
       Exists (prepare_event c (Ok (Execute oid tt))) tr0 /\ resp_failed stored = false).
Proof.
  intros Hc Hr. apply command_anatomy in Hr as [[_ ?]|Hr]; [done| |done].
  destruct Hr as (c & p & tr0 & ev & tr1 & _ & _ & -> & Hp & Ha). exists c.
  inversion Ha as [e _ _ ?|q -> Hq -> Hres|oid u -> Hcm _]; [done| |].
  - destruct q as [| stored|]; simpl in Hres; [done| |done]. exists stored.
    symmetry in Hres. apply stored_into_response_Ok in Hres as [_ (? & ? & ?)]. split_and!; [done..|].
    left. apply Exists_app. right. by constructor.
  - destruct (Hcm response eq_refl) as (stored & (tr2 & ev2 & -> & He) & Hf & Hs).
    apply stored_into_response_Ok in Hs as [_ (? & ? & ?)].
    exists stored. split_and!; [done..|]. right. destruct u.
    exists oid, (tr0 ++ ev :: tr2), ev2. split; [by rewrite <- app_assoc|]. split_and!; try done.
    apply Exists_app. right. by constructor.
Qed.

Lemma success_is_committed_witness :
  exists response c stored, put_run.2 = Ok response /\
    http_status response = resp_status stored /\ http_body response = resp_body stored /\
    (Exists (prepare_event c (Ok (Replay stored))) put_run.1 \/
     exists oid tr0 ev, put_run.1 = tr0 ++ [ev] /\ complete_event c oid stored (Ok tt) ev /\
       Exists (prepare_event c (Ok (Execute oid tt))) tr0 /\ resp_failed stored = false).
Proof.
  destruct put_run.2 as [response|e] eqn:Hrun; [|vm_compute in Hrun; discriminate Hrun].
  exists response.
  destruct (@success_is_committed (claims_auth reconcile_claims) sample_principal_lib sample_url
    sample_api (sample_state reconcile_claims) put_request put_run.1 response)
    as (c & stored & Hs & Hb & _ & Hrest).
  - reflexivity.
  - rewrite <- Hrun. exact (drive_runs granting_world put_handler).
  - exists c, stored. split; [reflexivity|]. split; [exact Hs|]. split; [exact Hb|exact Hrest].
Defined.
