(* ===== verification/RouteBounds.v ===== *)
(** * How many calls a request makes

    A handler always returns: whatever the store, Garage and the clock answer, and
    however these answers depend on what was asked before, it makes a bounded
    number of calls, two for every key it has to revoke and at most sixteen others. *)

From stdpp Require Import relations.
From S2P Require Import Prelude Prog RustStr Domain Garage GarageAdapter Json Auth StoreModels PrincipalAuth ApiError Cipher Tables Receipts Store StoreStep Commands Routes RouteProps RouteErrors ApiSamples RouteTraces.

(** ** Counting *)

(** Every run of [p] makes at most [n] calls. *)
Definition within {E : Type -> Type} {A : Type} (n : nat) (p : prog E A) : Prop :=
  forall tr a, runs p tr a -> length tr <= n.

Section within.
Context {E : Type -> Type}.

Lemma within_Ret {A : Type} n (a : A) : within (E := E) n (Ret a).
Proof. intros tr b [-> _]. simpl. lia. Qed.

Lemma within_call {X : Type} n (e : E X) : 1 <= n -> within n (call e).
Proof. by intros Hn tr x ->%runs_call. Qed.

Lemma within_bind {A B : Type} n m (p : prog E A) (k : A -> prog E B) :
  within n p -> (forall a, within m (k a)) -> within (n + m) (p ≫= k).
Proof.
  intros Hp Hk tr b (tr1 & tr2 & a & -> & H1%Hp & H2%Hk)%runs_bind. rewrite length_app. lia.
Qed.

Lemma within_try {R A B : Type} n m (p : prog E (result R A)) (k : A -> prog E (result R B)) :
  within n p -> (forall a, within m (k a)) -> within (n + m) (try_bind p k).
Proof. intros Hp Hk. apply within_bind; [done|]. intros [a|e]; [apply Hk|apply within_Ret]. Qed.

Lemma within_map_err {R S A : Type} n (f : R -> S) (p : prog E (result R A)) :
  within n p -> within n (prog_map_err f p).
Proof. intros Hp tr r (r' & Hr & _)%runs_map_err. by apply Hp in Hr. Qed.

Lemma within_le {A : Type} n m (p : prog E A) : within n p -> n <= m -> within m p.
Proof. intros Hp Hn tr a Hr. apply Hp in Hr. lia. Qed.

(** The first call of a program takes one from its budget. *)
Lemma within_bind_call {X B : Type} n (e : E X) (k : X -> prog E B) :
  (forall x, within n (k x)) -> within (S n) (call e ≫= k).
Proof. apply (within_bind 1). by apply within_call. Qed.

Lemma within_try_Ret {R A B : Type} n (r : result R A) (k : A -> prog E (result R B)) :
  (forall a, within n (k a)) -> within n (try_bind (Ret r) k).
Proof. apply (within_try 0). apply within_Ret. Qed.
End within.

(** A run against answers that depend on everything asked so far. *)
Lemma drive_state_runs {E : Type -> Type} {A W : Type} (h : forall X : Type, E X -> W -> X * W)
    (p : prog E A) w : runs p (drive_state h p w).1.1 (drive_state h p w).1.2.
Proof.
  revert w. induction p as [a|X e k IH]; intros w; simpl; [done|]. eauto.
Qed.

Section bounds.
Context `{AuthLib} `{PrincipalLib} `{ApiLib}.

Lemma within_store {A B : Type} n (e : RepositoryE (result StoreError A)) (k : A -> Handler B) :
  (forall a, within n (k a)) -> within (S n) (try_bind (store e) k).
Proof. apply (within_try 1). apply within_map_err. by apply within_call. Qed.

Lemma within_garage {A B : Type} n (e : GarageE (result GarageBackendError A)) (k : _ -> Handler B) :
  (forall a, within n (k a)) -> within (S n) (garage e ≫= k).
Proof. apply within_bind_call. Qed.

Lemma within_try_garage {A B : Type} n f (e : GarageE (result GarageBackendError A))
    (k : A -> Handler B) :
  (forall a, within n (k a)) -> within (S n) (try_bind (prog_map_err f (garage e)) k).
Proof. apply (within_try 1). apply within_map_err. by apply within_call. Qed.

Lemma within_request_id {B : Type} n headers (k : string -> prog ApiE B) :
  (forall a, within n (k a)) -> within (S n) (request_id headers ≫= k).
Proof.
  apply (within_bind 1). unfold request_id. repeat case_match; try apply within_Ret;
  apply (within_bind_call 0); intros; apply within_Ret.
Qed.

Lemma within_backend_failure {A : Type} n headers o oid error ctx ty id details :
  2 <= n -> within n (backend_failure (A := A) headers o oid error ctx ty id details).
Proof.
  intros Hn. eapply within_le; [|exact Hn]. unfold backend_failure, persist_backend_failure.
  apply within_request_id. intros rid.
  apply (within_bind 1); [|intros; apply within_Ret].
  apply within_bind_call. intros [|]; apply within_Ret.
Qed.
(** Spend the budget along a handler. *)
Ltac spend :=
  repeat lazymatch goal with
  | |- within _ (Ret _) => apply within_Ret
  | |- within _ (call _) => apply within_call; lia
  | |- within _ (try_bind (Ret _) _) => apply within_try_Ret; intros
  | |- within _ (try_bind (store _) _) => apply within_store; intros
  | |- within _ (try_bind (prog_map_err _ (garage _)) _) => apply within_try_garage; intros
  | |- within _ (garage _ ≫= _) => apply within_garage; intros
  | |- within _ (request_id _ ≫= _) => apply within_request_id; intros
  | |- within _ (call _ ≫= _) => apply within_bind_call; intros
  | |- within _ (backend_failure _ _ _ _ _ _ _ _) => apply within_backend_failure; lia
  | |- within _ (match ?b with _ => _ end) => destruct b
  end.

Lemma within_authorize state headers permission : within 1 (authorize state headers permission).
Proof. unfold authorize, ret. spend. Qed.

Lemma within_provider_claims state headers action : within 2 (provider_claims state headers action).
Proof. unfold provider_claims, ret. spend. Qed.

Lemma within_read_audit principal headers action ty :
  within 2 (record_read_audit principal headers action ty).
Proof. unfold record_read_audit, ret. spend. Qed.

Lemma within_reconcile_command state path headers json :
  within 2 (reconcile_command state path headers json).
Proof.
  unfold reconcile_command, ret. spend.
  apply (within_try 2 0); [apply within_provider_claims|]. intros. spend.
Qed.

Lemma within_delete_command state path query headers :
  within 2 (delete_command state path query headers).
Proof.
  unfold delete_command, ret. spend.
  apply (within_try 2 0); [apply within_provider_claims|]. intros. spend.
Qed.

Lemma within_create_command state headers json :
  within 1 (create_credential_command state headers json).
Proof.
  unfold create_credential_command, ret. spend.
  apply (within_try 1 0); [apply within_authorize|]. intros. spend.
Qed.

Lemma within_revoke_command state path headers :
  within 1 (revoke_credential_command state path headers).
Proof.
  unfold revoke_credential_command, ret. spend.
  apply (within_try 1 0); [apply within_authorize|]. intros. spend.
Qed.

Lemma within_execute_reconcile state headers command oid context :
  within 7 (execute_reconcile state headers command oid context).
Proof.
  unfold execute_reconcile, reconciled_bucket_id, ret. cbv zeta.
  apply (within_try 4 3); intros; spend.
Qed.

Lemma within_revoke_keys headers o oid service generation keys :
  within (2 * length keys + 2) (revoke_keys headers o oid service generation keys).
Proof.
  induction keys as [|k keys IH]; cbn [revoke_keys]; [unfold ret; spend|].
  apply (within_le (S (S (2 * length keys + 2)))); [|simpl; lia]. spend. exact IH.
Qed.

Lemma within_execute_delete headers command oid context :
  within (13 + 2 * length (dc_garage_key_ids context)) (execute_delete headers command oid context).
Proof.
  unfold execute_delete, empty_and_delete_bucket, persist_failure, ret. cbv zeta.
  apply within_try_Ret. intros physical.
  eapply within_le; [apply (within_try (10 + 2 * length (dc_garage_key_ids context)) 3)|lia];
    [|intros; spend].
  apply within_store. intros _. apply within_garage. intros r.
  apply (within_try 2); [spend|]. intros usage.
  destruct (negb (bucket_is_empty usage)).
  - eapply within_le; [|apply (Nat.le_add_r 2)]. apply within_request_id. intros rid.
    apply (within_try 1 0); intros; spend.
  - eapply within_le; [apply (within_try (2 * length (dc_garage_key_ids context) + 2) 4)|lia];
      [apply within_revoke_keys|intros; spend].
Qed.

Lemma within_execute_create state headers principal command oid context :
  within 6 (execute_create state headers principal command oid context).
Proof. unfold execute_create, complete_issued, ret. cbv zeta. spend. Qed.

Lemma within_execute_revoke headers principal command oid context :
  within 6 (execute_revoke headers principal command oid context).
Proof.
  unfold execute_revoke, revoke_in_garage, ret. cbv zeta.
  apply within_store. intros _. apply (within_try 3 2); intros; spend.
Qed.

(** The keys a granted deletion has to revoke. *)
Definition keys_granted (ev : event ApiE) : nat :=
  match ev with
  | Event (StoreCall (PrepareDelete _)) (Ok (Execute _ context)) =>
      length (dc_garage_key_ids context)
  | _ => 0
  end.
Definition keys_to_revoke (tr : list (event ApiE)) : nat := sum_list_with keys_granted tr.

Lemma keys_to_revoke_app tr tr' :
  keys_to_revoke (tr ++ tr') = keys_to_revoke tr + keys_to_revoke tr'.
Proof. apply sum_list_with_app. Qed.

Lemma handle_bound state request tr r :
  runs (handle state request) tr r -> length tr <= 16 + 2 * keys_to_revoke tr.
Proof.
  assert (Hle : forall p : prog ApiE (result ApiError HttpResponse), within 16 p ->
    runs p tr r -> length tr <= 16 + 2 * keys_to_revoke tr) by (intros p Hp Hr%Hp; lia).
  destruct request; cbn [handle]; [apply Hle| |apply Hle..].
  - apply (within_try 2 14); [apply within_reconcile_command|]. intros command. unfold ret. spend.
    eapply within_le; [apply within_execute_reconcile|lia].
  - clear Hle. intros [(e & Hr%within_delete_command & _)|(tr1 & tr2 & command & -> & Hr1 & Hr)]%runs_try;
      [lia|]. apply within_delete_command in Hr1. unfold ret in Hr.
    apply runs_try in Hr as [(e & Hr & _)|(tr3 & tr4 & p & -> & Hr3 & Hr)].
    { assert (length tr2 <= 1); [|rewrite length_app; lia].
      eapply (within_map_err (E := ApiE) 1); [|exact Hr]. by apply within_call. }
    apply runs_store in Hr3 as ->. rewrite !length_app, !keys_to_revoke_app. simpl.
    destruct p as [oid context| |]; [apply within_execute_delete in Hr; simpl; lia|..];
      destruct Hr as [-> _]; simpl; lia.
  - apply (within_try 1 15); [apply within_create_command|]. intros [principal command]. unfold ret. spend.
    eapply within_le; [apply within_execute_create|lia].
  - apply (within_try 1 15); [apply within_revoke_command|]. intros [principal command]. unfold ret. spend.
    eapply within_le; [apply within_execute_revoke|lia].
  - apply (within_try 1 15); [apply within_authorize|]. intros principal. unfold ret. cbv zeta. spend.
    apply (within_try 2 11); [apply within_read_audit|]. intros _. apply (within_bind 1); intros; spend.
  - apply (within_try 1 15); [apply within_authorize|]. intros principal. unfold ret. cbv zeta. spend.
    apply (within_try 2 9); [apply within_read_audit|]. intros. spend.
  - apply (within_try 1 15); [apply within_authorize|]. intros principal. unfold ret. cbv zeta. spend.
    apply (within_try 2 12); [apply within_read_audit|]. intros. spend.
  - unfold ready, ret. spend.
  - apply within_Ret.
  - apply within_Ret.
  - apply within_Ret.
Qed.
End bounds.

(** C12. Every request is answered: for every way the store, Garage and the clock
    can answer, even depending on everything asked before, the handler returns a
    response or an error after finitely many calls, at most sixteen and two for
    every key of a service it was granted to delete. *)
Theorem handlers_terminate `{AuthLib} `{PrincipalLib} `{ApiLib} state request (W : Type)
    (answers : forall X : Type, ApiE X -> W -> X * W) (w : W) :
  exists tr r w', drive_state answers (handle state request) w = (tr, r, w') /\
    runs (handle state request) tr r /\ length tr <= 16 + 2 * keys_to_revoke tr.
Proof.
  pose proof (drive_state_runs answers (handle state request) w) as Hr.
  destruct (drive_state _ _ w) as [[tr r] w']. exists tr, r, w'. split_and!; [done..|].
  by eapply handle_bound.
Qed.
