(* ===== verification/RouteReplay.v ===== *)
(** * Retries of a request

    The end-to-end guarantee of the idempotency keys, through the handlers and
    the store: after a command request succeeded, every later run of the same
    request, whatever happened in between, returns the same response and never
    reaches Garage. *)

From stdpp Require Import relations.
From S2P Require Import Prelude Prog RustStr Domain Garage GarageAdapter Json Auth StoreModels PrincipalAuth ApiError Cipher Tables Receipts ReceiptLemmas Store StoreEffects StoreStep Samples ReceiptProtocol Commands ServiceInv Routes RouteProps RouteErrors ApiSamples RouteTraces.

(** The claims are read from the token: decoding it at another time, if it still
    succeeds, yields the same claims. *)
Class StableClaims `{AuthLib} : Prop := {
  jwt_decode_stable t t' token key v c c' :
    jwt_decode t token key v = Some c -> jwt_decode t' token key v = Some c' -> c = c';
}.

(** ** The same request builds the same command *)

Section determinism.
Context `{AuthLib} `{PrincipalLib} `{ApiLib} `{!StableClaims}.

Lemma check_claims_same self now c action c' : check_claims self now c action = Ok c' -> c' = c.
Proof.
  unfold check_claims. case_match; [done|]. case_match; [done|]. case_match; [done|].
  intros (skew & _ & Hr)%result_bind_Ok. by case_match; simplify_eq.
Qed.

Lemma claims_stable self t1 t2 t1' t2' headers action c c' :
  authenticate_headers_for_action self t1 t2 headers action = Ok c ->
  authenticate_headers_for_action self t1' t2' headers action = Ok c' -> c = c'.
Proof.
  unfold authenticate_headers_for_action, verify_token_for_action.
  intros (token & Ht & Hv)%result_bind_Ok (token' & Ht' & Hv')%result_bind_Ok.
  rewrite Ht in Ht'. injection Ht' as <-. case_match; [done|].
  apply result_bind_Ok in Hv as (hd & Hh & Hv), Hv' as (hd' & Hh' & Hv').
  rewrite Hh in Hh'. injection Hh' as <-. case_match; [done|].
  apply result_bind_Ok in Hv as (k & Hk & Hv), Hv' as (k' & Hk' & Hv').
  rewrite Hk in Hk'. injection Hk' as <-.
  apply result_bind_Ok in Hv as (key & Hkey & Hv), Hv' as (key' & Hkey' & Hv').
  rewrite Hkey in Hkey'. injection Hkey' as <-.
  apply result_bind_Ok in Hv as (cl & Hc%ok_or_Ok & ->%check_claims_same).
  apply result_bind_Ok in Hv' as (cl' & Hc'%ok_or_Ok & ->%check_claims_same).
  by eapply jwt_decode_stable.
Qed.

Lemma check_signed_shape self now at_ s p :
  check_signed self now at_ s = Ok p ->
  exists i e, timestamp (sp_issued_at s) = Ok i /\ timestamp (sp_expires_at s) = Ok e /\
    p = principal_of s i e.
Proof.
  unfold check_signed. case_match; [done|]. case_match; [done|].
  intros (n & _ & Hr)%result_bind_Ok. case_match; [done|].
  apply result_bind_Ok in Hr as (u & _ & Hr). case_match; [done|].
  apply result_bind_Ok in Hr as (i & Hi & Hr). apply result_bind_Ok in Hr as (e & He & [= <-]).
  by exists i, e.
Qed.

Lemma principal_stable self t t' headers p p' :
  authenticate self t headers = Ok p -> authenticate self t' headers = Ok p' -> p = p'.
Proof.
  rewrite !authenticate_Ok.
  intros (encoded & text & sig & at_ & mac & sg & ser & sd & ?) (encoded' & text' & sig' & at_' &
    mac' & sg' & ser' & sd' & ?). destruct_and?. simplify_eq.
  repeat match goal with Hc : check_signed _ _ _ _ = Ok _ |- _ => apply check_signed_shape in Hc end.
  destruct_exists. destruct_and?. destruct_exists. destruct_and?. congruence.
Qed.

(** Two operations built from the same headers and encoding are equal. *)
Lemma provider_operation_stable state headers action g g' encoded o o' :
  provider_operation state headers action g encoded o ->
  provider_operation state headers action g' encoded o' -> o = o' /\ g = g'.
Proof.
  intros [(t1 & t2 & c & Hc & _ & ? & ? & ? & ? & ? & ->) Ha Hg Hh]
         [(t1' & t2' & c' & Hc' & _ & ? & ? & ? & ? & ? & ->) Ha' Hg' Hh'].
  assert (c = c') as -> by (by eapply claims_stable). split; [|done].
  destruct o, o'; simpl in *. congruence.
Qed.

Lemma principal_command_stable state headers permission action encoded encoded' p p' o o' :
  principal_command state headers permission action encoded p o ->
  principal_command state headers permission action encoded' p' o' ->
  p = p' /\ (encoded = encoded' -> o = o').
Proof.
  intros (t & key & hash & Ha & _ & Hk & Hh & ->) (t' & key' & hash' & Ha' & _ & Hk' & Hh' & ->).
  assert (p = p') as -> by (by eapply principal_stable). split; [done|]. intros ->. congruence.
Qed.

Lemma request_command_stable state request tr tr' c c' :
  request_command state request tr c -> request_command state request tr' c' -> c = c'.
Proof.
  destruct request as [path headers json|path query headers|headers json|path headers| | | | | | |], c, c';
    simpl; try done.
  - intros (r & Hj & Hp & Ho & Hg & Hn & Hs & _)%runs_reconcile_command
           (r' & Hj' & Hp' & Ho' & Hg' & Hn' & Hs' & _)%runs_reconcile_command.
    simplify_eq. destruct (provider_operation_stable _ _ _ _ _ _ _ _ Ho Ho') as [Heq Heqg].
    destruct command, command0; simpl in *. congruence.
  - intros (Hp & Ho)%runs_delete_command (Hp' & Ho')%runs_delete_command.
    rewrite Hp in Hp'. injection Hp' as Hid.
    assert (Hg : del_generation command = del_generation command0).
    { destruct Ho as [(t1 & t2 & c & Hc & _ & _ & _ & _ & _ & _ & ->) _ _ _].
      destruct Ho' as [(t1' & t2' & c' & Hc' & _ & _ & _ & _ & _ & _ & ->) _ _ _].
      by rewrite (claims_stable _ _ _ _ _ _ _ _ _ Hc Hc'). }
    rewrite Hid, Hg in Ho.
    destruct (provider_operation_stable _ _ _ _ _ _ _ _ Ho Ho') as [Heq _].
    destruct command, command0; simpl in *. congruence.
  - intros (p & (r & Hj & Ho & Hn & Hs & Hl)%runs_create_command)
           (p' & (r' & Hj' & Ho' & Hn' & Hs' & Hl')%runs_create_command).
    simplify_eq.
    destruct (principal_command_stable _ _ _ _ _ _ _ _ _ _ Ho Ho') as [-> Heq].
    specialize (Heq eq_refl). destruct command, command0; simpl in *. congruence.
  - intros (p & (Hp & Ho)%runs_revoke_command) (p' & (Hp' & Ho')%runs_revoke_command).
    rewrite Hp in Hp'. injection Hp' as Hid. rewrite Hid in Ho.
    destruct (principal_command_stable _ _ _ _ _ _ _ _ _ _ Ho Ho') as [-> Heq].
    specialize (Heq eq_refl). destruct command, command0; simpl in *. congruence.
Qed.
End determinism.

(** ** The calls as calls of the store *)

Section calls_of_store.
Context `{SerdeJson} `{Aead} (self : PgStore) (bucket_of : bytes -> string).

Lemma prepare_event_call c p X (e : ApiE X) x db db' :
  prepare_event c p (Event e x) -> api_step self bucket_of X e db x db' ->
  exists fault env, prepare_command self fault env c db = (p, db').
Proof.
  destruct e as [X e| | |]; simpl; try done.
  destruct e; simpl; try done; intros [-> ->] (fault & env & Hs); exists fault, env; simpl;
    unfold forget_result; by rewrite Hs.
Qed.

Lemma complete_event_call c oid stored r X (e : ApiE X) x db db' :
  complete_event c oid stored r (Event e x) -> api_step self bucket_of X e db x db' ->
  exists fault env artifact audit,
    complete_command self fault env c oid artifact stored audit db = (r, db').
Proof.
  destruct e as [X e| | |]; simpl; try done.
  destruct e; simpl; try done; intros (-> & -> & -> & ->) (fault & env & Hs).
  - by exists fault, env, {| art_physical_bucket_id := physical_bucket_id;
                             art_credential := sample_credential 0 |}, audit.
  - by exists fault, env, {| art_physical_bucket_id := "";
                             art_credential := sample_credential 0 |}, audit.
  - by exists fault, env, {| art_physical_bucket_id := ""; art_credential := credential |}, audit.
  - by exists fault, env, {| art_physical_bucket_id := "";
                             art_credential := sample_credential 0 |}, audit.
Qed.

End calls_of_store.

(** ** Retries *)

Section retries.
Context `{AuthLib} `{PrincipalLib} `{ApiLib} `{!StableClaims}.
Context `{SerdeJson} `{!SerdeJsonLaws} `{Aead} `{!AeadLaws}.
Context (self : PgStore) (bucket_of : bytes -> string) `{!HashBinds bucket_of}.

Abbreviation step := (store_step self bucket_of).
Abbreviation exec_handler := (exec step (api_step self bucket_of)).

(** The response is recorded: the receipt of [c] is finished and answers [c]. *)
Definition recorded (c : Command) (stored : StoredHttpResponse) (db : Db) : Prop :=
  exists row, receipts db !! op_idempotency_key (command_operation c) = Some row /\
    rcp_state row <> in_progress /\
    receipt_answer (T := unit) self row (command_operation c) = Ok (Replay stored).

Lemma recorded_stable c stored db db' : rtc step db db' -> recorded c stored db -> recorded c stored db'.
Proof.
  intros Hs (row & Hr & Hst & Ha). exists row. split; [|done]. by eapply done_stable.
Qed.

Lemma recorded_replays c stored fault env db p db' :
  recorded c stored db -> command_validate c = Ok tt ->
  prepare_command self fault env c db = (p, db') ->
  p = Ok (Replay stored) \/ p = Err (Database OtherDbError).
Proof.
  intros (row & Hr & Hst & Ha) Hv. eapply prepare_with_fault. rewrite <- Ha.
  by apply prepare_answer.
Qed.

Lemma request_command_ok state request tr c :
  request_command state request tr c -> command_ok bucket_of c.
Proof.
  destruct request, c; simpl; try done.
  - intros Hf. exact (reconcile_front_ok bucket_of _ _ _ _ _ _ Hf).
  - intros Hf. exact (delete_front_ok bucket_of _ _ _ _ _ _ Hf).
  - intros [principal Hf]. exact (create_front_ok bucket_of _ _ _ _ _ _ Hf).
  - intros [principal Hf]. exact (revoke_front_ok bucket_of _ _ _ _ _ _ Hf).
Qed.

(** The state in which a call of a handler was made. *)
Lemma handler_split state request db tr1 X (e : ApiE X) x tr2 r db' :
  exec_handler (handle state request) db (tr1 ++ Event e x :: tr2) r db' ->
  exists db1 db2, rtc step db db1 /\ api_step self bucket_of X e db1 x db2 /\ rtc step db2 db'.
Proof.
  intros Hx. refine (exec_split _ _ (call_ok bucket_of) [] _ _ _ _ _ _ _ _ _ _
    (handle_calls bucket_of state request []) Hx).
  intros Y e' y w w'. apply api_step_store.
Qed.

(** A successful command leaves its response recorded. *)
Lemma success_recorded state request db tr response db' :
  reachable self bucket_of db -> is_command request = true ->
  exec_handler (handle state request) db tr (Ok response) db' ->
  exists c stored tr0, request_command state request tr0 c /\ command_validate c = Ok tt /\
    stored_into_response stored = Ok response /\ recorded c stored db'.
Proof.
  intros Hreach Hc Hx. pose proof (exec_runs _ _ _ _ _ _ _ Hx) as Hr.
  apply command_anatomy in Hr as [[_ ?]|Hr]; [done| |done].
  destruct Hr as (c & p & tr0 & [X e x] & tr1 & Hcmd & _ & -> & Hp & Ha).
  destruct (handler_split _ _ _ _ _ _ _ _ _ _ Hx) as (db1 & db2 & Hs1 & Hcall & Hs2).
  apply (prepare_event_call self bucket_of) with (db := db1) (db' := db2) in Hp
    as (fault & env & Hp); [|done].
  inversion Ha as [err _ _ ?|q Hq Hne Htr Hres|oid u Hq Hcm _]; [done| |].
  - subst p. destruct q as [|stored|]; simpl in Hres; [done| |done].
    exists c, stored, tr0. split; [done|]. split; [by eapply prepare_validates|]. split; [done|].
    eapply recorded_stable; [exact Hs2|].
    assert (Hrec : recorded c stored db1) by (by eapply prepare_replays).
    eapply recorded_stable; [|exact Hrec]. apply rtc_once. exists env.
    eapply (prepare_command_step self bucket_of); [|exact Hp].
    by eapply request_command_ok.
  - subst p. destruct (Hcm response eq_refl) as (stored & (tr2 & [Y e2 y] & -> & He) & Hf & Hs).
    exists c, stored, tr0. split; [done|]. split; [by eapply prepare_validates|]. split; [done|].
    rewrite app_comm_cons, app_assoc in Hx.
    destruct (handler_split _ _ _ _ _ _ _ _ _ _ Hx) as (db3 & db4 & Hs3 & Hcall2 & Hs4).
    pose proof (always_elim _ [] _ _ _ _ _ _ (handle_calls bucket_of state request [])
                  (exec_runs _ _ _ _ _ _ _ Hx) eq_refl) as Hok.
    assert (Hresp : response_ok stored).
    { destruct e2 as [Y e2| | |]; try done. destruct e2; try done; simpl in He, Hok;
        destruct_and?; by subst. }
    eapply (complete_event_call self bucket_of) with (db := db3) (db' := db4) in He
      as (fault2 & env2 & artifact & audit & He); [|done].
    apply complete_command_cases in He as [[_ ?]|(row & Hfin)]; [done|].
    eapply recorded_stable; [exact Hs4|].
    eapply (finished_answer self (T := unit)) in Hfin as (row' & Hrow & Hst & Hans);
      [by exists row'| |done].
    eapply reachable_receipts_ok. unfold reachable in *. by etrans.
Qed.

(** The outcomes of a request whose response is recorded with this status and body:
    it touches Garage in none of them. *)
Definition answered_from_record (status : Z) (body : Value) (tr : list (event ApiE))
    (r : result ApiError HttpResponse) : Prop :=
  Forall no_garage tr /\
  ((exists response, r = Ok response /\ delivered status body response) \/
   (Forall clock_event tr /\ is_ok r = false) \/
   (r = Err internal /\ exists c, Exists (prepare_event c (Err (Database OtherDbError))) tr)).

(** A later run of a request whose result is recorded is answered from the record. *)
Lemma recorded_retry state request tr0 c stored db1 db2 tr r db3 :
  is_command request = true -> request_command state request tr0 c ->
  command_validate c = Ok tt -> recorded c stored db1 ->
  (100 <= resp_status stored <= 999)%Z -> rtc step db1 db2 ->
  exec_handler (handle state request) db2 tr r db3 ->
  answered_from_record (resp_status stored) (resp_body stored) tr r.
Proof.
  intros Hc Hcmd Hv Hrec Hstatus Hs Hx.
  pose proof (command_anatomy _ _ _ _ Hc (exec_runs _ _ _ _ _ _ _ Hx)) as Hr.
  assert (Hclock : forall t, Forall clock_event t -> Forall no_garage t).
  { intros t Ht. eapply Forall_impl; [exact Ht|]. intros [X e x]. by destruct e. }
  unfold answered_from_record.
  destruct Hr as [[Ht He]|(c' & p & tr1 & [X e x] & tr2 & Hcmd' & Ht & -> & Hp & Ha)]; [auto|].
  assert (c' = c) as -> by (by eapply request_command_stable).
  destruct (handler_split _ _ _ _ _ _ _ _ _ _ Hx) as (db4 & db5 & Hs1 & Hcall & _).
  pose proof Hp as Hev.
  eapply (prepare_event_call self bucket_of) in Hp as (fault & env & Hp); [|exact Hcall].
  eapply recorded_replays in Hp as Hpe; [| |exact Hv].
  2: { eapply recorded_stable; [exact Hs1|]. eapply recorded_stable; [exact Hs|exact Hrec]. }
  assert (Hone : tr2 = [] -> Forall no_garage (tr1 ++ Event e x :: tr2)).
  { intros ->. apply Forall_app. split; [auto|]. constructor; [|done].
    by destruct e. }
  inversion Ha as [err Hq Htr Hres|q Hq Hne Htr Hres|oid u Hq Hcm _]; subst p.
  - destruct Hpe as [?|[= ->]]; [done|]. split; [auto|]. right. right. split; [done|].
    exists c. apply Exists_app. right. by constructor.
  - destruct Hpe as [[= ->]|?]; [|done]. split; [auto|]. left.
    destruct (stored_into_response_delivered _ Hstatus) as (response & Hresp & Hd).
    exists response. split; [by rewrite <- Hresp|done].
  - by destruct Hpe.
Qed.

(** The status of a recorded response is one the table accepts. *)
Lemma recorded_status_valid c stored db :
  reachable self bucket_of db -> recorded c stored db -> (100 <= resp_status stored <= 999)%Z.
Proof.
  intros Hreach (row & Hr & Hst & Ha). apply reachable_receipts_ok in Hreach as [Hrow _ _].
  apply Hrow in Hr as [_ Hck]. unfold receipt_answer in Ha.
  destruct (negb _); [done|]. destruct (in_progressb row); [done|].
  apply result_bind_Ok in Ha as (response & Hd & [= <-]). unfold decode_receipt in Hd.
  apply result_bind_Ok in Hd as (status & Hs%ok_or_Ok & Hd).
  do 4 apply result_bind_Ok in Hd as (? & _ & Hd). injection Hd as <-. simpl.
  apply bind_Some in Hs as (s & Hs & Hu). unfold u16_try_from_i32 in Hu.
  destruct (in_u16 s); [|done]. injection Hu as <-.
  unfold receipt_checks in Hck. rewrite Hs in Hck. reflect. lia.
Qed.

(** A failure the handler stored is recorded. *)
Lemma failure_recorded state request db tr r o oid e db' c :
  reachable self bucket_of db -> o = command_operation c ->
  exec_handler (handle state request) db tr r db' -> failure_stored o oid e tr ->
  recorded c (stored_response e) db'.
Proof.
  intros Hreach -> Hx (tr0 & audit & ->).
  destruct (handler_split _ _ _ _ _ _ _ _ _ _ Hx) as (db1 & db2 & Hs1 & Hcall & Hs2).
  pose proof (always_elim _ [] _ _ _ _ _ _ (handle_calls bucket_of state request [])
                (exec_runs _ _ _ _ _ _ _ Hx) eq_refl) as Hok.
  destruct Hcall as (fault & env & Hfail).
  eapply recorded_stable; [exact Hs2|].
  unfold fail_operation, validated in Hfail. destruct (ensure _ _) as [[]|]; [|done].
  apply transaction_Ok, fail_operation_effect in Hfail as (row & t' & Hfin & _ & ->).
  eapply (finished_answer self (T := unit)) in Hfin as (row' & Hrow & Hst & Hans);
    [by exists row'|..].
  - eapply reachable_receipts_ok. unfold reachable in *. by etrans.
  - exact Hok.
Qed.

(** The store granted the request an attempt. *)
Definition attempt_granted (tr : list (event ApiE)) : Prop :=
  exists c oid, Exists (prepare_event c (Ok (Execute oid tt))) tr.

Lemma prepare_event_answer c c' p p' ev : prepare_event c p ev -> prepare_event c' p' ev -> p = p'.
Proof.
  destruct ev as [X e x]. destruct e as [X e| | |]; try done.
  destruct e; try done; simpl; intros [_ ->] [_ ->]; done.
Qed.

(** A granted [prepare] is the commit of its transaction. *)
Lemma validated_Ok {A : Type} v fault (m : Tx A) db a db' :
  validated v fault m db = (Ok a, db') -> tx_result m db = Ok (a, db').
Proof. unfold validated. destruct v as [[]|]; [apply transaction_Ok|done]. Qed.

Lemma not_answered {T : Type} env o db oid (context : T) :
  ~ answered self env o db (Execute oid context).
Proof. by inversion 1. Qed.

Lemma validated_generation o g v :
  (_ ← OperationRequest_validate o;
   if negb (bool_decide (op_generation o = Some g)) then Err (Validation v) else Ok tt) = Ok tt ->
  (0 <= g)%Z.
Proof.
  intros ([] & Ho & Hg)%result_bind_Ok. case_bool_decide as Hgen; [|done].
  unfold OperationRequest_validate in Ho. rewrite Hgen in Ho. repeat case_match; try done.
  rewrite Z.leb_gt in *. lia.
Qed.

(** The contexts the store grants are usable. *)
Lemma prepare_usable X (e : RepositoryE X) x db db' :
  reachable self bucket_of db -> repository_step self bucket_of X e db x db' ->
  usable (Event (StoreCall e) x).
Proof.
  intros Hreach. destruct e; simpl; try done.
  - intros (fault & env & Hs) oid context ->. split.
    { unfold prepare_reconcile, validated in Hs.
      destruct (ReconcileCommand_validate command) as [[]|] eqn:Hv; [|done].
      eapply (validated_generation (rec_operation command) _ ""). unfold ReconcileCommand_validate in Hv.
      destruct (OperationRequest_validate _) as [[]|]; [|done]. simpl in *.
      by destruct (negb _). }
    intros Hagain. apply validated_Ok, prepare_reconcile_effect in Hs as [[_ []%not_answered]|Hs].
    destruct Hs as (again & physical & t & cr & nm & [= _ ->] & _ & _ & Ha & _).
    simpl in *. subst again. unfold reconcile_allowed in Ha.
    destruct (services db !! _) as [s|]; [|by destruct Ha].
    destruct Ha as (_ & _ & _ & (b & Hb & _ & ->) & _).
    by eapply bo_physical, (si_bucket _ _ (reachable_service_inv _ _ _ Hreach)).
  - intros (fault & env & Hs) oid context ->. split.
    { unfold prepare_delete, validated in Hs.
      destruct (DeleteCommand_validate command) as [[]|] eqn:Hv; [|done].
      by eapply validated_generation. }
    apply validated_Ok, prepare_delete_effect in Hs as [[_ []%not_answered]|Hs].
    destruct Hs as (bucket & t & cr & [= _ ->] & _ & _ & Ha & _).
    destruct Ha as (s & b & _ & _ & _ & _ & _ & _ & Hsh & Hp). simpl. by rewrite (sb_physical _ _ Hsh).
  - intros (fault & env & Hs) oid context ->.
    apply validated_Ok, prepare_create_effect in Hs as [[_ []%not_answered]|Hs].
    destruct Hs as (bucket & (s & b & _ & _ & _ & _ & _ & _ & Hsh & Hp) & _ & Hc).
    inversion Hc; subst; simpl; by rewrite (sb_physical _ _ Hsh).
Qed.

(** What became of a granted attempt that ended in an error. *)
Lemma granted_error state request db tr e db' :
  reachable self bucket_of db ->
  is_command request = true -> exec_handler (handle state request) db tr (Err e) db' ->
  attempt_granted tr ->
  exists c oid tr0, request_command state request tr0 c /\ command_validate c = Ok tt /\
    settled (command_operation c) oid e tr.
Proof.
  intros Hreach Hc Hx (c0 & oid0 & Hg). pose proof (exec_runs _ _ _ _ _ _ _ Hx) as Hr.
  assert (Hno : forall t, Forall clock_event t -> ~ Exists (prepare_event c0 (Ok (Execute oid0 tt))) t).
  { intros t Ht (ev & Hin & Hp)%Exists_exists. rewrite Forall_forall in Ht.
    specialize (Ht ev Hin). destruct ev as [X ev x]. by destruct ev. }
  apply command_anatomy in Hr as [[Ht _]|Hr]; [by apply Hno in Hg| |done].
  destruct Hr as (c & p & tr0 & [X ev x] & tr1 & Hcmd & Hclock & -> & Hp & Ha).
  assert (Hhere : tr1 = [] -> Ok (Execute oid0 tt) = p).
  { intros ->. apply Exists_app in Hg as [Hg|Hg]; [by apply Hno in Hg|].
    apply Exists_cons in Hg as [Hg|Hg]; [by eapply prepare_event_answer|by inversion Hg]. }
  inversion Ha as [err Hq Ht _|q Hq Hne Ht _|oid u Hq _ Hset]; subst p.
  - by specialize (Hhere Ht).
  - specialize (Hhere Ht). injection Hhere as <-. by destruct (Hne oid0 tt).
  - exists c, oid, tr0. split; [done|]. split.
    + destruct (handler_split _ _ _ _ _ _ _ _ _ _ Hx) as (db1 & db2 & _ & Hcall & _).
      eapply (prepare_event_call self bucket_of) in Hp as (fault & env & Hp); [|exact Hcall].
      by eapply prepare_validates.
    + rewrite cons_middle. do 2 apply settled_app. apply Hset; [done|].
      destruct (handler_split _ _ _ _ _ _ _ _ _ _ Hx) as (db1 & db2 & Hs1 & Hcall & _).
      destruct ev as [X e'| | |]; try done. eapply prepare_usable; [|exact Hcall].
      unfold reachable in *. by etrans.
Qed.
End retries.

(** C5. Idempotency end to end: when a command request has succeeded, every later
    run of the same request, from whatever state the service reached since and
    interleaved with whatever other requests do, makes no call on Garage at all
    and answers with exactly the same status, headers and body; the only other
    outcomes are a refusal before the store is reached (the credentials of the
    request are no longer accepted) and an internal error when the database
    itself fails. *)
Theorem retry_returns_same_response `{AuthLib} `{PrincipalLib} `{ApiLib} `{!StableClaims}
    `{SerdeJson} `{!SerdeJsonLaws} `{Aead} `{!AeadLaws} self bucket_of `{!HashBinds bucket_of}
    state request db tr response db1 db2 tr' r' db3 :
  reachable self bucket_of db -> is_command request = true ->
  exec (store_step self bucket_of) (api_step self bucket_of) (handle state request) db tr
    (Ok response) db1 ->
  rtc (store_step self bucket_of) db1 db2 ->
  exec (store_step self bucket_of) (api_step self bucket_of) (handle state request) db2 tr' r' db3 ->
  Forall no_garage tr' /\
  (r' = Ok response \/ (Forall clock_event tr' /\ is_ok r' = false) \/
   (r' = Err internal /\ exists c, Exists (prepare_event c (Err (Database OtherDbError))) tr')).
Proof.
  intros Hreach Hc Hx Hs Hx'.
  destruct (success_recorded self bucket_of _ _ _ _ _ _ Hreach Hc Hx)
    as (c & stored & tr0 & Hcmd & Hv & Hresp & Hrec).
  apply stored_into_response_Ok in Hresp as [Hstatus Hd].
  destruct (recorded_retry self bucket_of _ _ _ _ _ _ _ _ _ _ Hc Hcmd Hv Hrec Hstatus Hs Hx')
    as [Hg [(response' & -> & Hd')|Hr]]; (split; [done|]); [left|by right].
  f_equal. eapply delivered_same; done.
Qed.

(** C6. Failures are as final as successes: when an attempt that the store granted
    ends in an error, then either the last call on the store reported that error, or
    the failure was stored in the receipt as the last call of the request (there is
    no third way); in that case every later run of the same request makes no call on Garage and answers with the status and
    body of that error, unless the request is refused before the store is reached
    or the database fails. *)
Theorem granted_failure_is_final `{AuthLib} `{PrincipalLib} `{ApiLib} `{!StableClaims}
    `{SerdeJson} `{!SerdeJsonLaws} `{Aead} `{!AeadLaws} self bucket_of `{!HashBinds bucket_of}
    state request db tr e db1 :
  reachable self bucket_of db -> is_command request = true ->
  exec (store_step self bucket_of) (api_step self bucket_of) (handle state request) db tr
    (Err e) db1 ->
  attempt_granted tr ->
  store_refused e tr \/
  exists o oid, failure_stored o oid e tr /\
    forall db2 tr' r' db3, rtc (store_step self bucket_of) db1 db2 ->
      exec (store_step self bucket_of) (api_step self bucket_of) (handle state request) db2 tr' r'
        db3 ->
      answered_from_record (api_status e) (envelope e) tr' r'.
Proof.
  intros Hreach Hc Hx Hg.
  destruct (granted_error self bucket_of _ _ _ _ _ _ Hreach Hc Hx Hg)
    as (c & oid & tr0 & Hcmd & Hv & [Hf|Hs]); [|by left].
  right. exists (command_operation c), oid. split; [done|]. intros db2 tr' r' db3 Hs Hx'.
  assert (Hrec : recorded self c (stored_response e) db1)
    by (by eapply (failure_recorded self bucket_of)).
  assert (Hreach1 : reachable self bucket_of db1).
  { apply handler_steps in Hx; [|done]. unfold reachable in *. by etrans. }
  by apply (recorded_retry self bucket_of _ _ tr0 c (stored_response e) db1 db2 tr' r' db3 Hc Hcmd Hv
    Hrec (recorded_status_valid self bucket_of _ _ _ Hreach1 Hrec) Hs).
Qed.

(** ** A concrete retry *)

(** The JSON of the two responses the runs store. *)
Definition put_body : Value :=
  @operation_response_value (claims_auth reconcile_claims) sample_url sample_api {|
    por_operation_id := 101;
    por_status := {|
      status_observed_generation := 1; status_phase := Ready;
      status_backend_bucket_id := Some "phys"; status_endpoint := Some "http://s3/";
      status_usage := BucketUsage_default; status_message := None;
      status_updated_at := 1003 * second |} |}.

(** The error of a put whose bucket Garage cannot reconcile. *)
Definition put_error : ApiError :=
  ApiError_from_GarageBackendError (GarageBackendError.Unavailable "down").
Definition put_error_body : Value := @envelope (claims_auth reconcile_claims) put_error.

Definition put_json : SerdeJson := table_json [put_body; put_error_body].

#[local] Existing Instance put_json.
#[local] Existing Instance sample_aead.

Definition no_fault_repository (n : N) (at_ : Z) (X : Type) (e : RepositoryE X) : Db -> X * Db :=
  let env := sample_env n at_ in
  match e with
  | StoreHealth => fun db => (Ok tt, db)
  | PrepareReconcile c => prepare_reconcile sample_store NoFault env c
  | CompleteReconcile c oid physical response audit =>
      complete_reconcile sample_store NoFault env c oid physical response audit
  | PrepareDelete c => prepare_delete sample_store NoFault env c
  | CompleteDelete c oid response audit =>
      complete_delete sample_store NoFault env c oid response audit
  | PrepareCreateCredential c => prepare_create_credential sample_store NoFault env c
  | CompleteCreateCredential c oid credential response audit =>
      complete_create_credential sample_store NoFault env c oid credential response audit
  | PrepareRevokeCredential c => prepare_revoke_credential sample_store NoFault env c
  | CompleteRevokeCredential c oid response audit =>
      complete_revoke_credential sample_store NoFault env c oid response audit
  | RenewOperation o oid => renew_operation NoFault env o oid
  | FailOperation o oid response audit => fail_operation sample_store NoFault env o oid response audit
  | ServiceOverview o p s => fun db => (Store.service_overview o p s db db, db)
  | ListCredentials o p s => fun db => (Store.list_credentials o p s db db, db)
  | RecordUsage o p s b k measured => record_usage NoFault env o p s b k measured
  | RecordAudit audit => record_audit NoFault env audit
  end.

(** [down]: Garage refuses to reconcile buckets. *)
Definition failing_backend (down : bool) (X : Type) (e : GarageE X) : X :=
  match e with
  | ReconcileBucket existing spec =>
      if down then Err (GarageBackendError.Unavailable "down")
      else sample_backend _ (ReconcileBucket existing spec)
  | e => sample_backend _ e
  end.

Definition sample_world (down : bool) (n : N) (at_ : Z) (X : Type) (e : ApiE X) : Db -> X * Db :=
  match e with
  | StoreCall e => no_fault_repository n at_ _ e
  | GarageCall e => fun db => (failing_backend down _ e, db)
  | UtcNow => fun db => ((1003 * second)%Z, db)
  | NowV7 => fun db => (900%N, db)
  end.

Lemma sample_world_step down n at_ X (e : ApiE X) db :
  api_step sample_store sample_bucket_of X e db (sample_world down n at_ X e db).1
    (sample_world down n at_ X e db).2.
Proof.
  destruct e as [X e| | |]; simpl; try done. destruct e; simpl;
    try (exists NoFault, (sample_env n at_); apply surjective_pairing).
  - done.
  - split; [done|]. by left.
  - split; [done|]. by left.
Qed.

Definition first_put : list (event ApiE) * result ApiError HttpResponse * Db :=
  drive_state (sample_world false 1 0) put_handler empty_db.
Definition second_put : list (event ApiE) * result ApiError HttpResponse * Db :=
  drive_state (sample_world false 2 500) put_handler first_put.2.

Lemma sample_claims_stable : @StableClaims (claims_auth reconcile_claims).
Proof. constructor. simpl. congruence. Qed.

Lemma handlers_preserve_reachability_witness :
  reachable sample_store sample_bucket_of first_put.2.
Proof.
  apply (@handlers_preserve_reachability (claims_auth reconcile_claims) sample_principal_lib sample_url
    sample_api put_json sample_aead sample_store sample_bucket_of sample_hash_binds
    (sample_state reconcile_claims) put_request empty_db first_put.1.1 first_put.1.2 first_put.2).
  - apply rtc_refl.
  - exact (drive_state_exec _ _ (sample_world false 1 0) put_handler empty_db (sample_world_step false 1 0)).
Defined.

Lemma retry_returns_same_response_witness :
  exists response, first_put.1.2 = Ok response /\ second_put.1.2 = Ok response /\
    Forall no_garage second_put.1.1.
Proof.
  destruct first_put.1.2 as [response|e] eqn:H1; [|vm_compute in H1; discriminate H1].
  exists response. split; [reflexivity|].
  destruct (@retry_returns_same_response (claims_auth reconcile_claims) sample_principal_lib sample_url
    sample_api sample_claims_stable put_json (table_json_laws [put_body; put_error_body]) sample_aead sample_aead_laws
    sample_store sample_bucket_of sample_hash_binds (sample_state reconcile_claims) put_request
    empty_db first_put.1.1 response first_put.2 first_put.2 second_put.1.1 second_put.1.2
    second_put.2) as [Hg Hr].
  - apply rtc_refl.
  - reflexivity.
  - rewrite <- H1.
    exact (drive_state_exec _ _ (sample_world false 1 0) put_handler empty_db (sample_world_step false 1 0)).
  - apply rtc_refl.
  - exact (drive_state_exec _ _ (sample_world false 2 500) put_handler first_put.2
             (sample_world_step false 2 500)).
  - split; [|exact Hg]. destruct Hr as [Hr|[[Ht _]|[Hr _]]].
    + exact Hr.
    + exfalso. vm_compute in Ht. inversion Ht as [|? ? _ Ht1]; subst.
      inversion Ht1 as [|? ? _ Ht2]; subst. inversion Ht2 as [|? ? Hc _]; subst. exact Hc.
    + exfalso. vm_compute in Hr. discriminate Hr.
Defined.

(** The same put while Garage is down, and its retry when Garage is back. *)
Definition failed_put : list (event ApiE) * result ApiError HttpResponse * Db :=
  drive_state (sample_world true 1 0) put_handler empty_db.
Definition retried_put : list (event ApiE) * result ApiError HttpResponse * Db :=
  drive_state (sample_world false 2 500) put_handler failed_put.2.

Definition grants (ev : event ApiE) : bool :=
  match ev with Event (StoreCall (PrepareReconcile _)) (Ok (Execute _ _)) => true | _ => false end.

Lemma granted_failure_is_final_witness :
  failed_put.1.2 = Err put_error /\
  (store_refused put_error failed_put.1.1 \/
   answered_from_record (api_status put_error) put_error_body
     retried_put.1.1 retried_put.1.2).
Proof.
  assert (Hf : failed_put.1.2 = Err put_error) by (vm_compute; reflexivity).
  split; [exact Hf|].
  destruct (@granted_failure_is_final (claims_auth reconcile_claims) sample_principal_lib sample_url
    sample_api sample_claims_stable put_json (table_json_laws [put_body; put_error_body]) sample_aead
    sample_aead_laws sample_store sample_bucket_of sample_hash_binds (sample_state reconcile_claims)
    put_request empty_db failed_put.1.1 put_error failed_put.2) as [Hr|(o & oid & _ & Hr)].
  - apply rtc_refl.
  - reflexivity.
  - rewrite <- Hf.
    exact (drive_state_exec _ _ (sample_world true 1 0) put_handler empty_db
             (sample_world_step true 1 0)).
  - assert (Hg : existsb grants failed_put.1.1 = true) by (vm_compute; reflexivity).
    apply existsb_exists in Hg as (ev & Hin%list_elem_of_In & Hg).
    destruct ev as [X e x]. destruct e as [X e| | |]; try discriminate Hg.
    destruct e; try discriminate Hg. destruct x as [[oid ctx| |]|]; try discriminate Hg.
    exists (ReconcileOp command), oid. apply Exists_exists. eexists. split; [exact Hin|].
    split; reflexivity.
  - left. exact Hr.
  - right. eapply Hr; [apply rtc_refl|].
    exact (drive_state_exec _ _ (sample_world false 2 500) put_handler failed_put.2
             (sample_world_step false 2 500)).
Defined.
