(* ===== verification/Access.v ===== *)
(** * Tenants are kept apart

    Which service instance a request can touch.  The handlers take it from the
    verified token or principal context alone, every call on the store names that
    instance and no other, and the buckets and keys they name to Garage are those
    the store holds for it; the name under which a key is issued carries the
    instance and a credential reserved for it. *)

From stdpp Require Import relations.
From S2P Require Import Prelude Prog RustStr Domain Garage GarageAdapter Json Auth StoreModels PrincipalAuth ApiError Cipher Tables Receipts ReceiptLemmas Store StoreEffects StoreStep Samples ReceiptProtocol Commands ServiceInv ServiceProps Routes RouteProps RouteErrors ApiSamples RouteTraces RouteReplay.

(** ** Whom a request acts for *)

Section authority.
Context `{AuthLib} `{PrincipalLib} `{ApiLib}.

(** The provider's token for [action] names [scope]. *)
Definition provider_acts (state : AppState) (headers : HeaderMap) (action : string)
    (scope : ServiceScope) : Prop :=
  exists t1 t2 claims,
    authenticate_headers_for_action (provider_auth state) t1 t2 headers action = Ok claims /\
    ProviderClaims_scope claims = scope.

(** The gateway's signed context names [scope] and carries [permission]. *)
Definition principal_acts (state : AppState) (headers : HeaderMap) (permission : string)
    (scope : ServiceScope) : Prop :=
  exists t principal,
    authenticate (principal_auth state) t headers = Ok principal /\
    permission ∈ principal_permissions principal /\ principal_scope principal = scope.

Definition acts_for (state : AppState) (request : ApiRequest) (scope : ServiceScope) : Prop :=
  match request with
  | PutServiceInstance path headers _ =>
      path = Ok (scope_service_instance_id scope) /\
      provider_acts state headers PROVIDER_RECONCILE_ACTION scope
  | DeleteServiceInstance path _ headers =>
      path = Ok (scope_service_instance_id scope) /\
      provider_acts state headers PROVIDER_DELETE_ACTION scope
  | PostCredential headers _ => principal_acts state headers CREDENTIAL_CREATE_PERMISSION scope
  | DeleteCredential _ headers => principal_acts state headers CREDENTIAL_REVOKE_PERMISSION scope
  | GetServiceOverview headers => principal_acts state headers OVERVIEW_READ_PERMISSION scope
  | GetUsage headers => principal_acts state headers USAGE_READ_PERMISSION scope
  | GetCredentials headers => principal_acts state headers CREDENTIAL_READ_PERMISSION scope
  | GetReady | GetLive | UnknownPath | UnsupportedMethod => False
  end.
End authority.

(** ** What a call concerns *)

Definition operation_scope (o : OperationRequest) : ServiceScope := {|
  scope_organization_id := op_organization_id o;
  scope_project_id := op_project_id o;
  scope_service_instance_id := op_service_instance_id o |}.

Definition audit_scope (a : AuditEvent) : ServiceScope := {|
  scope_organization_id := ae_organization_id a;
  scope_project_id := ae_project_id a;
  scope_service_instance_id := ae_service_instance_id a |}.

(** Every instance the call names, that of its audit event included, is [scope]. *)
Definition concerns (scope : ServiceScope) {X : Type} (e : RepositoryE X) : Prop :=
  match e with
  | StoreHealth => False
  | PrepareReconcile c => operation_scope (rec_operation c) = scope
  | CompleteReconcile c _ _ _ a => operation_scope (rec_operation c) = scope /\ audit_scope a = scope
  | PrepareDelete c => operation_scope (del_operation c) = scope
  | CompleteDelete c _ _ a => operation_scope (del_operation c) = scope /\ audit_scope a = scope
  | PrepareCreateCredential c => operation_scope (cre_operation c) = scope
  | CompleteCreateCredential c _ _ _ a =>
      operation_scope (cre_operation c) = scope /\ audit_scope a = scope
  | PrepareRevokeCredential c => operation_scope (rev_operation c) = scope
  | CompleteRevokeCredential c _ _ a =>
      operation_scope (rev_operation c) = scope /\ audit_scope a = scope
  | RenewOperation o _ => operation_scope o = scope
  | FailOperation o _ _ a => operation_scope o = scope /\ audit_scope a = scope
  | ServiceOverview organization project service | ListCredentials organization project service
  | RecordUsage organization project service _ _ _ =>
      scope = {| scope_organization_id := organization; scope_project_id := project;
                 scope_service_instance_id := service |}
  | RecordAudit a => audit_scope a = scope
  end.

(** The store's answer names the physical bucket [id], the key [key], or reserves
    [name] for a bucket that does not exist yet. *)
Definition answers_bucket (id : string) (ev : event ApiE) : Prop :=
  match ev with
  | Event e x =>
      match e in ApiE X return X -> Prop with
      | StoreCall e =>
          match e in RepositoryE X return X -> Prop with
          | PrepareReconcile _ => fun x => exists oid context,
              x = Ok (Execute oid context) /\ br_physical_bucket_id (rc_bucket context) = Some id
          | PrepareDelete _ => fun x => exists oid context,
              x = Ok (Execute oid context) /\ br_physical_bucket_id (dc_bucket context) = Some id
          | PrepareCreateCredential _ => fun x => exists oid context,
              x = Ok (Execute oid context) /\ br_physical_bucket_id (cc_bucket context) = Some id
          | ServiceOverview _ _ _ => fun x => exists record,
              x = Ok record /\ br_physical_bucket_id (sr_bucket record) = Some id
          | _ => fun _ => False
          end
      | _ => fun _ => False
      end x
  end.

Definition answers_name (name : string) (ev : event ApiE) : Prop :=
  match ev with
  | Event e x =>
      match e in ApiE X return X -> Prop with
      | StoreCall e =>
          match e in RepositoryE X return X -> Prop with
          | PrepareReconcile c => fun x => exists oid context,
              x = Ok (Execute oid context) /\ name = spec_bucket_name (rec_spec c)
          | _ => fun _ => False
          end
      | _ => fun _ => False
      end x
  end.

Definition answers_key (key : string) (ev : event ApiE) : Prop :=
  match ev with
  | Event e x =>
      match e in ApiE X return X -> Prop with
      | StoreCall e =>
          match e in RepositoryE X return X -> Prop with
          | PrepareDelete _ => fun x => exists oid context,
              x = Ok (Execute oid context) /\ key ∈ dc_garage_key_ids context
          | PrepareRevokeCredential _ => fun x => exists oid context,
              x = Ok (Execute oid context) /\ key = vc_garage_key_id context
          | _ => fun _ => False
          end
      | _ => fun _ => False
      end x
  end.

(** The store's answer reserves the credential [id]. *)
Definition answers_credential (id : Uuid) (ev : event ApiE) : Prop :=
  match ev with
  | Event e x =>
      match e in ApiE X return X -> Prop with
      | StoreCall e =>
          match e in RepositoryE X return X -> Prop with
          | PrepareCreateCredential _ => fun x => exists oid context,
              x = Ok (Execute oid context) /\ id = cc_credential_id context
          | _ => fun _ => False
          end
      | _ => fun _ => False
      end x
  end.

(** The name of a credential's key in Garage. *)
Definition key_name `{AuthLib} (service credential : Uuid) : string :=
  "syouyu-" +:+ uuid_to_string service +:+ "-" +:+ uuid_to_string credential.

(** The text of a UUID always has the same length (36 characters) and determines
    the UUID, so what follows it cannot be mistaken for a part of it. *)
Class UuidText `{AuthLib} : Prop := {
  uuid_text_unique u w x y :
    uuid_to_string u +:+ "-" +:+ x = uuid_to_string w +:+ "-" +:+ y -> u = w;
}.

Lemma key_name_service `{UuidText} s1 c1 s2 c2 : key_name s1 c1 = key_name s2 c2 -> s1 = s2.
Proof. unfold key_name. intros Hn%(inj (String.append "syouyu-")). by eapply uuid_text_unique. Qed.

(** Garage issued [key] to this request. *)
Definition issues_key (key : string) (ev : event ApiE) : Prop :=
  exists bucket name permissions issued,
    ev = Event (GarageCall (CreateCredential bucket name permissions)) (Ok issued) /\
    ic_garage_key_id issued = key.

(** Everything a call on Garage names comes from the answers before it. *)
Definition garage_names `{AuthLib} (scope : ServiceScope) (past : list (event ApiE)) {X : Type} (e : GarageE X) : Prop :=
  match e with
  | GarageHealth => False
  | ReconcileBucket (Some id) _ => Exists (answers_bucket id) past
  | ReconcileBucket None spec => Exists (answers_name (spec_bucket_name spec)) past
  | BucketUsageOf id | DeleteBucket id => Exists (answers_bucket id) past
  | CreateCredential id name _ =>
      Exists (answers_bucket id) past /\
      exists credential, Exists (answers_credential credential) past /\
        name = key_name (scope_service_instance_id scope) credential
  | RevokeCredential key => Exists (answers_key key) past \/ Exists (issues_key key) past
  end.

Definition access `{AuthLib} (scope : ServiceScope) (past : list (event ApiE)) (ev : event ApiE) : Prop :=
  match ev with
  | Event e _ =>
      match e with
      | StoreCall e => concerns scope e
      | GarageCall e => garage_names scope past e
      | UtcNow | NowV7 => True
      end
  end.

(** ** The handlers stay within the scope *)

(** Close the calls that only concern the scope. *)
Ltac in_scope :=
  try done; try (apply always_store; intros; simpl; by subst); try (simpl; by subst).

Section within.
Context `{AuthLib} `{PrincipalLib} `{ApiLib}.

Lemma request_id_access scope headers past : always (access scope) past (request_id headers).
Proof. unfold request_id. walk; done. Qed.

Lemma backend_failure_access scope {A : Type} headers o oid error ctx ty id details past :
  operation_scope o = scope ->
  always (access scope) past (backend_failure (A := A) headers o oid error ctx ty id details).
Proof.
  intros <-. unfold backend_failure, persist_backend_failure, ret.
  walk; [apply request_id_access|done].
Qed.

Lemma execute_reconcile_access scope state headers command oid context past :
  operation_scope (rec_operation command) = scope ->
  (forall id, br_physical_bucket_id (rc_bucket context) = Some id ->
     Exists (answers_bucket id) past) ->
  Exists (answers_name (spec_bucket_name (rec_spec command))) past ->
  always (access scope) past (execute_reconcile state headers command oid context).
Proof.
  intros Hs Hb Hn. unfold execute_reconcile, reconciled_bucket_id, garage, ret.
  walk; in_scope; try apply request_id_access; try by apply backend_failure_access.
  simpl. destruct (br_physical_bucket_id _) eqn:?; apply Exists_app; left; auto.
Qed.

Lemma revoke_keys_access scope headers o oid service generation keys past :
  operation_scope o = scope -> Forall (fun key => Exists (answers_key key) past) keys ->
  always (access scope) past (revoke_keys headers o oid service generation keys).
Proof.
  intros Hs. revert past. induction keys as [|k keys IH]; intros past Hk; cbn [revoke_keys]; [done|].
  apply Forall_cons in Hk as [Hk Hks].
  unfold garage. walk; in_scope; try by apply backend_failure_access.
  - left. apply Exists_app. by left.
  - apply IH. eapply Forall_impl; [exact Hks|]. intros key Hkey. rewrite !Exists_app. auto.
Qed.

Lemma execute_delete_access scope headers command oid context past :
  operation_scope (del_operation command) = scope ->
  (forall id, br_physical_bucket_id (dc_bucket context) = Some id ->
     Exists (answers_bucket id) past) ->
  Forall (fun key => Exists (answers_key key) past) (dc_garage_key_ids context) ->
  always (access scope) past (execute_delete headers command oid context).
Proof.
  intros Hs Hb Hk. unfold execute_delete, empty_and_delete_bucket, persist_failure, garage, ret.
  apply always_try; [done|]. intros tr id [-> Hid]. rewrite app_nil_r.
  symmetry in Hid. apply ok_or_Ok, Hb in Hid.
  walk; in_scope; try apply request_id_access; try by apply backend_failure_access.
  all: try apply revoke_keys_access; simpl; try done; rewrite ?Exists_app; auto 10.
  all: eapply Forall_impl; [exact Hk|]; intros key Hkey; rewrite !Exists_app; auto 10.
Qed.

Lemma execute_create_access scope state headers principal command oid context past :
  operation_scope (cre_operation command) = scope ->
  scope_service_instance_id (principal_scope principal) = scope_service_instance_id scope ->
  (forall id, br_physical_bucket_id (cc_bucket context) = Some id ->
     Exists (answers_bucket id) past) ->
  Exists (answers_credential (cc_credential_id context)) past ->
  always (access scope) past (execute_create state headers principal command oid context).
Proof.
  intros Hs Hps Hb Hc. unfold execute_create, complete_issued, garage, ret.
  apply always_try; [done|]. intros tr id [-> Hid]. rewrite app_nil_r.
  symmetry in Hid. apply ok_or_Ok, Hb in Hid.
  walk; in_scope; try apply request_id_access; try by apply backend_failure_access.
  - simpl. split; [apply Exists_app; by left|]. exists (cc_credential_id context).
    split; [apply Exists_app; by left|]. by rewrite Hps.
  - right. subst. apply runs_call in Hrun0. subst.
    assert (Hk : forall name permissions, Exists (issues_key (ic_garage_key_id a1))
      [Event (GarageCall (CreateCredential id name permissions)) (Ok a1)])
      by (intros; constructor; by do 4 eexists).
    rewrite !Exists_app. simpl. auto 10.
Qed.

Lemma execute_revoke_access scope headers principal command oid context past :
  operation_scope (rev_operation command) = scope ->
  Exists (answers_key (vc_garage_key_id context)) past ->
  always (access scope) past (execute_revoke headers principal command oid context).
Proof.
  intros Hs Hk. unfold execute_revoke, revoke_in_garage, garage, ret.
  walk; in_scope; try apply request_id_access; try by apply backend_failure_access.
  left. apply Exists_app. by left.
Qed.

Lemma scope_eta (scope : ServiceScope) :
  scope = {| scope_organization_id := scope_organization_id scope;
             scope_project_id := scope_project_id scope;
             scope_service_instance_id := scope_service_instance_id scope |}.
Proof. by destruct scope. Qed.

Lemma read_audit_access principal headers action ty past :
  always (access (principal_scope principal)) past (record_read_audit principal headers action ty).
Proof.
  unfold record_read_audit, store, ret. walk; [apply request_id_access|].
  by destruct (principal_scope principal).
Qed.

(** The answer of the call is in the past of what follows it. *)
Lemma answered_in (P : event ApiE -> Prop) {A : Type} (e : RepositoryE (result StoreError A)) past tr a :
  runs (store e) tr (Ok a) -> P (Event (StoreCall e) (Ok a)) -> Exists P (past ++ tr).
Proof. intros ->%runs_store Hp. apply Exists_app. right. by constructor. Qed.

(** The checks of a command fix the scope. *)
Lemma provider_scope state headers action generation encoded o :
  provider_operation state headers action generation encoded o ->
  provider_acts state headers action (operation_scope o).
Proof.
  intros [(t1 & t2 & claims & Hc & _ & _ & Ho & Hp & Hs & _) _ _ _]. exists t1, t2, claims.
  split; [done|]. unfold ProviderClaims_scope, operation_scope. by rewrite Ho, Hp, Hs.
Qed.

Lemma principal_command_scope state headers permission action encoded principal o :
  principal_command state headers permission action encoded principal o ->
  principal_acts state headers permission (operation_scope o).
Proof.
  intros (t & key & hash & Ha & Hp & _ & _ & ->). exists t, principal. split_and!; [done..|].
  unfold operation_scope. simpl. by destruct (principal_scope principal).
Qed.

Lemma principal_command_service state headers permission action encoded principal o :
  principal_command state headers permission action encoded principal o ->
  scope_service_instance_id (principal_scope principal)
    = scope_service_instance_id (operation_scope o).
Proof. by intros (t & key & hash & Ha & Hp & _ & _ & ->). Qed.

Lemma authorized_scope state headers permission tr principal :
  runs (authorize state headers permission) tr (Ok principal) ->
  principal_acts state headers permission (principal_scope principal).
Proof. intros (t & Ha & Hp)%authorize_Ok. by exists t, principal. Qed.

(** [tr] has only clock readings and health checks, or one scope covers it. *)
Definition probe (ev : event ApiE) : Prop :=
  match ev with
  | Event e _ =>
      match e with
      | UtcNow | NowV7 | StoreCall StoreHealth | GarageCall GarageHealth => True
      | _ => False
      end
  end.

Definition scoped (state : AppState) (request : ApiRequest) (tr : list (event ApiE)) : Prop :=
  Forall probe tr \/
  exists scope, acts_for state request scope /\
    forall tr1 ev tr2, tr = tr1 ++ ev :: tr2 -> access scope tr1 ev.

Lemma clock_probe tr : Forall clock_event tr -> Forall probe tr.
Proof. intros Ht. eapply Forall_impl; [exact Ht|]. intros [X e x]. by destruct e. Qed.

(** A handler checks the request, and what it does next stays in the scope found. *)
Lemma scoped_front {A B : Type} state request (m : prog ApiE (result ApiError A))
    (k : A -> prog ApiE (result ApiError B)) tr r :
  (forall past, always (fun _ ev => clock_event ev) past m) ->
  (forall tr1 a, runs m tr1 (Ok a) -> exists scope, acts_for state request scope /\
     forall past, always (access scope) past (k a)) ->
  runs (try_bind m k) tr r -> scoped state request tr.
Proof.
  intros Hm Hk [(e & Hf & _)|(tr1 & tr2 & a & -> & Hf & Hr)]%runs_try.
  - left. apply clock_probe. exact (always_Forall _ [] _ _ _ (Hm []) Hf).
  - right. destruct (Hk _ _ Hf) as (scope & Hs & Ha). exists scope. split; [done|].
    intros tr3 ev tr4 Htr.
    assert (Hafter : forall t, tr3 = tr1 ++ t -> tr2 = t ++ ev :: tr4 -> access scope tr3 ev).
    { intros t -> Ht. by eapply (always_elim (access scope)). }
    apply app_eq_inv in Htr as [([|ev' t] & Ht & Ht')|(t & Ht & Ht')].
    + apply (Hafter []); simpl in *; [by rewrite app_nil_r in *|done].
    + pose proof (always_Forall _ [] _ _ _ (Hm []) Hf) as Hc. injection Ht' as <- _. rewrite Ht in Hc.
      apply Forall_app in Hc as [_ [Hc _]%Forall_cons]. destruct ev as [X e x]. by destruct e.
    + by apply (Hafter t).
Qed.

(** A read acts for the scope of the context it was authorized with. *)
Lemma scoped_read {B : Type} state request permission headers
    (k : Principal -> prog ApiE (result ApiError B)) tr r :
  (forall scope, principal_acts state headers permission scope -> acts_for state request scope) ->
  (forall principal past, always (access (principal_scope principal)) past (k principal)) ->
  runs (try_bind (authorize state headers permission) k) tr r -> scoped state request tr.
Proof.
  intros Hacts Hk Hr. eapply scoped_front in Hr; [done|apply clock_only_authorize|].
  intros tr1 principal Ha. eexists. split; [by eapply Hacts, authorized_scope|]. intros past. apply Hk.
Qed.

(** Close the calls of a read that name its principal's scope. *)
Ltac in_read :=
  try apply read_audit_access; try done; try (apply always_store; intros; apply scope_eta).

Lemma handle_scoped state request tr r : runs (handle state request) tr r -> scoped state request tr.
Proof.
  destruct request; cbn [handle].
  - intros Hr. eapply scoped_front in Hr; [done|apply clock_only_reconcile|].
    intros tr1 command (request & _ & Hpath & Ho & _)%runs_reconcile_command.
    eexists. split; [split; [|by eapply provider_scope]; done|].
    intros past. walk; in_scope. subst. apply execute_reconcile_access; [done|..].
    + intros id Hid. eapply answered_in; [done|]. by do 2 eexists.
    + eapply answered_in; [done|]. by do 2 eexists.
  - intros Hr. eapply scoped_front in Hr; [done|apply clock_only_delete|].
    intros tr1 command (Hpath & Ho)%runs_delete_command.
    eexists. split; [split; [|by eapply provider_scope]; done|].
    intros past. walk; in_scope. subst. apply execute_delete_access; [done|..].
    + intros id Hid. eapply answered_in; [done|]. by do 2 eexists.
    + apply Forall_forall. intros key Hkey. eapply answered_in; [done|]. by do 2 eexists.
  - intros Hr. eapply scoped_front in Hr; [done|apply clock_only_create|].
    intros tr1 [principal command] (request & _ & Ho & _)%runs_create_command.
    eexists. split; [by eapply principal_command_scope|].
    intros past. walk; in_scope. simplify_eq. apply execute_create_access; [done|..].
    + by eapply principal_command_service.
    + intros id Hid. eapply answered_in; [done|]. by do 2 eexists.
    + eapply answered_in; [done|]. by do 2 eexists.
  - intros Hr. eapply scoped_front in Hr; [done|apply clock_only_revoke|].
    intros tr1 [principal command] (_ & Ho)%runs_revoke_command.
    eexists. split; [by eapply principal_command_scope|].
    intros past. walk; in_scope. simplify_eq. apply execute_revoke_access; [done|].
    eapply answered_in; [done|]. by do 2 eexists.
  - apply (scoped_read _ _ OVERVIEW_READ_PERMISSION headers); [done|].
    intros principal past. cbv zeta. walk; in_read.
  - apply (scoped_read _ _ USAGE_READ_PERMISSION headers); [done|].
    intros principal past. cbv zeta. walk; in_read.
    destruct Hrun0 as [_ Hid]. symmetry in Hid. apply ok_or_Ok in Hid.
    apply always_call. intros usage. apply Exists_app. left.
    eapply answered_in; [done|]. by eexists.
  - apply (scoped_read _ _ CREDENTIAL_READ_PERMISSION headers); [done|].
    intros principal past. cbv zeta. walk; in_read.
  - intros Hr. left. refine (always_Forall probe [] _ _ _ _ Hr).
    unfold ready, store, garage, ret. walk; done.
  - intros [-> _]. by left.
  - intros [-> _]. by left.
  - intros [-> _]. by left.
Qed.
End within.

(** ** What the store holds for a scope *)

Definition scope_service (db : Db) (scope : ServiceScope) (s : ServiceRow) : Prop :=
  services db !! scope_service_instance_id scope = Some s /\
  svc_organization_id s = scope_organization_id scope /\
  svc_project_id s = scope_project_id scope.

Definition owns_bucket (db : Db) (scope : ServiceScope) (id : string) : Prop :=
  exists s b, scope_service db scope s /\
    buckets db !! scope_service_instance_id scope = Some b /\ bkt_physical_bucket_id b = Some id.

Definition owns_key (db : Db) (scope : ServiceScope) (key : string) : Prop :=
  exists s c row, scope_service db scope s /\ credentials db !! c = Some row /\
    crd_service_instance_id row = scope_service_instance_id scope /\ crd_garage_key_id row = key.

Definition holds_name (db : Db) (scope : ServiceScope) (name : string) : Prop :=
  exists v, name_reservations db !! name = Some v /\
    nam_service_instance_id v = scope_service_instance_id scope.

Definition reserves_credential (db : Db) (scope : ServiceScope) (credential : Uuid) : Prop :=
  exists c v, credential_reservations db !! c = Some v /\ crr_credential_id v = credential /\
    crr_service_instance_id v = scope_service_instance_id scope /\
    crr_organization_id v = scope_organization_id scope /\
    crr_project_id v = scope_project_id scope.

(** The records an answer shows belong to the scope. *)
Definition shows_own (scope : ServiceScope) {X : Type} (e : RepositoryE X) : X -> Prop :=
  match e in RepositoryE X return X -> Prop with
  | ServiceOverview _ _ _ => fun x => forall record, x = Ok record ->
      sr_id record = scope_service_instance_id scope /\
      sr_organization_id record = scope_organization_id scope /\
      sr_project_id record = scope_project_id scope
  | ListCredentials _ _ _ => fun x => forall records, x = Ok records ->
      Forall (fun c => cr_service_instance_id c = scope_service_instance_id scope) records
  | RecordUsage _ _ _ _ _ _ => fun x => forall record, x = Ok record ->
      ur_service_instance_id record = scope_service_instance_id scope
  | _ => fun _ => True
  end.

Section ownership.
Context `{SerdeJson} `{Aead} (self : PgStore) (bucket_of : bytes -> string).

Lemma overview_Ok organization project id db db' record :
  Store.service_overview organization project id db db' = Ok record ->
  exists s b, services db !! id = Some s /\ svc_organization_id s = organization /\
    svc_project_id s = project /\ buckets db' !! id = Some b /\ shows_bucket b (sr_bucket record) /\
    sr_id record = svc_id s /\ sr_organization_id record = organization /\
    sr_project_id record = project.
Proof.
  unfold Store.service_overview. rewrite overview_service_run.
  destruct (services db !! id) as [s|] eqn:Hs; [|done].
  destruct (visible s organization project) eqn:Hv; [|done]. simpl.
  intros ([r d] & Hrun & [= <-])%result_bind_Ok. simpl.
  unfold overview_record in Hrun. tx_step Hrun Hb. tx_step Hrun Hfb. tx_prim Hrun.
  apply ok_or_Ok in Hfb. subst. apply fetch_bucket_row_Ok in Hb as (-> & b & Hb & Hsh).
  unfold visible in Hv. rewrite !andb_true_iff, !N.eqb_eq in Hv. destruct Hv as [[Ho Hp] _].
  unfold ServiceRow_try_into_record in Hrun. apply result_bind_Ok in Hrun as (spec & _ & [= <-]).
  by exists s, b.
Qed.

(** The answers of the store name what it holds for the scope. *)
Lemma bucket_answered scope id X (e : RepositoryE X) x db db' :
  reachable self bucket_of db -> answers_bucket id (Event (StoreCall e) x) -> concerns scope e ->
  repository_step self bucket_of X e db x db' ->
  owns_bucket db scope id \/ owns_bucket db' scope id.
Proof.
  intros Hreach. unfold owns_bucket, scope_service.
  destruct e; simpl; try done.
  - intros (oid & context & -> & Hid) <- (fault & env & Hs). left.
    apply validated_Ok, prepare_reconcile_effect in Hs as [[_ []%not_answered]|Hs].
    destruct Hs as (again & physical & t & cr & nm & [= _ ->] & _ & _ & Ha & _).
    simpl in Hid. unfold reconcile_allowed in Ha.
    destruct (services db !! _) as [s|]; [|by destruct Ha; congruence].
    destruct Ha as (Ho & Hp & _ & (b & Hb & _ & ->) & _). by exists s, b.
  - intros (oid & context & -> & Hid) <- (fault & env & Hs). left.
    apply validated_Ok, prepare_delete_effect in Hs as [[_ []%not_answered]|Hs].
    destruct Hs as (bucket & t & cr & [= _ ->] & _ & _ & Ha & _).
    destruct Ha as (s & b & Hsv & Ho & Hp & _ & _ & Hb & Hsh & _).
    exists s, b. split; [done|]. split; [done|]. by rewrite <- (sb_physical _ _ Hsh).
  - intros (oid & context & -> & Hid) <- (fault & env & Hs). left.
    apply validated_Ok, prepare_create_effect in Hs as [[_ []%not_answered]|Hs].
    destruct Hs as (bucket & (s & b & Hsv & Ho & Hp & _ & _ & Hb & Hsh & _) & _ & Hc).
    exists s, b. split; [done|]. split; [done|]. rewrite <- (sb_physical _ _ Hsh).
    by inversion Hc; subst.
  - intros (record & -> & Hid) -> (Hrtc & [Hs|(e & Hs)]); [|done]. symmetry in Hs. right.
    apply overview_Ok in Hs as (s & b & Hsv & Ho & Hp & Hb & Hsh & _).
    destruct (service_stable _ _ _ _ _ _ Hreach Hrtc Hsv) as (s' & Hs' & [Eo Ep _ _ _]).
    exists s', b. split; [split_and!; [done|simpl; congruence..]|].
    split; [done|]. by rewrite <- (sb_physical _ _ Hsh).
Qed.

Lemma key_answered scope key X (e : RepositoryE X) x db db' :
  answers_key key (Event (StoreCall e) x) -> concerns scope e ->
  repository_step self bucket_of X e db x db' -> owns_key db scope key.
Proof.
  unfold owns_key, scope_service.
  destruct e; simpl; try done.
  - intros (oid & context & -> & Hk) <- (fault & env & Hs).
    apply validated_Ok, prepare_delete_effect in Hs as [[_ []%not_answered]|Hs].
    destruct Hs as (bucket & t & cr & [= _ ->] & _ & _ & Ha & _).
    destruct Ha as (s & b & Hsv & Ho & Hp & _). simpl in Hk. unfold active_keys in Hk.
    apply list_elem_of_fmap in Hk as (row & -> & Hrow).
    rewrite order_by_perm, list_elem_of_In, filter_In, <- list_elem_of_In in Hrow.
    destruct Hrow as [([c row'] & -> & Hc%elem_of_map_to_list)%list_elem_of_fmap Hact].
    unfold active_in in Hact. apply andb_true_iff in Hact as [Hact%N.eqb_eq _].
    by exists s, c, row'.
  - intros (oid & context & -> & ->) <- (fault & env & Hs).
    apply validated_Ok, prepare_revoke_effect in Hs as [[_ []%not_answered]|Hs].
    destruct Hs as (bucket & c & t & cr & [= _ ->] & _ & _ & Ha & Hc & Hsv & _).
    destruct Ha as (s & b & Hrow & Ho & Hp & _). by exists s, (rev_credential_id command), c.
Qed.

(** The name is reserved once the attempt is granted. *)
Lemma name_answered scope name X (e : RepositoryE X) x db db' :
  answers_name name (Event (StoreCall e) x) -> concerns scope e ->
  repository_step self bucket_of X e db x db' -> holds_name db' scope name.
Proof.
  unfold holds_name. destruct e; simpl; try done.
  intros (oid & context & -> & ->) <- (fault & env & Hs).
  apply validated_Ok, prepare_reconcile_effect in Hs as [[_ []%not_answered]|Hs].
  destruct Hs as (again & physical & t & cr & nm & _ & _ & _ & _ & Hn & ->). simpl.
  inversion Hn as [v Hv Hsv|]; subst; [by eauto|]. rewrite lookup_insert_eq. by eexists.
Qed.

(** So is the credential of a granted creation. *)
Lemma credential_answered scope credential X (e : RepositoryE X) x db db' :
  answers_credential credential (Event (StoreCall e) x) -> concerns scope e ->
  repository_step self bucket_of X e db x db' -> reserves_credential db' scope credential.
Proof.
  unfold reserves_credential. destruct e; simpl; try done.
  intros (oid & context & -> & ->) <- (fault & env & Hs).
  apply validated_Ok, prepare_create_effect in Hs as [[_ []%not_answered]|(bucket & _ & _ & Hc)].
  inversion Hc as [permissions d Hnew Hd|row c r Hto Hr Hop Hm]; subst; simpl.
  - eexists _, _. by rewrite lookup_insert_eq.
  - unfold CredentialReservationRow_matches in Hm. rewrite !andb_true_iff, !N.eqb_eq in Hm.
    destruct Hm as [[[[Hs Ho] Hp] _] _]. by exists c, r.
Qed.

Lemma collect_Ok {A B : Type} (f : A -> result StoreError B) (l : list A) bs :
  collect f l = Ok bs -> Forall (fun b => exists a, a ∈ l /\ f a = Ok b) bs.
Proof.
  revert bs. induction l as [|a l IH]; simpl; intros bs; [by intros [= <-]|].
  intros (b & Hb & (bs' & Hbs & [= <-])%result_bind_Ok)%result_bind_Ok.
  constructor; [exists a; split; [constructor|done]|]. eapply Forall_impl; [by apply IH|].
  intros b' (a' & Ha & Hf). exists a'. split; [by constructor|done].
Qed.

Lemma records_own scope X (e : RepositoryE X) x db db' :
  service_inv bucket_of db -> concerns scope e ->
  repository_step self bucket_of X e db x db' -> shows_own scope e x.
Proof.
  intros Hinv. destruct e; simpl; try done.
  - intros -> (_ & [->|(e & ->)]) record Hs; [|done].
    apply overview_Ok in Hs as (s & b & Hsv & Ho & Hp & _ & _ & Hid & Hr1 & Hr2).
    simpl. by rewrite Hid, (so_id _ _ _ (si_service _ _ Hinv _ _ Hsv)).
  - intros -> [_ [->|(e & ->)]] records; [|done]. unfold Store.list_credentials.
    case_match; [done|]. intros Hl%collect_Ok. eapply Forall_impl; [exact Hl|].
    intros c (row & Hin & Hc). unfold CredentialRow_try_into_record in Hc.
    apply result_bind_Ok in Hc as (perms & _ & [= <-]). simpl.
    rewrite order_by_perm, list_elem_of_In, filter_In in Hin. destruct Hin as [_ Hin].
    by apply N.eqb_eq in Hin.
  - intros -> (fault & env & Hs) record ->. unfold record_usage in Hs.
    case_match; [|done]. case_match. case_match. injection Hs as Hs _.
    apply result_bind_Ok in Hs as (b & _ & (qb & _ & Hs)%result_bind_Ok).
    by apply result_bind_Ok in Hs as (qo & _ & [= <-]).
Qed.

(** A replayed response is the one recorded for the same scope. *)
Definition recorded_for (scope : ServiceScope) (stored : StoredHttpResponse) (db : Db) : Prop :=
  exists key row, receipts db !! key = Some row /\ decode_receipt self row = Ok stored /\
    rcp_organization_id row = scope_organization_id scope /\
    rcp_project_id row = scope_project_id scope /\
    rcp_service_instance_id row = scope_service_instance_id scope.

Lemma replay_own scope c stored X (e : RepositoryE X) x db db' :
  prepare_event c (Ok (Replay stored)) (Event (StoreCall e) x) -> concerns scope e ->
  repository_step self bucket_of X e db x db' -> recorded_for scope stored db.
Proof.
  intros Hev Hsc Hs.
  assert (Hscope : operation_scope (command_operation c) = scope).
  { destruct e; simpl in Hev; try done; by destruct Hev as [-> _]. }
  eapply (prepare_event_call self bucket_of) in Hev as (fault & env & Hp); [|exact Hs].
  apply prepare_replays in Hp as (row & Hrow & Hst & Hans).
  exists (op_idempotency_key (command_operation c)), row. split; [done|].
  unfold receipt_answer in Hans. destruct (ReceiptRow_matches row _) eqn:Hm; [|done].
  destruct (in_progressb row); [done|]. apply result_bind_Ok in Hans as (resp & Hd & [= <-]).
  apply ReceiptRow_matches_spec in Hm as (Ho & Hp & Hsv & _). subst scope. by split_and!.
Qed.
End ownership.

(** ** Isolation *)

Section isolation.
Context `{AuthLib} `{PrincipalLib} `{ApiLib} `{SerdeJson} `{Aead} `{!UuidText}.
Context (self : PgStore) (bucket_of : bytes -> string) `{!HashBinds bucket_of}.
Context (scope : ServiceScope) (db db' : Db).

(** True of a database the run went through. *)
Definition held (P : Db -> Prop) : Prop :=
  exists db0, rtc (store_step self bucket_of) db db0 /\ rtc (store_step self bucket_of) db0 db' /\
    P db0.

(** The call names only what belongs to the scope, and learns only that. *)
Definition confined (past : list (event ApiE)) (ev : event ApiE) : Prop :=
  match ev with
  | Event e x =>
      match e in ApiE X return X -> Prop with
      | StoreCall e => fun x => concerns scope e /\ shows_own scope e x /\
          forall c stored, prepare_event c (Ok (Replay stored)) (Event (StoreCall e) x) ->
            held (recorded_for self scope stored)
      | GarageCall e => fun _ =>
          match e with
          | GarageHealth => False
          | ReconcileBucket (Some id) _ | BucketUsageOf id | DeleteBucket id =>
              held (fun d => owns_bucket d scope id)
          | CreateCredential id name _ =>
              held (fun d => owns_bucket d scope id) /\
              (exists credential, held (fun d => reserves_credential d scope credential) /\
                 name = key_name (scope_service_instance_id scope) credential) /\
              (forall service credential, name = key_name service credential ->
                 service = scope_service_instance_id scope)
          | ReconcileBucket None spec => held (fun d => holds_name d scope (spec_bucket_name spec))
          | RevokeCredential key =>
              held (fun d => owns_key d scope key) \/ Exists (issues_key key) past
          end
      | UtcNow | NowV7 => fun _ => True
      end x
  end.

(** What an earlier answer named was held when it was given. *)
Lemma answer_held state request tr1 ev tr2 r (P : event ApiE -> Prop) (O : Db -> Prop) :
  reachable self bucket_of db ->
  exec (store_step self bucket_of) (api_step self bucket_of) (handle state request) db
    (tr1 ++ ev :: tr2) r db' ->
  (forall t1 ev' t2, tr1 ++ ev :: tr2 = t1 ++ ev' :: t2 -> access scope t1 ev') ->
  (forall X (e : ApiE X) x, P (Event e x) -> exists e', e = StoreCall e') ->
  (forall X (e : RepositoryE X) x d d', reachable self bucket_of d ->
     P (Event (StoreCall e) x) -> concerns scope e ->
     repository_step self bucket_of X e d x d' -> O d \/ O d') ->
  Exists P tr1 -> held O.
Proof.
  intros Hreach Hx Hacc Hstore Hown (ev' & Hin & Hp)%Exists_exists.
  apply list_elem_of_split in Hin as (t1 & t2 & ->).
  rewrite <- app_assoc in Hx, Hacc. simpl in Hx, Hacc. destruct ev' as [X e x].
  destruct (Hstore _ _ _ Hp) as [e' ->].
  pose proof (Hacc _ _ _ eq_refl) as Hc. simpl in Hc.
  pose proof (always_elim _ [] _ _ _ _ _ _ (handle_calls bucket_of state request [])
                (exec_runs _ _ _ _ _ _ _ Hx) eq_refl) as Hok.
  destruct (handler_split self bucket_of _ _ _ _ _ _ _ _ _ _ Hx) as (d1 & d2 & Hs1 & Hs & Hs2).
  pose proof (api_step_store self bucket_of _ _ _ _ _ Hok Hs) as Hs3.
  assert (Hreach1 : reachable self bucket_of d1) by (unfold reachable in *; by etrans).
  destruct (Hown _ _ _ _ _ Hreach1 Hp Hc Hs); [exists d1|exists d2]; split_and!; try done; by etrans.
Qed.

Lemma confined_access state request tr1 ev tr2 r :
  reachable self bucket_of db ->
  exec (store_step self bucket_of) (api_step self bucket_of) (handle state request) db
    (tr1 ++ ev :: tr2) r db' ->
  (forall t1 ev' t2, tr1 ++ ev :: tr2 = t1 ++ ev' :: t2 -> access scope t1 ev') ->
  confined tr1 ev.
Proof.
  intros Hreach Hx Hacc. pose proof (Hacc _ _ _ eq_refl) as Hev.
  assert (Hbucket : forall id, Exists (answers_bucket id) tr1 -> held (fun d => owns_bucket d scope id)).
  { intros id. eapply answer_held; [done..| |].
    - intros X e x. destruct e; simpl; try done. by eexists.
    - intros. by eapply bucket_answered. }
  destruct ev as [X e x]. destruct e as [X e|X e| |]; simpl in Hev |- *; try done.
  - destruct (handler_split self bucket_of _ _ _ _ _ _ _ _ _ _ Hx) as (d1 & d2 & Hs1 & Hs & Hs2).
    pose proof (always_elim _ [] _ _ _ _ _ _ (handle_calls bucket_of state request [])
                  (exec_runs _ _ _ _ _ _ _ Hx) eq_refl) as Hok.
    pose proof (api_step_store self bucket_of _ _ _ _ _ Hok Hs) as Hs3.
    split; [done|]. split.
    + eapply records_own; [|done|exact Hs]. eapply reachable_service_inv. unfold reachable in *.
      by etrans.
    + intros c stored Hp. exists d1. split_and!; [done|by etrans|by eapply replay_own].
  - destruct e as [|[id|]| |id name permissions| |]; simpl in Hev; auto.
    2:{ destruct Hev as (Hid & credential & Hc & ->). split; [by apply Hbucket|].
        split; [|by intros service credential' Hn%key_name_service]. exists credential.
        split; [|done]. revert Hc. eapply answer_held; [done..| |].
        - intros X e x0. destruct e; simpl; try done. by eexists.
        - intros. right. by eapply credential_answered. }
    + revert Hev. eapply answer_held; [done..| |].
      * intros X e x0. destruct e; simpl; try done. by eexists.
      * intros. right. by eapply name_answered.
    + destruct Hev as [Hk|Hk]; [left|by right]. revert Hk. eapply answer_held; [done..| |].
      * intros X e x0. destruct e; simpl; try done. by eexists.
      * intros. left. by eapply key_answered.
Qed.
End isolation.

(** Tenants are kept apart.  Whatever a request does, either it reads the clock
    and probes health only, or there is one service instance, that of its verified
    token (which is also the path's) or of its signed principal context with the
    permission of the route, such that every call on the store, audit included,
    names this instance; the records and replayed responses it is shown are those
    of this instance; and every bucket and key it names to Garage is one the store
    held for this instance, a bucket name reserved for it, or a key Garage issued to
    this very request; and the name under which it asks for a key belongs to a
    credential reserved for this instance and is no other instance's. *)
Theorem tenants_isolated `{AuthLib} `{PrincipalLib} `{ApiLib} `{SerdeJson} `{Aead} `{!UuidText}
    self bucket_of `{!HashBinds bucket_of} state request db tr r db' :
  reachable self bucket_of db ->
  exec (store_step self bucket_of) (api_step self bucket_of) (handle state request) db tr r db' ->
  Forall probe tr \/
  exists scope, acts_for state request scope /\
    forall tr1 ev tr2, tr = tr1 ++ ev :: tr2 -> confined self bucket_of scope db db' tr1 ev.
Proof.
  intros Hreach Hx.
  destruct (handle_scoped _ _ _ _ (exec_runs _ _ _ _ _ _ _ Hx)) as [Hp|(scope & Ha & Hacc)];
    [by left|right].
  exists scope. split; [done|]. intros tr1 ev tr2 ->. by eapply confined_access.
Qed.

Lemma sample_uuid_text : @UuidText (claims_auth reconcile_claims).
Proof. constructor. exact pretty_hyphen_inj. Qed.

(** The creation of a bucket: Garage is asked for a name reserved for the service. *)
Lemma tenants_isolated_witness :
  exists scope, scope_service_instance_id scope = 3%N /\
    held (H3 := put_json) (H4 := sample_aead) sample_store sample_bucket_of empty_db first_put.2
      (fun d => holds_name d scope (spec_bucket_name (rr_spec sample_request))).
Proof.
  destruct (@tenants_isolated (claims_auth reconcile_claims) sample_principal_lib sample_url
    sample_api put_json sample_aead sample_uuid_text sample_store sample_bucket_of sample_hash_binds
    (sample_state reconcile_claims) put_request empty_db first_put.1.1 first_put.1.2 first_put.2)
    as [Hp|(scope & [Hpath _] & Hc)].
  - apply rtc_refl.
  - exact (drive_state_exec _ _ (sample_world false 1 0) put_handler empty_db
             (sample_world_step false 1 0)).
  - exfalso. vm_compute in Hp. do 2 (apply Forall_cons in Hp as [_ Hp]).
    apply Forall_cons in Hp as [Hp _]. exact Hp.
  - exists scope. split; [congruence|].
    exact (Hc (take 4 first_put.1.1)
      (Event (GarageCall (ReconcileBucket None (rr_spec sample_request)))
         (Ok {| rb_physical_bucket_id := "phys" |}))
      (drop 5 first_put.1.1) ltac:(vm_compute; reflexivity)).
Defined.
