(* ===== verification/Link.v ===== *)
(** * The service linked with the Garage adapter

    [main.rs] gives the router a [GarageAdapter], so that every call a handler
    makes on the trait [Garage] is a sequence of HTTP exchanges.  [respond] is a
    request handler with these calls replaced by the adapter's programs: its
    traces are the store calls and the HTTP exchanges of the running service, in
    their real order.  What the handlers and the adapter guarantee separately is
    composed here into statements about the HTTP requests the service sends. *)

From S2P Require Import Prelude Prog RustStr Domain Garage GarageAdapter Json Auth StoreModels PrincipalAuth ApiError Cipher Tables Receipts Store StoreStep Commands Routes RouteProps RouteErrors ApiSamples RouteTraces.

Section link.
Context `{UrlLib} `{!GarageLib}.

(** What the linked service does. *)
Inductive ServiceE : Type -> Type :=
| Stored {X : Type} (e : RepositoryE X) : ServiceE X
| Sent {X : Type} (e : HttpE X) : ServiceE X
| ClockNow : ServiceE DateTime
| FreshUuid : ServiceE Uuid.

Definition exchanges {X : Type} (p : prog HttpE X) : prog ServiceE X :=
  interp (fun _ e => call (Sent e)) p.

(** [AppState] with [garage: Arc::new(GarageAdapter::new(..))]. *)
Definition link (adapter : GarageAdapter) (X : Type) (e : ApiE X) : prog ServiceE X :=
  match e with
  | StoreCall e => call (Stored e)
  | GarageCall e => exchanges (Garage_for_GarageAdapter adapter _ e)
  | UtcNow => call ClockNow
  | NowV7 => call FreshUuid
  end.

Definition sent (ev : event HttpE) : event ServiceE :=
  match ev with Event e x => Event (Sent e) x end.

Definition unsent (ev : event ServiceE) : option (event HttpE) :=
  match ev with Event (Sent e) x => Some (Event e x) | _ => None end.

Lemma unsent_sent ev : unsent (sent ev) = Some ev.
Proof. by destruct ev. Qed.

Lemma runs_exchanges {X : Type} (p : prog HttpE X) tr x :
  runs (exchanges p) tr x <-> exists tr0, tr = sent <$> tr0 /\ runs p tr0 x.
Proof.
  unfold exchanges. rewrite runs_interp. split.
  - intros (tr0 & Hr & Hx). exists tr0. split; [|done]. clear Hr.
    induction Hx as [|Y e y t tr0 tr Ht Hx IH]; simpl; [done|].
    apply runs_call in Ht as ->. by rewrite IH.
  - intros (tr0 & -> & Hr). exists tr0. split; [done|]. clear Hr.
    induction tr0 as [|[Y e y] tr0 IH]; simpl; [constructor|].
    apply (expands_cons _ _ e y [Event (Sent e) y] tr0 (sent <$> tr0)); [|done].
    by apply runs_call.
Qed.

(** The method of the request an event sent, if it sent one. *)
Definition event_method (ev : event HttpE) : Method :=
  match ev with Event (Send _ rq) _ => rq_method rq end.

Definition posts (ev : event ServiceE) : bool :=
  match ev with
  | Event (Sent (Send _ rq)) _ => match rq_method rq with POST => true | GET => false end
  | _ => false
  end.

Lemma posts_sent ev : posts (sent ev) = match event_method ev with POST => true | GET => false end.
Proof. by destruct ev as [X [client rq] x]. Qed.

(** ** The calls of a trait method *)

(** A check or a JSON call that only reads sends a [GET]. *)
Lemma json_get_only {T : Type} self (f : bytes -> result JsonError T) op q b past :
  always (fun _ ev => event_method ev = GET) past
    (rq ←? pure (request (adapter_client self) GET op q b);
     execute_json (adapter_client self) f rq op).
Proof.
  unfold pure, execute_json. walk.
  destruct Hrun as [_ Hrq]. unfold request in Hrq. destruct (url_join _ _); simplify_eq/=. done.
Qed.

Lemma health_get_only self past :
  always (fun _ ev => event_method ev = GET) past (adapter_health self).
Proof. unfold adapter_health, health. apply always_try; [|done]. apply always_map_err, json_get_only. Qed.

Lemma usage_get_only self id past :
  always (fun _ ev => event_method ev = GET) past (bucket_usage self id).
Proof. unfold bucket_usage, get_bucket. apply always_try; [|done]. apply always_map_err, always_try; [done|].
  intros. apply json_get_only. Qed.

(** The calls on the trait that can change Garage. *)
Definition changes {X : Type} (e : GarageE X) : bool :=
  match e with GarageHealth | BucketUsageOf _ => false | _ => true end.

Lemma reads_get_only self {X : Type} (e : GarageE X) tr x :
  changes e = false -> runs (Garage_for_GarageAdapter self X e) tr x ->
  Forall (fun ev => event_method ev = GET) tr.
Proof.
  destruct e; try done; intros _; simpl.
  - apply (always_Forall _ []), health_get_only.
  - apply (always_Forall _ []), usage_get_only.
Qed.

(** ** Events of the linked service *)

(** The service event of a call that the adapter does not implement. *)
Definition direct (ev : event ApiE) : option (event ServiceE) :=
  match ev with
  | Event (StoreCall e) x => Some (Event (Stored e) x)
  | Event UtcNow x => Some (Event ClockNow x)
  | Event NowV7 x => Some (Event FreshUuid x)
  | Event (GarageCall _) _ => None
  end.

Lemma expands_direct adapter ev ev' tr :
  direct ev = Some ev' -> expands (link adapter) [ev] tr -> tr = [ev'].
Proof.
  destruct ev as [X e x]. intros Hd (t & tr' & -> & Hr & Hx)%expands_cons_inv.
  inversion Hx; subst. rewrite app_nil_r.
  destruct e; simplify_eq/=; destruct Hr as (y & t' & -> & -> & ->); done.
Qed.

Lemma expands_elem_direct adapter tr0 tr ev ev' :
  expands (link adapter) tr0 tr -> ev ∈ tr0 -> direct ev = Some ev' -> ev' ∈ tr.
Proof.
  intros Hx (t1 & t2 & ->)%list_elem_of_split Hd.
  apply expands_app in Hx as (u1 & u2 & -> & _ & Hx).
  change (ev :: t2) with ([ev] ++ t2) in Hx. apply expands_app in Hx as (u3 & u4 & -> & H3 & _).
  apply (expands_direct _ _ _ _ Hd) in H3 as ->. set_solver.
Qed.

(** ** Leases on the wire *)

Definition lease_granted (o : OperationRequest) (oid : Uuid) (past : list (event ServiceE)) : Prop :=
  exists c ev ev', command_operation c = o /\ prepare_event c (Ok (Execute oid tt)) ev /\
    direct ev = Some ev' /\ ev' ∈ past.

(** The last call on the store renewed the lease of an attempt it had granted;
    since then only HTTP exchanges took place. *)
Definition lease_held (past : list (event ServiceE)) : Prop :=
  exists past0 o oid exchanged,
    past = past0 ++ Event (Stored (RenewOperation o oid)) (Ok tt) :: (sent <$> exchanged) /\
    lease_granted o oid past0.

(** The last call was refused because the lease was lost, and the request deletes
    the key this service had issued before. *)
Definition taking_back (adapter : GarageAdapter) (past : list (event ServiceE)) (rq : Request)
  : Prop :=
  exists past0 command oid credential response audit current bucket name permissions issued
      before exchanged after,
    past = past0 ++ [Event (Stored (CompleteCreateCredential command oid credential response
                                      audit)) (Err (OperationLeaseLost current))] /\
    past0 = before ++ (sent <$> exchanged) ++ after /\
    credential_issued adapter bucket name permissions issued exchanged /\
    request_of (adapter_client adapter) POST "DeleteKey" [("id", ic_garage_key_id issued)] NoBody rq.

Lemma prepare_event_direct c p ev : prepare_event c p ev -> is_Some (direct ev).
Proof. destruct ev as [X e x]. destruct e; simpl; eauto. done. Qed.

Lemma under_lease_held adapter past u0 exchanged :
  under_lease past -> expands (link adapter) past u0 -> lease_held (u0 ++ (sent <$> exchanged)).
Proof.
  intros (o & oid & past0 & -> & Hg) Hx. apply expands_app in Hx as (t0 & t1 & -> & Hx0 & Hx1).
  eapply expands_direct in Hx1 as ->; [|reflexivity].
  exists t0, o, oid, exchanged. split; [by rewrite <- app_assoc|].
  apply Exists_exists in Hg as (ev & Hin & c & <- & Hp).
  destruct (prepare_event_direct _ _ _ Hp) as [ev' Hd].
  exists c, ev, ev'. split_and!; [done..|]. by eapply expands_elem_direct.
Qed.

Lemma expands_garage adapter {X : Type} (e : GarageE X) x tr0 tr :
  expands (link adapter) tr0 tr -> Event (GarageCall e) x ∈ tr0 ->
  exists before exchanged after, tr = before ++ (sent <$> exchanged) ++ after /\
    runs (Garage_for_GarageAdapter adapter X e) exchanged x.
Proof.
  intros Hx (t1 & t2 & ->)%list_elem_of_split.
  apply expands_app in Hx as (u1 & u2 & -> & _ & Hx).
  apply expands_cons_inv in Hx as (t & u3 & -> & Hr & _).
  apply runs_exchanges in Hr as (exchanged & -> & Hr). by exists u1, exchanged, u3.
Qed.

Lemma compensating_taking_back adapter id past u0 u1 client rq answer u2 r :
  compensating id past -> expands (link adapter) past u0 ->
  runs (GarageAdapter.revoke_credential adapter id) (u1 ++ Event (Send client rq) answer :: u2) r ->
  taking_back adapter (u0 ++ (sent <$> u1)) rq.
Proof.
  intros (past0 & command & oid & credential & response & audit & current & bucket & name & perms
          & issued & -> & Hin & ->) Hx Hr.
  unfold GarageAdapter.revoke_credential in Hr. apply runs_bind in Hr as (t1 & t2 & r' & Heq & Hr & -> & _).
  rewrite app_nil_r in Heq. subst t1. apply runs_delete_key in Hr.
  destruct (GarageAdapter.delete_request adapter _) as [rq'|] eqn:Hrq; [|by destruct u1, Hr].
  destruct Hr as (answer' & Heq & _). destruct u1 as [|? u1]; [|by destruct u1].
  assert (rq' = rq) as -> by exact (eq_sym (f_equal (fun l => match head l with
    | Some (Event (Send _ rq) _) => rq | None => rq' end) Heq)).
  apply expands_app in Hx as (t0 & t1 & -> & Hx0 & Hx1).
  eapply expands_direct in Hx1 as ->; [|reflexivity].
  destruct (expands_garage _ _ _ _ _ Hx0 Hin) as (before & exchanged & after & -> & Hc).
  apply create_credential_outcome in Hc. simpl fmap. rewrite app_nil_r.
  apply result_bind_Ok in Hrq as (? & _ & Hrq%request_Ok).
  eexists _, command, oid, credential, response, audit, current, bucket, name, perms, issued, before,
    exchanged, after. done.
Qed.
(** A store call of the service is a call of the handler. *)
Definition stored_call (ev : event ServiceE) : option (event ApiE) :=
  match ev with Event (Stored e) x => Some (Event (StoreCall e) x) | _ => None end.

Lemma respond_store adapter {X : Type} (e : RepositoryE X) answer tr0 tr tr1 tr2 :
  expands (link adapter) tr0 tr -> tr = tr1 ++ Event (Stored e) answer :: tr2 ->
  exists past rest, tr0 = past ++ Event (StoreCall e) answer :: rest /\
    expands (link adapter) past tr1.
Proof.
  intros Hx Htr. destruct (expands_split _ _ _ _ _ _ Hx Htr)
    as (past & Y & e' & x & rest & u0 & u1 & u2 & -> & Hpast & Hrun & ->).
  exists past, rest. destruct e' as [Y e'|Y e'| |]; simpl in Hrun.
  2: { apply runs_exchanges in Hrun as (t & Heq & _). symmetry in Heq.
       apply fmap_app_inv in Heq as (t1 & t2 & _ & Heq & _).
       destruct t2 as [|[Z f z] t2]; [done|].
       apply (f_equal (fun l => head l ≫= stored_call)) in Heq. done. }
  all: destruct Hrun as (y & t & Heq & -> & ->); destruct u1 as [|? []]; try done;
    apply (f_equal (fun l => head l ≫= stored_call)) in Heq; try done.
  apply (inj Some) in Heq. by rewrite app_nil_r, <- Heq.
Qed.

Lemma expands_unsent adapter tr0 tr :
  expands (link adapter) tr0 tr -> Forall no_garage tr0 -> Forall (fun ev => unsent ev = None) tr.
Proof.
  induction 1 as [|X e x t tr0 tr Hr Hx IH]; intros Hf; [done|].
  apply Forall_cons in Hf as [He Hf]. apply Forall_app. split; [|auto].
  destruct e; simpl in *; try done; destruct Hr as (y & t' & -> & -> & _); by constructor.
Qed.
End link.

Section respond.
Context `{UrlLib} `{!GarageLib} `{AuthLib} `{PrincipalLib} `{!ApiLib}.

(** One request, answered by the linked service. *)
Definition respond (adapter : GarageAdapter) (state : AppState) (request : ApiRequest)
  : prog ServiceE (result ApiError HttpResponse) :=
  interp (link adapter) (handle state request).

(** Where an HTTP exchange of the service comes from. *)
Lemma respond_exchange adapter state request tr r tr1 client rq answer tr2 :
  runs (respond adapter state request) tr r ->
  tr = tr1 ++ Event (Sent (Send client rq)) answer :: tr2 ->
  exists past X (e : GarageE X) x u0 u1 u2,
    garage_guard past (Event (GarageCall e) x) /\ expands (link adapter) past u0 /\
    runs (Garage_for_GarageAdapter adapter X e) (u1 ++ Event (Send client rq) answer :: u2) x /\
    tr1 = u0 ++ (sent <$> u1).
Proof.
  intros (tr0 & Hr & Hx)%runs_interp Htr.
  destruct (expands_split _ _ _ _ _ _ Hx Htr)
    as (past & X & e & x & rest & u0 & u1 & u2 & -> & Hpast & Hrun & ->).
  assert (Hg := always_elim _ [] _ _ _ _ _ _ (handle_guard state request []) Hr eq_refl).
  destruct e as [X e|X e| |]; simpl in Hrun.
  1, 3, 4: by destruct Hrun as (y & t & Heq & -> & _); destruct u1 as [|? []]; simplify_eq/=.
  apply runs_exchanges in Hrun as (t & Heq & Hrun).
  symmetry in Heq. apply fmap_app_inv in Heq as (t1 & t2 & -> & Ht2 & ->).
  destruct t2 as [|ev t2]; [done|]. apply (f_equal (fun l => head l ≫= unsent)) in Ht2.
  cbn [head fmap list_fmap mbind option_bind] in Ht2. rewrite unsent_sent in Ht2.
  injection Ht2 as <-. by exists past, X, e, x, u0, t1, t2.
Qed.
End respond.

(** ** Recorded credentials *)

(** The handler records no credential. *)
Definition records_none (ev : event ApiE) : Prop :=
  match ev with
  | Event (StoreCall (CompleteCreateCredential _ _ _ _ _)) _ => False
  | _ => True
  end.

Section records.
Context `{AuthLib} `{PrincipalLib} `{ApiLib}.

(** A credential is recorded for a granted attempt, as the key Garage issued for
    its bucket and permissions, and no call on Garage came after that. *)
Definition record_guard (past : list (event ApiE)) (ev : event ApiE) : Prop :=
  match ev with
  | Event (StoreCall (CompleteCreateCredential command oid credential _ _)) _ =>
      exists past0 context bucket name issued mid,
        past = past0 ++ Event (GarageCall (CreateCredential bucket name (cre_permissions command)))
                          (Ok issued) :: mid /\
        Forall no_garage mid /\
        Event (StoreCall (PrepareCreateCredential command)) (Ok (Execute oid context)) ∈ past0 /\
        br_physical_bucket_id (cc_bucket context) = Some bucket /\
        name = "syouyu-" +:+ uuid_to_string (op_service_instance_id (cre_operation command))
                 +:+ "-" +:+ uuid_to_string (cc_credential_id context) /\
        nc_id credential = cc_credential_id context /\
        nc_secret_key_fingerprint credential = sha256 (str_bytes (ic_secret_access_key issued)) /\
        nc_garage_key_id credential = ic_garage_key_id issued /\
        nc_permissions credential = cre_permissions command
  | _ => True
  end.

Lemma records_none_guard {A : Type} past (p : prog ApiE A) :
  always (fun _ ev => records_none ev) past p -> always record_guard past p.
Proof.
  revert past. induction p as [a|X e k IH]; intros past Hp; simpl in *; [done|].
  intros x. destruct (Hp x) as [Hn Hk]. split; [|auto]. destruct e as [? e|? e| |]; try done.
  by destruct e.
Qed.

Lemma always_clock_records {A : Type} past (p : prog ApiE A) :
  always (fun _ ev => clock_event ev) past p -> always (fun _ ev => records_none ev) past p.
Proof. apply always_impl. intros [X e x]. by destruct e. Qed.

Lemma request_id_records headers past :
  always (fun _ ev => records_none ev) past (request_id headers).
Proof. unfold request_id. walk; done. Qed.

Lemma backend_failure_records {A : Type} headers o oid error ctx ty id details past :
  always (fun _ ev => records_none ev) past
    (backend_failure (A := A) headers o oid error ctx ty id details).
Proof.
  unfold backend_failure, persist_backend_failure, ret. walk; [apply request_id_records|done].
Qed.

Lemma revoke_keys_records headers o oid service generation keys past :
  always (fun _ ev => records_none ev) past (revoke_keys headers o oid service generation keys).
Proof.
  revert past. induction keys as [|k keys IH]; intros past; cbn [revoke_keys]; [done|].
  unfold store, garage. walk; try done. apply backend_failure_records.
Qed.

(** Close the calls of a handler that record nothing. *)
Ltac unrecorded :=
  try done; try apply request_id_records; try apply backend_failure_records;
  try apply revoke_keys_records; try (apply always_store; done).

Lemma execute_create_records state headers principal command oid context past :
  Event (StoreCall (PrepareCreateCredential command)) (Ok (Execute oid context)) ∈ past ->
  scope_service_instance_id (principal_scope principal)
    = op_service_instance_id (cre_operation command) ->
  always record_guard past (execute_create state headers principal command oid context).
Proof.
  intros Hin Hs. unfold execute_create, complete_issued, garage, ret. cbv zeta. rewrite Hs.
  walk; try (by apply records_none_guard; unrecorded); try done.
  apply runs_call in Hrun1, Hrun2. destruct Hrun as [-> Hb], Hrun3 as [-> _].
  symmetry in Hb. apply ok_or_Ok in Hb. apply runs_store in Hrun0.
  apply (always_Forall _ [] _ _ _ (request_id_no_garage headers [])) in Hrun4. subst.
  eexists (past ++ [_]), context, a, _, _, ([_] ++ tr4). rewrite !app_nil_r, <- !app_assoc.
  split; [reflexivity|]. split_and!; try done; [|set_solver].
  by constructor.
Qed.

Lemma handle_records state request past : always record_guard past (handle state request).
Proof.
  destruct request; cbn [handle].
  3: { unfold Routes.create_credential, ret.
       walk; try (by apply records_none_guard; unrecorded).
       - apply records_none_guard, always_clock_records, clock_only_create.
       - subst. apply execute_create_records; [apply runs_store in Hrun0 as ->; set_solver|].
         apply runs_create_command in Hrun as (? & _ & (? & ? & ? & _ & _ & _ & _ & ->) & _).
         done. }
  all: apply records_none_guard.
  - unfold reconcile_service_instance, execute_reconcile, reconciled_bucket_id, garage, ret.
    walk; unrecorded. apply always_clock_records, clock_only_reconcile.
  - unfold delete_service_instance, execute_delete, empty_and_delete_bucket, persist_failure, garage,
      ret. walk; unrecorded. apply always_clock_records, clock_only_delete.
  - unfold Routes.revoke_credential, execute_revoke, revoke_in_garage, garage, ret.
    walk; unrecorded. apply always_clock_records, clock_only_revoke.
  - unfold Routes.service_overview, record_read_audit, ret. walk; unrecorded.
  - unfold service_usage, record_read_audit, garage, ret. walk; unrecorded.
  - unfold Routes.list_credentials, record_read_audit, ret. walk; unrecorded.
  - unfold ready, garage, ret. walk; unrecorded.
  - done.
  - done.
  - done.
Qed.
End records.

(** C8. On the wire: the running service, handlers and adapter together, sends a
    request that can change Garage (a [POST]) only while it holds a lease: the last
    store call before it successfully renewed the lease of an attempt the store had
    granted to this very request, and only HTTP exchanges came in between.  The one
    exception is the deletion of a key that this request had issued, with its
    restricted permissions, before it learned that the lease was lost. *)
Theorem posts_under_lease `{UrlLib} `{!GarageLib} `{AuthLib} `{PrincipalLib} `{!ApiLib} adapter state
    request tr r tr1 client rq answer tr2 :
  runs (respond adapter state request) tr r ->
  tr = tr1 ++ Event (Sent (Send client rq)) answer :: tr2 -> rq_method rq = POST ->
  lease_held tr1 \/ taking_back adapter tr1 rq.
Proof.
  intros Hr Htr Hpost.
  destruct (respond_exchange _ _ _ _ _ _ _ _ _ _ Hr Htr)
    as (past & X & e & x & u0 & u1 & u2 & Hg & Hx & Hrun & ->).
  destruct (changes e) eqn:Hc.
  - destruct e; simpl in Hg; try done; [left; by eapply under_lease_held..| |].
    + destruct Hg as [Hg|Hg]; [left; by eapply under_lease_held|right].
      by eapply compensating_taking_back.
    + left. by eapply under_lease_held.
  - apply (reads_get_only _ _ _ _ Hc), Forall_app in Hrun as [_ [Hget _]%Forall_cons].
    simpl in Hget. congruence.
Qed.

(** C9. What the database calls a credential is what Garage granted: whenever the
    running service records a credential, the store had granted the attempt with a
    context, and the service had, in one uninterrupted sequence of exchanges, issued
    on the bucket of that context a key named after the instance and the reserved
    credential, having had the keys of that name deleted, all permissions of the new
    key withdrawn and exactly the command's read and write bits granted; the recorded identifier, key and secret fingerprint are those of that key,
    and no request went to Garage in between. *)
Theorem recorded_credential_issued `{UrlLib} `{!GarageLib} `{AuthLib} `{PrincipalLib} `{!ApiLib}
    adapter state request tr r tr1 command oid credential response audit answer tr2 :
  runs (respond adapter state request) tr r ->
  tr = tr1 ++ Event (Stored (CompleteCreateCredential command oid credential response audit))
                answer :: tr2 ->
  exists context bucket name issued before exchanged after,
    tr1 = before ++ (sent <$> exchanged) ++ after /\
    Event (Stored (PrepareCreateCredential command)) (Ok (Execute oid context)) ∈ before /\
    br_physical_bucket_id (cc_bucket context) = Some bucket /\
    name = "syouyu-" +:+ uuid_to_string (op_service_instance_id (cre_operation command))
             +:+ "-" +:+ uuid_to_string (cc_credential_id context) /\
    credential_issued adapter bucket name (cre_permissions command) issued exchanged /\
    Forall (fun ev => unsent ev = None) after /\
    nc_id credential = cc_credential_id context /\
    nc_garage_key_id credential = ic_garage_key_id issued /\
    nc_secret_key_fingerprint credential = sha256 (str_bytes (ic_secret_access_key issued)) /\
    nc_permissions credential = cre_permissions command.
Proof.
  intros (tr0 & Hr & Hx)%runs_interp Htr.
  destruct (respond_store _ _ _ _ _ _ _ Hx Htr) as (past & rest & -> & Hpast).
  assert (Hg := always_elim _ [] _ _ _ _ _ _ (handle_records state request []) Hr eq_refl).
  simpl in Hg. destruct Hg as (past0 & context & bucket & name & issued & mid & -> & Hmid & Hin & Hg).
  apply expands_app in Hpast as (before & u & -> & Hx0 & Hx1).
  apply expands_cons_inv in Hx1 as (t & after & -> & Ht & Hafter).
  apply runs_exchanges in Ht as (exchanged & -> & Ht%create_credential_outcome).
  destruct Hg as (Hb & Hn & Hid & Hf & Hk & Hp).
  exists context, bucket, name, issued, before, exchanged, after. split_and!; try done.
  - by eapply expands_elem_direct.
  - by eapply expands_unsent.
Qed.

(** ** A concrete linked service *)

Section sample_link.
#[local] Existing Instance sample_url.
#[local] Existing Instance sample_garage.
#[local] Existing Instance sample_principal_lib.
#[local] Existing Instance sample_api.
#[local] Instance sample_claims_auth : AuthLib := claims_auth reconcile_claims.

Definition service_world (X : Type) (e : ServiceE X) : X :=
  match e with
  | Stored e => granting_repository _ e
  | Sent e => sample_server _ e
  | ClockNow => (1003 * second)%Z
  | FreshUuid => 900%N
  end.

Definition post_headers : HeaderMap :=
  [(PRINCIPAL_HEADER, "ctx"); (PRINCIPAL_TIMESTAMP_HEADER, "1000");
   (PRINCIPAL_SIGNATURE_HEADER, "1000.ctx"); ("idempotency-key", "42"); ("x-request-id", "q")].
Definition post_request : ApiRequest :=
  PostCredential post_headers
    (Ok {| ccr_name := "n"; ccr_permissions := {| perm_read := true; perm_write := false |} |}).

Definition post_run : list (event ServiceE) * result ApiError HttpResponse :=
  drive service_world (respond sample_client (sample_state reconcile_claims) post_request).

(** The run posts [CreateKey], [DenyBucketKey] and [AllowBucketKey]. *)
Example post_run_posts : is_ok post_run.2 = true /\ length post_run.1 = 9 /\
  posts <$> post_run.1 = [false; false; false; false; true; true; true; false; false].
Proof. vm_compute. split_and!; reflexivity. Qed.

Lemma posts_under_lease_witness :
  exists rq, lease_held (take 5 post_run.1) \/ taking_back sample_client (take 5 post_run.1) rq.
Proof.
  eexists. eapply (@posts_under_lease _ _ _ _ _ sample_client (sample_state reconcile_claims)
    post_request post_run.1 post_run.2 (take 5 post_run.1) _ _ _ (drop 6 post_run.1)).
  - exact (drive_runs service_world _).
  - vm_compute. reflexivity.
  - reflexivity.
Defined.

Lemma recorded_credential_issued_witness :
  exists bucket name issued exchanged,
    credential_issued sample_client bucket name {| perm_read := true; perm_write := false |}
      issued exchanged.
Proof.
  edestruct (@recorded_credential_issued _ _ _ _ _ sample_client (sample_state reconcile_claims)
    post_request post_run.1 post_run.2 (take 8 post_run.1))
    as (context & bucket & name & issued & before & exchanged & after & _ & _ & _ & _ & Hi & _).
  - exact (drive_runs service_world _).
  - vm_compute. reflexivity.
  - exists bucket, name, issued, exchanged. exact Hi.
Defined.
End sample_link.
