(* ===== verification/Wire.v ===== *)
(** * The running service on the database and on the wire

    [Link] puts the handlers on top of the Garage adapter; here the linked service
    also runs on the database, interleaved with everything else that happens to it.
    Such a run is a run of the handlers with every call on the trait [Garage]
    replaced by the adapter's exchanges ([exec_link]), so that what the handlers
    guarantee about the database and what the adapter sends combine: which buckets
    and keys the HTTP requests of a tenant's request can name. *)

From stdpp Require Import relations.
From S2P Require Import Prelude Prog RustStr Domain Garage GarageAdapter Json Auth StoreModels PrincipalAuth ApiError Cipher Tables Receipts ReceiptLemmas Store StoreEffects StoreStep Samples ReceiptProtocol Commands ServiceInv Routes RouteProps RouteErrors ApiSamples RouteTraces RouteReplay Access Link.

(** ** What the adapter's requests name *)

Section addresses.
Context `{GarageLib}.
Context (self : GarageAdapter).

Definition sends (m : Method) (operation : string) (query : list (string * string)) (body : Body)
    (rq : Request) : Prop :=
  request_of (adapter_client self) m operation query body rq.

(** Garage described the bucket when asked for it by identifier or by name, or
    when it created it. *)
Definition told_by_id (id : string) : Bucket -> event HttpE -> Prop :=
  GarageAdapter.answered self bucket_from_slice GET "GetBucketInfo" [("id", id)] NoBody.
Definition told_by_name (name : string) : Bucket -> event HttpE -> Prop :=
  GarageAdapter.answered self bucket_from_slice GET "GetBucketInfo" [("globalAlias", name)] NoBody.
Definition told_created (name : string) : Bucket -> event HttpE -> Prop :=
  GarageAdapter.answered self bucket_from_slice POST "CreateBucket" [] (CreateBucketRequest name).

(** The key is listed under [name], or was created under it. *)
Definition key_of_name (name key : string) (past : list (event HttpE)) : Prop :=
  Exists (fun ev => exists keys info, listed_keys self keys ev /\ info ∈ keys /\
                      aks_name info = name /\ aks_id info = key) past \/
  Exists (fun ev => exists k, created_key self name k ev /\ ak_access_key_id k = key) past.

(** What a request sent for the call [e] names: the bucket, name or key of the call,
    or what Garage told under that bucket or name earlier in the same call. *)
Definition addressed {X : Type} (e : GarageE X) (past : list (event HttpE)) (ev : event HttpE)
  : Prop :=
  match ev with
  | Event (Send _ rq) _ =>
      match e with
      | GarageHealth => sends GET "GetClusterHealth" [] NoBody rq
      | ReconcileBucket (Some id) spec =>
          sends GET "GetBucketInfo" [("id", id)] NoBody rq \/
          exists b, Exists (told_by_id id b) past /\
            spec_bucket_name spec ∈ bucket_global_aliases b /\
            sends POST "UpdateBucket" [("id", bucket_id b)]
              (UpdateBucketRequest (BucketQuotas_limited (spec_quota_bytes spec)
                                      (spec_quota_objects spec))) rq
      | ReconcileBucket None spec =>
          let name := spec_bucket_name spec in
          sends GET "GetBucketInfo" [("globalAlias", name)] NoBody rq \/
          sends POST "CreateBucket" [] (CreateBucketRequest name) rq \/
          exists b,
            Exists (fun ev => told_by_name name b ev \/ told_created name b ev) past /\
            sends POST "UpdateBucket" [("id", bucket_id b)]
              (UpdateBucketRequest (BucketQuotas_limited (spec_quota_bytes spec)
                                      (spec_quota_objects spec))) rq
      | BucketUsageOf id => sends GET "GetBucketInfo" [("id", id)] NoBody rq
      | DeleteBucket id => sends POST "DeleteBucket" [("id", id)] NoBody rq
      | RevokeCredential key => sends POST "DeleteKey" [("id", key)] NoBody rq
      | CreateCredential id name permissions =>
          sends GET "ListKeys" [] NoBody rq \/
          sends POST "CreateKey" []
            (CreateKeyBody {| ckr_name := name; ckr_expiration := None; ckr_never_expires := true |})
            rq \/
          exists key, key_of_name name key past /\
            (sends POST "DeleteKey" [("id", key)] NoBody rq \/
             exists operation bits,
               sends POST operation [] (BucketKeyPermissionChangeRequest id key bits) rq)
      end
  end.

(** One exchange of the client. *)
Lemma json_exchange {T : Type} Q past (f : bytes -> result JsonError T) m op q b :
  (forall rq x, sends m op q b rq ->
     Q past (Event (Send (gac_client (adapter_client self)) rq) x)) ->
  always Q past (rq ←? pure (request (adapter_client self) m op q b);
                 execute_json (adapter_client self) f rq op).
Proof.
  intros Hq. unfold pure, execute_json. walk. destruct Hrun as [-> Hrq].
  rewrite app_nil_r. by apply Hq, request_Ok.
Qed.

Lemma empty_exchange Q past m op q b :
  (forall rq x, sends m op q b rq ->
     Q past (Event (Send (gac_client (adapter_client self)) rq) x)) ->
  always Q past (rq ←? pure (request (adapter_client self) m op q b);
                 execute_empty (adapter_client self) rq op).
Proof.
  intros Hq. unfold pure, execute_empty. walk. destruct Hrun as [-> Hrq].
  rewrite app_nil_r. by apply Hq, request_Ok.
Qed.

(** A check before it. *)
Lemma checked_exchange {A B : Type} Q past (c : result GarageError A)
    (k : A -> prog HttpE (result GarageError B)) :
  (forall a, c = Ok a -> always Q past (k a)) -> always Q past (a ←? pure c; k a).
Proof.
  intros Hk. apply always_try; [done|]. intros tr a [-> Ha]. rewrite app_nil_r. by apply Hk.
Qed.

Lemma delete_key_exchange Q past key :
  (forall rq x, sends POST "DeleteKey" [("id", key)] NoBody rq ->
     Q past (Event (Send (gac_client (adapter_client self)) rq) x)) ->
  always Q past (delete_key (adapter_client self) key).
Proof. intros Hq. apply checked_exchange. intros _ _. by apply empty_exchange. Qed.

Lemma change_permissions_exchange Q past op id key bits :
  (forall rq x, sends POST op [] (BucketKeyPermissionChangeRequest id key bits) rq ->
     Q past (Event (Send (gac_client (adapter_client self)) rq) x)) ->
  always Q past (change_bucket_key_permissions (adapter_client self) op id key bits).
Proof. intros Hq. do 2 (apply checked_exchange; intros _ _). by apply json_exchange. Qed.

Lemma update_quotas_exchange Q past id quotas :
  (forall rq x, sends POST "UpdateBucket" [("id", id)] (UpdateBucketRequest quotas) rq ->
     Q past (Event (Send (gac_client (adapter_client self)) rq) x)) ->
  always Q past (update_bucket_quotas (adapter_client self) id quotas).
Proof. intros Hq. do 2 (apply checked_exchange; intros _ _). by apply json_exchange. Qed.

(** What a successful call on a bucket heard. *)
Lemma runs_told {T : Type} (f : bytes -> result JsonError T) m op q b tr v
    (check : result GarageError unit) :
  runs (_ ←? pure check; rq ←? pure (request (adapter_client self) m op q b);
        execute_json (adapter_client self) f rq op) tr (Ok v) ->
  exists ev, tr = [ev] /\ GarageAdapter.answered self f m op q b v ev.
Proof.
  intros [(e & _ & _ & [=])|([] & _ & Hr)]%runs_pure.
  eapply runs_json_call, runs_map_err. by exists (Ok v).
Qed.

Lemma Exists_last {A : Type} (P : A -> Prop) past x : P x -> Exists P (past ++ [x]).
Proof. intros Hx. apply Exists_app. right. by constructor. Qed.

Lemma reconcile_addressed existing spec past :
  always (addressed (ReconcileBucket existing spec)) past (reconcile_bucket self existing spec).
Proof.
  unfold reconcile_bucket, find_or_create_bucket. destruct existing as [id|].
  - apply always_try.
    + apply always_try; [|done]. apply always_map_err, checked_exchange. intros _ _.
      apply json_exchange. intros rq x Hs. by left.
    + intros tr b [(e & _ & [=])|(tr1 & tr2 & b' & -> & Hr & -> & Hb)]%runs_try.
      apply runs_map_err in Hr as ([b''|] & Hr & [= <-]). apply runs_told in Hr as (ev & -> & Ht).
      destruct (existsb _ _) eqn:Hx; [|done]. simpl in Hb. injection Hb as <-.
      apply existsb_exists in Hx as (name & Hin%list_elem_of_In & ->%String.eqb_eq).
      apply always_try; [|done]. apply always_map_err, update_quotas_exchange.
      intros rq x Hs. right. exists b. split; [|by split; [exact Hin|exact Hs]].
      rewrite app_nil_r. by apply Exists_last.
  - apply always_try.
    + apply always_bind.
      * apply checked_exchange. intros _ _. apply json_exchange. intros rq x Hs. by left.
      * intros tr [b|e] _; [done|]. destruct (GarageError_is_not_found e); [|done].
        apply always_map_err, checked_exchange. intros _ _. apply json_exchange.
        intros rq x Hs. by right; left.
    + intros tr b (tr1 & tr2 & r & -> & Hf & Hr)%runs_bind.
      assert (Hq : Exists (fun ev => told_by_name (spec_bucket_name spec) b ev \/
                     told_created (spec_bucket_name spec) b ev) (past ++ tr1 ++ tr2)).
      { destruct r as [b'|e].
        - destruct Hr as [-> [= <-]]. apply runs_told in Hf as (ev & -> & Ht). simpl.
          apply Exists_last. by left.
        - destruct (GarageError_is_not_found e); [|by destruct Hr].
          apply runs_map_err in Hr as ([b'|] & Hr & [= <-]). apply runs_told in Hr as (ev & -> & Ht).
          rewrite app_assoc. apply Exists_last. by right. }
      apply always_try; [|done]. apply always_map_err, update_quotas_exchange.
      intros rq x Hs. right. right. exists b. split; [exact Hq|exact Hs].
Qed.

Lemma key_of_name_app name key past tr :
  key_of_name name key past -> key_of_name name key (past ++ tr).
Proof. intros [Hk|Hk]; [left|right]; apply Exists_app; by left. Qed.

Lemma delete_keys_addressed id name permissions keys past :
  Forall (fun key => key_of_name name key past) keys ->
  always (addressed (CreateCredential id name permissions)) past (delete_keys self keys).
Proof.
  revert past. induction keys as [|key keys IH]; intros past Hk; cbn [delete_keys]; [done|].
  apply Forall_cons in Hk as [Hk Hks]. apply always_try.
  - apply always_bind; [|done]. apply delete_key_exchange. intros rq x Hs. right. right.
    exists key. split; [exact Hk|by left].
  - intros tr [] _. apply IH. eapply Forall_impl; [exact Hks|]. intros k. apply key_of_name_app.
Qed.

Lemma discard_addressed {A : Type} id name permissions key (error : GarageBackendError) past :
  key_of_name name key past ->
  always (addressed (CreateCredential id name permissions)) past
    (discard_key (A := A) self key error).
Proof.
  intros Hk. apply always_bind; [|done]. apply delete_key_exchange. intros rq x Hs.
  right. right. exists key. split; [exact Hk|by left].
Qed.

Lemma grant_addressed id name permissions key bits past :
  key_of_name name key past ->
  always (addressed (CreateCredential id name permissions)) past
    (set_bucket_key_permissions (adapter_client self) id key bits).
Proof.
  assert (Hc : forall op bits past, key_of_name name key past ->
    always (addressed (CreateCredential id name permissions)) past
      (change_bucket_key_permissions (adapter_client self) op id key bits)).
  { intros op b p Hk. apply change_permissions_exchange. intros rq x Hs. right. right.
    exists key. split; [exact Hk|by right; exists op, b]. }
  intros Hk. apply always_try; [by apply Hc|]. intros tr b _.
  destruct (BucketKeyPermissions_is_empty bits); [done|]. by apply Hc, key_of_name_app.
Qed.

Lemma create_addressed id name permissions past :
  always (addressed (CreateCredential id name permissions)) past
    (GarageAdapter.create_credential self id name permissions).
Proof.
  unfold GarageAdapter.create_credential. apply always_try.
  { apply always_map_err, json_exchange. intros rq x Hs. by left. }
  intros tr1 keys Hkeys. apply always_try.
  { apply delete_keys_addressed, Forall_forall. intros key Hkey.
    apply runs_json_call in Hkeys as (ev & -> & Hl). left. apply Exists_last.
    rewrite named_key_ids_filter in Hkey. apply list_elem_of_fmap in Hkey as (info & -> & Hi).
    apply list_elem_of_filter in Hi as [Hn Hi]. by exists keys, info. }
  intros tr2 [] _. apply always_try.
  { apply always_map_err, checked_exchange. intros _ _. apply json_exchange.
    intros rq x Hs. by right; left. }
  intros tr3 key Hkey. cbv zeta. apply runs_create_key in Hkey as (ev & -> & Hc).
  assert (Hk : key_of_name name (ak_access_key_id key) (((past ++ tr1) ++ tr2) ++ [ev])).
  { right. apply Exists_last. by exists key. }
  destruct (ak_secret_access_key key) as [secret|]; [|by apply discard_addressed].
  apply always_bind; [by apply grant_addressed|].
  intros tr [b|error] _; [done|]. by apply discard_addressed, key_of_name_app.
Qed.

Lemma adapter_addressed {X : Type} (e : GarageE X) past :
  always (addressed e) past (Garage_for_GarageAdapter self X e).
Proof.
  destruct e; cbn [Garage_for_GarageAdapter].
  - apply always_try; [|done]. apply always_map_err, json_exchange. by intros.
  - apply reconcile_addressed.
  - apply always_try; [|done]. apply always_map_err, checked_exchange. intros _ _.
    apply json_exchange. by intros.
  - apply create_addressed.
  - apply always_bind; [|done]. apply delete_key_exchange. by intros.
  - apply always_bind; [|done]. apply checked_exchange. intros _ _. apply empty_exchange. by intros.
Qed.
End addresses.

(** ** The linked service on the database *)

Section service.
Context `{UrlLib} `{!GarageLib} `{SerdeJson} `{Aead}.
Context (self : PgStore) (bucket_of : bytes -> string).

Definition service_step (X : Type) (e : ServiceE X) : Db -> X -> Db -> Prop :=
  match e with
  | Stored e => repository_step self bucket_of _ e
  | Sent _ | ClockNow | FreshUuid => fun db _ db' => db' = db
  end.

Abbreviation step := (store_step self bucket_of).

(** Exchanges leave the database alone; others may change it meanwhile. *)
Lemma exec_exchanges {X : Type} (p : prog HttpE X) db tr x db' :
  exec step service_step (exchanges p) db tr x db' ->
  rtc step db db' /\ runs (exchanges p) tr x.
Proof.
  intros Hx. split; [|by eapply exec_runs]. revert db tr Hx.
  induction p as [a|Y e k IH]; intros db tr; simpl; [by intros (_ & _ & ->)|].
  intros (db1 & y & db2 & tr' & _ & Hs & -> & Hk). etrans; [exact Hs|]. by eapply IH.
Qed.

(** A run of the linked service is a run of the handlers, expanded. *)
Lemma exec_link {A : Type} adapter (p : prog ApiE A) db tr a db' :
  exec step service_step (interp (link adapter) p) db tr a db' ->
  exists tr0, exec step (api_step self bucket_of) p db tr0 a db' /\ expands (link adapter) tr0 tr.
Proof.
  revert db tr. induction p as [b|X e k IH]; intros db tr; cbn [interp].
  - intros (-> & -> & ->). exists []. split; [done|constructor].
  - intros (t1 & t2 & x & db1 & -> & Hx & (tr0 & Hk & Hexp)%IH)%exec_bind.
    exists (Event e x :: tr0). split; [|constructor; [by eapply exec_runs|done]].
    destruct e as [X e|X e| |]; simpl in Hx |- *.
    2: { apply exec_exchanges in Hx as [Hs _]. by exists db1, x, db1, tr0. }
    all: destruct Hx as (d1 & y & d2 & t & _ & Hs & Hcall & _ & -> & ->);
      by exists d1, y, d2, tr0.
Qed.
End service.

(** Where an event of the linked service comes from. *)
Lemma expands_event `{UrlLib} `{!GarageLib} adapter tr0 tr tr1 ev tr2 :
  expands (link adapter) tr0 tr -> tr = tr1 ++ ev :: tr2 ->
  (exists past ev0 rest, tr0 = past ++ ev0 :: rest /\ direct ev0 = Some ev) \/
  (exists past X (g : GarageE X) x rest before exchanged ev' after,
     tr0 = past ++ Event (GarageCall g) x :: rest /\ ev = sent ev' /\
     tr1 = before ++ (sent <$> exchanged) /\ expands (link adapter) past before /\
     runs (Garage_for_GarageAdapter adapter X g) (exchanged ++ ev' :: after) x).
Proof.
  intros Hx Htr. destruct (expands_split _ _ _ _ _ _ Hx Htr)
    as (past & X & e & x & rest & u0 & u1 & u2 & -> & Hpast & Hrun & ->).
  destruct e as [X e|X e| |]; simpl in Hrun.
  2: { right. apply runs_exchanges in Hrun as (t & Heq & Hrun).
       symmetry in Heq. apply fmap_app_inv in Heq as (t1 & t2 & -> & Ht2 & ->).
       destruct t2 as [|ev' t2]; [done|].
       assert (Hev : ev = sent ev') by exact (inj Some _ _ (f_equal head Ht2)). subst ev.
       by exists past, X, e, x, rest, u0, t1, ev', t2. }
  all: left; eexists past, _, rest; split; [reflexivity|];
    destruct Hrun as (y & t & Heq & -> & ->); destruct u1 as [|? []]; [|done..];
    by apply (f_equal head) in Heq.
Qed.

(** ** Isolation of the running service *)

Section isolation.
Context `{UrlLib} `{!GarageLib} `{AuthLib} `{PrincipalLib} `{!ApiLib} `{SerdeJson} `{Aead}.
Context (adapter : GarageAdapter) (self : PgStore) (bucket_of : bytes -> string).

(** Clock, identifiers, and the two health checks. *)
Definition idle (ev : event ServiceE) : Prop :=
  match ev with
  | Event (Stored StoreHealth) _ | Event ClockNow _ | Event FreshUuid _ => True
  | Event (Sent (Send _ rq)) _ => sends adapter GET "GetClusterHealth" [] NoBody rq
  | _ => False
  end.

(** A store call is confined to the scope; an HTTP request is sent for a call of the
    handler that is confined to the scope, and names what that call names. *)
Definition service_confined (scope : ServiceScope) (db db' : Db) (past : list (event ServiceE))
    (ev : event ServiceE) : Prop :=
  match ev with
  | Event e x =>
      match e in ServiceE X return X -> Prop with
      | Stored e => fun x => confined self bucket_of scope db db' [] (Event (StoreCall e) x)
      | Sent e => fun x => exists Y (g : GarageE Y) y calls before exchanged,
          past = before ++ (sent <$> exchanged) /\ expands (link adapter) calls before /\
          confined self bucket_of scope db db' calls (Event (GarageCall g) y) /\
          addressed adapter g exchanged (Event e x)
      | ClockNow | FreshUuid => fun _ => True
      end x
  end.

Lemma probe_idle tr0 tr : expands (link adapter) tr0 tr -> Forall probe tr0 -> Forall idle tr.
Proof.
  intros Hx Hp. apply Forall_forall. intros ev (tr1 & tr2 & Htr)%list_elem_of_split.
  destruct (expands_event _ _ _ _ _ _ Hx Htr)
    as [(past & [X e x] & rest & -> & Hd)|(past & X & g & x & rest & before & exchanged & ev' & after
          & -> & -> & _ & _ & Hrun)]; apply Forall_app in Hp as [_ [Hp _]%Forall_cons].
  - destruct e as [X e|X e| |]; simplify_eq/=; [by destruct e|done..].
  - destruct g; try done. destruct ev' as [Z f z]. destruct f.
    exact (always_elim _ [] _ _ _ _ _ _ (adapter_addressed adapter GarageHealth []) Hrun eq_refl).
Qed.

Lemma confined_service scope db db' tr0 tr tr1 ev tr2 :
  expands (link adapter) tr0 tr -> tr = tr1 ++ ev :: tr2 ->
  (forall t1 ev0 t2, tr0 = t1 ++ ev0 :: t2 -> confined self bucket_of scope db db' t1 ev0) ->
  service_confined scope db db' tr1 ev.
Proof.
  intros Hx Htr Hc. destruct (expands_event _ _ _ _ _ _ Hx Htr)
    as [(past & [X e x] & rest & -> & Hd)|(past & X & g & x & rest & before & exchanged & ev' & after
          & -> & -> & -> & Hbefore & Hrun)]; pose proof (Hc _ _ _ eq_refl) as Hev.
  - destruct e as [X e|X e| |]; simplify_eq/=; done.
  - destruct ev' as [Z f z]. exists X, g, x, past, before, exchanged. split_and!; [done..|].
    exact (always_elim _ [] _ _ _ _ _ _ (adapter_addressed adapter g []) Hrun eq_refl).
Qed.
End isolation.

(** C7. Tenants are kept apart, down to the database and the wire.  Whatever the
    running service does for a request, interleaved with anything else: either it
    only reads the clock and probes health, or there is one service instance, that
    of the verified token (which is also the path's) or of the signed principal
    context that carries the permission of the route, such that every store call,
    audit included, names this instance and shows records and recorded responses of
    this instance only; and every HTTP request to Garage belongs to a call on a
    bucket or key the store held for this instance, a bucket name reserved for it, a
    key name made of this instance and a credential reserved for it (which is the key
    name of no other instance's credential), or a key Garage issued to this very
    request, and names only that bucket, name or key or what Garage itself reported
    under it during the call. *)
Theorem service_isolated `{UrlLib} `{!GarageLib} `{AuthLib} `{PrincipalLib} `{!ApiLib} `{SerdeJson}
    `{Aead} `{!UuidText} adapter self bucket_of `{!HashBinds bucket_of} state request db tr r db' :
  reachable self bucket_of db ->
  exec (store_step self bucket_of) (service_step self bucket_of) (respond adapter state request)
    db tr r db' ->
  Forall (idle adapter) tr \/
  exists scope, acts_for state request scope /\
    forall tr1 ev tr2, tr = tr1 ++ ev :: tr2 ->
      service_confined adapter self bucket_of scope db db' tr1 ev.
Proof.
  intros Hreach (tr0 & Hx & Hexp)%exec_link.
  destruct (tenants_isolated self bucket_of _ _ _ _ _ _ Hreach Hx) as [Hp|(scope & Ha & Hc)].
  - left. by eapply probe_idle.
  - right. exists scope. split; [done|]. intros tr1 ev tr2 Htr.
    by eapply confined_service.
Qed.

(** ** A concrete run *)

Section sample_wire.
#[local] Existing Instance sample_url.
#[local] Existing Instance sample_garage.
#[local] Existing Instance sample_principal_lib.
#[local] Existing Instance sample_api.
#[local] Existing Instance put_json.
#[local] Existing Instance sample_aead.
#[local] Instance put_claims_auth : AuthLib := claims_auth reconcile_claims.

Definition wire_world (X : Type) (e : ServiceE X) : Db -> X * Db :=
  match e with
  | Stored e => no_fault_repository 1 0 _ e
  | Sent e => fun db => (sample_server _ e, db)
  | ClockNow => fun db => ((1003 * second)%Z, db)
  | FreshUuid => fun db => (900%N, db)
  end.

Lemma wire_world_step X (e : ServiceE X) db :
  service_step sample_store sample_bucket_of X e db (wire_world X e db).1 (wire_world X e db).2.
Proof.
  destruct e as [X e|X e| |]; [|done..].
  exact (sample_world_step false 1 0 X (StoreCall e) db).
Qed.

Definition wire_put : list (event ServiceE) * result ApiError HttpResponse * Db :=
  drive_state wire_world (respond sample_client (sample_state reconcile_claims) put_request) empty_db.

(** The first request of a creation asks for the bucket by the reserved name. *)
Lemma service_isolated_witness :
  exists scope Y (g : GarageE Y) y calls, scope_service_instance_id scope = 3%N /\
    confined sample_store sample_bucket_of scope empty_db wire_put.2 calls (Event (GarageCall g) y).
Proof.
  destruct (@service_isolated sample_url sample_garage put_claims_auth sample_principal_lib sample_api
    put_json sample_aead sample_uuid_text sample_client sample_store sample_bucket_of sample_hash_binds
    (sample_state reconcile_claims) put_request empty_db wire_put.1.1 wire_put.1.2 wire_put.2)
    as [Hi|(scope & [Hpath _] & Hc)].
  - apply rtc_refl.
  - exact (drive_state_exec _ _ wire_world _ empty_db wire_world_step).
  - exfalso. vm_compute in Hi. do 2 (apply Forall_cons in Hi as [_ Hi]).
    apply Forall_cons in Hi as [Hi _]. exact Hi.
  - destruct (Hc (take 4 wire_put.1.1)
      (Event (Sent (Send (gac_client (adapter_client sample_client))
                      {| rq_method := GET;
                         rq_url := ("http://garage/v2/GetBucketInfo" : @Url sample_url);
                         rq_query := [("globalAlias", spec_bucket_name sample_bucket_spec)];
                         rq_body := NoBody |}))
         (Ok {| rs_status := 200; rs_chunks := []; rs_end := None |}))
      (drop 5 wire_put.1.1) ltac:(vm_compute; reflexivity))
      as (Y & g & y & calls & before & exchanged & _ & _ & Hg & _).
    exists scope, Y, g, y, calls. split; [congruence|exact Hg].
Defined.
End sample_wire.
