(* ===== verification/OpenApi.v ===== *)
(** * The OpenAPI document ([crates/syouyu-api/src/routes.rs])

    The operations the [#[utoipa::path(..)]] attributes describe, the document
    [ApiDoc] collects and the security schemes [SecurityAddon] adds, compared with
    the routes and with what the handlers answer. *)

From S2P Require Import Prelude Prog RustStr Domain Garage GarageAdapter Json Auth StoreModels PrincipalAuth ApiError StoreStep Routes RouteProps ApiSamples Router Link.

Record Operation : Type := {
  doc_method : Router.Method;
  doc_path : string;
  doc_params : list string;
  doc_request_body : option string;
  doc_responses : list (Z * string);
  doc_security : list string;
}.

Definition principal_security : list string :=
  ["syouyu_principal"; "syouyu_timestamp"; "syouyu_signature"].

Definition errors (statuses : list Z) : list (Z * string) :=
  map (fun status => (status, "ErrorEnvelope")) statuses.

Definition service_overview_doc : Operation := {|
  doc_method := Router.GET; doc_path := "/v1/service-overview"; doc_params := [];
  doc_request_body := None;
  doc_responses := (200%Z, "ServiceOverviewResponse") :: errors [401; 403; 404]%Z;
  doc_security := principal_security |}.

Definition service_usage_doc : Operation := {|
  doc_method := Router.GET; doc_path := "/v1/usage"; doc_params := []; doc_request_body := None;
  doc_responses := (200%Z, "UsageResponse") :: errors [401; 403; 502]%Z;
  doc_security := principal_security |}.

Definition create_credential_doc : Operation := {|
  doc_method := Router.POST; doc_path := "/v1/credentials"; doc_params := ["Idempotency-Key"];
  doc_request_body := Some "CreateCredentialRequest";
  doc_responses := (201%Z, "IssuedCredentialResponse") :: errors [400; 401; 403; 409; 502; 503]%Z;
  doc_security := principal_security |}.

Definition list_credentials_doc : Operation := {|
  doc_method := Router.GET; doc_path := "/v1/credentials"; doc_params := [];
  doc_request_body := None;
  doc_responses := (200%Z, "CredentialListResponse") :: errors [401; 403; 404]%Z;
  doc_security := principal_security |}.

Definition revoke_credential_doc : Operation := {|
  doc_method := Router.DELETE; doc_path := "/v1/credentials/{credential_id}";
  doc_params := ["credential_id"; "Idempotency-Key"]; doc_request_body := None;
  doc_responses := (200%Z, "RevokedCredentialResponse") :: errors [401; 403; 404; 409; 502; 503]%Z;
  doc_security := principal_security |}.

Record OpenApi : Type := {
  openapi_paths : list Operation;
  openapi_schemas : list string;
  (** Scheme and header of an API key. *)
  openapi_security_schemes : list (string * string);
}.

(** [SecurityAddon::modify]. *)
Definition SecurityAddon_modify (openapi : OpenApi) : OpenApi := {|
  openapi_paths := openapi_paths openapi;
  openapi_schemas := openapi_schemas openapi;
  openapi_security_schemes := openapi_security_schemes openapi ++
    [("syouyu_principal", PRINCIPAL_HEADER); ("syouyu_timestamp", PRINCIPAL_TIMESTAMP_HEADER);
     ("syouyu_signature", PRINCIPAL_SIGNATURE_HEADER)] |}.

(** [ApiDoc::openapi()]. *)
Definition ApiDoc : OpenApi := SecurityAddon_modify {|
  openapi_paths := [service_overview_doc; service_usage_doc; create_credential_doc;
                    list_credentials_doc; revoke_credential_doc];
  openapi_schemas := ["ServiceOverviewResponse"; "UsageResponse"; "CreateCredentialRequest";
                      "CredentialResponse"; "IssuedCredentialResponse"; "CredentialListResponse";
                      "RevokedCredentialResponse"; "ErrorEnvelope"; "BucketPermissions";
                      "BucketQuota"; "BucketUsage"; "BucketPhase"];
  openapi_security_schemes := [] |}.

Definition doc_statuses (op : Operation) : list Z := map fst (doc_responses op).

(** [openapi_exposes_only_public_principal_routes]. *)
Definition openapi_exposes_only_public_principal_routes : bool :=
  let paths := remove_dups (map doc_path (openapi_paths ApiDoc)) in
  Nat.eqb (length paths) 4
  && existsb (String.eqb "/v1/service-overview") paths
  && existsb (String.eqb "/v1/credentials/{credential_id}") paths
  && negb (existsb (fun path => starts_with path "/internal") paths)
  && existsb (fun p => String.eqb p.1 "syouyu_principal" && String.eqb p.2 "x-syouyu-principal")
       (openapi_security_schemes ApiDoc).

Example openapi_test_passes : openapi_exposes_only_public_principal_routes = true.
Proof. vm_compute. reflexivity. Qed.

(** ** The document and the routes *)

(** The methods and patterns below [/v1]. *)
Definition public_routes : list (Router.Method * string) :=
  flat_map (fun route =>
      if starts_with (route_path route) "/v1/"
      then map (fun me => (me.1, route_path route)) (route_methods route)
      else [])
    (router_routes router).

(** The document describes exactly the public routes: every documented operation is
    routed, and every route below [/v1] is documented. *)
Lemma openapi_describes_routes :
  Forall (fun op => (doc_method op, doc_path op) ∈ public_routes) (openapi_paths ApiDoc) /\
  Forall (fun r => Exists (fun op => (doc_method op, doc_path op) = r) (openapi_paths ApiDoc))
    public_routes.
Proof.
  split; vm_compute; repeat first [apply Forall_nil_2 | apply Forall_cons_2].
  all: try (repeat (first [apply list_elem_of_here | apply list_elem_of_further])).
  all: repeat (first [apply Exists_cons_hd; reflexivity | apply Exists_cons_tl]).
Qed.

(** Every documented operation names all the schemes the document defines. *)
Lemma openapi_security_complete :
  Forall (fun op => doc_security op = map fst (openapi_security_schemes ApiDoc)) (openapi_paths ApiDoc).
Proof. repeat constructor. Qed.

(** ** Answers the document does not mention *)

Section undocumented.
Context `{AuthLib} `{PrincipalLib} `{ApiLib}.

(** Authorization succeeds at the time the clock shows. *)
Lemma runs_authorized state headers permission t principal :
  authenticate (principal_auth state) (unix_seconds t) headers = Ok principal ->
  permission ∈ principal_permissions principal ->
  runs (authorize state headers permission) [Event UtcNow t] (Ok principal).
Proof.
  intros Ha Hp. exists t, []. split; [done|]. split; [done|]. rewrite Ha. simpl.
  unfold Principal_require. by rewrite bool_decide_eq_true_2.
Qed.

(** [GET /v1/usage] for an instance the store does not know answers 404. *)
Lemma usage_of_unknown_instance state headers t principal :
  authenticate (principal_auth state) (unix_seconds t) headers = Ok principal ->
  USAGE_READ_PERMISSION ∈ principal_permissions principal ->
  (exists tr, runs (service_usage state headers) tr (Err not_found)) /\
  api_status not_found ∉ doc_statuses service_usage_doc.
Proof.
  intros Ha Hp. split; [|by apply (bool_decide_unpack _); vm_compute].
  eexists. unfold service_usage. apply runs_try. right. eexists _, _, principal.
  split; [reflexivity|]. split; [by eapply runs_authorized|]. cbv zeta.
  apply runs_try. left. exists not_found. split; [|done].
  apply runs_map_err. exists (Err NotFound). split; [by apply runs_call|done].
Qed.

(** [DELETE /v1/credentials/{credential_id}] with a malformed identifier answers 400. *)
Lemma revocation_of_malformed_id state headers message :
  (exists tr, runs (Routes.revoke_credential state (Err message) headers) tr
                (Err (bad_request message))) /\
  api_status (bad_request message) ∉ doc_statuses revoke_credential_doc.
Proof.
  split; [|by apply (bool_decide_unpack _); vm_compute].
  exists []. unfold Routes.revoke_credential. apply runs_try. left. eexists. split; [|done].
  unfold revoke_credential_command. apply runs_ret_try. left. by eexists.
Qed.
End undocumented.
