(* ===== verification/UnitTests.v ===== *)
(** * The unit tests of the repository, run on the model

    The [#[test]] functions whose subject is modelled, each a boolean that is true
    when none of its assertions fails, and evaluated.  The random identifiers and the
    current time of the tests are fixed values here; libraries are stand-ins that
    know the texts the tests use. *)

From stdpp Require Import pretty.
From S2P Require Import Prelude Prog RustStr Domain Garage GarageAdapter Json Auth StoreModels PrincipalAuth ApiError Cipher Routes Config.

(** All assertions of a test. *)
Definition asserts (l : list bool) : bool := forallb id l.

(** ** [syouyu-domain/src/lib.rs] *)

Module DomainTests.

Definition valid_spec : SyouyuSpec := {|
  spec_region := "heteronet-global";
  spec_bucket_name := "project-assets-019f";
  spec_quota_bytes := 10 * 1024 * 1024 * 1024;
  spec_quota_objects := 1000000 |}.

Definition with_name (name : string) : SyouyuSpec := {|
  spec_region := spec_region valid_spec;
  spec_bucket_name := name;
  spec_quota_bytes := spec_quota_bytes valid_spec;
  spec_quota_objects := spec_quota_objects valid_spec |}.

Definition with_quota_bytes (bytes : Z) : SyouyuSpec := {|
  spec_region := spec_region valid_spec;
  spec_bucket_name := spec_bucket_name valid_spec;
  spec_quota_bytes := bytes;
  spec_quota_objects := spec_quota_objects valid_spec |}.

Definition validates_single_bucket_service_spec : bool :=
  let spec := valid_spec in
  asserts [is_ok (SyouyuSpec_validate spec);
           String.eqb (bucket_spec_name (SyouyuSpec_bucket_spec spec)) (spec_bucket_name spec);
           bool_decide (bucket_spec_quota (SyouyuSpec_bucket_spec spec) = SyouyuSpec_quota spec)].

Definition rejects_invalid_s3_bucket_names : bool :=
  forallb (fun name => is_err (SyouyuSpec_validate (with_name name)))
    ["ab"; "Uppercase"; "192.168.1.1"; "two..dots"; "xn--reserved"; "bucket--x-s3"; "bucket-an";
     "trailing-"].

Definition rejects_zero_and_non_garage_quotas : bool :=
  asserts [match SyouyuSpec_validate (with_quota_bytes 0) with
           | Err (OutOfRange field _ _ _) => String.eqb field "quota_bytes"
           | _ => false
           end;
           is_err (SyouyuSpec_validate (with_quota_bytes (i64_max + 1)))].

(** The serialized form is not modelled: the type has no field for a bucket. *)
Definition credential_is_parent_scoped_and_requires_permissions : bool :=
  let permissions := {| perm_read := true; perm_write := false |} in
  let spec := {| cred_spec_name := "flash-workspace"; cred_spec_permissions := permissions |} in
  let invalid := {| cred_spec_name := cred_spec_name spec;
                    cred_spec_permissions := {| perm_read := false; perm_write := false |} |} in
  asserts [is_ok (CredentialSpec_validate spec);
           BucketPermissions_allows permissions OpRead;
           negb (BucketPermissions_allows permissions OpDelete);
           is_err (CredentialSpec_validate invalid)].

(** The two URLs the tests parse. *)
Definition known_url : UrlLib := {|
  Url := string * string * option string;
  url_parse s :=
    if String.eqb s "https://s3.syouyu.heterocloud.example"
    then Some ("https", "", Some "s3.syouyu.heterocloud.example") else None;
  url_scheme u := u.1.1; url_host_str u := u.2; url_username u := u.1.2;
  url_password _ := None; url_query _ := None; url_fragment _ := None |}.

Definition validates_scope_and_status_invariants : bool :=
  let scope := {| scope_organization_id := 1; scope_project_id := 2;
                  scope_service_instance_id := 3 |} in
  let status endpoint := {|
    status_observed_generation := 2; status_phase := Ready;
    status_backend_bucket_id := Some "garage-bucket-id";
    status_endpoint := endpoint;
    status_usage := BucketUsage_default; status_message := None; status_updated_at := 0 |} in
  asserts [is_ok (ServiceScope_validate scope);
           is_ok (@BucketStatus_validate known_url
                    (status (Some "https://s3.syouyu.heterocloud.example")));
           match @BucketStatus_validate known_url (status None) with
           | Err (InvalidState _) => true
           | _ => false
           end].

Definition reports_usage_over_either_quota_dimension : bool :=
  let quota := {| quota_bytes := 1000; quota_objects := 10 |} in
  let usage bytes objects := {| usage_bytes := bytes; usage_objects := objects;
                                usage_unfinished_upload_bytes := 0;
                                usage_unfinished_uploads := 0 |} in
  asserts [BucketUsage_exceeds (usage 1001%Z 0%Z) quota; BucketUsage_exceeds (usage 0%Z 11%Z) quota].

Example domain_tests_pass :
  asserts [validates_single_bucket_service_spec; rejects_invalid_s3_bucket_names;
           rejects_zero_and_non_garage_quotas;
           credential_is_parent_scoped_and_requires_permissions;
           validates_scope_and_status_invariants; reports_usage_over_either_quota_dimension] = true.
Proof. vm_compute. reflexivity. Qed.
End DomainTests.

(** ** [syouyu-auth/src/lib.rs] *)

Module AuthTests.

#[local] Instance ProviderClaims_eq_dec : EqDecision ProviderClaims.
Proof. solve_decision. Defined.

Definition now : Z := 1788480000.

Definition PUBLIC_KEY : string := "-----BEGIN PUBLIC KEY-----".

(** The stand-in for [jsonwebtoken]: a token is the name of a key and a number of the
    claims in [tokens]; it decodes with the public key, for the issuer and audience
    asked for, within its window. *)
Section provider.
Context (tokens : string -> option (option string * ProviderClaims)).

#[local] Instance token_auth : AuthLib := {|
  HeaderMap := list (string * string);
  HeaderValue := string;
  headers_get h name := snd <$> List.find (fun kv => String.eqb kv.1 name) h;
  value_to_str := Some;
  uuid_to_string u := "u" +:+ pretty u;
  DecodingKey := bytes;
  from_ed_pem := Some;
  public_keys_from_str s := Some {["heterocloud-provider-1" := s]};
  decode_header t := (fun p => {| alg := EdDSA; kid := p.1 |}) <$> tokens t;
  jwt_decode t token key v :=
    p ← tokens token;
    let c := p.2 in
    if bool_decide (key = str_bytes PUBLIC_KEY) && bool_decide (pc_issuer c ∈ val_issuers v)
       && bool_decide (pc_audience c ∈ val_audiences v)
       && (t - val_leeway v <=? pc_expires_at c)%Z && (pc_not_before c <=? t + val_leeway v)%Z
    then Some c else None |}.

Definition authenticator : result AuthError ProviderAuthenticator :=
  from_public_keys_json "heterocloud" "heterocloud-syouyu" PUBLIC_KEY.

Definition authenticate_with (headers : list (string * string)) (action : string)
    (scope : ServiceScope) : result AuthError ProviderClaims :=
  self ← authenticator; authenticate_command self now now headers action scope.

Definition verify_with (action token : string) : result AuthError ProviderClaims :=
  self ← authenticator; verify_token_for_action self now now token action.
End provider.

(** [scope()] draws three identifiers. *)
Definition scope (n : N) : ServiceScope := {|
  scope_organization_id := n; scope_project_id := (n + 1)%N;
  scope_service_instance_id := (n + 2)%N |}.

Definition claims (scope : ServiceScope) (action : string) : ProviderClaims := {|
  pc_issuer := "heterocloud"; pc_audience := "heterocloud-syouyu"; pc_subject := 90;
  pc_organization_id := scope_organization_id scope; pc_project_id := scope_project_id scope;
  pc_service_instance_id := scope_service_instance_id scope;
  pc_action := action; pc_generation := 1; pc_jwt_id := 91;
  pc_issued_at := now; pc_not_before := now - PROVIDER_NOT_BEFORE_OFFSET_SECONDS;
  pc_expires_at := now + 60 |}.

(** [token(claims, kid)] is the text ["t"]. *)
Definition token (claims : ProviderClaims) (kid : option string) (text : string)
  : option (option string * ProviderClaims) :=
  if String.eqb text "t" then Some (kid, claims) else None.

Definition signed_token (claims : ProviderClaims) := token claims (Some "heterocloud-provider-1").

Definition headers (idempotency_key : string) : list (string * string) :=
  [("authorization", "Bearer t"); ("idempotency-key", idempotency_key)].

Definition refused (r : result AuthError ProviderClaims) (e : AuthError) : bool :=
  match r with Err e' => bool_decide (e' = e) | Ok _ => false end.

Definition authenticates_exact_action_scope_and_idempotency_binding : bool :=
  let expected_scope := scope 1 in
  let claims := claims expected_scope PROVIDER_RECONCILE_ACTION in
  match authenticate_with (signed_token claims) (headers "u91") PROVIDER_RECONCILE_ACTION
          expected_scope with
  | Ok verified => bool_decide (verified = claims)
  | Err _ => false
  end.

Definition rejects_scope_confusion : bool :=
  let claims := claims (scope 1) PROVIDER_RECONCILE_ACTION in
  refused (authenticate_with (signed_token claims) (headers "u91") PROVIDER_RECONCILE_ACTION (scope 11))
    ScopeMismatch.

Definition rejects_mismatched_or_noncanonical_idempotency_key : bool :=
  let expected_scope := scope 1 in
  let claims := claims expected_scope PROVIDER_RECONCILE_ACTION in
  asserts [refused (authenticate_with (signed_token claims) (headers "u92") PROVIDER_RECONCILE_ACTION
                      expected_scope) IdempotencyKeyMismatch;
           refused (authenticate_with (signed_token claims) (headers "U91") PROVIDER_RECONCILE_ACTION
                      expected_scope) IdempotencyKeyMismatch].

Definition rejects_missing_kid_and_wrong_action : bool :=
  let claims := claims (scope 1) PROVIDER_DELETE_ACTION in
  asserts [refused (verify_with (token claims None) PROVIDER_DELETE_ACTION "t") MissingKeyId;
           refused (verify_with (signed_token claims) PROVIDER_RECONCILE_ACTION "t")
             InvalidProviderCommand].

Definition rejects_tokens_longer_than_sixty_seconds : bool :=
  let c := claims (scope 1) PROVIDER_RECONCILE_ACTION in
  let long := {|
    pc_issuer := pc_issuer c; pc_audience := pc_audience c; pc_subject := pc_subject c;
    pc_organization_id := pc_organization_id c; pc_project_id := pc_project_id c;
    pc_service_instance_id := pc_service_instance_id c; pc_action := pc_action c;
    pc_generation := pc_generation c; pc_jwt_id := pc_jwt_id c; pc_issued_at := pc_issued_at c;
    pc_not_before := pc_not_before c; pc_expires_at := pc_issued_at c + 61 |} in
  refused (verify_with (signed_token long) PROVIDER_RECONCILE_ACTION "t") TokenLifetimeExceeded.

Example auth_tests_pass :
  asserts [authenticates_exact_action_scope_and_idempotency_binding; rejects_scope_confusion;
           rejects_mismatched_or_noncanonical_idempotency_key;
           rejects_missing_kid_and_wrong_action; rejects_tokens_longer_than_sixty_seconds] = true.
Proof. vm_compute. reflexivity. Qed.
End AuthTests.

(** ** [syouyu-api/src/principal_auth.rs] *)

Module PrincipalTests.

Definition SECRET : bytes := str_bytes "syouyu-principal-test-secret-at-least-32-bytes".
Definition now : Z := 1788480000.

Definition signed : SignedPrincipal := {|
  sp_issuer := "heterocloud"; sp_audience := "heterocloud-syouyu-data";
  sp_scope := {| scope_organization_id := 1; scope_project_id := 2;
                 scope_service_instance_id := 3 |};
  sp_principal_id := 4; sp_permissions := {["syouyu.credential.read"]};
  sp_credential_limits := {| max_credentials_per_bucket := 10; max_total_credentials := 100 |};
  sp_issued_at := now; sp_expires_at := now + 120; sp_context_id := 5 |}.

(** Base64 as the identity, the context as the text ["ctx"], and a MAC that is the
    key followed by the message. *)
Definition mac_lib : PrincipalLib := {|
  url_safe_no_pad_decode s := Some (str_bytes s);
  HmacSha256 := bytes;
  hmac_new_from_slice := Some;
  hmac_verify_slice key message signature := bool_decide (signature = key ++ message);
  signed_principal_from_slice b := if bool_decide (b = str_bytes "ctx") then Some signed else None;
  timestamp_opt t := Some (t * second)%Z |}.

Definition verifies_signed_service_scoped_context : bool :=
  let encoded := "ctx" in
  let timestamp := pretty now in
  let signature := String.string_of_list_byte
    (SECRET ++ str_bytes timestamp ++ str_bytes "." ++ str_bytes encoded) in
  let headers := [(PRINCIPAL_HEADER, encoded); (PRINCIPAL_TIMESTAMP_HEADER, timestamp);
                  (PRINCIPAL_SIGNATURE_HEADER, signature)] in
  let accepted := self ← PrincipalAuthenticator_new "heterocloud" "heterocloud-syouyu-data" SECRET
                           (Duration_from_mins 5);
                  @authenticate (AuthTests.token_auth (fun _ => None)) mac_lib self now headers in
  match accepted with
  | Ok principal =>
      asserts [bool_decide (principal_scope principal = sp_scope signed);
               is_ok (Principal_require principal "syouyu.credential.read");
               is_err (Principal_require principal "syouyu.credential.create")]
  | Err _ => false
  end.

Example principal_tests_pass : verifies_signed_service_scoped_context = true.
Proof. vm_compute. reflexivity. Qed.
End PrincipalTests.

(** ** [syouyu-store/src/cipher.rs] and [models.rs] *)

Module StoreTests.

(** A cipher that complements every byte and appends the associated data. *)
Definition complement (b : Byte.byte) : Byte.byte := byte_of_N (255 - Byte.to_N b).
Definition complement_aead : Aead := {|
  Aes256Gcm := bytes;
  new_from_slice := Some;
  aead_encrypt _ _ msg aad := Some (map complement msg ++ aad);
  aead_decrypt _ _ msg aad :=
    let n := length msg - length aad in
    if bool_decide (drop n msg = aad) then Some (map complement (take n msg)) else None |}.

(** [windows(w.len()).any(|value| value == w)]. *)
Definition has_window (w l : bytes) : bool := bytes_contain w l.

Definition receipt_encryption_is_bound_to_operation : bool :=
  let sealed := cipher ← @ReceiptCipher_new complement_aead (replicate 32 (byte_of_N 7));
                nc ← ReceiptCipher_encrypt cipher (Some (replicate 12 (byte_of_N 1))) 1 2
                       (str_bytes "secret");
                Ok (cipher, nc) in
  match sealed with
  | Ok (cipher, (nonce, ciphertext)) =>
      asserts [bool_decide (ReceiptCipher_decrypt cipher 1 2 nonce ciphertext
                            = Ok (str_bytes "secret"));
               is_err (ReceiptCipher_decrypt cipher 1 3 nonce ciphertext);
               negb (has_window (str_bytes "secret") ciphertext)]
  | Err _ => false
  end.

(** With the identity for SHA-256. *)
Definition operation_hash_binds_action_and_body : bool :=
  let body := Some (str_bytes "{value:1}") in
  let hash action := request_hash id action body in
  asserts [bool_decide (hash "credential.create" = hash "credential.create");
           negb (bool_decide (hash "credential.create" = hash "credential.revoke"))].

Example store_tests_pass :
  asserts [receipt_encryption_is_bound_to_operation; operation_hash_binds_action_and_body] = true.
Proof. vm_compute. reflexivity. Qed.
End StoreTests.

(** ** [syouyu-garage/src/lib.rs] and [syouyu-api/src/garage.rs] *)

Module GarageTests.

(** URLs by their path; the client keeps its authorization header; the decoders know
    the documents of the tests by name. *)
Definition path_url : UrlLib := {|
  Url := string; url_parse := Some; url_scheme _ := "http"; url_host_str _ := Some "127.0.0.1";
  url_username _ := ""; url_password _ := None; url_query _ := None; url_fragment _ := None |}.
#[local] Existing Instance path_url.

Definition text (b : bytes) : string := String.string_of_list_byte b.

(** [BUCKET_JSON]; the two files have different identifiers and quotas. *)
Definition bucket (id : string) (max_size max_objects : Z) : Bucket := {|
  bucket_id := id; bucket_created := 1788480000 * second; bucket_global_aliases := ["tenant-bucket"];
  bucket_website_access := false; bucket_keys := []; bucket_objects := 0; bucket_bytes := 0;
  bucket_unfinished_uploads := 0; bucket_unfinished_multipart_uploads := 0;
  bucket_unfinished_multipart_upload_parts := 0; bucket_unfinished_multipart_upload_bytes := 0;
  bucket_quotas := BucketQuotas_limited max_size max_objects |}.

Definition key (access_key_id secret : string) : AccessKey := {|
  ak_access_key_id := access_key_id; ak_name := "deterministic"; ak_expired := false;
  ak_created := None; ak_expiration := None; ak_permissions := {| gkp_create_bucket := false |};
  ak_buckets := []; ak_secret_access_key := Some secret |}.

Definition decode {T : Type} (documents : list (string * T)) (b : bytes) : result string T :=
  ok_or "invalid JSON" (snd <$> List.find (fun kv => String.eqb kv.1 (text b)) documents).

#[local] Instance document_garage : GarageLib :=
  @Build_GarageLib path_url (fun u => u) (fun _ p => p) (fun u p => Ok (u +:+ p))
    (fun _ => true) string (fun e => e) string (fun authorization _ => Ok authorization)
    string (fun e => e) (fun s => if (s =? 404)%Z then Some "Not Found" else None)
    (fun _ => Err "no such document") (fun _ => Err "no such document")
    (decode [("BUCKET_JSON", bucket "0123456789abcdef" 10737418240 1000000);
             ("ADAPTER_BUCKET_JSON", bucket "bucket-id" 1024 100)])
    (decode [("[]", []);
             ("[key-one]", [{| aks_id := "key-one"; aks_name := "deterministic";
                               aks_expired := false; aks_created := None;
                               aks_expiration := None |}])])
    (decode [("first_key", key "key-one" "first-secret");
             ("second_key", key "key-two" "second-secret")])
    (decode [("NoSuchBucket", {| err_code := Some "NoSuchBucket";
                                 err_message := Some "bucket does not exist" |});
             ("missing", {| err_code := None; err_message := Some "missing" |})]).

(** [mock_server]: the responses in order, then no connection. *)
Definition mock_server (X : Type) (e : HttpE X) : list Response -> X * list Response :=
  match e with
  | Send _ _ => fun responses =>
      match responses with
      | response :: rest => (Ok response, rest)
      | [] => (Err "connection refused", [])
      end
  end.

Definition response (status : Z) (body : string) : Response :=
  {| rs_status := status; rs_chunks := [str_bytes body]; rs_end := None |}.
Definition ok (body : string) : Response := response 200 body.
Definition empty (status : Z) : Response := {| rs_status := status; rs_chunks := []; rs_end := None |}.

Definition ask {A : Type} (responses : list Response) (p : prog HttpE A) : list (event HttpE) * A :=
  (drive_state mock_server p responses).1.

(** The target of the request line. *)
Definition target (rq : Request) : string :=
  rq_url rq +:+ match rq_query rq with
                | (k, v) :: _ => "?" +:+ k +:+ "=" +:+ v
                | [] => ""
                end.

Definition receive_paths (tr : list (event HttpE)) : list string :=
  map (fun ev => match ev with Event (Send _ rq) _ => target rq end) tr.

Definition quota_shape_requires_both_dimensions : bool :=
  asserts [is_ok (BucketQuotas_validate (BucketQuotas_limited 1 1));
           is_ok (BucketQuotas_validate BucketQuotas_unlimited);
           is_err (BucketQuotas_validate {| max_size := Some 1%Z; max_objects := None |})].

(** The authorization header, the target and the body of a request. *)
Definition received (ev : event HttpE) : string * string * Body :=
  match ev with Event (Send client rq) _ => (client, target rq, rq_body rq) end.

Definition uses_v2_paths_bearer_auth_and_typed_quota_body : bool :=
  match GarageAdminClient_new ("/admin/" : Url) "admin-secret" with
  | Ok client =>
      let (tr, r) := ask [ok "BUCKET_JSON"; ok "BUCKET_JSON"]
        (_ ←? create_bucket client "tenant-bucket";
         update_bucket_quotas client "0123456789abcdef" (BucketQuotas_limited 2048 100)) in
      match r, map received tr with
      | Ok _, [(auth, path, CreateBucketRequest alias); (_, update, UpdateBucketRequest quotas)] =>
          asserts [String.eqb path "/admin/v2/CreateBucket";
                   String.eqb auth "Bearer admin-secret"; String.eqb alias "tenant-bucket";
                   String.eqb update "/admin/v2/UpdateBucket?id=0123456789abcdef";
                   bool_decide (max_size quotas = Some 2048%Z);
                   bool_decide (max_objects quotas = Some 100%Z)]
      | _, _ => false
      end
  | Err _ => false
  end.

Definition permission_replacement_revokes_before_allowing : bool :=
  match GarageAdminClient_new ("/" : Url) "admin-secret" with
  | Ok client =>
      let (tr, r) := ask [ok "BUCKET_JSON"; ok "BUCKET_JSON"]
        (set_bucket_key_permissions client "bucket-id" "key-id"
           {| bkp_read := true; bkp_write := false; bkp_owner := false |}) in
      match r, map received tr with
      | Ok _, [(_, deny, BucketKeyPermissionChangeRequest _ _ denied);
               (_, allow, BucketKeyPermissionChangeRequest _ _ allowed)] =>
          asserts [String.eqb deny "/v2/DenyBucketKey"; String.eqb allow "/v2/AllowBucketKey";
                   bool_decide (denied = {| bkp_read := true; bkp_write := true; bkp_owner := true |});
                   bool_decide (allowed
                                = {| bkp_read := true; bkp_write := false; bkp_owner := false |})]
      | _, _ => false
      end
  | Err _ => false
  end.

Definition preserves_structured_api_errors_without_exposing_token : bool :=
  match GarageAdminClient_new ("/" : Url) "do-not-log-this" with
  | Ok client =>
      let (tr, r) := ask [response 404 "NoSuchBucket"] (get_bucket client "missing") in
      match r with
      | Err error =>
          asserts [GarageError_is_not_found error;
                   negb (contains (GarageError_to_string error) "do-not-log-this");
                   match error with
                   | GarageError.Api _ _ code message _ _ =>
                       bool_decide (code = Some "NoSuchBucket")
                       && String.eqb message "bucket does not exist"
                   | _ => false
                   end; Nat.eqb (length tr) 1]
      | Ok _ => false
      end
  | Err _ => false
  end.

Example client_tests_pass :
  asserts [quota_shape_requires_both_dimensions; uses_v2_paths_bearer_auth_and_typed_quota_body;
           permission_replacement_revokes_before_allowing;
           preserves_structured_api_errors_without_exposing_token] = true.
Proof. vm_compute. reflexivity. Qed.

Definition unfinished_uploads_make_bucket_non_empty : bool :=
  let usage bytes uploads := {| usage_bytes := bytes; usage_objects := 0;
                                usage_unfinished_upload_bytes := 0;
                                usage_unfinished_uploads := uploads |} in
  asserts [bucket_is_empty BucketUsage_default; negb (bucket_is_empty (usage 0%Z 1%Z));
           negb (bucket_is_empty (usage 1%Z 0%Z))].

(** An adapter on a mock server. *)
Definition with_adapter {A : Type} (responses : list Response)
    (p : GarageAdapter -> prog HttpE (result GarageBackendError A))
  : option (list string * A) :=
  match GarageAdminClient_new ("/" : Url) "token" with
  | Ok client =>
      match ask responses (p {| adapter_client := client |}) with
      | (tr, Ok a) => Some (receive_paths tr, a)
      | (_, Err _) => None
      end
  | Err _ => None
  end.

Definition reconcile_recovers_bucket_created_before_database_completion : bool :=
  let json := ok "ADAPTER_BUCKET_JSON" in
  let spec := {| spec_region := "heteronet-global"; spec_bucket_name := "tenant-bucket";
                 spec_quota_bytes := 1024; spec_quota_objects := 100 |} in
  match with_adapter [response 404 "missing"; json; json; json; json]
          (fun adapter => first ←? reconcile_bucket adapter None spec;
                          second ←? reconcile_bucket adapter None spec;
                          Ret (Ok (first, second))) with
  | Some (paths, (first, second)) =>
      asserts [String.eqb (rb_physical_bucket_id first) (rb_physical_bucket_id second);
               bool_decide (paths = ["/v2/GetBucketInfo?globalAlias=tenant-bucket";
                                     "/v2/CreateBucket"; "/v2/UpdateBucket?id=bucket-id";
                                     "/v2/GetBucketInfo?globalAlias=tenant-bucket";
                                     "/v2/UpdateBucket?id=bucket-id"])]
  | None => false
  end.

Definition credential_retry_replaces_key_left_by_partial_success : bool :=
  let json := ok "ADAPTER_BUCKET_JSON" in
  let permissions := {| perm_read := true; perm_write := true |} in
  match with_adapter [ok "[]"; ok "first_key"; json; json;
                      ok "[key-one]"; empty 200; ok "second_key"; json; json]
          (fun adapter =>
             first ←? GarageAdapter.create_credential adapter "bucket-id" "deterministic" permissions;
             second ←? GarageAdapter.create_credential adapter "bucket-id" "deterministic" permissions;
             Ret (Ok (first, second))) with
  | Some (paths, (first, second)) =>
      asserts [String.eqb (ic_garage_key_id first) "key-one";
               String.eqb (ic_garage_key_id second) "key-two";
               String.eqb (ic_secret_access_key second) "second-secret";
               bool_decide (paths !! 0 = Some "/v2/ListKeys");
               bool_decide (paths !! 4 = Some "/v2/ListKeys");
               bool_decide (paths !! 5 = Some "/v2/DeleteKey?id=key-one");
               Nat.eqb (length (List.filter (String.eqb "/v2/CreateKey") paths)) 2]
  | None => false
  end.

Definition delete_and_revoke_are_safe_after_external_partial_success : bool :=
  match with_adapter [empty 200; response 404 "missing"; empty 200; response 404 "missing"]
          (fun adapter =>
             _ ←? adapter_delete_bucket adapter "bucket-id";
             _ ←? adapter_delete_bucket adapter "bucket-id";
             _ ←? GarageAdapter.revoke_credential adapter "key-id";
             GarageAdapter.revoke_credential adapter "key-id") with
  | Some (paths, _) =>
      bool_decide (paths = ["/v2/DeleteBucket?id=bucket-id"; "/v2/DeleteBucket?id=bucket-id";
                            "/v2/DeleteKey?id=key-id"; "/v2/DeleteKey?id=key-id"])
  | None => false
  end.

Example adapter_tests_pass :
  asserts [unfinished_uploads_make_bucket_non_empty;
           reconcile_recovers_bucket_created_before_database_completion;
           credential_retry_replaces_key_left_by_partial_success;
           delete_and_revoke_are_safe_after_external_partial_success] = true.
Proof. vm_compute. reflexivity. Qed.
End GarageTests.

(** ** [syouyu-api/src/config.rs] and [routes.rs] *)

Module ApiTests.

(** The URLs of the tests: scheme, user, host and path. *)
Definition origin : UrlLib := {|
  Url := string * string * string * string;
  url_parse s :=
    snd <$> List.find (fun kv => String.eqb kv.1 s)
      [("https://s3.example.test", ("https", "", "s3.example.test", "/"));
       ("ftp://s3.example.test", ("ftp", "", "s3.example.test", "/"));
       ("https://user@s3.example.test", ("https", "user", "s3.example.test", "/"))];
  url_scheme u := u.1.1.1; url_host_str u := Some u.1.2; url_username u := u.1.1.2;
  url_password _ := None; url_query _ := None; url_fragment _ := None |}.

Definition origin_garage : @GarageLib origin :=
  @Build_GarageLib origin (fun u => u.2) (fun u p => (u.1, p)) (fun u p => Ok (u.1, p))
    (fun _ => true) string (fun e => e) unit (fun _ _ => Ok tt) string (fun e => e)
    (fun _ => None) (fun _ => Err "") (fun _ => Err "") (fun _ => Err "") (fun _ => Err "")
    (fun _ => Err "") (fun _ => Err "").

Definition as_str (u : @Url origin) : string := u.1.1.1 +:+ "://" +:+ u.1.2 +:+ u.2.

Definition validates_service_origins : bool :=
  let url := @absolute_http_url origin origin_garage "TEST" in
  asserts [match url "https://s3.example.test" with
           | Ok u => String.eqb (as_str u) "https://s3.example.test/"
           | Err _ => false
           end;
           is_err (url "ftp://s3.example.test"); is_err (url "https://user@s3.example.test")].

Definition validates_garage_region : bool :=
  let region := @Config.validate_region origin origin_garage in
  asserts (is_ok (region "heteronet-global")
           :: map (fun invalid => is_err (region invalid))
                [""; "Heteronet"; "-leading"; "trailing-"; "with.dot"]).

(** Identifiers read in either case, written in lower case. *)
Definition uuid_api : @ApiLib origin :=
  @Build_ApiLib origin
    (fun s => if String.eqb s "id-a" || String.eqb s "ID-A" then Some 10%N else None)
    as_str (fun t => pretty t) (fun _ => None) (fun _ => None) id.
Definition uuid_auth : AuthLib := {|
  HeaderMap := list (string * string); HeaderValue := string;
  headers_get h name := snd <$> List.find (fun kv => String.eqb kv.1 name) h;
  value_to_str := Some; uuid_to_string _ := "id-a"; DecodingKey := unit;
  from_ed_pem _ := None; public_keys_from_str _ := None; decode_header _ := None;
  jwt_decode _ _ _ _ := None |}.

Definition requires_canonical_idempotency_uuid : bool :=
  let key text := @public_idempotency_key uuid_auth origin uuid_api [("idempotency-key", text)] in
  asserts [match key "id-a" with Ok id => N.eqb id 10 | Err _ => false end; is_err (key "ID-A")].

Example api_tests_pass :
  asserts [validates_service_origins; validates_garage_region;
           requires_canonical_idempotency_uuid] = true.
Proof. vm_compute. reflexivity. Qed.
End ApiTests.
